(* ===== verification/_CoqProject ===== *)
-Q . S2P
Prelude.v
Framing.v
H2Frame.v
Huffman.v
PrefixInt.v
HeaderTable.v
Hpack.v
H3Frame.v
Qpack.v
CppString.v
CppMap.v
CppStream.v
HttpTypes.v
Http1Codec.v
WebSocket.v
Executor.v
Coroutine.v
Spawn.v
IoContext.v
IoContextFacts.v
Epoll.v
EpollFacts.v
IoUring.v
IoUringFacts.v
Kqueue.v
KqueueFacts.v
ProcessManager.v
ProcessManagerFacts.v
Transport.v
H3Session.v
H2Session.v
Grpc.v
H2SessionFacts.v
H2Output.v
H2Delivery.v
HttpServer.v
HttpServerFacts.v
Http3Server.v
HttpClient.v
HttpClientFacts.v
GrpcServer.v
GrpcChannel.v
GrpcCalls.v
Frpc.v
P2p.v
H3Delivery.v
H3SessionFacts.v
