(* ===== verification/Prelude.v ===== *)
(** * async_net: a verification development

    async_net is a C++20 library of coroutine-based networking: HTTP/1.1, HTTP/2,
    HTTP/3, WebSocket, gRPC, fRPC and P2P over sockets, TLS and QUIC.  This
    library models the code that is its own logic, the protocol layers above the
    sockets and the executors under them, and proves what makes it correct.
    Paths below are relative to the repository: [src/http] is src/http, [inc] is
    include/async_net.

    ** How the code is modelled

    - Bytes are [Byte.byte], strings and buffers lists of bytes, machine integers
      are [Z] with the wrap-around written out ([u8] to [u64], [i32]); a length
      computed on [size_t] or [uint32_t] is wrapped where the code can reach the
      wrap.
    - A call that can throw, read out of bounds, shift too far or loop for ever
      returns an [outcome] (Prelude.v): [Ok], [Throws], [Undefined] with the kind
      of undefined behaviour, or [Timeout] when the fuel of a loop ran out.  Where
      fuel is used, a theorem or the definition says why it is enough: the loops
      consume at least one byte, one entry or one frame per unit, and the fuel is
      the length of what they consume.
    - Objects are records, methods are functions on them.  [s <| f := v |>] is the
      update of a field.
    - A coroutine that waits for a socket becomes a function of the pieces the
      socket gives; Coroutine.v shows that awaiting a task is calling a function.  User callbacks are functions stored in the state; the calls
      they make back into the object are part of their answer.
    - Threads interleave as lists of events, one per critical section; a theorem
      about every reachable state is about every interleaving.

    ** Files, in order

    - Prelude.v: this file; bytes, integers, outcomes, record updates, network
      byte order, lemmas and tactics.
    - Framing.v: the classes [Framing] (a frame format) and [Reader] (an
      incremental parser of it) and the loop that drives a reader; what a session
      sees does not depend on how the transport cuts its input.  H2Frame.v,
      H3Frame.v, Grpc.v and WebSocket.v give instances.
    - H2Frame.v: src/http/h2_frame.hpp.  Header layout, builders and parsers,
      [frame_reader].
    - Huffman.v, PrefixInt.v, HeaderTable.v, Hpack.v: src/http/hpack.cpp and
      hpack.hpp.  HeaderTable.v also has the class [HeaderCodec], the contract
      between header compression and a session; Hpack.v and Qpack.v implement it.
    - H3Frame.v, Qpack.v: src/http/h3_frame.hpp, qpack.cpp and qpack.hpp.
    - CppString.v: the parts of std::string and std::from_chars the code uses.
    - HttpTypes.v: inc/http/types.hpp.
    - Http1Codec.v: src/http/http1_codec.cpp.
    - Grpc.v: inc/grpc/types.hpp, stream_deframer.hpp, stream.hpp,
      interceptor.hpp, src/grpc/grpc_wire.cpp and grpc_stream.cpp.
    - WebSocket.v: inc/http/websocket.hpp.
    - Executor.v: inc/detail/thread_pool.hpp, inc/executor/executor.hpp,
      thread_pool_executor.hpp and strand.hpp.  The class [Executor] is what a
      strand needs of the executor under it; the pool implements it.
    - Coroutine.v: inc/coroutine/task.hpp and async_result.hpp: tasks as frames on
      a heap.  Spawn.v: inc/coroutine/spawn.hpp and inc/executor/coroutine.hpp:
      the coroutine that [spawn] starts, its [JoinHandle], and the [scheduled_task]
      that may own its frame instead, by interleaved steps.
    - IoContext.v: src/io/io_context.cpp, inc/io/io_context.hpp,
      inc/executor/schedule.hpp: the event loop, its timers and work guards, the
      coroutines that sleep in it.  The class [Backend] is what it needs of an I/O
      backend.  IoContextFacts.v: what the loop guarantees.
    - Epoll.v: src/io/epoll_backend.cpp and inc/io/operation_context.hpp on a
      kernel that is the class [Kernel] of system calls; a poll is two critical
      sections, between which other threads submit and close.  EpollFacts.v: what
      it guarantees, what it forgets, its instance of [Backend], and a small kernel.
    - IoUring.v: src/io/io_uring_backend.cpp: the two rings with their counters of
      32 bits, on a kernel that is the class [Uring].  IoUringFacts.v: what it
      guarantees, as for epoll, and a small kernel.
    - Kqueue.v: src/io/kqueue_backend.cpp on the class [KernelQueue], with any
      number of threads that poll.  KqueueFacts.v: what they cannot lose, the
      accept they can, and a small kernel.
    - ProcessManager.v, ProcessManagerFacts.v: inc/executor/process_manager.hpp:
      the host on any policy, the policy of processes on the system calls of the
      class [Os], the policy of threads.  The theorems about the host are for the
      policy of processes; that of threads ends the program when it stops a worker
      ([thread_stop_terminates]).
    - Transport.v: the class [ByteStream] of what a protocol loop needs of a
      socket, and a pipe that implements it.
    - H2Session.v: src/http/http2_session.cpp, on any [HeaderCodec].
    - H2SessionFacts.v: its invariants, chunking, and the ways it ends.
    - H2Delivery.v: a request and its response, from one session to another.
    - H2Output.v: a session only appends to its output.
    - HttpServer.v: src/http/server_impl.cpp, inc/http/server.hpp and
      server_builder.hpp: routes, the loops of a connection, the builder.
    - HttpServerFacts.v: what a keep-alive connection answers, where a request of
      a built server goes, and the HTTP/2 loop as the run of a session.
    - Http3Server.v: the UDP loop of src/http/server_impl.cpp ([serve_h3]) on any
      [UdpSocket], against one run of a session per peer, an address and a port.
    - HttpClient.v: src/http/client_impl.cpp, inc/http/client.hpp: the pools, and a
      call on a pooled or a new connection of HTTP/1.1, HTTP/2 or HTTP/3.  The
      classes [Network] and [Udp] are the sockets.
    - HttpClientFacts.v: a call from client to server, the pools.
    - GrpcServer.v: src/grpc/grpc_server.cpp: the method table, dispatch, and the
      handlers it installs on a session.  GrpcChannel.v: src/grpc/grpc_channel.cpp.
    - GrpcCalls.v: what a call returns, from a channel to a server.  Frpc.v: the
      server and the channel of src/frpc, which are those of gRPC at another
      [Flavour].
    - CppMap.v, CppStream.v: std::map, and the parts of std::istringstream,
      std::stoi and std::getline the code uses.
    - P2p.v: inc/p2p/peer.hpp, src/p2p/peer_connection.cpp, tracker_server.cpp and
      tracker_client.cpp; the clients of a tracker interleave, and its registry is
      what the history of their connections and REGISTER lines says.
    - H3Session.v: src/http/http3_session.cpp.  ngtcp2 is the class [Quic] of the
      calls the session makes of it; a write answers with the bytes it accepts.
    - H3Delivery.v: a request and its response, from one session to another.
    - H3SessionFacts.v: the life of a promise, pushes, QUIC long headers.

    ** What the theorems show

    - Delivery: a request submitted to an HTTP/2 client, carried by what the two
      sessions write, calls the server's handler once with that request and
      completes the client's promise with the handler's response; over HTTP/3 the
      same when QUIC accepts each message in one write, and else nothing is
      delivered, for the session does not write the rest.  The
      answers of a P2P tracker, read by its client.  A keep-alive connection of
      HTTP/1.1 answers every request in order, and the client's call returns the
      handler's response; a built server routes requests to the handlers
      registered with its builder.
    - Round trips: HPACK and QPACK blocks, Huffman strings, prefix integers,
      frame headers and payloads, HTTP/1.1 messages, URIs, gRPC messages, P2P
      messages, QUIC long headers.
    - Refinement: incremental readers against the reference parser of their
      format, however the input is cut; the dynamic tables against the list of
      the newest entries that fit; a session fed in pieces against the run of its
      frame handler; the loop of the HTTP/3 server against its peers, each served
      on its own.
    - Invariants and safety: the flow control windows of a session, the size of
      the dynamic tables, the order and the exclusion of handlers on a strand and
      of tasks in a pool, the order of messages in a gRPC reader, the promises of
      an HTTP/3 session, the registry of a tracker.
    - The event loop: a posted function runs once and in order, a timer never
      early and in the turn in which it is due, a cancelled sleep is not resumed,
      the work count is the number of guards.  The epoll backend watches every
      pending operation, but for descriptors closed while a wait was deferred, and
      completes and resumes each once; an operation submitted between the two
      critical sections of a poll may be erased by it.  The io_uring backend
      loses no operation, resumes each once and always has its wake-up armed; its
      rings are queues, also when their counters wrap.  No thread that polls kqueue
      loses an operation, an accept excepted.
    - Coroutines: awaiting a task is calling a function; the handle of a spawned
      task gives its result however the two coroutines interleave; which steps
      free its frame.
    - The process manager with workers that are processes: it ends when told to and
      has waited for every worker or killed it, a reload leaves one generation.
    - Termination and progress: the decoders end on every input; no wake-up of
      the pool, the strand or the event loop is lost.
    - Errors: how a session dies; where the code reads out of bounds, wraps or
      never ends.  The theorems about such inputs state what the code does.

    ** Not modelled

    System calls, and the code that is little else: the mapping of the rings of
    io_uring, the backend of Windows (IOCP), sockets, acceptors and connectors,
    DNS.  The bindings of TLS, DTLS and QUIC libraries.  Logging,
    memory exhaustion, and the contents of a moved-from object beyond being
    empty.  The composition of a client and a server is proved for one call of
    HTTP/1.1, for one exchange of two HTTP/2 or HTTP/3 sessions and for one unary
    call of gRPC, not for several of them interleaved on one connection.  Counters
    of 64 bits that grow by one bounded amount per frame are integers.  *)
From Stdlib Require Export ZArith Lia Strings.Byte.
From Stdlib Require Import Strings.String.
From stdpp Require Export base tactics list option numbers strings sets countable gmap.
From stdpp Require Import options.

Ltac Zify.zify_post_hook ::= Z.to_euclidean_division_equations.

Declare Scope net_scope.
Delimit Scope net_scope with net.
Open Scope Z_scope.
Open Scope net_scope.

(** ** Bytes, strings and machine integers *)

Abbreviation byte := Byte.byte.
Abbreviation bytes := (list Byte.byte).

#[export] Instance byte_eq_dec : EqDecision byte := Byte.byte_eq_dec.
#[export] Instance byte_countable : Countable byte :=
  inj_countable Byte.to_N Byte.of_N Byte.of_to_N.

(** The value of a [uint8_t] / [unsigned char]. *)
Definition u8 (b : byte) : Z := Z.of_N (Byte.to_N b).

(** [static_cast<uint8_t>(z)] / [static_cast<char>(z)]: keep the low 8 bits. *)
Definition b8 (z : Z) : byte :=
  match Byte.of_N (Z.to_N (z mod 256)) with Some b => b | None => x00 end.

Arguments u8 : simpl never.
Arguments b8 : simpl never.

(** Wrap-around of the unsigned and signed integers the code computes with. *)
Definition u16 (z : Z) : Z := z mod 2 ^ 16.
Definition u32 (z : Z) : Z := z mod 2 ^ 32.
Definition u64 (z : Z) : Z := z mod 2 ^ 64.
Definition i32 (z : Z) : Z := (z + 2 ^ 31) mod 2 ^ 32 - 2 ^ 31.

(** [std::string::size()], [vector::size()]. *)
Definition len {A} (l : list A) : Z := Z.of_nat (length l).

(** The first [n] elements, and what is left after them. *)
Definition takeZ {A} (n : Z) (l : list A) : list A := take (Z.to_nat n) l.
Definition dropZ {A} (n : Z) (l : list A) : list A := drop (Z.to_nat n) l.

Arguments len : simpl never.
Arguments takeZ : simpl never.
Arguments dropZ : simpl never.
#[global] Typeclasses Opaque len takeZ dropZ.

(** A string literal of the source. *)
Definition str (s : String.string) : bytes := String.list_byte_of_string s.
Arguments str s%_string.

(** ** Outcomes of C++ code

    A call returns a value, throws, or has undefined behaviour.  [Timeout] is
    the value of a loop whose fuel ran out; a loop that can be proved to end
    has a theorem that excludes it. *)

Inductive fault :=
| OutOfBounds   (** a read outside the object a pointer designates *)
| BadShift      (** a shift by at least the width of the type *)
| SignedOverflow
| NullPointer   (** a member of a null pointer *)
| UseAfterFree. (** an access to a destroyed object *)

Inductive exn :=
| RuntimeError (what : bytes)
| BadArgument   (** std::invalid_argument *)
| OutOfRange
| LengthError
| BadFunctionCall   (** a call of an empty std::function *)
| Terminate.        (** std::terminate, that no handler catches *)

Inductive outcome (A : Type) :=
| Ok (a : A)
| Throws (e : exn)
| Undefined (f : fault)
| Timeout.
Arguments Ok {A} a.
Arguments Throws {A} e.
Arguments Undefined {A} f.
Arguments Timeout {A}.

#[export] Instance outcome_ret : MRet outcome := @Ok.
#[export] Instance outcome_bind : MBind outcome := fun A B f m =>
  match m with
  | Ok a => f a
  | Throws e => Throws e
  | Undefined u => Undefined u
  | Timeout => Timeout
  end.
#[export] Instance outcome_fmap : FMap outcome := fun A B f m => a ← m; Ok (f a).

Definition is_ok {A} (m : outcome A) : bool :=
  match m with Ok _ => true | _ => false end.

(** [data[i]] through a pointer to an object of [len data] bytes. *)
Definition rd (data : bytes) (i : Z) : outcome byte :=
  if i <? 0 then Undefined OutOfBounds else
  match data !! Z.to_nat i with
  | Some b => Ok b
  | None => Undefined OutOfBounds
  end.

(** The [n] bytes that start at [data]; undefined when there are fewer. *)
Definition rd_n (data : bytes) (n : Z) : outcome bytes :=
  if n <=? len data then Ok (takeZ n data) else Undefined OutOfBounds.

(** [data[i]] where a test of the code has already bounded [i]. *)
Definition byte_at (data : bytes) (i : Z) : byte :=
  default x00 (data !! Z.to_nat i).

(** [int] addition; overflow is undefined. *)
Definition int_add (a b : Z) : outcome Z :=
  if (- 2 ^ 31 <=? a + b) && (a + b <? 2 ^ 31) then Ok (a + b) else Undefined SignedOverflow.

(** ** Coroutines

    What a user's coroutine has done when it is first resumed: it has returned,
    or thrown a [std::exception], or it is suspended and ends later. *)
Inductive task (A : Type) :=
| Returns (a : A)
| Raises (what : bytes)
| Suspends (later : outcome A).
Arguments Returns {A} a.
Arguments Raises {A} what.
Arguments Suspends {A} later.

(** [co_await] *)
Definition await {A} (t : task A) : outcome A :=
  match t with Returns a => Ok a | Raises what => Throws (RuntimeError what) | Suspends m => m end.

(** ** Updates of record fields

    [s <| f := v |>] is [s] with the field [f] set to [v].  A record type gives
    its eta-expansion as an instance of [Settable]; the setter of a field is that
    term with the projection of the field replaced. *)
Class Settable (R : Type) := eta_of : R -> R.
Class Setter {R A : Type} (field : R -> A) := set_field : (A -> A) -> R -> R.
Arguments set_field {R A} field {Setter} f r.

Ltac find_setter :=
  match goal with
  | |- @Setter ?R ?A ?field =>
      let inst := constr:(ltac:(typeclasses eauto) : Settable R) in
      let name := match inst with ?h _ _ _ _ _ _ _ => h | ?h _ _ _ _ _ _ => h | ?h _ _ _ _ _ => h
        | ?h _ _ _ _ => h | ?h _ _ _ => h | ?h _ _ => h | ?h _ => h | ?h => h end in
      let eta := eval cbv beta delta [name] in inst in
      match eval pattern field in eta with
      | ?update _ =>
          let t := eval cbv beta in (fun f : A -> A => update (fun r => f (field r))) in
          exact t
      end
  end.
#[export] Hint Extern 1 (Setter _) => find_setter : typeclass_instances.

Notation "s <| field ::= f |>" := (set_field field f s)
  (at level 1, f at level 99, left associativity, format "s <| field  ::=  f |>") : net_scope.
Notation "s <| field := v |>" := (set_field field (fun _ => v) s)
  (at level 1, v at level 99, left associativity, format "s <| field  :=  v |>") : net_scope.

(** ** Network byte order

    The stores [p[0] = (v >> 24) & 0xFF; ...] and the loads
    [(uint32_t(p[0]) << 24) | ...] that the frame layers repeat. *)

Definition be16 (v : Z) : bytes :=
  [b8 (Z.land (Z.shiftr v 8) 0xFF); b8 (Z.land v 0xFF)].

Definition be24 (v : Z) : bytes :=
  [b8 (Z.land (Z.shiftr v 16) 0xFF); b8 (Z.land (Z.shiftr v 8) 0xFF);
   b8 (Z.land v 0xFF)].

Definition be32 (v : Z) : bytes :=
  [b8 (Z.land (Z.shiftr v 24) 0xFF); b8 (Z.land (Z.shiftr v 16) 0xFF);
   b8 (Z.land (Z.shiftr v 8) 0xFF); b8 (Z.land v 0xFF)].

Definition rd16 (p : bytes) (i : Z) : Z :=
  Z.lor (Z.shiftl (u8 (byte_at p i)) 8) (u8 (byte_at p (i + 1))).

Definition rd24 (p : bytes) (i : Z) : Z :=
  Z.lor (Z.lor (Z.shiftl (u8 (byte_at p i)) 16)
               (Z.shiftl (u8 (byte_at p (i + 1))) 8))
        (u8 (byte_at p (i + 2))).

Definition rd32 (p : bytes) (i : Z) : Z :=
  Z.lor (Z.lor (Z.lor (Z.shiftl (u8 (byte_at p i)) 24)
                      (Z.shiftl (u8 (byte_at p (i + 1))) 16))
               (Z.shiftl (u8 (byte_at p (i + 2))) 8))
        (u8 (byte_at p (i + 3))).

(** ** Lemmas: bytes *)

Lemma u8_range b : 0 <= u8 b < 256.
Proof. unfold u8. pose proof (Byte.to_N_bounded b). lia. Qed.

Lemma u8_inj b c : u8 b = u8 c -> b = c.
Proof.
  unfold u8. intros H%N2Z.inj.
  pose proof (Byte.of_to_N b). pose proof (Byte.of_to_N c). congruence.
Qed.

Lemma u8_b8 z : u8 (b8 z) = z mod 256.
Proof.
  unfold b8, u8. destruct (Byte.of_N (Z.to_N (z mod 256))) as [b|] eqn:E.
  - apply Byte.to_of_N in E. rewrite E. lia.
  - apply Byte.of_N_None_iff in E. lia.
Qed.

Lemma b8_u8 b : b8 (u8 b) = b.
Proof. apply u8_inj. rewrite u8_b8. pose proof (u8_range b). lia. Qed.

Lemma u8_b8_small z : 0 <= z < 256 -> u8 (b8 z) = z.
Proof. intros. rewrite u8_b8. lia. Qed.

Lemma land_0xFF z : Z.land z 0xFF = z mod 256.
Proof. apply (Z.land_ones z 8). lia. Qed.

Lemma land_0x7F z : Z.land z 0x7F = z mod 128.
Proof. apply (Z.land_ones z 7). lia. Qed.

(** The test [b & 0x80] is a comparison. *)
Lemma land_0x80 b : (Z.land (u8 b) 0x80 =? 0) = (u8 b <? 128).
Proof.
  assert (H : Bool.eqb (Z.land (u8 b) 0x80 =? 0) (u8 b <? 128) = true).
  { destruct b; vm_compute; reflexivity. }
  by apply eqb_prop in H.
Qed.

Lemma b8_mod z : b8 (z mod 256) = b8 z.
Proof. apply u8_inj. rewrite !u8_b8. lia. Qed.

(** Disjoint fields: [|] of a shifted field and a smaller one adds them. *)
Lemma lor_shiftl_add a b n :
  0 <= n -> 0 <= b < 2 ^ n -> Z.lor (Z.shiftl a n) b = a * 2 ^ n + b.
Proof.
  intros Hn Hb. rewrite <- Z.shiftl_mul_pow2 by lia.
  symmetry. rewrite <- Z.add_lor_land.
  assert (Z.land (Z.shiftl a n) b = 0) as ->; [|lia].
  apply Z.bits_inj'; intros i Hi. rewrite Z.land_spec, Z.bits_0.
  destruct (Z.ltb_spec i n) as [Hlt|Hge].
  - rewrite Z.shiftl_spec_low by lia. done.
  - rewrite <- (Z.mod_small b (2 ^ n)), Z.mod_pow2_bits_high by lia.
    apply andb_false_r.
Qed.

Lemma lor_comm_add a b n :
  0 <= n -> 0 <= b < 2 ^ n -> Z.lor b (Z.shiftl a n) = a * 2 ^ n + b.
Proof. intros. rewrite Z.lor_comm. by apply lor_shiftl_add. Qed.

(** ** Lemmas: lengths, prefixes, suffixes *)

Lemma len_nonneg {A} (l : list A) : 0 <= len l.
Proof. unfold len. lia. Qed.

Lemma len_nil {A} : len (@nil A) = 0.
Proof. done. Qed.

Lemma len_cons {A} (x : A) l : len (x :: l) = 1 + len l.
Proof. unfold len. cbn [length]. lia. Qed.

Lemma len_app {A} (l k : list A) : len (l ++ k) = len l + len k.
Proof. unfold len. rewrite length_app. lia. Qed.

Lemma len_zero_nil {A} (l : list A) : len l = 0 -> l = [].
Proof. destruct l; [done|]. rewrite len_cons. pose proof (len_nonneg l). lia. Qed.

Lemma len_takeZ {A} n (l : list A) : len (takeZ n l) = Z.min (Z.max 0 n) (len l).
Proof. unfold len, takeZ. rewrite length_take. lia. Qed.

Lemma len_dropZ {A} n (l : list A) : len (dropZ n l) = Z.max 0 (len l - Z.max 0 n).
Proof. unfold len, dropZ. rewrite length_drop. lia. Qed.

Lemma takeZ_dropZ {A} n (l : list A) : takeZ n l ++ dropZ n l = l.
Proof. apply take_drop. Qed.

Lemma takeZ_app_len {A} n (l k : list A) : n = len l -> takeZ n (l ++ k) = l.
Proof. intros ->. unfold takeZ, len. rewrite Nat2Z.id. apply take_app_length. Qed.

Lemma dropZ_app_len {A} n (l k : list A) : n = len l -> dropZ n (l ++ k) = k.
Proof. intros ->. unfold dropZ, len. rewrite Nat2Z.id. apply drop_app_length. Qed.

Lemma takeZ_0 {A} (l : list A) : takeZ 0 l = [].
Proof. done. Qed.

Lemma dropZ_0 {A} (l : list A) : dropZ 0 l = l.
Proof. done. Qed.

Lemma takeZ_all {A} n (l : list A) : len l <= n -> takeZ n l = l.
Proof. intros. apply take_ge. unfold len in *. lia. Qed.

Lemma dropZ_all {A} n (l : list A) : len l <= n -> dropZ n l = [].
Proof. intros. apply drop_ge. unfold len in *. lia. Qed.

Lemma dropZ_dropZ {A} n m (l : list A) :
  0 <= n -> 0 <= m -> dropZ n (dropZ m l) = dropZ (m + n) l.
Proof. intros. unfold dropZ. rewrite drop_drop. f_equal. lia. Qed.

Lemma takeZ_add {A} n m (l : list A) :
  0 <= n -> 0 <= m -> takeZ (n + m) l = takeZ n l ++ takeZ m (dropZ n l).
Proof.
  intros. unfold takeZ, dropZ. rewrite take_take_drop. f_equal. lia.
Qed.

Lemma dropZ_app_le n (b c : bytes) : n <= len b -> dropZ n (b ++ c) = dropZ n b ++ c.
Proof. intros. unfold dropZ, len in *. by rewrite drop_app_le by lia. Qed.

Lemma takeZ_app_le n (b c : bytes) : n <= len b -> takeZ n (b ++ c) = takeZ n b.
Proof. intros. unfold takeZ, len in *. by rewrite take_app_le by lia. Qed.

Lemma byte_at_app_l p q i : 0 <= i < len p -> byte_at (p ++ q) i = byte_at p i.
Proof. unfold byte_at, len. intros. rewrite lookup_app_l by lia. done. Qed.

Lemma byte_at_app_r p q i : len p <= i -> byte_at (p ++ q) i = byte_at q (i - len p).
Proof.
  unfold byte_at, len. intros. rewrite lookup_app_r by lia.
  by replace (Z.to_nat i - length p)%nat with (Z.to_nat (i - Z.of_nat (length p))) by lia.
Qed.

Lemma byte_at_cons_0 b p i : i = 0 -> byte_at (b :: p) i = b.
Proof. by intros ->. Qed.

Lemma byte_at_cons_S b p i : 0 < i -> byte_at (b :: p) i = byte_at p (i - 1).
Proof.
  intros. unfold byte_at. by replace (Z.to_nat i) with (S (Z.to_nat (i - 1))) by lia.
Qed.

(** Read a byte at a literal position of a literal list. *)
Ltac byte_at_simpl :=
  repeat first [ rewrite byte_at_cons_0 by lia | rewrite byte_at_cons_S by lia ].

Lemma byte_at_lookup p i b : p !! i = Some b -> byte_at p (Z.of_nat i) = b.
Proof. unfold byte_at. rewrite Nat2Z.id. by intros ->. Qed.

Lemma rd_byte_at p i : 0 <= i < len p -> rd p i = Ok (byte_at p i).
Proof.
  unfold rd, byte_at, len. intros. rewrite (proj2 (Z.ltb_ge i 0)) by lia.
  destruct (lookup_lt_is_Some_2 p (Z.to_nat i)) as [b ->]; [lia|done].
Qed.

Lemma rd_n_app p q : rd_n (p ++ q) (len p) = Ok p.
Proof.
  unfold rd_n. rewrite len_app. pose proof (len_nonneg q).
  rewrite (proj2 (Z.leb_le _ _)) by lia. by rewrite takeZ_app_len.
Qed.

(** ** Lemmas: network byte order *)

Lemma length_omap_le {A B} (f : A -> option B) l : (length (omap f l) <= length l)%nat.
Proof. induction l as [|x l IH]; cbn; [done|]. destruct (f x); cbn; lia. Qed.

Lemma len_be16 v : len (be16 v) = 2.
Proof. done. Qed.
Lemma len_be24 v : len (be24 v) = 3.
Proof. done. Qed.
Lemma len_be32 v : len (be32 v) = 4.
Proof. done. Qed.

Lemma rd16_val p i :
  rd16 p i = u8 (byte_at p i) * 2 ^ 8 + u8 (byte_at p (i + 1)).
Proof. unfold rd16. apply lor_shiftl_add; [lia|apply u8_range]. Qed.

Lemma rd24_val p i :
  rd24 p i = u8 (byte_at p i) * 2 ^ 16 + u8 (byte_at p (i + 1)) * 2 ^ 8
             + u8 (byte_at p (i + 2)).
Proof.
  unfold rd24. rewrite <- Z.lor_assoc.
  pose proof (u8_range (byte_at p (i + 1))). pose proof (u8_range (byte_at p (i + 2))).
  rewrite (lor_shiftl_add (u8 (byte_at p (i + 1)))) by lia.
  rewrite lor_shiftl_add by lia. lia.
Qed.

Lemma rd32_val p i :
  rd32 p i = u8 (byte_at p i) * 2 ^ 24 + u8 (byte_at p (i + 1)) * 2 ^ 16
             + u8 (byte_at p (i + 2)) * 2 ^ 8 + u8 (byte_at p (i + 3)).
Proof.
  unfold rd32. rewrite <- !Z.lor_assoc.
  pose proof (u8_range (byte_at p (i + 1))). pose proof (u8_range (byte_at p (i + 2))).
  pose proof (u8_range (byte_at p (i + 3))).
  rewrite (lor_shiftl_add (u8 (byte_at p (i + 2)))) by lia.
  rewrite (lor_shiftl_add (u8 (byte_at p (i + 1)))) by lia.
  rewrite lor_shiftl_add by lia. lia.
Qed.

Lemma rd16_range p i : 0 <= rd16 p i < 2 ^ 16.
Proof.
  rewrite rd16_val. pose proof (u8_range (byte_at p i)).
  pose proof (u8_range (byte_at p (i + 1))). lia.
Qed.

Lemma rd24_range p i : 0 <= rd24 p i < 2 ^ 24.
Proof.
  rewrite rd24_val. pose proof (u8_range (byte_at p i)).
  pose proof (u8_range (byte_at p (i + 1))). pose proof (u8_range (byte_at p (i + 2))). lia.
Qed.

Lemma rd32_range p i : 0 <= rd32 p i < 2 ^ 32.
Proof.
  rewrite rd32_val. pose proof (u8_range (byte_at p i)).
  pose proof (u8_range (byte_at p (i + 1))). pose proof (u8_range (byte_at p (i + 2))).
  pose proof (u8_range (byte_at p (i + 3))). lia.
Qed.

Lemma rd16_shift p q i : len p <= i -> rd16 (p ++ q) i = rd16 q (i - len p).
Proof. intros. unfold rd16. rewrite !byte_at_app_r by lia. do 2 f_equal; do 2 f_equal; lia. Qed.

Lemma rd32_shift p q i : len p <= i -> rd32 (p ++ q) i = rd32 q (i - len p).
Proof. intros. unfold rd32. rewrite !byte_at_app_r by lia. repeat f_equal; lia. Qed.

Lemma rd16_be16 v q : rd16 (be16 v ++ q) 0 = v mod 2 ^ 16.
Proof.
  rewrite rd16_val. cbn [app be16]. byte_at_simpl. rewrite !land_0xFF, !u8_b8, Z.shiftr_div_pow2 by lia. lia.
Qed.

Lemma rd24_be24 v q : rd24 (be24 v ++ q) 0 = v mod 2 ^ 24.
Proof.
  rewrite rd24_val. cbn [app be24]. byte_at_simpl. rewrite !land_0xFF, !u8_b8, !Z.shiftr_div_pow2 by lia. lia.
Qed.

Lemma rd32_be32 v q : rd32 (be32 v ++ q) 0 = v mod 2 ^ 32.
Proof.
  rewrite rd32_val. cbn [app be32]. byte_at_simpl. rewrite !land_0xFF, !u8_b8, !Z.shiftr_div_pow2 by lia. lia.
Qed.

Lemma be24_rd24 a b c q : be24 (rd24 ([a; b; c] ++ q) 0) = [a; b; c].
Proof.
  rewrite rd24_val. cbn [app]. byte_at_simpl. unfold be24. rewrite !land_0xFF, !Z.shiftr_div_pow2 by lia.
  pose proof (u8_range a). pose proof (u8_range b). pose proof (u8_range c).
  repeat f_equal; apply u8_inj; rewrite u8_b8; lia.
Qed.

Lemma be32_rd32 a b c d q : be32 (rd32 ([a; b; c; d] ++ q) 0) = [a; b; c; d].
Proof.
  rewrite rd32_val. cbn [app]. byte_at_simpl. unfold be32. rewrite !land_0xFF, !Z.shiftr_div_pow2 by lia.
  pose proof (u8_range a). pose proof (u8_range b). pose proof (u8_range c).
  pose proof (u8_range d).
  repeat f_equal; apply u8_inj; rewrite u8_b8; lia.
Qed.

(** ** Automation *)

Create HintDb net.
#[export] Hint Resolve u8_range len_nonneg : net.
Create Rewrite HintDb len.
#[export] Hint Rewrite @len_nil @len_cons @len_app @len_takeZ @len_dropZ
  len_be16 len_be24 len_be32 : len.

(** Bring the bounds of every byte and length in sight into the context. *)
Ltac bounds :=
  repeat match goal with
  | |- context [u8 ?b] =>
      lazymatch goal with
      | _ : 0 <= u8 b < 256 |- _ => fail
      | _ => pose proof (u8_range b)
      end
  | _ : context [u8 ?b] |- _ =>
      lazymatch goal with
      | _ : 0 <= u8 b < 256 |- _ => fail
      | _ => pose proof (u8_range b)
      end
  | |- context [len ?l] =>
      lazymatch goal with
      | _ : 0 <= len l |- _ => fail
      | _ => pose proof (len_nonneg l)
      end
  | _ : context [len ?l] |- _ =>
      lazymatch goal with
      | _ : 0 <= len l |- _ => fail
      | _ => pose proof (len_nonneg l)
      end
  end.

(** Arithmetic on lengths and bytes. *)
Ltac blia := autorewrite with len in *; bounds; lia.

(** Decide the comparison a definition branches on. *)
Ltac zdec :=
  repeat match goal with
  | |- context [?a <? ?b] =>
      first [ rewrite (proj2 (Z.ltb_lt a b)) by blia
            | rewrite (proj2 (Z.ltb_ge a b)) by blia ]
  | |- context [?a <=? ?b] =>
      first [ rewrite (proj2 (Z.leb_le a b)) by blia
            | rewrite (proj2 (Z.leb_gt a b)) by blia ]
  | |- context [?a =? ?b] =>
      first [ rewrite (proj2 (Z.eqb_eq a b)) by blia
            | rewrite (proj2 (Z.eqb_neq a b)) by blia ]
  end.

(** Split the comparisons a definition branches on into cases. *)
Ltac zcases :=
  repeat match goal with
  | |- context [?a <? ?b] => destruct (Z.ltb_spec a b)
  | |- context [?a <=? ?b] => destruct (Z.leb_spec a b)
  | |- context [?a =? ?b] => destruct (Z.eqb_spec a b)
  end.

(** Close a closed arithmetic side condition by evaluation. *)
Ltac ground := vm_compute; intuition congruence.

Lemma bind_ok {A B} (m : outcome A) (f : A -> outcome B) (y : B) :
  (m ≫= f) = Ok y -> exists a, m = Ok a /\ f a = Ok y.
Proof. destruct m; naive_solver. Qed.

(** A call whose loops all end. *)
Definition terminates {A} (m : outcome A) : Prop := m <> Timeout.

Lemma terminates_ok {A} (a : A) : terminates (Ok a).
Proof. done. Qed.

Lemma terminates_bind {A B} (m : outcome A) (f : A -> outcome B) :
  terminates m -> (forall a, terminates (f a)) -> terminates (m ≫= f).
Proof. destruct m; cbn; done || auto. Qed.

Lemma terminates_rd data i : terminates (rd data i).
Proof. unfold rd. destruct (i <? 0); [done|]. by destruct (data !! _). Qed.

Lemma terminates_rd_n data n : terminates (rd_n data n).
Proof. unfold rd_n. by destruct (n <=? len data). Qed.

#[export] Hint Resolve terminates_ok terminates_rd terminates_rd_n : net.

(** Push [terminates] through binds and branches. *)
Ltac terminates :=
  repeat first
    [ solve [eauto with net]
    | apply terminates_bind
    | match goal with |- forall _, _ => intros ? end
    | case_match
    | done ].
