(* ===== verification/Framing.v ===== *)
(** * Framing: the interface between frame layers and their clients

    A protocol is a function [parse1] that reads one frame off the front of a
    byte string.  [parse_all] is the reference parser: it cuts a whole string
    into frames and leaves the incomplete rest.  A [Reader] is an incremental
    parser, with the feed / has_frame / take_frame operations of
    src/src/http/h2_frame.hpp, that promises to refine [parse1].  [pump] is
    the loop with which a session drives a reader
    (src/src/http/http2_session.cpp, [impl::feed]); its theorem says that how
    the transport cuts the stream into reads does not matter. *)
From S2P Require Import Prelude.
From stdpp Require Import options.

Class Framing (F : Type) := {
  parse1 : bytes -> option (F * Z);
  parse1_bounds b f n : parse1 b = Some (f, n) -> 0 < n <= len b;
  parse1_app b c f n : parse1 b = Some (f, n) -> parse1 (b ++ c) = Some (f, n)
}.

(** The reference parser; one unit of fuel per frame. *)
Fixpoint parse_fuel `{Framing F} (fuel : nat) (b : bytes) : list F * bytes :=
  match fuel with
  | O => ([], b)
  | S fuel =>
      match parse1 b with
      | None => ([], b)
      | Some (f, n) =>
          let '(fs, rest) := parse_fuel fuel (dropZ n b) in (f :: fs, rest)
      end
  end.

Definition parse_all `{Framing F} (b : bytes) : list F * bytes :=
  parse_fuel (length b) b.

Class Reader (R F : Type) `{Framing F} := {
  reader_init : R;
  reader_feed : R -> bytes -> R * Z;
  reader_has_frame : R -> bool;
  reader_take_frame : R -> F * R;
  (** [absorbed r b]: since its last frame, [r] has consumed exactly [b]. *)
  absorbed : R -> bytes -> Prop;
  absorbed_init : absorbed reader_init [];
  reader_feed_spec r b d :
    absorbed r b -> reader_has_frame r = false ->
    let '(r', n) := reader_feed r d in
    0 <= n <= len d /\ (d <> [] -> 0 < n) /\ absorbed r' (b ++ takeZ n d) /\
    (n < len d -> reader_has_frame r' = true);
  reader_frame_spec r b :
    absorbed r b ->
    if reader_has_frame r
    then parse1 b = Some ((reader_take_frame r).1, len b) /\
         absorbed (reader_take_frame r).2 []
    else parse1 b = None
}.

Section Pump.
Context {R F S : Type} `{Reader R F} (process : S -> F -> S) (alive : S -> bool).

(** [while (reader_.has_frame()) { take; process; if (!alive_) break; }] *)
Fixpoint drain (fuel : nat) (r : R) (s : S) : R * S :=
  match fuel with
  | O => (r, s)
  | Datatypes.S fuel =>
      if reader_has_frame r then
        let '(f, r) := reader_take_frame r in
        let s := process s f in
        if alive s then drain fuel r s else (r, s)
      else (r, s)
  end.

(** One iteration per call of [reader_.feed]; [total] is [total_consumed]. *)
Fixpoint pump_fuel (fuel : nat) (r : R) (s : S) (data : bytes) (total : Z)
  : R * S * Z :=
  match fuel with
  | O => (r, s, total)
  | Datatypes.S fuel =>
      if negb ((total <? len data) && alive s) then (r, s, total) else
      let '(r, consumed) := reader_feed r (dropZ total data) in
      let total := total + consumed in
      let '(r, s) := drain 2 r s in
      if (consumed =? 0) && negb (reader_has_frame r) then (r, s, total)
      else pump_fuel fuel r s data total
  end.

(** [len data + 1] iterations are enough: each one consumes a byte or stops. *)
Definition pump (r : R) (s : S) (data : bytes) : R * S * Z :=
  pump_fuel (Datatypes.S (length data)) r s data 0.

(** Successive reads from the transport; [feed] refuses input once dead. *)
Fixpoint pump_list (r : R) (s : S) (chunks : list bytes) : R * S :=
  match chunks with
  | [] => (r, s)
  | d :: ds =>
      if alive s then let '(r, s, _) := pump r s d in pump_list r s ds
      else pump_list r s ds
  end.

(** What a session does with a list of frames: stop once it is dead. *)
Fixpoint run (s : S) (fs : list F) : S :=
  match fs with
  | [] => s
  | f :: fs => if alive s then run (process s f) fs else s
  end.

End Pump.

(** ** The reference parser *)

Section Parse.
Context `{Framing F}.

Lemma parse1_nil : parse1 [] = None.
Proof.
  destruct (parse1 []) as [[f n]|] eqn:E; [|done].
  apply parse1_bounds in E. blia.
Qed.

Lemma parse_fuel_enough n m b :
  (length b <= n)%nat -> (length b <= m)%nat -> parse_fuel n b = parse_fuel m b.
Proof.
  revert m b. induction n as [|n IH]; intros m b Hn Hm.
  - assert (b = []) as -> by (apply nil_length_inv; lia).
    destruct m; cbn; [done|]. by rewrite parse1_nil.
  - destruct m as [|m].
    { assert (b = []) as -> by (apply nil_length_inv; lia). cbn. by rewrite parse1_nil. }
    cbn. destruct (parse1 b) as [[f k]|] eqn:E; [|done].
    apply parse1_bounds in E.
    rewrite (IH m (dropZ k b)); [done|..]; unfold dropZ, len in *; rewrite length_drop; lia.
Qed.

Lemma parse_all_step b :
  parse_all b =
  match parse1 b with
  | None => ([], b)
  | Some (f, n) => let '(fs, rest) := parse_all (dropZ n b) in (f :: fs, rest)
  end.
Proof.
  unfold parse_all. rewrite (parse_fuel_enough _ (S (length b))) by lia. cbn.
  destruct (parse1 b) as [[f n]|] eqn:E; [|done]. apply parse1_bounds in E.
  rewrite (parse_fuel_enough (length b) (length (dropZ n b))); [done|..];
    unfold dropZ, len in *; rewrite length_drop; lia.
Qed.

Lemma parse_all_none b : parse1 b = None -> parse_all b = ([], b).
Proof. intros E. by rewrite parse_all_step, E. Qed.

Lemma parse_all_cons b c f :
  parse1 b = Some (f, len b) ->
  parse_all (b ++ c) = (f :: (parse_all c).1, (parse_all c).2).
Proof.
  intros E. rewrite parse_all_step, (parse1_app _ c _ _ E), dropZ_app_len by done.
  by destruct (parse_all c).
Qed.

(** Cutting the input anywhere gives the same frames. *)
Lemma parse_all_app b c :
  parse_all (b ++ c) =
  ((parse_all b).1 ++ (parse_all ((parse_all b).2 ++ c)).1,
   (parse_all ((parse_all b).2 ++ c)).2).
Proof.
  remember (length b) as n eqn:Hn. revert b Hn.
  induction n as [n IH] using lt_wf_ind; intros b ->.
  rewrite (parse_all_step b). destruct (parse1 b) as [[f k]|] eqn:E; cbn [fst snd].
  - pose proof (parse1_bounds _ _ _ E) as Hb.
    rewrite parse_all_step, (parse1_app _ c _ _ E).
    assert (dropZ k (b ++ c) = dropZ k b ++ c) as ->.
    { unfold dropZ, len in *. rewrite drop_app_le by lia. done. }
    rewrite (IH (length (dropZ k b))); [|unfold dropZ, len in *; rewrite length_drop; lia|done].
    by destruct (parse_all (dropZ k b)).
  - cbn [app]. apply surjective_pairing.
Qed.

Lemma parse_all_rest b : parse1 (parse_all b).2 = None.
Proof.
  remember (length b) as n eqn:Hn. revert b Hn.
  induction n as [n IH] using lt_wf_ind; intros b ->.
  rewrite parse_all_step. destruct (parse1 b) as [[f k]|] eqn:E; [|done].
  pose proof (parse1_bounds _ _ _ E).
  specialize (IH (length (dropZ k b))).
  destruct (parse_all (dropZ k b)) eqn:E'; cbn.
  specialize (IH ltac:(unfold dropZ, len in *; rewrite length_drop; lia) _ eq_refl).
  by rewrite E' in IH.
Qed.

End Parse.

(** ** Driving a reader *)

Section PumpFacts.
Context {R F S : Type} `{Reader R F} (process : S -> F -> S) (alive : S -> bool).

Abbreviation run := (run process alive).

Lemma run_dead s fs : alive s = false -> run s fs = s.
Proof. destruct fs; cbn; [done|]. by intros ->. Qed.

Lemma run_app s fs gs : run s (fs ++ gs) = run (run s fs) gs.
Proof.
  revert s. induction fs as [|f fs IH]; intros s; cbn; [done|].
  destruct (alive s) eqn:E; [done|]. by rewrite run_dead.
Qed.

Lemma has_frame_empty r : absorbed r [] -> reader_has_frame r = false.
Proof.
  intros Hr. pose proof (reader_frame_spec _ _ Hr) as Hf.
  destruct (reader_has_frame r); [|done]. destruct Hf as [Hf _].
  rewrite parse1_nil in Hf. done.
Qed.

Lemma drain_spec r b s :
  absorbed r b -> alive s = true ->
  let '(r', s') := drain process alive 2 r s in
  s' = run s (parse_all b).1 /\ absorbed r' (parse_all b).2 /\
  reader_has_frame r' = false.
Proof.
  intros Hr Hs. pose proof (reader_frame_spec _ _ Hr) as Hf. cbn.
  destruct (reader_has_frame r) eqn:E.
  - destruct (reader_take_frame r) as [f r1]; cbn in *. destruct Hf as [Hp Hr1].
    pose proof (has_frame_empty _ Hr1) as E1. rewrite E1.
    pose proof (parse_all_cons b [] f Hp) as Hc.
    rewrite app_nil_r, (parse_all_none []) in Hc by apply parse1_nil. rewrite Hc. cbn.
    rewrite Hs. by destruct (alive (process s f)).
  - rewrite parse_all_none by done. cbn. done.
Qed.

Lemma pump_fuel_spec fuel r b s data total :
  absorbed r b -> parse1 b = None -> 0 <= total <= len data ->
  (Z.to_nat (len data - total) < fuel)%nat ->
  let '(r', s', t) := pump_fuel process alive fuel r s data total in
  s' = run s (parse_all (b ++ dropZ total data)).1 /\ total <= t <= len data /\
  (alive s' = true -> t = len data /\
     absorbed r' (parse_all (b ++ dropZ total data)).2 /\ reader_has_frame r' = false).
Proof.
  revert r b s total. induction fuel as [|fuel IH]; intros r b s total Hr Hb Ht Hfuel; [lia|].
  assert (Hno : reader_has_frame r = false).
  { pose proof (reader_frame_spec _ _ Hr) as Hf. destruct (reader_has_frame r); [|done].
    destruct Hf as [Hf _]. congruence. }
  cbn [pump_fuel]. destruct (Z.ltb_spec total (len data)) as [Hlt|Hge]; cbn [negb andb].
  2: { rewrite dropZ_all, app_nil_r, parse_all_none by (done || lia). cbn.
       repeat split; try done; lia. }
  destruct (alive s) eqn:Hs; cbn [negb andb].
  2: { rewrite run_dead by done. split; [done|]. split; [lia|congruence]. }
  pose proof (reader_feed_spec r b (dropZ total data) Hr Hno) as Hfeed.
  destruct (reader_feed r (dropZ total data)) as [r1 n].
  destruct Hfeed as (Hn & Hpos & Hr1 & Hmore).
  rewrite len_dropZ in *. set (d := dropZ total data) in *.
  assert (0 < n). { apply Hpos. intros E. apply (f_equal len) in E.
    unfold d in E. blia. }
  pose proof (drain_spec r1 (b ++ takeZ n d) s Hr1 Hs) as Hd.
  destruct (drain process alive 2 r1 s) as [r2 s2]. destruct Hd as (-> & Hr2 & Hno2).
  rewrite (proj2 (Z.eqb_neq n 0)) by lia. cbn [andb].
  specialize (IH r2 _ (run s (parse_all (b ++ takeZ n d)).1) (total + n) Hr2
                (parse_all_rest _) ltac:(lia) ltac:(lia)).
  assert (dropZ (total + n) data = dropZ n d) as Hdd.
  { unfold d. rewrite dropZ_dropZ by lia. f_equal. }
  rewrite Hdd in IH.
  assert (b ++ d = (b ++ takeZ n d) ++ dropZ n d) as Hsplit.
  { by rewrite <- app_assoc, takeZ_dropZ. }
  rewrite Hsplit, (parse_all_app (b ++ takeZ n d)). cbn. rewrite run_app.
  destruct (pump_fuel _ _ _ _ _ _ _) as [[r3 s3] t]. destruct IH as (-> & ? & ?).
  split; [done|]. split; [lia|done].
Qed.

(** Whatever the cut, a session sees the frames of the reference parser. *)
Lemma pump_spec r b s data :
  absorbed r b -> parse1 b = None ->
  let '(r', s', t) := pump process alive r s data in
  s' = run s (parse_all (b ++ data)).1 /\ 0 <= t <= len data /\
  (alive s' = true -> t = len data /\
     absorbed r' (parse_all (b ++ data)).2 /\ reader_has_frame r' = false).
Proof.
  intros Hr Hb. unfold pump.
  pose proof (pump_fuel_spec (Datatypes.S (length data)) r b s data 0 Hr Hb) as Hp.
  rewrite dropZ_0 in Hp. apply Hp; unfold len; lia.
Qed.

Lemma pump_list_dead r s ds :
  alive s = false -> (pump_list process alive r s ds).2 = s.
Proof. intros Hs. induction ds as [|d ds IH]; cbn; [done|]. by rewrite Hs. Qed.

Lemma pump_list_spec r b s ds :
  absorbed r b -> parse1 b = None ->
  (pump_list process alive r s ds).2 = run s (parse_all (b ++ concat ds)).1.
Proof.
  revert r b s. induction ds as [|d ds IH]; intros r b s Hr Hb; cbn [pump_list concat].
  - by rewrite app_nil_r, parse_all_none.
  - destruct (alive s) eqn:Hs.
    2: { rewrite run_dead by done. by apply pump_list_dead. }
    pose proof (pump_spec r b s d Hr Hb) as Hp.
    destruct (pump process alive r s d) as [[r' s'] t]. destruct Hp as (-> & _ & Hlive).
    rewrite app_assoc, (parse_all_app (b ++ d)). cbn [fst]. rewrite run_app.
    destruct (alive (run s (parse_all (b ++ d)).1)) eqn:Ha.
    + destruct (Hlive eq_refl) as (_ & Hr' & _). apply (IH _ _ _ Hr'), parse_all_rest.
    + rewrite (run_dead (run s _)) by done. by apply pump_list_dead.
Qed.

End PumpFacts.
