(* ===== verification/H2Frame.v ===== *)
(** * HTTP/2 frame layer (src/src/http/h2_frame.hpp)

    The 9-byte frame header, the frame builders and payload parsers, and the
    incremental [frame_reader].  An [enum class] with a fixed underlying type
    is its underlying integer, since the code casts wire bytes into it; the
    enumerators are constants.  [header_buf_] holds the filled prefix of the
    9-byte array, so [header_buf_len_] is its length. *)
From S2P Require Import Prelude Framing.
From stdpp Require Import options.

Definition FRAME_HEADER_SIZE : Z := 9.
Definition SETTINGS_PARAM_SIZE : Z := 6.
Definition DEFAULT_MAX_FRAME_SIZE : Z := 16384.
Definition DEFAULT_WINDOW_SIZE : Z := 65535.
Definition MAX_WINDOW_SIZE : Z := 0x7FFFFFFF.
Definition SIZE_MAX : Z := 2 ^ 64 - 1.

Definition CONNECTION_PREFACE : bytes :=
  str "PRI * HTTP/2.0" ++ [x0d; x0a; x0d; x0a] ++ str "SM" ++ [x0d; x0a; x0d; x0a].

(** ** [enum class frame_type : uint8_t] *)
Module frame_type.
Definition DATA : Z := 0.
Definition HEADERS : Z := 1.
Definition PRIORITY : Z := 2.
Definition RST_STREAM : Z := 3.
Definition SETTINGS : Z := 4.
Definition PUSH_PROMISE : Z := 5.
Definition PING : Z := 6.
Definition GOAWAY : Z := 7.
Definition WINDOW_UPDATE : Z := 8.
Definition CONTINUATION : Z := 9.
End frame_type.

Definition frame_type_name (t : Z) : bytes :=
  if t =? frame_type.DATA then str "DATA"
  else if t =? frame_type.HEADERS then str "HEADERS"
  else if t =? frame_type.PRIORITY then str "PRIORITY"
  else if t =? frame_type.RST_STREAM then str "RST_STREAM"
  else if t =? frame_type.SETTINGS then str "SETTINGS"
  else if t =? frame_type.PUSH_PROMISE then str "PUSH_PROMISE"
  else if t =? frame_type.PING then str "PING"
  else if t =? frame_type.GOAWAY then str "GOAWAY"
  else if t =? frame_type.WINDOW_UPDATE then str "WINDOW_UPDATE"
  else if t =? frame_type.CONTINUATION then str "CONTINUATION"
  else str "UNKNOWN".

(** ** [namespace flag] *)
Module flag.
Definition NONE : Z := 0x00.
Definition ACK : Z := 0x01.
Definition END_STREAM : Z := 0x01.
Definition END_HEADERS : Z := 0x04.
Definition PADDED : Z := 0x08.
Definition PRIORITY : Z := 0x20.
End flag.

(** ** [enum class error_code : uint32_t] *)
Module error_code.
Definition NO_ERR : Z := 0x0.
Definition PROTOCOL_ERROR : Z := 0x1.
Definition INTERNAL_ERROR : Z := 0x2.
Definition FLOW_CONTROL_ERROR : Z := 0x3.
Definition SETTINGS_TIMEOUT : Z := 0x4.
Definition STREAM_CLOSED : Z := 0x5.
Definition FRAME_SIZE_ERROR : Z := 0x6.
Definition REFUSED_STREAM : Z := 0x7.
Definition CANCEL : Z := 0x8.
Definition COMPRESSION_ERROR : Z := 0x9.
Definition CONNECT_ERROR : Z := 0xA.
Definition ENHANCE_YOUR_CALM : Z := 0xB.
Definition INADEQUATE_SECURITY : Z := 0xC.
Definition HTTP_1_1_REQUIRED : Z := 0xD.
End error_code.

(** ** [enum class setting_id : uint16_t] *)
Module setting_id.
Definition HEADER_TABLE_SIZE : Z := 0x1.
Definition ENABLE_PUSH : Z := 0x2.
Definition MAX_CONCURRENT_STREAMS : Z := 0x3.
Definition INITIAL_WINDOW_SIZE : Z := 0x4.
Definition MAX_FRAME_SIZE : Z := 0x5.
Definition MAX_HEADER_LIST_SIZE : Z := 0x6.
End setting_id.

Record setting_entry := { se_id : Z; se_value : Z }.

(** ** Frame header *)
Record frame_header := {
  fh_length : Z;     (* uint32_t *)
  fh_type : Z;       (* uint8_t *)
  fh_flags : Z;      (* uint8_t *)
  fh_stream_id : Z   (* int32_t *)
}.

Definition frame_header_default : frame_header :=
  {| fh_length := 0; fh_type := frame_type.DATA; fh_flags := 0; fh_stream_id := 0 |}.

Definition has_flag (fh : frame_header) (f : Z) : bool :=
  negb (Z.land (fh_flags fh) f =? 0).

Definition write_to (fh : frame_header) : bytes :=
  be24 (fh_length fh) ++ [b8 (fh_type fh)] ++ [b8 (fh_flags fh)] ++
  be32 (Z.land (u32 (fh_stream_id fh)) 0x7FFFFFFF).

Definition read_from (buf : bytes) : frame_header :=
  {| fh_length := rd24 buf 0;
     fh_type := u8 (byte_at buf 3);
     fh_flags := u8 (byte_at buf 4);
     fh_stream_id := Z.land (i32 (rd32 buf 5)) 0x7FFFFFFF |}.

Arguments write_to fh : simpl never.
Arguments read_from buf : simpl never.

Record frame := { hdr : frame_header; payload : bytes }.

(** ** Builders *)
Definition build_frame (type flags stream_id : Z) (pl : bytes) : bytes :=
  write_to {| fh_length := u32 (len pl); fh_type := type; fh_flags := flags;
              fh_stream_id := stream_id |} ++ pl.

Definition setting_wire (s : setting_entry) : bytes :=
  be16 (se_id s) ++ be32 (se_value s).

Definition build_settings_frame (settings : list setting_entry) (ack : bool) : bytes :=
  let payload := if ack then [] else concat (map setting_wire settings) in
  build_frame frame_type.SETTINGS (if ack then flag.ACK else flag.NONE) 0 payload.

Definition build_window_update (stream_id increment : Z) : bytes :=
  build_frame frame_type.WINDOW_UPDATE 0 stream_id
    (be32 (Z.land increment 0x7FFFFFFF)).

Definition build_goaway (last_stream_id ec : Z) (debug_data : bytes) : bytes :=
  build_frame frame_type.GOAWAY 0 0
    (be32 (Z.land (u32 last_stream_id) 0x7FFFFFFF) ++ be32 ec ++ debug_data).

Definition build_rst_stream (stream_id ec : Z) : bytes :=
  build_frame frame_type.RST_STREAM 0 stream_id (be32 ec).

Definition build_ping (opaque_data : bytes) (ack : bool) : bytes :=
  build_frame frame_type.PING (if ack then flag.ACK else 0) 0 (takeZ 8 opaque_data).

Definition build_push_promise (stream_id promised_stream_id : Z)
    (header_block : bytes) : bytes :=
  build_frame frame_type.PUSH_PROMISE flag.END_HEADERS stream_id
    (be32 (Z.land (u32 promised_stream_id) 0x7FFFFFFF) ++ header_block).

(** ** Payload parsers *)

(** The loop of [parse_settings]; one unit of fuel per 6-byte entry. *)
Fixpoint parse_settings_loop (fuel : nat) (pl : bytes) (i : Z) : list setting_entry :=
  match fuel with
  | O => []
  | S fuel =>
      if i <? len pl then
        {| se_id := rd16 pl i; se_value := rd32 pl (i + 2) |}
          :: parse_settings_loop fuel pl (i + SETTINGS_PARAM_SIZE)
      else []
  end.

Definition parse_settings (pl : bytes) : list setting_entry :=
  if negb (len pl mod SETTINGS_PARAM_SIZE =? 0) then []
  else parse_settings_loop (length pl) pl 0.

Definition parse_window_update (pl : bytes) : Z :=
  if len pl <? 4 then 0 else Z.land (rd32 pl 0) 0x7FFFFFFF.

Record push_promise_data := {
  pp_promised_stream_id : Z;
  pp_header_block : bytes
}.

Definition parse_push_promise (pl : bytes) : push_promise_data :=
  if len pl <? 4 then {| pp_promised_stream_id := 0; pp_header_block := [] |}
  else {| pp_promised_stream_id := Z.land (i32 (rd32 pl 0)) 0x7FFFFFFF;
          pp_header_block := if 4 <? len pl then dropZ 4 pl else [] |}.

Record goaway_data := {
  ga_last_stream_id : Z;
  ga_ec : Z;
  ga_debug_data : bytes
}.

Definition parse_goaway (pl : bytes) : goaway_data :=
  if len pl <? 8
  then {| ga_last_stream_id := 0; ga_ec := error_code.NO_ERR; ga_debug_data := [] |}
  else {| ga_last_stream_id := Z.land (i32 (rd32 pl 0)) 0x7FFFFFFF;
          ga_ec := rd32 pl 4;
          ga_debug_data := if 8 <? len pl then dropZ 8 pl else [] |}.

(** ** [class frame_reader] *)
Record frame_reader := {
  header_buf : bytes;
  current_header : frame_header;
  current_length : Z;
  payload_buf : bytes
}.

Definition frame_reader_init : frame_reader :=
  {| header_buf := []; current_header := frame_header_default;
     current_length := SIZE_MAX; payload_buf := [] |}.

(** The test that ends each iteration of [feed]: the header just became
    complete and the payload length is not known yet. *)
Definition check_header (r : frame_reader) : frame_reader :=
  if (len (header_buf r) =? FRAME_HEADER_SIZE) && (current_length r =? SIZE_MAX) then
    let h := read_from (header_buf r) in
    {| header_buf := header_buf r; current_header := h;
       current_length := fh_length h; payload_buf := [] |}
  else r.

(** Each iteration consumes a byte or stops, so [len data] units of fuel
    let the loop run to its end. *)
Fixpoint feed_loop (fuel : nat) (r : frame_reader) (data : bytes) (consumed : Z)
  : frame_reader * Z :=
  match fuel with
  | O => (r, consumed)
  | S fuel =>
      if consumed <? len data then
        if len (header_buf r) <? FRAME_HEADER_SIZE then
          let need := FRAME_HEADER_SIZE - len (header_buf r) in
          let take := Z.min need (len data - consumed) in
          let r := {| header_buf := header_buf r ++ takeZ take (dropZ consumed data);
                      current_header := current_header r;
                      current_length := current_length r;
                      payload_buf := payload_buf r |} in
          feed_loop fuel (check_header r) data (consumed + take)
        else if len (payload_buf r) <? current_length r then
          let need := current_length r - len (payload_buf r) in
          let take := Z.min need (len data - consumed) in
          let r := {| header_buf := header_buf r;
                      current_header := current_header r;
                      current_length := current_length r;
                      payload_buf := payload_buf r ++ takeZ take (dropZ consumed data) |} in
          feed_loop fuel (check_header r) data (consumed + take)
        else (r, consumed)
      else (r, consumed)
  end.

Definition feed (r : frame_reader) (data : bytes) : frame_reader * Z :=
  feed_loop (length data) r data 0.

Definition has_frame (r : frame_reader) : bool :=
  (len (header_buf r) =? FRAME_HEADER_SIZE) && (current_length r <=? len (payload_buf r)).

Definition take_frame (r : frame_reader) : frame * frame_reader :=
  ({| hdr := current_header r; payload := payload_buf r |},
   {| header_buf := []; current_header := current_header r;
      current_length := SIZE_MAX; payload_buf := [] |}).

(** ** Reference: one frame off the front of a byte string *)
Definition parse_frame1 (b : bytes) : option (frame * Z) :=
  if len b <? FRAME_HEADER_SIZE then None else
  let h := read_from (takeZ FRAME_HEADER_SIZE b) in
  if len b <? FRAME_HEADER_SIZE + fh_length h then None else
  Some ({| hdr := h; payload := takeZ (fh_length h) (dropZ FRAME_HEADER_SIZE b) |},
        FRAME_HEADER_SIZE + fh_length h).

(** The headers the wire format can carry. *)
Definition header_ok (h : frame_header) : Prop :=
  0 <= fh_length h < 2 ^ 24 /\ 0 <= fh_type h < 256 /\ 0 <= fh_flags h < 256 /\
  0 <= fh_stream_id h < 2 ^ 31.

Definition frame_ok (f : frame) : Prop :=
  header_ok (hdr f) /\ fh_length (hdr f) = len (payload f).

Definition frame_wire (f : frame) : bytes :=
  build_frame (fh_type (hdr f)) (fh_flags (hdr f)) (fh_stream_id (hdr f)) (payload f).

(** ** Lemmas: headers *)

Lemma land_31 z : Z.land z 0x7FFFFFFF = z mod 2 ^ 31.
Proof. apply (Z.land_ones z 31). lia. Qed.

Lemma land_i32_31 z : Z.land (i32 z) 0x7FFFFFFF = z mod 2 ^ 31.
Proof. rewrite land_31. unfold i32. lia. Qed.

Lemma land_u32_31 z : Z.land (u32 z) 0x7FFFFFFF = z mod 2 ^ 31.
Proof. rewrite land_31. unfold u32. lia. Qed.

Lemma len_write_to h : len (write_to h) = 9.
Proof. done. Qed.

Lemma read_from_ok b : header_ok (read_from b).
Proof.
  unfold header_ok, read_from; cbn. pose proof (rd24_range b 0).
  rewrite land_i32_31. bounds. lia.
Qed.

Lemma read_from_app b c : 9 <= len b -> read_from (b ++ c) = read_from b.
Proof.
  intros. unfold read_from, rd24, rd32. rewrite !byte_at_app_l by lia. done.
Qed.

Lemma rd24_write_to h : rd24 (write_to h) 0 = fh_length h mod 2 ^ 24.
Proof. unfold write_to. apply rd24_be24. Qed.

Lemma byte_3_write_to h : byte_at (write_to h) 3 = b8 (fh_type h).
Proof. unfold write_to. by rewrite byte_at_app_r by blia. Qed.

Lemma byte_4_write_to h : byte_at (write_to h) 4 = b8 (fh_flags h).
Proof. unfold write_to. by do 2 rewrite byte_at_app_r by blia. Qed.

Lemma rd32_write_to h : rd32 (write_to h) 5 = fh_stream_id h mod 2 ^ 31.
Proof.
  unfold write_to. do 3 rewrite rd32_shift by blia. autorewrite with len.
  rewrite <- (app_nil_r (be32 _)). cbn [Z.sub Z.add Z.pos_sub Z.opp Pos.pred_double].
  rewrite land_u32_31. rewrite (rd32_be32 _ []). lia.
Qed.

Lemma read_from_write_to h : header_ok h -> read_from (write_to h) = h.
Proof.
  intros (Hl & Ht & Hf & Hs). unfold read_from.
  rewrite rd24_write_to, byte_3_write_to, byte_4_write_to, rd32_write_to.
  rewrite land_i32_31, !u8_b8_small by lia. rewrite !Z.mod_small by lia.
  by destruct h.
Qed.

Lemma write_to_read_from b :
  len b = 9 -> u8 (byte_at b 5) < 128 -> write_to (read_from b) = b.
Proof.
  intros Hb Hr. unfold len in Hb.
  destruct b as [|b0 [|b1 [|b2 [|b3 [|b4 [|b5 [|b6 [|b7 [|b8' [|]]]]]]]]]]; try (cbn in Hb; lia).
  unfold write_to, read_from; cbn [fh_length fh_type fh_flags fh_stream_id].
  pose proof (be24_rd24 b0 b1 b2 [b3; b4; b5; b6; b7; b8']) as H3. cbn [app] in H3.
  rewrite H3, land_i32_31, land_u32_31.
  change [b0; b1; b2; b3; b4; b5; b6; b7; b8'] with ([b0; b1; b2; b3; b4] ++ [b5; b6; b7; b8']).
  rewrite rd32_shift by blia. autorewrite with len.
  pose proof (be32_rd32 b5 b6 b7 b8' []) as H4. rewrite app_nil_r in H4.
  pose proof (rd32_range [b5; b6; b7; b8'] 0) as Hrng.
  assert (rd32 [b5; b6; b7; b8'] 0 < 2 ^ 31) as Hlt.
  { rewrite rd32_val in *. byte_at_simpl. revert Hr. byte_at_simpl. bounds. lia. }
  set (v := rd32 [b5; b6; b7; b8'] _) in *.
  replace ((_ mod 2 ^ 31) mod 2 ^ 31) with v by lia. rewrite H4. byte_at_simpl. rewrite !b8_u8. done.
Qed.

(** ** Lemmas: the reference parser *)

Lemma len_frame_wire f : len (frame_wire f) = 9 + len (payload f).
Proof. unfold frame_wire, build_frame. by rewrite len_app, len_write_to. Qed.

Lemma wire_header f :
  frame_ok f ->
  {| fh_length := u32 (len (payload f)); fh_type := fh_type (hdr f);
     fh_flags := fh_flags (hdr f); fh_stream_id := fh_stream_id (hdr f) |} = hdr f.
Proof.
  intros [(Hl & _) Heq]. unfold u32. rewrite <- Heq, Z.mod_small by lia.
  by destruct (hdr f).
Qed.

Lemma parse_frame1_wire f c :
  frame_ok f -> parse_frame1 (frame_wire f ++ c) = Some (f, len (frame_wire f)).
Proof.
  intros Hf. pose proof Hf as [Hh Hl]. unfold frame_wire, build_frame.
  rewrite wire_header by done. unfold parse_frame1.
  rewrite <- app_assoc, takeZ_app_len, read_from_write_to by done.
  rewrite dropZ_app_len, takeZ_app_len by done.
  unfold FRAME_HEADER_SIZE. rewrite Hl, !len_app, len_write_to. zdec.
  do 2 f_equal. by destruct f.
Qed.

Lemma parse_frame1_bounds b f n : parse_frame1 b = Some (f, n) -> 0 < n <= len b.
Proof.
  unfold parse_frame1, FRAME_HEADER_SIZE. zcases; [done..|]. intros [= <- <-].
  pose proof (rd24_range (takeZ 9 b) 0). unfold read_from in *. cbn [fh_length] in *. lia.
Qed.

Lemma parse_frame1_app b c f n :
  parse_frame1 b = Some (f, n) -> parse_frame1 (b ++ c) = Some (f, n).
Proof.
  unfold parse_frame1, FRAME_HEADER_SIZE.
  destruct (Z.ltb_spec (len b) 9) as [|Hb]; [done|].
  assert (takeZ 9 (b ++ c) = takeZ 9 b) as ->.
  { unfold takeZ, len in *. by rewrite take_app_le by lia. }
  set (h := read_from _). destruct (Z.ltb_spec (len b) (9 + fh_length h)); [done|].
  intros [= <- <-]. zdec. unfold takeZ, dropZ, len in *.
  rewrite drop_app_le, take_app_le by (rewrite ?length_drop; lia). done.
Qed.

#[export] Instance h2_framing : Framing frame := {|
  parse1 := parse_frame1;
  parse1_bounds := parse_frame1_bounds;
  parse1_app := parse_frame1_app
|}.

Lemma parse_all_wire fs :
  Forall frame_ok fs -> parse_all (concat (map frame_wire fs)) = (fs, []).
Proof.
  induction 1 as [|f fs Hf _ IH]; cbn [map concat]; [done|].
  rewrite (parse_all_cons (frame_wire f) _ f), IH; [done|].
  cbn. rewrite <- (app_nil_r (frame_wire f)) at 1. by apply parse_frame1_wire.
Qed.

(** ** Lemmas: the incremental reader *)

(** The header part and the payload part of what the reader has consumed. *)
Definition reader_absorbed (r : frame_reader) (b : bytes) : Prop :=
  b = header_buf r ++ payload_buf r /\
  (if len (header_buf r) <? FRAME_HEADER_SIZE then
     current_length r = SIZE_MAX /\ payload_buf r = []
   else
     len (header_buf r) = FRAME_HEADER_SIZE /\
     current_header r = read_from (header_buf r) /\
     current_length r = fh_length (current_header r) /\
     len (payload_buf r) <= current_length r).

Lemma absorbed_length_bound r b :
  reader_absorbed r b -> FRAME_HEADER_SIZE <= len (header_buf r) ->
  0 <= current_length r < 2 ^ 24.
Proof.
  unfold reader_absorbed, FRAME_HEADER_SIZE. intros [_ Hi] Hl.
  rewrite (proj2 (Z.ltb_ge _ _)) in Hi by lia. destruct Hi as (_ & Hh & Hc & _).
  pose proof (read_from_ok (header_buf r)) as (? & _). congruence.
Qed.

Lemma feed_header_step r b d :
  reader_absorbed r b -> len (header_buf r) < FRAME_HEADER_SIZE ->
  len d <= FRAME_HEADER_SIZE - len (header_buf r) ->
  reader_absorbed
    (check_header {| header_buf := header_buf r ++ d;
                     current_header := current_header r;
                     current_length := current_length r;
                     payload_buf := payload_buf r |}) (b ++ d).
Proof.
  unfold reader_absorbed, check_header, FRAME_HEADER_SIZE. intros [-> Hi] Hl Hd.
  rewrite (proj2 (Z.ltb_lt _ _)) in Hi by lia. destruct Hi as [Hc Hp]. cbn.
  rewrite Hp, app_nil_r, Hc, Z.eqb_refl, andb_true_r. destruct (Z.eqb_spec (len (header_buf r ++ d)) 9) as [He|He]; cbn.
  - rewrite app_nil_r. split; [done|]. rewrite He; cbn.
    pose proof (read_from_ok (header_buf r ++ d)) as (? & _). split_and!; done || blia.
  - rewrite app_nil_r. split; [done|]. autorewrite with len in *. zdec. done.
Qed.

Lemma feed_payload_step r b d :
  reader_absorbed r b -> FRAME_HEADER_SIZE <= len (header_buf r) ->
  len d <= current_length r - len (payload_buf r) ->
  reader_absorbed
    (check_header {| header_buf := header_buf r;
                     current_header := current_header r;
                     current_length := current_length r;
                     payload_buf := payload_buf r ++ d |}) (b ++ d).
Proof.
  intros Hr Hl Hd. pose proof (absorbed_length_bound _ _ Hr Hl).
  unfold reader_absorbed, check_header, FRAME_HEADER_SIZE, SIZE_MAX in *.
  destruct Hr as [-> Hi]. rewrite (proj2 (Z.ltb_ge _ _)) in Hi by lia.
  destruct Hi as (Hn & Hh & Hc & Hp). cbn.
  rewrite (proj2 (Z.eqb_neq (current_length r) _)) by lia. rewrite andb_false_r. cbn.
  rewrite app_assoc. split; [done|]. rewrite Hn. cbn. autorewrite with len. split_and!; done || lia.
Qed.

Lemma feed_loop_spec fuel r b data c :
  reader_absorbed r b -> 0 <= c <= len data -> len data - c <= Z.of_nat fuel ->
  let '(r', n) := feed_loop fuel r data c in
  c <= n <= len data /\ reader_absorbed r' (b ++ takeZ (n - c) (dropZ c data)) /\
  (n < len data -> has_frame r' = true) /\
  (has_frame r = false -> c < len data -> c < n).
Proof.
  revert r b c. induction fuel as [|fuel IH]; intros r b c Hr Hc Hf.
  { cbn. rewrite Z.sub_diag, takeZ_0, app_nil_r. split_and!; done || lia. }
  cbn [feed_loop]. destruct (Z.ltb_spec c (len data)) as [Hlt|Hge].
  2: { rewrite Z.sub_diag, takeZ_0, app_nil_r. split_and!; done || lia. }
  assert (Hstep : forall r' k, 0 < k <= len data - c ->
            reader_absorbed r' (b ++ takeZ k (dropZ c data)) ->
            let '(r'', n) := feed_loop fuel r' data (c + k) in
            c <= n <= len data /\
            reader_absorbed r'' (b ++ takeZ (n - c) (dropZ c data)) /\
            (n < len data -> has_frame r'' = true) /\
            (has_frame r = false -> c < len data -> c < n)).
  { intros r' k Hk Hr'. specialize (IH r' _ (c + k) Hr' ltac:(lia) ltac:(lia)).
    destruct (feed_loop fuel r' data (c + k)) as [r'' n].
    destruct IH as (Hn & Ha & Hm & _). split_and!; [lia|lia| |done|lia].
    rewrite <- app_assoc, <- dropZ_dropZ in Ha by lia.
    replace (n - c) with (k + (n - (c + k))) by lia. rewrite takeZ_add by lia.
    by rewrite dropZ_dropZ in * by lia. }
  destruct (Z.ltb_spec (len (header_buf r)) FRAME_HEADER_SIZE) as [Hh|Hh].
  - apply Hstep; [unfold FRAME_HEADER_SIZE in *; blia|].
    apply feed_header_step; [done..|]. unfold FRAME_HEADER_SIZE in *. blia.
  - pose proof (absorbed_length_bound _ _ Hr Hh).
    destruct (Z.ltb_spec (len (payload_buf r)) (current_length r)) as [Hp|Hp].
    + apply Hstep; [blia|]. apply feed_payload_step; [done..|]. blia.
    + rewrite Z.sub_diag, takeZ_0, app_nil_r. split_and!; try done; try lia.
      all: unfold has_frame, reader_absorbed in *; destruct Hr as [_ Hi].
      all: rewrite (proj2 (Z.ltb_ge _ _)) in Hi by lia; destruct Hi as (Hn & _).
      all: rewrite Hn, Z.eqb_refl, (proj2 (Z.leb_le _ _)) by lia; done.
Qed.

Lemma feed_spec r b d :
  reader_absorbed r b -> has_frame r = false ->
  let '(r', n) := feed r d in
  0 <= n <= len d /\ (d <> [] -> 0 < n) /\ reader_absorbed r' (b ++ takeZ n d) /\
  (n < len d -> has_frame r' = true).
Proof.
  intros Hr Hno. unfold feed.
  pose proof (feed_loop_spec (length d) r b d 0 Hr) as H.
  destruct (feed_loop _ _ _ _) as [r' n].
  destruct H as (Hn & Ha & Hm & Hp); [unfold len; lia..|].
  rewrite Z.sub_0_r, dropZ_0 in Ha. split_and!; try done; try lia.
  intros Hd. apply Hp; [done|]. destruct d; [done|]. blia.
Qed.

Lemma frame_spec r b :
  reader_absorbed r b ->
  if has_frame r
  then parse_frame1 b = Some ((take_frame r).1, len b) /\
       reader_absorbed (take_frame r).2 []
  else parse_frame1 b = None.
Proof.
  intros Hr. pose proof (absorbed_length_bound _ _ Hr) as Hb.
  unfold has_frame, reader_absorbed, parse_frame1, FRAME_HEADER_SIZE in *.
  destruct Hr as [-> Hi]. destruct (Z.ltb_spec (len (header_buf r)) 9) as [Hh|Hh].
  - destruct Hi as [_ ->]. rewrite app_nil_r. zdec. done.
  - destruct Hi as (Hn & Hhd & Hc & Hp). specialize (Hb Hh). rewrite Hn, Z.eqb_refl; cbn.
    rewrite takeZ_app_len, dropZ_app_len, <- Hhd, <- Hc by done.
    autorewrite with len. rewrite Hn. rewrite (proj2 (Z.ltb_ge _ 9)) by blia.
    destruct (Z.leb_spec (current_length r) (len (payload_buf r))).
    + rewrite (proj2 (Z.ltb_ge _ _)) by lia. rewrite takeZ_all by lia.
      split; [|done]. do 2 f_equal. lia.
    + by rewrite (proj2 (Z.ltb_lt _ _)) by lia.
Qed.

#[export] Instance h2_reader : Reader frame_reader frame := {|
  reader_init := frame_reader_init;
  reader_feed := feed;
  reader_has_frame := has_frame;
  reader_take_frame := take_frame;
  absorbed := reader_absorbed;
  absorbed_init := conj eq_refl (conj eq_refl eq_refl);
  reader_feed_spec := feed_spec;
  reader_frame_spec := frame_spec
|}.

(** ** Lemmas: builders against parsers *)

Definition setting_ok (s : setting_entry) : Prop :=
  0 <= se_id s < 2 ^ 16 /\ 0 <= se_value s < 2 ^ 32.

Lemma len_setting_wires ss : len (concat (map setting_wire ss)) = 6 * len ss.
Proof. induction ss as [|s ss IH]; cbn [map concat]; [done|]. unfold setting_wire in *. blia. Qed.

Lemma parse_settings_loop_spec fuel pre ss :
  Forall setting_ok ss -> (length ss <= fuel)%nat ->
  parse_settings_loop fuel (pre ++ concat (map setting_wire ss)) (len pre) = ss.
Proof.
  intros Hss. revert fuel pre. induction Hss as [|s ss [Hi Hv] Hss IH]; intros fuel pre Hf.
  - destruct fuel; cbn [parse_settings_loop]; [done|]. cbn. rewrite app_nil_r. zdec. done.
  - destruct fuel as [|fuel]; cbn [length] in Hf; [lia|]. cbn [parse_settings_loop map concat].
    rewrite (proj2 (Z.ltb_lt _ _)).
    2: { rewrite !len_app. unfold setting_wire. blia. }
    f_equal.
    + rewrite rd16_shift, rd32_shift, Z.sub_diag by lia.
      replace (len pre + 2 - len pre) with 2 by lia. unfold setting_wire.
      rewrite <- !app_assoc, rd16_be16, rd32_shift, len_be16, rd32_be32 by done.
      rewrite !Z.mod_small by lia. by destruct s.
    + rewrite app_assoc. unfold SETTINGS_PARAM_SIZE.
      replace (len pre + 6) with (len (pre ++ setting_wire s)) by (unfold setting_wire; blia).
      apply IH. lia.
Qed.

Lemma parse_settings_wires ss :
  Forall setting_ok ss -> parse_settings (concat (map setting_wire ss)) = ss.
Proof.
  intros Hss. unfold parse_settings, SETTINGS_PARAM_SIZE. rewrite len_setting_wires.
  replace (6 * len ss) with (len ss * 6) by lia.
  rewrite Z.mod_mul by lia. cbn [Z.eqb negb].
  apply (parse_settings_loop_spec _ [] ss Hss).
  pose proof (len_setting_wires ss). unfold len in *. lia.
Qed.

Lemma parse_built t fl sid pl :
  0 <= t < 256 -> 0 <= fl < 256 -> 0 <= sid < 2 ^ 31 -> len pl < 2 ^ 24 ->
  parse_frame1 (build_frame t fl sid pl) =
  Some ({| hdr := {| fh_length := len pl; fh_type := t; fh_flags := fl;
                     fh_stream_id := sid |}; payload := pl |}, 9 + len pl).
Proof.
  intros. set (h := {| fh_length := _ |}).
  assert (Hok : frame_ok {| hdr := h; payload := pl |}).
  { split; [|done]. unfold header_ok, h; cbn. blia. }
  pose proof (parse_frame1_wire _ [] Hok) as Hp. rewrite app_nil_r, len_frame_wire in Hp.
  exact Hp.
Qed.

(** ** Properties *)

(** The 9-byte header layout is a bijection: a header whose fields fit the
    wire comes back unchanged from its bytes, and 9 bytes whose reserved bit is
    clear come back unchanged from the header they decode to. *)
Theorem frame_header_bijection :
  (forall h, header_ok h ->
     len (write_to h) = FRAME_HEADER_SIZE /\ read_from (write_to h) = h) /\
  (forall b, len b = FRAME_HEADER_SIZE -> u8 (byte_at b 5) < 128 ->
     header_ok (read_from b) /\ write_to (read_from b) = b).
Proof.
  split; [intros h Hh|intros b Hb Hr].
  - split; [apply len_write_to|by apply read_from_write_to].
  - split; [apply read_from_ok|by apply write_to_read_from].
Qed.

Definition example_header : frame_header :=
  {| fh_length := 0x012345; fh_type := frame_type.HEADERS;
     fh_flags := flag.END_HEADERS; fh_stream_id := 0x7FFFFFFF |}.

Lemma frame_header_bijection_witness :
  read_from (write_to example_header) = example_header /\
  write_to (read_from (write_to example_header)) = write_to example_header.
Proof.
  split.
  - apply (proj1 frame_header_bijection). ground.
  - apply (proj2 frame_header_bijection); vm_compute; reflexivity.
Defined.

(** A session fed by the incremental [frame_reader] sees exactly the frames
    its peer wrote, in order, however the transport cuts the bytes into reads
    (in the middle of a header, of a payload, or with several frames at once). *)
Theorem frames_survive_chunking {S} (process : S -> frame -> S) (alive : S -> bool)
    (s : S) (fs : list frame) (chunks : list bytes) :
  Forall frame_ok fs ->
  concat chunks = concat (map frame_wire fs) ->
  (pump_list process alive frame_reader_init s chunks).2 = run process alive s fs.
Proof.
  intros Hfs Hc.
  rewrite (pump_list_spec process alive frame_reader_init [] s chunks) by done.
  cbn [app]. by rewrite Hc, parse_all_wire.
Qed.

Definition example_frame (t : Z) (pl : bytes) : frame :=
  {| hdr := {| fh_length := len pl; fh_type := t; fh_flags := 0; fh_stream_id := 1 |};
     payload := pl |}.

Definition example_frames : list frame :=
  [example_frame frame_type.PING (str "12345678"); example_frame frame_type.DATA [];
   example_frame frame_type.DATA (str "hello")].

Lemma frames_survive_chunking_witness :
  (pump_list (fun s f => s ++ [f]) (fun _ => true) frame_reader_init []
     (map (fun b => [b]) (concat (map frame_wire example_frames)))).2 = example_frames.
Proof.
  rewrite (frames_survive_chunking _ _ [] example_frames).
  - reflexivity.
  - repeat constructor; ground.
  - vm_compute. reflexivity.
Defined.

(** SETTINGS survive the wire: parsing the payload of the frame that
    [build_settings_frame] writes gives the same parameters in the same order,
    and the acknowledgement is an empty frame with the ACK flag. *)
Theorem settings_roundtrip (ss : list setting_entry) :
  Forall setting_ok ss -> 6 * len ss < 2 ^ 24 ->
  (exists f, parse_frame1 (build_settings_frame ss false) = Some (f, 9 + 6 * len ss) /\
     fh_type (hdr f) = frame_type.SETTINGS /\ has_flag (hdr f) flag.ACK = false /\
     parse_settings (payload f) = ss) /\
  (exists f, parse_frame1 (build_settings_frame ss true) = Some (f, 9) /\
     fh_type (hdr f) = frame_type.SETTINGS /\ has_flag (hdr f) flag.ACK = true /\
     payload f = []).
Proof.
  intros Hss Hl. unfold build_settings_frame. split.
  - rewrite parse_built by (try done; rewrite ?len_setting_wires; lia).
    eexists; split; [by rewrite len_setting_wires|].
    split; [done|]. split; [done|]. by apply parse_settings_wires.
  - rewrite parse_built by done. eexists; split; [done|]. done.
Qed.

Definition example_settings : list setting_entry :=
  [{| se_id := setting_id.MAX_CONCURRENT_STREAMS; se_value := 100 |};
   {| se_id := setting_id.INITIAL_WINDOW_SIZE; se_value := 65535 |};
   {| se_id := setting_id.MAX_HEADER_LIST_SIZE; se_value := 8192 |};
   {| se_id := setting_id.ENABLE_PUSH; se_value := 1 |}].

Lemma settings_roundtrip_witness :
  exists f, parse_frame1 (build_settings_frame example_settings false) = Some (f, 33) /\
    fh_type (hdr f) = frame_type.SETTINGS /\ has_flag (hdr f) flag.ACK = false /\
    parse_settings (payload f) = example_settings.
Proof.
  apply (settings_roundtrip example_settings).
  - repeat constructor; ground.
  - ground.
Defined.

(** WINDOW_UPDATE, GOAWAY, RST_STREAM, PING and PUSH_PROMISE frames carry
    their arguments unchanged to the payload parsers of the receiver; increments
    and stream ids lose only their reserved top bit. *)
Theorem control_frames_roundtrip (sid sid' inc ec : Z) (dbg blk ping : bytes) (ack : bool) :
  0 <= sid < 2 ^ 31 -> 0 <= sid' < 2 ^ 31 -> 0 <= inc < 2 ^ 31 -> 0 <= ec < 2 ^ 32 ->
  len dbg < 2 ^ 24 - 8 -> len blk < 2 ^ 24 - 4 -> len ping = 8 ->
  (exists f, parse_frame1 (build_window_update sid inc) = Some (f, 13) /\
     fh_type (hdr f) = frame_type.WINDOW_UPDATE /\ fh_stream_id (hdr f) = sid /\
     parse_window_update (payload f) = inc) /\
  (exists f, parse_frame1 (build_goaway sid ec dbg) = Some (f, 17 + len dbg) /\
     fh_type (hdr f) = frame_type.GOAWAY /\ fh_stream_id (hdr f) = 0 /\
     parse_goaway (payload f) =
       {| ga_last_stream_id := sid; ga_ec := ec; ga_debug_data := dbg |}) /\
  (exists f, parse_frame1 (build_rst_stream sid ec) = Some (f, 13) /\
     fh_type (hdr f) = frame_type.RST_STREAM /\ fh_stream_id (hdr f) = sid /\
     rd32 (payload f) 0 = ec) /\
  (exists f, parse_frame1 (build_ping ping ack) = Some (f, 17) /\
     fh_type (hdr f) = frame_type.PING /\ has_flag (hdr f) flag.ACK = ack /\
     payload f = ping) /\
  (exists f, parse_frame1 (build_push_promise sid sid' blk) = Some (f, 13 + len blk) /\
     fh_type (hdr f) = frame_type.PUSH_PROMISE /\ fh_stream_id (hdr f) = sid /\
     has_flag (hdr f) flag.END_HEADERS = true /\
     parse_push_promise (payload f) =
       {| pp_promised_stream_id := sid'; pp_header_block := blk |}).
Proof.
  intros Hsid Hsid' Hinc Hec Hdbg Hblk Hping.
  unfold build_window_update, build_goaway, build_rst_stream, build_ping,
    build_push_promise.
  split_and!; rewrite parse_built by (done || blia || (destruct ack; done) || (rewrite takeZ_all; lia));
    eexists; (split; [do 2 f_equal; blia|]); cbn [hdr payload fh_type fh_stream_id];
    split_and!; try done.
  - unfold parse_window_update. rewrite len_be32. cbn [Z.ltb Z.compare Pos.compare].
    rewrite <- (app_nil_r (be32 _)), rd32_be32, !land_31. cbn. lia.
  - unfold parse_goaway. zdec. autorewrite with len. rewrite rd32_be32, rd32_shift by blia.
    autorewrite with len. rewrite rd32_be32, land_i32_31, land_u32_31.
    f_equal; [lia|lia|]. destruct (Z.ltb_spec 8 (4 + (4 + len dbg))).
    + by rewrite app_assoc, dropZ_app_len.
    + symmetry. apply len_zero_nil. blia.
  - rewrite <- (app_nil_r (be32 _)), rd32_be32. lia.
  - by destruct ack.
  - apply takeZ_all. lia.
  - unfold parse_push_promise. zdec. autorewrite with len. rewrite rd32_be32.
    rewrite land_i32_31, land_u32_31. f_equal; [lia|]. destruct (Z.ltb_spec 4 (4 + len blk)).
    + by rewrite dropZ_app_len.
    + symmetry. apply len_zero_nil. blia.
Qed.

Lemma control_frames_roundtrip_witness :
  exists f, parse_frame1 (build_goaway 7 error_code.PROTOCOL_ERROR (str "bye")) = Some (f, 20) /\
    fh_type (hdr f) = frame_type.GOAWAY /\ fh_stream_id (hdr f) = 0 /\
    parse_goaway (payload f) =
      {| ga_last_stream_id := 7; ga_ec := 1; ga_debug_data := str "bye" |}.
Proof.
  apply (control_frames_roundtrip 7 2 65535 1 (str "bye") (str "hdrs") (str "12345678") true); ground.
Defined.
