(* ===== verification/Huffman.v ===== *)
(** * HPACK Huffman coding (src/src/http/hpack.cpp)

    The code table of RFC 7541 Appendix B as the source writes it, the encoder
    with its 64-bit bit buffer and the bit-by-bit decoder.  [huffman_decode]
    takes the [len] bytes it reads; that a caller has that many is the
    caller's obligation (see [Hpack.decode_string]).  The counters of bits and
    bytes are not wrapped: they are bounded by the size of a string in
    memory. *)
From S2P Require Import Prelude.
From stdpp Require Import options.

Record huff_sym := huff { code : Z; bits : Z }.

Definition HUFF_table : list huff_sym := [
  huff 0x1ff8 13; huff 0x7fffd8 23; huff 0xfffffe2 28; huff 0xfffffe3 28;
  huff 0xfffffe4 28; huff 0xfffffe5 28; huff 0xfffffe6 28; huff 0xfffffe7 28;
  huff 0xfffffe8 28; huff 0xffffea 24; huff 0x3ffffffc 30; huff 0xfffffe9 28;
  huff 0xfffffea 28; huff 0x3ffffffd 30; huff 0xfffffeb 28; huff 0xfffffec 28;
  huff 0xfffffed 28; huff 0xfffffee 28; huff 0xfffffef 28; huff 0xffffff0 28;
  huff 0xffffff1 28; huff 0xffffff2 28; huff 0x3ffffffe 30; huff 0xffffff3 28;
  huff 0xffffff4 28; huff 0xffffff5 28; huff 0xffffff6 28; huff 0xffffff7 28;
  huff 0xffffff8 28; huff 0xffffff9 28; huff 0xffffffa 28; huff 0xffffffb 28;
  huff 0x14 6; huff 0x3f8 10; huff 0x3f9 10; huff 0xffa 12;
  huff 0x1ff9 13; huff 0x15 6; huff 0xf8 8; huff 0x7fa 11;
  huff 0x3fa 10; huff 0x3fb 10; huff 0xf9 8; huff 0x7fb 11;
  huff 0xfa 8; huff 0x16 6; huff 0x17 6; huff 0x18 6;
  huff 0x0 5; huff 0x1 5; huff 0x2 5; huff 0x19 6;
  huff 0x1a 6; huff 0x1b 6; huff 0x1c 6; huff 0x1d 6;
  huff 0x1e 6; huff 0x1f 6; huff 0x5c 7; huff 0xfb 8;
  huff 0x7ffc 15; huff 0x20 6; huff 0xffb 12; huff 0x3fc 10;
  huff 0x1ffa 13; huff 0x21 6; huff 0x5d 7; huff 0x5e 7;
  huff 0x5f 7; huff 0x60 7; huff 0x61 7; huff 0x62 7;
  huff 0x63 7; huff 0x64 7; huff 0x65 7; huff 0x66 7;
  huff 0x67 7; huff 0x68 7; huff 0x69 7; huff 0x6a 7;
  huff 0x6b 7; huff 0x6c 7; huff 0x6d 7; huff 0x6e 7;
  huff 0x6f 7; huff 0x70 7; huff 0x71 7; huff 0x72 7;
  huff 0xfc 8; huff 0x73 7; huff 0xfd 8; huff 0x1ffb 13;
  huff 0x7fff0 19; huff 0x1ffc 13; huff 0x3ffc 14; huff 0x22 6;
  huff 0x7ffd 15; huff 0x3 5; huff 0x23 6; huff 0x4 5;
  huff 0x24 6; huff 0x5 5; huff 0x25 6; huff 0x26 6;
  huff 0x27 6; huff 0x6 5; huff 0x74 7; huff 0x75 7;
  huff 0x28 6; huff 0x29 6; huff 0x2a 6; huff 0x7 5;
  huff 0x2b 6; huff 0x76 7; huff 0x2c 6; huff 0x8 5;
  huff 0x9 5; huff 0x2d 6; huff 0x77 7; huff 0x78 7;
  huff 0x79 7; huff 0x7a 7; huff 0x7b 7; huff 0x7fffe 19;
  huff 0x7fc 11; huff 0x3ffd 14; huff 0x1ffd 13; huff 0xffffffc 28;
  huff 0xfffe6 20; huff 0x3fffd2 22; huff 0xfffe7 20; huff 0xfffe8 20;
  huff 0x3fffd3 22; huff 0x3fffd4 22; huff 0x3fffd5 22; huff 0x7fffd9 23;
  huff 0x3fffd6 22; huff 0x7fffda 23; huff 0x7fffdb 23; huff 0x7fffdc 23;
  huff 0x7fffdd 23; huff 0x7fffde 23; huff 0xffffeb 24; huff 0x7fffdf 23;
  huff 0xffffec 24; huff 0xffffed 24; huff 0x3fffd7 22; huff 0x7fffe0 23;
  huff 0xffffee 24; huff 0x7fffe1 23; huff 0x7fffe2 23; huff 0x7fffe3 23;
  huff 0x7fffe4 23; huff 0x1fffdc 21; huff 0x3fffd8 22; huff 0x7fffe5 23;
  huff 0x3fffd9 22; huff 0x7fffe6 23; huff 0x7fffe7 23; huff 0xffffef 24;
  huff 0x3fffda 22; huff 0x1fffdd 21; huff 0xfffe9 20; huff 0x3fffdb 22;
  huff 0x3fffdc 22; huff 0x7fffe8 23; huff 0x7fffe9 23; huff 0x1fffde 21;
  huff 0x7fffea 23; huff 0x3fffdd 22; huff 0x3fffde 22; huff 0xfffff0 24;
  huff 0x1fffdf 21; huff 0x3fffdf 22; huff 0x7fffeb 23; huff 0x7fffec 23;
  huff 0x1fffe0 21; huff 0x1fffe1 21; huff 0x3fffe0 22; huff 0x1fffe2 21;
  huff 0x7fffed 23; huff 0x3fffe1 22; huff 0x7fffee 23; huff 0x7fffef 23;
  huff 0xfffea 20; huff 0x3fffe2 22; huff 0x3fffe3 22; huff 0x3fffe4 22;
  huff 0x7ffff0 23; huff 0x3fffe5 22; huff 0x3fffe6 22; huff 0x7ffff1 23;
  huff 0x3ffffe0 26; huff 0x3ffffe1 26; huff 0xfffeb 20; huff 0x7fff1 19;
  huff 0x3fffe7 22; huff 0x7ffff2 23; huff 0x3fffe8 22; huff 0x1ffffec 25;
  huff 0x3ffffe2 26; huff 0x3ffffe3 26; huff 0x3ffffe4 26; huff 0x7ffffde 27;
  huff 0x7ffffdf 27; huff 0x3ffffe5 26; huff 0xfffff1 24; huff 0x1ffffed 25;
  huff 0x7fff2 19; huff 0x1fffe3 21; huff 0x3ffffe6 26; huff 0x7ffffe0 27;
  huff 0x7ffffe1 27; huff 0x3ffffe7 26; huff 0x7ffffe2 27; huff 0xfffff2 24;
  huff 0x1fffe4 21; huff 0x1fffe5 21; huff 0x3ffffe8 26; huff 0x3ffffe9 26;
  huff 0xffffffd 28; huff 0x7ffffe3 27; huff 0x7ffffe4 27; huff 0x7ffffe5 27;
  huff 0xfffec 20; huff 0xfffff3 24; huff 0xfffed 20; huff 0x1fffe6 21;
  huff 0x3fffe9 22; huff 0x1fffe7 21; huff 0x1fffe8 21; huff 0x7ffff3 23;
  huff 0x3fffea 22; huff 0x3fffeb 22; huff 0x1ffffee 25; huff 0x1ffffef 25;
  huff 0xfffff4 24; huff 0xfffff5 24; huff 0x3ffffea 26; huff 0x7ffff4 23;
  huff 0x3ffffeb 26; huff 0x7ffffe6 27; huff 0x3ffffec 26; huff 0x3ffffed 26;
  huff 0x7ffffe7 27; huff 0x7ffffe8 27; huff 0x7ffffe9 27; huff 0x7ffffea 27;
  huff 0x7ffffeb 27; huff 0xffffffe 28; huff 0x7ffffec 27; huff 0x7ffffed 27;
  huff 0x7ffffee 27; huff 0x7ffffef 27; huff 0x7fffff0 27; huff 0x3ffffee 26;
  huff 0x3fffffff 30
].

(** [HUFF[sym]]; the last entry is EOS. *)
Definition HUFF (sym : Z) : huff_sym := nth (Z.to_nat sym) HUFF_table (huff 0 0).

(** ** Encoder *)

(** [while (bit_count >= 8)]: emit the oldest complete bytes.  Each iteration
    removes eight bits, so [bit_count] units of fuel are enough. *)
Fixpoint flush_bits (fuel : nat) (bit_buf bit_count : Z) (output : bytes) : Z * bytes :=
  match fuel with
  | O => (bit_count, output)
  | S fuel =>
      if 8 <=? bit_count then
        let bit_count := bit_count - 8 in
        flush_bits fuel bit_buf bit_count
          (output ++ [b8 (Z.land (Z.shiftr bit_buf bit_count) 0xFF)])
      else (bit_count, output)
  end.

(** One iteration of the loop over the input: (bit_buf, bit_count, output). *)
Definition encode_char (st : Z * Z * bytes) (ch : byte) : Z * Z * bytes :=
  let '(bit_buf, bit_count, output) := st in
  let s := HUFF (u8 ch) in
  let bit_buf := Z.lor (u64 (Z.shiftl bit_buf (bits s))) (code s) in
  let bit_count := bit_count + bits s in
  let '(bit_count, output) := flush_bits (Z.to_nat bit_count) bit_buf bit_count output in
  (bit_buf, bit_count, output).

Definition huffman_encode (input : bytes) : bytes :=
  let '(bit_buf, bit_count, output) := foldl encode_char (0, 0, []) input in
  if 0 <? bit_count then
    let bit_buf := u64 (Z.shiftl bit_buf (8 - bit_count)) in
    let bit_buf := Z.lor bit_buf (Z.shiftl 1 (8 - bit_count) - 1) in
    output ++ [b8 (Z.land bit_buf 0xFF)]
  else output.

Definition huffman_is_shorter (input : bytes) : bool :=
  let bits := foldl (fun n ch => n + bits (HUFF (u8 ch))) 0 input in
  (bits + 7) / 8 <? len input.

(** ** Decoder *)

(** [for (int sym = 0; sym < 256; ++sym)]: the first symbol with this code. *)
Fixpoint find_sym_from (tbl : list huff_sym) (sym : Z) (c n : Z) : option Z :=
  match tbl with
  | [] => None
  | s :: tbl =>
      if (bits s =? n) && (code s =? c) then Some sym
      else find_sym_from tbl (sym + 1) c n
  end.

Definition find_sym (c n : Z) : option Z := find_sym_from (take 256 HUFF_table) 0 c n.

(** One bit of input: (code, code_bits, result); [None] is [return {}]. *)
Definition decode_bit (st : Z * Z * bytes) (bit : bool) : option (Z * Z * bytes) :=
  let '(code, code_bits, result) := st in
  let code := Z.lor (u32 (Z.shiftl code 1)) (Z.b2z bit) in
  let code_bits := code_bits + 1 in
  match find_sym code code_bits with
  | Some sym => Some (0, 0, result ++ [b8 sym])
  | None => if 30 <? code_bits then None else Some (code, code_bits, result)
  end.

Fixpoint decode_bits (st : Z * Z * bytes) (bs : list bool) : option (Z * Z * bytes) :=
  match bs with
  | [] => Some st
  | b :: bs => match decode_bit st b with None => None | Some st => decode_bits st bs end
  end.

(** The bits of [z] from bit [n - 1] down to bit 0. *)
Fixpoint zbits (n : nat) (z : Z) : list bool :=
  match n with
  | O => []
  | S n => Z.testbit z (Z.of_nat n) :: zbits n z
  end.

(** [for (int bit = 7; bit >= 0; --bit) ... (data[i] >> bit) & 1] for each byte. *)
Fixpoint decode_bytes (st : Z * Z * bytes) (data : bytes) : option (Z * Z * bytes) :=
  match data with
  | [] => Some st
  | b :: data =>
      match decode_bits st (zbits 8 (u8 b)) with
      | None => None
      | Some st => decode_bytes st data
      end
  end.

Definition huffman_decode (data : bytes) : bytes :=
  match decode_bytes (0, 0, []) data with
  | None => []
  | Some (code, code_bits, result) =>
      if 7 <? code_bits then []
      else
        let mask := Z.shiftl 1 code_bits - 1 in
        if negb (Z.land code mask =? mask) then [] else result
  end.

(** ** Lemmas: bit strings *)

Definition bytes_bits (b : bytes) : list bool := concat (map (fun c => zbits 8 (u8 c)) b).

(** The code word of a byte. *)
Definition sym_bits (ch : byte) : list bool :=
  zbits (Z.to_nat (bits (HUFF (u8 ch)))) (code (HUFF (u8 ch))).

Lemma length_zbits n z : length (zbits n z) = n.
Proof. induction n; cbn; congruence. Qed.

Lemma zbits_ext n z z' :
  (forall i, 0 <= i < Z.of_nat n -> Z.testbit z i = Z.testbit z' i) -> zbits n z = zbits n z'.
Proof.
  induction n as [|n IH]; intros E; cbn; [done|].
  rewrite E by lia. f_equal. apply IH. intros. apply E. lia.
Qed.

Lemma zbits_app n m z :
  zbits (n + m) z = zbits n (Z.shiftr z (Z.of_nat m)) ++ zbits m z.
Proof.
  induction n as [|n IH]; cbn [zbits Nat.add app]; [done|].
  rewrite IH, Z.shiftr_spec by lia. do 2 f_equal. lia.
Qed.

Lemma zbits_mod n k z : Z.of_nat n <= k -> zbits n (z mod 2 ^ k) = zbits n z.
Proof. intros. apply zbits_ext. intros. apply Z.mod_pow2_bits_low. lia. Qed.

Lemma zbits_lor_shiftl n m z c :
  0 <= c < 2 ^ Z.of_nat m ->
  zbits (n + m) (Z.lor (Z.shiftl z (Z.of_nat m)) c) = zbits n z ++ zbits m c.
Proof.
  intros Hc. rewrite zbits_app. f_equal; apply zbits_ext; intros i Hi.
  - rewrite Z.shiftr_spec, Z.lor_spec, Z.shiftl_spec by lia.
    rewrite <- (Z.mod_small c (2 ^ Z.of_nat m)), Z.mod_pow2_bits_high by lia.
    rewrite orb_false_r. f_equal. lia.
  - rewrite Z.lor_spec, Z.shiftl_spec_low by lia. done.
Qed.

Lemma zbits_b8 z : zbits 8 (u8 (b8 z)) = zbits 8 z.
Proof. rewrite u8_b8. apply (zbits_mod 8 8). lia. Qed.

Lemma zbits_ones n k : (n <= k)%nat -> zbits n (Z.ones (Z.of_nat k)) = replicate n true.
Proof.
  induction n as [|n IH]; intros; cbn; [done|].
  rewrite Z.ones_spec_low, IH by lia. done.
Qed.

Lemma bytes_bits_app a b : bytes_bits (a ++ b) = bytes_bits a ++ bytes_bits b.
Proof. unfold bytes_bits. by rewrite map_app, concat_app. Qed.

Lemma bytes_bits_snoc a z : bytes_bits (a ++ [b8 z]) = bytes_bits a ++ zbits 8 z.
Proof. rewrite bytes_bits_app. unfold bytes_bits; cbn [map concat]. by rewrite zbits_b8, app_nil_r. Qed.

Lemma length_bytes_bits a : length (bytes_bits a) = (8 * length a)%nat.
Proof.
  induction a as [|b a IH]; [done|]. unfold bytes_bits in *. cbn [map concat length].
  rewrite length_app, length_zbits. lia.
Qed.

(** ** Lemmas: the table *)

(** Run a check on every byte value. *)
Definition all_bytes : bytes := map (fun n => b8 (Z.of_nat n)) (seq 0 256).

Lemma all_bytes_complete (P : byte -> bool) :
  forallb P all_bytes = true -> forall b, P b = true.
Proof.
  intros H b. rewrite forallb_forall in H. apply H. unfold all_bytes.
  apply in_map_iff. exists (Z.to_nat (u8 b)). bounds. split.
  - rewrite Z2Nat.id by lia. apply b8_u8.
  - apply in_seq. lia.
Qed.

Definition sym_in_range (ch : byte) : bool :=
  let s := HUFF (u8 ch) in
  (5 <=? bits s) && (bits s <=? 30) && (0 <=? code s) && (code s <? 2 ^ bits s).

Lemma HUFF_range ch :
  5 <= bits (HUFF (u8 ch)) <= 30 /\ 0 <= code (HUFF (u8 ch)) < 2 ^ bits (HUFF (u8 ch)).
Proof.
  assert (H : sym_in_range ch = true).
  { revert ch. apply all_bytes_complete. vm_compute. reflexivity. }
  unfold sym_in_range in H. lia.
Qed.

(** The sixteen bytes whose code word starts with the code word that the table
    gives to ['{'] (symbol 123: [0x7fffe] on 19 bits): the decoder stops on
    ['{'] before it has read them. *)
Definition shadowed (ch : byte) : bool :=
  let s := HUFF (u8 ch) in
  (19 <? bits s) && (Z.shiftr (code s) (bits s - 19) =? code (HUFF 123)).

Lemma decode_sym ch :
  shadowed ch = false -> decode_bits (0, 0, []) (sym_bits ch) = Some (0, 0, [ch]).
Proof.
  assert (H : shadowed ch || bool_decide (decode_bits (0, 0, []) (sym_bits ch) = Some (0, 0, [ch]))
              = true).
  { revert ch. apply all_bytes_complete. vm_compute. reflexivity. }
  intros E. rewrite E in H. by apply bool_decide_eq_true in H.
Qed.

Lemma find_sym_bits c n sym : find_sym c n = Some sym -> 5 <= n.
Proof.
  assert (H : Forall (fun s => 5 <= bits s) (take 256 HUFF_table)).
  { apply (bool_decide_unpack _). vm_compute. exact I. }
  unfold find_sym. generalize 0 at 1. induction H as [|s tbl Hs _ IH]; intros k; cbn; [done|].
  destruct (Z.eqb_spec (bits s) n); cbn; [|apply IH].
  destruct (code s =? c); cbn; [|apply IH]. intros _. lia.
Qed.

(** ** Lemmas: the encoder *)

Lemma flush_bits_spec fuel bb bc out :
  0 <= bc -> bc <= 8 * Z.of_nat fuel + 7 ->
  let '(bc', out') := flush_bits fuel bb bc out in
  bytes_bits out' ++ zbits (Z.to_nat bc') bb = bytes_bits out ++ zbits (Z.to_nat bc) bb /\
  0 <= bc' < 8.
Proof.
  revert bc out. induction fuel as [|fuel IH]; intros bc out Hbc Hf; cbn [flush_bits].
  - split; [done|lia].
  - destruct (Z.leb_spec 8 bc) as [H8|H8]; [|split; [done|lia]].
    specialize (IH (bc - 8) (out ++ [b8 (Z.land (Z.shiftr bb (bc - 8)) 0xFF)])
                  ltac:(lia) ltac:(lia)).
    destruct (flush_bits _ _ _ _) as [bc' out']. destruct IH as [-> IH]; split; [|done].
    rewrite land_0xFF, b8_mod, bytes_bits_snoc, <- app_assoc. f_equal.
    replace (Z.to_nat bc) with (8 + Z.to_nat (bc - 8))%nat by lia.
    rewrite zbits_app, Z2Nat.id by lia. done.
Qed.

Lemma encode_char_spec bb bc out ch :
  0 <= bc < 8 ->
  let '(bb', bc', out') := encode_char (bb, bc, out) ch in
  bytes_bits out' ++ zbits (Z.to_nat bc') bb' =
    bytes_bits out ++ zbits (Z.to_nat bc) bb ++ sym_bits ch /\ 0 <= bc' < 8.
Proof.
  intros Hbc. pose proof (HUFF_range ch) as [Hn Hc]. unfold encode_char, sym_bits.
  set (s := HUFF (u8 ch)) in *. set (bb' := Z.lor _ _).
  pose proof (flush_bits_spec (Z.to_nat (bc + bits s)) bb' (bc + bits s) out) as Hf.
  destruct (flush_bits _ _ _ _) as [bc' out'].
  destruct Hf as [-> Hb]; [lia..|]. split; [|done]. f_equal.
  replace (Z.to_nat (bc + bits s)) with (Z.to_nat bc + Z.to_nat (bits s))%nat by lia.
  unfold bb'.
  rewrite (zbits_ext _ _ (Z.lor (Z.shiftl bb (Z.of_nat (Z.to_nat (bits s)))) (code s))).
  - rewrite zbits_lor_shiftl; [done|]. rewrite Z2Nat.id by lia. done.
  - intros i Hi. rewrite !Z.lor_spec. unfold u64.
    rewrite Z.mod_pow2_bits_low, Z2Nat.id by lia. done.
Qed.

Lemma encode_chars_spec input bb bc out :
  0 <= bc < 8 ->
  let '(bb', bc', out') := foldl encode_char (bb, bc, out) input in
  bytes_bits out' ++ zbits (Z.to_nat bc') bb' =
    bytes_bits out ++ zbits (Z.to_nat bc) bb ++ concat (map sym_bits input) /\ 0 <= bc' < 8.
Proof.
  revert bb bc out. induction input as [|ch input IH]; intros bb bc out Hbc; cbn [foldl map concat].
  - by rewrite app_nil_r.
  - pose proof (encode_char_spec bb bc out ch Hbc) as He.
    destruct (encode_char _ ch) as [[bb1 bc1] out1]. destruct He as [He Hb1].
    specialize (IH bb1 bc1 out1 Hb1). destruct (foldl _ _ _) as [[bb2 bc2] out2].
    destruct IH as [-> IH]. split; [|done].
    rewrite app_assoc, He, <- !app_assoc. done.
Qed.

(** The encoding is the code words in order, padded with at most seven ones. *)
Lemma huffman_encode_bits input :
  exists k, (k < 8)%nat /\
  bytes_bits (huffman_encode input) = concat (map sym_bits input) ++ replicate k true.
Proof.
  unfold huffman_encode. pose proof (encode_chars_spec input 0 0 []) as He.
  destruct (foldl _ _ _) as [[bb bc] out]. destruct He as [He Hb]; [lia|].
  change (bytes_bits [] ++ zbits (Z.to_nat 0) 0 ++ ?x) with x in He.
  destruct (Z.ltb_spec 0 bc) as [Hp|Hz].
  - exists (Z.to_nat (8 - bc)). split; [lia|]. rewrite bytes_bits_snoc, <- He, <- app_assoc.
    f_equal. rewrite land_0xFF, (zbits_mod 8 8) by lia.
    replace (Z.shiftl 1 (8 - bc) - 1) with (Z.ones (Z.of_nat (Z.to_nat (8 - bc)))).
    2: { unfold Z.ones. rewrite Z2Nat.id by lia. lia. }
    replace 8%nat with (Z.to_nat bc + Z.to_nat (8 - bc))%nat at 1 by lia.
    rewrite (zbits_ext _ _ (Z.lor (Z.shiftl bb (Z.of_nat (Z.to_nat (8 - bc))))
                                  (Z.ones (Z.of_nat (Z.to_nat (8 - bc)))))).
    + rewrite zbits_lor_shiftl; [by rewrite zbits_ones|].
      rewrite Z.ones_equiv. pose proof (Z.pow_pos_nonneg 2 (Z.of_nat (Z.to_nat (8 - bc)))). lia.
    + intros i Hi. rewrite !Z.lor_spec. unfold u64.
      rewrite Z.mod_pow2_bits_low, (Z2Nat.id (8 - bc)) by lia. done.
  - exists 0%nat. split; [lia|]. cbn [replicate]. rewrite app_nil_r.
    replace bc with 0 in He by lia. by rewrite app_nil_r in He.
Qed.

Lemma foldl_bits input n :
  foldl (fun n ch => n + bits (HUFF (u8 ch))) n input =
  n + len (concat (map sym_bits input)).
Proof.
  revert n. induction input as [|ch input IH]; intros n; cbn [foldl map concat]; [blia|].
  rewrite IH, len_app. pose proof (HUFF_range ch). unfold sym_bits at 2.
  unfold len at 2. rewrite length_zbits. lia.
Qed.

Lemma len_huffman_encode input :
  len (huffman_encode input) = (len (concat (map sym_bits input)) + 7) / 8.
Proof.
  destruct (huffman_encode_bits input) as (k & Hk & E). apply (f_equal length) in E.
  rewrite length_bytes_bits, length_app, length_replicate in E. unfold len. lia.
Qed.

(** ** Lemmas: the decoder *)

Lemma decode_bits_app st bs cs :
  decode_bits st (bs ++ cs) =
  match decode_bits st bs with None => None | Some st => decode_bits st cs end.
Proof.
  revert st. induction bs as [|b bs IH]; intros st; cbn; [done|].
  destruct (decode_bit st b); [apply IH|done].
Qed.

Lemma decode_bytes_bits st data : decode_bytes st data = decode_bits st (bytes_bits data).
Proof.
  revert st. induction data as [|b data IH]; intros st; [done|].
  unfold bytes_bits; cbn [decode_bytes map concat]. rewrite decode_bits_app.
  destruct (decode_bits st _); [apply IH|done].
Qed.

(** What is already decoded only travels along. *)
Lemma decode_bits_result c n pre out bs :
  decode_bits (c, n, pre ++ out) bs =
  match decode_bits (c, n, out) bs with
  | Some (c, n, out) => Some (c, n, pre ++ out)
  | None => None
  end.
Proof.
  revert c n out. induction bs as [|b bs IH]; intros c n out; [done|].
  cbn [decode_bits]. unfold decode_bit. destruct (find_sym _ _).
  - rewrite <- app_assoc. apply IH.
  - destruct (30 <? n + 1); [done|apply IH].
Qed.

Lemma decode_syms input pre :
  Forall (fun ch => shadowed ch = false) input ->
  decode_bits (0, 0, pre) (concat (map sym_bits input)) = Some (0, 0, pre ++ input).
Proof.
  intros Hs. revert pre. induction Hs as [|ch input Hch _ IH]; intros pre; cbn [map concat].
  - by rewrite app_nil_r.
  - rewrite decode_bits_app. pose proof (decode_bits_result 0 0 pre [] (sym_bits ch)) as Hr.
    rewrite app_nil_r, decode_sym in Hr by done. rewrite Hr, IH. by rewrite <- app_assoc.
Qed.

Lemma decode_padding k pre :
  (k < 8)%nat ->
  decode_bits (0, 0, pre) (replicate k true) = Some (Z.ones (Z.of_nat k), Z.of_nat k, pre).
Proof.
  intros Hk. pose proof (decode_bits_result 0 0 pre [] (replicate k true)) as Hr.
  rewrite app_nil_r in Hr. rewrite Hr.
  assert (decode_bits (0, 0, []) (replicate k true) =
          Some (Z.ones (Z.of_nat k), Z.of_nat k, [])) as ->; [|by rewrite app_nil_r].
  clear Hr. do 8 (destruct k as [|k]; [vm_compute; reflexivity|]). lia.
Qed.

Lemma huffman_decode_encode input :
  Forall (fun ch => shadowed ch = false) input ->
  huffman_decode (huffman_encode input) = input.
Proof.
  intros Hs. destruct (huffman_encode_bits input) as (k & Hk & E).
  unfold huffman_decode. rewrite decode_bytes_bits, E, decode_bits_app, decode_syms by done.
  rewrite decode_padding by done. cbn [app]. rewrite (proj2 (Z.ltb_ge _ _)) by lia.
  replace (Z.shiftl 1 (Z.of_nat k) - 1) with (Z.ones (Z.of_nat k)) by (unfold Z.ones; lia).
  by rewrite Z.land_diag, Z.eqb_refl.
Qed.

Lemma decode_bits_bound bs c n out c' n' out' :
  0 <= n -> decode_bits (c, n, out) bs = Some (c', n', out') ->
  0 <= n' /\ 5 * len out' + n' <= 5 * len out + n + len bs.
Proof.
  revert c n out. induction bs as [|b bs IH]; intros c n out Hn; cbn [decode_bits].
  - intros [= -> -> ->]. blia.
  - unfold decode_bit. destruct (find_sym _ _) as [sym|] eqn:Hf.
    + intros H%IH; [|lia]. apply find_sym_bits in Hf. blia.
    + destruct (30 <? n + 1); [done|]. intros H%IH; [|lia]. blia.
Qed.

Lemma len_huffman_decode data : 5 * len (huffman_decode data) <= 8 * len data.
Proof.
  unfold huffman_decode. rewrite decode_bytes_bits.
  destruct (decode_bits _ _) as [[[c n] out]|] eqn:E; [|blia].
  apply decode_bits_bound in E; [|lia].
  assert (len (bytes_bits data) = 8 * len data).
  { unfold len. rewrite length_bytes_bits. lia. }
  destruct (7 <? n); [blia|]. destruct (negb _); blia.
Qed.

(** ** Properties *)

(** The Huffman decoder inverts the encoder on every string without a
    shadowed byte: code words, the bytes they straddle and the padding with
    the EOS prefix all come back. *)
Theorem huffman_roundtrip (input : bytes) :
  Forall (fun ch => shadowed ch = false) input ->
  huffman_decode (huffman_encode input) = input.
Proof. apply huffman_decode_encode. Qed.

Lemma huffman_roundtrip_witness :
  huffman_decode (huffman_encode (str "www.example.com/{id}")) = str "www.example.com/{id}".
Proof. apply huffman_roundtrip. apply (bool_decide_unpack _). vm_compute. exact I. Defined.

(** The table is not a prefix code: for each of the sixteen bytes whose
    code word extends the one written for ['{'], the string made of that byte
    alone does not survive encoding and decoding; every other byte does. *)
Theorem huffman_table_not_prefix_free :
  (forall ch, bool_decide (huffman_decode (huffman_encode [ch]) = [ch]) = negb (shadowed ch)) /\
  length (filter (fun ch => shadowed ch = true) all_bytes) = 16%nat.
Proof.
  split; [|vm_compute; reflexivity].
  intros ch.
  assert (H : Bool.eqb (bool_decide (huffman_decode (huffman_encode [ch]) = [ch]))
                       (negb (shadowed ch)) = true).
  { revert ch. apply all_bytes_complete. vm_compute. reflexivity. }
  by apply eqb_prop in H.
Qed.

(** [huffman_is_shorter] predicts the encoder exactly: it is true just when
    the encoding has fewer bytes than the input. *)
Theorem huffman_is_shorter_exact (input : bytes) :
  huffman_is_shorter input = (len (huffman_encode input) <? len input).
Proof. unfold huffman_is_shorter. by rewrite foldl_bits, len_huffman_encode. Qed.

(** Decompression is bounded: five bits of input at least per decoded byte,
    whatever the input. *)
Theorem huffman_decode_bounded (data : bytes) :
  5 * len (huffman_decode data) <= 8 * len data.
Proof. apply len_huffman_decode. Qed.
