(* ===== verification/PrefixInt.v ===== *)
(** * Prefix integers of HPACK and QPACK (RFC 7541, section 5.1)

    src/src/http/hpack.cpp and src/src/http/qpack.cpp hold the same pair of
    functions; both are instances of the definitions here.  The encoder's
    result is the bytes it has written, empty when it returns 0.  The decoder
    shifts a 64-bit value by [m], so a tenth continuation byte followed by one
    more is undefined behaviour: the outcome says so. *)
From S2P Require Import Prelude.
From stdpp Require Import options.

(** [uint8_t max_prefix = (1 << prefix_bits) - 1] *)
Definition max_prefix (prefix_bits : Z) : Z := (Z.shiftl 1 prefix_bits - 1) mod 256.

(** The loop [while (value >= 128)] and the byte after it.  [room] is
    [bufsize - pos]: when it is used up the function returns 0. *)
Fixpoint encode_int_loop (room : nat) (value : Z) : option bytes :=
  match room with
  | O => None
  | S room =>
      if 128 <=? value then
        match encode_int_loop room (Z.shiftr value 7) with
        | Some l => Some (b8 (Z.lor (Z.land value 0x7F) 0x80) :: l)
        | None => None
        end
      else Some [b8 value]
  end.

Definition encode_int (bufsize value prefix_bits first_byte_mask : Z) : bytes :=
  if bufsize =? 0 then [] else
  let mp := max_prefix prefix_bits in
  if value <? mp then [b8 (Z.lor first_byte_mask value)] else
  match encode_int_loop (Z.to_nat (bufsize - 1)) (u64 (value - mp)) with
  | Some l => b8 (Z.lor first_byte_mask mp) :: l
  | None => []
  end.

(** The [do ... while (buf[pos++] & 0x80)] loop over the bytes after the
    first; the result is the number of bytes consumed and [value]. *)
Fixpoint decode_int_loop (rest : bytes) (pos m value : Z) : outcome (Z * Z) :=
  match rest with
  | [] => Ok (0, value)
  | b :: rest =>
      if 64 <=? m then Undefined BadShift else
      let value := u64 (value + u64 (Z.shiftl (Z.land (u8 b) 0x7F) m)) in
      if Z.land (u8 b) 0x80 =? 0 then Ok (pos + 1, value)
      else decode_int_loop rest (pos + 1) (m + 7) value
  end.

Definition decode_int (buf : bytes) (prefix_bits : Z) : outcome (Z * Z) :=
  match buf with
  | [] => Ok (0, 0)
  | b :: rest =>
      let mp := max_prefix prefix_bits in
      let value := Z.land (u8 b) mp in
      if value <? mp then Ok (1, value) else decode_int_loop rest 1 0 value
  end.

(** ** Lemmas *)

Lemma max_prefix_val p : 1 <= p <= 8 -> max_prefix p = 2 ^ p - 1.
Proof.
  intros. unfold max_prefix. rewrite Z.shiftl_1_l, Z.mod_small; [done|].
  assert (2 ^ p <= 2 ^ 8) by (apply Z.pow_le_mono_r; lia).
  pose proof (Z.pow_pos_nonneg 2 p). lia.
Qed.

Lemma land_max_prefix p z : 1 <= p <= 8 -> Z.land z (max_prefix p) = z mod 2 ^ p.
Proof.
  intros. rewrite max_prefix_val, <- Z.land_ones by lia. f_equal. rewrite Z.ones_equiv. lia.
Qed.

Lemma lor_0x80 v : Z.lor (Z.land v 0x7F) 0x80 = 128 + v mod 128.
Proof.
  rewrite land_0x7F, Z.lor_comm. apply (lor_shiftl_add 1 _ 7); lia.
Qed.

Lemma encode_int_loop_some room v :
  0 <= v < 128 ^ Z.of_nat room -> (0 < room)%nat ->
  exists l, encode_int_loop room v = Some l /\ 1 <= len l <= Z.of_nat room.
Proof.
  revert v. induction room as [|room IH]; intros v Hv Hr; [lia|]. cbn [encode_int_loop].
  destruct (Z.leb_spec 128 v).
  - rewrite Z.shiftr_div_pow2 by lia.
    destruct (IH (v / 2 ^ 7)) as (l & -> & Hl).
    + rewrite Nat2Z.inj_succ, Z.pow_succ_r in Hv by lia.
      split; [lia|]. apply Z.div_lt_upper_bound; lia.
    + destruct room; [|lia]. change (128 ^ Z.of_nat 1) with 128 in Hv. lia.
    + eexists; split; [done|]. blia.
  - eexists; split; [done|]. blia.
Qed.

Lemma encode_int_loop_more n m v l :
  encode_int_loop n v = Some l -> (n <= m)%nat -> encode_int_loop m v = Some l.
Proof.
  revert m v l. induction n as [|n IH]; intros m v l; cbn; [done|].
  intros E Hm. destruct m as [|m]; [lia|]. cbn. destruct (128 <=? v); [|done].
  destruct (encode_int_loop n _) as [l'|] eqn:E'; [|done].
  by rewrite (IH m _ _ E') by lia.
Qed.

Lemma decode_int_loop_encoded room v l rest pos m acc :
  encode_int_loop room v = Some l -> 0 <= v -> 0 <= m < 64 -> 0 <= acc ->
  v * 2 ^ m + acc < 2 ^ 64 ->
  decode_int_loop (l ++ rest) pos m acc = Ok (pos + len l, acc + v * 2 ^ m).
Proof.
  revert v l pos m acc. induction room as [|room IH]; intros v l pos m acc; cbn [encode_int_loop]; [done|].
  intros Hl Hv Hm Ha Hb. assert (0 < 2 ^ m) by (apply Z.pow_pos_nonneg; lia).
  destruct (Z.leb_spec 128 v) as [Hge|Hlt].
  - destruct (encode_int_loop room (Z.shiftr v 7)) as [l'|] eqn:El; [|done].
    injection Hl as <-. cbn [app decode_int_loop]. rewrite (proj2 (Z.leb_gt 64 m)) by lia.
    rewrite land_0x80, lor_0x80, u8_b8_small by lia. rewrite (proj2 (Z.ltb_ge _ _)) by lia.
    rewrite land_0x7F, Z.shiftl_mul_pow2 by lia.
    rewrite Z.shiftr_div_pow2 in El by lia.
    assert (2 ^ (m + 7) = 2 ^ m * 128) as E7 by (rewrite Z.pow_add_r by lia; done).
    assert (v * 2 ^ m = (v / 2 ^ 7) * (2 ^ m * 128) + (v mod 128) * 2 ^ m) as Ev.
    { change (2 ^ 7) with 128. rewrite (Z.div_mod v 128) at 1 by lia. ring. }
    replace ((128 + v mod 128) mod 128) with (v mod 128) by lia.
    unfold u64. rewrite (Z.mod_small (v mod 128 * 2 ^ m)) by nia.
    rewrite Z.mod_small by nia.
    assert (m + 7 < 64). { apply (Z.pow_lt_mono_r_iff 2); [lia..|]. nia. }
    rewrite (IH _ _ _ _ _ El) by nia. do 2 f_equal; [blia|]. rewrite E7. nia.
  - injection Hl as <-. cbn [app decode_int_loop]. rewrite (proj2 (Z.leb_gt 64 m)) by lia.
    rewrite land_0x80, u8_b8_small by lia. rewrite (proj2 (Z.ltb_lt _ _)) by lia.
    rewrite land_0x7F, Z.shiftl_mul_pow2, (Z.mod_small v 128) by lia.
    unfold u64. rewrite !Z.mod_small by nia. done.
Qed.

(** A buffer of 16 bytes always suffices for a 64-bit value. *)
Lemma encode_int_spec v p mask :
  1 <= p <= 8 -> 0 <= v < 2 ^ 64 -> 0 <= mask < 256 -> mask mod 2 ^ p = 0 ->
  exists c tl, encode_int 16 v p mask = c :: tl /\
    u8 c = mask + Z.min v (2 ^ p - 1) /\ len tl <= 10 /\
    forall rest, decode_int (encode_int 16 v p mask ++ rest) p
                 = Ok (len (encode_int 16 v p mask), v).
Proof.
  intros Hp Hv Hm H0. unfold encode_int. rewrite (max_prefix_val p) by done.
  assert (H2 : 2 <= 2 ^ p <= 256).
  { split; [change 2 with (2 ^ 1) at 1|change 256 with (2 ^ 8)]; apply Z.pow_le_mono_r; lia. }
  assert (Hd : exists q, mask = q * 2 ^ p).
  { exists (mask / 2 ^ p). pose proof (Z.div_mod mask (2 ^ p)). lia. }
  destruct Hd as [q ->]. rewrite <- !Z.shiftl_mul_pow2 by lia.
  assert (Hq : forall w, 0 <= w < 2 ^ p ->
    0 <= Z.shiftl q p + w < 256 /\ u8 (b8 (Z.lor (Z.shiftl q p) w)) = Z.shiftl q p + w).
  { intros w Hw. rewrite lor_shiftl_add, Z.shiftl_mul_pow2 by lia.
    assert (Hlt : q * 2 ^ p + w < 256).
    { assert (256 = 2 ^ (8 - p) * 2 ^ p) as E by (rewrite <- Z.pow_add_r by lia; by replace (8 - p + p) with 8 by lia).
      set (K := 2 ^ (8 - p)) in *. set (P := 2 ^ p) in *. clearbody K P.
      assert (q < K) by nia. assert ((q + 1) * P <= K * P) by (apply Z.mul_le_mono_nonneg_r; lia).
      lia. }
    split; [nia|]. apply u8_b8_small. nia. }
  destruct (Z.ltb_spec v (2 ^ p - 1)) as [Hlt|Hge]; cbn [Z.eqb].
  - eexists _, []. split; [done|]. destruct (Hq v) as [_ Ev]; [lia|].
    split; [rewrite Ev; lia|]. split; [blia|]. intros rest. cbn [app decode_int].
    rewrite land_max_prefix, max_prefix_val, Ev by lia. rewrite Z.shiftl_mul_pow2 by lia.
    rewrite Z.add_comm, Z.mod_add, Z.mod_small by lia.
    rewrite (proj2 (Z.ltb_lt _ _)) by lia. done.
  - set (w := u64 (v - (2 ^ p - 1))).
    assert (Hw : w = v - (2 ^ p - 1)) by (unfold w, u64; apply Z.mod_small; lia).
    destruct (encode_int_loop_some 10 w) as (l & El & Hl).
    { change (128 ^ Z.of_nat 10) with (2 ^ 70). lia. }
    { lia. }
    change (Z.to_nat (16 - 1)) with 15%nat.
    rewrite (encode_int_loop_more _ 15 _ _ El) by lia.
    eexists _, l. split; [done|]. destruct (Hq (2 ^ p - 1)) as [_ Ev]; [lia|].
    split; [rewrite Ev; lia|]. split; [lia|]. intros rest. cbn [app decode_int].
    rewrite land_max_prefix, max_prefix_val, Ev by lia. rewrite Z.shiftl_mul_pow2 by lia.
    rewrite Z.add_comm, Z.mod_add, Z.mod_small by lia. rewrite Z.ltb_irrefl.
    rewrite (decode_int_loop_encoded 10 w l) by (done || lia).
    do 2 f_equal; [blia|lia].
Qed.

Lemma encode_int_room n v p mask :
  12 <= n -> 1 <= p <= 8 -> 0 <= v < 2 ^ 64 -> encode_int n v p mask = encode_int 16 v p mask.
Proof.
  intros Hn Hp Hv. unfold encode_int. rewrite (proj2 (Z.eqb_neq n 0)) by lia.
  change (16 =? 0) with false. cbv iota.
  assert (1 <= max_prefix p < 2 ^ 64) as Hm.
  { rewrite max_prefix_val by done. split.
    - change 1 with (2 ^ 1 - 1) at 1. pose proof (Z.pow_le_mono_r 2 1 p). lia.
    - pose proof (Z.pow_le_mono_r 2 p 8). lia. }
  destruct (Z.ltb_spec v (max_prefix p)); [done|].
  destruct (encode_int_loop_some 10 (u64 (v - max_prefix p))) as (l & El & Hl).
  { change (128 ^ Z.of_nat 10) with (2 ^ 70). unfold u64. lia. }
  { lia. }
  rewrite (encode_int_loop_more _ (Z.to_nat (n - 1)) _ _ El) by lia.
  by rewrite (encode_int_loop_more _ (Z.to_nat (16 - 1)) _ _ El) by lia.
Qed.

Lemma decode_int_loop_bounds rest pos m acc n v :
  decode_int_loop rest pos m acc = Ok (n, v) -> 0 <= pos -> 0 <= acc < 2 ^ 64 ->
  0 <= v < 2 ^ 64 /\ (n = 0 \/ pos < n <= pos + len rest).
Proof.
  revert pos m acc. induction rest as [|b rest IH]; intros pos m acc; cbn [decode_int_loop].
  - intros [= <- <-]. lia.
  - destruct (64 <=? m); [done|]. set (acc' := u64 _).
    assert (0 <= acc' < 2 ^ 64) by (unfold acc', u64; lia).
    intros Hr Hp Ha. destruct (_ =? 0).
    + injection Hr as <- <-. blia.
    + apply IH in Hr; blia.
Qed.

Lemma decode_int_bounds buf p n v :
  1 <= p <= 8 -> decode_int buf p = Ok (n, v) -> 0 <= v < 2 ^ 64 /\ 0 <= n <= len buf.
Proof.
  intros Hp. destruct buf as [|b rest]; cbn [decode_int].
  - intros [= <- <-]. blia.
  - rewrite land_max_prefix by done.
    assert (0 <= u8 b mod 2 ^ p < 2 ^ 64).
    { pose proof (u8_range b). pose proof (Z.mod_pos_bound (u8 b) (2 ^ p)).
      pose proof (Z.mod_le (u8 b) (2 ^ p)). pose proof (Z.pow_pos_nonneg 2 p). lia. }
    destruct (_ <? _).
    + intros [= <- <-]. blia.
    + intros [? ?]%decode_int_loop_bounds; [|lia..]. blia.
Qed.

(** The only failure other than "not enough bytes" is the shift. *)
Lemma decode_int_loop_total rest pos m acc :
  (exists n v, decode_int_loop rest pos m acc = Ok (n, v)) \/
  decode_int_loop rest pos m acc = Undefined BadShift.
Proof.
  revert pos m acc. induction rest as [|b rest IH]; intros pos m acc; cbn [decode_int_loop].
  - left. by eexists _, _.
  - destruct (64 <=? m); [by right|]. destruct (_ =? 0); [left; by eexists _, _|apply IH].
Qed.

(** [n] more continuation bytes and one byte after them reach the bad shift. *)
Lemma decode_int_loop_shift n rest pos acc :
  (n <= 10)%nat ->
  decode_int_loop rest pos (70 - 7 * Z.of_nat n) acc = Undefined BadShift <->
  (n < length rest)%nat /\ Forall (fun b => 128 <= u8 b) (take n rest).
Proof.
  revert rest pos acc. induction n as [|n IH]; intros rest pos acc Hn;
    destruct rest as [|b rest]; cbn [decode_int_loop length take].
  - split; [done|lia].
  - split; [|done]. intros _. split; [lia|constructor].
  - split; [done|lia].
  - rewrite (proj2 (Z.leb_gt _ _)) by lia. rewrite land_0x80, Forall_cons.
    destruct (Z.ltb_spec (u8 b) 128).
    + split; [done|lia].
    + replace (70 - 7 * Z.of_nat (S n) + 7) with (70 - 7 * Z.of_nat n) by lia.
      rewrite IH by lia. split; [intros [? ?]; split; [lia|done]|intros [? [_ ?]]; split; [lia|done]].
Qed.

Lemma decode_int_total buf p :
  (exists n v, decode_int buf p = Ok (n, v)) \/ decode_int buf p = Undefined BadShift.
Proof.
  destruct buf as [|b rest]; cbn [decode_int]; [left; by eexists _, _|].
  destruct (_ <? _); [left; by eexists _, _|apply decode_int_loop_total].
Qed.

(** ** Properties *)

(** Prefix integers round-trip: for every prefix length, every first-byte
    pattern outside the prefix and every 64-bit value, the encoder fits in its
    16-byte buffer (11 bytes at most), leaves the pattern in place, and the
    decoder returns the value and its length whatever follows it. *)
Theorem prefix_int_roundtrip (p mask v : Z) (rest : bytes) :
  1 <= p <= 8 -> 0 <= mask < 256 -> mask mod 2 ^ p = 0 -> 0 <= v < 2 ^ 64 ->
  let e := encode_int 16 v p mask in
  1 <= len e <= 11 /\ u8 (byte_at e 0) / 2 ^ p = mask / 2 ^ p /\
  decode_int (e ++ rest) p = Ok (len e, v).
Proof.
  intros Hp Hm H0 Hv e. destruct (encode_int_spec v p mask Hp Hv Hm H0) as (c & tl & E & Hc & Ht & Hd).
  split_and!; [unfold e; rewrite E; blia..| |apply Hd].
  unfold e. rewrite E, byte_at_cons_0, Hc by done.
  pose proof (Z.pow_pos_nonneg 2 p).
  rewrite (Z.div_mod mask (2 ^ p)) at 1 by lia. rewrite H0, Z.add_0_r, (Z.mul_comm (2 ^ p)).
  rewrite Z.div_add_l, (Z.div_small (Z.min _ _)) by lia. lia.
Qed.

Lemma prefix_int_roundtrip_witness :
  encode_int 16 1337 5 0x20 = [x3f; x9a; x0a] /\
  decode_int ([x3f; x9a; x0a] ++ str "tail") 5 = Ok (3, 1337).
Proof.
  split; [vm_compute; reflexivity|].
  apply (prefix_int_roundtrip 5 0x20 1337 (str "tail")); ground.
Defined.

(** The decoder reads only the bytes it is given, and it either succeeds,
    reporting at most their number, or reaches a shift by 70: that happens
    exactly when the prefix is full, ten continuation bytes follow and the
    buffer goes on. *)
Theorem prefix_int_undefined_iff (buf : bytes) (p : Z) :
  1 <= p <= 8 ->
  ((exists n v, decode_int buf p = Ok (n, v) /\ 0 <= n <= len buf /\ 0 <= v < 2 ^ 64) \/
   decode_int buf p = Undefined BadShift) /\
  (decode_int buf p = Undefined BadShift <->
   12 <= len buf /\ u8 (byte_at buf 0) mod 2 ^ p = 2 ^ p - 1 /\
   Forall (fun b => 128 <= u8 b) (takeZ 10 (dropZ 1 buf))).
Proof.
  intros Hp. split.
  - destruct (decode_int_total buf p) as [(n & v & E)|E]; [left|by right].
    exists n, v. pose proof (decode_int_bounds buf p n v Hp E). by destruct_and!.
  - destruct buf as [|b rest]; cbn [decode_int]; [split; [done|intros [? _]; blia]|].
    rewrite byte_at_cons_0, land_max_prefix, max_prefix_val by done.
    pose proof (Z.mod_pos_bound (u8 b) (2 ^ p)). pose proof (Z.pow_pos_nonneg 2 p).
    destruct (Z.ltb_spec (u8 b mod 2 ^ p) (2 ^ p - 1)).
    + split; [done|lia].
    + pose proof (decode_int_loop_shift 10 rest 1 (u8 b mod 2 ^ p) ltac:(lia)) as Hs.
      cbn [Z.of_nat Z.mul Z.sub] in Hs. rewrite Hs, len_cons.
      change (dropZ 1 (b :: rest)) with rest. unfold takeZ, len.
      split; [intros [? ?]; split_and!; done || lia|intros (? & _ & ?); split; done || lia].
Qed.

Lemma prefix_int_undefined_iff_witness :
  decode_int (xff :: repeat x80 10 ++ [x00]) 7 = Undefined BadShift.
Proof.
  apply prefix_int_undefined_iff; [lia|]. split; [ground|split; [reflexivity|]].
  apply (bool_decide_unpack _). vm_compute. exact I.
Defined.
