(* ===== verification/HeaderTable.v ===== *)
(** * Header lists, eviction, and the interface of a header compressor

    What HPACK and QPACK share: header fields, the size of a table entry, the
    loop that evicts from the back of a dynamic table, its specification
    [fit], and the class [HeaderCodec] that states what an HTTP session relies
    on: the decoder gives back the header lists the encoder was given. *)
From S2P Require Import Prelude.
From stdpp Require Import options.

(** [std::pair<std::string, std::string>] *)
Abbreviation header := (bytes * bytes)%type.

(** [name.size() + value.size() + 32] (RFC 7541, section 4.1) *)
Definition entry_size (h : header) : Z := len h.1 + len h.2 + 32.

Fixpoint total_size (l : list header) : Z :=
  match l with [] => 0 | h :: l => entry_size h + total_size l end.

(** [current_size_] and [entries_]; the front of the deque is the newest. *)
Record evict_state := { ev_size : Z; ev_entries : list header }.

(** Remove the oldest entry. *)
Definition evict_back (s : evict_state) : evict_state :=
  match last (ev_entries s) with
  | None => s
  | Some back => {| ev_size := u64 (ev_size s - entry_size back);
                    ev_entries := removelast (ev_entries s) |}
  end.

(** [while (over(current_size_) && !entries_.empty()) evict();]  One entry
    goes per iteration, so as many units of fuel as entries are enough. *)
Fixpoint evict_loop (fuel : nat) (over : Z -> bool) (s : evict_state) : evict_state :=
  match fuel with
  | O => s
  | S fuel =>
      if over (ev_size s) && negb (bool_decide (ev_entries s = [])) then
        evict_loop fuel over (evict_back s)
      else s
  end.

Definition evict_while (over : Z -> bool) (s : evict_state) : evict_state :=
  evict_loop (length (ev_entries s)) over s.

(** Specification: the newest entries that fit in [budget]. *)
Fixpoint fit (budget : Z) (l : list header) : list header :=
  match l with
  | [] => []
  | h :: l => if entry_size h <=? budget then h :: fit (budget - entry_size h) l else []
  end.

Class HeaderCodec (E D : Type) := {
  hc_encode : E -> list header -> bytes * E;
  hc_decode : D -> bytes -> outcome (list header * D);
  hc_enc_ok : E -> Prop;
  hc_ok : list header -> Prop;
  hc_enc_ok_step e hs : hc_enc_ok e -> hc_enc_ok (hc_encode e hs).2;
  (** The peer's table size setting. *)
  hc_resize : E -> Z -> E;
  hc_enc_ok_resize e n : 0 <= n < 2 ^ 32 -> hc_enc_ok e -> hc_enc_ok (hc_resize e n);
  (** Blocks below 1 GiB decode to what was encoded, whatever the decoder's
      state. *)
  hc_roundtrip e d hs :
    hc_enc_ok e -> hc_ok hs -> len (hc_encode e hs).1 < 2 ^ 30 ->
    exists d', hc_decode d (hc_encode e hs).1 = Ok (hs, d')
}.

(** Send one header list after the other over a codec. *)
Fixpoint exchange `{HeaderCodec E D} (e : E) (d : D) (blocks : list (list header))
  : outcome (list (list header)) :=
  match blocks with
  | [] => Ok []
  | hs :: blocks =>
      let '(wire, e) := hc_encode e hs in
      '(got, d) ← hc_decode d wire;
      rest ← exchange e d blocks;
      Ok (got :: rest)
  end.

(** ** Lemmas: sizes *)

Lemma entry_size_pos h : 32 <= entry_size h.
Proof. unfold entry_size. blia. Qed.

Lemma total_size_app l k : total_size (l ++ k) = total_size l + total_size k.
Proof. induction l as [|h l IH]; cbn in *; lia. Qed.

Lemma total_size_nonneg l : 32 * len l <= total_size l.
Proof. induction l as [|h l IH]; cbn in *; [done|]. pose proof (entry_size_pos h). blia. Qed.

(** ** Lemmas: [fit] *)

Lemma fit_le budget l : 0 <= budget -> total_size (fit budget l) <= budget.
Proof.
  revert budget. induction l as [|h l IH]; intros budget Hb; cbn; [lia|].
  destruct (Z.leb_spec (entry_size h) budget); cbn; [|lia].
  specialize (IH (budget - entry_size h) ltac:(lia)). lia.
Qed.

Lemma fit_prefix budget l : fit budget l `prefix_of` l.
Proof.
  revert budget. induction l as [|h l IH]; intros budget; cbn; [done|].
  destruct (entry_size h <=? budget); [by apply prefix_cons|apply prefix_nil].
Qed.

Lemma fit_all budget l : total_size l <= budget -> fit budget l = l.
Proof.
  revert budget. induction l as [|h l IH]; intros budget Hb; cbn in *; [done|].
  pose proof (total_size_nonneg l). pose proof (len_nonneg l).
  rewrite (proj2 (Z.leb_le _ _)) by lia. f_equal. apply IH. lia.
Qed.

Lemma fit_snoc budget l h :
  budget < total_size (l ++ [h]) -> fit budget (l ++ [h]) = fit budget l.
Proof.
  revert budget. induction l as [|x l IH]; intros budget Hb; cbn [app fit].
  - cbn in Hb. by rewrite (proj2 (Z.leb_gt _ _)) by lia.
  - destruct (_ <=? _); [|done]. f_equal. apply IH. cbn in Hb. lia.
Qed.

(** ** Lemmas: the eviction loop *)

Lemma evict_loop_fit fuel over budget s :
  (length (ev_entries s) <= fuel)%nat ->
  ev_size s = total_size (ev_entries s) -> total_size (ev_entries s) < 2 ^ 64 ->
  (forall n, 0 <= n <= ev_size s -> over n = (budget <? n)) ->
  evict_loop fuel over s =
  {| ev_size := total_size (fit budget (ev_entries s));
     ev_entries := fit budget (ev_entries s) |}.
Proof.
  revert s. induction fuel as [|fuel IH]; intros s Hf Hs Hlt Hover; destruct s as [n l]; cbn in *.
  - assert (l = []) as -> by (apply nil_length_inv; lia). by subst.
  - pose proof (total_size_nonneg l) as Hnn. pose proof (len_nonneg l).
    rewrite Hover by lia. destruct (Z.ltb_spec budget n) as [Hb|Hb]; cbn.
    2: { subst. by rewrite fit_all by lia. }
    destruct l as [|x l _] using rev_ind; [cbn in *; by subst|].
    rewrite bool_decide_eq_false_2 by (by destruct l). cbn [negb].
    rewrite total_size_app in *. cbn in *.
    pose proof (total_size_nonneg l). pose proof (len_nonneg l). pose proof (entry_size_pos x).
    unfold evict_back; cbn. rewrite last_snoc, removelast_last. cbn.
    unfold u64. rewrite Z.mod_small by lia. subst n.
    rewrite fit_snoc by (rewrite total_size_app; cbn; lia).
    rewrite IH; cbn; [done|..].
    + rewrite length_app in Hf. cbn in Hf. lia.
    + lia.
    + lia.
    + intros m Hm. apply Hover. lia.
Qed.

Lemma evict_while_fit over budget s :
  ev_size s = total_size (ev_entries s) -> total_size (ev_entries s) < 2 ^ 64 ->
  (forall n, 0 <= n <= ev_size s -> over n = (budget <? n)) ->
  evict_while over s =
  {| ev_size := total_size (fit budget (ev_entries s));
     ev_entries := fit budget (ev_entries s) |}.
Proof. intros. by apply evict_loop_fit. Qed.

(** ** Lemmas: codecs *)

Lemma exchange_ok `{HeaderCodec E D} e d blocks :
  hc_enc_ok e -> Forall hc_ok blocks ->
  (forall e' hs, hs ∈ blocks -> len (hc_encode e' hs).1 < 2 ^ 30) ->
  exchange e d blocks = Ok blocks.
Proof.
  intros He Hok. revert e d He. induction Hok as [|hs blocks Hhs _ IH]; intros e d He Hlen; [done|].
  cbn [exchange]. pose proof (Hlen e hs ltac:(left)) as Hl.
  destruct (hc_roundtrip e d hs He Hhs Hl) as [d' Hd].
  pose proof (hc_enc_ok_step e hs He) as He1.
  destruct (hc_encode e hs) as [wire e1]. cbn [fst snd] in *. rewrite Hd. cbn.
  rewrite IH; [done..|]. intros. apply Hlen. by right.
Qed.
