(* ===== verification/Hpack.v ===== *)
(** * HPACK header compression (src/src/http/hpack.cpp, hpack.hpp)

    Prefix integers and Huffman strings, the static and the dynamic table, the
    encoder (static matches and literals without indexing) and the decoder
    with all its representations.  [hpack_decoder::decode] returns an empty
    vector on an error; an out-of-bounds read or a bad shift is an [Undefined]
    outcome.  Table arithmetic is on [size_t] and wraps; [int] sums that leave
    their range are undefined. *)
From S2P Require Import Prelude PrefixInt Huffman HeaderTable.
From stdpp Require Import options.

Definition hpack_encode_int : Z -> Z -> Z -> Z -> bytes := encode_int.
Definition hpack_decode_int : bytes -> Z -> outcome (Z * Z) := decode_int.

(** ** Static table *)

Definition hpack_static_table : list header := [
  (str "", str "");
  (str ":authority", str "");
  (str ":method", str "GET");
  (str ":method", str "POST");
  (str ":path", str "/");
  (str ":path", str "/index.html");
  (str ":scheme", str "http");
  (str ":scheme", str "https");
  (str ":status", str "200");
  (str ":status", str "204");
  (str ":status", str "206");
  (str ":status", str "304");
  (str ":status", str "400");
  (str ":status", str "404");
  (str ":status", str "500");
  (str "accept-charset", str "");
  (str "accept-encoding", str "gzip, deflate");
  (str "accept-language", str "");
  (str "accept-ranges", str "");
  (str "accept", str "");
  (str "access-control-allow-origin", str "");
  (str "age", str "");
  (str "allow", str "");
  (str "authorization", str "");
  (str "cache-control", str "");
  (str "content-disposition", str "");
  (str "content-encoding", str "");
  (str "content-language", str "");
  (str "content-length", str "");
  (str "content-location", str "");
  (str "content-range", str "");
  (str "content-type", str "");
  (str "cookie", str "");
  (str "date", str "");
  (str "etag", str "");
  (str "expect", str "");
  (str "expires", str "");
  (str "from", str "");
  (str "host", str "");
  (str "if-match", str "");
  (str "if-modified-since", str "");
  (str "if-none-match", str "");
  (str "if-range", str "");
  (str "if-unmodified-since", str "");
  (str "last-modified", str "");
  (str "link", str "");
  (str "location", str "");
  (str "max-forwards", str "");
  (str "proxy-authenticate", str "");
  (str "proxy-authorization", str "");
  (str "range", str "");
  (str "referer", str "");
  (str "refresh", str "");
  (str "retry-after", str "");
  (str "server", str "");
  (str "set-cookie", str "");
  (str "strict-transport-security", str "");
  (str "transfer-encoding", str "");
  (str "user-agent", str "");
  (str "vary", str "");
  (str "via", str "");
  (str "www-authenticate", str "")
].

(** The loop of [hpack_find_static] from index [i] on. *)
Fixpoint find_static_from (tbl : list header) (i name_match : Z) (name value : bytes)
  : Z * bool :=
  match tbl with
  | [] => (name_match, false)
  | (n, v) :: tbl =>
      if bool_decide (n = name) then
        if bool_decide (v = value) then (i, true)
        else find_static_from tbl (i + 1) (if name_match =? 0 then i else name_match)
               name value
      else find_static_from tbl (i + 1) name_match name value
  end.

Definition hpack_find_static (name value : bytes) : Z * bool :=
  find_static_from (drop 1 hpack_static_table) 1 0 name value.

(** ** Dynamic table *)

Record hpack_dynamic_table := {
  max_size : Z;
  current_size : Z;
  entries : list header
}.

Definition new_dynamic_table (max_size : Z) : hpack_dynamic_table :=
  {| max_size := max_size; current_size := 0; entries := [] |}.

Definition table_of (max : Z) (s : evict_state) : hpack_dynamic_table :=
  {| max_size := max; current_size := ev_size s; entries := ev_entries s |}.

Definition evict_of (t : hpack_dynamic_table) : evict_state :=
  {| ev_size := current_size t; ev_entries := entries t |}.

Definition evict (t : hpack_dynamic_table) : hpack_dynamic_table :=
  table_of (max_size t) (evict_back (evict_of t)).

Definition add (t : hpack_dynamic_table) (name value : bytes) : hpack_dynamic_table :=
  let esz := entry_size (name, value) in
  let s := evict_while (fun size => max_size t <? u64 (size + esz)) (evict_of t) in
  if esz <=? max_size t then
    {| max_size := max_size t; current_size := u64 (ev_size s + esz);
       entries := (name, value) :: ev_entries s |}
  else table_of (max_size t) s.

Definition resize (t : hpack_dynamic_table) (new_max_size : Z) : hpack_dynamic_table :=
  table_of new_max_size (evict_while (fun size => new_max_size <? size) (evict_of t)).

(** [get(index)]: [nullptr] is [None]. *)
Definition get (t : hpack_dynamic_table) (index : Z) : option header :=
  if (index =? 0) || (len (entries t) <? index) then None
  else entries t !! Z.to_nat (index - 1).

Fixpoint find_from (l : list header) (i name_match : Z) (name value : bytes) : Z * bool :=
  match l with
  | [] => (name_match, false)
  | (n, v) :: l =>
      if bool_decide (n = name) then
        if bool_decide (v = value) then (i + 1, true)
        else find_from l (i + 1) (if name_match =? 0 then i + 1 else name_match) name value
      else find_from l (i + 1) name_match name value
  end.

Definition find (t : hpack_dynamic_table) (name value : bytes) : Z * bool :=
  find_from (entries t) 0 0 name value.

(** ** Strings *)

Definition encode_string (s : bytes) : bytes :=
  if huffman_is_shorter s then
    let encoded := huffman_encode s in
    hpack_encode_int 16 (len encoded) 7 0x80 ++ encoded
  else hpack_encode_int 16 (len s) 7 0x00 ++ s.

(** [std::string::max_size()], beyond which [assign] throws. *)
Definition STRING_MAX : Z := 2 ^ 63 - 1.

(** [s.assign(p, n)] from a pointer to the bytes [data]. *)
Definition assign (data : bytes) (n : Z) : outcome bytes :=
  if STRING_MAX <? n then Throws LengthError else rd_n data n.

(** The pair of the string and the number of bytes consumed, 0 on an error. *)
Definition decode_string (data : bytes) : outcome (bytes * Z) :=
  match data with
  | [] => Ok ([], 0)
  | b :: _ =>
      let huffman := negb (Z.land (u8 b) 0x80 =? 0) in
      '(consumed, str_len) ← hpack_decode_int data 7;
      if (consumed =? 0) || (len data <? u64 (consumed + str_len)) then Ok ([], 0) else
      s ← (if huffman then
             raw ← rd_n (dropZ consumed data) str_len; Ok (huffman_decode raw)
           else assign (dropZ consumed data) str_len);
      n ← int_add consumed (i32 str_len);
      Ok (s, n)
  end.

(** ** Encoder *)

Record hpack_encoder := {
  enc_dynamic_table : hpack_dynamic_table;
  enc_max_table_size : Z;
  table_size_updated : bool
}.

Definition new_hpack_encoder (max_table_size : Z) : hpack_encoder :=
  {| enc_dynamic_table := new_dynamic_table max_table_size;
     enc_max_table_size := max_table_size; table_size_updated := false |}.

Definition enc_set_max_table_size (e : hpack_encoder) (size : Z) : hpack_encoder :=
  {| enc_dynamic_table := resize (enc_dynamic_table e) size;
     enc_max_table_size := size; table_size_updated := true |}.

(** One header of the loop of [encode]. *)
Definition encode_header (h : header) : bytes :=
  let '(name, value) := h in
  let '(static_idx, static_exact) := hpack_find_static name value in
  if static_exact then hpack_encode_int 16 static_idx 7 0x80
  else hpack_encode_int 16 0 4 0x00 ++ encode_string name ++ encode_string value.

Definition encode (e : hpack_encoder) (headers : list header) : bytes * hpack_encoder :=
  let prefix :=
    if table_size_updated e then hpack_encode_int 16 (enc_max_table_size e) 5 0x20
    else [] in
  (prefix ++ concat (map encode_header headers),
   {| enc_dynamic_table := enc_dynamic_table e;
      enc_max_table_size := enc_max_table_size e; table_size_updated := false |}).

(** ** Decoder *)

Record hpack_decoder := {
  dec_dynamic_table : hpack_dynamic_table;
  dec_max_table_size : Z
}.

Definition new_hpack_decoder (max_table_size : Z) : hpack_decoder :=
  {| dec_dynamic_table := new_dynamic_table max_table_size;
     dec_max_table_size := max_table_size |}.

Definition dec_set_max_table_size (d : hpack_decoder) (size : Z) : hpack_decoder :=
  {| dec_dynamic_table := resize (dec_dynamic_table d) size;
     dec_max_table_size := size |}.

(** [get_indexed]; [false] is [None].  The subtraction is on [size_t]. *)
Definition get_indexed (t : hpack_dynamic_table) (index : Z) : option header :=
  if (0 <? index) && (index <? len hpack_static_table) then
    hpack_static_table !! Z.to_nat index
  else get t (u64 (index - len hpack_static_table)).

(** [data + pos], defined up to one past the end. *)
Definition at_pos (data : bytes) (pos : Z) : outcome bytes :=
  if pos <=? len data then Ok (dropZ pos data) else Undefined OutOfBounds.

(** What one representation of the header block asks for. *)
Inductive field :=
| FieldError                                       (* [return {}] *)
| FieldHeader (pos : Z) (h : header) (add_it : bool)
| FieldResize (pos : Z) (new_size : Z).

(** The literal representations: name index or name string, value string. *)
Definition decode_literal (t : hpack_dynamic_table) (data : bytes) (pos prefix : Z)
    (add_it : bool) : outcome field :=
  here ← at_pos data pos;
  '(consumed, name_index) ← hpack_decode_int here prefix;
  if consumed =? 0 then Ok FieldError else
  let pos := u64 (pos + consumed) in
  name ← (if 0 <? name_index then
            Ok (match get_indexed t name_index with
                | Some (n, _) => Some (n, pos)
                | None => None
                end)
          else
            here ← at_pos data pos;
            '(s, c) ← decode_string here;
            Ok (if c =? 0 then None else Some (s, u64 (pos + c))));
  match name with
  | None => Ok FieldError
  | Some (name, pos) =>
      here ← at_pos data pos;
      '(s, c) ← decode_string here;
      Ok (if c =? 0 then FieldError else FieldHeader (u64 (pos + c)) (name, s) add_it)
  end.

(** The body of the loop of [decode]: dispatch on the first byte. *)
Definition decode_field (t : hpack_dynamic_table) (data : bytes) (pos : Z) : outcome field :=
  byte ← rd data pos;
  if negb (Z.land (u8 byte) 0x80 =? 0) then
    here ← at_pos data pos;
    '(consumed, index) ← hpack_decode_int here 7;
    if (consumed =? 0) || (index =? 0) then Ok FieldError else
    match get_indexed t index with
    | None => Ok FieldError
    | Some h => Ok (FieldHeader (u64 (pos + consumed)) h false)
    end
  else if negb (Z.land (u8 byte) 0x40 =? 0) then decode_literal t data pos 6 true
  else if negb (Z.land (u8 byte) 0x20 =? 0) then
    here ← at_pos data pos;
    '(consumed, new_size) ← hpack_decode_int here 5;
    if consumed =? 0 then Ok FieldError
    else Ok (FieldResize (u64 (pos + consumed)) new_size)
  else decode_literal t data pos 4 false.

(** [while (pos < len)]: the table, and the headers and new entries unless the
    function has returned [{}].  One unit of fuel per representation. *)
Fixpoint decode_loop (fuel : nat) (t : hpack_dynamic_table) (data : bytes) (pos : Z)
    (result new_entries : list header)
  : outcome (hpack_dynamic_table * option (list header * list header)) :=
  if pos <? len data then
    match fuel with
    | O => Timeout
    | S fuel =>
        f ← decode_field t data pos;
        match f with
        | FieldError => Ok (t, None)
        | FieldHeader pos h add_it =>
            decode_loop fuel t data pos (result ++ [h])
              (if add_it then new_entries ++ [h] else new_entries)
        | FieldResize pos n => decode_loop fuel (resize t n) data pos result new_entries
        end
    end
  else Ok (t, Some (result, new_entries)).

Definition decode (d : hpack_decoder) (data : bytes) : outcome (list header * hpack_decoder) :=
  '(t, r) ← decode_loop (length data) (dec_dynamic_table d) data 0 [] [];
  match r with
  | None =>
      Ok ([], {| dec_dynamic_table := t; dec_max_table_size := dec_max_table_size d |})
  | Some (result, new_entries) =>
      let t := foldl (fun t h => add t h.1 h.2) t new_entries in
      Ok (result, {| dec_dynamic_table := t; dec_max_table_size := dec_max_table_size d |})
  end.

(** ** Lemmas: tables *)

(** The table's bookkeeping: the recorded size is that of the entries, it is
    within the limit and within what a [size_t] counts. *)
Definition table_ok (t : hpack_dynamic_table) : Prop :=
  current_size t = total_size (entries t) /\ current_size t <= max_size t /\
  0 <= max_size t /\ current_size t < 2 ^ 62.

Lemma add_fit t name value :
  table_ok t -> entry_size (name, value) < 2 ^ 62 ->
  entries (add t name value) = fit (max_size t) ((name, value) :: entries t) /\
  current_size (add t name value) = total_size (entries (add t name value)) /\
  max_size (add t name value) = max_size t.
Proof.
  intros (Hs & Hm & H0 & Hlt) He. pose proof (entry_size_pos (name, value)) as Hp.
  unfold add. set (esz := entry_size (name, value)) in *.
  pose proof (total_size_nonneg (entries t)). pose proof (len_nonneg (entries t)).
  rewrite (evict_while_fit _ (max_size t - esz)); cbn.
  - fold esz. destruct (Z.leb_spec esz (max_size t)) as [Hle|Hgt]; cbn.
    + split; [done|]. split; [|done].
      pose proof (fit_le (max_size t - esz) (entries t) ltac:(lia)).
      pose proof (total_size_nonneg (fit (max_size t - esz) (entries t))).
      pose proof (len_nonneg (fit (max_size t - esz) (entries t))).
      assert (total_size (fit (max_size t - esz) (entries t)) <= total_size (entries t)).
      { destruct (fit_prefix (max_size t - esz) (entries t)) as [k Ek].
        rewrite Ek at 2. rewrite total_size_app. pose proof (total_size_nonneg k).
        pose proof (len_nonneg k). lia. }
      unfold u64. rewrite Z.mod_small by lia. fold esz. lia.
    + assert (fit (max_size t - esz) (entries t) = []) as ->; [|done].
      destruct (entries t) as [|h l]; [done|]. cbn. pose proof (entry_size_pos h).
      by rewrite (proj2 (Z.leb_gt _ _)) by lia.
  - done.
  - lia.
  - intros n Hn. unfold u64. rewrite Z.mod_small by lia.
    destruct (Z.ltb_spec (max_size t) (n + esz)), (Z.ltb_spec (max_size t - esz) n); lia.
Qed.

Lemma resize_fit t n :
  table_ok t ->
  entries (resize t n) = fit n (entries t) /\
  current_size (resize t n) = total_size (entries (resize t n)) /\
  max_size (resize t n) = n.
Proof.
  intros (Hs & Hm & H0 & Hlt). unfold resize.
  rewrite (evict_while_fit _ n); cbn; done || lia.
Qed.

Lemma total_fit_le budget l : total_size (fit budget l) <= total_size l.
Proof.
  destruct (fit_prefix budget l) as [k Ek]. rewrite Ek at 2. rewrite total_size_app.
  pose proof (total_size_nonneg k). pose proof (len_nonneg k). lia.
Qed.

Lemma add_ok t name value :
  table_ok t -> entry_size (name, value) < 2 ^ 62 ->
  max_size t < 2 ^ 62 -> table_ok (add t name value).
Proof.
  intros Hok He Hmax. destruct (add_fit t name value Hok He) as (E & Hc & Hm).
  destruct Hok as (? & ? & ? & ?).
  unfold table_ok. rewrite Hm, Hc, E.
  pose proof (fit_le (max_size t) ((name, value) :: entries t) ltac:(lia)).
  split_and!; done || lia.
Qed.

Lemma resize_ok t n : table_ok t -> 0 <= n -> table_ok (resize t n).
Proof.
  intros Hok Hn. destruct (resize_fit t n Hok) as (E & Hc & Hm).
  destruct Hok as (Hs & ? & ? & ?). unfold table_ok. rewrite Hm, Hc, E.
  pose proof (fit_le n (entries t) Hn). pose proof (total_fit_le n (entries t)).
  split_and!; done || lia.
Qed.

(** ** Lemmas: the static table *)

Lemma find_static_from_exact tbl i0 nm name value i :
  find_static_from tbl i0 nm name value = (i, true) ->
  exists k, tbl !! k = Some (name, value) /\ i = i0 + Z.of_nat k /\
    forall j, (j < k)%nat -> tbl !! j <> Some (name, value).
Proof.
  revert i0 nm. induction tbl as [|[n v] tbl IH]; intros i0 nm; cbn [find_static_from]; [done|].
  assert (Hrec : forall nm', (n, v) <> (name, value) ->
    find_static_from tbl (i0 + 1) nm' name value = (i, true) ->
    exists k, ((n, v) :: tbl) !! k = Some (name, value) /\ i = i0 + Z.of_nat k /\
      forall j, (j < k)%nat -> ((n, v) :: tbl) !! j <> Some (name, value)).
  { intros nm' Hne (k & Hk & -> & Hj)%IH. exists (S k). split; [done|]. split; [lia|].
    intros [|j] Hlt; cbn; [congruence|]. apply Hj. lia. }
  case_bool_decide as Hn; [case_bool_decide as Hv|].
  - intros [= ->]. exists 0%nat. subst. split; [done|]. split; lia.
  - apply Hrec. congruence.
  - apply Hrec. congruence.
Qed.

Lemma find_static_from_name tbl i0 nm name value i :
  0 < i0 -> find_static_from tbl i0 nm name value = (i, false) ->
  ((name, value) ∉ tbl) /\
  (i = nm /\ (nm <> 0 \/ name ∉ tbl.*1) \/
   nm = 0 /\ exists k, tbl.*1 !! k = Some name /\ i = i0 + Z.of_nat k /\
     forall j, (j < k)%nat -> tbl.*1 !! j <> Some name).
Proof.
  intros Hi0. revert i0 nm Hi0.
  induction tbl as [|[n v] tbl IH]; intros i0 nm Hi0; cbn [find_static_from].
  { intros [= ->]. split; [apply not_elem_of_nil|]. left. split; [done|].
    right. apply not_elem_of_nil. }
  rewrite fmap_cons; cbn [fst]. case_bool_decide as Hn; [case_bool_decide as Hv; [done|]|].
  - intros [Hnot Hi]%IH; [|lia]. subst n. split.
    { rewrite not_elem_of_cons. split; [congruence|done]. }
    destruct (Z.eqb_spec nm 0) as [->|Hnm].
    + right. split; [done|]. exists 0%nat. destruct Hi as [[-> _]|[? _]]; [|lia].
      split; [done|]. split; lia.
    + left. destruct Hi as [[-> _]|[? _]]; [|done]. split; [done|by left].
  - intros [Hnot Hi]%IH; [|lia]. split.
    { rewrite not_elem_of_cons. split; [congruence|done]. }
    destruct Hi as [[-> Hi]|[-> (k & Hk & -> & Hj)]].
    + left. split; [done|]. destruct Hi; [by left|right].
      rewrite not_elem_of_cons. split; [congruence|done].
    + right. split; [done|]. exists (S k). split; [done|]. split; [lia|].
      intros [|j] Hlt; cbn; [congruence|]. apply Hj. lia.
Qed.

Lemma length_static : length hpack_static_table = 62%nat.
Proof. reflexivity. Qed.

(** What a search that starts at index 1 of a table means, for any table. *)
Definition static_search (tbl : list header) (name value : bytes) (i : Z) (exact : bool) : Prop :=
  if exact then
    1 <= i < len tbl /\ tbl !! Z.to_nat i = Some (name, value) /\
    (forall j, 1 <= j < i -> tbl !! Z.to_nat j <> Some (name, value))
  else
    ((name, value) ∉ drop 1 tbl) /\
    (i = 0 /\ name ∉ (drop 1 tbl).*1 \/
     1 <= i < len tbl /\ tbl.*1 !! Z.to_nat i = Some name /\
     (forall j, 1 <= j < i -> tbl.*1 !! Z.to_nat j <> Some name)).

Lemma find_static_from_spec tbl name value i exact :
  find_static_from (drop 1 tbl) 1 0 name value = (i, exact) ->
  static_search tbl name value i exact.
Proof.
  destruct exact; cbn [static_search].
  - intros (k & Hk & -> & Hb)%find_static_from_exact. rewrite lookup_drop in Hk.
    pose proof (lookup_lt_Some _ _ _ Hk). unfold len. split; [lia|]. split.
    + by replace (Z.to_nat (1 + Z.of_nat k)) with (1 + k)%nat by lia.
    + intros j Hj. specialize (Hb (Z.to_nat (j - 1)) ltac:(lia)). rewrite lookup_drop in Hb.
      by replace (1 + Z.to_nat (j - 1))%nat with (Z.to_nat j) in Hb by lia.
  - intros [Hnot Hi]%find_static_from_name; [|lia]. split; [done|].
    destruct Hi as [[-> [?|?]]|[_ (k & Hk & -> & Hb)]]; [done|by left|right].
    rewrite fmap_drop, lookup_drop in Hk. pose proof (lookup_lt_Some _ _ _ Hk) as Hlt.
    rewrite length_fmap in Hlt. unfold len. split; [lia|]. split.
    + by replace (Z.to_nat (1 + Z.of_nat k)) with (1 + k)%nat by lia.
    + intros j Hj. specialize (Hb (Z.to_nat (j - 1)) ltac:(lia)).
      rewrite fmap_drop, lookup_drop in Hb.
      by replace (1 + Z.to_nat (j - 1))%nat with (Z.to_nat j) in Hb by lia.
Qed.

Lemma hpack_find_static_eq name value :
  hpack_find_static name value = find_static_from (drop 1 hpack_static_table) 1 0 name value.
Proof. reflexivity. Qed.

Lemma hpack_find_static_index name value i :
  hpack_find_static name value = (i, true) ->
  1 <= i <= 61 /\ hpack_static_table !! Z.to_nat i = Some (name, value).
Proof.
  rewrite hpack_find_static_eq. intros (Hi & Hs & _)%find_static_from_spec. split; [|done].
  unfold len in Hi. rewrite length_static in Hi. lia.
Qed.

(** ** Lemmas: strings *)

Lemma land_0x40 b : (Z.land (u8 b) 0x40 =? 0) = (u8 b mod 128 <? 64).
Proof.
  assert (H : Bool.eqb (Z.land (u8 b) 0x40 =? 0) (u8 b mod 128 <? 64) = true).
  { destruct b; vm_compute; reflexivity. }
  by apply eqb_prop in H.
Qed.

Lemma land_0x20 b : (Z.land (u8 b) 0x20 =? 0) = (u8 b mod 64 <? 32).
Proof.
  assert (H : Bool.eqb (Z.land (u8 b) 0x20 =? 0) (u8 b mod 64 <? 32) = true).
  { destruct b; vm_compute; reflexivity. }
  by apply eqb_prop in H.
Qed.

(** The strings that survive: those sent raw, and those without a byte whose
    code word is shadowed by that of ['{']. *)
Definition string_ok (s : bytes) : Prop :=
  huffman_is_shorter s = true -> Forall (fun ch => shadowed ch = false) s.

#[export] Instance string_ok_dec s : Decision (string_ok s).
Proof. unfold string_ok. apply _. Defined.

Lemma decode_payload (pl rest : bytes) (mask : Z) :
  mask = 0 \/ mask = 0x80 -> len pl < 2 ^ 31 - 11 ->
  len (hpack_encode_int 16 (len pl) 7 mask ++ pl ++ rest) < 2 ^ 64 ->
  exists c tl,
    hpack_encode_int 16 (len pl) 7 mask = c :: tl /\ (128 <=? u8 c) = (mask =? 0x80) /\
    (let data := hpack_encode_int 16 (len pl) 7 mask ++ pl ++ rest in
     let n := len (hpack_encode_int 16 (len pl) 7 mask) in
     hpack_decode_int data 7 = Ok (n, len pl) /\
     0 < n /\ u64 (n + len pl) <= len data /\
     rd_n (dropZ n data) (len pl) = Ok pl /\
     int_add n (i32 (len pl)) = Ok (n + len pl)).
Proof.
  intros Hm Hl Hd. unfold hpack_encode_int, hpack_decode_int in *.
  pose proof (len_nonneg pl).
  destruct (encode_int_spec (len pl) 7 mask) as (c & tl & E & Hc & Ht & Hdec); [lia..| |].
  { destruct Hm; subst; done. }
  rewrite E in *. exists c, tl. split; [done|]. split.
  { change (2 ^ 7 - 1) with 127 in Hc. destruct Hm; subst; cbn; lia. }
  cbn zeta. split; [apply Hdec|]. split; [blia|]. unfold u64. split; [blia|].
  rewrite dropZ_app_len by done. split; [apply rd_n_app|].
  unfold int_add, i32. rewrite Z.mod_small by lia.
  replace (len pl + 2 ^ 31 - 2 ^ 31) with (len pl) by lia. zdec. done.
Qed.

Lemma decode_string_encode s rest :
  string_ok s -> len (encode_string s ++ rest) < 2 ^ 64 -> len (encode_string s) < 2 ^ 31 - 11 ->
  decode_string (encode_string s ++ rest) = Ok (s, len (encode_string s)).
Proof.
  intros Hs Hd Hl. unfold encode_string in *.
  destruct (huffman_is_shorter s) eqn:Hh.
  - set (pl := huffman_encode s) in *. rewrite <- app_assoc in *.
    destruct (decode_payload pl rest 0x80) as (c & tl & E & Hc & Hdec & Hn & Hlen & Hrd & Hadd);
      [by right|blia|done|].
    rewrite E in *. cbn [app decode_string] in *. rewrite land_0x80.
    rewrite Z.leb_antisym in Hc. apply negb_true_iff in Hc. rewrite Hc. cbn [negb].
    rewrite Hdec. cbn [mbind outcome_bind]. zdec. cbn [orb]. rewrite Hrd. cbn.
    rewrite Hadd. cbn. unfold pl. rewrite huffman_decode_encode by auto.
    do 2 f_equal. blia.
  - rewrite <- app_assoc in *.
    destruct (decode_payload s rest 0) as (c & tl & E & Hc & Hdec & Hn & Hlen & Hrd & Hadd);
      [by left|blia|done|].
    rewrite E in *. cbn [app decode_string] in *. rewrite land_0x80.
    rewrite Z.leb_antisym in Hc. apply negb_false_iff in Hc. rewrite Hc. cbn [negb].
    rewrite Hdec. cbn [mbind outcome_bind]. zdec. cbn [orb].
    unfold assign, STRING_MAX. zdec. rewrite Hrd. cbn.
    rewrite Hadd. cbn. do 2 f_equal. blia.
Qed.

(** ** Lemmas: the decoder on what the encoder writes *)

Definition header_ok (h : header) : Prop := string_ok h.1 /\ string_ok h.2.

#[export] Instance header_ok_dec h : Decision (header_ok h).
Proof. unfold header_ok. apply _. Defined.

Lemma at_pos_app pre rest : at_pos (pre ++ rest) (len pre) = Ok rest.
Proof. unfold at_pos. zdec. by rewrite dropZ_app_len. Qed.

Lemma at_pos_0 data : at_pos data 0 = Ok data.
Proof. unfold at_pos. zdec. done. Qed.

Lemma rd_app pre c rest : rd (pre ++ c :: rest) (len pre) = Ok c.
Proof.
  rewrite rd_byte_at by blia. rewrite byte_at_app_r, Z.sub_diag by lia.
  by rewrite byte_at_cons_0.
Qed.

Lemma u64_pos (pre l rest : bytes) n :
  len (pre ++ l ++ rest) < 2 ^ 64 -> n = len l -> u64 (len pre + n) = len (pre ++ l).
Proof. intros ? ->. unfold u64. rewrite Z.mod_small; blia. Qed.

Lemma encode_string_nonempty s :
  len (encode_string s) < 2 ^ 31 - 11 -> 0 < len (encode_string s).
Proof.
  unfold encode_string. intros Hl.
  destruct (huffman_is_shorter s); rewrite len_app in *.
  - destruct (decode_payload (huffman_encode s) [] 0x80) as (c & tl & E & _);
      [by right|blia|rewrite app_nil_r; blia|]. rewrite E. blia.
  - destruct (decode_payload s [] 0) as (c & tl & E & _);
      [by left|blia|rewrite app_nil_r; blia|]. rewrite E. blia.
Qed.

Lemma encode_header_cases h :
  (exists i c tl, 1 <= i <= 61 /\ hpack_static_table !! Z.to_nat i = Some h /\
     encode_header h = c :: tl /\ 128 <= u8 c /\
     forall rest, hpack_decode_int (encode_header h ++ rest) 7 = Ok (len (encode_header h), i)) \/
  encode_header h = x00 :: encode_string h.1 ++ encode_string h.2.
Proof.
  destruct h as [name value]. unfold encode_header. cbn [fst snd].
  destruct (hpack_find_static name value) as [i [|]] eqn:E; [left|right; done].
  apply hpack_find_static_index in E as [Hi Hs].
  destruct (encode_int_spec i 7 0x80) as (c & tl & Ec & Hc & _ & Hd); [lia..|done|].
  exists i, c, tl. split_and!; done || lia.
Qed.

Lemma get_indexed_static t i h :
  1 <= i <= 61 -> hpack_static_table !! Z.to_nat i = Some h -> get_indexed t i = Some h.
Proof.
  intros Hi Hs. unfold get_indexed. change (len hpack_static_table) with 62.
  rewrite (proj2 (Z.ltb_lt 0 i)), (proj2 (Z.ltb_lt i 62)) by lia. done.
Qed.

Lemma decode_field_encoded t pre h rest :
  header_ok h -> len (pre ++ encode_header h ++ rest) < 2 ^ 31 - 11 ->
  decode_field t (pre ++ encode_header h ++ rest) (len pre) =
  Ok (FieldHeader (len (pre ++ encode_header h)) h false).
Proof.
  intros [Hn Hv] Hlen.
  destruct (encode_header_cases h) as [(i & c & tl & Hi & Hs & E & Hc & Hd)|E].
  - unfold decode_field. rewrite E at 1. cbn [app]. rewrite rd_app. cbn [mbind outcome_bind].
    rewrite land_0x80, (proj2 (Z.ltb_ge _ _)) by lia. cbn [negb].
    rewrite at_pos_app. cbn [mbind outcome_bind]. rewrite Hd.
    cbn [mbind outcome_bind]. rewrite (proj2 (Z.eqb_neq i 0)) by lia.
    rewrite (proj2 (Z.eqb_neq (len (encode_header h)) 0)) by (rewrite E; blia). cbn [orb].
    rewrite (get_indexed_static t i h) by done.
    rewrite (u64_pos pre (encode_header h) rest) by (done || lia). done.
  - rewrite E in *. set (en := encode_string h.1) in *. set (ev := encode_string h.2) in *.
    unfold decode_field. cbn [app]. rewrite rd_app. cbn [mbind outcome_bind].
    rewrite land_0x80, land_0x40, land_0x20. cbn [u8 Byte.to_N Z.of_N].
    change (u8 x00) with 0. cbn [Z.ltb Z.compare negb Z.modulo Z.div_eucl snd].
    unfold decode_literal. rewrite at_pos_app. cbn [mbind outcome_bind].
    change (hpack_decode_int (x00 :: ?l) 4) with (Ok (1, 0)). cbn [mbind outcome_bind].
    cbn [Z.eqb Z.ltb Z.compare].
    rewrite (u64_pos pre [x00] (en ++ ev ++ rest)) by (blia || done).
    replace (pre ++ x00 :: (en ++ ev) ++ rest) with ((pre ++ [x00]) ++ en ++ ev ++ rest)
      by (by rewrite <- !app_assoc).
    rewrite at_pos_app. cbn [mbind outcome_bind].
    assert (Hne : 0 < len en) by (apply encode_string_nonempty; unfold en, ev in *; blia).
    assert (Hve : 0 < len ev) by (apply encode_string_nonempty; unfold en, ev in *; blia).
    assert (Hden : decode_string (en ++ ev ++ rest) = Ok (h.1, len en))
      by (apply decode_string_encode; done || unfold en, ev in *; blia).
    assert (Hdev : decode_string (ev ++ rest) = Ok (h.2, len ev))
      by (apply decode_string_encode; done || unfold en, ev in *; blia).
    rewrite Hden. cbn [mbind outcome_bind]. rewrite (proj2 (Z.eqb_neq (len en) 0)) by lia.
    cbn [mbind outcome_bind].
    rewrite (u64_pos (pre ++ [x00]) en (ev ++ rest)) by (blia || done).
    rewrite (app_assoc (pre ++ [x00]) en), at_pos_app. cbn [mbind outcome_bind].
    rewrite Hdev. cbn [mbind outcome_bind]. rewrite (proj2 (Z.eqb_neq (len ev) 0)) by lia.
    rewrite (u64_pos _ ev rest) by (blia || done). rewrite <- !app_assoc. by destruct h.
Qed.

Lemma encode_header_nonempty h :
  len (encode_header h) < 2 ^ 31 - 11 -> 1 <= len (encode_header h).
Proof.
  intros Hl. destruct (encode_header_cases h) as [(i & c & tl & _ & _ & E & _)|E]; rewrite E; blia.
Qed.

Lemma decode_loop_encoded fuel t pre hs res new :
  Forall header_ok hs -> (length hs <= fuel)%nat ->
  len (pre ++ concat (map encode_header hs)) < 2 ^ 31 - 11 ->
  decode_loop fuel t (pre ++ concat (map encode_header hs)) (len pre) res new =
  Ok (t, Some (res ++ hs, new)).
Proof.
  intros Hok. revert fuel pre res. induction Hok as [|h hs Hh _ IH]; intros fuel pre res Hf Hl.
  - cbn [map concat] in *. rewrite !app_nil_r in *.
    destruct fuel; cbn [decode_loop]; rewrite Z.ltb_irrefl; done.
  - cbn [map concat length] in *. destruct fuel as [|fuel]; [lia|]. cbn [decode_loop].
    pose proof (encode_header_nonempty h ltac:(blia)).
    rewrite (proj2 (Z.ltb_lt _ _)) by blia.
    rewrite decode_field_encoded by done. cbn [mbind outcome_bind].
    rewrite app_assoc in *. rewrite IH by (done || lia). by rewrite <- app_assoc.
Qed.

Lemma length_encoded hs :
  len (concat (map encode_header hs)) < 2 ^ 31 - 11 ->
  (length hs <= length (concat (map encode_header hs)))%nat.
Proof.
  induction hs as [|h hs IH]; cbn [map concat length]; [done|]. intros Hl.
  pose proof (encode_header_nonempty h ltac:(blia)). rewrite len_app in *.
  specialize (IH ltac:(blia)). rewrite length_app. unfold len in *. lia.
Qed.

(** What the size update at the front of a block does to the decoder. *)
Definition after_update (e : hpack_encoder) (d : hpack_decoder) : hpack_decoder :=
  if table_size_updated e then
    {| dec_dynamic_table := resize (dec_dynamic_table d) (enc_max_table_size e);
       dec_max_table_size := dec_max_table_size d |}
  else d.

Lemma decode_encode e d hs :
  Forall header_ok hs -> 0 <= enc_max_table_size e < 2 ^ 64 ->
  len (encode e hs).1 < 2 ^ 31 - 11 ->
  decode d (encode e hs).1 = Ok (hs, after_update e d).
Proof.
  intros Hok He Hl. unfold encode, after_update in *. cbn [fst] in *. unfold decode.
  destruct (table_size_updated e).
  - destruct (encode_int_spec (enc_max_table_size e) 5 0x20) as (c & tl & E & Hc & _ & Hd);
      [lia..|done|].
    fold (hpack_encode_int 16 (enc_max_table_size e) 5 0x20) in *.
    set (p := hpack_encode_int _ _ _ _) in *. change (2 ^ 5 - 1) with 31 in Hc.
    rewrite length_app.
    pose proof (length_encoded hs ltac:(blia)) as Hn.
    assert (1 <= length p)%nat by (rewrite E; cbn; lia).
    destruct (length p + length (concat (map encode_header hs)))%nat as [|fuel] eqn:Ef; [lia|].
    cbn [decode_loop]. rewrite (proj2 (Z.ltb_lt _ _)) by (rewrite E; blia).
    assert (Hfield : decode_field (dec_dynamic_table d) (p ++ concat (map encode_header hs)) 0 =
                     Ok (FieldResize (len p) (enc_max_table_size e))).
    { unfold decode_field. rewrite E at 1. cbn [app].
      change (rd (c :: ?l) 0) with (Ok c). cbn [mbind outcome_bind].
      rewrite land_0x80, land_0x40, land_0x20, !Hc.
      rewrite (proj2 (Z.ltb_lt _ 128)), (proj2 (Z.ltb_lt _ 64)), (proj2 (Z.ltb_ge _ 32)) by lia.
      cbn [negb]. rewrite at_pos_0. cbn [mbind outcome_bind].
      unfold hpack_decode_int. rewrite Hd. cbn [mbind outcome_bind].
      rewrite (proj2 (Z.eqb_neq (len p) 0)) by (rewrite E; blia).
      unfold u64. rewrite Z.add_0_l, Z.mod_small by blia. done. }
    rewrite Hfield. cbn [mbind outcome_bind]. rewrite decode_loop_encoded by (done || lia || blia).
    done.
  - cbn [app] in *. pose proof (length_encoded hs Hl) as Hn.
    rewrite (decode_loop_encoded _ _ [] hs) by done. cbn. by destruct d.
Qed.

(** ** Lemmas: progress on arbitrary input *)

Lemma rd_n_ok data n s : rd_n data n = Ok s -> n <= len data /\ s = takeZ n data.
Proof. unfold rd_n. destruct (Z.leb_spec n (len data)); [|done]. intros E. by injection E. Qed.

Lemma int_add_ok a b n : int_add a b = Ok n -> n = a + b.
Proof. unfold int_add. destruct (_ && _); [|done]. intros E. by injection E. Qed.

Lemma at_pos_ok data pos r : at_pos data pos = Ok r -> pos <= len data /\ r = dropZ pos data.
Proof. unfold at_pos. destruct (Z.leb_spec pos (len data)); [|done]. intros E. by injection E. Qed.

Lemma decode_string_bounds data s c :
  decode_string data = Ok (s, c) -> len data < 2 ^ 31 -> 0 <= c <= len data.
Proof.
  destruct data as [|b data]; cbn [decode_string]; [intros [= <- <-]; blia|].
  intros H Hl. apply bind_ok in H as ([n v] & Hd & H).
  apply decode_int_bounds in Hd as [Hv Hn]; [|lia].
  destruct (Z.eqb_spec n 0) as [->|Hn0]; cbn [orb] in H; [injection H as <- <-; blia|].
  destruct (_ <? _) in H; [injection H as <- <-; blia|].
  apply bind_ok in H as (raw & Hraw & H). apply bind_ok in H as (k & Hk & H).
  injection H as <- <-. apply int_add_ok in Hk as ->.
  assert (v <= len (dropZ n (b :: data))) as Hle.
  { destruct (negb _) in Hraw.
    - apply bind_ok in Hraw as (r & Hr & _). by apply rd_n_ok in Hr as [? _].
    - unfold assign in Hraw. destruct (_ <? _) in Hraw; [done|].
      by apply rd_n_ok in Hraw as [? _]. }
  rewrite len_dropZ in Hle. unfold i32. rewrite Z.mod_small by lia. lia.
Qed.

Definition field_pos (f : field) (pos : Z) (data : bytes) : Prop :=
  match f with
  | FieldError => True
  | FieldHeader p _ _ | FieldResize p _ => pos < p <= len data
  end.

Lemma decode_int_pos data pos p n v :
  1 <= p <= 8 -> 0 <= pos <= len data -> len data < 2 ^ 31 ->
  hpack_decode_int (dropZ pos data) p = Ok (n, v) -> n <> 0 ->
  u64 (pos + n) = pos + n /\ pos < pos + n <= len data.
Proof.
  intros Hp Hpos Hl Hd Hn. apply decode_int_bounds in Hd as [_ Hn']; [|done].
  rewrite len_dropZ in Hn'. unfold u64. rewrite Z.mod_small by lia. lia.
Qed.

Lemma decode_string_pos data pos s c :
  0 <= pos <= len data -> len data < 2 ^ 31 ->
  decode_string (dropZ pos data) = Ok (s, c) ->
  u64 (pos + c) = pos + c /\ pos <= pos + c <= len data.
Proof.
  intros Hpos Hl Hd. apply decode_string_bounds in Hd; rewrite len_dropZ in *; [|lia].
  unfold u64. rewrite Z.mod_small by lia. lia.
Qed.

Lemma decode_literal_pos t data pos prefix add_it f :
  1 <= prefix <= 8 -> 0 <= pos <= len data -> len data < 2 ^ 31 ->
  decode_literal t data pos prefix add_it = Ok f -> field_pos f pos data.
Proof.
  intros Hp Hpos Hl H. unfold decode_literal in H.
  apply bind_ok in H as (here & Hat & H). apply at_pos_ok in Hat as [_ ->].
  apply bind_ok in H as ([n idx] & Hd & H).
  destruct (Z.eqb_spec n 0) as [->|Hn0]; [by injection H as <-|].
  apply (decode_int_pos data pos prefix) in Hd as [E Hn]; [|done..]. rewrite E in H.
  apply bind_ok in H as (nm & Hnm & H). destruct nm as [[name p]|]; [|by injection H as <-].
  assert (Hbound : pos < p <= len data).
  { destruct (0 <? idx).
    - injection Hnm as Hnm. destruct (get_indexed t idx) as [[? ?]|]; [|done].
      by injection Hnm as <- <-.
    - apply bind_ok in Hnm as (r & Hat & Hnm). apply at_pos_ok in Hat as [_ ->].
      apply bind_ok in Hnm as ([s c] & Hs & Hnm).
      apply decode_string_pos in Hs as [Es Hs]; [|lia..].
      destruct (c =? 0); [done|]. injection Hnm as <- <-. lia. }
  apply bind_ok in H as (r & Hat & H). apply at_pos_ok in Hat as [_ ->].
  apply bind_ok in H as ([s c] & Hs & H). apply decode_string_pos in Hs as [Es Hs]; [|lia..].
  destruct (c =? 0); injection H as <-; [done|]. cbn. lia.
Qed.

Lemma decode_field_pos t data pos f :
  0 <= pos <= len data -> len data < 2 ^ 31 ->
  decode_field t data pos = Ok f -> field_pos f pos data.
Proof.
  intros Hpos Hl H. unfold decode_field in H. apply bind_ok in H as (b & _ & H).
  destruct (negb _).
  { apply bind_ok in H as (here & Hat & H). apply at_pos_ok in Hat as [_ ->].
    apply bind_ok in H as ([n idx] & Hd & H).
    destruct (Z.eqb_spec n 0) as [->|Hn0]; [by injection H as <-|].
    apply (decode_int_pos data pos 7) in Hd as [E Hn]; [|lia..]. rewrite E in H. cbn [orb] in H.
    destruct (idx =? 0); [by injection H as <-|].
    destruct (get_indexed t idx); by injection H as <-. }
  destruct (negb _); [by apply decode_literal_pos in H|].
  destruct (negb _); [|by apply decode_literal_pos in H].
  apply bind_ok in H as (here & Hat & H). apply at_pos_ok in Hat as [_ ->].
  apply bind_ok in H as ([n idx] & Hd & H).
  destruct (Z.eqb_spec n 0) as [->|Hn0]; [by injection H as <-|].
  apply (decode_int_pos data pos 5) in Hd as [E Hn]; [|lia..]. rewrite E in H.
  by injection H as <-.
Qed.

(** ** Lemmas: termination *)

Lemma terminates_decode_int data p : terminates (hpack_decode_int data p).
Proof. destruct (decode_int_total data p) as [(n & v & E)|E]; unfold hpack_decode_int; by rewrite E. Qed.

Lemma terminates_at_pos data pos : terminates (at_pos data pos).
Proof. unfold at_pos. by destruct (pos <=? len data). Qed.

Lemma terminates_int_add a b : terminates (int_add a b).
Proof. unfold int_add. by destruct (_ && _). Qed.

#[local] Hint Resolve terminates_decode_int terminates_at_pos terminates_int_add : net.

Lemma terminates_decode_string data : terminates (decode_string data).
Proof. unfold decode_string, assign. terminates. Qed.

#[local] Hint Resolve terminates_decode_string : net.

Lemma terminates_decode_literal t data pos p a : terminates (decode_literal t data pos p a).
Proof. unfold decode_literal. terminates. Qed.

#[local] Hint Resolve terminates_decode_literal : net.

Lemma terminates_decode_field t data pos : terminates (decode_field t data pos).
Proof. unfold decode_field. terminates. Qed.

Lemma terminates_decode_loop fuel t data pos res new :
  len data < 2 ^ 31 -> 0 <= pos <= len data -> len data - pos <= Z.of_nat fuel ->
  terminates (decode_loop fuel t data pos res new).
Proof.
  intros Hl. revert t pos res new. induction fuel as [|fuel IH]; intros t pos res new Hpos Hf;
    cbn [decode_loop]; destruct (Z.ltb_spec pos (len data)); try done; [lia|].
  pose proof (terminates_decode_field t data pos) as Ht.
  destruct (decode_field t data pos) as [f| | |] eqn:E; cbn; try done.
  apply decode_field_pos in E; [|lia..]. destruct f; cbn in E; [done|apply IH; lia..].
Qed.

Lemma terminates_decode d data : len data < 2 ^ 31 -> terminates (decode d data).
Proof.
  intros Hl. unfold decode. apply terminates_bind.
  - apply terminates_decode_loop; unfold len in *; lia.
  - intros [t [[res new]|]]; done.
Qed.

(** ** HPACK is a header codec *)

Lemma hpack_codec_roundtrip e d hs :
  0 <= enc_max_table_size e < 2 ^ 64 -> Forall header_ok hs -> len (encode e hs).1 < 2 ^ 30 ->
  exists d', decode d (encode e hs).1 = Ok (hs, d').
Proof. intros. exists (after_update e d). apply decode_encode; done || lia. Qed.

Lemma hpack_resize_ok e n :
  0 <= n < 2 ^ 32 -> 0 <= enc_max_table_size (enc_set_max_table_size e n) < 2 ^ 64.
Proof. cbn. lia. Qed.

#[export] Instance hpack_codec : HeaderCodec hpack_encoder hpack_decoder := {|
  hc_encode := encode;
  hc_decode := decode;
  hc_enc_ok e := 0 <= enc_max_table_size e < 2 ^ 64;
  hc_ok := Forall header_ok;
  hc_enc_ok_step e hs H := H;
  hc_resize := enc_set_max_table_size;
  hc_enc_ok_resize e n Hn _ := hpack_resize_ok e n Hn;
  hc_roundtrip := hpack_codec_roundtrip
|}.

(** ** Properties *)

(** C35: decoding what the encoder wrote gives the header list back, in order,
    whatever the two tables contain; a pending table size update reaches the
    decoder's table and nothing else of it changes.  The strings are those of
    [header_ok]: a string that the encoder writes in Huffman code has none of the
    sixteen bytes that the code's table does not give back. *)
Theorem hpack_roundtrip (e : hpack_encoder) (d : hpack_decoder) (hs : list header) :
  Forall header_ok hs -> 0 <= enc_max_table_size e < 2 ^ 64 ->
  len (encode e hs).1 < 2 ^ 31 - 11 ->
  decode d (encode e hs).1 = Ok (hs, after_update e d) /\
  table_size_updated (encode e hs).2 = false.
Proof. intros. split; [by apply decode_encode|done]. Qed.

Definition example_headers : list header :=
  [(str ":method", str "GET"); (str ":path", str "/index.html?q={1}");
   (str ":authority", str "www.example.com"); (str "x-empty", [])].

Lemma hpack_roundtrip_witness :
  decode (new_hpack_decoder 4096)
    (encode (enc_set_max_table_size (new_hpack_encoder 4096) 100) example_headers).1 =
  Ok (example_headers, after_update (enc_set_max_table_size (new_hpack_encoder 4096) 100)
                         (new_hpack_decoder 4096)).
Proof.
  apply hpack_roundtrip.
  - apply (bool_decide_unpack _). vm_compute. exact I.
  - ground.
  - ground.
Defined.

(** The dynamic table refines its specification.  After [add], the table
    holds the newest entries, the added one first, that fit in [max_size_]
    (none when the new entry alone does not fit); after [resize], those that
    fit in the new limit; and the recorded size stays that of the entries and
    within the limit. *)
Theorem dynamic_table_refines_fit (t : hpack_dynamic_table) (name value : bytes) (n : Z) :
  table_ok t -> entry_size (name, value) < 2 ^ 62 -> max_size t < 2 ^ 62 -> 0 <= n ->
  entries (add t name value) = fit (max_size t) ((name, value) :: entries t) /\
  table_ok (add t name value) /\
  entries (resize t n) = fit n (entries t) /\ max_size (resize t n) = n /\
  table_ok (resize t n).
Proof.
  intros Hok He Hm Hn. split_and!.
  - by apply add_fit.
  - by apply add_ok.
  - by apply resize_fit.
  - by apply resize_fit.
  - by apply resize_ok.
Qed.

Definition example_table : hpack_dynamic_table :=
  add (add (new_dynamic_table 100) (str "a") (str "1")) (str "b") (str "22").

Lemma dynamic_table_refines_fit_witness :
  entries (add example_table (str "c") (str "333")) =
    [(str "c", str "333"); (str "b", str "22")] /\
  table_ok (add example_table (str "c") (str "333")).
Proof.
  destruct (dynamic_table_refines_fit example_table (str "c") (str "333") 40) as (-> & H & _);
    [ground..|]. split; [vm_compute; reflexivity|exact H].
Defined.

(** A search of the static table returns the first entry with this name and
    this value; without one, the first entry with this name, or 0. *)
Theorem hpack_find_static_spec (name value : bytes) :
  static_search hpack_static_table name value
    (hpack_find_static name value).1 (hpack_find_static name value).2.
Proof.
  apply find_static_from_spec. rewrite <- hpack_find_static_eq. apply surjective_pairing.
Qed.

(** The decoder ends on every header block below 2 GiB: each representation
    consumes at least one byte, so the fuel of [decode] is never used up. *)
Theorem hpack_decode_terminates (d : hpack_decoder) (data : bytes) :
  len data < 2 ^ 31 -> decode d data <> Timeout.
Proof. apply terminates_decode. Qed.

Lemma hpack_decode_terminates_witness :
  decode (new_hpack_decoder 4096) [x3f; xe1; x1f; x40; x01] <> Timeout.
Proof. apply hpack_decode_terminates. ground. Defined.

(** Indices into the dynamic table are one too high: index 62, the newest
    entry in RFC 7541, is never found, a block that refers to it decodes to the
    empty list, and index [62 + k] gives the entry that is [k]-th newest. *)
Theorem dynamic_index_off_by_one (d : hpack_decoder) :
  let t := dec_dynamic_table d in
  get_indexed t 62 = None /\ decode d [xbe] = Ok ([], d) /\
  (forall k, 1 <= k <= len (entries t) -> k < 2 ^ 63 ->
     get_indexed t (62 + k) = entries t !! Z.to_nat (k - 1)).
Proof.
  cbn zeta. split; [done|]. split; [by destruct d|].
  intros k Hk Hlt. unfold get_indexed. change (len hpack_static_table) with 62.
  rewrite (proj2 (Z.ltb_ge (62 + k) 62)), andb_false_r by lia.
  unfold get, u64. replace (62 + k - 62) with k by lia. rewrite Z.mod_small by lia.
  zdec. done.
Qed.

(** A string length close to [2^64] defeats the bounds check of
    [decode_string], because [consumed + str_len] wraps: the Huffman decoder
    then reads past the end of the block, and a raw string throws. *)
Theorem decode_string_overread (rest : bytes) :
  len rest < 2 ^ 62 ->
  decode_string (hpack_encode_int 16 (2 ^ 64 - 11) 7 0x80 ++ rest) = Undefined OutOfBounds /\
  decode_string (hpack_encode_int 16 (2 ^ 64 - 11) 7 0x00 ++ rest) = Throws LengthError.
Proof.
  intros Hl.
  assert (H : forall mask, mask = 0x80 \/ mask = 0x00 ->
    exists c tl, hpack_encode_int 16 (2 ^ 64 - 11) 7 mask = c :: tl /\
      (128 <=? u8 c) = (mask =? 0x80) /\ len (c :: tl) = 11 /\
      hpack_decode_int ((c :: tl) ++ rest) 7 = Ok (11, 2 ^ 64 - 11)).
  { intros mask Hm. destruct (encode_int_spec (2 ^ 64 - 11) 7 mask) as (c & tl & E & _ & _ & Hd);
      [lia..|by destruct Hm; subst|].
    exists c, tl. unfold hpack_encode_int, hpack_decode_int. rewrite <- E, Hd.
    destruct Hm; subst; vm_compute in E; injection E as <- <-; done. }
  split.
  - destruct (H 0x80) as (c & tl & -> & Hc & Hn & Hd); [by left|].
    cbn [app decode_string] in *. rewrite land_0x80, Hd.
    rewrite Z.leb_antisym in Hc. apply negb_true_iff in Hc. rewrite Hc. cbn [negb mbind outcome_bind].
    rewrite (proj2 (Z.ltb_ge _ _)) by (vm_compute (u64 _); blia).
    cbn [orb Z.eqb]. unfold rd_n. rewrite (proj2 (Z.leb_gt _ _)); [done|].
    rewrite len_dropZ. blia.
  - destruct (H 0x00) as (c & tl & -> & Hc & Hn & Hd); [by right|].
    cbn [app decode_string] in *. rewrite land_0x80, Hd.
    rewrite Z.leb_antisym in Hc. apply negb_false_iff in Hc. rewrite Hc. cbn [negb mbind outcome_bind].
    rewrite (proj2 (Z.ltb_ge _ _)) by (vm_compute (u64 _); blia). done.
Qed.

Lemma decode_string_overread_witness :
  decode_string (hpack_encode_int 16 (2 ^ 64 - 11) 7 0x80 ++ str "x") = Undefined OutOfBounds.
Proof. apply (decode_string_overread (str "x")). ground. Defined.
