(* ===== verification/H3Frame.v ===== *)
(** * HTTP/3 frame layer (src/src/http/h3_frame.hpp)

    QUIC variable-length integers, the frame builders and parsers, and the
    incremental [frame_reader] with its four states.  Enumerations are their
    underlying [uint64_t].  [varint_buf] holds the filled prefix of the 8-byte
    array; [take_frame] leaves the payload buffer empty (the code moves it out
    and clears it before its next use).  Memory allocation does not fail in
    the model, so [reserve] is not represented. *)
From S2P Require Import Prelude Framing.
From stdpp Require Import options.

(** ** Variable-length integers *)

(** The bytes written, none when the function returns 0. *)
Definition encode_varint (bufsize value : Z) : bytes :=
  if value <? 64 then
    if bufsize <? 1 then [] else [b8 value]
  else if value <? 16384 then
    if bufsize <? 2 then [] else
    [b8 (Z.lor (Z.shiftr value 8) 0x40); b8 (Z.land value 0xFF)]
  else if value <? 1073741824 then
    if bufsize <? 4 then [] else
    [b8 (Z.lor (Z.shiftr value 24) 0x80); b8 (Z.land (Z.shiftr value 16) 0xFF);
     b8 (Z.land (Z.shiftr value 8) 0xFF); b8 (Z.land value 0xFF)]
  else if value <? 4611686018427387904 then
    if bufsize <? 8 then [] else
    [b8 (Z.lor (Z.shiftr value 56) 0xC0); b8 (Z.land (Z.shiftr value 48) 0xFF);
     b8 (Z.land (Z.shiftr value 40) 0xFF); b8 (Z.land (Z.shiftr value 32) 0xFF);
     b8 (Z.land (Z.shiftr value 24) 0xFF); b8 (Z.land (Z.shiftr value 16) 0xFF);
     b8 (Z.land (Z.shiftr value 8) 0xFF); b8 (Z.land value 0xFF)]
  else [].

(** The bytes consumed and the value; [None] is the return value 0. *)
Definition decode_varint (buf : bytes) : option (Z * Z) :=
  if len buf =? 0 then None else
  let prefix := Z.shiftr (u8 (byte_at buf 0)) 6 in
  let first := Z.land (u8 (byte_at buf 0)) 0x3F in
  let b i := u8 (byte_at buf i) in
  if prefix =? 0 then Some (1, first)
  else if prefix =? 1 then
    if len buf <? 2 then None else Some (2, Z.lor (Z.shiftl first 8) (b 1))
  else if prefix =? 2 then
    if len buf <? 4 then None else
    Some (4, Z.lor (Z.lor (Z.lor (Z.shiftl first 24) (Z.shiftl (b 1) 16))
                          (Z.shiftl (b 2) 8)) (b 3))
  else if prefix =? 3 then
    if len buf <? 8 then None else
    Some (8, Z.lor (Z.lor (Z.lor (Z.lor (Z.lor (Z.lor (Z.lor
      (Z.shiftl first 56) (Z.shiftl (b 1) 48)) (Z.shiftl (b 2) 40))
      (Z.shiftl (b 3) 32)) (Z.shiftl (b 4) 24)) (Z.shiftl (b 5) 16))
      (Z.shiftl (b 6) 8)) (b 7))
  else None.

Definition append_varint (out : bytes) (value : Z) : bytes := out ++ encode_varint 8 value.

(** ** [enum class frame_type : uint64_t] *)
Module frame_type.
Definition DATA : Z := 0x00.
Definition HEADERS : Z := 0x01.
Definition CANCEL_PUSH : Z := 0x03.
Definition SETTINGS : Z := 0x04.
Definition PUSH_PROMISE : Z := 0x05.
Definition GOAWAY : Z := 0x07.
Definition MAX_PUSH_ID : Z := 0x0D.
End frame_type.

Module setting_id.
Definition MAX_FIELD_SECTION_SIZE : Z := 0x06.
End setting_id.

Module stream_type.
Definition CONTROL : Z := 0x00.
Definition PUSH : Z := 0x01.
Definition QPACK_ENCODER : Z := 0x02.
Definition QPACK_DECODER : Z := 0x03.
End stream_type.

Record setting_entry := { se_id : Z; se_value : Z }.
Record frame := { type : Z; payload : bytes }.

(** ** Builders *)
Definition build_frame (type : Z) (payload : bytes) : bytes :=
  append_varint (append_varint [] type) (len payload) ++ payload.

Definition build_data_frame (data : bytes) : bytes := build_frame frame_type.DATA data.

Definition build_headers_frame (qpack_data : bytes) : bytes :=
  build_frame frame_type.HEADERS qpack_data.

Definition build_settings_frame (settings : list setting_entry) : bytes :=
  build_frame frame_type.SETTINGS
    (foldl (fun p s => append_varint (append_varint p (se_id s)) (se_value s)) [] settings).

Definition build_goaway_frame (stream_id : Z) : bytes :=
  build_frame frame_type.GOAWAY (append_varint [] stream_id).

Definition build_cancel_push_frame (push_id : Z) : bytes :=
  build_frame frame_type.CANCEL_PUSH (append_varint [] push_id).

Definition build_push_promise_frame (push_id : Z) (qpack_headers : bytes) : bytes :=
  build_frame frame_type.PUSH_PROMISE (append_varint [] push_id ++ qpack_headers).

Definition build_max_push_id_frame (push_id : Z) : bytes :=
  build_frame frame_type.MAX_PUSH_ID (append_varint [] push_id).

(** ** Parsers *)
Record push_promise_data := { pp_push_id : Z; pp_header_block : bytes }.

Definition parse_push_promise (data : bytes) : push_promise_data :=
  match decode_varint data with
  | None => {| pp_push_id := 0; pp_header_block := [] |}
  | Some (n, pid) =>
      {| pp_push_id := pid;
         pp_header_block := if n <? len data then dropZ n data else [] |}
  end.

(** Each iteration consumes at least two bytes. *)
Fixpoint parse_settings_loop (fuel : nat) (data : bytes) (pos : Z) : list setting_entry :=
  match fuel with
  | O => []
  | S fuel =>
      if pos <? len data then
        match decode_varint (dropZ pos data) with
        | None => []
        | Some (n, id) =>
            let pos := pos + n in
            match decode_varint (dropZ pos data) with
            | None => []
            | Some (n, value) =>
                {| se_id := id; se_value := value |}
                  :: parse_settings_loop fuel data (pos + n)
            end
        end
      else []
  end.

Definition parse_settings (data : bytes) : list setting_entry :=
  parse_settings_loop (length data) data 0.

(** [true] and the stream id, or [false]. *)
Definition parse_goaway (data : bytes) : option Z := snd <$> decode_varint data.

(** ** [class frame_reader] *)
Inductive state := READ_TYPE | READ_LENGTH | READ_PAYLOAD | COMPLETE.

Record frame_reader := {
  state_ : state;
  current_type : Z;
  type_val : Z;
  length_val : Z;
  current_length : Z;
  payload_buf : bytes;
  varint_complete : bool;
  varint_buf : bytes;
  varint_bytes_expected : Z
}.

Definition frame_reader_init : frame_reader :=
  {| state_ := READ_TYPE; current_type := frame_type.DATA; type_val := 0; length_val := 0;
     current_length := 0; payload_buf := []; varint_complete := false; varint_buf := [];
     varint_bytes_expected := 0 |}.

Definition is_complete (s : state) : bool := match s with COMPLETE => true | _ => false end.

(** The fields [feed_varint] works on. *)
Record varint_state := { vs_complete : bool; vs_buf : bytes; vs_expected : Z }.

(** The varint state after the call, the accumulator, and the bytes taken. *)
Definition feed_varint (v : varint_state) (data : bytes) (accum : Z)
  : varint_state * Z * Z :=
  if len data =? 0 then (v, accum, 0) else
  let v :=
    if vs_expected v =? 0 then
      let prefix := Z.shiftr (u8 (byte_at data 0)) 6 in
      {| vs_complete := vs_complete v; vs_buf := [];
         vs_expected := if prefix =? 0 then 1 else if prefix =? 1 then 2
                        else if prefix =? 2 then 4 else 8 |}
    else v in
  let needed := vs_expected v - len (vs_buf v) in
  let to_copy := Z.min needed (len data) in
  let buf := vs_buf v ++ takeZ to_copy data in
  if len buf =? vs_expected v then
    match decode_varint buf with
    | Some (_, val) =>
        ({| vs_complete := true; vs_buf := []; vs_expected := 0 |}, val, to_copy)
    | None =>
        ({| vs_complete := vs_complete v; vs_buf := buf; vs_expected := vs_expected v |},
         accum, to_copy)
    end
  else
    ({| vs_complete := vs_complete v; vs_buf := buf; vs_expected := vs_expected v |},
     accum, to_copy).

Definition varint_of (r : frame_reader) : varint_state :=
  {| vs_complete := varint_complete r; vs_buf := varint_buf r;
     vs_expected := varint_bytes_expected r |}.

(** One pass through the [switch] of [feed] on the bytes not yet consumed:
    the reader, the bytes taken, and whether the function returns. *)
Definition feed_step (r : frame_reader) (data : bytes) : frame_reader * Z * bool :=
  match state_ r with
  | READ_TYPE =>
      let '(v, acc, n) := feed_varint (varint_of r) data (type_val r) in
      let done := vs_complete v in
      ({| state_ := if (n =? 0) || negb done then READ_TYPE else READ_LENGTH;
          current_type := if (n =? 0) || negb done then current_type r else acc;
          type_val := if (n =? 0) || negb done then acc else 0;
          length_val := length_val r; current_length := current_length r;
          payload_buf := payload_buf r;
          varint_complete := if n =? 0 then done else false;
          varint_buf := vs_buf v; varint_bytes_expected := vs_expected v |}, n, n =? 0)
  | READ_LENGTH =>
      let '(v, acc, n) := feed_varint (varint_of r) data (length_val r) in
      let done := vs_complete v in
      ({| state_ := if (n =? 0) || negb done then READ_LENGTH else READ_PAYLOAD;
          current_type := current_type r; type_val := type_val r;
          length_val := if (n =? 0) || negb done then acc else 0;
          current_length := if (n =? 0) || negb done then current_length r else acc;
          payload_buf := if (n =? 0) || negb done then payload_buf r else [];
          varint_complete := if n =? 0 then done else false;
          varint_buf := vs_buf v; varint_bytes_expected := vs_expected v |}, n, n =? 0)
  | READ_PAYLOAD =>
      let remaining := current_length r - len (payload_buf r) in
      let to_copy := Z.min remaining (len data) in
      let payload := payload_buf r ++ takeZ to_copy data in
      ({| state_ := if len payload =? current_length r then COMPLETE else READ_PAYLOAD;
          current_type := current_type r; type_val := type_val r;
          length_val := length_val r; current_length := current_length r;
          payload_buf := payload; varint_complete := varint_complete r;
          varint_buf := varint_buf r; varint_bytes_expected := varint_bytes_expected r |},
       to_copy, false)
  | COMPLETE => (r, 0, true)
  end.

(** [while (consumed < len)].  Every pass consumes a byte except the one that
    completes an empty payload, after which the next pass returns: two more
    units of fuel than bytes are enough. *)
Fixpoint feed_loop (fuel : nat) (r : frame_reader) (data : bytes) (consumed : Z)
  : frame_reader * Z :=
  match fuel with
  | O => (r, consumed)
  | S fuel =>
      if consumed <? len data then
        let '(r, n, ret) := feed_step r (dropZ consumed data) in
        if ret : bool then (r, consumed) else feed_loop fuel r data (consumed + n)
      else (r, consumed)
  end.

Definition feed (r : frame_reader) (data : bytes) : frame_reader * Z :=
  feed_loop (2 + length data) r data 0.

Definition has_frame (r : frame_reader) : bool := is_complete (state_ r).

Definition take_frame (r : frame_reader) : frame * frame_reader :=
  ({| type := current_type r; payload := payload_buf r |},
   {| state_ := READ_TYPE; current_type := current_type r; type_val := 0; length_val := 0;
      current_length := current_length r; payload_buf := []; varint_complete := false;
      varint_buf := varint_buf r; varint_bytes_expected := varint_bytes_expected r |}).

Definition reset (r : frame_reader) : frame_reader :=
  {| state_ := READ_TYPE; current_type := current_type r; type_val := 0; length_val := 0;
     current_length := current_length r; payload_buf := []; varint_complete := false;
     varint_buf := varint_buf r; varint_bytes_expected := varint_bytes_expected r |}.

(** The loop with which a session drains a stream's reader
    (src/src/http/http3_session.cpp, [cb_recv_stream_data]): feed, then take
    each frame and feed the rest.  One unit of fuel per frame. *)
Section Drive.
Context {S : Type} (process : S -> frame -> S).

Fixpoint drive_loop (fuel : nat) (r : frame_reader) (s : S) (data : bytes) (fed : Z)
  : frame_reader * S :=
  match fuel with
  | O => (r, s)
  | Datatypes.S fuel =>
      if has_frame r then
        let '(f, r) := take_frame r in
        let s := process s f in
        let '(r, n) := feed r (dropZ fed data) in
        drive_loop fuel r s data (fed + n)
      else (r, s)
  end.

Definition drive (r : frame_reader) (s : S) (data : bytes) : frame_reader * S :=
  let '(r, fed) := feed r data in drive_loop (2 + length data) r s data fed.

Fixpoint drive_list (r : frame_reader) (s : S) (chunks : list bytes) : frame_reader * S :=
  match chunks with
  | [] => (r, s)
  | d :: ds => let '(r, s) := drive r s d in drive_list r s ds
  end.
End Drive.

(** ** Reference: one frame off the front of a byte string *)
Definition parse_frame1 (b : bytes) : option (frame * Z) :=
  match decode_varint b with
  | None => None
  | Some (n, t) =>
      match decode_varint (dropZ n b) with
      | None => None
      | Some (m, l) =>
          if len b <? n + m + l then None
          else Some ({| type := t; payload := takeZ l (dropZ (n + m) b) |}, n + m + l)
      end
  end.

Definition VARINT_MAX : Z := 2 ^ 62.

Definition frame_ok (f : frame) : Prop :=
  0 <= type f < VARINT_MAX /\ len (payload f) < VARINT_MAX.

Definition frame_wire (f : frame) : bytes := build_frame (type f) (payload f).

(** A frame with an empty payload is complete only once a later byte has
    arrived: the reader moves from READ_PAYLOAD to COMPLETE inside its loop over
    the input, which ends with the length varint. *)
Definition parse_seen (b : bytes) : option (frame * Z) :=
  match parse_frame1 b with
  | Some (f, n) => if (n =? len b) && (len (payload f) =? 0) then None else Some (f, n)
  | None => None
  end.

(** ** Lemmas: variable-length integers *)

(** The number of bytes the first one announces. *)
Definition varint_size (b : byte) : Z :=
  let prefix := Z.shiftr (u8 b) 6 in
  if prefix =? 0 then 1 else if prefix =? 1 then 2 else if prefix =? 2 then 4 else 8.

Lemma shiftr_6 b : Z.shiftr (u8 b) 6 = u8 b / 64.
Proof. apply Z.shiftr_div_pow2. lia. Qed.

Lemma land_0x3F z : Z.land z 0x3F = z mod 64.
Proof. apply (Z.land_ones z 6). lia. Qed.

Lemma varint_size_cases b :
  varint_size b = 1 \/ varint_size b = 2 \/ varint_size b = 4 \/ varint_size b = 8.
Proof. unfold varint_size. zcases; auto. Qed.

Lemma lor8_val a b1 b2 b3 b4 b5 b6 b7 :
  Z.lor (Z.lor (Z.lor (Z.lor (Z.lor (Z.lor (Z.lor
    (Z.shiftl a 56) (Z.shiftl (u8 b1) 48)) (Z.shiftl (u8 b2) 40))
    (Z.shiftl (u8 b3) 32)) (Z.shiftl (u8 b4) 24)) (Z.shiftl (u8 b5) 16))
    (Z.shiftl (u8 b6) 8)) (u8 b7) =
  a * 2 ^ 56 + u8 b1 * 2 ^ 48 + u8 b2 * 2 ^ 40 + u8 b3 * 2 ^ 32 + u8 b4 * 2 ^ 24 +
  u8 b5 * 2 ^ 16 + u8 b6 * 2 ^ 8 + u8 b7.
Proof.
  rewrite <- !Z.lor_assoc. bounds.
  rewrite (lor_shiftl_add (u8 b6)) by lia. rewrite (lor_shiftl_add (u8 b5)) by lia.
  rewrite (lor_shiftl_add (u8 b4)) by lia. rewrite (lor_shiftl_add (u8 b3)) by lia.
  rewrite (lor_shiftl_add (u8 b2)) by lia. rewrite (lor_shiftl_add (u8 b1)) by lia.
  rewrite lor_shiftl_add by lia. lia.
Qed.

Lemma lor4_val a b1 b2 b3 :
  Z.lor (Z.lor (Z.lor (Z.shiftl a 24) (Z.shiftl (u8 b1) 16)) (Z.shiftl (u8 b2) 8)) (u8 b3) =
  a * 2 ^ 24 + u8 b1 * 2 ^ 16 + u8 b2 * 2 ^ 8 + u8 b3.
Proof.
  rewrite <- !Z.lor_assoc. bounds. rewrite (lor_shiftl_add (u8 b2)) by lia.
  rewrite (lor_shiftl_add (u8 b1)) by lia. rewrite lor_shiftl_add by lia. lia.
Qed.

(** [decode_varint] in closed form. *)
Lemma decode_varint_cases buf :
  match decode_varint buf with
  | None => len buf = 0 \/ len buf < varint_size (byte_at buf 0)
  | Some (n, v) =>
      n = varint_size (byte_at buf 0) /\ 0 < n <= len buf /\ 0 <= v < 2 ^ (8 * n - 2)
  end.
Proof.
  unfold decode_varint, varint_size. bounds.
  rewrite land_0x3F, shiftr_6, lor4_val, lor8_val.
  destruct (Z.eqb_spec (len buf) 0); [by left|].
  pose proof (u8_range (byte_at buf 0)).
  destruct (Z.eqb_spec (u8 (byte_at buf 0) / 64) 0); [lia|].
  destruct (Z.eqb_spec (u8 (byte_at buf 0) / 64) 1).
  { destruct (Z.ltb_spec (len buf) 2); [lia|]. rewrite lor_shiftl_add by (bounds; lia).
    bounds. lia. }
  destruct (Z.eqb_spec (u8 (byte_at buf 0) / 64) 2).
  { destruct (Z.ltb_spec (len buf) 4); [lia|]. bounds. lia. }
  destruct (Z.eqb_spec (u8 (byte_at buf 0) / 64) 3); [|lia].
  destruct (Z.ltb_spec (len buf) 8); [lia|]. bounds. lia.
Qed.

Lemma decode_varint_bounds buf n v :
  decode_varint buf = Some (n, v) ->
  n = varint_size (byte_at buf 0) /\ 0 < n <= len buf /\ 0 <= v < VARINT_MAX.
Proof.
  intros E. pose proof (decode_varint_cases buf) as H. rewrite E in H.
  destruct H as (Hn & Hl & Hv). split_and!; try done; try lia. unfold VARINT_MAX.
  destruct (varint_size_cases (byte_at buf 0)) as [Hs|[Hs|[Hs|Hs]]]; rewrite Hs in Hn; subst; lia.
Qed.

Lemma decode_varint_none buf :
  len buf < varint_size (byte_at buf 0) -> decode_varint buf = None.
Proof.
  intros Hl. pose proof (decode_varint_cases buf) as H.
  destruct (decode_varint buf) as [[n v]|]; [|done]. lia.
Qed.

Lemma decode_varint_enough buf :
  buf <> [] -> varint_size (byte_at buf 0) <= len buf -> is_Some (decode_varint buf).
Proof.
  intros Hb Hl. pose proof (decode_varint_cases buf) as H.
  destruct (decode_varint buf) as [[n v]|]; [by eexists|].
  destruct H as [H|H]; [by apply len_zero_nil in H|lia].
Qed.

Lemma decode_varint_app b c n v :
  decode_varint b = Some (n, v) -> decode_varint (b ++ c) = Some (n, v).
Proof.
  intros E. pose proof (decode_varint_bounds _ _ _ E) as (Hn & Hl & _).
  revert E. unfold decode_varint. rewrite len_app. pose proof (len_nonneg c).
  rewrite (byte_at_app_l b c 0) by lia.
  unfold varint_size in Hn.
  destruct (Z.eqb_spec (len b) 0); [lia|]. rewrite (proj2 (Z.eqb_neq (len b + len c) 0)) by lia.
  destruct (Z.shiftr (u8 (byte_at b 0)) 6 =? 0); [done|].
  destruct (Z.shiftr (u8 (byte_at b 0)) 6 =? 1); [|destruct (Z.shiftr (u8 (byte_at b 0)) 6 =? 2);
    [|destruct (Z.shiftr (u8 (byte_at b 0)) 6 =? 3); [|done]]]; subst n.
  all: rewrite !byte_at_app_l by lia; zdec; done.
Qed.

Lemma encode_varint_size v :
  0 <= v < VARINT_MAX ->
  len (encode_varint 8 v) =
  if v <? 2 ^ 6 then 1 else if v <? 2 ^ 14 then 2 else if v <? 2 ^ 30 then 4 else 8.
Proof.
  intros Hv. unfold encode_varint, VARINT_MAX in *. cbn [Z.ltb Z.compare Pos.compare Pos.compare_cont].
  zcases; done || lia.
Qed.

Lemma decode_encode_varint v c :
  0 <= v < VARINT_MAX ->
  decode_varint (encode_varint 8 v ++ c) = Some (len (encode_varint 8 v), v).
Proof.
  intros Hv. unfold VARINT_MAX in Hv.
  unfold encode_varint. cbn [Z.ltb Z.compare Pos.compare Pos.compare_cont].
  destruct (Z.ltb_spec v 64); [|destruct (Z.ltb_spec v 16384); [|destruct (Z.ltb_spec v 1073741824)]].
  4: rewrite (proj2 (Z.ltb_lt v 4611686018427387904)) by lia.
  all: unfold decode_varint; cbn [app]; byte_at_simpl.
  all: rewrite (proj2 (Z.eqb_neq (len _) 0)) by blia.
  all: rewrite ?(Z.shiftr_div_pow2 v) by lia.
  2: change 0x40 with (Z.shiftl 1 6); rewrite (lor_comm_add 1 _ 6) by lia.
  3: change 0x80 with (Z.shiftl 2 6); rewrite (lor_comm_add 2 _ 6) by lia.
  4: change 0xC0 with (Z.shiftl 3 6); rewrite (lor_comm_add 3 _ 6) by lia.
  all: rewrite shiftr_6, land_0x3F, ?lor4_val, ?lor8_val, ?land_0xFF, !u8_b8.
  - rewrite (proj2 (Z.eqb_eq _ 0)) by lia. do 2 f_equal. lia.
  - rewrite (proj2 (Z.eqb_neq _ 0)), (proj2 (Z.eqb_eq _ 1)) by lia.
    rewrite (proj2 (Z.ltb_ge _ _)) by blia. rewrite lor_shiftl_add by lia. do 2 f_equal. lia.
  - rewrite (proj2 (Z.eqb_neq _ 0)), (proj2 (Z.eqb_neq _ 1)), (proj2 (Z.eqb_eq _ 2)) by lia.
    rewrite (proj2 (Z.ltb_ge _ _)) by blia. do 2 f_equal. lia.
  - rewrite (proj2 (Z.eqb_neq _ 0)), (proj2 (Z.eqb_neq _ 1)), (proj2 (Z.eqb_neq _ 2)),
      (proj2 (Z.eqb_eq _ 3)) by lia.
    rewrite (proj2 (Z.ltb_ge _ _)) by blia. do 2 f_equal. lia.
Qed.

Lemma encode_varint_nonempty v : 0 <= v < VARINT_MAX -> 0 < len (encode_varint 8 v).
Proof. intros Hv. rewrite encode_varint_size by done. zcases; lia. Qed.

(** ** Lemmas: the reference parser *)

(** The two varints in front of a payload. *)
Definition frame_header (hb : bytes) (t l : Z) : Prop :=
  exists n, decode_varint hb = Some (n, t) /\
            decode_varint (dropZ n hb) = Some (len hb - n, l) /\ 0 <= l < VARINT_MAX.

Lemma frame_header_intro tb lb t l :
  decode_varint tb = Some (len tb, t) -> decode_varint lb = Some (len lb, l) ->
  frame_header (tb ++ lb) t l.
Proof.
  intros Ht Hl. exists (len tb). rewrite dropZ_app_len by done.
  pose proof (decode_varint_bounds _ _ _ Hl) as (_ & _ & ?).
  split_and!; [by apply decode_varint_app| |lia|lia].
  rewrite Hl. do 2 f_equal. blia.
Qed.

Lemma parse_frame1_header hb t l p :
  frame_header hb t l ->
  parse_frame1 (hb ++ p) =
  if len p <? l then None
  else Some ({| type := t; payload := takeZ l p |}, len hb + l).
Proof.
  intros (n & Ht & Hl & Hlr). unfold parse_frame1.
  pose proof (decode_varint_bounds _ _ _ Ht) as (_ & Hn & _).
  rewrite (decode_varint_app _ _ _ _ Ht), dropZ_app_le by lia.
  rewrite (decode_varint_app _ _ _ _ Hl).
  replace (n + (len hb - n)) with (len hb) by lia. rewrite dropZ_app_len by done.
  autorewrite with len. zcases; done || lia.
Qed.

Lemma h3_parse_frame1_bounds b f n : parse_frame1 b = Some (f, n) -> 0 < n <= len b.
Proof.
  unfold parse_frame1. destruct (decode_varint b) as [[k t]|] eqn:Ht; [|done].
  destruct (decode_varint (dropZ k b)) as [[m l]|] eqn:Hl; [|done].
  apply decode_varint_bounds in Ht as (_ & Hk & _).
  apply decode_varint_bounds in Hl as (_ & Hm & ?).
  zcases; [done|]. intros [= <- <-]. lia.
Qed.

Lemma h3_parse_frame1_app b c f n :
  parse_frame1 b = Some (f, n) -> parse_frame1 (b ++ c) = Some (f, n).
Proof.
  unfold parse_frame1. destruct (decode_varint b) as [[k t]|] eqn:Ht; [|done].
  destruct (decode_varint (dropZ k b)) as [[m l]|] eqn:Hl; [|done].
  pose proof (decode_varint_bounds _ _ _ Ht) as (_ & Hk & _).
  pose proof (decode_varint_bounds _ _ _ Hl) as (_ & Hm & ?).
  rewrite (decode_varint_app _ _ _ _ Ht), dropZ_app_le by lia.
  rewrite (decode_varint_app _ _ _ _ Hl). rewrite len_app. pose proof (len_nonneg c).
  destruct (Z.ltb_spec (len b) (k + m + l)); [done|]. intros [= <- <-].
  rewrite (proj2 (Z.ltb_ge _ _)) by lia. rewrite dropZ_app_le by lia.
  rewrite takeZ_app_le by blia. done.
Qed.

Lemma parse_seen_some b f n :
  parse_seen b = Some (f, n) <->
  parse_frame1 b = Some (f, n) /\ (n = len b -> 0 < len (payload f)).
Proof.
  unfold parse_seen. destruct (parse_frame1 b) as [[f' n']|]; [|split; [done|by intros []]].
  pose proof (len_nonneg (payload f')).
  destruct (Z.eqb_spec n' (len b)), (Z.eqb_spec (len (payload f')) 0); cbn.
  all: split; [intros E; simplify_eq; done || (split; [done|lia])|].
  all: intros [E Hlast]; simplify_eq; done || lia.
Qed.

Lemma parse_seen_bounds b f n : parse_seen b = Some (f, n) -> 0 < n <= len b.
Proof. rewrite parse_seen_some. intros [E _]. by apply h3_parse_frame1_bounds in E. Qed.

Lemma parse_seen_app b c f n :
  parse_seen b = Some (f, n) -> parse_seen (b ++ c) = Some (f, n).
Proof.
  rewrite !parse_seen_some. intros [E Hn]. pose proof (h3_parse_frame1_bounds _ _ _ E).
  split; [by apply h3_parse_frame1_app|]. intros. apply Hn. blia.
Qed.

#[export] Instance h3_framing : Framing frame := {|
  parse1 := parse_seen;
  parse1_bounds := parse_seen_bounds;
  parse1_app := parse_seen_app
|}.

Lemma h3_len_frame_wire f :
  frame_ok f -> len (payload f) < len (frame_wire f).
Proof.
  intros [Ht Hl]. unfold frame_wire, build_frame, append_varint.
  pose proof (encode_varint_nonempty _ Ht). blia.
Qed.

Lemma frame_wire_header f :
  frame_ok f -> exists hb,
    frame_wire f = hb ++ payload f /\ frame_header hb (type f) (len (payload f)).
Proof.
  intros [Ht Hl]. unfold frame_wire, build_frame, append_varint.
  eexists; split; [done|]. cbn [app]. pose proof (len_nonneg (payload f)).
  apply frame_header_intro.
  - rewrite <- (app_nil_r (encode_varint 8 (type f))) at 1. by apply decode_encode_varint.
  - rewrite <- (app_nil_r (encode_varint 8 (len (payload f)))) at 1.
    apply decode_encode_varint. lia.
Qed.

Lemma h3_parse_frame1_wire f c :
  frame_ok f -> parse_frame1 (frame_wire f ++ c) = Some (f, len (frame_wire f)).
Proof.
  intros Hf. destruct (frame_wire_header f Hf) as (hb & -> & Hh).
  rewrite <- app_assoc, (parse_frame1_header _ _ _ _ Hh). rewrite (proj2 (Z.ltb_ge _ _)) by blia.
  rewrite takeZ_app_len, len_app by done. by destruct f.
Qed.

(** All frames are seen, except a last one with an empty payload. *)
Lemma h3_parse_all_wire fs f :
  Forall frame_ok fs -> frame_ok f ->
  parse_all (concat (map frame_wire (fs ++ [f]))) =
  if len (payload f) =? 0 then (fs, frame_wire f) else (fs ++ [f], []).
Proof.
  intros Hfs Hf. induction Hfs as [|g gs Hg _ IH]; cbn [app map concat].
  - rewrite app_nil_r, parse_all_step. cbn [parse1 h3_framing]. unfold parse_seen.
    pose proof (h3_parse_frame1_wire f [] Hf) as E. rewrite app_nil_r in E.
    rewrite E, Z.eqb_refl; cbn [andb]. destruct (_ =? 0); [done|].
    rewrite dropZ_all by lia. rewrite parse_all_none by done. done.
  - rewrite parse_all_step. cbn [parse1 h3_framing].
    rewrite (proj2 (parse_seen_some _ g (len (frame_wire g)))).
    + rewrite dropZ_app_len, IH by done. by destruct (_ =? 0).
    + split; [by apply h3_parse_frame1_wire|].
      rewrite map_app, concat_app, !len_app. cbn [map concat]. rewrite app_nil_r.
      pose proof (h3_len_frame_wire f Hf). bounds. intros. lia.
Qed.

(** ** Lemmas: the incremental reader *)

(** [v] holds the first bytes [b] of a varint that is not complete. *)
Definition pending (v : varint_state) (b : bytes) : Prop :=
  vs_complete v = false /\
  (b = [] /\ vs_expected v = 0 \/
   b <> [] /\ vs_buf v = b /\ vs_expected v = varint_size (byte_at b 0) /\
   len b < vs_expected v).

Lemma pending_none v b : pending v b -> decode_varint b = None.
Proof.
  intros [_ [[-> _]|(_ & _ & Hs & Hl)]]; [done|]. apply decode_varint_none. lia.
Qed.

Lemma feed_varint_more (v : varint_state) b d :
  pending v b -> d <> [] ->
  let v0 := if vs_expected v =? 0
            then {| vs_complete := vs_complete v; vs_buf := [];
                    vs_expected := varint_size (byte_at d 0) |} else v in
  vs_complete v0 = false /\ vs_buf v0 = b /\ len b < vs_expected v0 /\
  vs_expected v0 = varint_size (byte_at (b ++ d) 0).
Proof.
  intros [Hc [[-> He]|(Hb & Hbuf & Hs & Hl)]] Hd; cbv zeta.
  - rewrite He, Z.eqb_refl. cbn. split_and!; try done.
    destruct (varint_size_cases (byte_at d 0)) as [->|[->|[->| ->]]]; done.
  - rewrite (proj2 (Z.eqb_neq _ 0)) by blia. split_and!; try done.
    rewrite byte_at_app_l; [done|]. destruct b; [done|]. blia.
Qed.

Lemma feed_varint_spec v b d accum :
  pending v b -> d <> [] ->
  let '(v', acc, n) := feed_varint v d accum in
  0 < n <= len d /\
  if vs_complete v' then
    vs_expected v' = 0 /\ decode_varint (b ++ takeZ n d) = Some (len (b ++ takeZ n d), acc)
  else pending v' (b ++ takeZ n d).
Proof.
  intros Hp Hd. pose proof (feed_varint_more v b d Hp Hd) as Hm. cbv zeta in Hm.
  unfold feed_varint. unfold varint_size in Hm at 1. cbv zeta in Hm |- *.
  set (v0 := if vs_expected v =? 0 then _ else v) in *.
  destruct Hm as (Hc & Hbuf & Hlt & Hs).
  assert (0 < len d) as Hlen. { destruct d; [done|]. blia. }
  rewrite (proj2 (Z.eqb_neq (len d) 0)) by lia. rewrite Hbuf.
  set (n := Z.min _ _).
  assert (len (b ++ takeZ n d) = len b + n) as Hl by (unfold n; blia).
  assert (byte_at (b ++ takeZ n d) 0 = byte_at (b ++ d) 0) as Hfst.
  { rewrite <- (takeZ_dropZ n d) at 2. rewrite app_assoc.
    symmetry. apply byte_at_app_l. unfold n in *. blia. }
  destruct (Z.eqb_spec (len (b ++ takeZ n d)) (vs_expected v0)) as [He|He].
  - destruct (decode_varint_enough (b ++ takeZ n d)) as [[k val] E].
    { intros E%(f_equal len). revert E. rewrite Hl. unfold n. blia. }
    { rewrite Hfst. lia. }
    rewrite E. cbn. split; [unfold n; blia|]. split; [done|].
    rewrite E. apply decode_varint_bounds in E as (-> & _). rewrite Hfst. do 2 f_equal. lia.
  - cbn. rewrite Hc. split; [unfold n; blia|]. split; [done|]. right. cbn.
    split_and!; [|done|congruence|unfold n in *; blia].
    intros E%(f_equal len). revert E. rewrite Hl. unfold n. blia.
Qed.

(** What the reader has consumed since its last frame. *)
Definition reader_absorbed (r : frame_reader) (b : bytes) : Prop :=
  match state_ r with
  | READ_TYPE => pending (varint_of r) b
  | READ_LENGTH =>
      exists tb lb, b = tb ++ lb /\ decode_varint tb = Some (len tb, current_type r) /\
        pending (varint_of r) lb
  | READ_PAYLOAD | COMPLETE =>
      exists hb, b = hb ++ payload_buf r /\
        frame_header hb (current_type r) (current_length r) /\
        varint_complete r = false /\ varint_bytes_expected r = 0 /\
        len (payload_buf r) <= current_length r /\
        (len (payload_buf r) = current_length r ->
         has_frame r = false -> payload_buf r = []) /\
        (has_frame r = true -> len (payload_buf r) = current_length r)
  end.

Lemma absorbed_init : reader_absorbed frame_reader_init [].
Proof. split; [done|by left]. Qed.

(** One pass of the loop on at least one byte: it takes bytes, except the pass
    that completes an empty payload. *)
Lemma feed_step_spec r b d :
  reader_absorbed r b -> has_frame r = false -> d <> [] ->
  let '(r', n, ret) := feed_step r d in
  ret = false /\ 0 <= n <= len d /\ reader_absorbed r' (b ++ takeZ n d) /\
  (n = 0 -> has_frame r' = true) /\
  (has_frame r' = true -> payload_buf r' = [] -> n = 0).
Proof.
  intros Hr Hno Hd. unfold feed_step, has_frame, reader_absorbed in *.
  destruct (state_ r) eqn:Est; [| | |done].
  - pose proof (feed_varint_spec _ _ d (type_val r) Hr Hd) as Hv.
    destruct (feed_varint _ _ _) as [[v' acc] n]. destruct Hv as [Hn Hv].
    rewrite (proj2 (Z.eqb_neq n 0)) by lia. destruct (vs_complete v') eqn:Ec; cbn.
    + destruct Hv as [He Ht]. split_and!; try done; try lia.
      exists (b ++ takeZ n d), []. rewrite app_nil_r. split_and!; try done.
      split; [done|]. by left.
    + split_and!; try done; try lia. destruct v'; cbn in *. subst. exact Hv.
  - destruct Hr as (tb & lb & -> & Htb & Hp).
    pose proof (feed_varint_spec _ _ d (length_val r) Hp Hd) as Hv.
    destruct (feed_varint _ _ _) as [[v' acc] n]. destruct Hv as [Hn Hv].
    rewrite (proj2 (Z.eqb_neq n 0)) by lia. destruct (vs_complete v') eqn:Ec; cbn.
    + destruct Hv as [He Hl]. split_and!; try done; try lia.
      exists (tb ++ lb ++ takeZ n d). rewrite app_nil_r, app_assoc.
      pose proof (decode_varint_bounds _ _ _ Hl) as (_ & _ & ?).
      split_and!; try done; try blia. rewrite <- app_assoc. by apply frame_header_intro.
    + split_and!; try done; try lia. exists tb, (lb ++ takeZ n d).
      rewrite app_assoc. split_and!; try done. destruct v'; cbn in *. subst. exact Hv.
  - destruct Hr as (hb & -> & Hh & Hc & He & Hle & Hemp & _).
    assert (0 < len d) as Hlen. { destruct d; [done|]. blia. }
    set (n := Z.min _ _). cbn.
    assert (len (payload_buf r ++ takeZ n d) = len (payload_buf r) + n) as Hl by (unfold n; blia).
    assert (0 <= n <= len d) by (unfold n; lia).
    split; [done|]. split; [done|]. split; [|split].
    + destruct (Z.eqb_spec (len (payload_buf r ++ takeZ n d)) (current_length r)) as [E|E]; cbn.
      all: exists hb; rewrite app_assoc; split_and!; try done; unfold n in *; lia.
    + intros Hn0. rewrite (proj2 (Z.eqb_eq _ _)); [done|].
      rewrite Hl, Hn0. unfold n in *. lia.
    + intros _ E%(f_equal len). rewrite Hl in E. blia.
Qed.

Lemma h3_feed_loop_spec fuel r b data c :
  reader_absorbed r b -> 0 <= c <= len data ->
  len data - c + (if has_frame r then 1 else 2) <= Z.of_nat fuel ->
  (has_frame r = true -> payload_buf r = [] -> c < len data) ->
  let '(r', n) := feed_loop fuel r data c in
  c <= n <= len data /\ reader_absorbed r' (b ++ takeZ (n - c) (dropZ c data)) /\
  (n < len data -> has_frame r' = true) /\
  (has_frame r' = true -> payload_buf r' = [] -> n < len data).
Proof.
  revert r b c. induction fuel as [|fuel IH]; intros r b c Hr Hc Hf He.
  { destruct (has_frame r); lia. }
  cbn [feed_loop]. destruct (Z.ltb_spec c (len data)) as [Hlt|Hge].
  2: { rewrite Z.sub_diag, takeZ_0, app_nil_r. split_and!; try done; lia. }
  assert (dropZ c data <> []) as Hne. { intros E%(f_equal len). revert E. blia. }
  destruct (has_frame r) eqn:Hh.
  { assert (feed_step r (dropZ c data) = (r, 0, true)) as ->.
    { unfold has_frame, feed_step in *. by destruct (state_ r). }
    rewrite Z.sub_diag, takeZ_0, app_nil_r. split_and!; try done; lia. }
  pose proof (feed_step_spec r b _ Hr Hh Hne) as Hs.
  destruct (feed_step r (dropZ c data)) as [[r1 n] ret].
  destruct Hs as (-> & Hn & Hr1 & Hz & Hemp). rewrite len_dropZ in Hn.
  specialize (IH r1 _ (c + n) Hr1 ltac:(lia)).
  destruct (feed_loop fuel r1 data (c + n)) as [r2 m].
  destruct IH as (Hm & Hr2 & Hmore & Hlast).
  { destruct (has_frame r1); [|destruct (Z.eq_dec n 0) as [E|E]; [by apply Hz in E|]]; lia. }
  { intros H1 H2. specialize (Hemp H1 H2). lia. }
  split_and!; [lia|lia| |done|done].
  rewrite <- app_assoc, <- dropZ_dropZ, <- takeZ_add in Hr2 by lia.
  by replace (n + (m - (c + n))) with (m - c) in Hr2 by lia.
Qed.

Lemma reader_frame_spec r b :
  reader_absorbed r b ->
  if has_frame r
  then parse_frame1 b = Some ((take_frame r).1, len b) /\
       reader_absorbed (take_frame r).2 []
  else parse_seen b = None.
Proof.
  unfold has_frame, reader_absorbed. destruct (state_ r) eqn:Est; cbn.
  - intros Hp. unfold parse_seen, parse_frame1. by rewrite (pending_none _ _ Hp).
  - intros (tb & lb & -> & Ht & Hp). unfold parse_seen, parse_frame1.
    by rewrite (decode_varint_app _ _ _ _ Ht), dropZ_app_len, (pending_none _ _ Hp).
  - intros (hb & -> & Hh & _ & _ & Hle & Hemp & _). unfold parse_seen, has_frame in *.
    rewrite Est in Hemp. rewrite (parse_frame1_header _ _ _ _ Hh).
    destruct (Z.ltb_spec (len (payload_buf r)) (current_length r)); [done|].
    assert (payload_buf r = []) as E by (apply Hemp; [lia|done]). rewrite E in *.
    assert (current_length r = 0) as -> by blia.
    by rewrite app_nil_r, Z.add_0_r, Z.eqb_refl.
  - intros (hb & -> & Hh & Hc & He & Hle & _ & Hfull). unfold has_frame in Hfull.
    rewrite Est in Hfull. specialize (Hfull eq_refl).
    rewrite (parse_frame1_header _ _ _ _ Hh), (proj2 (Z.ltb_ge _ _)) by lia.
    rewrite takeZ_all by lia. split; [do 2 f_equal; blia|]. split; [done|by left].
Qed.

(** What a call of [feed] leaves behind: the next frame of the bytes since the
    last one, or all of them absorbed. *)
Definition fed (r : frame_reader) (B rest : bytes) : Prop :=
  if has_frame r then
    exists k, parse_seen B = Some ((take_frame r).1, k) /\ dropZ k B = rest /\
      reader_absorbed (take_frame r).2 []
  else reader_absorbed r B /\ parse_seen B = None.

Lemma h3_feed_spec r b d :
  reader_absorbed r b -> has_frame r = false ->
  let '(r', n) := feed r d in
  0 <= n <= len d /\ fed r' (b ++ d) (dropZ n d).
Proof.
  intros Hr Hno. unfold feed, fed.
  pose proof (h3_feed_loop_spec (2 + length d) r b d 0 Hr) as H.
  rewrite Hno in H. destruct (feed_loop _ _ _ _) as [r' n].
  destruct H as (Hn & Ha & Hm & Hl); [unfold len; lia..|done|].
  rewrite Z.sub_0_r, dropZ_0 in Ha. split; [lia|].
  pose proof (reader_frame_spec _ _ Ha) as Hf. destruct (has_frame r') eqn:E.
  - destruct Hf as [Hp Ht]. exists (len b + n).
    assert (b ++ d = (b ++ takeZ n d) ++ dropZ n d) as Hsplit
      by (by rewrite <- app_assoc, takeZ_dropZ).
    assert (len (b ++ takeZ n d) = len b + n) as Hlen by blia.
    rewrite Hsplit, dropZ_app_len by done. split_and!; try done.
    apply parse_seen_some. rewrite <- Hlen.
    split; [by apply h3_parse_frame1_app|]. intros Hlast. rewrite (len_app (b ++ _)), len_dropZ in Hlast.
    cbn. destruct (payload_buf r') eqn:Ep; [|blia].
    specialize (Hl eq_refl eq_refl). lia.
  - assert (n = len d) as -> by (destruct (Z.eq_dec n (len d)); [done|]; specialize (Hm ltac:(lia)); done).
    rewrite takeZ_all in Ha, Hf by lia. done.
Qed.

Section DriveFacts.
Context {S : Type} (process : S -> frame -> S).

Lemma drive_loop_spec fuel r s data n B :
  0 <= n -> (length (dropZ n data) + 2 <= fuel)%nat -> fed r B (dropZ n data) ->
  let '(r', s') := drive_loop process fuel r s data n in
  s' = foldl process s (parse_all B).1 /\ reader_absorbed r' (parse_all B).2 /\
  has_frame r' = false.
Proof.
  revert r s n B. induction fuel as [|fuel IH]; intros r s n B Hn Hf Hfed; [lia|].
  cbn [drive_loop]. unfold fed in Hfed. rewrite (parse_all_step B). cbn [parse1 h3_framing].
  destruct (has_frame r) eqn:Hh.
  2: { destruct Hfed as [Ha ->]. done. }
  destruct Hfed as (k & Hp & Hk & Ht). rewrite Hp, Hk.
  destruct (take_frame r) as [f r1] eqn:Et. cbn [fst snd] in *.
  assert (has_frame r1 = false) as H1 by (unfold take_frame in Et; by simplify_eq).
  pose proof (h3_feed_spec r1 [] (dropZ n data) Ht H1) as Hs.
  destruct (feed r1 (dropZ n data)) as [r2 m]. destruct Hs as [Hm Hfed2].
  cbn [app] in Hfed2. rewrite dropZ_dropZ in Hfed2 by lia.
  destruct (has_frame r2) eqn:H2.
  - assert (0 < len (dropZ n data) /\ 0 < m) as [Hpos Hm0].
    { unfold fed in Hfed2. rewrite H2 in Hfed2. destruct Hfed2 as (k2 & Hp2 & Hk2 & _).
      pose proof (parse_seen_bounds _ _ _ Hp2) as Hb. split; [lia|].
      apply (f_equal len) in Hk2. rewrite !len_dropZ in *. lia. }
    specialize (IH r2 (process s f) (n + m) (dropZ n data) ltac:(lia)).
    destruct (drive_loop process fuel r2 _ _ _) as [r3 s3].
    destruct (parse_all (dropZ n data)) as [fs rest]. apply IH; [|done].
    unfold dropZ, len in *. rewrite length_drop in *. lia.
  - destruct fuel as [|fuel']; [lia|]. cbn [drive_loop]. rewrite H2.
    unfold fed in Hfed2. rewrite H2 in Hfed2. destruct Hfed2 as [Ha Hnone].
    rewrite (parse_all_none (dropZ n data)) by done. done.
Qed.

Lemma drive_spec r b s d :
  reader_absorbed r b -> has_frame r = false ->
  let '(r', s') := drive process r s d in
  s' = foldl process s (parse_all (b ++ d)).1 /\
  reader_absorbed r' (parse_all (b ++ d)).2 /\ has_frame r' = false.
Proof.
  intros Hr Hno. unfold drive. pose proof (h3_feed_spec r b d Hr Hno) as Hs.
  destruct (feed r d) as [r1 n]. destruct Hs as [Hn Hfed].
  apply drive_loop_spec; [lia| |done]. unfold dropZ. rewrite length_drop. lia.
Qed.

Lemma drive_list_spec r b s ds :
  reader_absorbed r b -> has_frame r = false ->
  let '(r', s') := drive_list process r s ds in
  s' = foldl process s (parse_all (b ++ concat ds)).1 /\
  reader_absorbed r' (parse_all (b ++ concat ds)).2 /\ has_frame r' = false.
Proof.
  revert r b s. induction ds as [|d ds IH]; intros r b s Hr Hno; cbn [drive_list concat].
  - pose proof (reader_frame_spec _ _ Hr) as Hf. rewrite Hno in Hf.
    by rewrite app_nil_r, parse_all_none.
  - pose proof (drive_spec r b s d Hr Hno) as Hd.
    destruct (drive process r s d) as [r1 s1]. destruct Hd as (-> & Ha & Hn).
    specialize (IH r1 _ (foldl process s (parse_all (b ++ d)).1) Ha Hn).
    rewrite app_assoc, (parse_all_app (b ++ d)). cbn [fst snd]. rewrite foldl_app.
    by destruct (drive_list process r1 _ ds).
Qed.
End DriveFacts.

(** ** Lemmas: builders against parsers *)

Lemma decode_appended v : 0 <= v < VARINT_MAX ->
  decode_varint (append_varint [] v) = Some (len (append_varint [] v), v).
Proof.
  intros Hv. unfold append_varint. cbn [app].
  rewrite <- (app_nil_r (encode_varint 8 v)) at 1. by apply decode_encode_varint.
Qed.

Definition setting_ok (s : setting_entry) : Prop :=
  0 <= se_id s < VARINT_MAX /\ 0 <= se_value s < VARINT_MAX.

Definition setting_wire (s : setting_entry) : bytes :=
  encode_varint 8 (se_id s) ++ encode_varint 8 (se_value s).

Lemma settings_payload ss acc :
  foldl (fun p s => append_varint (append_varint p (se_id s)) (se_value s)) acc ss =
  acc ++ concat (map setting_wire ss).
Proof.
  revert acc. induction ss as [|s ss IH]; intros acc; cbn [foldl map concat].
  - by rewrite app_nil_r.
  - rewrite IH. unfold append_varint, setting_wire. by rewrite <- !app_assoc.
Qed.

Lemma h3_parse_settings_loop_spec fuel pre ss :
  Forall setting_ok ss -> (length ss <= fuel)%nat ->
  parse_settings_loop fuel (pre ++ concat (map setting_wire ss)) (len pre) = ss.
Proof.
  intros Hss. revert fuel pre. induction Hss as [|s ss [Hi Hv] Hss IH]; intros fuel pre Hf.
  - destruct fuel; cbn [parse_settings_loop]; [done|]. cbn. rewrite app_nil_r. zdec. done.
  - destruct fuel as [|fuel]; cbn [length] in Hf; [lia|]. cbn [parse_settings_loop map concat].
    pose proof (encode_varint_nonempty _ Hi).
    replace (setting_wire s ++ _) with
      (encode_varint 8 (se_id s) ++ encode_varint 8 (se_value s) ++
       concat (map setting_wire ss)) by (unfold setting_wire; by rewrite <- app_assoc).
    rewrite (proj2 (Z.ltb_lt _ _)) by (autorewrite with len; bounds; lia).
    rewrite dropZ_app_len, decode_encode_varint by done.
    rewrite (app_assoc pre), <- len_app, dropZ_app_len, decode_encode_varint by done.
    rewrite app_assoc, <- len_app, IH by lia. by destruct s.
Qed.

Lemma length_setting_wires ss :
  Forall setting_ok ss -> (length ss <= length (concat (map setting_wire ss)))%nat.
Proof.
  induction 1 as [|s ss [Hi _] _ IH]; cbn [map concat length]; [done|].
  pose proof (encode_varint_nonempty _ Hi). unfold len in *.
  unfold setting_wire at 1. rewrite !length_app. lia.
Qed.

Lemma h3_parse_settings_wires ss :
  Forall setting_ok ss -> parse_settings (concat (map setting_wire ss)) = ss.
Proof.
  intros Hss. unfold parse_settings.
  apply (h3_parse_settings_loop_spec _ [] ss Hss). by apply length_setting_wires.
Qed.

Lemma h3_parse_built t p :
  0 <= t < VARINT_MAX -> len p < VARINT_MAX ->
  parse_frame1 (build_frame t p) = Some ({| type := t; payload := p |}, len (build_frame t p)).
Proof.
  intros Ht Hp. pose proof (h3_parse_frame1_wire {| type := t; payload := p |} []) as H.
  rewrite app_nil_r in H. by apply H.
Qed.

Lemma len_encode_varint_le v : len (encode_varint 8 v) <= 8.
Proof.
  unfold encode_varint. cbn [Z.ltb Z.compare Pos.compare Pos.compare_cont].
  zcases; done.
Qed.

(** [reset] keeps a type or length varint that has not arrived completely: a
    reader reset in the middle of one is not a fresh reader. *)
Lemma reset_keeps_partial_varint :
  let r := reset (feed frame_reader_init [x41]).1 in
  let wire := build_frame frame_type.SETTINGS [x06; x00] in
  type (take_frame (feed frame_reader_init wire).1).1 = frame_type.SETTINGS /\
  type (take_frame (feed r wire).1).1 = 0x104.
Proof. vm_compute. split; reflexivity. Qed.

(** ** Properties *)

(** QUIC variable-length integers: every value below 2^62 is written in
    the form RFC 9000 prescribes, decodes to itself whatever follows it, and no
    other encoding of the value that the decoder accepts is shorter; larger
    values are refused. *)
Theorem varint_roundtrip (v : Z) (rest : bytes) :
  0 <= v < 2 ^ 64 ->
  if v <? 2 ^ 62 then
    decode_varint (encode_varint 8 v ++ rest) = Some (len (encode_varint 8 v), v) /\
    forall buf n, decode_varint buf = Some (n, v) -> len (encode_varint 8 v) <= n
  else encode_varint 8 v = [].
Proof.
  intros Hv. destruct (Z.ltb_spec v (2 ^ 62)) as [Hlt|Hge].
  - assert (0 <= v < VARINT_MAX) as Hm by (unfold VARINT_MAX; lia).
    split; [by apply decode_encode_varint|]. intros buf n E.
    rewrite encode_varint_size by done. pose proof (decode_varint_cases buf) as H.
    rewrite E in H. destruct H as (Hn & _ & Hb).
    destruct (varint_size_cases (byte_at buf 0)) as [Hs|[Hs|[Hs|Hs]]]; rewrite Hs in Hn;
      subst; zcases; lia.
  - unfold encode_varint. zdec. done.
Qed.

Lemma varint_roundtrip_witness :
  decode_varint (encode_varint 8 15293 ++ [xff]) = Some (2, 15293) /\
  encode_varint 8 (2 ^ 62) = [].
Proof.
  split.
  - apply (varint_roundtrip 15293 [xff]). lia.
  - apply (varint_roundtrip (2 ^ 62) []). lia.
Defined.

(** The loop of [cb_recv_stream_data] delivers exactly the frames that
    were written, in order, however QUIC cuts the stream into deliveries, with
    one exception: a frame with an empty payload that ends the data is held
    back until another byte arrives. *)
Theorem h3_frames_survive_chunking {S} (process : S -> frame -> S) (s : S)
    (fs : list frame) (f : frame) (chunks : list bytes) :
  Forall frame_ok fs -> frame_ok f ->
  concat chunks = concat (map frame_wire (fs ++ [f])) ->
  (drive_list process frame_reader_init s chunks).2 =
  foldl process s (if len (payload f) =? 0 then fs else fs ++ [f]).
Proof.
  intros Hfs Hf Hc.
  pose proof (drive_list_spec process frame_reader_init [] s chunks absorbed_init eq_refl) as H.
  destruct (drive_list _ _ _ _) as [r' s']. destruct H as (-> & _). cbn [app snd].
  rewrite Hc, h3_parse_all_wire by done. by destruct (_ =? 0).
Qed.

Definition example_frames : list frame :=
  [{| type := frame_type.HEADERS; payload := str "headers" |};
   {| type := frame_type.DATA; payload := [] |}].

Definition example_data : frame := {| type := frame_type.DATA; payload := str "body" |}.

Lemma h3_frames_survive_chunking_witness :
  (drive_list (fun s f => s ++ [f]) frame_reader_init []
     (map (fun b => [b]) (concat (map frame_wire (example_frames ++ [example_data]))))).2 =
  example_frames ++ [example_data].
Proof.
  rewrite (h3_frames_survive_chunking _ [] example_frames example_data).
  - reflexivity.
  - repeat constructor; ground.
  - ground.
  - vm_compute. reflexivity.
Defined.

(** SETTINGS, GOAWAY, CANCEL_PUSH, MAX_PUSH_ID and PUSH_PROMISE frames
    give their parsers the values the builders were called with. *)
Theorem h3_control_roundtrip (ss : list setting_entry) (id : Z) (block : bytes) :
  Forall setting_ok ss -> 16 * len ss < VARINT_MAX -> 0 <= id < VARINT_MAX ->
  len block + 8 < VARINT_MAX ->
  (exists f, parse_frame1 (build_settings_frame ss) = Some (f, len (build_settings_frame ss)) /\
     type f = frame_type.SETTINGS /\ parse_settings (payload f) = ss) /\
  (exists f, parse_frame1 (build_goaway_frame id) = Some (f, len (build_goaway_frame id)) /\
     type f = frame_type.GOAWAY /\ parse_goaway (payload f) = Some id) /\
  (exists f, parse_frame1 (build_cancel_push_frame id) =
       Some (f, len (build_cancel_push_frame id)) /\
     type f = frame_type.CANCEL_PUSH /\ snd <$> decode_varint (payload f) = Some id) /\
  (exists f, parse_frame1 (build_max_push_id_frame id) =
       Some (f, len (build_max_push_id_frame id)) /\
     type f = frame_type.MAX_PUSH_ID /\ snd <$> decode_varint (payload f) = Some id) /\
  (exists f, parse_frame1 (build_push_promise_frame id block) =
       Some (f, len (build_push_promise_frame id block)) /\
     type f = frame_type.PUSH_PROMISE /\
     parse_push_promise (payload f) = {| pp_push_id := id; pp_header_block := block |}).
Proof.
  intros Hss Hl Hid Hb. pose proof (decode_appended id Hid) as Hd.
  assert (len (append_varint [] id) <= 8) as H8 by apply len_encode_varint_le.
  assert (forall l, len (concat (map setting_wire l)) <= 16 * len l) as Hw.
  { induction l as [|x l IH]; cbn [map concat]; [done|]. unfold setting_wire at 1.
    pose proof (len_encode_varint_le (se_id x)). pose proof (len_encode_varint_le (se_value x)).
    blia. }
  specialize (Hw ss). unfold build_settings_frame, build_goaway_frame,
    build_cancel_push_frame, build_max_push_id_frame, build_push_promise_frame.
  rewrite settings_payload. cbn [app].
  assert (8 < VARINT_MAX) as Hbig by done.
  split_and!; rewrite h3_parse_built by (done || lia || (rewrite len_app; lia));
    (eexists; split; [done|]; split; [done|]); cbn [payload]; rewrite ?Hd; try done.
  - by apply h3_parse_settings_wires.
  - unfold parse_goaway. by rewrite Hd.
  - unfold parse_push_promise. rewrite (decode_varint_app _ _ _ _ Hd), len_app.
    f_equal. destruct (Z.ltb_spec (len (append_varint [] id)) (len (append_varint [] id) + len block)).
    + by rewrite dropZ_app_len.
    + symmetry. apply len_zero_nil. blia.
Qed.

Lemma h3_control_roundtrip_witness :
  exists f, parse_frame1 (build_push_promise_frame 70000 (str "block")) = Some (f, 11) /\
    type f = frame_type.PUSH_PROMISE /\
    parse_push_promise (payload f) = {| pp_push_id := 70000; pp_header_block := str "block" |}.
Proof.
  apply (h3_control_roundtrip
           [{| se_id := setting_id.MAX_FIELD_SECTION_SIZE; se_value := 4096 |}] 70000 (str "block")).
  - repeat constructor; ground.
  - ground.
  - ground.
  - ground.
Defined.
