(* ===== verification/Qpack.v ===== *)
(** * QPACK header compression (src/src/http/qpack.cpp, qpack.hpp)

    The encoder uses the static table and literals only, with a Required Insert
    Count of 0; the decoder also reads references to the dynamic table, which
    the peer fills through the encoder stream.  A function that returns the
    number of bytes consumed and fills an out-parameter is an [option] of both,
    [None] being the return value 0.  The Huffman code and the prefix integers
    are those of HPACK, as in the source. *)
From S2P Require Import Prelude PrefixInt Huffman HeaderTable Hpack.
From stdpp Require Import options.

Definition qpack_encode_int : Z -> Z -> Z -> Z -> bytes := encode_int.
Definition qpack_decode_int : bytes -> Z -> outcome (Z * Z) := decode_int.

(** ** Static table *)

Definition qpack_static_table : list header := [
  (str ":authority", str "");
  (str ":path", str "/");
  (str "age", str "0");
  (str "content-disposition", str "");
  (str "content-length", str "0");
  (str "cookie", str "");
  (str "date", str "");
  (str "etag", str "");
  (str "if-modified-since", str "");
  (str "if-none-match", str "");
  (str "last-modified", str "");
  (str "link", str "");
  (str "location", str "");
  (str "referer", str "");
  (str "set-cookie", str "");
  (str ":method", str "CONNECT");
  (str ":method", str "DELETE");
  (str ":method", str "GET");
  (str ":method", str "HEAD");
  (str ":method", str "OPTIONS");
  (str ":method", str "POST");
  (str ":method", str "PUT");
  (str ":scheme", str "http");
  (str ":scheme", str "https");
  (str ":status", str "103");
  (str ":status", str "200");
  (str ":status", str "304");
  (str ":status", str "404");
  (str ":status", str "503");
  (str "accept", str "*/*");
  (str "accept", str "application/dns-message");
  (str "accept-encoding", str "gzip, deflate, br");
  (str "accept-ranges", str "bytes");
  (str "access-control-allow-headers", str "cache-control");
  (str "access-control-allow-headers", str "content-type");
  (str "access-control-allow-origin", str "*");
  (str "cache-control", str "max-age=0");
  (str "cache-control", str "max-age=2592000");
  (str "cache-control", str "max-age=604800");
  (str "cache-control", str "no-cache");
  (str "cache-control", str "no-store");
  (str "cache-control", str "public, max-age=31536000");
  (str "content-encoding", str "br");
  (str "content-encoding", str "gzip");
  (str "content-type", str "application/dns-message");
  (str "content-type", str "application/javascript");
  (str "content-type", str "application/json");
  (str "content-type", str "application/x-www-form-urlencoded");
  (str "content-type", str "image/gif");
  (str "content-type", str "image/jpeg");
  (str "content-type", str "image/png");
  (str "content-type", str "text/css");
  (str "content-type", str "text/html; charset=utf-8");
  (str "content-type", str "text/plain");
  (str "content-type", str "text/plain;charset=utf-8");
  (str "range", str "bytes=0-");
  (str "strict-transport-security", str "max-age=31536000");
  (str "strict-transport-security", str "max-age=31536000; includesubdomains");
  (str "strict-transport-security", str "max-age=31536000; includesubdomains; preload");
  (str "vary", str "accept-encoding");
  (str "vary", str "origin");
  (str "x-content-type-options", str "nosniff");
  (str "x-xss-protection", str "1; mode=block");
  (str ":status", str "100");
  (str ":status", str "204");
  (str ":status", str "206");
  (str ":status", str "302");
  (str ":status", str "400");
  (str ":status", str "403");
  (str ":status", str "421");
  (str ":status", str "425");
  (str ":status", str "500");
  (str "accept-language", str "");
  (str "access-control-allow-credentials", str "FALSE");
  (str "access-control-allow-credentials", str "TRUE");
  (str "access-control-allow-headers", str "*");
  (str "access-control-allow-methods", str "get");
  (str "access-control-allow-methods", str "get, post, options");
  (str "access-control-allow-methods", str "options");
  (str "access-control-expose-headers", str "content-length");
  (str "access-control-request-headers", str "content-type");
  (str "access-control-request-method", str "get");
  (str "access-control-request-method", str "post");
  (str "alt-svc", str "clear");
  (str "authorization", str "");
  (str "content-security-policy", str "script-src 'none'; object-src 'none'; base-uri 'none'");
  (str "early-data", str "1");
  (str "expect-ct", str "");
  (str "forwarded", str "");
  (str "if-range", str "");
  (str "origin", str "");
  (str "purpose", str "prefetch");
  (str "server", str "");
  (str "timing-allow-origin", str "*");
  (str "upgrade-insecure-requests", str "1");
  (str "user-agent", str "");
  (str "x-forwarded-for", str "");
  (str "x-frame-options", str "deny");
  (str "x-frame-options", str "sameorigin")
].

(** ** Strings *)

Definition qpack_encode_string (s : bytes) : bytes :=
  if huffman_is_shorter s then
    let encoded := huffman_encode s in
    qpack_encode_int 16 (len encoded) 7 0x80 ++ encoded
  else qpack_encode_int 16 (len s) 7 0x00 ++ s.

(** The string and the number of bytes consumed. *)
Definition qpack_decode_string (buf : bytes) : outcome (option (bytes * Z)) :=
  match buf with
  | [] => Ok None
  | b :: _ =>
      let huffman := negb (Z.land (u8 b) 0x80 =? 0) in
      '(consumed, str_len) ← qpack_decode_int buf 7;
      if consumed =? 0 then Ok None else
      if len buf <? u64 (consumed + str_len) then Ok None else
      out ← (if huffman then
               raw ← rd_n (dropZ consumed buf) str_len;
               let out := huffman_decode raw in
               Ok (if bool_decide (out = []) && (0 <? str_len) then None else Some out)
             else s ← assign (dropZ consumed buf) str_len; Ok (Some s));
      match out with
      | None => Ok None
      | Some out =>
          n ← int_add consumed (i32 str_len);
          Ok (if n =? 0 then None else Some (out, n))
      end
  end.

(** ** Dynamic table *)

Record qpack_dynamic_table := {
  qt_entries : list header;
  qt_max_size : Z;
  qt_current_size : Z;
  qt_insert_count : Z
}.

Definition qpack_dynamic_table_init : qpack_dynamic_table :=
  {| qt_entries := []; qt_max_size := 4096; qt_current_size := 0; qt_insert_count := 0 |}.

Definition qpack_insert (t : qpack_dynamic_table) (name value : bytes) : qpack_dynamic_table :=
  let esz := entry_size (name, value) in
  let s := evict_while (fun size => qt_max_size t <? u64 (size + esz))
             {| ev_size := qt_current_size t; ev_entries := qt_entries t |} in
  let fits := esz <=? qt_max_size t in
  {| qt_entries := if fits then (name, value) :: ev_entries s else ev_entries s;
     qt_max_size := qt_max_size t;
     qt_current_size := if fits then u64 (ev_size s + esz) else ev_size s;
     qt_insert_count := u64 (qt_insert_count t + 1) |}.

Definition qpack_evict (t : qpack_dynamic_table) : qpack_dynamic_table :=
  let s := evict_while (fun size => qt_max_size t <? size)
             {| ev_size := qt_current_size t; ev_entries := qt_entries t |} in
  {| qt_entries := ev_entries s; qt_max_size := qt_max_size t;
     qt_current_size := ev_size s; qt_insert_count := qt_insert_count t |}.

Definition qpack_set_max_size (t : qpack_dynamic_table) (n : Z) : qpack_dynamic_table :=
  qpack_evict {| qt_entries := qt_entries t; qt_max_size := n;
                 qt_current_size := qt_current_size t;
                 qt_insert_count := qt_insert_count t |}.

(** [get(index)], zero-based; [nullptr] is [None]. *)
Definition qpack_get (t : qpack_dynamic_table) (index : Z) : option header :=
  if len (qt_entries t) <=? index then None else qt_entries t !! Z.to_nat index.

(** ** Encoder *)

Fixpoint first_index (tbl : list header) (i : Z) (p : header -> bool) : Z :=
  match tbl with
  | [] => -1
  | h :: tbl => if p h then i else first_index tbl (i + 1) p
  end.

Definition find_static (name value : bytes) : Z :=
  first_index qpack_static_table 0 (fun h => bool_decide (h.1 = name) && bool_decide (h.2 = value)).

Definition find_static_name (name : bytes) : Z :=
  first_index qpack_static_table 0 (fun h => bool_decide (h.1 = name)).

(** One header of the loop of [encode_static]. *)
Definition encode_line (h : header) : bytes :=
  let '(name, value) := h in
  let idx := find_static name value in
  if 0 <=? idx then qpack_encode_int 64 idx 6 0xC0 else
  let name_idx := find_static_name name in
  if 0 <=? name_idx then
    qpack_encode_int 64 name_idx 4 0x50 ++ qpack_encode_string value
  else [b8 0x20] ++ qpack_encode_string name ++ qpack_encode_string value.

Definition encode_static (headers : list header) : bytes :=
  [x00] ++ [x00] ++ concat (map encode_line headers).

(** The encoder keeps no state that [encode] reads or writes. *)
Record qpack_encoder := { qe_dynamic_table : qpack_dynamic_table; qe_max_table_size : Z }.

Definition qpack_encode (e : qpack_encoder) (headers : list header) : bytes * qpack_encoder :=
  (encode_static headers, e).

(** ** Decoder *)

Record qpack_decoder := {
  qd_dynamic_table : qpack_dynamic_table;
  qd_max_table_size : Z;
  qd_known_received_count : Z
}.

Definition qpack_decoder_init : qpack_decoder :=
  {| qd_dynamic_table := qpack_dynamic_table_init; qd_max_table_size := 4096;
     qd_known_received_count := 0 |}.

(** The field line in front of [data] and its length. *)
Definition decode_field_line (t : qpack_dynamic_table) (data : bytes) (base : Z)
  : outcome (option (header * Z)) :=
  match data with
  | [] => Ok None
  | b :: _ =>
      let b := u8 b in
      if Z.land b 0xC0 =? 0xC0 then
        '(consumed, idx) ← qpack_decode_int data 6;
        if consumed =? 0 then Ok None else
        if len qpack_static_table <=? idx then Ok None else
        Ok (h ← qpack_static_table !! Z.to_nat idx; Some (h, consumed))
      else if Z.land b 0xE0 =? 0xA0 then
        '(consumed, idx) ← qpack_decode_int data 5;
        if consumed =? 0 then Ok None else
        if len (qt_entries t) <=? u64 (base + idx) then Ok None else
        Ok (h ← qpack_get t (u64 (base + idx)); Some (h, consumed))
      else if Z.land b 0xC0 =? 0x40 then
        let is_static := negb (Z.land b 0x10 =? 0) in
        '(consumed, name_idx) ← qpack_decode_int data 4;
        if consumed =? 0 then Ok None else
        match (if is_static then
                 if len qpack_static_table <=? name_idx then None
                 else qpack_static_table !! Z.to_nat name_idx
               else qpack_get t name_idx) with
        | None => Ok None
        | Some (name, _) =>
            r ← qpack_decode_string (dropZ consumed data);
            Ok ('(value, slen) ← r; Some ((name, value), consumed + slen))
        end
      else if Z.land b 0xE0 =? 0x20 then
        r ← qpack_decode_string (dropZ 1 data);
        match r with
        | None => Ok None
        | Some (name, nlen) =>
            r ← qpack_decode_string (dropZ (1 + nlen) data);
            Ok ('(value, vlen) ← r; Some ((name, value), 1 + nlen + vlen))
        end
      else if (Z.land b 0xF0 =? 0) && (Z.land b 0x0C =? 0) then
        '(consumed, idx) ← qpack_decode_int data 4;
        if consumed =? 0 then Ok None else
        Ok (h ← qpack_get t idx; Some (h, consumed))
      else Ok None
  end.

(** [while (consumed < static_cast<int>(len))]; one unit of fuel per line. *)
Fixpoint decode_lines (fuel : nat) (t : qpack_dynamic_table) (data : bytes)
    (consumed base : Z) (headers : list header) : outcome (list header) :=
  if consumed <? i32 (len data) then
    match fuel with
    | O => Timeout
    | S fuel =>
        r ← decode_field_line t (dropZ consumed data) base;
        match r with
        | None => Ok headers
        | Some (h, n) =>
            if n <=? 0 then Ok headers
            else decode_lines fuel t data (consumed + n) base (headers ++ [h])
        end
    end
  else Ok headers.

(** The Required Insert Count, on [size_t]. *)
Definition required_insert_count (max_table_size insert_count ric_encoded : Z) : Z :=
  if ric_encoded =? 0 then 0 else
  let max_entries := max_table_size / 32 in
  let full_range := u64 (2 * max_entries) in
  let full_range := if full_range =? 0 then 1 else full_range in
  let max_value := u64 (insert_count + max_entries) in
  let rounded := u64 (max_value / full_range * full_range) in
  let ric := u64 (rounded + (ric_encoded - 1)) in
  let ric := if max_value <? ric then u64 (ric - full_range) else ric in
  u64 (ric + 1).

Definition qpack_decode (d : qpack_decoder) (data : bytes) : outcome (list header) :=
  if len data <? 2 then Ok [] else
  '(consumed, ric_encoded) ← qpack_decode_int data 8;
  if consumed <=? 0 then Ok [] else
  let req := required_insert_count (qd_max_table_size d)
               (qt_insert_count (qd_dynamic_table d)) ric_encoded in
  b ← rd data consumed;
  let sign_negative := negb (Z.land (u8 b) 0x80 =? 0) in
  '(db_consumed, delta_base) ← qpack_decode_int (dropZ consumed data) 7;
  if db_consumed <=? 0 then Ok [] else
  let consumed := consumed + db_consumed in
  let base :=
    if req =? 0 then 0
    else if sign_negative then u64 (req - 1 - delta_base) else u64 (req - 1 + delta_base) in
  decode_lines (length data) (qd_dynamic_table d) data consumed base [].

(** ** Encoder stream *)

(** What one instruction does: the function stops, or goes on at a position
    with a new table; [count] says whether it counts as received. *)
Inductive instruction :=
| Stop
| Next (pos : Z) (t : qpack_dynamic_table) (count : bool).

(** A prefix integer, then a string literal, then an insertion. *)
Definition insert_with_name (t : qpack_dynamic_table) (name : Z -> bytes) (data : bytes)
    (pos : Z) : outcome instruction :=
  '(consumed, name_idx) ← qpack_decode_int (dropZ pos data) 5;
  if consumed <=? 0 then Ok Stop else
  let pos := pos + consumed in
  r ← qpack_decode_string (dropZ pos data);
  match r with
  | None => Ok Stop
  | Some (value, slen) =>
      if slen <=? 0 then Ok Stop
      else Ok (Next (pos + slen) (qpack_insert t (name name_idx) value) true)
  end.

Definition process_instruction (t : qpack_dynamic_table) (data : bytes) (pos : Z)
  : outcome instruction :=
  let b := u8 (byte_at data pos) in
  if Z.land b 0xC0 =? 0xC0 then
    let is_static := negb (Z.land b 0x20 =? 0) in
    insert_with_name t
      (fun i => if is_static && (i <? len qpack_static_table)
                then from_option fst [] (qpack_static_table !! Z.to_nat i) else []) data pos
  else if (Z.land b 0xC0 =? 0) && negb (Z.land b 0x20 =? 0) then
    insert_with_name t (fun i => from_option fst [] (qpack_get t i)) data pos
  else if Z.land b 0xE0 =? 0x40 then
    let pos := pos + 1 in
    r ← qpack_decode_string (dropZ pos data);
    match r with
    | None => Ok Stop
    | Some (name, nlen) =>
        if nlen <=? 0 then Ok Stop else
        let pos := pos + nlen in
        r ← qpack_decode_string (dropZ pos data);
        match r with
        | None => Ok Stop
        | Some (value, vlen) =>
            if vlen <=? 0 then Ok Stop
            else Ok (Next (pos + vlen) (qpack_insert t name value) true)
        end
    end
  else if Z.land b 0xE0 =? 0x20 then
    '(consumed, capacity) ← qpack_decode_int (dropZ pos data) 5;
    if consumed <=? 0 then Ok Stop
    else Ok (Next (pos + consumed) (qpack_set_max_size t capacity) false)
  else if (Z.land b 0xE0 =? 0) && (Z.land b 0x10 =? 0) then
    '(consumed, idx) ← qpack_decode_int (dropZ pos data) 4;
    if consumed <=? 0 then Ok Stop else
    Ok (Next (pos + consumed)
          (match qpack_get t idx with
           | Some (name, value) => qpack_insert t name value
           | None => t
           end) true)
  else Ok Stop.

(** [while (pos < len)]; one unit of fuel per instruction. *)
Fixpoint process_loop (fuel : nat) (d : qpack_decoder) (data : bytes) (pos : Z)
  : outcome qpack_decoder :=
  if pos <? len data then
    match fuel with
    | O => Timeout
    | S fuel =>
        i ← process_instruction (qd_dynamic_table d) data pos;
        match i with
        | Stop => Ok d
        | Next pos t count =>
            process_loop fuel
              {| qd_dynamic_table := t; qd_max_table_size := qd_max_table_size d;
                 qd_known_received_count :=
                   if count then u64 (qd_known_received_count d + 1)
                   else qd_known_received_count d |} data pos
        end
    end
  else Ok d.

Definition process_encoder_instructions (d : qpack_decoder) (data : bytes)
  : outcome qpack_decoder :=
  process_loop (length data) d data 0.

(** ** Lemmas: strings *)

Lemma huffman_shorter_nonempty s : huffman_is_shorter s = true -> s <> [].
Proof. by intros H ->. Qed.

Lemma qpack_decode_string_encode s rest :
  string_ok s -> len (qpack_encode_string s ++ rest) < 2 ^ 31 - 11 ->
  qpack_decode_string (qpack_encode_string s ++ rest) =
  Ok (Some (s, len (qpack_encode_string s))).
Proof.
  intros Hs Hl. unfold qpack_encode_string, qpack_encode_int in *.
  fold (hpack_encode_int 16) in *.
  destruct (huffman_is_shorter s) eqn:Hh.
  - set (pl := huffman_encode s) in *. rewrite <- app_assoc in *.
    destruct (decode_payload pl rest 0x80) as (c & tl & E & Hc & Hdec & Hn & Hlen & Hrd & Hadd);
      [by right|blia|blia|].
    rewrite E in *. cbn [app qpack_decode_string] in *. rewrite land_0x80.
    rewrite Z.leb_antisym in Hc. apply negb_true_iff in Hc. rewrite Hc. cbn [negb].
    unfold qpack_decode_int. fold (hpack_decode_int). rewrite Hdec. cbn [mbind outcome_bind]. zdec.
    rewrite Hrd. cbn [mbind outcome_bind]. unfold pl. rewrite huffman_decode_encode by auto.
    rewrite bool_decide_eq_false_2 by (by apply huffman_shorter_nonempty). cbn [andb].
    fold pl. rewrite Hadd. cbn [mbind outcome_bind]. zdec. do 3 f_equal. blia.
  - rewrite <- app_assoc in *.
    destruct (decode_payload s rest 0) as (c & tl & E & Hc & Hdec & Hn & Hlen & Hrd & Hadd);
      [by left|blia|blia|].
    rewrite E in *. cbn [app qpack_decode_string] in *. rewrite land_0x80.
    rewrite Z.leb_antisym in Hc. apply negb_false_iff in Hc. rewrite Hc. cbn [negb].
    unfold qpack_decode_int. fold (hpack_decode_int). rewrite Hdec. cbn [mbind outcome_bind]. zdec.
    unfold assign, STRING_MAX. zdec. rewrite Hrd. cbn [mbind outcome_bind].
    rewrite Hadd. cbn [mbind outcome_bind]. zdec. do 3 f_equal. blia.
Qed.

Lemma qpack_encode_string_nonempty s :
  len (qpack_encode_string s) < 2 ^ 31 - 11 -> 0 < len (qpack_encode_string s).
Proof. apply encode_string_nonempty. Qed.

(** What a successful call says about the string and the length. *)
Lemma qpack_decode_string_ok buf s n :
  qpack_decode_string buf = Ok (Some (s, n)) -> len buf < 2 ^ 31 ->
  0 < n <= len buf /\ len s <= 2 * len buf.
Proof.
  destruct buf as [|b buf]; cbn [qpack_decode_string]; [done|].
  intros H Hl. apply bind_ok in H as ([k v] & Hd & H).
  apply decode_int_bounds in Hd as [Hv Hk]; [|lia].
  destruct (Z.eqb_spec k 0) as [->|Hk0]; [done|].
  destruct (_ <? _) in H; [done|].
  apply bind_ok in H as (out & Hraw & H). destruct out as [out|]; [|done].
  apply bind_ok in H as (m & Hm & H). destruct (Z.eqb_spec m 0); [done|].
  injection H as -> ->. apply int_add_ok in Hm as ->.
  assert (v <= len (dropZ k (b :: buf)) /\ len s <= 2 * len (dropZ k (b :: buf))) as [Hle Hs].
  { destruct (negb _) in Hraw; apply bind_ok in Hraw as (r & Hr & Hraw).
    - apply rd_n_ok in Hr as [? ->]. destruct (_ && _) in Hraw; [done|].
      injection Hraw as <-. split; [done|].
      pose proof (len_huffman_decode (takeZ v (dropZ k (b :: buf)))) as Hd. blia.
    - injection Hraw as ->. unfold assign in Hr. destruct (_ <? _) in Hr; [done|].
      apply rd_n_ok in Hr as [? ->]. split; [done|]. blia. }
  rewrite len_dropZ in *. unfold i32. rewrite Z.mod_small by lia. bounds. lia.
Qed.

Lemma terminates_qpack_decode_int data p : terminates (qpack_decode_int data p).
Proof. apply terminates_decode_int. Qed.

#[local] Hint Resolve terminates_qpack_decode_int terminates_int_add : net.

Lemma terminates_qpack_decode_string data : terminates (qpack_decode_string data).
Proof. unfold qpack_decode_string, assign. terminates. Qed.

#[local] Hint Resolve terminates_qpack_decode_string : net.

(** ** Lemmas: the static table *)

Lemma length_qpack_static : length qpack_static_table = 99%nat.
Proof. reflexivity. Qed.

Lemma first_index_spec tbl i0 p :
  0 <= i0 ->
  let i := first_index tbl i0 p in
  (i = -1 /\ Forall (fun h => p h = false) tbl) \/
  (i0 <= i < i0 + len tbl /\ exists h, tbl !! Z.to_nat (i - i0) = Some h /\ p h = true /\
     Forall (fun h => p h = false) (take (Z.to_nat (i - i0)) tbl)).
Proof.
  revert i0. induction tbl as [|h tbl IH]; intros i0 Hi0; cbn [first_index]; [by left|].
  destruct (p h) eqn:Hp.
  - right. split; [blia|]. exists h. rewrite Z.sub_diag. split_and!; [done..|constructor].
  - destruct (IH (i0 + 1) ltac:(lia)) as [[-> Hf]|[Hi (h' & Hh & Hp' & Hf)]].
    + left. split; [done|by constructor].
    + right. split; [blia|]. exists h'.
      set (i := first_index tbl (i0 + 1) p) in *.
      replace (Z.to_nat (i - i0)) with (S (Z.to_nat (i - (i0 + 1)))) by lia.
      split_and!; [done..|]. cbn [take]. by constructor.
Qed.

Lemma find_static_ok name value :
  0 <= find_static name value ->
  find_static name value < 99 /\
  qpack_static_table !! Z.to_nat (find_static name value) = Some (name, value).
Proof.
  unfold find_static. set (p := fun h : header => _).
  destruct (first_index_spec qpack_static_table 0 p) as [[-> _]|[Hi ([n v] & Hh & Hp & _)]];
    [done..|].
  rewrite Z.sub_0_r in Hh. intros _. split.
  - unfold len in Hi. rewrite length_qpack_static in Hi. lia.
  - rewrite Hh. unfold p in Hp. cbn in Hp. apply andb_prop in Hp as [Hn Hv].
    apply bool_decide_eq_true_1 in Hn, Hv. by subst.
Qed.

Lemma find_static_name_ok name :
  0 <= find_static_name name ->
  find_static_name name < 99 /\
  exists v, qpack_static_table !! Z.to_nat (find_static_name name) = Some (name, v).
Proof.
  unfold find_static_name. set (p := fun h : header => _).
  destruct (first_index_spec qpack_static_table 0 p) as [[-> _]|[Hi ([n v] & Hh & Hp & _)]];
    [done..|].
  rewrite Z.sub_0_r in Hh. intros _. split.
  - unfold len in Hi. rewrite length_qpack_static in Hi. lia.
  - exists v. rewrite Hh. unfold p in Hp. cbn in Hp. apply bool_decide_eq_true_1 in Hp. by subst.
Qed.

(** ** Lemmas: the decoder on what the encoder writes *)

(** The tests on the first byte of a field line, as ranges. *)
Lemma line_kind b :
  ((Z.land (u8 b) 0xC0 =? 0xC0) = (192 <=? u8 b)) /\
  ((Z.land (u8 b) 0xE0 =? 0xA0) = ((160 <=? u8 b) && (u8 b <? 192))) /\
  ((Z.land (u8 b) 0xC0 =? 0x40) = ((64 <=? u8 b) && (u8 b <? 128))) /\
  ((Z.land (u8 b) 0xE0 =? 0x20) = ((32 <=? u8 b) && (u8 b <? 64))) /\
  ((Z.land (u8 b) 0x10 =? 0) = (u8 b mod 32 <? 16)).
Proof. destruct b; vm_compute; repeat split; reflexivity. Qed.

Lemma qpack_string_step (t1 : bytes) s rest :
  string_ok s -> len (t1 ++ qpack_encode_string s ++ rest) < 2 ^ 31 - 11 ->
  qpack_decode_string (dropZ (len t1) (t1 ++ qpack_encode_string s ++ rest)) =
  Ok (Some (s, len (qpack_encode_string s))).
Proof.
  intros Hs Hl. rewrite dropZ_app_len by done. apply qpack_decode_string_encode; [done|blia].
Qed.

Lemma decode_line_encoded t h rest base :
  header_ok h -> len (encode_line h ++ rest) < 2 ^ 31 - 11 ->
  decode_field_line t (encode_line h ++ rest) base = Ok (Some (h, len (encode_line h))) /\
  0 < len (encode_line h).
Proof.
  intros [Hn Hv] Hl. destruct h as [name value]. cbn [fst snd] in *. unfold encode_line in *.
  destruct (Z.leb_spec 0 (find_static name value)) as [Hi|_].
  { destruct (find_static_ok name value Hi) as [Hlt Hs].
    set (i := find_static name value) in *. unfold qpack_encode_int in *.
    rewrite encode_int_room in * by lia.
    destruct (encode_int_spec i 6 0xC0) as (c & tl & E & Hc & _ & Hd); [lia..|done|].
    change (2 ^ 6 - 1) with 63 in Hc. specialize (Hd rest). rewrite E in *.
    cbn [app decode_field_line] in *. destruct (line_kind c) as (-> & _).
    rewrite (proj2 (Z.leb_le 192 (u8 c))) by lia. unfold qpack_decode_int. rewrite Hd.
    cbn [mbind outcome_bind]. rewrite (proj2 (Z.eqb_neq (len (c :: tl)) 0)) by blia.
    change (len qpack_static_table) with 99. rewrite (proj2 (Z.leb_gt 99 i)) by lia.
    rewrite Hs. split; [done|blia]. }
  destruct (Z.leb_spec 0 (find_static_name name)) as [Hi|_].
  - destruct (find_static_name_ok name Hi) as [Hlt [v Hs]].
    set (i := find_static_name name) in *. unfold qpack_encode_int in *.
    rewrite encode_int_room in * by lia.
    destruct (encode_int_spec i 4 0x50) as (c & tl & E & Hc & _ & Hd); [lia..|done|].
    change (2 ^ 4 - 1) with 15 in Hc.
    rewrite <- app_assoc in *. specialize (Hd (qpack_encode_string value ++ rest)).
    pose proof (qpack_string_step _ value rest Hv Hl) as Hstr. rewrite E in *.
    cbn [app decode_field_line] in *. destruct (line_kind c) as (-> & -> & -> & _ & ->).
    rewrite (proj2 (Z.leb_gt 192 (u8 c))), (proj2 (Z.leb_gt 160 (u8 c))),
      (proj2 (Z.leb_le 64 (u8 c))), (proj2 (Z.ltb_lt (u8 c) 128)),
      (proj2 (Z.ltb_ge (u8 c mod 32) 16)) by lia. cbn [andb negb].
    unfold qpack_decode_int. rewrite Hd. cbn [mbind outcome_bind].
    rewrite (proj2 (Z.eqb_neq (len (c :: tl)) 0)) by blia.
    change (len qpack_static_table) with 99. rewrite (proj2 (Z.leb_gt 99 i)) by lia.
    rewrite Hs, Hstr. cbn. split; [do 3 f_equal; blia|blia].
  - change (b8 0x20) with x20 in *. rewrite <- !app_assoc in *. cbn [app decode_field_line].
    change (Z.land (u8 x20) 0xC0 =? 0xC0) with false.
    change (Z.land (u8 x20) 0xE0 =? 0xA0) with false.
    change (Z.land (u8 x20) 0xC0 =? 0x40) with false.
    change (Z.land (u8 x20) 0xE0 =? 0x20) with true. cbv iota.
    change (dropZ 1 (x20 :: ?l)) with l.
    pose proof (qpack_string_step [] name (qpack_encode_string value ++ rest) Hn) as Hname.
    cbn [app] in Hname, Hl. rewrite dropZ_0 in Hname. rewrite Hname by blia.
    cbn [mbind outcome_bind].
    pose proof (qpack_string_step (x20 :: qpack_encode_string name) value rest Hv) as Hval.
    cbn [app] in Hval. rewrite <- (len_cons x20), Hval by blia. cbn.
    split; [do 3 f_equal; blia|blia].
Qed.

Lemma decode_lines_encoded fuel t pre hs base acc :
  Forall header_ok hs -> (length hs <= fuel)%nat ->
  len (pre ++ concat (map encode_line hs)) < 2 ^ 31 - 11 ->
  decode_lines fuel t (pre ++ concat (map encode_line hs)) (len pre) base acc =
  Ok (acc ++ hs).
Proof.
  intros Hok. revert fuel pre acc. induction Hok as [|h hs Hh _ IH]; intros fuel pre acc Hf Hl.
  - cbn [map concat] in *. rewrite !app_nil_r in *.
    destruct fuel; cbn [decode_lines]; unfold i32; rewrite Z.mod_small by blia;
      rewrite (proj2 (Z.ltb_ge _ _)) by lia; done.
  - cbn [map concat length] in *. destruct fuel as [|fuel]; [lia|]. cbn [decode_lines].
    destruct (decode_line_encoded t h (concat (map encode_line hs)) base Hh ltac:(blia)) as [Hd Hp].
    unfold i32. rewrite Z.mod_small by blia. rewrite (proj2 (Z.ltb_lt _ _)) by blia.
    rewrite dropZ_app_len, Hd by done. cbn [mbind outcome_bind].
    rewrite (proj2 (Z.leb_gt _ 0)) by lia. rewrite <- len_app, app_assoc in *.
    rewrite IH by (done || lia). by rewrite <- app_assoc.
Qed.

Lemma length_lines hs :
  Forall header_ok hs -> len (concat (map encode_line hs)) < 2 ^ 31 - 11 ->
  (length hs <= length (concat (map encode_line hs)))%nat.
Proof.
  induction 1 as [|h hs Hh _ IH]; cbn [map concat length]; [done|]. intros Hl.
  destruct (decode_line_encoded qpack_dynamic_table_init h [] 0 Hh) as [_ Hp].
  { rewrite app_nil_r. blia. }
  specialize (IH ltac:(blia)). unfold len in *. rewrite length_app. lia.
Qed.

Lemma qpack_decode_encode d hs :
  Forall header_ok hs -> len (encode_static hs) < 2 ^ 31 - 11 ->
  qpack_decode d (encode_static hs) = Ok hs.
Proof.
  intros Hok Hl. unfold qpack_decode. pose proof (length_lines hs Hok) as Hn.
  unfold encode_static in *. cbn [app] in *. specialize (Hn ltac:(blia)).
  rewrite (proj2 (Z.ltb_ge _ 2)) by blia.
  change (qpack_decode_int (x00 :: ?l) 8) with (Ok (1, 0)). cbn [mbind outcome_bind].
  change (1 <=? 0) with false. cbv iota.
  change (rd (x00 :: x00 :: ?l) 1) with (Ok x00). cbn [mbind outcome_bind].
  change (dropZ 1 (x00 :: ?l)) with l.
  change (qpack_decode_int (x00 :: ?l) 7) with (Ok (1, 0)). cbn [mbind outcome_bind].
  change (1 <=? 0) with false. cbv iota. cbn [required_insert_count Z.eqb].
  apply (decode_lines_encoded _ _ [x00; x00] hs _ []); [done|cbn [length]; lia|done].
Qed.

#[export] Instance qpack_codec : HeaderCodec qpack_encoder qpack_decoder.
Proof.
  refine {| hc_encode := qpack_encode;
            hc_decode d data := hs ← qpack_decode d data; Ok (hs, d);
            hc_enc_ok _ := True; hc_ok := Forall header_ok; hc_resize e _ := e |}.
  - done.
  - done.
  - intros e d hs _ Hok Hl. exists d. cbn [qpack_encode fst] in *.
    rewrite qpack_decode_encode; [done..|lia].
Defined.

(** ** Lemmas: the dynamic table *)

(** The HPACK table with the same entries: the two insert alike. *)
Definition hpack_view (t : qpack_dynamic_table) : hpack_dynamic_table :=
  {| max_size := qt_max_size t; current_size := qt_current_size t; entries := qt_entries t |}.

Definition qtable_ok (t : qpack_dynamic_table) : Prop :=
  table_ok (hpack_view t) /\ qt_max_size t < 2 ^ 60.

Lemma qpack_insert_view t name value :
  hpack_view (qpack_insert t name value) = add (hpack_view t) name value.
Proof. unfold hpack_view, qpack_insert, add, evict_of. cbn. by destruct (_ <=? _). Qed.

Lemma qpack_set_max_size_view t n :
  hpack_view (qpack_set_max_size t n) = resize (hpack_view t) n.
Proof. reflexivity. Qed.

Lemma qpack_insert_ok t name value :
  qtable_ok t -> entry_size (name, value) < 2 ^ 62 -> qtable_ok (qpack_insert t name value).
Proof.
  intros [Hok Hm] He. unfold qtable_ok. rewrite qpack_insert_view.
  split; [apply add_ok; cbn; done || lia|done].
Qed.

Lemma qpack_get_size t i name value :
  qtable_ok t -> qpack_get t i = Some (name, value) -> len name + len value < 2 ^ 60.
Proof.
  intros [(Hs & Hlt & _ & _) Hm]. unfold qpack_get. destruct (_ <=? _); [done|].
  intros (l & k & E & _)%list_elem_of_split_length. cbn in *. revert Hs Hlt Hm. rewrite E, total_size_app. cbn.
  unfold entry_size. cbn. pose proof (total_size_nonneg l). pose proof (total_size_nonneg k).
  bounds. lia.
Qed.

Lemma static_name_size i : len (from_option fst [] (qpack_static_table !! i)) <= 100.
Proof.
  assert (H : forallb (fun h : header => len h.1 <=? 100) qpack_static_table = true)
    by (vm_compute; reflexivity).
  destruct (qpack_static_table !! i) as [h|] eqn:E; cbn; [|done].
  rewrite forallb_forall in H. apply Z.leb_le, H.
  apply list_elem_of_In. by eapply list_elem_of_lookup_2.
Qed.

(** ** Lemmas: the encoder stream *)

(** An instruction moves forward and keeps the table's bookkeeping and its
    capacity. *)
Definition instruction_ok (t : qpack_dynamic_table) (pos : Z) (i : instruction) : Prop :=
  match i with
  | Stop => True
  | Next pos' t' _ => pos < pos' /\ qtable_ok t' /\ qt_max_size t' = qt_max_size t
  end.

Lemma insert_with_name_ok t name data pos i :
  qtable_ok t -> (forall k, len (name k) < 2 ^ 60) -> len data < 2 ^ 31 ->
  insert_with_name t name data pos = Ok i -> instruction_ok t pos i.
Proof.
  intros Ht Hname Hl H. unfold insert_with_name in H.
  apply bind_ok in H as ([n idx] & Hd & H). destruct (Z.leb_spec n 0); [by injection H as <-|].
  apply bind_ok in H as ([[value slen]|] & Hs & H); [|by injection H as <-].
  destruct (Z.leb_spec slen 0); [by injection H as <-|]. injection H as <-. cbn.
  apply qpack_decode_string_ok in Hs as [_ Hv]; [|blia].
  split; [lia|]. split; [|done]. apply qpack_insert_ok; [done|].
  unfold entry_size; cbn. specialize (Hname idx). rewrite len_dropZ in Hv. bounds. lia.
Qed.

(** The capacity instruction is never reached: its bit pattern is taken for an
    insertion with a dynamic name reference. *)
Lemma capacity_shadowed b :
  (Z.land (u8 b) 0xE0 =? 0x20) = true ->
  (Z.land (u8 b) 0xC0 =? 0) && negb (Z.land (u8 b) 0x20 =? 0) = true.
Proof. destruct b; vm_compute; done. Qed.

Lemma process_instruction_ok t data pos i :
  qtable_ok t -> len data < 2 ^ 31 ->
  process_instruction t data pos = Ok i -> instruction_ok t pos i.
Proof.
  intros Ht Hl H. unfold process_instruction in H.
  destruct (_ =? 0xC0).
  { apply insert_with_name_ok in H; [done..| |done]. intros k.
    destruct (_ && _); [|done]. pose proof (static_name_size (Z.to_nat k)). lia. }
  destruct (_ && negb _) eqn:Hdyn.
  { apply insert_with_name_ok in H; [done..| |done]. intros k.
    destruct (qpack_get t k) as [[n v]|] eqn:E; [|done]. apply qpack_get_size in E; [|done].
    cbn. bounds. lia. }
  destruct (_ =? 0x40).
  { apply bind_ok in H as ([[name nlen]|] & Hn & H); [|by injection H as <-].
    destruct (Z.leb_spec nlen 0); [by injection H as <-|].
    apply bind_ok in H as ([[value vlen]|] & Hv & H); [|by injection H as <-].
    destruct (Z.leb_spec vlen 0); [by injection H as <-|]. injection H as <-. cbn.
    apply qpack_decode_string_ok in Hn as [_ Hn]; [|blia].
    apply qpack_decode_string_ok in Hv as [_ Hv]; [|blia].
    split; [lia|]. split; [|done]. apply qpack_insert_ok; [done|].
    unfold entry_size; cbn. rewrite len_dropZ in *. bounds. lia. }
  destruct (_ =? 0x20) eqn:Hcap; [apply capacity_shadowed in Hcap; congruence|].
  clear Hdyn Hcap. destruct (_ && _) in H; [|by injection H as <-].
  apply bind_ok in H as ([n idx] & Hd & H). destruct (Z.leb_spec n 0); [by injection H as <-|].
  injection H as <-. destruct (qpack_get t idx) as [[name value]|] eqn:E; cbn.
  - apply qpack_get_size in E; [|done]. split; [lia|]. split; [|done].
    apply qpack_insert_ok; [done|]. unfold entry_size; cbn. lia.
  - split; [lia|done].
Qed.

Lemma terminates_insert_with_name t name data pos :
  terminates (insert_with_name t name data pos).
Proof. unfold insert_with_name. terminates. Qed.

#[local] Hint Resolve terminates_insert_with_name : net.

Lemma terminates_process_instruction t data pos :
  terminates (process_instruction t data pos).
Proof. unfold process_instruction. terminates. Qed.

Lemma process_loop_spec fuel d data pos :
  qtable_ok (qd_dynamic_table d) -> len data < 2 ^ 31 -> len data - pos <= Z.of_nat fuel ->
  match process_loop fuel d data pos with
  | Ok d' => qtable_ok (qd_dynamic_table d') /\
             qt_max_size (qd_dynamic_table d') = qt_max_size (qd_dynamic_table d)
  | Timeout => False
  | _ => True
  end.
Proof.
  intros Ht Hl. revert d pos Ht. induction fuel as [|fuel IH]; intros d pos Ht Hf;
    cbn [process_loop]; destruct (Z.ltb_spec pos (len data)); try done; [lia|].
  pose proof (terminates_process_instruction (qd_dynamic_table d) data pos) as Hterm.
  destruct (process_instruction _ _ _) as [i| | |] eqn:E; cbn; try done.
  apply process_instruction_ok in E; [|done..]. destruct i as [|pos' t' count]; cbn in *; [done|].
  destruct E as (Hpos & Ht' & Hmax).
  set (d' := {| qd_dynamic_table := t' |}).
  specialize (IH d' pos' Ht' ltac:(lia)). destruct (process_loop _ _ _ _); try done.
  destruct IH as [? ->]. done.
Qed.

Lemma terminates_decode_field_line t data base : terminates (decode_field_line t data base).
Proof. unfold decode_field_line. terminates. Qed.

Lemma terminates_decode_lines fuel t data consumed base acc :
  0 <= consumed -> i32 (len data) - consumed <= Z.of_nat fuel ->
  terminates (decode_lines fuel t data consumed base acc).
Proof.
  revert consumed acc. induction fuel as [|fuel IH]; intros consumed acc Hc Hf;
    cbn [decode_lines]; destruct (Z.ltb_spec consumed (i32 (len data))); try done; [lia|].
  apply terminates_bind; [apply terminates_decode_field_line|]. intros [[h n]|]; [|done].
  destruct (Z.leb_spec n 0); [done|]. apply IH; lia.
Qed.

Lemma terminates_qpack_decode d data : terminates (qpack_decode d data).
Proof.
  unfold qpack_decode. destruct (_ <? 2); [done|].
  destruct (qpack_decode_int data 8) as [[n v]| | |] eqn:E; cbn; try done.
  2: { by apply (terminates_qpack_decode_int data 8) in E. }
  destruct (Z.leb_spec n 0); [done|]. apply terminates_bind; [apply terminates_rd|]. intros b.
  apply terminates_bind; [apply terminates_qpack_decode_int|]. intros [k w].
  destruct (Z.leb_spec k 0); [done|]. apply terminates_decode_lines; [lia|].
  unfold i32, len. lia.
Qed.

(** ** Properties *)

(** C40: decoding a field section that the encoder wrote gives the header list
    back, in order, whatever the decoder's dynamic table holds: exact static
    matches, static names with a literal value, and literals alike.  The strings
    are those of [header_ok], as for HPACK. *)
Theorem qpack_roundtrip (e : qpack_encoder) (d : qpack_decoder) (hs : list header) :
  Forall header_ok hs -> len (qpack_encode e hs).1 < 2 ^ 31 - 11 ->
  qpack_decode d (qpack_encode e hs).1 = Ok hs.
Proof. apply qpack_decode_encode. Qed.

Definition example_fields : list header :=
  [(str ":method", str "GET"); (str ":path", str "/search?q={x}");
   (str "x-frame-options", str "sameorigin"); (str "x-custom", str "value"); (str "empty", [])].

Lemma qpack_roundtrip_witness :
  qpack_decode qpack_decoder_init
    (qpack_encode {| qe_dynamic_table := qpack_dynamic_table_init; qe_max_table_size := 4096 |}
       example_fields).1 = Ok example_fields.
Proof.
  apply qpack_roundtrip.
  - apply (bool_decide_unpack _). vm_compute. exact I.
  - ground.
Defined.

(** Whatever the peer sends on its encoder stream, in deliveries below
    2 GiB, processing ends, the table keeps its accounting (its size is that of
    its entries and within its capacity), and the capacity stays what it was:
    the Set Dynamic Table Capacity instruction is never recognised. *)
Theorem qpack_encoder_stream (d : qpack_decoder) (data : bytes) :
  qtable_ok (qd_dynamic_table d) -> len data < 2 ^ 31 ->
  process_encoder_instructions d data <> Timeout /\
  (forall d', process_encoder_instructions d data = Ok d' ->
     qtable_ok (qd_dynamic_table d') /\
     qt_max_size (qd_dynamic_table d') = qt_max_size (qd_dynamic_table d)).
Proof.
  intros Ht Hl. unfold process_encoder_instructions.
  pose proof (process_loop_spec (length data) d data 0 Ht Hl) as H.
  destruct (process_loop _ _ _ _); (split; [done || (exfalso; apply H; unfold len; lia)|]);
    intros d' E; try done. injection E as <-. apply H. unfold len. lia.
Qed.

(** Insert [x-a: b], insert by static name [":path"], then a capacity of 0. *)
Definition example_instructions : bytes :=
  [x40; x03] ++ str "x-a" ++ [x01] ++ str "b" ++ [xe1; x02] ++ str "/q" ++ [x20].

Lemma qpack_encoder_stream_witness :
  exists d', process_encoder_instructions qpack_decoder_init example_instructions = Ok d' /\
    qt_entries (qd_dynamic_table d') = [(str ":path", str "/q"); (str "x-a", str "b")] /\
    qtable_ok (qd_dynamic_table d') /\ qt_max_size (qd_dynamic_table d') = 4096.
Proof.
  eexists. split; [vm_compute; reflexivity|]. split; [reflexivity|].
  apply (proj2 (qpack_encoder_stream qpack_decoder_init example_instructions
                  ltac:(ground) ltac:(ground))).
  vm_compute. reflexivity.
Defined.

(** A field section whose Required Insert Count fills it completely makes
    the decoder read the byte after its end; every other section is decoded in
    finitely many steps. *)
Theorem qpack_prefix_overread (d : qpack_decoder) (data : bytes) :
  qpack_decode d data <> Timeout /\
  (forall ric, 2 <= len data -> qpack_decode_int data 8 = Ok (len data, ric) ->
     qpack_decode d data = Undefined OutOfBounds).
Proof.
  split; [apply terminates_qpack_decode|]. intros ric Hl E. unfold qpack_decode.
  rewrite (proj2 (Z.ltb_ge _ 2)) by lia. rewrite E. cbn [mbind outcome_bind].
  rewrite (proj2 (Z.leb_gt _ 0)) by lia. unfold rd.
  rewrite (proj2 (Z.ltb_ge _ 0)) by lia. unfold len. rewrite Nat2Z.id, lookup_ge_None_2 by lia.
  done.
Qed.

Lemma qpack_prefix_overread_witness :
  qpack_decode qpack_decoder_init [xff; x00] = Undefined OutOfBounds.
Proof. apply (proj2 (qpack_prefix_overread qpack_decoder_init [xff; x00]) 255); ground. Defined.
