(* ===== verification/CppString.v ===== *)
(** * std::string and charconv, as the protocol code uses them

    [find], [rfind], [substr], [std::from_chars], [std::to_string] and
    [std::tolower] of the C locale.  Positions are [Z]; [npos] is [None].  The
    callers pass [substr] positions they have found in the string, so its
    [std::out_of_range] does not arise and [substr] is total. *)
From S2P Require Import Prelude.
From stdpp Require Import options.

Definition CR : byte := x0d.
Definition LF : byte := x0a.
Definition CRLF : bytes := [CR; LF].

(** [s.starts_with(pat)] *)
Fixpoint starts_with (pat s : bytes) : bool :=
  match pat, s with
  | [], _ => true
  | c :: pat, d :: s => bool_decide (c = d) && starts_with pat s
  | _ :: _, [] => false
  end.

Fixpoint find_pat (pat s : bytes) : option Z :=
  if starts_with pat s then Some 0 else
  match s with
  | [] => None
  | _ :: s => Z.succ <$> find_pat pat s
  end.

(** [s.find(pat, pos)] *)
Definition find (s pat : bytes) (pos : Z) : option Z :=
  if len s <? pos then None else Z.add pos <$> find_pat pat (dropZ pos s).

(** [s.find(c, pos)] *)
Definition find_char (s : bytes) (c : byte) (pos : Z) : option Z := find s [c] pos.

(** [s.rfind(c)] *)
Fixpoint rfind_char (s : bytes) (c : byte) : option Z :=
  match s with
  | [] => None
  | d :: s =>
      match rfind_char s c with
      | Some i => Some (Z.succ i)
      | None => if bool_decide (d = c) then Some 0 else None
      end
  end.

(** [s.substr(pos, n)] and [s.substr(pos)] *)
Definition substr (s : bytes) (pos n : Z) : bytes := takeZ n (dropZ pos s).
Definition substr_from (s : bytes) (pos : Z) : bytes := dropZ pos s.

(** [while (!s.empty() && p(s.back())) s.pop_back();] and its mirror image. *)
Fixpoint skip_leading (p : byte -> bool) (s : bytes) : bytes :=
  match s with
  | [] => []
  | c :: t => if p c then skip_leading p t else s
  end.

Definition strip_trailing (p : byte -> bool) (s : bytes) : bytes :=
  rev (skip_leading p (rev s)).

(** ** Characters *)

Definition is_blank (c : byte) : bool := bool_decide (c = x20) || bool_decide (c = x09).

Definition to_lower_char (c : byte) : byte :=
  if (0x41 <=? u8 c) && (u8 c <=? 0x5A) then b8 (u8 c + 0x20) else c.

Definition to_lower (s : bytes) : bytes := map to_lower_char s.

(** ** Numbers *)

(** The value of a digit in a base up to 36. *)
Definition digit_value (base : Z) (c : byte) : option Z :=
  let v := u8 c in
  let d :=
    if (0x30 <=? v) && (v <=? 0x39) then v - 0x30
    else if (0x61 <=? v) && (v <=? 0x7A) then v - 0x61 + 10
    else if (0x41 <=? v) && (v <=? 0x5A) then v - 0x41 + 10
    else base in
  if d <? base then Some d else None.

(** The number of leading digits and their value. *)
Fixpoint scan_digits (base : Z) (s : bytes) (n acc : Z) : Z * Z :=
  match s with
  | [] => (n, acc)
  | c :: s =>
      match digit_value base c with
      | Some d => scan_digits base s (n + 1) (acc * base + d)
      | None => (n, acc)
      end
  end.

Inductive errc := ErrNone (value : Z) | InvalidArgument | ResultOutOfRange.

(** [std::from_chars] into an integer type with bounds [lo] and [hi]; a sign is
    read when the type is signed. *)
Definition from_chars (base lo hi : Z) (s : bytes) : errc :=
  let '(neg, digits) :=
    match s with
    | c :: t => if bool_decide (c = x2d) && (lo <? 0) then (true, t) else (false, s)
    | [] => (false, s)
    end in
  let '(n, v) := scan_digits base digits 0 0 in
  if n =? 0 then InvalidArgument else
  let v := if neg : bool then - v else v in
  if (v <? lo) || (hi <? v) then ResultOutOfRange else ErrNone v.

(** The variable [init] after a call that ignores the error code. *)
Definition from_chars_value (base lo hi init : Z) (s : bytes) : Z :=
  match from_chars base lo hi s with ErrNone v => v | _ => init end.

Definition INT_MIN : Z := - 2 ^ 31.
Definition INT_MAX : Z := 2 ^ 31 - 1.
Definition INT64_MIN : Z := - 2 ^ 63.
Definition INT64_MAX : Z := 2 ^ 63 - 1.
Definition UINT64_MAX : Z := 2 ^ 64 - 1.

(** Decimal digits, least significant first; 20 of them hold a 64-bit value. *)
Fixpoint digits_rev (fuel : nat) (v : Z) : bytes :=
  match fuel with
  | O => []
  | S fuel =>
      b8 (0x30 + v mod 10) :: (if v / 10 =? 0 then [] else digits_rev fuel (v / 10))
  end.

(** [std::to_string] *)
Definition to_string (v : Z) : bytes :=
  if v <? 0 then x2d :: rev (digits_rev 20 (- v)) else rev (digits_rev 20 v).

(** ** Lemmas: letter case *)

Lemma to_lower_idem s : to_lower (to_lower s) = to_lower s.
Proof. unfold to_lower. rewrite map_map. apply map_ext. by intros []. Qed.

(** ** Lemmas: searching *)

Lemma starts_with_app pat s : starts_with pat (pat ++ s) = true.
Proof. induction pat as [|c pat IH]; cbn; [done|]. by rewrite bool_decide_eq_true_2. Qed.

Lemma starts_with_spec pat s : starts_with pat s = true -> exists t, s = pat ++ t.
Proof.
  revert s. induction pat as [|c pat IH]; intros [|d s]; cbn; try done; [by eexists..|].
  intros [Hc%bool_decide_eq_true_1 [t ->]%IH]%andb_prop. exists t. by subst.
Qed.

Lemma find_pat_found pat s n :
  find_pat pat s = Some n -> exists a b, s = a ++ pat ++ b /\ len a = n.
Proof.
  revert n. induction s as [|c s IH]; intros n; cbn [find_pat]; destruct (starts_with pat _) eqn:E.
  1, 3: intros [= <-]; apply starts_with_spec in E as [t E]; by exists [], t.
  - done.
  - destruct (find_pat pat s) as [m|]; [|done]. intros [= <-].
    destruct (IH m eq_refl) as (a & b & -> & <-). exists (c :: a), b. split; [done|]. blia.
Qed.

Lemma find_pat_bounds pat s n : find_pat pat s = Some n -> 0 <= n /\ n + len pat <= len s.
Proof. intros (a & b & -> & <-)%find_pat_found. blia. Qed.

Lemma starts_with_extend pat s t : starts_with pat s = true -> starts_with pat (s ++ t) = true.
Proof. intros [u ->]%starts_with_spec. rewrite <- app_assoc. apply starts_with_app. Qed.

(** A pattern that is found stays found where it is when the string grows. *)
Lemma find_pat_extend pat s t n : find_pat pat s = Some n -> find_pat pat (s ++ t) = Some n.
Proof.
  revert n. induction s as [|c s IH]; intros n; cbn [find_pat app].
  - destruct (starts_with pat []) eqn:E; [|done]. intros [= <-]. destruct pat; [|done].
    by destruct t.
  - destruct (starts_with pat (c :: s)) eqn:E.
    + intros [= <-]. change (c :: s ++ t) with ((c :: s) ++ t).
      by rewrite starts_with_extend.
    + destruct (find_pat pat s) as [m|] eqn:Em; [|done]. intros [= <-].
      destruct (starts_with pat (c :: s ++ t)) eqn:E'.
      * exfalso. apply find_pat_found in Em as (a & b & Es & _).
        apply starts_with_spec in E' as [u Eu].
        assert (starts_with pat (c :: s) = true); [|congruence].
        assert (length pat <= length (c :: s))%nat as Hl
          by (rewrite Es; cbn; rewrite !length_app; lia).
        assert (Hp : pat = take (length pat) (c :: s)).
        { rewrite <- (take_app_le (c :: s) t) by done. cbn [app]. rewrite Eu.
          by rewrite take_app_length. }
        rewrite Hp. rewrite <- (take_drop (length pat) (c :: s)) at 2. apply starts_with_app.
      * by rewrite (IH m).
Qed.

(** No match starts inside [l] when its bytes differ from the first one of the
    pattern. *)
Lemma find_pat_skip c pat l s :
  c ∉ l -> find_pat (c :: pat) (l ++ s) = Z.add (len l) <$> find_pat (c :: pat) s.
Proof.
  induction l as [|d l IH]; intros Hc; cbn [app].
  - destruct (find_pat _ s); done.
  - apply not_elem_of_cons in Hc as [Hd Hl]. cbn [find_pat starts_with].
    rewrite bool_decide_eq_false_2 by done. cbn [andb]. rewrite IH by done.
    destruct (find_pat (c :: pat) s) as [m|]; cbn; [|done]. f_equal. blia.
Qed.

Lemma find_pat_here pat s : find_pat pat (pat ++ s) = Some 0.
Proof.
  destruct (pat ++ s) eqn:E; cbn [find_pat]; rewrite <- E, starts_with_app; done.
Qed.

Lemma find_pat_first c pat l s :
  c ∉ l -> find_pat (c :: pat) (l ++ (c :: pat) ++ s) = Some (len l).
Proof.
  intros Hc. rewrite find_pat_skip by done. rewrite find_pat_here. cbn. f_equal. lia.
Qed.

Lemma find_pat_absent c pat l : c ∉ l -> find_pat (c :: pat) l = None.
Proof. intros Hc. rewrite <- (app_nil_r l), find_pat_skip by done. done. Qed.

(** A prefix that ends before the first match is complete has none. *)
Lemma find_pat_prefix pat p q n :
  find_pat pat (p ++ q) = Some n -> len p < n + len pat -> find_pat pat p = None.
Proof.
  intros E Hl. destruct (find_pat pat p) as [m|] eqn:Ep; [|done].
  pose proof (find_pat_bounds _ _ _ Ep). apply (find_pat_extend _ _ q) in Ep. rewrite E in Ep.
  injection Ep as ->. lia.
Qed.

Lemma find_0 s pat : find s pat 0 = find_pat pat s.
Proof.
  unfold find. rewrite (proj2 (Z.ltb_ge _ _)) by blia. rewrite dropZ_0.
  by destruct (find_pat pat s).
Qed.

Lemma find_starts s pat : starts_with pat s = true -> find s pat 0 = Some 0.
Proof.
  intros [u ->]%starts_with_spec. rewrite find_0. apply find_pat_here.
Qed.

Lemma find_at a s pat : find (a ++ s) pat (len a) = Z.add (len a) <$> find_pat pat s.
Proof. unfold find. rewrite (proj2 (Z.ltb_ge _ _)) by blia. by rewrite dropZ_app_len. Qed.

Lemma rfind_char_app c l s : c ∉ s -> rfind_char (l ++ c :: s) c = Some (len l).
Proof.
  intros Hc. induction l as [|d l IH]; cbn [app rfind_char].
  - assert (rfind_char s c = None) as ->.
    { induction s as [|d s IH]; [done|]. apply not_elem_of_cons in Hc as [? ?]. cbn.
      rewrite IH by done. by rewrite bool_decide_eq_false_2. }
    by rewrite bool_decide_eq_true_2.
  - rewrite IH. f_equal. blia.
Qed.

Lemma rfind_char_none c s : c ∉ s -> rfind_char s c = None.
Proof.
  induction s as [|d s IH]; [done|]. intros [? ?]%not_elem_of_cons. cbn.
  rewrite IH by done. by rewrite bool_decide_eq_false_2.
Qed.

Lemma skip_leading_none p s :
  (forall c, head s = Some c -> p c = false) -> skip_leading p s = s.
Proof. destruct s as [|c s]; [done|]. intros H. cbn. by rewrite H. Qed.

Lemma strip_trailing_none p s :
  (forall c, last s = Some c -> p c = false) -> strip_trailing p s = s.
Proof.
  intros H. unfold strip_trailing. rewrite skip_leading_none; [apply rev_involutive|].
  intros c Hc. apply H. rewrite rev_alt in Hc. change (rev_append s []) with (reverse s) in Hc.
  by rewrite head_reverse in Hc.
Qed.

(** ** Lemmas: numbers *)

Lemma digit_value_dec d : 0 <= d < 10 -> digit_value 10 (b8 (0x30 + d)) = Some d.
Proof.
  intros. unfold digit_value. rewrite u8_b8_small by lia.
  rewrite (proj2 (Z.leb_le _ _)), (proj2 (Z.leb_le _ 0x39)) by lia. cbn [andb].
  rewrite (proj2 (Z.ltb_lt _ _)) by lia. f_equal. lia.
Qed.

Lemma scan_digits_app base s t n acc :
  scan_digits base (s ++ t) n acc =
  let '(m, v) := scan_digits base s n acc in
  if m =? n + len s then scan_digits base t m v else (m, v).
Proof.
  revert n acc. induction s as [|c s IH]; intros n acc; cbn [app scan_digits].
  - rewrite len_nil, Z.add_0_r, Z.eqb_refl. done.
  - destruct (digit_value base c).
    + rewrite IH. destruct (scan_digits _ _ _ _) as [m v]. rewrite len_cons.
      by replace (n + 1 + len s) with (n + (1 + len s)) by lia.
    + rewrite (proj2 (Z.eqb_neq n _)) by blia. done.
Qed.

Lemma scan_digits_rev fuel v n :
  0 <= v < 10 ^ Z.of_nat fuel -> (0 < fuel)%nat ->
  exists m, scan_digits 10 (rev (digits_rev fuel v)) n 0 = (m, v) /\
    m = n + len (digits_rev fuel v) /\ 0 < len (digits_rev fuel v).
Proof.
  revert v n. induction fuel as [|fuel IH]; intros v n Hv Hf; [lia|]. cbn [digits_rev rev].
  destruct (Z.eqb_spec (v / 10) 0) as [E|E].
  - cbn [rev app scan_digits]. rewrite digit_value_dec by lia.
    eexists; split; [f_equal; lia|]. blia.
  - rewrite Nat2Z.inj_succ, Z.pow_succ_r in Hv by lia.
    destruct (IH (v / 10) n) as (m & Hm & -> & Hp).
    { split; [lia|]. apply Z.div_lt_upper_bound; lia. }
    { destruct fuel; [cbn in Hv; lia|lia]. }
    rewrite scan_digits_app, Hm.
    assert (len (rev (digits_rev fuel (v / 10))) = len (digits_rev fuel (v / 10))) as Hlr
      by (unfold len; by rewrite length_rev).
    rewrite Hlr, Z.eqb_refl. cbn [scan_digits]. rewrite digit_value_dec by lia.
    eexists; split; [f_equal; lia|]. blia.
Qed.

(** Non-negative numbers survive [to_string] and [from_chars]. *)
Lemma from_chars_to_string lo hi v :
  lo <= 0 -> 0 <= v <= hi -> v < 2 ^ 64 -> from_chars 10 lo hi (to_string v) = ErrNone v.
Proof.
  intros Hlo Hv Hlt. unfold to_string. rewrite (proj2 (Z.ltb_ge v 0)) by lia.
  destruct (scan_digits_rev 20 v 0) as (m & Hm & Em & Hp); [lia..|].
  set (ds := rev (digits_rev 20 v)) in *. unfold from_chars.
  assert (Hd : match ds with
               | c :: t => if bool_decide (c = x2d) && (lo <? 0) then (true, t) else (false, ds)
               | [] => (false, ds)
               end = (false, ds)).
  { destruct ds as [|c t]; [done|]. rewrite bool_decide_eq_false_2; [done|]. intros ->.
    cbn in Hm. injection Hm as <- <-. lia. }
  rewrite Hd, Hm. rewrite (proj2 (Z.eqb_neq m 0)) by lia.
  rewrite (proj2 (Z.ltb_ge v lo)), (proj2 (Z.ltb_ge hi v)) by lia. done.
Qed.

Lemma digits_rev_length fuel v : (length (digits_rev fuel v) <= fuel)%nat.
Proof.
  revert v. induction fuel as [|fuel IH]; intros v; cbn; [done|]. specialize (IH (v / 10)).
  destruct (_ =? 0); cbn; lia.
Qed.

Lemma digits_rev_digits fuel v c : c ∈ digits_rev fuel v -> 0x30 <= u8 c <= 0x39.
Proof.
  revert v. induction fuel as [|fuel IH]; intros v; cbn [digits_rev].
  { by intros ?%not_elem_of_nil. }
  intros [->|Hc]%elem_of_cons.
  - rewrite u8_b8_small by lia. lia.
  - destruct (_ =? 0); [by apply not_elem_of_nil in Hc|by apply IH in Hc].
Qed.

Lemma to_string_digits v c : 0 <= v -> c ∈ to_string v -> 0x30 <= u8 c <= 0x39.
Proof.
  intros Hv. unfold to_string. rewrite (proj2 (Z.ltb_ge v 0)) by lia.
  rewrite list_elem_of_In, <- in_rev, <- list_elem_of_In. apply digits_rev_digits.
Qed.

(** [std::from_chars] stops before anything that is not a digit. *)
Lemma from_chars_stop lo hi v c s :
  lo <= 0 -> 0 <= v <= hi -> v < 2 ^ 64 -> digit_value 10 c = None ->
  from_chars 10 lo hi (to_string v ++ c :: s) = ErrNone v.
Proof.
  intros Hlo Hv Hlt Hc. unfold to_string. rewrite (proj2 (Z.ltb_ge v 0)) by lia.
  destruct (scan_digits_rev 20 v 0) as (m & Hm & Em & Hp); [lia..|].
  set (ds := rev (digits_rev 20 v)) in *. unfold from_chars.
  assert (len ds = len (digits_rev 20 v)) as Hl by (unfold ds, len; by rewrite length_rev).
  assert (Hs : scan_digits 10 (ds ++ c :: s) 0 0 = (m, v)).
  { rewrite scan_digits_app, Hm. rewrite (proj2 (Z.eqb_eq m _)) by lia. cbn. by rewrite Hc. }
  destruct ds as [|d t] eqn:Ed; [rewrite len_nil in Hl; lia|]. cbn [app] in *.
  rewrite bool_decide_eq_false_2.
  2: { intros ->. cbn in Hm. injection Hm as <- <-. lia. }
  cbn [andb]. rewrite Hs. rewrite (proj2 (Z.eqb_neq m 0)) by lia.
  rewrite (proj2 (Z.ltb_ge v lo)), (proj2 (Z.ltb_ge hi v)) by lia. done.
Qed.
