(* ===== verification/CppMap.v ===== *)
(** * std::map

    An association list in the order of its keys, which is the order in which
    the code iterates.  [KeyOrder] is the comparison of a key type; [std::string]
    compares as unsigned bytes, from the left. *)
From S2P Require Import Prelude.
From stdpp Require Import options.

Class KeyOrder (K : Type) `{EqDecision K} := {
  key_lt : K -> K -> bool;
  key_lt_irrefl a : key_lt a a = false;
  key_lt_trans a b c : key_lt a b = true -> key_lt b c = true -> key_lt a c = true;
  key_lt_total a b : a <> b -> key_lt a b = true \/ key_lt b a = true
}.

(** ** Orders of keys *)

#[export] Instance z_order : KeyOrder Z.
Proof.
  refine {| key_lt := Z.ltb |}.
  - intros a. apply Z.ltb_irrefl.
  - intros a b c. rewrite !Z.ltb_lt. lia.
  - intros a b. rewrite !Z.ltb_lt. lia.
Defined.

Fixpoint bytes_lt (a b : bytes) : bool :=
  match a, b with
  | _, [] => false
  | [], _ :: _ => true
  | c :: a, d :: b => (u8 c <? u8 d) || (bool_decide (c = d) && bytes_lt a b)
  end.

Lemma bytes_lt_irrefl a : bytes_lt a a = false.
Proof. induction a as [|c a IH]; cbn; [done|]. by rewrite Z.ltb_irrefl, IH, andb_false_r. Qed.

Lemma bytes_lt_cons c a d b :
  bytes_lt (c :: a) (d :: b) = true <-> u8 c < u8 d \/ (c = d /\ bytes_lt a b = true).
Proof.
  cbn. rewrite orb_true_iff, andb_true_iff, Z.ltb_lt, bool_decide_eq_true. done.
Qed.

Lemma bytes_lt_trans a b c : bytes_lt a b = true -> bytes_lt b c = true -> bytes_lt a c = true.
Proof.
  revert b c. induction a as [|x a IH]; intros [|y b] [|z c]; try done.
  rewrite !bytes_lt_cons. intros [H1|[-> H1]] [H2|[-> H2]]; [left; lia|by left|by left|].
  right. split; [done|by eapply IH].
Qed.

Lemma bytes_lt_total a b : a <> b -> bytes_lt a b = true \/ bytes_lt b a = true.
Proof.
  revert b. induction a as [|x a IH]; intros [|y b] Hne; [done|by left|by right|].
  rewrite !bytes_lt_cons. destruct (Z.lt_trichotomy (u8 x) (u8 y)) as [H|[H|H]]; [auto| |auto].
  apply u8_inj in H as ->. destruct (IH b) as [H|H]; [congruence|auto|auto].
Qed.

#[export] Instance bytes_order : KeyOrder bytes := {|
  key_lt := bytes_lt;
  key_lt_irrefl := bytes_lt_irrefl;
  key_lt_trans := bytes_lt_trans;
  key_lt_total := bytes_lt_total
|}.

(** ** Operations *)

Section Map.
Context `{KeyOrder K} {V : Type}.
Implicit Types (m : list (K * V)) (k : K) (v : V).

(** [m.find(k)] *)
Fixpoint map_find k m : option V :=
  match m with
  | [] => None
  | (j, v) :: m => if decide (k = j) then Some v else map_find k m
  end.

(** [m[k] = v] *)
Fixpoint map_set k v m : list (K * V) :=
  match m with
  | [] => [(k, v)]
  | (j, w) :: m =>
      if decide (k = j) then (j, v) :: m
      else if key_lt k j then (k, v) :: (j, w) :: m
      else (j, w) :: map_set k v m
  end.

(** [m.erase(k)] *)
Fixpoint map_erase k m : list (K * V) :=
  match m with
  | [] => []
  | (j, w) :: m => if decide (k = j) then m else (j, w) :: map_erase k m
  end.

(** The loop that erases the entries for which [p] holds. *)
Definition map_erase_if (p : K -> V -> bool) m : list (K * V) :=
  List.filter (fun kv => negb (p kv.1 kv.2)) m.

(** The values, modified in place. *)
Definition map_update (f : V -> V) m : list (K * V) := map (fun kv => (kv.1, f kv.2)) m.

(** [k] is below every key of [m]. *)
Definition below k m : Prop := Forall (fun kv => key_lt k kv.1 = true) m.

Fixpoint in_order m : Prop :=
  match m with
  | [] => True
  | (k, v) :: m => below k m /\ in_order m
  end.

(** ** Laws *)

Lemma below_trans k j m : key_lt k j = true -> below j m -> below k m.
Proof. intros Hk Hj. eapply Forall_impl; [exact Hj|]. intros kv. by apply key_lt_trans. Qed.

Lemma below_find k m : below k m -> map_find k m = None.
Proof.
  induction 1 as [|[j v] m Hj _ IH]; cbn; [done|]. destruct (decide (k = j)) as [->|]; [|done].
  cbn in Hj. by rewrite key_lt_irrefl in Hj.
Qed.

Lemma find_set_eq k v m : map_find k (map_set k v m) = Some v.
Proof.
  induction m as [|[j w] m IH]; cbn; [by rewrite decide_True|].
  destruct (decide (k = j)) as [->|]; cbn; [by rewrite decide_True|].
  destruct (key_lt k j); cbn; [by rewrite decide_True|]. by rewrite decide_False.
Qed.

Lemma find_set_ne k i v m : i <> k -> map_find i (map_set k v m) = map_find i m.
Proof.
  intros Hi. induction m as [|[j w] m IH]; cbn; [by rewrite decide_False|].
  destruct (decide (k = j)) as [->|]; cbn; [by rewrite !(decide_False (P := i = j))|].
  destruct (key_lt k j); cbn; [by rewrite decide_False|]. by destruct (decide (i = j)).
Qed.

Lemma find_erase_eq k m : in_order m -> map_find k (map_erase k m) = None.
Proof.
  induction m as [|[j w] m IH]; cbn; [done|]. intros [Hb Ho].
  destruct (decide (k = j)) as [->|]; cbn; [by apply below_find|]. rewrite decide_False by done. auto.
Qed.

Lemma find_erase_ne k i m : i <> k -> map_find i (map_erase k m) = map_find i m.
Proof.
  intros Hi. induction m as [|[j w] m IH]; cbn; [done|].
  destruct (decide (k = j)) as [->|]; cbn; [by rewrite decide_False|]. by destruct (decide (i = j)).
Qed.

Lemma forall_set (P : K * V -> Prop) k v m : P (k, v) -> Forall P m -> Forall P (map_set k v m).
Proof.
  intros Hk. induction 1 as [|[j w] m Hj Hm IH]; cbn; [by constructor|].
  destruct (decide (k = j)) as [->|]; [by constructor|]. destruct (key_lt k j); by repeat constructor.
Qed.

Lemma forall_erase (P : K * V -> Prop) k m : Forall P m -> Forall P (map_erase k m).
Proof.
  induction 1 as [|[j w] m Hj Hm IH]; cbn; [by constructor|]. destruct (decide (k = j)); auto.
Qed.

Lemma forall_filter (P : K * V -> Prop) (p : K * V -> bool) m :
  Forall P m -> Forall P (List.filter p m).
Proof.
  induction 1 as [|e m He _ IH]; cbn; [constructor|]. destruct (p e); by try constructor.
Qed.

Lemma forall_update (P : K * V -> Prop) (f : V -> V) m :
  (forall k v, P (k, v) -> P (k, f v)) -> Forall P m -> Forall P (map_update f m).
Proof. intros Hf. induction 1 as [|[j w] m Hj _ IH]; cbn; constructor; auto. Qed.

Lemma order_set k v m : in_order m -> in_order (map_set k v m).
Proof.
  induction m as [|[j w] m IH]; cbn; [intros _; by repeat constructor|]. intros [Hb Ho].
  destruct (decide (k = j)) as [->|Hne]; [by split|]. destruct (key_lt k j) eqn:Ek; cbn.
  - split; [|by split]. constructor; [done|]. by eapply below_trans.
  - destruct (key_lt_total k j Hne) as [Hk|Hk]; [congruence|].
    split; [|auto]. by apply forall_set.
Qed.

Lemma order_erase k m : in_order m -> in_order (map_erase k m).
Proof.
  induction m as [|[j w] m IH]; cbn; [done|]. intros [Hb Ho].
  destruct (decide (k = j)); cbn; [done|]. split; [by apply forall_erase|auto].
Qed.

Lemma order_filter (p : K * V -> bool) m : in_order m -> in_order (List.filter p m).
Proof.
  induction m as [|[j w] m IH]; cbn; [done|]. intros [Hb Ho]. destruct (p (j, w)); [|auto].
  split; [by apply forall_filter|auto].
Qed.

Lemma order_update (f : V -> V) m : in_order m -> in_order (map_update f m).
Proof.
  induction m as [|[j w] m IH]; cbn; [done|]. intros [Hb Ho]. split; [|auto].
  induction Hb as [|[i u] m Hi _ IHb]; cbn in *; constructor; [done|]. apply IHb; [intros; by apply IH|apply Ho].
Qed.

Lemma find_update (f : V -> V) k m : map_find k (map_update f m) = f <$> map_find k m.
Proof. induction m as [|[j w] m IH]; cbn; [done|]. by destruct (decide (k = j)). Qed.

Lemma find_In k v m : map_find k m = Some v -> In (k, v) m.
Proof.
  induction m as [|[j w] m IH]; cbn; [done|]. destruct (decide (k = j)) as [->|]; [|auto].
  intros [= ->]. by left.
Qed.

Lemma In_find k v m : in_order m -> In (k, v) m -> map_find k m = Some v.
Proof.
  induction m as [|[j w] m IH]; cbn; [done|]. intros [Hb Ho] [[= -> ->]|Hin]; [by rewrite decide_True|].
  rewrite decide_False; [auto|]. intros ->. unfold below in Hb. rewrite List.Forall_forall in Hb.
  specialize (Hb _ Hin). cbn in Hb. by rewrite key_lt_irrefl in Hb.
Qed.

Lemma find_filter (p : K * V -> bool) k m :
  in_order m ->
  map_find k (List.filter p m) = (v ← map_find k m; if p (k, v) then Some v else None).
Proof.
  induction m as [|[j w] m IH]; cbn; [done|]. intros [Hb Ho]. destruct (p (j, w)) eqn:Ep; cbn.
  - destruct (decide (k = j)) as [->|]; [cbn; by rewrite Ep|auto].
  - destruct (decide (k = j)) as [->|]; [|auto]. cbn. rewrite Ep. rewrite IH by done.
    by rewrite below_find.
Qed.
End Map.
