(* ===== verification/CppStream.v ===== *)
(** * std::istringstream, std::stoi

    [>>] on a stream over a string: [None] is a stream whose last extraction has
    failed, and on which every further one fails; an extraction that reaches the
    end leaves an empty rest, on which the next one fails too. *)
From S2P Require Import Prelude CppString.
From stdpp Require Import options.

(** [std::isspace] of the C locale. *)
Definition is_space (c : byte) : bool := (u8 c =? 0x20) || ((0x09 <=? u8 c) && (u8 c <=? 0x0D)).

Definition istream : Type := option bytes.

Definition istringstream (s : bytes) : istream := Some s.

Fixpoint take_word (s : bytes) : bytes * bytes :=
  match s with
  | [] => ([], [])
  | c :: t => if is_space c then ([], s) else let '(w, rest) := take_word t in (c :: w, rest)
  end.

(** [i >> w] for a string variable that holds [old]. *)
Definition extract_word (i : istream) (old : bytes) : bytes * istream :=
  match i with
  | None => (old, None)
  | Some s =>
      match skip_leading is_space s with
      | [] => (old, None)
      | s => let '(w, rest) := take_word s in (w, Some rest)
      end
  end.

(** The sign that numbers may start with. *)
Definition take_sign (s : bytes) : bool * bytes :=
  match s with
  | x2d :: t => (true, t)
  | x2b :: t => (false, t)
  | _ => (false, s)
  end.

(** [i >> n] for an unsigned integer variable below [hi + 1] that holds [old]:
    without digits it becomes 0, beyond the range [hi], and the extraction
    fails; a negative number wraps. *)
Definition extract_unsigned (hi : Z) (i : istream) (old : Z) : Z * istream :=
  match i with
  | None => (old, None)
  | Some s =>
      match skip_leading is_space s with
      | [] => (old, None)
      | s =>
          let '(neg, s) := take_sign s in
          let '(n, v) := scan_digits 10 s 0 0 in
          if n =? 0 then (0, None)
          else if hi <? v then (hi, None)
          else (if neg then (- v) mod (hi + 1) else v, Some (dropZ n s))
      end
  end.

Definition extract_u16 : istream -> Z -> Z * istream := extract_unsigned 65535.

(** [std::stoi] *)
Definition stoi (s : bytes) : outcome Z :=
  let '(neg, s) := take_sign (skip_leading is_space s) in
  let '(n, v) := scan_digits 10 s 0 0 in
  if n =? 0 then Throws BadArgument
  else
    let v := if neg then - v else v in
    if (v <? INT_MIN) || (INT_MAX <? v) then Throws OutOfRange else Ok v.

(** ** Words *)

Definition is_word (w : bytes) : Prop := w <> [] /\ Forall (fun c => is_space c = false) w.

#[export] Instance is_word_dec w : Decision (is_word w).
Proof. unfold is_word. apply _. Defined.

Lemma skip_spaces_word w s : is_word w -> skip_leading is_space (w ++ s) = w ++ s.
Proof. intros [Hne Hw]. destruct Hw as [|c w Hc Hw]; [done|]. cbn. by rewrite Hc. Qed.

Lemma take_word_app w s :
  Forall (fun c => is_space c = false) w -> take_word (w ++ x20 :: s) = (w, x20 :: s).
Proof. induction 1 as [|c w Hc _ IH]; cbn; [done|]. by rewrite Hc, IH. Qed.

Lemma take_word_all w : Forall (fun c => is_space c = false) w -> take_word w = (w, []).
Proof. induction 1 as [|c w Hc _ IH]; cbn; [done|]. by rewrite Hc, IH. Qed.

(** A word and the blank after it; the blank stays. *)
Lemma extract_word_app w s old :
  is_word w -> extract_word (Some (w ++ x20 :: s)) old = (w, Some (x20 :: s)).
Proof.
  intros Hw. unfold extract_word. rewrite skip_spaces_word by done.
  destruct (w ++ x20 :: s) as [|c t] eqn:E; [by destruct w|]. rewrite <- E.
  by rewrite take_word_app by apply Hw.
Qed.

Lemma extract_word_end w old : is_word w -> extract_word (Some w) old = (w, Some []).
Proof.
  intros Hw. unfold extract_word. rewrite <- (app_nil_r w), skip_spaces_word by done.
  rewrite app_nil_r. destruct Hw as [Hne Hw]. destruct w as [|c t] eqn:E; [done|]. rewrite <- E in *.
  by rewrite take_word_all.
Qed.

Lemma extract_word_blank s old : extract_word (Some (x20 :: s)) old = extract_word (Some s) old.
Proof. done. Qed.

Lemma extract_unsigned_blank hi s old :
  extract_unsigned hi (Some (x20 :: s)) old = extract_unsigned hi (Some s) old.
Proof. done. Qed.

(** Words that the extraction finds. *)
Lemma skip_spaces_first s c t : skip_leading is_space s = c :: t -> is_space c = false.
Proof.
  induction s as [|d s IH]; cbn; [done|]. destruct (is_space d) eqn:Ed; [auto|]. by intros [= <- <-].
Qed.

Lemma take_word_word s : Forall (fun c => is_space c = false) (take_word s).1.
Proof.
  induction s as [|c s IH]; cbn; [constructor|]. destruct (is_space c) eqn:Ec; [constructor|].
  destruct (take_word s) as [w rest]. by constructor.
Qed.

Lemma take_word_len s : len (take_word s).1 <= len s.
Proof.
  induction s as [|c s IH]; cbn [take_word]; [done|]. destruct (is_space c); cbn [fst]; [blia|].
  destruct (take_word s) as [w rest]. cbn [fst] in *. blia.
Qed.

Lemma skip_leading_len p s : len (skip_leading p s) <= len s.
Proof. induction s as [|c s IH]; cbn; [done|]. destruct (p c); blia. Qed.

Lemma extract_word_spec i w i' :
  extract_word i [] = (w, i') ->
  w = [] \/ is_word w /\ exists s, i = Some s /\ len w <= len s.
Proof.
  unfold extract_word. destruct i as [s|]; [|intros [= <- <-]; by left].
  destruct (skip_leading is_space s) as [|c t] eqn:Es; [intros [= <- <-]; by left|].
  pose proof (skip_spaces_first _ _ _ Es) as Hc. pose proof (skip_leading_len is_space s) as Hl.
  rewrite Es in Hl. pose proof (take_word_word (c :: t)) as Hw. pose proof (take_word_len (c :: t)) as Hwl.
  assert (Hne : (take_word (c :: t)).1 <> []).
  { cbn [take_word]. rewrite Hc. by destruct (take_word t). }
  destruct (take_word (c :: t)) as [w' rest]. cbn [fst] in *. intros [= <- <-].
  right. split; [by split|]. exists s. split; [done|lia].
Qed.

(** Numbers *)
Lemma scan_digits_bound s n acc : 0 <= acc -> 0 <= n -> n <= (scan_digits 10 s n acc).1 /\ 0 <= (scan_digits 10 s n acc).2.
Proof.
  revert n acc. induction s as [|c s IH]; intros n acc Ha Hn; cbn [scan_digits]; [cbn; lia|].
  destruct (digit_value 10 c) as [d|] eqn:Ed; [|cbn; lia].
  assert (0 <= d).
  { unfold digit_value in Ed. repeat case_match; simplify_eq; lia. }
  specialize (IH (n + 1) (acc * 10 + d)). lia.
Qed.

Lemma extract_unsigned_bounds hi i old v i' :
  0 <= hi -> 0 <= old <= hi -> extract_unsigned hi i old = (v, i') -> 0 <= v <= hi.
Proof.
  intros Hhi Hold. unfold extract_unsigned. destruct i as [s|]; [|by intros [= <- <-]].
  destruct (skip_leading is_space s) as [|c t]; [by intros [= <- <-]|].
  destruct (take_sign (c :: t)) as [neg u].
  pose proof (scan_digits_bound u 0 0) as Hb. destruct (scan_digits 10 u 0 0) as [n x]. cbn [fst snd] in Hb.
  destruct (_ =? 0); [intros [= <- <-]; lia|]. destruct (Z.ltb_spec hi x); intros [= <- <-]; [lia|].
  destruct neg; lia.
Qed.

Lemma to_string_scan v s :
  0 <= v < 2 ^ 64 -> (forall c t, s = c :: t -> digit_value 10 c = None) ->
  scan_digits 10 (to_string v ++ s) 0 0 = (len (to_string v), v) /\ 0 < len (to_string v).
Proof.
  intros Hv Hs. unfold to_string. rewrite (proj2 (Z.ltb_ge v 0)) by lia.
  destruct (scan_digits_rev 20 v 0) as (m & Hm & Em & Hp); [lia..|].
  assert (Hl : len (rev (digits_rev 20 v)) = len (digits_rev 20 v)) by (unfold len; by rewrite length_rev).
  rewrite Hl. split; [|done]. rewrite scan_digits_app, Hm, Hl, Em, Z.add_0_l, Z.eqb_refl.
  destruct s as [|c t]; [done|]. cbn. by rewrite (Hs c t).
Qed.

Lemma to_string_head v : 0 <= v < 2 ^ 64 ->
  exists c t, to_string v = c :: t /\ is_space c = false /\ take_sign (to_string v) = (false, to_string v).
Proof.
  intros Hv. destruct (to_string_scan v [] Hv) as [_ Hp]; [done|].
  pose proof (fun c => to_string_digits v c (proj1 Hv)) as Hd.
  destruct (to_string v) as [|c t]; [blia|]. exists c, t. split; [done|].
  specialize (Hd c ltac:(by left)). split.
  - unfold is_space. rewrite (proj2 (Z.eqb_neq _ _)), (proj2 (Z.leb_gt (u8 c) 0x0D)) by lia.
    by rewrite andb_false_r.
  - unfold take_sign. by destruct c; try done; exfalso; vm_compute in Hd; destruct Hd; congruence.
Qed.

Lemma extract_unsigned_to_string hi v old :
  0 <= v <= hi -> hi < 2 ^ 64 -> extract_unsigned hi (Some (to_string v)) old = (v, Some []).
Proof.
  intros Hv Hhi. destruct (to_string_head v ltac:(lia)) as (c & t & Ht & Hc & Hsign).
  destruct (to_string_scan v [] ltac:(lia)) as [Hscan Hp]; [done|]. rewrite app_nil_r in Hscan.
  unfold extract_unsigned. assert (Hskip : skip_leading is_space (to_string v) = to_string v).
  { rewrite Ht. cbn. by rewrite Hc. }
  rewrite Hskip. rewrite Ht at 1. rewrite <- Ht, Hsign, Hscan. 
  rewrite (proj2 (Z.eqb_neq _ 0)), (proj2 (Z.ltb_ge hi v)) by lia. by rewrite dropZ_all.
Qed.

Lemma stoi_to_string v : 0 <= v <= INT_MAX -> stoi (to_string v) = Ok v.
Proof.
  intros Hv. unfold INT_MAX in Hv. destruct (to_string_head v ltac:(lia)) as (c & t & Ht & Hc & Hsign).
  destruct (to_string_scan v [] ltac:(lia)) as [Hscan Hp]; [done|]. rewrite app_nil_r in Hscan.
  unfold stoi. assert (Hskip : skip_leading is_space (to_string v) = to_string v).
  { rewrite Ht. cbn. by rewrite Hc. }
  rewrite Hskip, Hsign, Hscan. rewrite (proj2 (Z.eqb_neq _ 0)) by lia.
  unfold INT_MIN, INT_MAX. by rewrite (proj2 (Z.ltb_ge v _)), (proj2 (Z.ltb_ge _ v)) by lia.
Qed.
