(* ===== verification/HttpTypes.v ===== *)
(** * HTTP messages (src/include/async_net/http/types.hpp)

    Methods, versions, status codes, URIs, the case-insensitive ordered header
    container, bodies, requests, responses and their builders.  A [headers]
    object is its [entries_]; a [body] is its [data_]. *)
From S2P Require Import Prelude HeaderTable CppString.
From stdpp Require Import options.

(** ** Method *)
Inductive method := GET | HEAD | POST | PUT | DELETE_ | PATCH | OPTIONS | TRACE | CONNECT.

#[export] Instance method_eq_dec : EqDecision method.
Proof. solve_decision. Defined.

Definition method_to_string (m : method) : bytes :=
  match m with
  | GET => str "GET" | HEAD => str "HEAD" | POST => str "POST" | PUT => str "PUT"
  | DELETE_ => str "DELETE" | PATCH => str "PATCH" | OPTIONS => str "OPTIONS"
  | TRACE => str "TRACE" | CONNECT => str "CONNECT"
  end.

Definition parse_method (s : bytes) : option method :=
  if bool_decide (s = str "GET") then Some GET
  else if bool_decide (s = str "HEAD") then Some HEAD
  else if bool_decide (s = str "POST") then Some POST
  else if bool_decide (s = str "PUT") then Some PUT
  else if bool_decide (s = str "DELETE") then Some DELETE_
  else if bool_decide (s = str "PATCH") then Some PATCH
  else if bool_decide (s = str "OPTIONS") then Some OPTIONS
  else if bool_decide (s = str "TRACE") then Some TRACE
  else if bool_decide (s = str "CONNECT") then Some CONNECT
  else None.

(** ** Version *)
Inductive version := HTTP_10 | HTTP_11 | HTTP_2 | HTTP_3.

#[export] Instance version_eq_dec : EqDecision version.
Proof. solve_decision. Defined.

Definition version_to_string (v : version) : bytes :=
  match v with
  | HTTP_10 => str "HTTP/1.0" | HTTP_11 => str "HTTP/1.1"
  | HTTP_2 => str "HTTP/2" | HTTP_3 => str "HTTP/3"
  end.

(** ** Status codes: the [int] they hold *)
Definition status_code : Type := Z.

Definition is_success (code : status_code) : bool := (200 <=? code) && (code <? 300).
Definition is_redirect (code : status_code) : bool := (300 <=? code) && (code <? 400).
Definition is_client_error (code : status_code) : bool := (400 <=? code) && (code <? 500).
Definition is_server_error (code : status_code) : bool := (500 <=? code) && (code <? 600).

Definition reason_phrase (code : status_code) : bytes :=
  if code =? 100 then str "Continue"
  else if code =? 200 then str "OK"
  else if code =? 201 then str "Created"
  else if code =? 204 then str "No Content"
  else if code =? 301 then str "Moved Permanently"
  else if code =? 302 then str "Found"
  else if code =? 304 then str "Not Modified"
  else if code =? 400 then str "Bad Request"
  else if code =? 401 then str "Unauthorized"
  else if code =? 403 then str "Forbidden"
  else if code =? 404 then str "Not Found"
  else if code =? 405 then str "Method Not Allowed"
  else if code =? 408 then str "Request Timeout"
  else if code =? 413 then str "Payload Too Large"
  else if code =? 500 then str "Internal Server Error"
  else if code =? 502 then str "Bad Gateway"
  else if code =? 503 then str "Service Unavailable"
  else str "Unknown".

(** ** URI *)
Record uri := {
  raw_ : bytes;
  scheme_ : bytes;
  host_ : bytes;
  port_ : Z;
  path_ : bytes;
  query_ : bytes;
  fragment_ : bytes
}.

Definition uri_default : uri :=
  {| raw_ := []; scheme_ := str "http"; host_ := []; port_ := 80; path_ := str "/";
     query_ := []; fragment_ := [] |}.

(** [uri::parse]; a query or fragment that is absent leaves the old one. *)
Definition uri_parse (u : uri) (url : bytes) : uri :=
  let '(scheme, rest) :=
    match find url (str "://") 0 with
    | Some pos => (substr url 0 pos, substr_from url (pos + 3))
    | None => (str "http", url)
    end in
  let '(authority, rest) :=
    match find_char rest x2f 0 with
    | Some pos => (substr rest 0 pos, substr_from rest pos)
    | None => (rest, str "/")
    end in
  let '(host, port) :=
    match rfind_char authority x3a with
    | Some colon =>
        let port_str := substr_from authority (colon + 1) in
        (substr authority 0 colon, u16 (from_chars_value 10 INT_MIN INT_MAX 0 port_str))
    | None =>
        (authority, if bool_decide (scheme = str "https") || bool_decide (scheme = str "h3")
                    then 443 else 80)
    end in
  let '(fragment, path_query) :=
    match find_char rest x23 0 with
    | Some pos => (substr_from rest (pos + 1), substr rest 0 pos)
    | None => (fragment_ u, rest)
    end in
  let '(query, path) :=
    match find_char path_query x3f 0 with
    | Some pos => (substr_from path_query (pos + 1), substr path_query 0 pos)
    | None => (query_ u, path_query)
    end in
  {| raw_ := url; scheme_ := scheme; host_ := host; port_ := port;
     path_ := if bool_decide (path = []) then str "/" else path;
     query_ := query; fragment_ := fragment |}.

Definition uri_make (url : bytes) : uri := uri_parse uri_default url.

Definition is_https (u : uri) : bool := bool_decide (scheme_ u = str "https").

Definition authority (u : uri) : bytes := host_ u ++ [x3a] ++ to_string (port_ u).

(** ** Headers *)
Abbreviation headers := (list header).

(** The comparison of the names of two entries. *)
Definition same_name (a b : bytes) : bool := bool_decide (to_lower a = to_lower b).

Definition headers_remove (h : headers) (name : bytes) : headers :=
  filter (fun e => negb (same_name e.1 name)) h.

Definition headers_set (h : headers) (name value : bytes) : headers :=
  headers_remove h name ++ [(name, value)].

Definition headers_append (h : headers) (name value : bytes) : headers := h ++ [(name, value)].

Fixpoint headers_get (h : headers) (name : bytes) : option bytes :=
  match h with
  | [] => None
  | (k, v) :: h => if same_name k name then Some v else headers_get h name
  end.

Fixpoint headers_get_all (h : headers) (name : bytes) : list bytes :=
  match h with
  | [] => []
  | (k, v) :: h =>
      if same_name k name then v :: headers_get_all h name else headers_get_all h name
  end.

Definition headers_contains (h : headers) (name : bytes) : bool :=
  match headers_get h name with Some _ => true | None => false end.

Definition content_length (h : headers) : option Z :=
  match headers_get h (str "Content-Length") with
  | None => None
  | Some val =>
      let len := from_chars_value 10 INT64_MIN INT64_MAX (-1) val in
      if 0 <=? len then Some len else None
  end.

Definition is_chunked (h : headers) : bool :=
  match headers_get h (str "Transfer-Encoding") with
  | None => false
  | Some val => match find (to_lower val) (str "chunked") 0 with Some _ => true | None => false end
  end.

Definition is_keep_alive (h : headers) : bool :=
  match headers_get h (str "Connection") with
  | None => true
  | Some val => bool_decide (to_lower val = str "keep-alive")
  end.

(** [k + ": " + v + "\r\n"] *)
Definition header_line (e : header) : bytes := e.1 ++ str ": " ++ e.2 ++ CRLF.

Definition headers_serialize (h : headers) : bytes := concat (map header_line h).

(** ** Requests *)
Record request := {
  rq_method : method;
  rq_path : bytes;
  rq_query : bytes;
  rq_ver : version;
  rq_hdrs : headers;
  rq_bd : bytes
}.

Definition request_default : request :=
  {| rq_method := GET; rq_path := str "/"; rq_query := []; rq_ver := HTTP_11;
     rq_hdrs := []; rq_bd := [] |}.

Definition query_param (r : request) (key : bytes) : bytes :=
  match find (rq_query r) (key ++ [x3d]) 0 with
  | None => []
  | Some p =>
      let p := p + len key + 1 in
      match find_char (rq_query r) x26 p with
      | None => substr_from (rq_query r) p
      | Some e => substr (rq_query r) p (e - p)
      end
  end.

(** [request_builder::build] on the request built so far. *)
Definition request_build (r : request) : request :=
  {| rq_method := rq_method r; rq_path := rq_path r; rq_query := rq_query r;
     rq_ver := rq_ver r;
     rq_hdrs :=
       if negb (bool_decide (rq_bd r = [])) && negb (headers_contains (rq_hdrs r) (str "Content-Length"))
       then headers_set (rq_hdrs r) (str "Content-Length") (to_string (len (rq_bd r)))
       else rq_hdrs r;
     rq_bd := rq_bd r |}.

(** ** Responses *)
Record response := {
  rs_status : status_code;
  rs_ver : version;
  rs_hdrs : headers;
  rs_bd : bytes;
  rs_trailers : headers
}.

#[export] Instance request_eta : Settable request := fun r =>
  Build_request (rq_method r) (rq_path r) (rq_query r) (rq_ver r) (rq_hdrs r) (rq_bd r).

#[export] Instance response_eta : Settable response := fun r =>
  Build_response (rs_status r) (rs_ver r) (rs_hdrs r) (rs_bd r) (rs_trailers r).

Definition response_default : response :=
  {| rs_status := 200; rs_ver := HTTP_11; rs_hdrs := []; rs_bd := []; rs_trailers := [] |}.

Definition response_build (r : response) : response :=
  let h :=
    if negb (bool_decide (rs_bd r = [])) && negb (headers_contains (rs_hdrs r) (str "Content-Length"))
    then headers_set (rs_hdrs r) (str "Content-Length") (to_string (len (rs_bd r)))
    else rs_hdrs r in
  let h :=
    if headers_contains h (str "Content-Type") then h
    else headers_set h (str "Content-Type") (str "text/plain") in
  {| rs_status := rs_status r; rs_ver := rs_ver r; rs_hdrs := h; rs_bd := rs_bd r;
     rs_trailers := rs_trailers r |}.

(** [response_builder().status(s).body(b).build()] *)
Definition response_make (status : status_code) (body : bytes) : response :=
  response_build {| rs_status := status; rs_ver := HTTP_11; rs_hdrs := []; rs_bd := body;
                    rs_trailers := [] |}.

Definition response_ok (body_text : bytes) : response := response_make 200 body_text.
Definition response_not_found : response := response_make 404 (str "Not Found").
Definition response_bad_request (msg : bytes) : response := response_make 400 msg.
Definition response_internal_error (msg : bytes) : response := response_make 500 msg.

(** ** Lemmas: reading header fields one by one *)

Lemma foldl_plain {A} (step : A -> header -> A) (put : A -> header -> A) hs a :
  (forall a kv, byte_at kv.1 0 <> x3a -> step a kv = put a kv) ->
  Forall (fun kv => byte_at kv.1 0 <> x3a) hs -> foldl step a hs = foldl put a hs.
Proof.
  intros Hs Hh. revert a. induction Hh as [|kv hs Hkv _ IH]; intros a; cbn; [done|].
  rewrite Hs by done. apply IH.
Qed.

Lemma not_pseudo name p : byte_at name 0 <> x3a -> byte_at p 0 = x3a -> name <> p.
Proof. by intros Hn Hp ->. Qed.

Definition put_header (r : request) (kv : header) : request :=
  {| rq_method := rq_method r; rq_path := rq_path r; rq_query := rq_query r;
     rq_ver := rq_ver r; rq_hdrs := rq_hdrs r ++ [kv]; rq_bd := rq_bd r |}.

Lemma foldl_put_header r hs :
  foldl put_header r hs =
  {| rq_method := rq_method r; rq_path := rq_path r; rq_query := rq_query r;
     rq_ver := rq_ver r; rq_hdrs := rq_hdrs r ++ hs; rq_bd := rq_bd r |}.
Proof.
  revert r. induction hs as [|h hs IH]; intros r; cbn.
  - rewrite app_nil_r. by destruct r.
  - rewrite IH. cbn. by rewrite <- app_assoc.
Qed.

(** ** Lemmas: enumerations *)

Lemma parse_method_to_string m : parse_method (method_to_string m) = Some m.
Proof. by destruct m. Qed.

Lemma parse_method_some s m : parse_method s = Some m -> s = method_to_string m.
Proof.
  unfold parse_method. repeat (case_bool_decide; [by intros [= <-]|]). done.
Qed.

(** ** Lemmas: headers *)

Lemma same_name_trans a b c : same_name a b = true -> same_name a c = same_name b c.
Proof. unfold same_name. intros E%bool_decide_eq_true_1. by rewrite E. Qed.

Lemma same_name_sym a b : same_name a b = same_name b a.
Proof. unfold same_name. apply bool_decide_ext. done. Qed.

Lemma headers_get_head h name : headers_get h name = head (headers_get_all h name).
Proof. induction h as [|[k v] h IH]; cbn; [done|]. by destruct (same_name k name). Qed.

Lemma get_all_app h h' name :
  headers_get_all (h ++ h') name = headers_get_all h name ++ headers_get_all h' name.
Proof.
  induction h as [|[k v] h IH]; cbn; [done|]. destruct (same_name k name); cbn; by rewrite IH.
Qed.

Lemma get_all_remove h name name' :
  headers_get_all (headers_remove h name) name' =
  if same_name name name' then [] else headers_get_all h name'.
Proof.
  unfold headers_remove. induction h as [|[k v] h IH]; [by destruct (same_name _ _)|].
  rewrite filter_cons. cbn [fst].
  destruct (same_name k name) eqn:E; cbn.
  - rewrite decide_False by naive_solver. rewrite IH, (same_name_trans _ _ name' E).
    by destruct (same_name name name').
  - rewrite decide_True by done. cbn. rewrite IH.
    destruct (same_name k name') eqn:E'; [|done].
    destruct (same_name name name') eqn:E''; [|done].
    rewrite (same_name_trans _ _ name E'), same_name_sym, E'' in E. done.
Qed.

Lemma same_name_refl a : same_name a a = true.
Proof. unfold same_name. by rewrite bool_decide_eq_true_2. Qed.

Lemma get_all_set h name value name' :
  headers_get_all (headers_set h name value) name' =
  if same_name name name' then [value] else headers_get_all h name'.
Proof.
  unfold headers_set. rewrite get_all_app, get_all_remove. cbn.
  destruct (same_name name name'); [done|by rewrite app_nil_r].
Qed.

Lemma headers_get_set h name value name' :
  headers_get (headers_set h name value) name' =
  if same_name name name' then Some value else headers_get h name'.
Proof. rewrite !headers_get_head, get_all_set. by destruct (same_name name name'). Qed.

Lemma headers_get_app h h' name :
  headers_get (h ++ h') name =
  match headers_get h name with Some v => Some v | None => headers_get h' name end.
Proof. induction h as [|[k v] h IH]; cbn; [done|]. by destruct (same_name k name). Qed.

(** Entries of other names do not matter. *)
Lemma headers_get_sets (kvs h : headers) name :
  Forall (fun kv : header => same_name kv.1 name = false) kvs ->
  headers_get (foldl (fun h (kv : header) => headers_set h kv.1 kv.2) h kvs) name = headers_get h name.
Proof.
  intros Hk. revert h. induction Hk as [|[k v] kvs Hk _ IH]; intros h; cbn [foldl]; [done|].
  rewrite IH, headers_get_set. cbn [fst snd] in *. by rewrite Hk.
Qed.

Lemma same_name_lower a b : same_name (to_lower a) b = same_name a b.
Proof. unfold same_name. by rewrite to_lower_idem. Qed.

Lemma content_length_set h n :
  0 <= n < 2 ^ 63 -> content_length (headers_set h (str "Content-Length") (to_string n)) = Some n.
Proof.
  intros Hn. unfold content_length. rewrite headers_get_set, same_name_refl.
  unfold from_chars_value, INT64_MIN, INT64_MAX. rewrite from_chars_to_string by lia. zdec. done.
Qed.

(** ** Lemmas: URIs *)

Lemma not_elem_app c (a b : bytes) : c ∉ a -> c ∉ b -> c ∉ a ++ b.
Proof. rewrite elem_of_app. tauto. Qed.

Lemma to_string_not_elem v c :
  0 <= v -> u8 c < 0x30 \/ 0x39 < u8 c -> c ∉ to_string v.
Proof. intros Hv Hc Hin. apply to_string_digits in Hin; lia. Qed.

(** The text of a URI with all its parts. *)
Definition uri_text (scheme host : bytes) (port : Z) (path query fragment : bytes) : bytes :=
  scheme ++ str "://" ++ (host ++ [x3a] ++ to_string port) ++
  (path ++ [x3f] ++ query) ++ [x23] ++ fragment.

Lemma substr_0_app (a b : bytes) : substr (a ++ b) 0 (len a) = a.
Proof. unfold substr. rewrite dropZ_0. by apply takeZ_app_len. Qed.

Lemma substr_from_app (a b : bytes) n : n = len a -> substr_from (a ++ b) n = b.
Proof. intros ->. by apply dropZ_app_len. Qed.

Lemma find_char_first c (a b : bytes) : c ∉ a -> find_char (a ++ c :: b) c 0 = Some (len a).
Proof. intros Hc. unfold find_char. rewrite find_0. by apply (find_pat_first c [] a b). Qed.

Lemma find_char_absent c (a : bytes) : c ∉ a -> find_char a c 0 = None.
Proof. intros Hc. unfold find_char. rewrite find_0. by apply find_pat_absent. Qed.

(** Absence of a byte from a concatenation of parts. *)
Ltac not_in :=
  repeat first [ done | assumption | apply not_elem_app
               | apply not_elem_of_cons; split | apply not_elem_of_nil
               | apply to_string_not_elem; [lia|] ];
  try first [ by left | by right ].

Lemma parse_scheme scheme rest :
  x3a ∉ scheme ->
  match find (scheme ++ str "://" ++ rest) (str "://") 0 with
  | Some pos => (substr (scheme ++ str "://" ++ rest) 0 pos,
                 substr_from (scheme ++ str "://" ++ rest) (pos + 3))
  | None => (str "http", scheme ++ str "://" ++ rest)
  end = (scheme, rest).
Proof.
  intros Hs. rewrite find_0. change (str "://") with (x3a :: [x2f; x2f]).
  rewrite (find_pat_first x3a [x2f; x2f]) by done.
  rewrite substr_0_app, app_assoc, (substr_from_app (scheme ++ _)) by blia. done.
Qed.

Lemma uri_parse_text scheme host path query fragment port :
  x3a ∉ scheme -> x2f ∉ host -> 0 <= port < 2 ^ 16 ->
  x3f ∉ path -> x23 ∉ path -> x23 ∉ query ->
  uri_make (uri_text scheme host port (x2f :: path) query fragment) =
  {| raw_ := uri_text scheme host port (x2f :: path) query fragment; scheme_ := scheme;
     host_ := host; port_ := port; path_ := x2f :: path; query_ := query;
     fragment_ := fragment |}.
Proof.
  intros Hs Hh Hp Hq Hf1 Hf2. unfold uri_make, uri_parse, uri_text.
  rewrite parse_scheme by done.
  replace (((x2f :: path) ++ [x3f] ++ query) ++ [x23] ++ fragment)
    with (x2f :: (path ++ [x3f] ++ query) ++ [x23] ++ fragment) by done.
  rewrite find_char_first by (not_in; by left).
  rewrite substr_0_app, (substr_from_app (host ++ _)) by done.
  change ([x3a] ++ to_string port) with (x3a :: to_string port).
  rewrite rfind_char_app by (apply to_string_not_elem; [lia|by right]).
  rewrite substr_0_app. change (x3a :: to_string port) with ([x3a] ++ to_string port).
  rewrite (app_assoc host), (substr_from_app (host ++ [x3a])) by blia.
  unfold from_chars_value, INT_MIN, INT_MAX. rewrite from_chars_to_string by lia.
  unfold u16. rewrite Z.mod_small by lia.
  change (x2f :: (path ++ [x3f] ++ query) ++ [x23] ++ fragment)
    with (((x2f :: path) ++ x3f :: query) ++ x23 :: fragment).
  rewrite find_char_first by not_in.
  rewrite substr_0_app. change (x23 :: fragment) with ([x23] ++ fragment).
  rewrite (app_assoc ((x2f :: path) ++ _)), (substr_from_app (((x2f :: path) ++ _) ++ [x23])) by blia.
  rewrite find_char_first by not_in. rewrite substr_0_app.
  change (x3f :: query) with ([x3f] ++ query).
  rewrite (app_assoc (x2f :: path)), (substr_from_app ((x2f :: path) ++ [x3f])) by blia. done.
Qed.

Lemma uri_default_port scheme host path :
  x3a ∉ scheme -> x2f ∉ host -> x3a ∉ host ->
  port_ (uri_make (scheme ++ str "://" ++ host ++ x2f :: path)) =
  if bool_decide (scheme = str "https") || bool_decide (scheme = str "h3") then 443 else 80.
Proof.
  intros Hs Hh Hc. unfold uri_make, uri_parse. rewrite parse_scheme by done.
  rewrite find_char_first by done. rewrite substr_0_app, rfind_char_none by done.
  destruct (find_char _ x23 0); cbn; destruct (find_char _ x3f 0); done.
Qed.

(** ** Properties *)

(** The header container is a case-insensitive multimap: [get_all] reads,
    in insertion order, what [set], [append] and [remove] have written under any
    spelling of the name; [get] is its first value and [contains] tells whether
    there is one; other names are not affected. *)
Theorem headers_multimap (h : headers) (name value other : bytes) :
  headers_get_all (headers_set h name value) other =
    (if same_name name other then [value] else headers_get_all h other) /\
  headers_get_all (headers_append h name value) other =
    headers_get_all h other ++ (if same_name name other then [value] else []) /\
  headers_get_all (headers_remove h name) other =
    (if same_name name other then [] else headers_get_all h other) /\
  headers_get h other = head (headers_get_all h other) /\
  headers_contains h other = negb (bool_decide (headers_get_all h other = [])).
Proof.
  split_and!.
  - apply get_all_set.
  - unfold headers_append. by rewrite get_all_app.
  - apply get_all_remove.
  - apply headers_get_head.
  - unfold headers_contains. rewrite headers_get_head. by destruct (headers_get_all h other).
Qed.

(** Parsing the text of a URI gives its scheme, host, port, path, query and
    fragment back; without a port, the default one of the scheme is used; and
    [authority] is [host:port] again. *)
Theorem uri_parse_parts (scheme host path query fragment : bytes) (port : Z) :
  x3a ∉ scheme -> x2f ∉ host -> 0 <= port < 2 ^ 16 ->
  x3f ∉ path -> x23 ∉ path -> x23 ∉ query ->
  let text := uri_text scheme host port (x2f :: path) query fragment in
  uri_make text =
    {| raw_ := text; scheme_ := scheme; host_ := host; port_ := port;
       path_ := x2f :: path; query_ := query; fragment_ := fragment |} /\
  authority (uri_make text) = host ++ [x3a] ++ to_string port /\
  (x3a ∉ host ->
   port_ (uri_make (scheme ++ str "://" ++ host ++ x2f :: path)) =
     if bool_decide (scheme = str "https") || bool_decide (scheme = str "h3") then 443 else 80).
Proof.
  intros Hs Hh Hp Hq Hf1 Hf2 text.
  assert (Hu := uri_parse_text scheme host path query fragment port Hs Hh Hp Hq Hf1 Hf2).
  split; [done|]. split; [unfold text; by rewrite Hu|]. intros Hc. by apply uri_default_port.
Qed.

Lemma uri_parse_parts_witness :
  let u := uri_make (uri_text (str "https") (str "example.com") 8443 (x2f :: str "a/b")
                       (str "k=v") (str "top")) in
  host_ u = str "example.com" /\ port_ u = 8443 /\ path_ u = str "/a/b" /\
  query_ u = str "k=v" /\ fragment_ u = str "top".
Proof.
  cbv zeta.
  rewrite (proj1 (uri_parse_parts (str "https") (str "example.com") (str "a/b") (str "k=v")
    (str "top") 8443 ltac:(apply (bool_decide_unpack _); vm_compute; exact I)
    ltac:(apply (bool_decide_unpack _); vm_compute; exact I) ltac:(lia)
    ltac:(apply (bool_decide_unpack _); vm_compute; exact I)
    ltac:(apply (bool_decide_unpack _); vm_compute; exact I)
    ltac:(apply (bool_decide_unpack _); vm_compute; exact I))).
  repeat split.
Defined.
