(* ===== verification/Http1Codec.v ===== *)
(** * HTTP/1.1 codec (src/src/http/http1_codec.cpp)

    Request and response parsing from a byte buffer, header lines with folding,
    Content-Length and chunked bodies, and the serializers.  A parser returns
    [None] when it needs more bytes and throws on a malformed message.  The
    chunk loop can run forever (a theorem says exactly when), so the functions
    that use it take fuel and a run that exceeds it is [Timeout]. *)
From S2P Require Import Prelude HeaderTable CppString HttpTypes.
From stdpp Require Import options.

(** Past the [\r\n\r\n]. *)
Definition find_header_end (data : bytes) : option Z :=
  (fun pos => pos + 4) <$> find data (CRLF ++ CRLF) 0.

(** ** Header lines *)

(** The loop over continuation lines; one unit of fuel per line. *)
Fixpoint fold_lines (fuel : nat) (block line : bytes) (pos : Z) : bytes * Z :=
  match fuel with
  | O => (line, pos)
  | S fuel =>
      if (pos <? len block) && is_blank (byte_at block pos) then
        match find block CRLF pos with
        | None => (line, pos)
        | Some next_end =>
            fold_lines fuel block
              (line ++ str " " ++ substr block (pos + 1) (next_end - pos - 1)) (next_end + 2)
        end
      else (line, pos)
  end.

(** Split a line at its first [:] and trim both sides. *)
Definition split_header (line : bytes) : option header :=
  match find_char line x3a 0 with
  | None => None
  | Some colon =>
      let name := strip_trailing is_blank (substr line 0 colon) in
      let value := skip_leading is_blank (substr_from line (colon + 1)) in
      Some (name, strip_trailing is_blank value)
  end.

(** [while (pos < block.size())]; every pass moves past a line, so the length
    of the block is enough fuel. *)
Fixpoint header_lines_loop (fuel : nat) (block : bytes) (pos : Z) (hdrs : headers) : headers :=
  match fuel with
  | O => hdrs
  | S fuel =>
      if pos <? len block then
        match find block CRLF pos with
        | None => hdrs
        | Some line_end =>
            if line_end =? pos then hdrs else
            let line := substr block pos (line_end - pos) in
            let '(line, pos) := fold_lines (length block) block line (line_end + 2) in
            header_lines_loop fuel block pos
              (match split_header line with
               | Some (name, value) => headers_append hdrs name value
               | None => hdrs
               end)
        end
      else hdrs
  end.

Definition parse_header_lines (block : bytes) (hdrs : headers) : headers :=
  header_lines_loop (length block) block 0 hdrs.

(** ** Bodies *)
Record body_result := { br_data : bytes; br_consumed : Z; br_complete : bool }.

Definition body_incomplete (data : bytes) (consumed : Z) : body_result :=
  {| br_data := data; br_consumed := consumed; br_complete := false |}.

(** [while (pos < data.size())] over the chunks; [acc] is [result.data].  The
    sum in the test and in the update of [pos] is on [size_t]. *)
Fixpoint chunk_loop (fuel : nat) (data : bytes) (pos : Z) (acc : bytes) : outcome body_result :=
  if pos <? len data then
    match fuel with
    | O => Timeout
    | S fuel =>
        match find data CRLF pos with
        | None => Ok (body_incomplete acc pos)
        | Some line_end =>
            let size_str := substr data pos (line_end - pos) in
            match from_chars 16 0 UINT64_MAX size_str with
            | InvalidArgument | ResultOutOfRange =>
                Throws (RuntimeError (str "Invalid chunk size"))
            | ErrNone chunk_size =>
                let pos := line_end + 2 in
                if chunk_size =? 0 then
                  if pos + 2 <=? len data then
                    Ok {| br_data := acc; br_consumed := pos + 2; br_complete := true |}
                  else Ok (body_incomplete acc pos)
                else if len data <? u64 (pos + chunk_size + 2) then
                  Ok (body_incomplete acc 0)
                else chunk_loop fuel data (u64 (pos + (chunk_size + 2)))
                       (acc ++ substr data pos chunk_size)
            end
        end
    end
  else Ok (body_incomplete acc 0).

Definition parse_body (fuel : nat) (data : bytes) (hdrs : headers) : outcome body_result :=
  if is_chunked hdrs then chunk_loop fuel data 0 [] else
  match content_length hdrs with
  | Some n =>
      if len data <? n then Ok (body_incomplete [] 0)
      else Ok {| br_data := substr data 0 n; br_consumed := n; br_complete := true |}
  | None => Ok {| br_data := []; br_consumed := 0; br_complete := true |}
  end.

(** ** Requests *)

(** Path and query of a request target. *)
Definition split_target (path : bytes) : bytes * bytes :=
  let '(p, q) :=
    match find_char path x3f 0 with
    | Some qpos => (substr path 0 qpos, substr_from path (qpos + 1))
    | None => (path, [])
    end in
  (if bool_decide (p = []) then str "/" else p, q).

(** The method, target and version of a request line. *)
Definition parse_request_line (line : bytes) : outcome (method * bytes * version) :=
  match find_char line x20 0 with
  | None => Throws (RuntimeError (str "Invalid request line"))
  | Some sp1 =>
      match find_char line x20 (sp1 + 1) with
      | None => Throws (RuntimeError (str "Invalid request line"))
      | Some sp2 =>
          let method_str := substr line 0 sp1 in
          let path := substr line (sp1 + 1) (sp2 - sp1 - 1) in
          let version_str := substr_from line (sp2 + 1) in
          match parse_method method_str with
          | None => Throws (RuntimeError (str "Unknown HTTP method: " ++ method_str))
          | Some m =>
              Ok (m, path, if bool_decide (version_str = str "HTTP/1.0") then HTTP_10 else HTTP_11)
          end
      end
  end.

Definition parse_request (fuel : nat) (data : bytes) : outcome (option (request * Z)) :=
  match find_header_end data with
  | None => Ok None
  | Some header_end =>
      match find data CRLF 0 with
      | None => Ok None
      | Some first_line_end =>
          let request_line := substr data 0 first_line_end in
          '(m, target, ver) ← parse_request_line request_line;
          let '(path, query) := split_target target in
          let header_block := substr data (first_line_end + 2) (header_end - first_line_end - 4) in
          let hdrs := parse_header_lines header_block [] in
          body_res ← parse_body fuel (substr_from data header_end) hdrs;
          if negb (br_complete body_res) then Ok None else
          Ok (Some ({| rq_method := m; rq_path := path; rq_query := query; rq_ver := ver;
                       rq_hdrs := hdrs; rq_bd := br_data body_res |},
                    header_end + br_consumed body_res))
      end
  end.

(** ** Responses *)

(** The status code and version of a status line. *)
Definition parse_status_line (line : bytes) : outcome (Z * version) :=
  match find_char line x20 0 with
  | None => Throws (RuntimeError (str "Invalid status line"))
  | Some sp1 =>
      let version_str := substr line 0 sp1 in
      let rest := substr_from line (sp1 + 1) in
      let code_str :=
        match find_char rest x20 0 with Some sp2 => substr rest 0 sp2 | None => rest end in
      let code := from_chars_value 10 INT_MIN INT_MAX 0 code_str in
      if (code <? 100) || (599 <? code) then Throws (RuntimeError (str "Invalid status code"))
      else Ok (code, if bool_decide (version_str = str "HTTP/1.0") then HTTP_10 else HTTP_11)
  end.

Definition parse_response (fuel : nat) (data : bytes) : outcome (option (response * Z)) :=
  match find_header_end data with
  | None => Ok None
  | Some header_end =>
      match find data CRLF 0 with
      | None => Ok None
      | Some first_line_end =>
          '(code, ver) ← parse_status_line (substr data 0 first_line_end);
          let header_block := substr data (first_line_end + 2) (header_end - first_line_end - 4) in
          let hdrs := parse_header_lines header_block [] in
          let body_data := substr_from data header_end in
          let resp bd := {| rs_status := code; rs_ver := ver; rs_hdrs := hdrs; rs_bd := bd;
                            rs_trailers := [] |} in
          if bool_decide (content_length hdrs = None) && negb (is_chunked hdrs) then
            if (code =? 204) || (code =? 304) || ((100 <=? code) && (code <? 200)) then
              Ok (Some (resp [], header_end))
            else if bool_decide (body_data = []) then Ok None
            else Ok (Some (resp body_data, len data))
          else
            body_res ← parse_body fuel body_data hdrs;
            if negb (br_complete body_res) then Ok None
            else Ok (Some (resp (br_data body_res), header_end + br_consumed body_res))
      end
  end.

(** ** Serializers *)

Definition serialize_request (req : request) : bytes :=
  method_to_string (rq_method req) ++ str " " ++ rq_path req ++ str " " ++
  version_to_string (rq_ver req) ++ CRLF ++ headers_serialize (rq_hdrs req) ++ CRLF ++
  rq_bd req.

Definition serialize_response (resp : response) : bytes :=
  version_to_string (rs_ver resp) ++ str " " ++ to_string (rs_status resp) ++ str " " ++
  reason_phrase (rs_status resp) ++ CRLF ++ headers_serialize (rs_hdrs resp) ++ CRLF ++
  rs_bd resp.

(** ** Lemmas: the header section *)

(** The header fields that survive: no separator in them and no blanks at the
    ends, which the parser trims or takes for folding. *)
Definition field_ok (e : header) : Prop :=
  (x3a ∉ e.1) /\ (CR ∉ e.1) /\ (CR ∉ e.2) /\
  (forall c, head e.1 = Some c -> is_blank c = false) /\
  (forall c, last e.1 = Some c -> is_blank c = false) /\
  (forall c, head e.2 = Some c -> is_blank c = false) /\
  (forall c, last e.2 = Some c -> is_blank c = false).

(** A header line without its line end. *)
Definition header_text (e : header) : bytes := e.1 ++ str ": " ++ e.2.

Lemma header_line_text e : header_line e = header_text e ++ CRLF.
Proof. unfold header_line, header_text. by rewrite <- !app_assoc. Qed.

Lemma header_text_cr e : field_ok e -> CR ∉ header_text e.
Proof.
  intros (_ & H1 & H2 & _). unfold header_text. change (str ": ") with [x3a; x20]. not_in.
Qed.

Lemma header_text_head e c :
  field_ok e -> head (header_text e) = Some c -> is_blank c = false /\ c <> CR.
Proof.
  intros Hf Hc. pose proof (header_text_cr e Hf) as Hcr. destruct Hf as (_ & _ & _ & H & _).
  unfold header_text in *. destruct e as [[|d name] value]; cbn in *.
  - by injection Hc as <-.
  - injection Hc as <-. split; [by apply H|]. intros ->. apply Hcr. by left.
Qed.

Lemma len_header_text e : 2 <= len (header_text e).
Proof. unfold header_text. change (str ": ") with [x3a; x20]. blia. Qed.

Lemma split_header_text e : field_ok e -> split_header (header_text e) = Some e.
Proof.
  intros (Hc & _ & _ & _ & Hl & Hh2 & Hl2). destruct e as [name value]; cbn [fst snd] in *.
  unfold split_header, header_text. cbn [fst snd]. change (str ": ") with [x3a; x20].
  change (name ++ [x3a; x20] ++ value) with (name ++ x3a :: x20 :: value).
  rewrite find_char_first, substr_0_app by done.
  change (name ++ x3a :: x20 :: value) with (name ++ [x3a] ++ x20 :: value).
  rewrite app_assoc, substr_from_app by blia. cbn [skip_leading]. change (is_blank x20) with true.
  cbv iota. by rewrite skip_leading_none, !strip_trailing_none.
Qed.

(** One line is skipped in the search for the end of the headers. *)
Lemma header_end_skip l s :
  CR ∉ l -> head s <> Some CR ->
  find_pat (CRLF ++ CRLF) (l ++ CRLF ++ s) = Z.add (len l + 2) <$> find_pat (CRLF ++ CRLF) s.
Proof.
  intros Hl Hs. change (CRLF ++ CRLF) with (CR :: [LF; CR; LF]).
  rewrite find_pat_skip by done.
  assert (find_pat [CR; LF; CR; LF] (CRLF ++ s) =
          Z.add 2 <$> find_pat [CR; LF; CR; LF] s) as ->.
  { change (CRLF ++ s) with (CR :: LF :: s). destruct s as [|c s]; [done|].
    cbn [find_pat starts_with]. rewrite (bool_decide_eq_false_2 (CR = c)) by (cbn in Hs; congruence).
    rewrite (bool_decide_eq_false_2 (CR = LF)) by done.
    rewrite !(bool_decide_eq_true_2 (_ = _)) by done. cbn [andb].
    destruct (find_pat _ s); cbn; [f_equal; lia|done]. }
  destruct (find_pat _ s); cbn; [f_equal; lia|done].
Qed.

Lemma header_end_found first hs body :
  CR ∉ first -> Forall field_ok hs ->
  find_header_end (first ++ CRLF ++ headers_serialize hs ++ CRLF ++ body) =
  Some (len first + 2 + len (headers_serialize hs) + 2).
Proof.
  intros Hf Hhs. unfold find_header_end. rewrite find_0.
  assert (find_pat (CRLF ++ CRLF) (first ++ CRLF ++ headers_serialize hs ++ CRLF ++ body) =
          Some (len first + len (headers_serialize hs))) as ->; [|cbn; f_equal; lia].
  revert first Hf. induction Hhs as [|e hs He _ IH]; intros first Hf; cbn [headers_serialize map concat].
  - cbn [app]. change (CRLF ++ CRLF ++ body) with ((CR :: [LF; CR; LF]) ++ body).
    change (CRLF ++ CRLF) with (CR :: [LF; CR; LF]). rewrite find_pat_first by done.
    f_equal. blia.
  - rewrite header_line_text, <- !app_assoc. rewrite header_end_skip; [|done|].
    + fold (headers_serialize hs). rewrite IH by by apply header_text_cr.
      cbn [fmap option_fmap option_map]. f_equal. rewrite !len_app. change (len CRLF) with 2. lia.
    + intros E. destruct (header_text e) as [|c t] eqn:Et; [pose proof (len_header_text e); rewrite Et in *; blia|].
      cbn in E. injection E as ->. pose proof (header_text_head e CR He) as [_ ?]; [by rewrite Et|done].
Qed.

Lemma fold_none fuel block line pos rest :
  pos <= len block -> dropZ pos block = rest ->
  (forall c, head rest = Some c -> is_blank c = false) -> 0 <= pos ->
  fold_lines fuel block line pos = (line, pos).
Proof.
  intros Hp Hd Hb H0. destruct fuel as [|fuel]; cbn [fold_lines]; [done|].
  destruct (Z.ltb_spec pos (len block)); [|done].
  assert (is_blank (byte_at block pos) = false) as ->; [|done].
  rewrite <- (takeZ_dropZ pos block), Hd. rewrite byte_at_app_r by blia.
  assert (pos - len (takeZ pos block) = 0) as -> by blia.
  destruct rest as [|c rest].
  - apply (f_equal len) in Hd. revert Hd. blia.
  - rewrite byte_at_cons_0 by done. by apply Hb.
Qed.

Lemma header_lines_loop_spec fuel pre hs acc :
  Forall field_ok hs -> (length hs <= fuel)%nat ->
  header_lines_loop fuel (pre ++ headers_serialize hs) (len pre) acc = acc ++ hs.
Proof.
  intros Hhs. revert fuel pre acc. induction Hhs as [|e hs He Hhs IH]; intros fuel pre acc Hf.
  - cbn [headers_serialize map concat]. rewrite !app_nil_r.
    destruct fuel; cbn [header_lines_loop]; [done|]. by rewrite Z.ltb_irrefl.
  - destruct fuel as [|fuel]; cbn [length] in Hf; [lia|]. cbn [header_lines_loop].
    set (rest := headers_serialize hs).
    assert (headers_serialize (e :: hs) = header_text e ++ CRLF ++ rest) as ->.
    { unfold headers_serialize. cbn [map concat]. by rewrite header_line_text, <- app_assoc. }
    pose proof (len_header_text e).
    rewrite (proj2 (Z.ltb_lt _ _)) by (rewrite !len_app; bounds; lia).
    rewrite find_at. change (find_pat CRLF (header_text e ++ CRLF ++ rest))
      with (find_pat (CR :: [LF]) (header_text e ++ (CR :: [LF]) ++ rest)).
    rewrite find_pat_first by by apply header_text_cr. cbn [fmap option_fmap option_map].
    rewrite (proj2 (Z.eqb_neq _ _)) by lia.
    assert (substr (pre ++ header_text e ++ CRLF ++ rest) (len pre)
              (len pre + len (header_text e) - len pre) = header_text e) as ->.
    { unfold substr. rewrite dropZ_app_len by done. apply takeZ_app_len. lia. }
    rewrite (fold_none _ _ _ _ rest).
    + rewrite split_header_text by done. destruct e as [name value] eqn:Ee. rewrite <- Ee.
      replace (pre ++ header_text e ++ CRLF ++ rest)
        with ((pre ++ header_text e ++ CRLF) ++ rest) by (by rewrite <- !app_assoc).
      replace (len pre + len (header_text e) + 2) with (len (pre ++ header_text e ++ CRLF)).
      2: { rewrite !len_app. change (len CRLF) with 2. lia. }
      unfold rest. rewrite IH by lia. unfold headers_append. rewrite <- app_assoc. by rewrite Ee.
    + rewrite !len_app. change (len CRLF) with 2. bounds. lia.
    + rewrite !app_assoc. apply dropZ_app_len. rewrite !len_app. change (len CRLF) with 2. lia.
    + intros c Hc. destruct hs as [|e' hs']; [done|].
      apply Forall_cons in Hhs as [He' _]. apply (header_text_head e' c He').
      unfold rest, headers_serialize in Hc. cbn [map concat] in Hc.
      rewrite header_line_text in Hc. destruct (header_text e') eqn:E; [|done].
      pose proof (len_header_text e'). rewrite E in *. blia.
    + bounds. lia.
Qed.

Lemma parse_header_lines_serialize hs :
  Forall field_ok hs -> parse_header_lines (headers_serialize hs) [] = hs.
Proof.
  intros Hhs. unfold parse_header_lines.
  apply (header_lines_loop_spec _ [] hs []); [done|].
  clear Hhs. induction hs as [|e hs IH]; cbn [headers_serialize map concat length]; [done|].
  rewrite length_app, header_line_text, length_app. cbn. fold (headers_serialize hs). lia.
Qed.

(** ** Lemmas: a message on the wire *)

Definition message (first : bytes) (hs : headers) (tail : bytes) : bytes :=
  first ++ CRLF ++ headers_serialize hs ++ CRLF ++ tail.

(** The number of bytes before the body. *)
Definition head_size (first : bytes) (hs : headers) : Z :=
  len first + 2 + len (headers_serialize hs) + 2.

Lemma len_message first hs tail : len (message first hs tail) = head_size first hs + len tail.
Proof. unfold message, head_size. rewrite !len_app. change (len CRLF) with 2. lia. Qed.

Lemma message_parts first hs tail :
  CR ∉ first -> Forall field_ok hs ->
  find_header_end (message first hs tail) = Some (head_size first hs) /\
  find (message first hs tail) CRLF 0 = Some (len first) /\
  substr (message first hs tail) 0 (len first) = first /\
  substr (message first hs tail) (len first + 2) (head_size first hs - len first - 4) =
    headers_serialize hs /\
  substr_from (message first hs tail) (head_size first hs) = tail.
Proof.
  intros Hf Hhs. split_and!.
  - by apply header_end_found.
  - unfold message. rewrite find_0. by apply (find_pat_first CR [LF]).
  - apply substr_0_app.
  - unfold message, substr, head_size. rewrite app_assoc, dropZ_app_len.
    + apply takeZ_app_len. lia.
    + rewrite len_app. change (len CRLF) with 2. lia.
  - unfold message, substr_from, head_size. rewrite !app_assoc. apply dropZ_app_len.
    rewrite !len_app. change (len CRLF) with 2. lia.
Qed.

(** Before the blank line has arrived there is no end of the headers. *)
Lemma header_end_prefix first hs tail p q :
  CR ∉ first -> Forall field_ok hs -> message first hs tail = p ++ q ->
  len p < head_size first hs -> find_header_end p = None.
Proof.
  intros Hf Hhs E Hl. destruct (message_parts first hs tail Hf Hhs) as (H & _).
  rewrite E in H. unfold find_header_end in *. rewrite find_0 in *.
  destruct (find_pat _ (p ++ q)) as [n|] eqn:En; [|done]. injection H as H.
  rewrite (find_pat_prefix _ _ _ _ En); [done|]. change (len (CRLF ++ CRLF)) with 4. lia.
Qed.

(** The body the headers announce. *)
Definition body_ok (hs : headers) (bd : bytes) : Prop :=
  is_chunked hs = false /\
  (content_length hs = Some (len bd) \/ content_length hs = None /\ bd = []).

Lemma parse_body_exact fuel hs bd rest :
  body_ok hs bd ->
  parse_body fuel (bd ++ rest) hs =
  Ok {| br_data := bd; br_consumed := len bd; br_complete := true |}.
Proof.
  intros [Hc Hl]. unfold parse_body. rewrite Hc. destruct Hl as [->|[-> ->]]; [|done].
  rewrite (proj2 (Z.ltb_ge _ _)) by blia. by rewrite substr_0_app.
Qed.

Lemma parse_body_partial fuel hs bd p q :
  body_ok hs bd -> bd = p ++ q -> q <> [] ->
  exists r, parse_body fuel p hs = Ok r /\ br_complete r = false.
Proof.
  intros [Hc Hl] E Hq. unfold parse_body. rewrite Hc.
  destruct Hl as [->|[_ ->]].
  - assert (0 < len q). { destruct q; [done|]. blia. }
    rewrite (proj2 (Z.ltb_lt _ _)) by (rewrite E; blia). eexists; split; done.
  - by destruct p, q.
Qed.

(** A prefix of a message is either inside its head or has all of it. *)
Lemma message_prefix first hs bd p q :
  message first hs bd = p ++ q -> head_size first hs <= len p ->
  exists b, p = message first hs b /\ bd = b ++ q.
Proof.
  intros E Hl. exists (dropZ (head_size first hs) p).
  assert (Hh : message first hs bd = message first hs [] ++ bd).
  { unfold message. by rewrite app_nil_r, <- !app_assoc. }
  assert (Hlen : len (message first hs []) = head_size first hs)
    by (rewrite len_message, len_nil; lia).
  rewrite Hh in E.
  assert (Hp : takeZ (head_size first hs) p = message first hs []).
  { assert (takeZ (head_size first hs) (p ++ q) = takeZ (head_size first hs) p) as <-.
    { unfold takeZ, len in *. by rewrite take_app_le by lia. }
    rewrite <- E. apply takeZ_app_len. lia. }
  split.
  - rewrite <- (takeZ_dropZ (head_size first hs) p) at 1. rewrite Hp.
    unfold message. by rewrite app_nil_r, <- !app_assoc.
  - rewrite <- (takeZ_dropZ (head_size first hs) p), Hp, <- app_assoc in E.
    by apply app_inv_head in E.
Qed.

(** ** Lemmas: first lines *)

Lemma find_second c a b s :
  c ∉ b -> find_char (a ++ b ++ c :: s) c (len a) = Some (len a + len b).
Proof.
  intros Hb. unfold find_char. rewrite find_at.
  by rewrite (find_pat_first c [] b s Hb : find_pat [c] (b ++ c :: s) = _).
Qed.

Definition line_version_ok (v : version) : Prop := v = HTTP_10 \/ v = HTTP_11.

Definition request_line (r : request) : bytes :=
  method_to_string (rq_method r) ++ str " " ++ rq_path r ++ str " " ++
  version_to_string (rq_ver r).

Lemma parse_request_line_ok r :
  x20 ∉ rq_path r -> line_version_ok (rq_ver r) ->
  parse_request_line (request_line r) = Ok (rq_method r, rq_path r, rq_ver r).
Proof.
  intros Hp Hv. unfold parse_request_line, request_line.
  set (m := method_to_string (rq_method r)). set (v := version_to_string (rq_ver r)).
  assert (Hm : x20 ∉ m).
  { unfold m. destruct (rq_method r); apply (bool_decide_unpack _); vm_compute; exact I. }
  change (str " ") with [x20]. change ([x20] ++ rq_path r ++ [x20] ++ v)
    with (x20 :: rq_path r ++ [x20] ++ v).
  rewrite find_char_first by done.
  assert (m ++ x20 :: rq_path r ++ [x20] ++ v = (m ++ [x20]) ++ rq_path r ++ x20 :: v) as E
    by (by rewrite <- app_assoc).
  rewrite E. replace (len m + 1) with (len (m ++ [x20])) by blia.
  rewrite find_second by done.
  assert (substr ((m ++ [x20]) ++ rq_path r ++ x20 :: v) 0 (len m) = m) as ->
    by (rewrite <- app_assoc; apply substr_0_app).
  unfold m. rewrite parse_method_to_string. fold m.
  assert (substr ((m ++ [x20]) ++ rq_path r ++ x20 :: v) (len (m ++ [x20]))
            (len (m ++ [x20]) + len (rq_path r) - len m - 1) = rq_path r) as ->.
  { unfold substr. rewrite dropZ_app_len by done. apply takeZ_app_len. blia. }
  assert (substr_from ((m ++ [x20]) ++ rq_path r ++ x20 :: v)
            (len (m ++ [x20]) + len (rq_path r) + 1) = v) as ->.
  { change (x20 :: v) with ([x20] ++ v). rewrite !app_assoc. apply substr_from_app. blia. }
  unfold v. destruct Hv as [-> | ->]; done.
Qed.

Definition status_line (r : response) : bytes :=
  version_to_string (rs_ver r) ++ str " " ++ to_string (rs_status r) ++ str " " ++
  reason_phrase (rs_status r).

Lemma parse_status_line_ok r :
  100 <= rs_status r <= 599 -> line_version_ok (rs_ver r) ->
  parse_status_line (status_line r) = Ok (rs_status r, rs_ver r).
Proof.
  intros Hs Hv. unfold parse_status_line, status_line.
  set (v := version_to_string (rs_ver r)). set (code := to_string (rs_status r)).
  assert (Hv20 : x20 ∉ v).
  { unfold v. destruct (rs_ver r); apply (bool_decide_unpack _); vm_compute; exact I. }
  change (str " ") with [x20].
  change ([x20] ++ code ++ [x20] ++ reason_phrase (rs_status r))
    with (x20 :: code ++ x20 :: reason_phrase (rs_status r)).
  rewrite find_char_first, substr_0_app by done.
  change (x20 :: code ++ x20 :: reason_phrase (rs_status r))
    with ([x20] ++ code ++ x20 :: reason_phrase (rs_status r)).
  rewrite app_assoc, substr_from_app by blia.
  rewrite find_char_first by (apply to_string_not_elem; [lia|by left]).
  rewrite substr_0_app. unfold from_chars_value, INT_MIN, INT_MAX, code.
  rewrite from_chars_to_string by lia.
  rewrite (proj2 (Z.ltb_ge _ 100)), (proj2 (Z.ltb_ge 599 _)) by lia. cbn [orb].
  unfold v. destruct Hv as [-> | ->]; done.
Qed.

Lemma request_line_cr r : CR ∉ rq_path r -> CR ∉ request_line r.
Proof.
  intros Hp. unfold request_line. change (str " ") with [x20].
  repeat apply not_elem_app; try done.
  all: try (apply (bool_decide_unpack _); vm_compute; exact I).
  - destruct (rq_method r); apply (bool_decide_unpack _); vm_compute; exact I.
  - destruct (rq_ver r); apply (bool_decide_unpack _); vm_compute; exact I.
Qed.

Lemma status_line_cr r : 0 <= rs_status r -> CR ∉ status_line r.
Proof.
  intros Hs. unfold status_line. change (str " ") with [x20].
  repeat apply not_elem_app.
  - destruct (rs_ver r); apply (bool_decide_unpack _); vm_compute; exact I.
  - apply (bool_decide_unpack _); vm_compute; exact I.
  - apply to_string_not_elem; [done|by left].
  - apply (bool_decide_unpack _); vm_compute; exact I.
  - unfold reason_phrase.
    repeat (match goal with |- context [if ?b then _ else _] => destruct b end;
            [apply (bool_decide_unpack _); vm_compute; exact I|]).
    apply (bool_decide_unpack _); vm_compute; exact I.
Qed.

Lemma serialize_request_message r :
  serialize_request r = message (request_line r) (rq_hdrs r) (rq_bd r).
Proof. unfold serialize_request, message, request_line. by rewrite <- !app_assoc. Qed.

Lemma serialize_response_message r :
  serialize_response r = message (status_line r) (rs_hdrs r) (rs_bd r).
Proof. unfold serialize_response, message, status_line. by rewrite <- !app_assoc. Qed.

Lemma message_app first hs bd rest : message first hs bd ++ rest = message first hs (bd ++ rest).
Proof. unfold message. by rewrite <- !app_assoc. Qed.

(** ** Lemmas: chunked bodies *)

(** A chunk as its sender wrote it: a size field, extensions included, and the
    data. *)
Definition chunk_wire (c : bytes * bytes) : bytes := c.1 ++ CRLF ++ c.2 ++ CRLF.

Definition size_field (s : bytes) (n : Z) : Prop :=
  (CR ∉ s) /\ from_chars 16 0 UINT64_MAX s = ErrNone n.

Definition chunk_ok (c : bytes * bytes) : Prop := size_field c.1 (len c.2) /\ c.2 <> [].

Lemma find_size_line pre s tail :
  CR ∉ s -> find (pre ++ s ++ CRLF ++ tail) CRLF (len pre) = Some (len pre + len s).
Proof.
  intros Hs. rewrite find_at.
  by rewrite (find_pat_first CR [LF] s tail Hs : find_pat CRLF (s ++ CRLF ++ tail) = _).
Qed.

Lemma size_line_substr pre s tail :
  substr (pre ++ s ++ CRLF ++ tail) (len pre) (len pre + len s - len pre) = s.
Proof.
  unfold substr. rewrite dropZ_app_len by done. apply takeZ_app_len. lia.
Qed.

Lemma chunk_loop_spec fuel pre cs z rest acc :
  Forall chunk_ok cs -> size_field z 0 -> (length cs < fuel)%nat ->
  let wire := concat (map chunk_wire cs) ++ z ++ CRLF ++ CRLF in
  len (pre ++ wire ++ rest) < 2 ^ 63 ->
  chunk_loop fuel (pre ++ wire ++ rest) (len pre) acc =
  Ok {| br_data := acc ++ concat (map snd cs); br_consumed := len (pre ++ wire);
        br_complete := true |}.
Proof.
  intros Hcs Hz. revert fuel pre acc.
  induction Hcs as [|[s d] cs [[Hs Hn] Hne] Hcs IH]; intros fuel pre acc Hf wire Hl;
    (destruct fuel as [|fuel]; [cbn in Hf; lia|]); cbn [chunk_loop].
  - destruct Hz as [Hz0 Hzn]. unfold wire in *. cbn [map concat app] in *.
    rewrite <- !app_assoc in *. rewrite (proj2 (Z.ltb_lt _ _)).
    2: { rewrite !len_app. change (len CRLF) with 2. bounds. lia. }
    rewrite find_size_line, size_line_substr, Hzn by done. cbn [Z.eqb].
    rewrite (proj2 (Z.leb_le _ _)).
    2: { rewrite !len_app. change (len CRLF) with 2. bounds. lia. }
    rewrite app_nil_r. do 2 f_equal. rewrite !len_app. change (len CRLF) with 2. lia.
  - cbn [fst snd length] in *. unfold wire in *. cbn [map concat] in *.
    set (more := concat (map chunk_wire cs) ++ z ++ CRLF ++ CRLF) in *.
    assert (Hd : pre ++ ((chunk_wire (s, d) ++ concat (map chunk_wire cs)) ++ z ++ CRLF ++ CRLF) ++ rest
                 = pre ++ s ++ CRLF ++ d ++ CRLF ++ more ++ rest).
    { unfold more, chunk_wire. cbn [fst snd]. by rewrite <- !app_assoc. }
    assert (Hw : len (pre ++ (chunk_wire (s, d) ++ concat (map chunk_wire cs)) ++ z ++ CRLF ++ CRLF)
                 = len ((pre ++ chunk_wire (s, d)) ++ more)).
    { f_equal. unfold more. by rewrite <- !app_assoc. }
    rewrite Hd in *. rewrite Hw. clear Hd Hw.
    assert (0 < len d). { destruct d; [done|]. blia. }
    pose proof Hl as Hl'. rewrite !len_app in Hl'. change (len CRLF) with 2 in Hl'.
    rewrite (proj2 (Z.ltb_lt _ _)) by (rewrite !len_app; bounds; change (len CRLF) with 2; lia).
    rewrite find_size_line, size_line_substr, Hn by done.
    rewrite (proj2 (Z.eqb_neq _ 0)) by lia. unfold u64. rewrite !Z.mod_small by (bounds; lia).
    rewrite (proj2 (Z.ltb_ge _ _)) by (rewrite !len_app; bounds; change (len CRLF) with 2; lia).
    assert (substr (pre ++ s ++ CRLF ++ d ++ CRLF ++ more ++ rest) (len pre + len s + 2) (len d) = d) as ->.
    { unfold substr. rewrite !(app_assoc pre), (app_assoc (pre ++ s)), dropZ_app_len.
      - by apply takeZ_app_len.
      - rewrite !len_app. change (len CRLF) with 2. lia. }
    replace (pre ++ s ++ CRLF ++ d ++ CRLF ++ more ++ rest)
      with ((pre ++ chunk_wire (s, d)) ++ more ++ rest) in *
      by (unfold chunk_wire; cbn [fst snd]; by rewrite <- !app_assoc).
    replace (len pre + len s + 2 + (len d + 2)) with (len (pre ++ chunk_wire (s, d))).
    2: { unfold chunk_wire. cbn [fst snd]. rewrite !len_app. change (len CRLF) with 2. lia. }
    unfold more. rewrite IH by (done || lia). by rewrite <- app_assoc.
Qed.

(** A chunk size within 20 of [2^64] brings the position back. *)
Lemma chunk_loop_diverges fuel rest acc :
  len rest < 2 ^ 62 ->
  chunk_loop fuel (str "ffffffffffffffec" ++ CRLF ++ rest) 0 acc = Timeout.
Proof.
  intros Hr. revert acc. set (s := str "ffffffffffffffec").
  induction fuel as [|fuel IH]; intros acc; cbn [chunk_loop];
    (rewrite (proj2 (Z.ltb_lt _ _)) by (rewrite !len_app; change (len s) with 16; bounds; lia));
    [done|].
  assert (CR ∉ s) as Hs by (apply (bool_decide_unpack _); vm_compute; exact I).
  pose proof (find_size_line [] s rest Hs) as Hfind. pose proof (size_line_substr [] s rest) as Hsub.
  cbn [app] in Hfind, Hsub. rewrite len_nil, Z.add_0_l in Hfind, Hsub.
  rewrite Hfind, Hsub.
  change (from_chars 16 0 UINT64_MAX s) with (ErrNone (2 ^ 64 - 20)). cbv iota.
  change (2 ^ 64 - 20 =? 0) with false. cbv iota. change (len s) with 16.
  change (u64 (16 + 2 + (2 ^ 64 - 20) + 2)) with 0.
  change (u64 (16 + 2 + (2 ^ 64 - 20 + 2))) with 0.
  rewrite (proj2 (Z.ltb_ge _ _)) by (bounds; lia). apply IH.
Qed.

(** Without such sizes every pass moves forward. *)
Lemma chunk_loop_ends fuel data pos acc :
  len data < 2 ^ 62 -> 0 <= pos -> len data - pos <= Z.of_nat fuel ->
  (forall i j n, find data CRLF i = Some j ->
     from_chars 16 0 UINT64_MAX (substr data i (j - i)) = ErrNone n -> n < 2 ^ 63) ->
  terminates (chunk_loop fuel data pos acc).
Proof.
  intros Hl Hp Hf Hn. revert pos acc Hp Hf. induction fuel as [|fuel IH]; intros pos acc Hp Hf;
    cbn [chunk_loop]; destruct (Z.ltb_spec pos (len data)); try done; [lia|].
  destruct (find data CRLF pos) as [j|] eqn:Ej; [|done].
  assert (pos <= j /\ j + 2 <= len data) as [Hj Hj2].
  { unfold find in Ej. destruct (_ <? _); [done|].
    destruct (find_pat CRLF (dropZ pos data)) as [k|] eqn:Ek; [|done].
    injection Ej as <-. apply find_pat_bounds in Ek. rewrite len_dropZ in Ek.
    change (len CRLF) with 2 in Ek. lia. }
  destruct (from_chars _ _ _ _) as [n| |] eqn:En; try done.
  specialize (Hn _ _ _ Ej En).
  assert (0 <= n).
  { unfold from_chars in En. destruct (match _ with [] => _ | _ => _ end) as [neg ds].
    destruct (scan_digits _ _ _ _) as [m v]. destruct (m =? 0); [done|].
    destruct ((_ <? 0) || _) eqn:E; [done|]. injection En as <-. lia. }
  destruct (Z.eqb_spec n 0); [by destruct (_ <=? _)|].
  destruct (_ <? _); [done|]. unfold u64. rewrite Z.mod_small by lia. apply IH; lia.
Qed.

(** ** Properties *)

Definition request_wf (r : request) : Prop :=
  (x20 ∉ rq_path r) /\ (CR ∉ rq_path r) /\ line_version_ok (rq_ver r) /\
  Forall field_ok (rq_hdrs r) /\ body_ok (rq_hdrs r) (rq_bd r).

Lemma request_parses (r : request) :
  request_wf r ->
  (forall fuel rest,
     parse_request fuel (serialize_request r ++ rest) =
     Ok (Some ({| rq_method := rq_method r; rq_path := (split_target (rq_path r)).1;
                  rq_query := (split_target (rq_path r)).2; rq_ver := rq_ver r;
                  rq_hdrs := rq_hdrs r; rq_bd := rq_bd r |}, len (serialize_request r)))) /\
  (forall fuel p q, serialize_request r = p ++ q -> q <> [] -> parse_request fuel p = Ok None).
Proof.
  intros (H20 & Hcr & Hv & Hhs & Hb). pose proof (request_line_cr r Hcr) as Hline.
  rewrite serialize_request_message.
  assert (Hparse : forall fuel b,
    parse_request fuel (message (request_line r) (rq_hdrs r) b) =
    (body_res ← parse_body fuel b (rq_hdrs r);
     if negb (br_complete body_res) then Ok None else
     Ok (Some ({| rq_method := rq_method r; rq_path := (split_target (rq_path r)).1;
                  rq_query := (split_target (rq_path r)).2; rq_ver := rq_ver r;
                  rq_hdrs := rq_hdrs r; rq_bd := br_data body_res |},
               head_size (request_line r) (rq_hdrs r) + br_consumed body_res)))).
  { intros fuel b. unfold parse_request.
    destruct (message_parts _ _ b Hline Hhs) as (-> & -> & -> & -> & ->).
    rewrite parse_request_line_ok by done. cbn [mbind outcome_bind].
    destruct (split_target (rq_path r)) as [path query].
    by rewrite parse_header_lines_serialize. }
  split.
  - intros fuel rest. rewrite message_app, Hparse, parse_body_exact by done.
    cbn [mbind outcome_bind br_complete br_data br_consumed negb].
    by rewrite len_message.
  - intros fuel p q E Hq. destruct (Z.lt_ge_cases (len p) (head_size (request_line r) (rq_hdrs r))).
    + unfold parse_request. by rewrite (header_end_prefix _ _ _ p q Hline Hhs E).
    + destruct (message_prefix _ _ _ _ _ E ltac:(lia)) as (b & -> & Eb).
      rewrite Hparse. destruct (parse_body_partial fuel _ _ _ _ Hb Eb Hq) as (res & -> & Hc).
      cbn [mbind outcome_bind]. by rewrite Hc.
Qed.

(** C38: HTTP/1 requests survive the wire: the parser gives back method, target
    (cut at its first [?] into path and query), version, headers in order and
    body, and the number of bytes of this message even when the next one
    follows; on every proper prefix it asks for more bytes. *)
Theorem http1_request_roundtrip (r : request) :
  request_wf r ->
  (forall fuel rest,
     parse_request fuel (serialize_request r ++ rest) =
     Ok (Some ({| rq_method := rq_method r; rq_path := (split_target (rq_path r)).1;
                  rq_query := (split_target (rq_path r)).2; rq_ver := rq_ver r;
                  rq_hdrs := rq_hdrs r; rq_bd := rq_bd r |}, len (serialize_request r)))) /\
  (forall fuel p q, serialize_request r = p ++ q -> q <> [] -> parse_request fuel p = Ok None).
Proof. exact (request_parses r). Qed.

Definition example_request : request :=
  request_build {| rq_method := POST; rq_path := str "/items?id=7"; rq_query := [];
                   rq_ver := HTTP_11;
                   rq_hdrs := [(str "Host", str "example.com"); (str "X-Note", str "a: b")];
                   rq_bd := str "hello" |}.

Lemma http1_request_roundtrip_witness :
  parse_request 0 (serialize_request example_request ++ str "GET ") =
  Ok (Some ({| rq_method := POST; rq_path := str "/items"; rq_query := str "id=7";
               rq_ver := HTTP_11;
               rq_hdrs := [(str "Host", str "example.com"); (str "X-Note", str "a: b");
                           (str "Content-Length", str "5")];
               rq_bd := str "hello" |}, len (serialize_request example_request))) /\
  parse_request 0 (takeZ 60 (serialize_request example_request)) = Ok None.
Proof.
  assert (H : request_wf example_request).
  { split_and!; try (apply (bool_decide_unpack _); vm_compute; exact I).
    repeat constructor; cbn; try (apply (bool_decide_unpack _); vm_compute; exact I);
      intros c [= <-]; reflexivity. }
  split.
  - rewrite (proj1 (http1_request_roundtrip example_request H)). reflexivity.
  - apply (proj2 (http1_request_roundtrip example_request H) 0%nat _ (dropZ 60 (serialize_request example_request))).
    + by rewrite takeZ_dropZ.
    + vm_compute. congruence.
Defined.

(** A response whose end the parser can find: it announces its body, or its
    status allows none. *)
Definition response_wf (r : response) : Prop :=
  100 <= rs_status r <= 599 /\ line_version_ok (rs_ver r) /\
  Forall field_ok (rs_hdrs r) /\ is_chunked (rs_hdrs r) = false /\
  (content_length (rs_hdrs r) = Some (len (rs_bd r)) \/
   content_length (rs_hdrs r) = None /\ rs_bd r = [] /\
   (rs_status r = 204 \/ rs_status r = 304 \/ rs_status r < 200)).

Lemma response_parses (r : response) :
  response_wf r ->
  (forall fuel rest,
     parse_response fuel (serialize_response r ++ rest) =
     Ok (Some ({| rs_status := rs_status r; rs_ver := rs_ver r; rs_hdrs := rs_hdrs r;
                  rs_bd := rs_bd r; rs_trailers := [] |}, len (serialize_response r)))) /\
  (forall fuel p q, serialize_response r = p ++ q -> q <> [] ->
     parse_response fuel p = Ok None).
Proof.
  intros (Hs & Hv & Hhs & Hch & Hb).
  assert (Hline : CR ∉ status_line r) by (apply status_line_cr; lia).
  rewrite serialize_response_message.
  assert (Hbody : body_ok (rs_hdrs r) (rs_bd r)).
  { split; [done|]. destruct Hb as [?|(? & ? & _)]; [by left|by right]. }
  assert (Hparse : forall fuel b,
    parse_response fuel (message (status_line r) (rs_hdrs r) b) =
    (body_res ← parse_body fuel b (rs_hdrs r);
     if negb (br_complete body_res) then Ok None else
     Ok (Some ({| rs_status := rs_status r; rs_ver := rs_ver r; rs_hdrs := rs_hdrs r;
                  rs_bd := br_data body_res; rs_trailers := [] |},
               head_size (status_line r) (rs_hdrs r) + br_consumed body_res)))).
  { intros fuel b. unfold parse_response.
    destruct (message_parts _ _ b Hline Hhs) as (-> & -> & -> & -> & ->).
    rewrite parse_status_line_ok by done. cbn [mbind outcome_bind].
    rewrite parse_header_lines_serialize, Hch by done. cbn [negb]. rewrite andb_true_r.
    destruct Hb as [Hb|(Hb & Hnil & Hcode)].
    - rewrite bool_decide_eq_false_2 by congruence. done.
    - rewrite bool_decide_eq_true_2 by done. unfold parse_body. rewrite Hch, Hb. cbn.
      assert ((rs_status r =? 204) || (rs_status r =? 304) ||
              ((100 <=? rs_status r) && (rs_status r <? 200)) = true) as ->; [lia|].
      by rewrite Z.add_0_r. }
  split.
  - intros fuel rest. rewrite message_app, Hparse, parse_body_exact by done.
    cbn [mbind outcome_bind br_complete br_data br_consumed negb]. by rewrite len_message.
  - intros fuel p q E Hq. destruct (Z.lt_ge_cases (len p) (head_size (status_line r) (rs_hdrs r))).
    + unfold parse_response. by rewrite (header_end_prefix _ _ _ p q Hline Hhs E).
    + destruct (message_prefix _ _ _ _ _ E ltac:(lia)) as (b & -> & Eb).
      rewrite Hparse.
      destruct (parse_body_partial fuel _ _ _ _ Hbody Eb Hq) as (res & -> & Hc).
      cbn [mbind outcome_bind]. by rewrite Hc.
Qed.

(** C39: HTTP/1 responses survive the wire: status, version, headers in order and
    body come back (trailers do not), with the number of bytes of this message,
    whatever follows it; on every proper prefix of a response that announces
    its length the parser asks for more bytes. *)
Theorem http1_response_roundtrip (r : response) :
  response_wf r ->
  (forall fuel rest,
     parse_response fuel (serialize_response r ++ rest) =
     Ok (Some ({| rs_status := rs_status r; rs_ver := rs_ver r; rs_hdrs := rs_hdrs r;
                  rs_bd := rs_bd r; rs_trailers := [] |}, len (serialize_response r)))) /\
  (forall fuel p q, serialize_response r = p ++ q -> q <> [] ->
     parse_response fuel p = Ok None).
Proof. exact (response_parses r). Qed.

Definition example_response : response :=
  {| rs_status := 404; rs_ver := HTTP_11;
     rs_hdrs := [(str "Content-Length", str "9"); (str "Content-Type", str "text/plain")];
     rs_bd := str "Not Found"; rs_trailers := [] |}.

Lemma http1_response_roundtrip_witness :
  parse_response 0 (serialize_response example_response ++ str "HTTP/1.1 200 OK") =
  Ok (Some (example_response, len (serialize_response example_response))).
Proof.
  apply (http1_response_roundtrip example_response).
  split_and!; try (apply (bool_decide_unpack _); vm_compute; exact I).
  repeat constructor; cbn; try (apply (bool_decide_unpack _); vm_compute; exact I);
    intros c [= <-]; reflexivity.
Defined.

(** A chunked body decodes to the concatenation of its chunks, whatever
    extensions the size fields carry and whatever follows the last chunk; the
    number of bytes consumed is that of the chunks. *)
Theorem chunked_body_roundtrip (hdrs : headers) (cs : list (bytes * bytes)) (z rest : bytes)
    (fuel : nat) :
  is_chunked hdrs = true -> Forall chunk_ok cs -> size_field z 0 -> (length cs < fuel)%nat ->
  let wire := concat (map chunk_wire cs) ++ z ++ CRLF ++ CRLF in
  len (wire ++ rest) < 2 ^ 63 ->
  parse_body fuel (wire ++ rest) hdrs =
  Ok {| br_data := concat (map snd cs); br_consumed := len wire; br_complete := true |}.
Proof.
  intros Hc Hcs Hz Hf wire Hl. unfold parse_body. rewrite Hc.
  apply (chunk_loop_spec fuel [] cs z rest []); done.
Qed.

Definition example_chunks : list (bytes * bytes) :=
  [(str "5", str "hello"); (str "00A;name=value", str ", chunked!")].

Lemma chunked_body_roundtrip_witness :
  parse_body 9 ((concat (map chunk_wire example_chunks) ++ str "0" ++ CRLF ++ CRLF) ++ str "GET")
    [(str "transfer-encoding", str "Chunked")] =
  Ok {| br_data := str "hello, chunked!"; br_consumed := 43; br_complete := true |}.
Proof.
  rewrite (chunked_body_roundtrip _ example_chunks (str "0") (str "GET") 9).
  - vm_compute. reflexivity.
  - vm_compute. reflexivity.
  - repeat constructor; try (vm_compute; congruence);
      apply (bool_decide_unpack _); vm_compute; exact I.
  - split; [apply (bool_decide_unpack _); vm_compute; exact I|vm_compute; reflexivity].
  - cbn. lia.
  - ground.
Defined.

(** The chunk loop ends on every body in which no chunk size reaches
    [2^63], but [pos + chunk_size] wraps: after a size line of
    [ffffffffffffffec] the position is back at that line, and the loop never
    ends whatever follows. *)
Theorem chunk_loop_termination (hdrs : headers) (data : bytes) :
  is_chunked hdrs = true -> len data < 2 ^ 62 ->
  ((forall i j n, find data CRLF i = Some j ->
      from_chars 16 0 UINT64_MAX (substr data i (j - i)) = ErrNone n -> n < 2 ^ 63) ->
   parse_body (length data) data hdrs <> Timeout) /\
  (forall fuel, parse_body fuel (str "ffffffffffffffec" ++ CRLF ++ data) hdrs = Timeout).
Proof.
  intros Hc Hl. unfold parse_body. rewrite Hc. split.
  - intros Hn. apply chunk_loop_ends; done || (unfold len; lia).
  - intros fuel. by apply chunk_loop_diverges.
Qed.

Lemma chunk_loop_termination_witness :
  parse_body 0 [] [(str "Transfer-Encoding", str "chunked")] <> Timeout /\
  parse_body 1000 (str "ffffffffffffffec" ++ CRLF ++ str "abc")
    [(str "Transfer-Encoding", str "chunked")] = Timeout.
Proof.
  split.
  - apply (chunk_loop_termination [(str "Transfer-Encoding", str "chunked")] []); [ground..|].
    intros i j n Hf. unfold find, dropZ in Hf. rewrite drop_nil in Hf. cbn in Hf.
    by destruct (len [] <? i).
  - apply (chunk_loop_termination [(str "Transfer-Encoding", str "chunked")] (str "abc")); ground.
Defined.
