(* ===== verification/WebSocket.v ===== *)
(** * WebSocket (src/include/async_net/http/websocket.hpp)

    SHA-1 and Base64 of the handshake, the frame codec with its three length
    forms and masking, and [websocket_connection]: the read buffer and the
    receive loop with fragmentation and control frames.  Socket reads are a list
    of chunks, the frames written are an output list.  An opcode is the integer
    of its 4 bits, since the parser casts any of them. *)
From S2P Require Import Prelude CppString HttpTypes Framing.
From stdpp Require Import options.

(** ** Opcodes and frames *)
Module opcode.
Definition continuation : Z := 0x0.
Definition text : Z := 0x1.
Definition binary : Z := 0x2.
Definition close : Z := 0x8.
Definition ping : Z := 0x9.
Definition pong : Z := 0xA.
End opcode.

Record frame := { fin : bool; op : Z; masked : bool; payload : bytes }.

(** ** SHA-1 *)
Definition left_rotate (value bits : Z) : Z :=
  Z.lor (u32 (Z.shiftl value bits)) (Z.shiftr value (32 - bits)).

(** [~b] on [uint32_t] *)
Definition not32 (v : Z) : Z := Z.lxor v 0xFFFFFFFF.

Definition be64 (v : Z) : bytes :=
  map (fun i => b8 (Z.shiftr v (i * 8))) [7; 6; 5; 4; 3; 2; 1; 0].

Definition sha1_pad (input : bytes) : bytes :=
  let original_len := u64 (len input * 8) in
  let zeros := (55 - len input) mod 64 in
  input ++ [x80] ++ repeat x00 (Z.to_nat zeros) ++ be64 original_len.

(** [w[0..15]] of a chunk, then [w[16..79]], newest first. *)
Definition sha1_words (chunk : bytes) : list Z :=
  map (fun i => rd32 chunk (4 * Z.of_nat i)) (seq 0 16).

Fixpoint sha1_extend (n : nat) (rev_w : list Z) : list Z :=
  match n with
  | O => rev_w
  | S n =>
      let w i := nth (i - 1) rev_w 0 in
      sha1_extend n
        (left_rotate (Z.lxor (Z.lxor (Z.lxor (w 3%nat) (w 8%nat)) (w 14%nat)) (w 16%nat)) 1 :: rev_w)
  end.

Record sha1_state := sha1 { sa : Z; sb : Z; sc : Z; sd : Z; se : Z }.

Definition sha1_round (s : sha1_state) (iw : nat * Z) : sha1_state :=
  let '(i, wi) := iw in
  let '(sha1 a b c d e) := s in
  let '(f, k) :=
    if (i <? 20)%nat then (Z.lor (Z.land b c) (Z.land (not32 b) d), 0x5A827999)
    else if (i <? 40)%nat then (Z.lxor (Z.lxor b c) d, 0x6ED9EBA1)
    else if (i <? 60)%nat then
      (Z.lor (Z.lor (Z.land b c) (Z.land b d)) (Z.land c d), 0x8F1BBCDC)
    else (Z.lxor (Z.lxor b c) d, 0xCA62C1D6) in
  sha1 (u32 (left_rotate a 5 + f + e + k + wi)) a (left_rotate b 30) c d.

Definition sha1_chunk (h : sha1_state) (chunk : bytes) : sha1_state :=
  let w := rev (sha1_extend 64 (rev (sha1_words chunk))) in
  let s := foldl sha1_round h (zip (seq 0 80) w) in
  sha1 (u32 (sa h + sa s)) (u32 (sb h + sb s)) (u32 (sc h + sc s)) (u32 (sd h + sd s))
       (u32 (se h + se s)).

(** One unit of fuel per 64-byte chunk. *)
Fixpoint sha1_chunks (fuel : nat) (h : sha1_state) (msg : bytes) : sha1_state :=
  match fuel with
  | O => h
  | S fuel =>
      if len msg =? 0 then h
      else sha1_chunks fuel (sha1_chunk h (takeZ 64 msg)) (dropZ 64 msg)
  end.

Definition sha1_compute (input : bytes) : bytes :=
  let msg := sha1_pad input in
  let h := sha1_chunks (length msg)
             (sha1 0x67452301 0xEFCDAB89 0x98BADCFE 0x10325476 0xC3D2E1F0) msg in
  be32 (sa h) ++ be32 (sb h) ++ be32 (sc h) ++ be32 (sd h) ++ be32 (se h).

(** ** Base64 *)
Definition base64_table : bytes :=
  str "ABCDEFGHIJKLMNOPQRSTUVWXYZabcdefghijklmnopqrstuvwxyz0123456789+/".

Definition base64_char (v : Z) : byte := byte_at base64_table (Z.land v 0x3F).

Definition base64_triple (a b c : Z) : Z := Z.lor (Z.lor (Z.shiftl a 16) (Z.shiftl b 8)) c.

Fixpoint base64_encode (input : bytes) : bytes :=
  match input with
  | a :: b :: c :: rest =>
      let t := base64_triple (u8 a) (u8 b) (u8 c) in
      [base64_char (Z.shiftr t 18); base64_char (Z.shiftr t 12);
       base64_char (Z.shiftr t 6); base64_char t] ++ base64_encode rest
  | [a; b] =>
      let t := base64_triple (u8 a) (u8 b) 0 in
      [base64_char (Z.shiftr t 18); base64_char (Z.shiftr t 12);
       base64_char (Z.shiftr t 6); x3d]
  | [a] =>
      let t := base64_triple (u8 a) 0 0 in
      [base64_char (Z.shiftr t 18); base64_char (Z.shiftr t 12); x3d; x3d]
  | [] => []
  end.

(** ** Handshake *)
Definition kWsGuid : bytes := str "258EAFA5-E914-47DA-95CA-C5AB0DC85B11".

Definition compute_accept_key (key : bytes) : bytes :=
  base64_encode (sha1_compute (key ++ kWsGuid)).

Definition is_websocket_upgrade (req : request) : bool :=
  if negb (bool_decide (rq_method req = GET)) then false else
  match headers_get (rq_hdrs req) (str "Upgrade") with
  | None => false
  | Some upgrade =>
      if negb (bool_decide (to_lower upgrade = str "websocket")) then false else
      match headers_get (rq_hdrs req) (str "Connection") with
      | None => false
      | Some connection =>
          match find (to_lower connection) (str "upgrade") 0 with
          | None => false
          | Some _ => headers_contains (rq_hdrs req) (str "Sec-WebSocket-Key")
          end
      end
  end.

Definition build_handshake_response (req : request) : bytes :=
  match headers_get (rq_hdrs req) (str "Sec-WebSocket-Key") with
  | None => []
  | Some key =>
      str "HTTP/1.1 101 Switching Protocols" ++ CRLF ++
      str "Upgrade: websocket" ++ CRLF ++
      str "Connection: Upgrade" ++ CRLF ++
      str "Sec-WebSocket-Accept: " ++ compute_accept_key key ++ CRLF ++ CRLF
  end.

(** ** Frame codec *)
Definition encode_length (n : Z) : bytes :=
  if n <=? 125 then [b8 n]
  else if n <=? 65535 then
    [b8 126; b8 (Z.land (Z.shiftr n 8) 0xFF); b8 (Z.land n 0xFF)]
  else [b8 127] ++ be64 n.

Definition encode_frame (op : Z) (payload : bytes) (fin : bool) : bytes :=
  let byte0 := if fin then Z.lor op 0x80 else op in
  [b8 byte0] ++ encode_length (len payload) ++ payload.

Definition xor_byte (a b : byte) : byte := b8 (Z.lxor (u8 a) (u8 b)).

(** [payload[i] ^= mask_key[i % 4]] *)
Definition unmask (key payload : bytes) : bytes :=
  imap (fun i c => xor_byte c (byte_at key (Z.of_nat i mod 4))) payload.

Definition rd64 (p : bytes) (i : Z) : Z :=
  foldl (fun acc k => Z.lor (u64 (Z.shiftl acc 8)) (u8 (byte_at p (i + k)))) 0
    [0; 1; 2; 3; 4; 5; 6; 7].

(** The payload length and the position after it; [None] asks for more data. *)
Definition parse_length (data : bytes) : option (Z * Z) :=
  let n := Z.land (u8 (byte_at data 1)) 0x7F in
  if n =? 126 then
    if len data <? 4 then None
    else Some (Z.lor (Z.shiftl (u8 (byte_at data 2)) 8) (u8 (byte_at data 3)), 4)
  else if n =? 127 then
    if len data <? 10 then None else Some (rd64 data 2, 10)
  else Some (n, 2).

(** [std::string(p, n)]; [max_size] is [2^63 - 1]. *)
Definition make_string (data : bytes) (n : Z) : outcome bytes :=
  if 2 ^ 63 - 1 <? n then Throws LengthError else rd_n data n.

Definition parse_frame (data : bytes) : outcome (option (frame * Z)) :=
  if len data <? 2 then Ok None else
  let byte0 := u8 (byte_at data 0) in
  let byte1 := u8 (byte_at data 1) in
  let fin := negb (Z.land byte0 0x80 =? 0) in
  let op := Z.land byte0 0x0F in
  let masked := negb (Z.land byte1 0x80 =? 0) in
  match parse_length data with
  | None => Ok None
  | Some (payload_len, pos) =>
      if masked && (len data <? pos + 4) then Ok None else
      let mask_key := if masked then takeZ 4 (dropZ pos data) else [x00; x00; x00; x00] in
      let pos := if masked then pos + 4 else pos in
      if len data <? u64 (pos + payload_len) then Ok None else
      payload ← make_string (dropZ pos data) payload_len;
      let payload := if masked then unmask mask_key payload else payload in
      Ok (Some ({| fin := fin; op := op; masked := masked; payload := payload |},
                u64 (pos + payload_len)))
  end.

(** ** [websocket_connection] *)

(** [read_frame]: parse the buffer, else append what the socket gives.  [None]
    is the end of the connection; the result keeps the buffer and the chunks
    not yet read. *)
Fixpoint read_frame (read_buffer : bytes) (chunks : list bytes)
  : outcome (option frame * bytes * list bytes) :=
  r ← (if bool_decide (read_buffer = []) then Ok None else parse_frame read_buffer);
  match r with
  | Some (frm, consumed) => Ok (Some frm, dropZ consumed read_buffer, chunks)
  | None =>
      match chunks with
      | [] => Ok (None, read_buffer, [])
      | c :: chunks =>
          if len c =? 0 then Ok (None, read_buffer, chunks)
          else read_frame (read_buffer ++ c) chunks
      end
  end.

(** The locals of [receive]. *)
Record receive_state := { rc_message : bytes; rc_in_fragment : bool }.

Definition receive_start : receive_state := {| rc_message := []; rc_in_fragment := false |}.

(** One frame of the receive loop: what is written to the socket, and either
    the value returned or the state to go on with. *)
Definition receive_step (s : receive_state) (f : frame) : list bytes * (bytes + receive_state) :=
  if op f =? opcode.close then ([encode_frame opcode.close [] true], inl [])
  else if op f =? opcode.ping then ([encode_frame opcode.pong (payload f) true], inr s)
  else if op f =? opcode.pong then ([], inr s)
  else if (op f =? opcode.text) || (op f =? opcode.binary) then
    if fin f then ([], inl (payload f))
    else ([], inr {| rc_message := payload f; rc_in_fragment := true |})
  else if op f =? opcode.continuation then
    if negb (rc_in_fragment s) then ([], inl [])
    else
      let message := rc_message s ++ payload f in
      if fin f then ([], inl message)
      else ([], inr {| rc_message := message; rc_in_fragment := true |})
  else ([], inr s).

(** [receive] on the frames that arrive: the frames written, the message ([None]
    when the loop waits for more), and the frames left. *)
Fixpoint receive (s : receive_state) (frames : list frame)
  : list bytes * option bytes * list frame :=
  match frames with
  | [] => ([], None, [])
  | f :: frames =>
      match receive_step s f with
      | (out, inl message) => (out, Some message, frames)
      | (out, inr s) =>
          let '(out', message, rest) := receive s frames in (out ++ out', message, rest)
      end
  end.

(** [close(code, reason)] *)
Definition close_frame (code : Z) (reason : bytes) : bytes :=
  encode_frame opcode.close
    (b8 (Z.land (Z.shiftr code 8) 0xFF) :: b8 (Z.land code 0xFF) :: reason) true.

(** ** Lemmas: lengths *)

Lemma rd64_step acc b :
  0 <= acc < 2 ^ 56 -> Z.lor (u64 (Z.shiftl acc 8)) (u8 b) = acc * 256 + u8 b.
Proof.
  intros Ha. unfold u64. rewrite Z.mod_small.
  - apply (lor_shiftl_add acc (u8 b) 8); [lia|apply u8_range].
  - rewrite Z.shiftl_mul_pow2 by lia. lia.
Qed.

Lemma rd64_val p i :
  rd64 p i =
  u8 (byte_at p (i + 0)) * 2 ^ 56 + u8 (byte_at p (i + 1)) * 2 ^ 48 +
  u8 (byte_at p (i + 2)) * 2 ^ 40 + u8 (byte_at p (i + 3)) * 2 ^ 32 +
  u8 (byte_at p (i + 4)) * 2 ^ 24 + u8 (byte_at p (i + 5)) * 2 ^ 16 +
  u8 (byte_at p (i + 6)) * 2 ^ 8 + u8 (byte_at p (i + 7)).
Proof.
  unfold rd64. cbn [foldl]. bounds.
  rewrite (rd64_step 0) by lia.
  do 7 (match goal with
        | |- context [Z.lor (u64 (Z.shiftl (?a + ?b) 8)) (u8 ?c)] =>
            rewrite (rd64_step (a + b) c) by lia
        end).
  lia.
Qed.

Lemma len_be64 v : len (be64 v) = 8.
Proof. done. Qed.

Lemma rd64_be64 v q : 0 <= v < 2 ^ 64 -> rd64 (be64 v ++ q) 0 = v.
Proof.
  intros Hv. rewrite rd64_val. unfold be64. cbn [map app Z.add]. byte_at_simpl.
  rewrite !u8_b8, !Z.shiftr_div_pow2 by lia. lia.
Qed.

Lemma rd64_shift p q i : len p <= i -> rd64 (p ++ q) i = rd64 q (i - len p).
Proof.
  intros. rewrite !rd64_val, !byte_at_app_r by lia.
  assert (Hk : forall k, i + k - len p = i - len p + k) by lia. by rewrite !Hk.
Qed.

(** ** Lemmas: masking *)

Lemma xor_byte_involutive a b : xor_byte (xor_byte a b) b = a.
Proof.
  apply u8_inj. unfold xor_byte. rewrite !u8_b8.
  assert (Hx : forall x y, 0 <= x < 256 -> 0 <= y < 256 -> 0 <= Z.lxor x y < 256).
  { intros x y Hx Hy. assert (Z.lxor x y = Z.lxor x y mod 2 ^ 8) as ->; [|lia].
    symmetry. rewrite <- Z.land_ones by lia. apply Z.bits_inj'; intros n Hn.
    rewrite Z.land_spec, Z.lxor_spec, Z.testbit_ones by lia.
    destruct (Z.ltb_spec n 8); [by rewrite (proj2 (Z.leb_le 0 n)), andb_true_r by lia|].
    rewrite (proj2 (Z.leb_le 0 n)) by lia. rewrite andb_false_r.
    rewrite <- (Z.mod_small x (2 ^ 8)), <- (Z.mod_small y (2 ^ 8)) by lia.
    by rewrite !Z.mod_pow2_bits_high by lia. }
  pose proof (u8_range a). pose proof (u8_range b).
  rewrite (Z.mod_small (Z.lxor (u8 a) (u8 b))) by auto.
  rewrite Z.lxor_assoc, Z.lxor_nilpotent, Z.lxor_0_r. lia.
Qed.

Lemma unmask_involutive key p : unmask key (unmask key p) = p.
Proof.
  unfold unmask. apply list_eq. intros i. rewrite !list_lookup_imap.
  destruct (p !! i); cbn; [|done]. by rewrite xor_byte_involutive.
Qed.

Lemma len_unmask key p : len (unmask key p) = len p.
Proof. unfold unmask, len. by rewrite length_imap. Qed.

(** ** Lemmas: frames *)

(** A frame as its sender writes it: a server as [encode_frame] does, a client
    with the mask bit set, a key and the masked payload. *)
Definition frame_wire (key : bytes) (f : frame) : bytes :=
  if masked f then
    [b8 (if fin f then Z.lor (op f) 0x80 else op f)] ++
    (match encode_length (len (payload f)) with
     | c :: t => b8 (u8 c + 128) :: t
     | [] => []
     end) ++ key ++ unmask key (payload f)
  else encode_frame (op f) (payload f) (fin f).

Definition frame_ok (f : frame) : Prop := 0 <= op f < 16 /\ len (payload f) < 2 ^ 62.

Definition wire_ok (kf : bytes * frame) : Prop := len kf.1 = 4 /\ frame_ok kf.2.

(** Reference: one frame off the front of a byte string, without overflow. *)
Definition parse_frame1 (data : bytes) : option (frame * Z) :=
  if len data <? 2 then None else
  let byte0 := u8 (byte_at data 0) in
  let masked := negb (Z.land (u8 (byte_at data 1)) 0x80 =? 0) in
  '(n, pos) ← parse_length data;
  let hdr := if masked then pos + 4 else pos in
  if len data <? hdr + n then None else
  let raw := takeZ n (dropZ hdr data) in
  Some ({| fin := negb (Z.land byte0 0x80 =? 0); op := Z.land byte0 0x0F; masked := masked;
           payload := if masked then unmask (takeZ 4 (dropZ pos data)) raw else raw |}, hdr + n).

(** The length field of the frame in front is small. *)
Definition length_small (data : bytes) : Prop :=
  forall n pos, parse_length data = Some (n, pos) -> n < 2 ^ 62.

Lemma parse_length_bounds data n pos :
  2 <= len data -> parse_length data = Some (n, pos) ->
  0 <= n < 2 ^ 64 /\ 2 <= pos <= len data /\ pos <= 10.
Proof.
  intros Hl. unfold parse_length. rewrite land_0x7F.
  pose proof (u8_range (byte_at data 1)).
  destruct (_ =? 126).
  { destruct (Z.ltb_spec (len data) 4); [done|]. intros [= <- <-].
    rewrite lor_shiftl_add by (bounds; lia). bounds. lia. }
  destruct (_ =? 127).
  { destruct (Z.ltb_spec (len data) 10); [done|]. intros [= <- <-].
    rewrite rd64_val. bounds. lia. }
  intros [= <- <-]. lia.
Qed.

Lemma parse_frame_ref data :
  len data < 2 ^ 62 -> length_small data -> parse_frame data = Ok (parse_frame1 data).
Proof.
  intros Hl Hs. unfold parse_frame, parse_frame1.
  destruct (Z.ltb_spec (len data) 2) as [|H2]; [done|].
  destruct (parse_length data) as [[n pos]|] eqn:E; [|done]. cbn [mbind option_bind].
  pose proof (parse_length_bounds _ _ _ H2 E). specialize (Hs _ _ E).
  set (m := negb _). unfold u64. rewrite Z.mod_small by (destruct m; lia).
  destruct m; cbn [andb].
  - destruct (Z.ltb_spec (len data) (pos + 4)).
    { by rewrite (proj2 (Z.ltb_lt _ _)) by lia. }
    destruct (Z.ltb_spec (len data) (pos + 4 + n)); [done|].
    unfold make_string, rd_n. rewrite (proj2 (Z.ltb_ge _ n)) by lia.
    rewrite (proj2 (Z.leb_le _ _)) by (rewrite len_dropZ; lia). done.
  - destruct (Z.ltb_spec (len data) (pos + n)); [done|].
    unfold make_string, rd_n. rewrite (proj2 (Z.ltb_ge _ n)) by lia.
    rewrite (proj2 (Z.leb_le _ _)) by (rewrite len_dropZ; lia). done.
Qed.

Lemma parse_length_app data c r :
  2 <= len data -> parse_length data = Some r -> parse_length (data ++ c) = Some r.
Proof.
  intros H2. unfold parse_length. rewrite len_app. pose proof (len_nonneg c).
  rewrite (byte_at_app_l data c 1) by lia. destruct (_ =? 126).
  { destruct (Z.ltb_spec (len data) 4); [done|]. rewrite !byte_at_app_l by lia. zdec. done. }
  destruct (_ =? 127); [|done].
  destruct (Z.ltb_spec (len data) 10); [done|].
  rewrite !rd64_val, !byte_at_app_l by lia. zdec. done.
Qed.

Lemma ws_parse_frame1_bounds b f n : parse_frame1 b = Some (f, n) -> 0 < n <= len b.
Proof.
  unfold parse_frame1. destruct (Z.ltb_spec (len b) 2) as [|H2]; [done|].
  destruct (parse_length b) as [[k pos]|] eqn:E; [|done]. cbn [mbind option_bind].
  pose proof (parse_length_bounds _ _ _ H2 E).
  set (m := negb (Z.land (u8 (byte_at b 1)) 0x80 =? 0)).
  destruct (Z.ltb_spec (len b) ((if m then pos + 4 else pos) + k)); [done|].
  intros [= _ <-]. destruct m; lia.
Qed.

Lemma ws_parse_frame1_app b c f n :
  parse_frame1 b = Some (f, n) -> parse_frame1 (b ++ c) = Some (f, n).
Proof.
  unfold parse_frame1. destruct (Z.ltb_spec (len b) 2) as [|H2]; [done|].
  rewrite len_app. pose proof (len_nonneg c). rewrite (proj2 (Z.ltb_ge _ 2)) by lia.
  destruct (parse_length b) as [[k pos]|] eqn:E; [|done]. cbn [mbind option_bind].
  rewrite (parse_length_app _ c _ H2 E). cbn [mbind option_bind].
  pose proof (parse_length_bounds _ _ _ H2 E). rewrite !byte_at_app_l by lia.
  set (m := negb (Z.land (u8 (byte_at b 1)) 0x80 =? 0)).
  destruct (Z.ltb_spec (len b) ((if m then pos + 4 else pos) + k)) as [|Hle]; [done|].
  rewrite (proj2 (Z.ltb_ge _ _)) by lia. intros [= <- <-]. do 3 f_equal.
  unfold takeZ, dropZ, len in *. destruct m.
  - rewrite !drop_app_le, !take_app_le by (rewrite ?length_drop; lia). done.
  - rewrite drop_app_le, take_app_le by (rewrite ?length_drop; lia). done.
Qed.

#[export] Instance ws_framing : Framing frame := {|
  parse1 := parse_frame1;
  parse1_bounds := ws_parse_frame1_bounds;
  parse1_app := ws_parse_frame1_app
|}.

(** The length field with the mask bit. *)
Definition length_field (m : bool) (n : Z) : bytes :=
  match encode_length n with
  | c :: t => b8 (u8 c + (if m then 128 else 0)) :: t
  | [] => []
  end.

Lemma parse_length_field b0 m n tail :
  0 <= n < 2 ^ 62 ->
  parse_length (b0 :: length_field m n ++ tail) = Some (n, 1 + len (length_field m n)) /\
  negb (Z.land (u8 (byte_at (b0 :: length_field m n ++ tail) 1)) 0x80 =? 0) = m /\
  1 <= len (length_field m n).
Proof.
  intros Hn. set (bit := if m then 128 else 0).
  assert (Hb : bit = 0 \/ bit = 128) by (unfold bit; destruct m; auto).
  assert (Hm : forall k, 0 <= k < 128 -> negb (k + bit <? 128) = m)
    by (intros k Hk; unfold bit; destruct m; cbn; zcases; done || lia).
  unfold length_field, encode_length. fold bit. unfold parse_length. rewrite land_0x80.
  destruct (Z.leb_spec n 125); [|destruct (Z.leb_spec n 65535)]; cbn [app].
  - rewrite !byte_at_cons_S, !byte_at_cons_0 by lia.
    rewrite (u8_b8_small n), u8_b8_small by lia.
    rewrite land_0x7F, (proj2 (Z.eqb_neq _ 126)), (proj2 (Z.eqb_neq _ 127)) by lia.
    split_and!; [do 2 f_equal; lia|apply Hm; lia|done].
  - byte_at_simpl. change (u8 (b8 126)) with 126. rewrite (u8_b8_small (126 + bit)) by lia.
    rewrite land_0x7F. replace ((126 + bit) mod 128) with 126 by lia. cbn [Z.eqb Pos.eqb].
    rewrite !land_0xFF, !u8_b8, Z.shiftr_div_pow2 by lia.
    rewrite (proj2 (Z.ltb_ge _ 4)) by blia. rewrite lor_shiftl_add by lia.
    split_and!; [do 2 f_equal; lia|apply Hm; lia|done].
  - byte_at_simpl. change (u8 (b8 127)) with 127. rewrite (u8_b8_small (127 + bit)) by lia.
    rewrite land_0x7F. replace ((127 + bit) mod 128) with 127 by lia. cbn [Z.eqb Pos.eqb].
    rewrite (proj2 (Z.ltb_ge _ 10)) by (rewrite !len_cons, len_app, len_be64; bounds; lia).
    change (b0 :: b8 (127 + bit) :: be64 n ++ tail) with ([b0; b8 (127 + bit)] ++ be64 n ++ tail).
    rewrite rd64_shift by done. change (2 - len [b0; b8 (127 + bit)]) with 0.
    rewrite rd64_be64 by lia.
    split_and!; [done|apply Hm; lia|done].
Qed.

(** Both kinds of frames in one shape. *)
Lemma frame_wire_shape key f :
  frame_wire key f =
  b8 (if fin f then Z.lor (op f) 0x80 else op f) ::
  length_field (masked f) (len (payload f)) ++
  (if masked f then key ++ unmask key (payload f) else payload f).
Proof.
  unfold frame_wire, length_field, encode_frame. destruct (masked f); [done|].
  cbn [app]. f_equal. destruct (encode_length (len (payload f))) as [|c t]; [done|].
  by rewrite Z.add_0_r, b8_u8.
Qed.

Lemma first_byte f :
  frame_ok f ->
  let b0 := u8 (b8 (if fin f then Z.lor (op f) 0x80 else op f)) in
  negb (Z.land b0 0x80 =? 0) = fin f /\ Z.land b0 0x0F = op f.
Proof.
  intros [Ho _]. cbv zeta. rewrite land_0x80.
  change 0x0F with (Z.ones 4). rewrite Z.land_ones by lia.
  destruct (fin f).
  - assert (Z.lor (op f) 0x80 = 128 + op f) as -> by (apply (lor_comm_add 1 _ 7); lia).
    rewrite u8_b8_small by lia. rewrite (proj2 (Z.ltb_ge _ _)) by lia. split; [done|lia].
  - rewrite u8_b8_small by lia. rewrite (proj2 (Z.ltb_lt _ _)) by lia. split; [done|lia].
Qed.

Lemma ws_parse_frame1_wire key f c :
  wire_ok (key, f) ->
  parse_frame1 (frame_wire key f ++ c) = Some (f, len (frame_wire key f)).
Proof.
  intros [Hk Hf]. cbn [fst snd] in *. pose proof Hf as [Ho Hl]. rewrite frame_wire_shape.
  set (b0 := b8 _). set (lf := length_field _ _). pose proof (len_nonneg (payload f)).
  set (body := if masked f then key ++ unmask key (payload f) else payload f).
  cbn [app]. rewrite <- app_assoc.
  destruct (parse_length_field b0 (masked f) (len (payload f)) (body ++ c)) as (Hp & Hm & H1);
    [lia|]. fold lf in Hp, Hm, H1.
  assert (Hb : len body = (if masked f then 4 else 0) + len (payload f)).
  { unfold body. destruct (masked f); rewrite ?len_app, ?len_unmask; lia. }
  unfold parse_frame1.
  assert (Htot : len (b0 :: lf ++ body ++ c) = 1 + len lf + len body + len c) by blia.
  rewrite Htot. rewrite (proj2 (Z.ltb_ge _ 2)) by (bounds; lia).
  rewrite Hp, Hm. cbn [mbind option_bind]. rewrite byte_at_cons_0 by done.
  destruct (first_byte f Hf) as [Hfin Hop]. fold b0 in Hfin, Hop. rewrite Hfin, Hop.
  rewrite (proj2 (Z.ltb_ge _ _)) by (bounds; destruct (masked f); lia).
  change (b0 :: lf ++ body ++ c) with ((b0 :: lf) ++ body ++ c).
  assert (Hlf : 1 + len lf = len (b0 :: lf)) by blia. rewrite Hlf.
  assert (Hw : len (b0 :: lf ++ body) = (if masked f then len (b0 :: lf) + 4 else len (b0 :: lf)) + len (payload f)).
  { destruct (masked f); blia. }
  rewrite Hw. do 2 f_equal. destruct f as [fn o m p]; cbn [fin op masked payload] in *. f_equal.
  unfold body. destruct m.
  - rewrite dropZ_app_len by done. rewrite <- !app_assoc.
    rewrite (takeZ_app_len 4 key) by lia. rewrite app_assoc.
    rewrite dropZ_app_len by blia. rewrite takeZ_app_len by (rewrite len_unmask; lia).
    apply unmask_involutive.
  - rewrite dropZ_app_len by done. by apply takeZ_app_len.
Qed.

(** ** Lemmas: reading frames *)

(** [read_frame] called until the connection ends; one unit of fuel per call. *)
Fixpoint read_frames (fuel : nat) (read_buffer : bytes) (chunks : list bytes)
  : outcome (list frame) :=
  match fuel with
  | O => Timeout
  | S fuel =>
      '(r, read_buffer, chunks) ← read_frame read_buffer chunks;
      match r with
      | None => Ok []
      | Some f => fs ← read_frames fuel read_buffer chunks; Ok (f :: fs)
      end
  end.

(** Every part of the input that the parser can see has a small length field. *)
Definition safe_input (B : bytes) : Prop :=
  len B < 2 ^ 62 /\ forall p q, B = p ++ q -> length_small p.

Lemma read_frame_spec buf chunks f n :
  safe_input (buf ++ concat chunks) -> Forall (fun c => c <> []) chunks ->
  parse_frame1 (buf ++ concat chunks) = Some (f, n) ->
  exists buf' chunks', read_frame buf chunks = Ok (Some f, buf', chunks') /\
    buf' ++ concat chunks' = dropZ n (buf ++ concat chunks) /\
    Forall (fun c => c <> []) chunks'.
Proof.
  intros Hs Hne. revert buf Hs. induction Hne as [|c chunks Hc Hne IH]; intros buf [Hl Hs] Hp.
  - cbn [concat] in *. rewrite app_nil_r in *. cbn [read_frame].
    rewrite bool_decide_eq_false_2 by (by intros ->).
    rewrite parse_frame_ref, Hp by (done || apply (Hs buf []); by rewrite app_nil_r).
    cbn [mbind outcome_bind]. exists (dropZ n buf), []. cbn. by rewrite app_nil_r.
  - cbn [read_frame].
    assert (Hparse : (if bool_decide (buf = []) then Ok None else parse_frame buf) =
                     Ok (parse_frame1 buf)).
    { case_bool_decide as E; [by rewrite E|]. apply parse_frame_ref.
      - rewrite len_app in Hl. bounds. lia.
      - by apply (Hs buf (concat (c :: chunks))). }
    rewrite Hparse. cbn [mbind outcome_bind].
    destruct (parse_frame1 buf) as [[f' n']|] eqn:E.
    + pose proof (ws_parse_frame1_bounds _ _ _ E) as Hb.
      rewrite (ws_parse_frame1_app _ _ _ _ E) in Hp. injection Hp as -> ->.
      exists (dropZ n buf), (c :: chunks). split; [done|]. split; [|by constructor].
      unfold dropZ, len in *. by rewrite drop_app_le by lia.
    + assert (0 < len c). { destruct c; [done|]. blia. }
      rewrite (proj2 (Z.eqb_neq (len c) 0)) by lia. cbn [concat] in *.
      rewrite app_assoc in *. by apply IH.
Qed.

Abbreviation wires kfs := (concat (map (fun kf : bytes * frame => frame_wire kf.1 kf.2) kfs)).

Lemma parse_length_short p : len p < 2 -> length_small p.
Proof.
  intros Hl n pos. assert (byte_at p 1 = x00) as Hb.
  { unfold byte_at. rewrite lookup_ge_None_2; [done|]. unfold len in *. lia. }
  unfold parse_length. rewrite Hb. change (Z.land (u8 x00) 0x7F) with 0.
  intros [= <- <-]. lia.
Qed.

(** The payload length at the front of a wire. *)
Lemma parse_length_wire k f tail :
  frame_ok f -> exists pos, parse_length (frame_wire k f ++ tail) = Some (len (payload f), pos).
Proof.
  intros [_ Hl]. pose proof (len_nonneg (payload f)). rewrite frame_wire_shape.
  set (b0 := b8 _). set (body := if masked f then _ else _).
  destruct (parse_length_field b0 (masked f) (len (payload f)) (body ++ tail)) as (Hq & _); [lia|].
  eexists. rewrite <- Hq. f_equal. cbn [app]. by rewrite <- app_assoc.
Qed.

Lemma wires_safe kfs :
  Forall wire_ok kfs -> len (wires kfs) < 2 ^ 62 -> kfs <> [] -> safe_input (wires kfs).
Proof.
  intros Hok Hl Hne. split; [done|]. intros p q E.
  destruct (Z.lt_ge_cases (len p) 2) as [Hsmall|H2]; [by apply parse_length_short|].
  intros n pos Hp. apply (parse_length_app _ q) in Hp; [|done]. rewrite <- E in Hp.
  destruct kfs as [|[k f] kfs]; [done|]. apply Forall_cons in Hok as [[_ Hf] _].
  cbn [map concat fst snd] in Hp, Hf.
  destruct (parse_length_wire k f (wires kfs) Hf) as [pos' Hq].
  rewrite Hq in Hp. injection Hp as <- _. apply Hf.
Qed.

Lemma read_frames_spec kfs fuel buf chunks :
  Forall wire_ok kfs -> Forall (fun c => c <> []) chunks -> (length kfs < fuel)%nat ->
  buf ++ concat chunks = wires kfs -> len (wires kfs) < 2 ^ 62 ->
  read_frames fuel buf chunks = Ok (map snd kfs).
Proof.
  intros Hok. revert fuel buf chunks. induction Hok as [|[k f] kfs Hkf Hok IH];
    intros fuel buf chunks Hc Hf E Hl; (destruct fuel as [|fuel]; [cbn in Hf; lia|]);
    cbn [read_frames].
  - cbn in E. apply app_eq_nil in E as [-> E].
    destruct chunks as [|c chunks]; [done|]. apply Forall_cons in Hc as [Hc _].
    by destruct c.
  - assert (Hsafe : safe_input (buf ++ concat chunks)).
    { rewrite E. apply wires_safe; [by constructor|done..]. }
    destruct (read_frame_spec buf chunks f (len (frame_wire k f)) Hsafe Hc) as (buf' & chunks' & -> & E' & Hc').
    { rewrite E. cbn [map concat fst snd]. by apply ws_parse_frame1_wire. }
    cbn [mbind outcome_bind]. rewrite E in E'. cbn [map concat fst snd] in E', Hl.
    rewrite dropZ_app_len in E' by done. rewrite len_app in Hl.
    rewrite IH; [done|done|cbn in Hf; lia|done|]. bounds. lia.
Qed.

(** ** Lemmas: the receive loop *)

Definition is_ping (f : frame) : bool := op f =? opcode.ping.

(** Frames the loop goes past: pings and pongs. *)
Definition control (f : frame) : Prop := op f = opcode.ping \/ op f = opcode.pong.

Definition middle (f : frame) : Prop :=
  control f \/ op f = opcode.continuation /\ fin f = false.

Definition pongs (fs : list frame) : list bytes :=
  omap (fun f => if is_ping f then Some (encode_frame opcode.pong (payload f) true) else None) fs.

Definition continued (fs : list frame) : bytes :=
  concat (omap (fun f => if op f =? opcode.continuation then Some (payload f) else None) fs).

Lemma pongs_cons f fs : pongs (f :: fs) = pongs [f] ++ pongs fs.
Proof. unfold pongs. cbn. by destruct (is_ping f). Qed.

Lemma receive_control s f :
  control f -> receive_step s f = (pongs [f], inr s).
Proof.
  unfold receive_step, pongs, is_ping. intros [E|E]; cbn; rewrite E; done.
Qed.

Lemma receive_middle s fs rest :
  Forall middle fs -> rc_in_fragment s = true ->
  receive s (fs ++ rest) =
  let '(out, m, r) :=
    receive {| rc_message := rc_message s ++ continued fs; rc_in_fragment := true |} rest in
  (pongs fs ++ out, m, r).
Proof.
  intros Hfs. revert s. induction Hfs as [|f fs Hf _ IH]; intros s Hs.
  - cbn. rewrite app_nil_r. destruct s as [m i]. cbn in *. subst.
    by destruct (receive _ rest) as [[? ?] ?].
  - cbn [app receive]. destruct Hf as [Hf|[Ho Hfin]].
    + rewrite receive_control by done. rewrite IH by done.
      assert (Hc : continued (f :: fs) = continued fs).
      { unfold continued. destruct Hf as [E|E]; cbn; rewrite E; done. }
      rewrite Hc. destruct (receive _ rest) as [[out m] r].
      by rewrite (pongs_cons f fs), <- app_assoc.
    + assert (Hstep : receive_step s f =
                ([], inr {| rc_message := rc_message s ++ payload f; rc_in_fragment := true |})).
      { unfold receive_step. rewrite Ho, Hs, Hfin. done. }
      rewrite Hstep, IH by done. cbn [rc_message app].
      assert (Hc : continued (f :: fs) = payload f ++ continued fs).
      { unfold continued. cbn. rewrite Ho. done. }
      assert (Hp : pongs (f :: fs) = pongs fs).
      { unfold pongs, is_ping. cbn. rewrite Ho. done. }
      rewrite Hc, Hp, app_assoc. by destruct (receive _ rest) as [[out m] r].
Qed.

Lemma receive_controls s fs rest :
  Forall control fs ->
  receive s (fs ++ rest) = let '(out, m, r) := receive s rest in (pongs fs ++ out, m, r).
Proof.
  induction 1 as [|f fs Hf _ IH]; cbn [app receive].
  - by destruct (receive s rest) as [[? ?] ?].
  - rewrite receive_control, IH by done. destruct (receive s rest) as [[out m] r].
    by rewrite (pongs_cons f fs), <- app_assoc.
Qed.

(** ** Lemmas: Base64 *)

(** Reference decoder: four characters to three bytes, less the padding. *)
Definition base64_index (c : byte) : Z :=
  match find_char base64_table c 0 with Some i => i | None => 0 end.

Fixpoint base64_decode (s : bytes) : bytes :=
  match s with
  | a :: b :: c :: d :: rest =>
      let v := base64_index a * 2 ^ 18 + base64_index b * 2 ^ 12 +
               base64_index c * 2 ^ 6 + base64_index d in
      let all := [b8 (v / 2 ^ 16); b8 (v / 2 ^ 8); b8 v] in
      (if bool_decide (c = x3d) then takeZ 1 all
       else if bool_decide (d = x3d) then takeZ 2 all else all) ++ base64_decode rest
  | _ => []
  end.

Lemma base64_char_index v : base64_index (base64_char v) = v mod 64 /\ base64_char v <> x3d.
Proof.
  unfold base64_char. change 0x3F with (Z.ones 6). rewrite Z.land_ones by lia.
  change (2 ^ 6) with 64. pose proof (Z.mod_pos_bound v 64 ltac:(lia)) as Hb.
  set (w := v mod 64) in *. clearbody w.
  assert (H : forallb (fun i => (base64_index (byte_at base64_table (Z.of_nat i)) =? Z.of_nat i) &&
                         negb (bool_decide (byte_at base64_table (Z.of_nat i) = x3d))) (seq 0 64) = true)
    by (vm_compute; reflexivity).
  rewrite forallb_forall in H. specialize (H (Z.to_nat w)). rewrite Z2Nat.id in H by lia.
  rewrite in_seq in H. specialize (H ltac:(lia)). apply andb_prop in H as [H1 H2].
  split; [by apply Z.eqb_eq|]. apply negb_true_iff, bool_decide_eq_false_1 in H2. done.
Qed.

Lemma base64_triple_val a b c :
  0 <= b < 256 -> 0 <= c < 256 -> base64_triple a b c = a * 2 ^ 16 + b * 2 ^ 8 + c.
Proof.
  intros. unfold base64_triple. rewrite <- Z.lor_assoc.
  rewrite (lor_shiftl_add b) by lia. rewrite lor_shiftl_add by lia. lia.
Qed.

(** Three bytes at a time. *)
Lemma list_ind3 (P : bytes -> Prop) :
  P [] -> (forall a, P [a]) -> (forall a b, P [a; b]) ->
  (forall a b c l, P l -> P (a :: b :: c :: l)) -> forall l, P l.
Proof.
  intros H0 H1 H2 H3. fix IH 1. intros [|a [|b [|c l]]]; [done|apply H1|apply H2|apply H3, IH].
Qed.

Lemma base64_decode_encode s : base64_decode (base64_encode s) = s.
Proof.
  induction s as [|a|a b|a b c l IH] using list_ind3; [done|..];
    cbn [base64_encode app base64_decode].
  - bounds. remember (base64_triple _ _ _) as t eqn:Ht. rewrite base64_triple_val in Ht by lia. rewrite bool_decide_eq_true_2 by done.
    destruct (base64_char_index (Z.shiftr t 18)) as [-> _].
    destruct (base64_char_index (Z.shiftr t 12)) as [-> _].
    change (base64_index x3d) with 0. unfold takeZ.
    change (Z.to_nat 1) with 1%nat. cbn [app take].
    rewrite !Z.shiftr_div_pow2 by lia. f_equal. apply u8_inj. rewrite u8_b8. lia.
  - bounds. remember (base64_triple _ _ _) as t eqn:Ht. rewrite base64_triple_val in Ht by lia.
    destruct (base64_char_index (Z.shiftr t 18)) as [-> _].
    destruct (base64_char_index (Z.shiftr t 12)) as [-> _].
    destruct (base64_char_index (Z.shiftr t 6)) as [-> Hne].
    rewrite bool_decide_eq_false_2, bool_decide_eq_true_2 by done.
    change (base64_index x3d) with 0. unfold takeZ.
    change (Z.to_nat 2) with 2%nat. cbn [app take].
    rewrite !Z.shiftr_div_pow2 by lia.
    repeat f_equal; apply u8_inj; rewrite u8_b8; lia.
  - bounds. remember (base64_triple _ _ _) as t eqn:Ht. rewrite base64_triple_val in Ht by lia.
    destruct (base64_char_index (Z.shiftr t 18)) as [-> _].
    destruct (base64_char_index (Z.shiftr t 12)) as [-> _].
    destruct (base64_char_index (Z.shiftr t 6)) as [-> Hne].
    destruct (base64_char_index t) as [-> Hne'].
    rewrite !bool_decide_eq_false_2 by done. rewrite IH. cbn [app].
    rewrite !Z.shiftr_div_pow2 by lia.
    repeat f_equal; apply u8_inj; rewrite u8_b8; lia.
Qed.

Lemma len_base64 s : len (base64_encode s) = 4 * ((len s + 2) / 3).
Proof.
  induction s as [|a|a b|a b c l IH] using list_ind3; [done..|].
  cbn [base64_encode app]. rewrite !len_cons, IH. lia.
Qed.


(** ** Properties *)

(** The frames that cross a connection, masked by a client or unmasked
    from a server, with 7-bit, 16-bit and 64-bit lengths, are what [read_frame]
    gives one by one, whatever the non-empty pieces the socket reads are; then
    the end of the connection. *)
Theorem ws_frames_survive_chunking (kfs : list (bytes * frame)) (chunks : list bytes) :
  Forall wire_ok kfs -> Forall (fun c => c <> []) chunks ->
  concat chunks = wires kfs -> len (wires kfs) < 2 ^ 62 ->
  read_frames (S (length kfs)) [] chunks = Ok (map snd kfs).
Proof. intros. apply read_frames_spec; [done..| |done|done]. lia. Qed.

Lemma ws_frames_survive_chunking_witness :
  read_frames 3 []
    [[x81; x85; x37]; [xfa; x21; x3d; x7f; x9f; x4d; x51]; [x58; x89; x00]] =
  Ok [{| fin := true; op := opcode.text; masked := true; payload := str "Hello" |};
      {| fin := true; op := opcode.ping; masked := false; payload := [] |}].
Proof.
  apply (ws_frames_survive_chunking
    [([x37; xfa; x21; x3d], {| fin := true; op := opcode.text; masked := true; payload := str "Hello" |});
     ([x00; x00; x00; x00], {| fin := true; op := opcode.ping; masked := false; payload := [] |})]).
  - repeat constructor; ground.
  - by repeat constructor.
  - vm_compute. reflexivity.
  - ground.
Defined.

(** A fragmented message, with pings and pongs before it and between its
    parts, is received as one: the result is the payloads of its parts in
    order, each ping is answered once with a pong of its payload, in order, and
    the frames after the last part are left for the next call. *)
Theorem ws_receive_fragments (pre body rest : list frame) (first last : frame) :
  Forall control pre -> Forall middle body ->
  op first = opcode.text \/ op first = opcode.binary -> fin first = false ->
  op last = opcode.continuation -> fin last = true ->
  receive receive_start (pre ++ first :: body ++ last :: rest) =
  (pongs pre ++ pongs body, Some (payload first ++ continued body ++ payload last), rest).
Proof.
  intros Hpre Hbody Hop Hfin Hl Hlf. rewrite receive_controls by done. cbn [receive].
  assert (receive_step receive_start first =
            ([], inr {| rc_message := payload first; rc_in_fragment := true |})) as ->.
  { unfold receive_step. rewrite Hfin. by destruct Hop as [-> | ->]. }
  rewrite receive_middle by done. cbn [rc_message receive].
  unfold receive_step at 1. rewrite Hl, Hlf. cbn. by rewrite app_nil_r, app_assoc.
Qed.

Lemma ws_receive_fragments_witness :
  receive receive_start
    [{| fin := false; op := opcode.text; masked := true; payload := str "Hel" |};
     {| fin := true; op := opcode.ping; masked := true; payload := str "p" |};
     {| fin := true; op := opcode.continuation; masked := true; payload := str "lo" |}] =
  ([[x8a; x01; x70]], Some (str "Hello"), []).
Proof.
  apply (ws_receive_fragments []
    [{| fin := true; op := opcode.ping; masked := true; payload := str "p" |}] []
    {| fin := false; op := opcode.text; masked := true; payload := str "Hel" |}
    {| fin := true; op := opcode.continuation; masked := true; payload := str "lo" |}).
  - constructor.
  - repeat constructor.
  - by left.
  - done.
  - done.
  - done.
Defined.

(** A request that is taken for an upgrade has a key, and the response to
    it carries the accept value of this key: the Base64 text, 28 characters
    long, that decodes to the SHA-1 digest of the key and the GUID. *)
Theorem ws_handshake_accept (req : request) :
  is_websocket_upgrade req = true ->
  exists key, headers_get (rq_hdrs req) (str "Sec-WebSocket-Key") = Some key /\
    build_handshake_response req =
      str "HTTP/1.1 101 Switching Protocols" ++ CRLF ++ str "Upgrade: websocket" ++ CRLF ++
      str "Connection: Upgrade" ++ CRLF ++
      str "Sec-WebSocket-Accept: " ++ compute_accept_key key ++ CRLF ++ CRLF /\
    base64_decode (compute_accept_key key) = sha1_compute (key ++ kWsGuid) /\
    len (compute_accept_key key) = 28.
Proof.
  unfold is_websocket_upgrade, headers_contains. destruct (negb _); [done|].
  destruct (headers_get _ (str "Upgrade")); [|done]. destruct (negb _); [done|].
  destruct (headers_get _ (str "Connection")); [|done]. destruct (find _ _ 0); [|done].
  unfold build_handshake_response. destruct (headers_get _ _) as [key|]; [|done].
  intros _. exists key. split_and!; [done|done|apply base64_decode_encode|].
  unfold compute_accept_key. rewrite len_base64. unfold sha1_compute.
  by rewrite !len_app.
Qed.

(** The upgrade request of RFC 6455, section 1.3. *)
Definition rfc6455_request : request :=
  {| rq_method := GET; rq_path := str "/chat"; rq_query := []; rq_ver := HTTP_11;
     rq_hdrs := [(str "Host", str "server.example.com"); (str "Upgrade", str "websocket");
                 (str "Connection", str "Upgrade");
                 (str "Sec-WebSocket-Key", str "dGhlIHNhbXBsZSBub25jZQ==")];
     rq_bd := [] |}.

Lemma ws_handshake_accept_witness :
  is_websocket_upgrade rfc6455_request = true /\
  (exists key, headers_get (rq_hdrs rfc6455_request) (str "Sec-WebSocket-Key") = Some key /\
    build_handshake_response rfc6455_request =
      str "HTTP/1.1 101 Switching Protocols" ++ CRLF ++ str "Upgrade: websocket" ++ CRLF ++
      str "Connection: Upgrade" ++ CRLF ++
      str "Sec-WebSocket-Accept: " ++ compute_accept_key key ++ CRLF ++ CRLF /\
    base64_decode (compute_accept_key key) = sha1_compute (key ++ kWsGuid) /\
    len (compute_accept_key key) = 28) /\
  compute_accept_key (str "dGhlIHNhbXBsZSBub25jZQ==") = str "s3pPLMBiTxaQ9kYGzzhZRbK+xOo=".
Proof.
  assert (is_websocket_upgrade rfc6455_request = true) as H by (vm_compute; reflexivity).
  split; [exact H|]. split; [exact (ws_handshake_accept rfc6455_request H)|].
  vm_compute. reflexivity.
Defined.

(** A 64-bit length close to [2^64] passes the check for enough data, as
    [pos + payload_len] wraps around: instead of waiting for more data the
    parser asks for a string of that length and [std::length_error] is thrown. *)
Theorem ws_length_overflow (b0 : byte) (v : Z) (tail : bytes) :
  2 ^ 64 - 10 <= v < 2 ^ 64 ->
  parse_frame (b0 :: x7f :: be64 v ++ tail) = Throws LengthError.
Proof.
  intros Hv. set (data := b0 :: x7f :: be64 v ++ tail).
  assert (Hl : len data = 10 + len tail) by (unfold data; by rewrite !len_cons, len_app, len_be64; lia).
  pose proof (len_nonneg tail).
  assert (Hp : parse_length data = Some (v, 10)).
  { unfold parse_length. rewrite Hl. change (byte_at data 1) with x7f.
    change (Z.land (u8 x7f) 0x7F) with 127. cbn [Z.eqb Pos.eqb].
    rewrite (proj2 (Z.ltb_ge _ 10)) by lia. do 2 f_equal.
    change data with ([b0; x7f] ++ be64 v ++ tail). rewrite rd64_shift by done.
    by apply rd64_be64; lia. }
  unfold parse_frame. rewrite Hl, Hp, (proj2 (Z.ltb_ge _ 2)) by lia.
  change (byte_at data 1) with x7f. change (Z.land (u8 x7f) 0x80) with 0. cbn [Z.eqb negb andb].
  unfold u64. assert ((10 + v) mod 2 ^ 64 = 10 + v - 2 ^ 64) as -> by lia.
  rewrite (proj2 (Z.ltb_ge _ _)) by lia. unfold make_string.
  by rewrite (proj2 (Z.ltb_lt _ v)) by lia.
Qed.

Lemma ws_length_overflow_witness :
  parse_frame [x82; x7f; xff; xff; xff; xff; xff; xff; xff; xff] = Throws LengthError.
Proof. apply (ws_length_overflow x82 (2 ^ 64 - 1) []). lia. Defined.
