(* ===== verification/Executor.v ===== *)
(** * Executors (src/include/async_net/detail/thread_pool.hpp,
      src/include/async_net/executor/thread_pool_executor.hpp,
      src/include/async_net/executor/strand.hpp)

    The interface [Executor] states what a strand needs of the executor under
    it.  [Pool] is the thread pool: its task queue, its workers and their
    condition variable, one event per critical section, notification or end of
    a task.  [Strand] is [basic_strand] on any [Executor].  The threads interleave
    in any order: a run is any list of events that are possible one after the
    other. *)
From S2P Require Import Prelude.
From stdpp Require Import options.

(** ** The interface *)

(** An executor of jobs [J]: jobs posted and not begun yet, whether a post is
    accepted, the thread [k] that begins a job, and steps of its own. *)
Class Executor (E J V : Type) := {
  ex_jobs : E -> list J;
  ex_accepts : E -> bool;
  ex_post : J -> E -> E;
  ex_take : nat -> E -> option (J * E);
  ex_step : V -> E -> option E;
  ex_post_jobs j e :
    ex_jobs (ex_post j e) = if ex_accepts e then ex_jobs e ++ [j] else ex_jobs e;
  ex_take_jobs k e j e' : ex_take k e = Some (j, e') -> ex_jobs e ≡ₚ j :: ex_jobs e';
  ex_step_jobs v e e' : ex_step v e = Some e' -> ex_jobs e' = ex_jobs e
}.

(** ** The thread pool *)
Module Pool.
Section Pool.
Context {J : Type}.

(** Where a worker is in [worker_loop]: about to take the lock and evaluate the
    predicate of the wait, blocked in the wait, in [task()], or returned. *)
Inductive phase :=
| Checking
| Sleeping
| Working (t : J)
| Exited.

(** [notify_one_] counts the posters between the end of their critical section
    and their [notify_one]; [notify_all_] is the same for [stop]. *)
Record pool := {
  tasks_ : list J;
  stop_ : bool;
  workers_ : list phase;
  notify_one_ : nat;
  notify_all_ : nat
}.

(** [thread_pool(num_threads)] *)
Definition thread_pool (num_threads : nat) : pool :=
  let num_threads := if (num_threads =? 0)%nat then 1%nat else num_threads in
  {| tasks_ := []; stop_ := false; workers_ := repeat Checking num_threads;
     notify_one_ := 0; notify_all_ := 0 |}.

(** The critical section of [post]; a stopped pool drops the task. *)
Definition post (t : J) (p : pool) : pool :=
  if stop_ p then p else
  {| tasks_ := tasks_ p ++ [t]; stop_ := false; workers_ := workers_ p;
     notify_one_ := S (notify_one_ p); notify_all_ := notify_all_ p |}.

(** The same of [submit], which throws instead. *)
Definition submit (t : J) (p : pool) : outcome pool :=
  if stop_ p then Throws (RuntimeError (str "Cannot submit to stopped thread pool"))
  else Ok (post t p).

(** The critical section of [stop]. *)
Definition stop (p : pool) : pool :=
  {| tasks_ := tasks_ p; stop_ := true; workers_ := workers_ p;
     notify_one_ := notify_one_ p; notify_all_ := S (notify_all_ p) |}.

Definition with_worker (k : nat) (w : phase) (p : pool) : pool :=
  {| tasks_ := tasks_ p; stop_ := stop_ p; workers_ := <[k := w]> (workers_ p);
     notify_one_ := notify_one_ p; notify_all_ := notify_all_ p |}.

Definition is_sleeping (w : phase) : bool := match w with Sleeping => true | _ => false end.

Definition wake (w : phase) : phase := match w with Sleeping => Checking | w => w end.

(** [notify_one]: wakes the blocked worker [k]; no effect when none is blocked. *)
Definition notify_one (k : nat) (p : pool) : option pool :=
  match notify_one_ p with
  | O => None
  | S n =>
      let p' := {| tasks_ := tasks_ p; stop_ := stop_ p; workers_ := workers_ p;
                   notify_one_ := n; notify_all_ := notify_all_ p |} in
      if existsb is_sleeping (workers_ p) then
        match workers_ p !! k with
        | Some Sleeping => Some (with_worker k Checking p')
        | _ => None
        end
      else Some p'
  end.

Definition notify_all (p : pool) : option pool :=
  match notify_all_ p with
  | O => None
  | S n => Some {| tasks_ := tasks_ p; stop_ := stop_ p; workers_ := map wake (workers_ p);
                   notify_one_ := notify_one_ p; notify_all_ := n |}
  end.

(** The critical section of [worker_loop] on worker [k], and the task begun. *)
Definition worker_turn (k : nat) (p : pool) : option (option J * pool) :=
  match workers_ p !! k with
  | Some Checking =>
      match tasks_ p with
      | [] => Some (None, with_worker k (if stop_ p then Exited else Sleeping) p)
      | t :: tasks =>
          Some (Some t,
            {| tasks_ := tasks; stop_ := stop_ p; workers_ := <[k := Working t]> (workers_ p);
               notify_one_ := notify_one_ p; notify_all_ := notify_all_ p |})
      end
  | _ => None
  end.

(** A wake-up without notification: the wait evaluates its predicate again. *)
Definition spurious (k : nat) (p : pool) : option pool :=
  match workers_ p !! k with
  | Some Sleeping => Some (with_worker k Checking p)
  | _ => None
  end.

(** [task()] returns on worker [k]. *)
Definition finish (k : nat) (p : pool) : option (J * pool) :=
  match workers_ p !! k with
  | Some (Working t) => Some (t, with_worker k Checking p)
  | _ => None
  end.

(** *** Runs: the pool and the history of its tasks *)
Inductive event :=
| Post (t : J) | Stop | NotifyOne (k : nat) | NotifyAll
| Turn (k : nat) | Spurious (k : nat) | Finish (k : nat).

Record system := { the_pool : pool; accepted : list J; begun : list J; ended : list J }.

Definition init (n : nat) : system :=
  {| the_pool := thread_pool n; accepted := []; begun := []; ended := [] |}.

Definition with_pool (s : system) (p : pool) : system :=
  {| the_pool := p; accepted := accepted s; begun := begun s; ended := ended s |}.

Definition step (e : event) (s : system) : option system :=
  let p := the_pool s in
  match e with
  | Post t =>
      Some {| the_pool := post t p;
              accepted := if stop_ p then accepted s else accepted s ++ [t];
              begun := begun s; ended := ended s |}
  | Stop => Some (with_pool s (stop p))
  | NotifyOne k => with_pool s <$> notify_one k p
  | NotifyAll => with_pool s <$> notify_all p
  | Turn k =>
      '(t, p') ← worker_turn k p;
      Some {| the_pool := p'; accepted := accepted s;
              begun := begun s ++ option_list t; ended := ended s |}
  | Spurious k => with_pool s <$> spurious k p
  | Finish k =>
      '(t, p') ← finish k p;
      Some {| the_pool := p'; accepted := accepted s; begun := begun s;
              ended := ended s ++ [t] |}
  end.

Fixpoint steps (es : list event) (s : system) : option system :=
  match es with
  | [] => Some s
  | e :: es => s' ← step e s; steps es s'
  end.

(** States some run of a pool with [n] threads reaches. *)
Definition reachable (n : nat) (s : system) : Prop := exists es, steps es (init n) = Some s.

(** *** Invariants *)

Definition working (ws : list phase) : list J :=
  omap (fun w => match w with Working t => Some t | _ => None end) ws.

Definition active (w : phase) : Prop := w = Checking \/ exists t, w = Working t.

Record invariant (n : nat) (s : system) : Prop := {
  inv_fifo : begun s ++ tasks_ (the_pool s) = accepted s;
  inv_ended : begun s ≡ₚ ended s ++ working (workers_ (the_pool s));
  inv_workers : length (workers_ (the_pool s)) = Nat.max 1 n;
  inv_wakeup : tasks_ (the_pool s) <> [] ->
    (exists w, w ∈ workers_ (the_pool s) /\ active w) \/ (0 < notify_one_ (the_pool s))%nat;
  inv_exited : Exited ∈ workers_ (the_pool s) ->
    stop_ (the_pool s) = true /\ tasks_ (the_pool s) = [];
  inv_stop : stop_ (the_pool s) = true ->
    Sleeping ∉ workers_ (the_pool s) \/ (0 < notify_all_ (the_pool s))%nat
}.

Lemma steps_app es1 es2 s :
  steps (es1 ++ es2) s = (s' ← steps es1 s; steps es2 s').
Proof.
  revert s. induction es1 as [|e es1 IH]; intros s; [done|].
  cbn. destruct (step e s); [apply IH|done].
Qed.

Lemma reachable_ind (P : system -> Prop) n :
  P (init n) -> (forall e s s', P s -> step e s = Some s' -> P s') ->
  forall s, reachable n s -> P s.
Proof.
  intros H0 HS s [es H]. revert s H. induction es as [|e es IH] using rev_ind; intros s H.
  - by injection H as <-.
  - rewrite steps_app in H. destruct (steps es (init n)) as [s1|] eqn:E; [|done].
    cbn in H. destruct (step e s1) eqn:E'; [|done]. injection H as <-. by apply (HS e s1); [apply IH|].
Qed.

Lemma elem_of_insert_inv (ws : list phase) k (w w' : phase) :
  w ∈ <[k := w']> ws -> w = w' \/ w ∈ ws.
Proof.
  intros [i H]%list_elem_of_lookup. apply list_lookup_insert_Some in H as [(-> & <- & _)|[_ H]];
    [by left|right]. by apply list_elem_of_lookup; exists i.
Qed.

Lemma elem_of_insert (ws : list phase) k (w w' : phase) :
  ws !! k = Some w -> w' ∈ <[k := w']> ws.
Proof.
  intros H. apply list_elem_of_lookup. exists k.
  apply list_lookup_insert_eq. by apply lookup_lt_Some in H.
Qed.

(** The tasks in progress when worker [k] goes from [w] to [w']. *)
Lemma working_insert ws k w w' :
  ws !! k = Some w -> working [w] ++ working (<[k := w']> ws) ≡ₚ working [w'] ++ working ws.
Proof.
  intros H. pose proof (take_drop_middle ws k w H) as E.
  rewrite (insert_take_drop ws k w') by (by apply lookup_lt_Some in H).
  assert (Hw : forall x a b, working (a ++ x :: b) ≡ₚ working [x] ++ working a ++ working b).
  { intros x a b. unfold working. rewrite omap_app. cbn.
    destruct x; cbn; [done..| |done]. by rewrite Permutation_middle. }
  rewrite <- E at 3. rewrite !Hw. solve_Permutation.
Qed.

Lemma invariant_init n : invariant n (init n).
Proof.
  assert (Hr : forall m w, w ∈ repeat Checking m -> w = Checking).
  { intros m w H. apply list_elem_of_In in H. by apply repeat_spec in H. }
  split; cbn; try done.
  - induction (if (n =? 0)%nat then 1%nat else n); [done|]. by cbn.
  - rewrite repeat_length. destruct (Nat.eqb_spec n 0); lia.
  - intros H. by apply Hr in H.
Qed.

Lemma invariant_with_worker n s k w w' :
  invariant n s -> workers_ (the_pool s) !! k = Some w ->
  working [w] = working [w'] ->
  (w' = Exited -> stop_ (the_pool s) = true /\ tasks_ (the_pool s) = []) ->
  (w' = Sleeping -> stop_ (the_pool s) = false) ->
  (tasks_ (the_pool s) <> [] -> active w') ->
  invariant n (with_pool s (with_worker k w' (the_pool s))).
Proof.
  intros [H1 H2 H3 H4 H5 H6] Hk Hw He Hs Ha. split; cbn; try done.
  - rewrite H2. f_equiv.
    pose proof (working_insert _ k w w' Hk) as Hi. rewrite Hw in Hi.
    symmetry. by apply Permutation_app_inv_l in Hi.
  - by rewrite length_insert.
  - intros Ht. left. exists w'. split; [by eapply elem_of_insert|auto].
  - intros [?|?]%elem_of_insert_inv; auto.
  - intros Hstop. destruct (H6 Hstop) as [Hn|]; [left|by right].
    intros [?|?]%elem_of_insert_inv; [|done]. specialize (Hs ltac:(done)). congruence.
Qed.

Lemma invariant_post n s t s' : invariant n s -> step (Post t) s = Some s' -> invariant n s'.
Proof.
  intros [H1 H2 H3 H4 H5 H6]. cbn [step]. unfold post. destruct (stop_ _) eqn:E; intros [= <-].
  - split; cbn; rewrite ?E; done.
  - split; cbn; try done.
    + by rewrite app_assoc, H1.
    + right. lia.
    + intros Hx. by destruct (H5 Hx).
Qed.

Lemma invariant_stop n s : invariant n s -> invariant n (with_pool s (stop (the_pool s))).
Proof.
  intros [H1 H2 H3 H4 H5 H6]. split; cbn; try done.
  - intros Hx. by destruct (H5 Hx).
  - right. lia.
Qed.

Lemma existsb_sleeping ws : existsb is_sleeping ws = false -> Sleeping ∉ ws.
Proof.
  intros E H. assert (existsb is_sleeping ws = true); [|congruence].
  apply existsb_exists. exists Sleeping. split; [by apply list_elem_of_In|done].
Qed.

Lemma phase_cases (w : phase) : w = Sleeping \/ w = Exited \/ active w.
Proof. destruct w; eauto; right; right; [by left|right; eauto]. Qed.

(** With no worker blocked, a task in the queue finds an active worker. *)
Lemma awake_active n s :
  invariant n s -> Sleeping ∉ workers_ (the_pool s) -> tasks_ (the_pool s) <> [] ->
  exists w, w ∈ workers_ (the_pool s) /\ active w.
Proof.
  intros [_ _ H3 _ H5 _] Hs Ht. destruct (workers_ (the_pool s)) as [|w ws]; [cbn in H3; lia|].
  exists w. split; [by left|]. destruct (phase_cases w) as [->|[->|]]; [by destruct Hs; left| |done].
  destruct H5 as [_ E]; [by left|done].
Qed.

Lemma invariant_notify_one n s k p :
  invariant n s -> notify_one k (the_pool s) = Some p -> invariant n (with_pool s p).
Proof.
  intros HI. unfold notify_one. destruct (notify_one_ (the_pool s)) as [|m] eqn:Em; [done|].
  destruct (existsb _ _) eqn:Es.
  - destruct (workers_ (the_pool s) !! k) as [[| |t|]|] eqn:Hk; try done. intros [= <-].
    destruct (invariant_with_worker n s k Sleeping Checking) as [H1 H2 H3 H4 H5 H6]; try done.
    { by left. }
    split; cbn; try done. intros Ht. left. exists Checking. split; [by eapply elem_of_insert|by left].
  - intros [= <-]. apply existsb_sleeping in Es. pose proof (awake_active n s HI Es) as Ha.
    destruct HI as [H1 H2 H3 H4 H5 H6]. split; cbn; try done. intros Ht. left. by apply Ha.
Qed.

Lemma working_wake ws : working (map wake ws) = working ws.
Proof. unfold working. induction ws as [|[| |t|] ws IH]; cbn; rewrite ?IH; done. Qed.

Lemma invariant_notify_all n s p :
  invariant n s -> notify_all (the_pool s) = Some p -> invariant n (with_pool s p).
Proof.
  intros HI. pose proof HI as [H1 H2 H3 H4 H5 H6]. unfold notify_all.
  destruct (notify_all_ (the_pool s)) as [|m] eqn:Em; [done|]. intros [= <-].
  assert (Hw : forall w, w ∈ map wake (workers_ (the_pool s)) ->
             w <> Sleeping /\ (w = Exited -> Exited ∈ workers_ (the_pool s))).
  { intros w (w' & -> & H)%list_elem_of_fmap. by destruct w'. }
  split; cbn; try done.
  - by rewrite working_wake.
  - by rewrite length_map.
  - intros Ht. left. destruct (map wake _) as [|w ws] eqn:E.
    { apply (f_equal length) in E. rewrite length_map in E. cbn in E. lia. }
    exists w. split; [by left|]. destruct (Hw w) as [Hn Hx]; [by left|].
    destruct (phase_cases w) as [->|[->|]]; [done| |done]. destruct (H5 (Hx eq_refl)) as [_ Hno]. done.
  - intros Hx. apply H5. by apply (Hw Exited Hx).
  - intros _. left. intros Hx. by destruct (Hw _ Hx).
Qed.

Lemma invariant_turn n s k s' : invariant n s -> step (Turn k) s = Some s' -> invariant n s'.
Proof.
  intros HI. cbn [step]. unfold worker_turn.
  destruct (workers_ (the_pool s) !! k) as [[| |t|]|] eqn:Hk; try done.
  destruct (tasks_ (the_pool s)) as [|t ts] eqn:Et.
  - cbn. rewrite app_nil_r. intros [= <-].
    apply (invariant_with_worker n s k Checking); try done.
    all: destruct (stop_ (the_pool s)) eqn:Es; try done; by rewrite Et.
  - cbn. intros [= <-]. destruct HI as [H1 H2 H3 H4 H5 H6]. split; cbn; try done.
    + by rewrite <- app_assoc, <- H1, Et.
    + pose proof (working_insert _ k Checking (Working t) Hk) as Hi. cbn in Hi.
      rewrite H2, Hi. solve_Permutation.
    + by rewrite length_insert.
    + intros _. left. exists (Working t). split; [by eapply elem_of_insert|right; eauto].
    + intros [?|Hx]%elem_of_insert_inv; [done|]. destruct (H5 Hx); congruence.
    + intros Hs. destruct (H6 Hs); [left|by right]. by intros [?|?]%elem_of_insert_inv.
Qed.

Lemma invariant_finish n s k s' : invariant n s -> step (Finish k) s = Some s' -> invariant n s'.
Proof.
  intros [H1 H2 H3 H4 H5 H6]. cbn [step]. unfold finish.
  destruct (workers_ (the_pool s) !! k) as [[| |t|]|] eqn:Hk; try done. cbn. intros [= <-].
  split; cbn; try done.
  - pose proof (working_insert _ k (Working t) Checking Hk) as Hi. cbn in Hi.
    rewrite H2, <- app_assoc, Hi. done.
  - by rewrite length_insert.
  - intros _. left. exists Checking. split; [by eapply elem_of_insert|by left].
  - intros [?|Hx]%elem_of_insert_inv; [done|by apply H5].
  - intros Hs. destruct (H6 Hs); [left|by right]. by intros [?|?]%elem_of_insert_inv.
Qed.

Lemma invariant_reachable n s : reachable n s -> invariant n s.
Proof.
  revert s. apply reachable_ind; [apply invariant_init|]. intros e s s' HI Hs.
  destruct e; cbn in Hs.
  - by eapply invariant_post.
  - injection Hs as <-. by apply invariant_stop.
  - apply fmap_Some in Hs as (p & Hp & ->). by eapply invariant_notify_one.
  - apply fmap_Some in Hs as (p & Hp & ->). by eapply invariant_notify_all.
  - by eapply invariant_turn.
  - apply fmap_Some in Hs as (p & Hp & ->). unfold spurious in Hp.
    destruct (workers_ (the_pool s) !! k) as [[| |t|]|] eqn:Hk; try done. injection Hp as <-.
    eapply invariant_with_worker; try done. by left.
  - by eapply invariant_finish.
Qed.

(** *** Termination *)

(** Events of the workers and of notifications due. *)
Definition worker_event (e : event) : Prop :=
  match e with NotifyOne _ | NotifyAll | Turn _ | Finish _ => True | _ => False end.

Definition phase_work (w : phase) : nat :=
  match w with Checking => 1 | Working _ => 2 | _ => 0 end.

Definition workers_work (ws : list phase) : nat := sum_list_with phase_work ws.

Definition work (p : pool) : nat :=
  3 * length (tasks_ p) + workers_work (workers_ p) + 2 * notify_one_ p +
  S (length (workers_ p)) * notify_all_ p.

Lemma workers_work_insert ws k w w' :
  ws !! k = Some w ->
  (workers_work (<[k := w']> ws) + phase_work w = workers_work ws + phase_work w')%nat.
Proof.
  unfold workers_work. revert k. induction ws as [|x ws IH]; intros [|k] H; [done..| |].
  - injection H as ->. change (<[0%nat := w']> (w :: ws)) with (w' :: ws). cbn. lia.
  - change (<[S k := w']> (x :: ws)) with (x :: <[k := w']> ws).
    apply IH in H. cbn [sum_list_with]. lia.
Qed.

Lemma workers_work_wake ws : (workers_work (map wake ws) <= workers_work ws + length ws)%nat.
Proof. unfold workers_work. induction ws as [|[] ws IH]; cbn in *; lia. Qed.

Ltac pool_fields :=
  cbn [the_pool with_pool tasks_ stop_ workers_ notify_one_ notify_all_ with_worker phase_work
       length] in *.

Lemma work_decreases e s s' :
  worker_event e -> step e s = Some s' -> (work (the_pool s') < work (the_pool s))%nat.
Proof.
  intros He Hs. destruct e; try done; cbn in Hs; unfold work.
  - apply fmap_Some in Hs as (p & Hp & ->). unfold notify_one in Hp.
    destruct (notify_one_ (the_pool s)); [done|].
    destruct (existsb _ _); [|injection Hp as <-; pool_fields; lia].
    destruct (_ !! k) as [[| |t|]|] eqn:Hk; try done. injection Hp as <-.
    pose proof (workers_work_insert _ k _ Checking Hk). pool_fields. rewrite length_insert. lia.
  - apply fmap_Some in Hs as (p & Hp & ->). unfold notify_all in Hp.
    destruct (notify_all_ (the_pool s)); [done|]. injection Hp as <-.
    pose proof (workers_work_wake (workers_ (the_pool s))). pool_fields. rewrite length_map. lia.
  - unfold worker_turn in Hs. destruct (_ !! k) as [[| |t|]|] eqn:Hk; try done.
    destruct (tasks_ (the_pool s)) as [|t ts] eqn:Et; cbn in Hs; injection Hs as <-.
    + pose proof (workers_work_insert _ k _ (if stop_ (the_pool s) then Exited else Sleeping) Hk).
      pool_fields. rewrite length_insert, Et. destruct (stop_ _); pool_fields; lia.
    + pose proof (workers_work_insert _ k _ (Working t) Hk).
      pool_fields. rewrite length_insert. lia.
  - unfold finish in Hs. destruct (_ !! k) as [[| |t|]|] eqn:Hk; try done. cbn in Hs.
    injection Hs as <-. pose proof (workers_work_insert _ k _ Checking Hk).
    pool_fields. rewrite length_insert. lia.
Qed.

Lemma steps_work es s s' :
  Forall worker_event es -> steps es s = Some s' ->
  (length es + work (the_pool s') <= work (the_pool s))%nat.
Proof.
  intros He. revert s. induction He as [|e es He _ IH]; intros s H; cbn in H.
  - injection H as <-. cbn. lia.
  - destruct (step e s) as [s1|] eqn:E; [|done]. apply work_decreases in E; [|done].
    apply IH in H. cbn [length]. lia.
Qed.

Lemma reachable_steps n s es s' : reachable n s -> steps es s = Some s' -> reachable n s'.
Proof. intros [es0 H0] H. exists (es0 ++ es). by rewrite steps_app, H0. Qed.

(** A worker that is active can go on. *)
Lemma active_enabled s w :
  w ∈ workers_ (the_pool s) -> active w -> exists e, worker_event e /\ is_Some (step e s).
Proof.
  intros [k Hk]%list_elem_of_lookup Ha. destruct Ha as [->|[t ->]].
  - exists (Turn k). split; [done|]. cbn. unfold worker_turn. rewrite Hk.
    destruct (tasks_ _); cbn; eauto.
  - exists (Finish k). split; [done|]. cbn. unfold finish. rewrite Hk. cbn. eauto.
Qed.

Lemma notify_enabled s :
  (0 < notify_one_ (the_pool s))%nat -> exists e, worker_event e /\ is_Some (step e s).
Proof.
  intros H. destruct (existsb is_sleeping (workers_ (the_pool s))) eqn:E.
  - pose proof E as E'. apply existsb_exists in E as (w & Hw & Hs). apply list_elem_of_In, list_elem_of_lookup in Hw as [k Hk].
    exists (NotifyOne k). split; [done|]. cbn. unfold notify_one. rewrite E'.
    destruct (notify_one_ _); [lia|]. rewrite Hk. by destruct w; eauto.
  - exists (NotifyOne 0). split; [done|]. cbn. unfold notify_one. rewrite E.
    destruct (notify_one_ _); [lia|]. eauto.
Qed.

Lemma length_working ws : (length (working ws) <= length ws)%nat.
Proof. apply length_omap_le. Qed.

Lemma working_exited ws : Forall (eq Exited) ws -> working ws = [].
Proof. unfold working. induction 1 as [|w ws <- _ IH]; cbn; [done|exact IH]. Qed.

Lemma working_elem ws t : t ∈ working ws -> exists w, w ∈ ws /\ active w.
Proof.
  unfold working. intros (w & Hw & Ht)%list_elem_of_omap. exists w. split; [done|].
  destruct w; try done. right. eauto.
Qed.

(** Unless every task accepted has ended, a worker event is possible. *)
Lemma pool_progress n s :
  invariant n s -> ended s ≡ₚ accepted s \/ exists e, worker_event e /\ is_Some (step e s).
Proof.
  intros [H1 H2 _ H4 _ _]. destruct (tasks_ (the_pool s)) as [|t ts] eqn:Et.
  - destruct (working (workers_ (the_pool s))) as [|t ts] eqn:Ew.
    + left. rewrite <- H1, H2, !app_nil_r. done.
    + right. destruct (working_elem (workers_ (the_pool s)) t) as (w & Hw & Ha).
      { rewrite Ew. by left. }
      by eapply active_enabled.
  - right. destruct H4 as [(w & Hw & Ha)|Hn]; [done| |by apply notify_enabled].
    by eapply active_enabled.
Qed.
End Pool.
End Pool.

(** ** [thread_pool_executor]: a pool is an executor *)

(** What the pool does besides taking jobs and posts. *)
Inductive pool_move :=
| MStop | MNotifyOne (k : nat) | MNotifyAll | MBlock (k : nat) | MSpurious (k : nat)
| MFinish (k : nat).

Definition pool_take {J} (k : nat) (p : @Pool.pool J) : option (J * Pool.pool) :=
  match Pool.worker_turn k p with Some (Some t, p') => Some (t, p') | _ => None end.

Definition pool_step {J} (m : pool_move) (p : @Pool.pool J) : option Pool.pool :=
  match m with
  | MStop => Some (Pool.stop p)
  | MNotifyOne k => Pool.notify_one k p
  | MNotifyAll => Pool.notify_all p
  | MBlock k => match Pool.worker_turn k p with Some (None, p') => Some p' | _ => None end
  | MSpurious k => Pool.spurious k p
  | MFinish k => snd <$> Pool.finish k p
  end.

#[export, refine] Instance pool_executor {J} : Executor (@Pool.pool J) J pool_move := {|
  ex_jobs := Pool.tasks_;
  ex_accepts := fun p => negb (Pool.stop_ p);
  ex_post := Pool.post;
  ex_take := pool_take;
  ex_step := pool_step
|}.
Proof.
  - intros j p. unfold Pool.post. by destruct (Pool.stop_ p).
  - intros k p j p'. unfold pool_take, Pool.worker_turn.
    destruct (_ !! k) as [[]|]; try done. by destruct (Pool.tasks_ p); intros [= <- <-].
  - intros m p p'. destruct m; cbn;
      unfold Pool.notify_one, Pool.notify_all, Pool.worker_turn, Pool.spurious, Pool.finish.
    + by intros [= <-].
    + destruct (Pool.notify_one_ p); [done|]. destruct (existsb _ _); [|by intros [= <-]].
      destruct (_ !! k) as [[]|]; try done. by intros [= <-].
    + destruct (Pool.notify_all_ p); [done|]. by intros [= <-].
    + destruct (_ !! k) as [[]|]; try done. by destruct (Pool.tasks_ p) eqn:E; intros [= <-].
    + destruct (_ !! k) as [[]|]; try done. by intros [= <-].
    + destruct (_ !! k) as [[]|]; try done. by intros [= <-].
Defined.

(** ** The strand *)
Module Strand.
Section Strand.
Context {E J V T : Type} `{EqDecision J} `{HE : Executor E J V}.
(** The job [[this] { run(); }] as the executor below sees it. *)
Variable run_job : J.

Record strand := { queue_ : list T; running_ : bool }.

Definition new : strand := {| queue_ := []; running_ := false |}.

(** The critical section of [post_impl]: the strand and [should_dispatch]. *)
Definition post_impl (fn : T) (s : strand) : strand * bool :=
  ({| queue_ := queue_ s ++ [fn]; running_ := true |}, negb (running_ s)).

(** The critical section of [run]: [None] returns. *)
Definition run_next (s : strand) : strand * option T :=
  match queue_ s with
  | [] => ({| queue_ := []; running_ := false |}, None)
  | fn :: queue => ({| queue_ := queue; running_ := running_ s |}, Some fn)
  end.

(** *** Runs *)

(** [dispatching]: posters between their critical section and [inner_->post];
    [runners]: the calls of [run], at the head of the loop ([None]) or in [fn()].
    [posted], [started] and [ended] are the history; [lost] tells that a call of
    [run] was left by an exception or refused by the executor. *)
Record system := {
  the_strand : strand; inner : E; dispatching : nat; runners : list (option T);
  posted : list T; started : list T; ended : list T; lost : bool
}.

Definition init (e : E) : system :=
  {| the_strand := new; inner := e; dispatching := 0; runners := [];
     posted := []; started := []; ended := []; lost := false |}.

Inductive event :=
| Post (fn : T)      (** a thread posts *)
| Dispatch           (** [inner_->post] *)
| Begin (k : nat)    (** thread [k] of the executor begins its next job *)
| Loop (i : nat)     (** the critical section of the [i]-th call of [run] *)
| Return (i : nat)   (** its handler returns *)
| Throw (i : nat)    (** its handler throws *)
| Other (j : J)      (** another client posts to the executor *)
| Inner (v : V).     (** a step of the executor *)

Definition step (e : event) (s : system) : option system :=
  let '(Build_system st ex d rs ps ss es l) := s in
  match e with
  | Post fn =>
      let '(st', should_dispatch) := post_impl fn st in
      Some (Build_system st' ex (if should_dispatch then S d else d) rs (ps ++ [fn]) ss es l)
  | Dispatch =>
      match d with
      | O => None
      | S d => Some (Build_system st (ex_post run_job ex) d rs ps ss es
                       (l || negb (ex_accepts ex)))
      end
  | Begin k =>
      '(j, ex') ← ex_take k ex;
      Some (Build_system st ex' d (if bool_decide (j = run_job) then rs ++ [None] else rs) ps ss es l)
  | Loop i =>
      match rs !! i with
      | Some None =>
          match run_next st with
          | (st', None) => Some (Build_system st' ex d (delete i rs) ps ss es l)
          | (st', Some fn) =>
              Some (Build_system st' ex d (<[i := Some fn]> rs) ps (ss ++ [fn]) es l)
          end
      | _ => None
      end
  | Return i =>
      match rs !! i with
      | Some (Some fn) => Some (Build_system st ex d (<[i := None]> rs) ps ss (es ++ [fn]) l)
      | _ => None
      end
  | Throw i =>
      match rs !! i with
      | Some (Some fn) => Some (Build_system st ex d (delete i rs) ps ss (es ++ [fn]) true)
      | _ => None
      end
  | Other j =>
      if bool_decide (j = run_job) then None
      else Some (Build_system st (ex_post j ex) d rs ps ss es l)
  | Inner v => ex' ← ex_step v ex; Some (Build_system st ex' d rs ps ss es l)
  end.

Fixpoint steps (es : list event) (s : system) : option system :=
  match es with
  | [] => Some s
  | e :: es => s' ← step e s; steps es s'
  end.

(** States that a strand made on the executor [e] reaches. *)
Definition reachable (e : E) (s : system) : Prop :=
  (run_job ∉ ex_jobs e) /\ (exists es, steps es (init e) = Some s).

(** *** The invariant *)

Definition pending (e : E) : nat := length (filter (eq run_job) (ex_jobs e)).

(** Calls of [run] under way, dispatched or to be dispatched. *)
Definition tokens (s : system) : nat := dispatching s + pending (inner s) + length (runners s).

Definition executing (s : system) : list T := omap id (runners s).

Record invariant (s : system) : Prop := {
  inv_fifo : started s ++ queue_ (the_strand s) = posted s;
  inv_ended : ended s ++ executing s = started s;
  inv_tokens : (tokens s + (if lost s then 1 else 0) =
                if running_ (the_strand s) then 1 else 0)%nat;
  inv_queue : running_ (the_strand s) = false -> queue_ (the_strand s) = []
}.

Lemma pending_post j e :
  pending (ex_post j e) =
  (pending e + (if ex_accepts e then if bool_decide (j = run_job) then 1 else 0 else 0))%nat.
Proof.
  unfold pending. rewrite ex_post_jobs. destruct (ex_accepts e); [|lia].
  rewrite filter_app, length_app. f_equal. unfold filter. cbn. case_bool_decide as Ej.
  - by rewrite decide_True by done.
  - by rewrite decide_False by congruence.
Qed.

Lemma pending_take k e j e' :
  ex_take k e = Some (j, e') ->
  pending e = ((if bool_decide (j = run_job) then 1 else 0) + pending e')%nat.
Proof.
  intros Ht%ex_take_jobs. unfold pending. rewrite Ht. rewrite filter_cons.
  case_bool_decide as Ej.
  - by rewrite decide_True by done.
  - by rewrite decide_False by congruence.
Qed.

Lemma strand_invariant_init e : run_job ∉ ex_jobs e -> invariant (init e).
Proof.
  intros Hn. split; cbn; try done. unfold tokens, pending; cbn.
  induction (ex_jobs e) as [|j js IH]; [done|]. apply not_elem_of_cons in Hn as [Hj Hn].
  rewrite filter_cons, decide_False by congruence. by apply IH.
Qed.

(** A strand has at most one runner. *)
Lemma one_runner (rs : list (option T)) i x :
  (length rs <= 1)%nat -> rs !! i = Some x -> rs = [x] /\ i = 0%nat.
Proof. destruct rs as [|? [|? ?]]; destruct i; cbn; try done; try lia. intros _ [= ->]. done. Qed.

Lemma strand_invariant_step ev s s' : invariant s -> step ev s = Some s' -> invariant s'.
Proof.
  destruct s as [[q rn] ex d rs ps ss es l]. intros [H1 H2 H3 H4].
  unfold tokens, executing in *; cbn in H1, H2, H3, H4.
  assert (Hr : (length rs <= 1)%nat) by (destruct rn; lia).
  assert (Hl : l = true -> (d + pending ex + length rs = 0)%nat) by (intros ->; destruct rn; lia).
  destruct ev as [fn| |k|i|i|i|j|v]; cbn.
  - intros [= <-]. split; cbn; try done.
    + by rewrite app_assoc, H1.
    + unfold tokens; cbn. destruct rn; cbn; lia.
  - destruct d as [|d]; [done|]. intros [= <-]. split; cbn; try done.
    unfold tokens; cbn. rewrite pending_post, bool_decide_eq_true_2 by done.
    destruct l; [lia|]. destruct (ex_accepts ex); cbn; lia.
  - destruct (ex_take k ex) as [[j ex']|] eqn:Et; [|done]. intros [= <-].
    apply pending_take in Et. split; cbn; try done.
    + unfold executing; cbn. case_bool_decide; [|done]. by rewrite omap_app, app_nil_r.
    + unfold tokens; cbn. case_bool_decide; rewrite ?length_app; cbn; lia.
  - destruct (rs !! i) as [[|]|] eqn:Ei; try done.
    apply one_runner in Ei as [-> ->]; [|done]. cbn in *.
    destruct q as [|fn q]; intros [= <-]; split; cbn; try done; unfold tokens; cbn.
    + destruct l; [specialize (Hl eq_refl); lia|]. destruct rn; lia.
    + by rewrite <- app_assoc.
    + by rewrite <- H2, app_nil_r.
    + intros Hrn. specialize (H4 Hrn). done.
  - destruct (rs !! i) as [[fn|]|] eqn:Ei; try done.
    apply one_runner in Ei as [-> ->]; [|done]. cbn in *. intros [= <-]. split; cbn; try done.
    by rewrite app_nil_r.
  - destruct (rs !! i) as [[fn|]|] eqn:Ei; try done.
    apply one_runner in Ei as [-> ->]; [|done]. cbn in *. intros [= <-]. split; cbn; try done.
    + by rewrite app_nil_r.
    + unfold tokens; cbn. destruct l; [specialize (Hl eq_refl); lia|lia].
  - case_bool_decide; [done|]. intros [= <-]. split; cbn; try done.
    unfold tokens; cbn. rewrite pending_post, bool_decide_eq_false_2 by done.
    destruct (ex_accepts ex); lia.
  - destruct (ex_step v ex) as [ex'|] eqn:Ev; [|done]. intros [= <-]. split; cbn; try done.
    unfold tokens, pending in *; cbn. by rewrite (ex_step_jobs _ _ _ Ev).
Qed.

Lemma strand_invariant_steps es s s' : invariant s -> steps es s = Some s' -> invariant s'.
Proof.
  revert s. induction es as [|e es IH]; intros s HI H; cbn in H.
  - by injection H as <-.
  - destruct (step e s) as [s1|] eqn:E1; [|done]. by eapply IH; [eapply strand_invariant_step|].
Qed.

Lemma strand_invariant_reachable e s : reachable e s -> invariant s.
Proof. intros [Hn [es H1]]. eapply strand_invariant_steps; [|done]. by apply strand_invariant_init. Qed.

(** *** Progress *)

(** Steps of the calls of [post] and [run], and of the executor's threads that
    begin a job. *)
Definition strand_event (e : event) : Prop :=
  match e with Dispatch | Begin _ | Loop _ | Return _ => True | _ => False end.

Definition runner_work (r : option T) : nat := match r with None => 1 | Some _ => 2 end.

Definition work (s : system) : nat :=
  2 * length (queue_ (the_strand s)) + 3 * dispatching s + 2 * length (ex_jobs (inner s)) +
  sum_list_with runner_work (runners s).

Lemma strand_work_decreases ev s s' :
  invariant s -> strand_event ev -> step ev s = Some s' -> (work s' < work s)%nat.
Proof.
  destruct s as [[q rn] ex d rs ps ss es l]. intros [_ _ Ht _] He.
  unfold tokens in Ht; cbn [the_strand running_ runners dispatching inner lost] in Ht.
  assert (Hr : (length rs <= 1)%nat) by (destruct rn; lia). unfold work.
  destruct ev as [fn| |k|i|i|i|j|v]; try done; cbn.
  - destruct d as [|d]; [done|]. intros [= <-]. cbn. rewrite ex_post_jobs.
    destruct (ex_accepts ex); rewrite ?length_app; cbn; lia.
  - destruct (ex_take k ex) as [[j ex']|] eqn:Et; [|done]. intros [= <-].
    apply ex_take_jobs, Permutation_length in Et. rewrite Et. cbn.
    case_bool_decide; rewrite ?sum_list_with_app; cbn; lia.
  - destruct (rs !! i) as [[|]|] eqn:Ei; try done.
    apply one_runner in Ei as [-> ->]; [|done]. destruct q as [|fn q]; intros [= <-]; cbn; lia.
  - destruct (rs !! i) as [[fn|]|] eqn:Ei; try done.
    apply one_runner in Ei as [-> ->]; [|done]. intros [= <-]; cbn; lia.
Qed.

Lemma strand_steps_work es s s' :
  invariant s -> Forall strand_event es -> steps es s = Some s' ->
  (length es + work s' <= work s)%nat.
Proof.
  intros HI He. revert s HI. induction He as [|e es He _ IH]; intros s HI H; cbn [steps] in H.
  - injection H as <-. cbn [length]. lia.
  - destruct (step e s) as [s1|] eqn:E1; [|done]. pose proof (strand_invariant_step _ _ _ HI E1) as HI1.
    apply strand_work_decreases in E1; [|done..]. apply IH in H; [|done]. cbn [length]. lia.
Qed.

(** What is left to do, if anything, can be done. *)
Lemma strand_progress s :
  invariant s -> lost s = false ->
  (ended s = posted s /\ queue_ (the_strand s) = []) \/
  (exists ev, strand_event ev /\ is_Some (step ev s)) \/ run_job ∈ ex_jobs (inner s).
Proof.
  destruct s as [[q rn] ex d rs ps ss es l]. intros [H1 H2 H3 H4]; cbn in *. intros ->.
  unfold tokens, executing in *; cbn in *. destruct d as [|d].
  2:{ right; left. exists Dispatch. split; [done|]. cbn. eauto. }
  destruct rs as [|r rs].
  - destruct (decide (run_job ∈ ex_jobs ex)) as [|Hn]; [by right; right|]. left.
    assert (Hp : pending ex = 0%nat).
    { unfold pending. destruct (filter (eq run_job) (ex_jobs ex)) as [|j js] eqn:E1; [done|].
      assert (Hj : j ∈ filter (eq run_job) (ex_jobs ex)) by (rewrite E1; by left).
      apply list_elem_of_filter in Hj as [<- Hj]. done. }
    destruct rn; [cbn in *; lia|]. rewrite H4 in * by done. rewrite <- H1, <- H2. by rewrite !app_nil_r.
  - right; left. destruct r as [fn|].
    + exists (Return 0). split; [done|]. cbn. eauto.
    + exists (Loop 0). split; [done|]. cbn. destruct q; cbn; eauto.
Qed.

(** Once a call of [run] is lost, nothing starts. *)
Lemma lost_step ev s s' :
  invariant s -> lost s = true -> step ev s = Some s' ->
  started s' = started s /\ lost s' = true.
Proof.
  destruct s as [[q rn] ex d rs ps ss es l]. intros [_ _ H3 _] Hl; cbn in *. subst l.
  unfold tokens in H3; cbn in H3.
  assert (H0 : (d = 0 /\ length rs = 0)%nat) by (destruct rn; lia). destruct H0 as [-> Hrs].
  destruct rs; [|done]. destruct ev; cbn; try done.
  - by intros [= <-].
  - destruct (ex_take k ex) as [[j ex']|]; [|done]. by intros [= <-].
  - case_bool_decide; [done|]. by intros [= <-].
  - destruct (ex_step v ex); [|done]. by intros [= <-].
Qed.

Lemma lost_steps es s s' :
  invariant s -> lost s = true -> steps es s = Some s' -> started s' = started s.
Proof.
  revert s. induction es as [|e es IH]; intros s HI Hl H; cbn in H.
  - by injection H as <-.
  - destruct (step e s) as [s1|] eqn:E1; [|done]. destruct (lost_step _ _ _ HI Hl E1) as [<- Hl1].
    by eapply IH; [eapply strand_invariant_step| |].
Qed.
End Strand.
End Strand.

(** ** Properties *)

(** The pool begins the tasks it accepts once each and in the order they
    were posted, at most one per thread at a time; and when [stop] has joined
    its threads, every task accepted has ended. *)
Theorem pool_runs_in_order {J} (n : nat) (s : @Pool.system J) :
  Pool.reachable n s ->
  Pool.begun s ++ Pool.tasks_ (Pool.the_pool s) = Pool.accepted s /\
  (Pool.begun s ≡ₚ Pool.ended s ++ Pool.working (Pool.workers_ (Pool.the_pool s))) /\
  (length (Pool.working (Pool.workers_ (Pool.the_pool s))) <= Nat.max 1 n)%nat /\
  (Forall (eq Pool.Exited) (Pool.workers_ (Pool.the_pool s)) ->
   Pool.stop_ (Pool.the_pool s) = true /\ (Pool.ended s ≡ₚ Pool.accepted s)).
Proof.
  intros HI%Pool.invariant_reachable. destruct HI as [H1 H2 H3 _ H5 _].
  split_and!; [done|done|rewrite <- H3; apply Pool.length_working|].
  intros Hall. destruct (Pool.workers_ (Pool.the_pool s)) as [|w ws] eqn:Ew; [cbn in H3; lia|].
  destruct H5 as [Hs Ht]; [apply Forall_cons in Hall as [<- _]; by left|]. split; [done|].
  rewrite <- H1, H2, Ht, Pool.working_exited by done. by rewrite !app_nil_r.
Qed.

(** Two threads, two tasks, then [stop]: the run to the end. *)
Definition pool_run : list (@Pool.event nat) :=
  [Pool.Turn 0; Pool.Post 7%nat; Pool.NotifyOne 0; Pool.Post 8%nat; Pool.Turn 1; Pool.Turn 0;
   Pool.NotifyOne 0; Pool.Stop; Pool.Finish 1; Pool.NotifyAll; Pool.Turn 1; Pool.Finish 0;
   Pool.Turn 0].

Definition pool_end : @Pool.system nat :=
  {| Pool.the_pool := {| Pool.tasks_ := []; Pool.stop_ := true;
                         Pool.workers_ := [Pool.Exited; Pool.Exited];
                         Pool.notify_one_ := 0; Pool.notify_all_ := 0 |};
     Pool.accepted := [7; 8]%nat; Pool.begun := [7; 8]%nat; Pool.ended := [7; 8]%nat |}.

Lemma pool_runs_in_order_witness :
  Pool.reachable 2 pool_end /\ (Pool.ended pool_end ≡ₚ Pool.accepted pool_end).
Proof.
  assert (Hr : Pool.reachable 2 pool_end) by (exists pool_run; vm_compute; reflexivity).
  split; [exact Hr|]. apply (pool_runs_in_order 2 pool_end Hr). by repeat constructor.
Defined.

(** No wake-up is lost: in any state of the pool, whatever the workers and
    the notifications due do, they stop within a bounded number of steps, and
    they can go on as long as a task accepted has not ended. *)
Theorem pool_completes {J} (n : nat) (s s' : @Pool.system J) (es : list Pool.event) :
  Pool.reachable n s -> Forall Pool.worker_event es -> Pool.steps es s = Some s' ->
  (length es <= Pool.work (Pool.the_pool s))%nat /\
  ((Pool.ended s' ≡ₚ Pool.accepted s') \/
   exists e, Pool.worker_event e /\ is_Some (Pool.step e s')).
Proof.
  intros Hr He Hs. split.
  - pose proof (Pool.steps_work es s s' He Hs). lia.
  - apply (Pool.pool_progress n). apply Pool.invariant_reachable. by eapply Pool.reachable_steps.
Qed.

Definition pool_tail : list (@Pool.event nat) := [Pool.Turn 0; Pool.Finish 0].

Lemma pool_completes_witness :
  match Pool.steps [Pool.Post 5%nat] (Pool.init 1) with
  | Some s =>
      match Pool.steps pool_tail s with
      | Some s' => (length pool_tail <= Pool.work (Pool.the_pool s))%nat /\
          ((Pool.ended s' ≡ₚ Pool.accepted s') \/
           exists e, Pool.worker_event e /\ is_Some (Pool.step e s'))
      | None => False
      end
  | None => False
  end.
Proof.
  destruct (Pool.steps [Pool.Post 5%nat] (Pool.init 1)) as [s|] eqn:E;
    [|vm_compute in E; discriminate].
  destruct (Pool.steps pool_tail s) as [s'|] eqn:E'.
  - apply (pool_completes 1 s s' pool_tail);
      [by exists [Pool.Post 5%nat]|by repeat constructor|exact E'].
  - vm_compute in E. injection E as <-. vm_compute in E'. discriminate.
Defined.

(** C36: on any executor, however its threads interleave, and even when handlers
    throw, at most one handler of a strand is running, handlers start in the
    order they were posted, none is lost or run twice, and each ends before the
    next one starts. *)
Theorem strand_serial {E J V T} `{EqDecision J} `{HE : Executor E J V}
    (run_job : J) (e : E) (s : @Strand.system E T) :
  Strand.reachable run_job e s ->
  (length (Strand.executing s) <= 1)%nat /\
  Strand.started s ++ Strand.queue_ (Strand.the_strand s) = Strand.posted s /\
  Strand.ended s ++ Strand.executing s = Strand.started s.
Proof.
  intros HI%Strand.strand_invariant_reachable. split_and!; [|apply HI|apply HI].
  pose proof (Strand.inv_tokens _ _ HI) as Ht. unfold Strand.tokens in Ht.
  transitivity (length (Strand.runners s)); [apply length_omap_le|].
  destruct (Strand.running_ _); lia.
Qed.

(** The strand of these runs is on a pool of one thread; [true] is its job. *)
Definition strand_start : @Strand.system (@Pool.pool bool) nat :=
  Strand.init (Pool.thread_pool 1).

Definition strand_run : list (@Strand.event bool pool_move nat) :=
  [Strand.Post 1%nat; Strand.Post 2%nat; Strand.Other false; Strand.Dispatch; Strand.Begin 0;
   Strand.Inner (MFinish 0); Strand.Begin 0; Strand.Loop 0; Strand.Post 3%nat; Strand.Return 0;
   Strand.Loop 0].

Lemma strand_serial_witness :
  match Strand.steps true strand_run strand_start with
  | Some s => (length (Strand.executing s) <= 1)%nat /\ Strand.executing s = [2%nat] /\
              Strand.ended s = [1%nat] /\ Strand.queue_ (Strand.the_strand s) = [3%nat]
  | None => False
  end.
Proof.
  destruct (Strand.steps true strand_run strand_start) as [s|] eqn:E;
    [|vm_compute in E; discriminate].
  split.
  - apply (strand_serial true (Pool.thread_pool 1) s). split; [|exists strand_run; exact E].
    by apply not_elem_of_nil.
  - vm_compute in E. injection E as <-. done.
Defined.

(** C37: as long as no handler throws and the executor refuses no post, a strand
    loses no wake-up: its threads stop within a bounded number of steps, and then
    either every handler posted has ended or the executor still has a call of
    [run] to begin.  After a handler has thrown, or a post to the executor was
    dropped, no handler of the strand ever starts again. *)
Theorem strand_completes {E J V T} `{EqDecision J} `{HE : Executor E J V}
    (run_job : J) (e : E) (s s' : @Strand.system E T) (es : list Strand.event) :
  Strand.reachable run_job e s -> Strand.steps run_job es s = Some s' ->
  (Forall Strand.strand_event es ->
   (length es <= Strand.work s)%nat /\
   (Strand.lost s' = false ->
    (Strand.ended s' = Strand.posted s' /\ Strand.queue_ (Strand.the_strand s') = []) \/
    (exists ev, Strand.strand_event ev /\ is_Some (Strand.step run_job ev s')) \/
    run_job ∈ ex_jobs (Strand.inner s'))) /\
  (Strand.lost s = true -> Strand.started s' = Strand.started s).
Proof.
  intros HI%Strand.strand_invariant_reachable Hs. split.
  - intros He. split; [pose proof (Strand.strand_steps_work _ _ _ _ HI He Hs); lia|].
    apply Strand.strand_progress. by eapply Strand.strand_invariant_steps.
  - intros Hl. by eapply Strand.lost_steps.
Qed.

(** The handlers of the run above throw after the first one: the other two stay
    in the queue. *)
Lemma strand_completes_witness :
  match Strand.steps true (firstn 9 strand_run ++ [Strand.Throw 0]) strand_start with
  | Some s =>
      match Strand.steps true [Strand.Post 4%nat; Strand.Inner (MFinish 0)] s with
      | Some s' => Strand.started s' = [1%nat] /\
                   Strand.queue_ (Strand.the_strand s') = [2; 3; 4]%nat
      | None => False
      end
  | None => False
  end.
Proof.
  destruct (Strand.steps true (firstn 9 strand_run ++ [Strand.Throw 0]) strand_start) as [s|] eqn:E;
    [|vm_compute in E; discriminate].
  assert (Hr : Strand.reachable true (Pool.thread_pool 1) s).
  { split; [by apply not_elem_of_nil|]. exists (firstn 9 strand_run ++ [Strand.Throw 0]). exact E. }
  destruct (Strand.steps true _ s) as [s'|] eqn:E'.
  - destruct (strand_completes true (Pool.thread_pool 1) s s' _ Hr E') as [_ H].
    vm_compute in E. injection E as <-. split; [by rewrite H|].
    vm_compute in E'. by injection E' as <-.
  - vm_compute in E. injection E as <-. vm_compute in E'. discriminate.
Defined.
