(* ===== verification/Coroutine.v ===== *)
(** * Tasks (src/include/async_net/coroutine/task.hpp, async_result.hpp)

    Coroutine frames on a heap, with the promise, the awaiter and the continuation
    that task.hpp gives them: a lazy start, the transfer of control to a task that
    is awaited and back at its final suspension, results and exceptions, and the
    destruction of frames.  A body is a tree of what a coroutine does next; the
    operations it waits for are completed from outside, as [AsyncResult] does.
    Awaiting a task is shown to be a function call. *)
From S2P Require Import Prelude.
From stdpp Require Import options.

#[local] Set Default Proof Using "Type*".

Section Coroutine.
(** Values, exceptions and operations; [bad_variant_access] is what [std::get] throws. *)
Context {V X Op : Type} (bad_variant_access : X).

(** What [await_resume] gives: the value, or the exception it rethrows. *)
Abbreviation outcome_of := (V + X)%type.

(** What is left of a body: [co_return], an exception, [co_await] of a task it
    makes, [co_await] of an operation.  [k] is the rest, which may catch. *)
Inductive co :=
| Return (v : V)
| Throw (x : X)
| AwaitTask (callee : co) (k : outcome_of -> co)
| AwaitOp (o : Op) (k : outcome_of -> co).

(** ** The meaning of a body

    Tasks are functions; [answers] are the results of the operations in order. *)
Fixpoint eval (c : co) (answers : list outcome_of) : option (outcome_of * list outcome_of) :=
  match c with
  | Return v => Some (inl v, answers)
  | Throw x => Some (inr x, answers)
  | AwaitTask c k => '(r, answers) ← eval c answers; eval (k r) answers
  | AwaitOp o k => match answers with [] => None | r :: answers => eval (k r) answers end
  end.

(** ** Frames *)

(** A body that runs or waits for an operation, one that awaits a task (its
    [Awaiter] owns the frame of the task), or a coroutine at its final
    suspension. *)
Inductive point :=
| At (c : co)
| Awaiting (callee : nat) (k : outcome_of -> co)
| Final.

(** A frame with its [TaskPromise] *)
Record frame := {
  point_ : point;
  result_ : option outcome_of;
  continuation_ : option nat
}.
#[export] Instance frame_settable : Settable frame := fun f =>
  Build_frame (point_ f) (result_ f) (continuation_ f).

Record machine := {
  frames : gmap nat frame;
  next : nat;
  running : option nat;                (** the coroutine that has control *)
  waiting : list (nat * Op)             (** coroutines suspended on operations *)
}.
#[export] Instance machine_settable : Settable machine := fun m =>
  Build_machine (frames m) (next m) (running m) (waiting m).

(** Calling a coroutine: its frame, suspended initially, and the [Task] that
    [get_return_object] gives. *)
Definition new_task (c : co) (m : machine) : nat * machine :=
  (next m, m <| frames ::= <[next m := {| point_ := At c; result_ := None; continuation_ := None |}]> |>
             <| next ::= S |>).

(** [h.resume()] *)
Definition resume (h : nat) (m : machine) : machine := m <| running := Some h |>.

(** [Task::done] *)
Definition is_done (h : nat) (m : machine) : bool :=
  match frames m !! h with Some {| point_ := Final |} => true | _ => false end.

(** [return_value], [unhandled_exception]; then [FinalAwaiter::await_suspend] gives
    control to the continuation, or back to the resumer. *)
Definition finish (h : nat) (f : frame) (r : outcome_of) (m : machine) : machine :=
  m <| frames ::= <[h := f <| result_ := Some r |> <| point_ := Final |>]> |>
    <| running := continuation_ f |>.

(** [Awaiter::await_suspend]: the caller is the continuation of the task, which
    gets control. *)
Definition await_suspend (h : nat) (f : frame) (c : co) (k : outcome_of -> co) (m : machine) : machine :=
  let '(n, m) := new_task c m in
  m <| frames ::= alter (fun g => g <| continuation_ := Some h |>) n |>
    <| frames ::= <[h := f <| point_ := Awaiting n k |>]> |>
    <| running := Some n |>.

(** [Awaiter::await_resume] *)
Definition await_resume (g : frame) : outcome_of :=
  match result_ g with Some r => r | None => inr bad_variant_access end.

(** [handle.destroy()]: the frame, and the frame its awaiter owns; as many frames
    as there are are enough fuel. *)
Fixpoint destroy (fuel : nat) (h : nat) (m : machine) : outcome machine :=
  match fuel with
  | O => Timeout
  | S fuel =>
      match frames m !! h with
      | None => Undefined UseAfterFree
      | Some f =>
          let m := m <| frames ::= delete h |> in
          match point_ f with
          | Awaiting n _ => destroy fuel n m
          | _ => Ok m
          end
      end
  end.

(** What the coroutine that has control does until control changes. *)
Definition step (m : machine) : outcome machine :=
  match running m with
  | None => Ok m
  | Some h =>
      match frames m !! h with
      | None => Undefined UseAfterFree
      | Some f =>
          match point_ f with
          | Final => Undefined UseAfterFree                  (** resumed when it is done *)
          | At (Return v) => Ok (finish h f (inl v) m)
          | At (Throw x) => Ok (finish h f (inr x) m)
          | At (AwaitTask c k) => Ok (await_suspend h f c k m)
          | At (AwaitOp o k) => Ok (m <| running := None |> <| waiting ::= cons (h, o) |>)
          | Awaiting n k =>
              match frames m !! n with
              | None => Undefined UseAfterFree
              | Some g =>
                  (** The result is taken, then the awaiter is destroyed with the task. *)
                  m ← destroy (S (size (frames m))) n m;
                  Ok (m <| frames ::= <[h := f <| point_ := At (k (await_resume g)) |>]> |>)
              end
          end
      end
  end.

(** An operation completes: [AsyncResult::complete] or [complete_error] stores the
    result and resumes the coroutine that waits. *)
Definition complete (h : nat) (r : outcome_of) (m : machine) : outcome machine :=
  match frames m !! h with
  | None => Undefined UseAfterFree
  | Some f =>
      match point_ f with
      | At (AwaitOp _ k) =>
          Ok (resume h (m <| frames ::= <[h := f <| point_ := At (k r) |>]> |>
                          <| waiting ::= List.filter (fun w => negb (w.1 =? h)%nat) |>))
      | _ => Undefined UseAfterFree
      end
  end.

(** One turn: the coroutine that has control goes on; when there is none, the
    coroutine that waits for an operation gets the next answer. *)
Definition turn (ma : machine * list outcome_of) : outcome (machine * list outcome_of) :=
  let '(m, answers) := ma in
  match running m, waiting m, answers with
  | Some _, _, _ => m ← step m; Ok (m, answers)
  | None, (h, _) :: _, r :: answers => m ← complete h r m; Ok (m, answers)
  | _, _, _ => Ok (m, answers)
  end.

Fixpoint turns (n : nat) (ma : machine * list outcome_of) : outcome (machine * list outcome_of) :=
  match n with
  | O => Ok ma
  | S n => ma ← turn ma; turns n ma
  end.

Definition no_frames : machine := {| frames := ∅; next := 0; running := None; waiting := [] |}.

(** ** Awaiting is calling *)

Definition fresh_ids (m : machine) : Prop := forall h f, frames m !! h = Some f -> (h < next m)%nat.

Lemma turns_app n1 n2 ma mb : turns n1 ma = Ok mb -> turns (n1 + n2) ma = turns n2 mb.
Proof.
  revert ma. induction n1 as [|n1 IH]; intros ma; cbn [turns plus]; [by intros [= <-]|].
  destruct (turn ma) as [mc| | |]; cbn [mbind outcome_bind]; try done. apply IH.
Qed.

(** What running a body to its end does to the machine: its frame has the result
    and control is with its continuation; every other frame is as before. *)
Definition ran (h : nat) (f : frame) (r : outcome_of) (m m' : machine) : Prop :=
  frames m' = <[h := f <| result_ := Some r |> <| point_ := Final |>]> (frames m) /\
  running m' = continuation_ f /\ waiting m' = waiting m /\ (next m <= next m')%nat.

Lemma turn_step n m answers m1 mb :
  is_Some (running m) -> step m = Ok m1 -> turns n (m1, answers) = Ok mb -> turns (S n) (m, answers) = Ok mb.
Proof. intros [h Hh] Hs Ht. cbn [turns turn]. rewrite Hh, Hs. exact Ht. Qed.

(** The first step of [co_await] of a task *)
Lemma await_step h f c k m :
  frames m !! h = Some f -> point_ f = At (AwaitTask c k) -> running m = Some h -> fresh_ids m ->
  exists m1, step m = Ok m1 /\ running m1 = Some (next m) /\ waiting m1 = waiting m /\ next m1 = S (next m) /\
    frames m1 = <[h := f <| point_ := Awaiting (next m) k |>]>
                  (<[next m := {| point_ := At c; result_ := None; continuation_ := Some h |}]> (frames m)).
Proof.
  intros Hf Hp Hr Hfr. unfold step. rewrite Hr, Hf, Hp. eexists. split; [done|]. split_and!; try done.
  cbn. f_equal. apply map_eq. intros i. destruct (decide (i = next m)) as [->|].
  - by rewrite lookup_alter_eq, !lookup_insert_eq.
  - by rewrite lookup_alter_ne, !lookup_insert_ne.
Qed.

(** The step that takes the result of the task and destroys it *)
Lemma resume_step h f n k g r m :
  frames m !! h = Some f -> point_ f = Awaiting n k -> running m = Some h ->
  frames m !! n = Some g -> point_ g = Final -> result_ g = Some r ->
  exists m1, step m = Ok m1 /\ running m1 = Some h /\ waiting m1 = waiting m /\ next m1 = next m /\
    frames m1 = <[h := f <| point_ := At (k r) |>]> (delete n (frames m)).
Proof.
  intros Hf Hp Hr Hg Hgp Hgr. unfold step. rewrite Hr, Hf, Hp, Hg. cbn [destroy]. rewrite Hg, Hgp.
  cbn [mbind outcome_bind]. unfold await_resume. rewrite Hgr. eexists. split; [done|]. by split_and!.
Qed.

Lemma ran_trans h f f' r m m1 m2 :
  f' <| result_ := Some r |> <| point_ := Final |> = f <| result_ := Some r |> <| point_ := Final |> ->
  continuation_ f' = continuation_ f -> waiting m1 = waiting m -> (next m <= next m1)%nat ->
  (forall i, i <> h -> frames m1 !! i = frames m !! i) -> ran h f' r m1 m2 -> ran h f r m m2.
Proof.
  intros Hff Hc Hw Hn Hi (R1 & R2 & R3 & R4). split_and!; [|congruence|congruence|lia].
  rewrite R1, Hff. apply map_eq. intros i. destruct (decide (i = h)) as [->|Hne].
  - by rewrite !lookup_insert_eq.
  - rewrite !lookup_insert_ne by done. by apply Hi.
Qed.

Lemma run_body c answers r rest h f m :
  eval c answers = Some (r, rest) -> waiting m = [] -> fresh_ids m ->
  frames m !! h = Some f -> point_ f = At c -> running m = Some h ->
  exists n m', turns n (m, answers) = Ok (m', rest) /\ ran h f r m m'.
Proof.
  revert answers r rest h f m. induction c as [v|x|c IHc k IHk|o k IHk]; intros answers r rest h f m;
    cbn [eval]; intros He Hw Hfr Hf Hp Hr.
  1, 2: injection He as <- <-; exists 1%nat; eexists; split;
    [eapply (turn_step 0); [by rewrite Hr|unfold step; by rewrite Hr, Hf, Hp|done]|by split_and!].
  - destruct (eval c answers) as [[r1 mid]|] eqn:Ec; cbn [mbind option_bind] in He; [|done].
    destruct (await_step h f c k m Hf Hp Hr Hfr) as (m1 & H1 & R1 & W1 & N1 & F1).
    assert (h <> next m) as Hne by (intros ->; apply Hfr in Hf; lia).
    destruct (IHc answers r1 mid (next m) {| point_ := At c; result_ := None; continuation_ := Some h |} m1)
      as (n1 & m2 & T1 & (F2 & R2 & W2 & N2)); try done; [congruence| |by rewrite F1, lookup_insert_ne, lookup_insert_eq|].
    { intros i g. rewrite F1, N1, !lookup_insert_Some. intros [[<- _]|[_ [[<- _]|[_ Hi]]]]; [|lia|];
        [apply Hfr in Hf; lia|apply Hfr in Hi; lia]. }
    destruct (resume_step h (f <| point_ := Awaiting (next m) k |>) (next m) k
      {| point_ := Final; result_ := Some r1; continuation_ := Some h |} r1 m2)
      as (m3 & H3 & R3 & W3 & N3 & F3); try done;
      [by rewrite F2, lookup_insert_ne, F1, lookup_insert_eq|by rewrite F2, lookup_insert_eq|].
    assert (forall i, i <> h -> frames m3 !! i = frames m !! i) as Hsame.
    { intros i Hi. rewrite F3, lookup_insert_ne by done. destruct (decide (i = next m)) as [->|Hin].
      - rewrite lookup_delete_eq. destruct (frames m !! next m) eqn:E; [apply Hfr in E; lia|done].
      - by rewrite lookup_delete_ne, F2, lookup_insert_ne, F1, !lookup_insert_ne by done. }
    destruct (IHk r1 mid r rest h (f <| point_ := At (k r1) |>) m3) as (n3 & m4 & T3 & Hran); try done;
      [congruence| |by rewrite F3, lookup_insert_eq|].
    { intros i g Hi. rewrite N3. destruct (decide (i = h)) as [->|Hih]; [apply Hfr in Hf; lia|].
      rewrite Hsame in Hi by done. apply Hfr in Hi. lia. }
    exists (S (n1 + S n3))%nat, m4. split.
    + eapply turn_step; [by rewrite Hr|exact H1|]. rewrite (turns_app _ _ _ _ T1).
      eapply turn_step; [by rewrite R2|exact H3|done].
    + eapply ran_trans; [..|exact Hran]; [done|done|congruence|lia|exact Hsame].
  - destruct answers as [|r0 answers]; [done|].
    set (m1 := m <| running := None |> <| waiting ::= cons (h, o) |>).
    set (m2 := m <| frames ::= <[h := f <| point_ := At (k r0) |>]> |>).
    assert (complete h r0 m1 = Ok m2) as Hcomp.
    { unfold complete. cbn [frames m1 set_field]. rewrite Hf, Hp. unfold resume, m1, m2, set_field. cbn.
      by rewrite Nat.eqb_refl, Hw, Hr. }
    destruct (IHk r0 answers r rest h (f <| point_ := At (k r0) |>) m2) as (n3 & m4 & T3 & Hran); try done.
    + intros i g. cbn [frames m2 set_field]. rewrite lookup_insert_Some. intros [[<- _]|[_ Hi]]; by eapply Hfr.
    + by cbn; rewrite lookup_insert_eq.
    + exists (S (S n3)), m4. split.
      * eapply turn_step; [by rewrite Hr|unfold step; by rewrite Hr, Hf, Hp|]. fold m1.
        cbn [turns turn running waiting m1 set_field]. rewrite Hcomp. exact T3.
      * eapply ran_trans; [..|exact Hran]; try done. intros i Hi. cbn. by rewrite lookup_insert_ne.
Qed.

(** C3: Awaiting a task is calling a function.  Started with [resume], a task
    runs to its final suspension when its operations are answered; its [result]
    is the value or the exception that its body, read as a function, has on the
    answers; the answers are taken in the same order; and of all the frames it
    made only its own is left, so that the destructor of the [Task] leaves none. *)
Theorem task_is_call (c : co) (answers : list outcome_of) (r : outcome_of) (rest : list outcome_of) :
  eval c answers = Some (r, rest) ->
  let '(h, m) := new_task c no_frames in
  exists n m', turns n (resume h m, answers) = Ok (m', rest) /\
    is_done h m' = true /\ running m' = None /\ waiting m' = [] /\
    (exists f, frames m' = {[h := f]} /\ await_resume f = r) /\
    destroy (S (size (frames m'))) h m' = Ok (m' <| frames := ∅ |>).
Proof.
  intros He. cbn [new_task no_frames].
  set (f := {| point_ := At c; result_ := None; continuation_ := None |}).
  destruct (run_body c answers r rest 0 f (resume 0 (no_frames <| frames ::= <[0%nat := f]> |> <| next ::= S |>)))
    as (n & m' & Ht & (F & R & W & N)); try done.
  { intros i g. cbn. intros H. apply lookup_insert_Some in H as [[<- _]|[_ H]]; [lia|by rewrite lookup_empty in H]. }
  exists n, m'. cbn in F, R, W. rewrite insert_insert_eq in F. split; [exact Ht|]. split_and!; try done.
  - unfold is_done. by rewrite F, lookup_insert_eq.
  - eexists. split; [by rewrite F, insert_empty|done].
  - cbn [destroy]. rewrite F, lookup_insert_eq. cbn. apply f_equal. unfold set_field. cbn.
    by rewrite F, delete_insert_eq, delete_empty.
Qed.

(** ** Destroying a suspended task *)

(** The chain of frames from a task to the coroutine that is suspended in it *)
Inductive chain (m : machine) : nat -> list nat -> Prop :=
| chain_end h f : frames m !! h = Some f -> (forall n k, point_ f <> Awaiting n k) -> chain m h [h]
| chain_next h f n k hs :
    frames m !! h = Some f -> point_ f = Awaiting n k -> chain m n hs -> h ∉ hs -> chain m h (h :: hs).

Lemma chain_other m i h hs : i ∉ hs -> chain m h hs -> chain (m <| frames ::= delete i |>) h hs.
Proof.
  intros Hi Hc. induction Hc as [h f Hf Hp|h f n k hs Hf Hp Hc IH Hh].
  - econstructor; [|exact Hp]. cbn. rewrite lookup_delete_ne; [done|]. intros ->. by apply Hi, list_elem_of_here.
  - econstructor; [|exact Hp| |exact Hh].
    + cbn. rewrite lookup_delete_ne; [done|]. intros ->. by apply Hi, list_elem_of_here.
    + apply IH. intros H. by apply Hi, list_elem_of_further.
Qed.

(** The destructor of a suspended task destroys the frames of its chain and no
    other. *)
Lemma destroy_chain fuel m h hs :
  chain m h hs -> (length hs <= fuel)%nat ->
  destroy fuel h m = Ok (m <| frames ::= fun fs => foldl (fun fs i => delete i fs) fs hs |>).
Proof.
  revert m h hs. induction fuel as [|fuel IH]; intros m h hs Hc Hl.
  { destruct Hc; cbn in Hl; lia. }
  destruct Hc as [h f Hf Hp|h f n k hs Hf Hp Hc Hh]; cbn [destroy]; rewrite Hf.
  - destruct (point_ f) as [c|n k|] eqn:E; [done|by destruct (Hp n k)|done].
  - rewrite Hp. rewrite (IH _ n hs); [done|by apply chain_other|cbn in Hl; lia].
Qed.

(** An operation that completes after its coroutine was destroyed resumes a frame
    that is gone: the tasks of pending operations must not be destroyed. *)
Lemma complete_destroyed h r m : frames m !! h = None -> complete h r m = Undefined UseAfterFree.
Proof. unfold complete. by intros ->. Qed.
End Coroutine.

(** ** An execution

    A task that awaits another, which reads twice and throws what the second read
    has failed with; the caller catches. *)
Definition reading : co (V := Z) (X := bytes) (Op := nat) :=
  AwaitOp 0%nat (fun r => match r with
    | inl a => AwaitOp 1%nat (fun r => match r with inl b => Return (a + b) | inr x => Throw x end)
    | inr x => Throw x
    end).

Definition caller : co (V := Z) (X := bytes) (Op := nat) :=
  AwaitTask reading (fun r => match r with
    | inl n => Return n
    | inr _ => AwaitTask (Return 7) (fun r => match r with inl n => Return (n * 6) | inr x => Throw x end)
    end).

Lemma task_is_call_witness :
  let '(h, m) := new_task caller no_frames in
  exists n m', turns (str "bad_variant_access") n (resume h m, [inl 1; inr (str "eof")]) = Ok (m', []) /\
    is_done h m' = true /\ running m' = None /\ waiting m' = [] /\
    (exists f, frames m' = {[h := f]} /\ await_resume (str "bad_variant_access") f = inl 42) /\
    destroy (S (size (frames m'))) h m' = Ok (m' <| frames := ∅ |>).
Proof.
  apply (task_is_call (str "bad_variant_access") caller [inl 1; inr (str "eof")] (inl 42) []). reflexivity.
Defined.
