(* ===== verification/Spawn.v ===== *)
(** * Spawned tasks (src/include/async_net/coroutine/spawn.hpp, executor/coroutine.hpp)

    [spawn] starts a task and gives a [JoinHandle]; the shared state, its waiter,
    and the frame of the wrapper coroutine.  The coroutine that ends and the one
    that joins may be on two threads: a step is what happens between two accesses
    of the shared state, and the steps interleave. *)
From S2P Require Import Prelude Coroutine.
From stdpp Require Import options.

#[local] Set Default Proof Using "Type*".

(** ** Wrappers, as bodies of tasks *)

Section Wrappers.
Context {V X Op : Type}.

(** What the wrappers wait for: the switch to an executor, a sleep, or what the
    task waits for. *)
Inductive hop := RunOn | SleepFor (d : Z) | Inner (o : Op).

(** [co_return co_await std::move(task)] *)
Definition spawn_eager (task : co (V := V) (X := X) (Op := hop)) : co (V := V) (X := X) (Op := hop) :=
  AwaitTask task (fun r => match r with inl v => Return v | inr x => Throw x end).

(** A wait whose [await_resume] gives nothing: the value of the answer is not used. *)
Definition pause (o : hop) (rest : co (V := V) (X := X) (Op := hop)) : co (V := V) (X := X) (Op := hop) :=
  AwaitOp o (fun r => match r with inl _ => rest | inr x => Throw x end).

Definition on_executor_task task := pause RunOn (spawn_eager task).

(** The result of the task is dropped; [void] is what the wrapper gives. *)
Definition scheduled_once_task (d : Z) (task : co) (void : V) : co :=
  pause (SleepFor d) (AwaitTask task (fun r => match r with inl _ => Return void | inr x => Throw x end)).

(** The [delayed] coroutine of [schedule] *)
Definition delayed (d : Z) task := pause (SleepFor d) (spawn_eager task).

(** The loop of [scheduled_periodic_task], unrolled [n] times before [loop] *)
Fixpoint periods (n : nat) (iv : Z) (factory : nat -> co) (loop : co) : co :=
  match n with
  | O => loop
  | S n => AwaitTask (factory n) (fun r => match r with
             | inl _ => pause (SleepFor iv) (periods n iv factory loop)
             | inr x => Throw x
             end)
  end.

Definition scheduled_periodic_task (n : nat) (d iv : Z) (factory : nat -> co) (loop : co) : co :=
  pause (SleepFor d) (periods n iv factory loop).

Lemma eval_spawn_eager task (answers : list (V + X)) : eval (spawn_eager task) answers = eval task answers.
Proof. cbn. destruct (eval task answers) as [[[v|x] rest]|]; done. Qed.

(** On an executor, and after a delay, a task gives what it gives. *)
Lemma eval_on_executor task v (answers : list (V + X)) :
  eval (on_executor_task task) (inl v :: answers) = eval task answers.
Proof. apply eval_spawn_eager. Qed.

Lemma eval_delayed d task v (answers : list (V + X)) :
  eval (delayed d task) (inl v :: answers) = eval task answers.
Proof. apply eval_spawn_eager. Qed.

(** A round that throws is the last one of a periodic task. *)
Lemma eval_periods_throw n iv factory loop x (answers rest : list (V + X)) :
  eval (factory n) answers = Some (inr x, rest) ->
  eval (periods (S n) iv factory loop) answers = Some (inr x, rest).
Proof. intros He. cbn. by rewrite He. Qed.

Lemma eval_periods n iv factory loop u v (answers rest : list (V + X)) :
  eval (factory n) answers = Some (inl u, inl v :: rest) ->
  eval (periods (S n) iv factory loop) answers = eval (periods n iv factory loop) rest.
Proof. intros He. cbn. by rewrite He. Qed.
End Wrappers.

(** ** The handle and the state it shares with the coroutine *)

Section Join.
Context {R : Type}.
(** [R]: what [await_resume] gives, a value or an exception. *)

(** Where the spawned coroutine is: in its body, at [final_suspend], and in
    [FinalAwaiter::await_suspend] after [done] is stored, after the waiter is
    taken, and after it was resumed; or destroyed while its body was suspended. *)
Inductive phase := Running | Ended | Stored | Taken (w : bool) | Parked | Cancelled.

(** Where the coroutine that joins is.  [Checking] and [Suspending] are the calls
    of [await_ready] and [await_suspend]; [Joined] is after [await_resume]. *)
Inductive joiner :=
| Holding | Checking | Suspending | Suspended | Joined (r : R) | Gone.

Record system := {
  result : option R;                   (** [SpawnState::result] *)
  done_ : bool;
  waiter : bool;                       (** whether the joining coroutine is stored *)
  frame_live : bool;                   (** the frame of the spawned coroutine *)
  handle_ : bool;                      (** [JoinHandle::handle_] *)
  state_ : bool;                       (** [JoinHandle::state_] *)
  at_ : phase;
  join : joiner;
  released : bool;                     (** a [scheduled_task] has the frame *)
  resumed : nat                        (** history: resumptions of the waiter *)
}.
#[export] Instance spawn_settable : Settable system := fun s =>
  Build_system (result s) (done_ s) (waiter s) (frame_live s) (handle_ s) (state_ s) (at_ s) (join s)
    (released s) (resumed s).
Implicit Types s : system.

(** [spawn], when the task does not end at once. *)
Definition spawned : system :=
  {| result := None; done_ := false; waiter := false; frame_live := true; handle_ := true;
     state_ := true; at_ := Running; join := Holding; released := false; resumed := 0 |}.

(** The promise is in the frame. *)
Definition in_frame (s : system) (m : outcome system) : outcome system :=
  if frame_live s then m else Undefined UseAfterFree.

(** [std::get] of a result that is not there throws; [None] stands for it. *)
Definition await_resume (s : system) : outcome system :=
  match result s with
  | Some r => Ok (s <| join := Joined r |>)
  | None => Throws (RuntimeError (str "bad_variant_access"))
  end.

(** [cleanup] *)
Definition cleanup (s : system) : system :=
  if handle_ s && state_ s && done_ s
  then s <| frame_live := false |> <| waiter := false |> <| handle_ := false |> else s.

Definition is_finished (s : system) : bool := negb (state_ s) || done_ s.

(** [detach]; and [release_handle], whose caller makes a [scheduled_task] of the
    frame ([schedule_once], [schedule_at_fixed_rate]). *)
Definition detach (s : system) : system := s <| handle_ := false |> <| state_ := false |>.
Definition release_handle (s : system) : system := (detach s) <| released := handle_ s |>.

(** [operator=(JoinHandle&&)] into the handle, which stands for another task then. *)
Definition assign (s : system) : system :=
  (cleanup s) <| handle_ := false |> <| state_ := false |> <| join := Gone |>.

(** [scheduled_task::cancel] and [destroy]: the destructor of the promise clears
    the waiter. *)
Definition cancel (s : system) : system :=
  s <| frame_live := false |> <| waiter := false |> <| released := false |>.

Inductive event :=
| Returns_ (r : R)       (** [return_value] or [unhandled_exception] *)
| StoreDone
| TakeWaiter             (** the critical section of the final awaiter *)
| ResumeWaiter
| CoAwait                (** [operator co_await]: the state moves to the awaiter *)
| AwaitReady
| AwaitSuspend
| Destroy                (** [~JoinHandle] *)
| Assign                 (** another handle is moved into this one *)
| Detach
| Release
| Cancel                 (** [cancel], the destructor or the assignment of a [scheduled_task] *)
| Kill.                  (** the joining coroutine is destroyed *)

Inductive step : event -> system -> outcome system -> Prop :=
| step_return r s : at_ s = Running ->
    step (Returns_ r) s (in_frame s (Ok (s <| result := Some r |> <| at_ := Ended |>)))
| step_store s : at_ s = Ended ->
    step StoreDone s (in_frame s (Ok (s <| done_ := true |> <| at_ := Stored |>)))
| step_take s : at_ s = Stored ->
    step TakeWaiter s (in_frame s (Ok (s <| waiter := false |> <| at_ := Taken (waiter s) |>)))
| step_resume_none s : at_ s = Taken false -> step ResumeWaiter s (Ok (s <| at_ := Parked |>))
| step_resume s : at_ s = Taken true ->
    step ResumeWaiter s
      match join s with
      | Suspended => await_resume (s <| at_ := Parked |> <| resumed ::= S |>)
      | _ => Undefined UseAfterFree                 (** [w.done()] of a frame that is gone *)
      end
| step_await s : join s = Holding ->
    step CoAwait s
      (if state_ s then Ok (s <| state_ := false |> <| join := Checking |>) else Undefined NullPointer)
| step_ready s : join s = Checking ->
    step AwaitReady s (if done_ s then await_resume s else Ok (s <| join := Suspending |>))
| step_suspend s : join s = Suspending ->
    step AwaitSuspend s
      (if done_ s then await_resume s else Ok (s <| waiter := true |> <| join := Suspended |>))
| step_destroy s : join s = Holding -> step Destroy s (Ok ((cleanup s) <| join := Gone |>))
| step_detach s : join s = Holding ->
    step Detach s (Ok (detach s))
| step_kill s : join s = Suspended -> step Kill s (Ok ((cleanup s) <| join := Gone |>))
| step_assign s : join s = Holding -> step Assign s (Ok (assign s))
| step_release s : join s = Holding -> step Release s (Ok (release_handle s))
| step_cancel s : released s = true -> at_ s <> Ended ->
    step Cancel s (Ok ((cancel s) <| at_ ::= fun a => match a with Running => Cancelled | a => a end |>))
| step_cancel_busy s : released s = true -> at_ s = Running \/ at_ s = Ended ->
    step Cancel s (Undefined UseAfterFree).       (** on another thread, the coroutine is running *)

(** The states reached by the given kinds of steps, without anything undefined *)
Inductive reaches (allowed : event -> Prop) : system -> Prop :=
| reach_spawned : reaches allowed spawned
| reach_step e s s' : reaches allowed s -> allowed e -> step e s (Ok s') -> reaches allowed s'.

(** The steps of a program that awaits its handle *)
Definition joining (e : event) : Prop :=
  match e with Destroy | Assign | Detach | Release | Cancel | Kill => False | _ => True end.

(** ** Invariants *)

Definition is_done_phase (p : phase) : bool := match p with Running | Ended | Cancelled => false | _ => true end.

(** The waiter has not been taken. *)
Definition early (p : phase) : bool := match p with Running | Ended | Stored => true | _ => false end.

Record inv (s : system) : Prop := {
  iv_live : frame_live s = true;
  iv_result : at_ s <> Running -> is_Some (result s);
  iv_done : done_ s = is_done_phase (at_ s);
  iv_waiter : early (at_ s) = true -> (waiter s = true <-> join s = Suspended);
  iv_taken b : at_ s = Taken b -> (b = true <-> join s = Suspended);
  iv_parked : at_ s = Parked -> join s <> Suspended;
  iv_resumed : (resumed s <= 1)%nat /\ (at_ s <> Parked -> resumed s = 0%nat);
  iv_joined r : join s = Joined r -> result s = Some r /\ done_ s = true;
  iv_holding : join s = Holding -> state_ s = true;
  iv_gone : join s <> Gone;
  iv_kept : at_ s <> Cancelled
}.

(** What is left of the two coroutines *)
Definition steps_left (s : system) : nat :=
  match at_ s with Running => 5 | Ended => 4 | Stored => 3 | Taken _ => 2 | Parked | Cancelled => 0 end +
  match join s with Holding => 4 | Checking => 3 | Suspending => 2 | Suspended => 1 | _ => 0 end.

Lemma inv_spawned : inv spawned.
Proof. split; cbn; intros; try done; lia. Qed.

Lemma await_resume_ok s r : result s = Some r -> await_resume s = Ok (s <| join := Joined r |>).
Proof. unfold await_resume. by intros ->. Qed.

(** The joiner takes the result of a coroutine that is done. *)
Lemma inv_takes s : inv s -> done_ s = true -> join s = Checking \/ join s = Suspending ->
  exists s', await_resume s = Ok s' /\ inv s' /\ (steps_left s' < steps_left s)%nat.
Proof.
  intros I Hd Hj. assert (at_ s <> Running) as Ha by (intros Ha; rewrite (iv_done _ I), Ha in Hd; done).
  destruct (iv_result _ I Ha) as [r Hr]. eexists. split; [by apply await_resume_ok|]. split.
  - destruct I as [L RS D W T P N J HO G X]. split; cbn; try done.
    + intros He. rewrite (W He). destruct Hj; split; congruence.
    + intros b Hb. rewrite (T b Hb). destruct Hj; split; congruence.
    + by intros r' [= <-].
  - unfold steps_left. cbn. destruct Hj as [-> | ->]; lia.
Qed.

Local Ltac spawn_field J N n := intros; try done; try congruence; try lia; try (split; congruence); try (by eauto);
  subst; simplify_eq; try done;
  try (edestruct J; by eauto); try (split; [|done]; assert (n = 0%nat) by (by apply N); lia); try (firstorder congruence).

(** Every step of the two coroutines keeps the invariant and gets nearer the end. *)
Lemma inv_step e s o :
  inv s -> joining e -> step e s o -> exists s', o = Ok s' /\ inv s' /\ (steps_left s' < steps_left s)%nat.
Proof.
  intros I He Hs.
  destruct Hs as [r s H|s H|s H|s H|s H|s H|s H|s H|s H|s H|s H|s H|s H|s H|s H]; try done.
  7, 8: destruct (done_ s) eqn:Hd; [apply inv_takes; eauto|].
  all: destruct I as [L RS D W T P N J HO G X]; destruct s as [res d w fl h st a j rl n]; cbn in *; subst; cbn in *.
  5: rewrite (proj1 (T true eq_refl) eq_refl) in *; destruct (RS ltac:(done)) as [r ->].
  6: rewrite (HO eq_refl) in *.
  all: eexists; (split; [done|split; [split; cbn; spawn_field J N n|cbn; lia]]).
Qed.

Lemma reaches_inv s : reaches joining s -> inv s.
Proof.
  intros Hr. induction Hr as [|e s s' _ IH He Hs]; [apply inv_spawned|].
  by destruct (inv_step e s _ IH He Hs) as (s2 & [= ->] & I & _).
Qed.

(** A handle that says its task is finished has its result. *)
Lemma is_finished_result s : inv s -> state_ s = true -> is_finished s = true -> is_Some (result s).
Proof.
  unfold is_finished. intros I -> Hd. cbn in Hd. apply (iv_result _ I). intros Ha.
  by rewrite (iv_done _ I), Ha in Hd.
Qed.

(** Until both have ended there is a step to make; [r] is what the body gives. *)
Lemma inv_busy (r : R) s : inv s -> (at_ s = Parked /\ exists r, join s = Joined r) \/
  exists e o, joining e /\ step e s o.
Proof.
  intros I. destruct (at_ s) as [| | |[] | |] eqn:Ea; [..|by destruct (iv_kept _ I)].
  - right. exists (Returns_ r). eexists. split; [done|by constructor].
  - right. exists StoreDone. eexists. split; [done|by constructor].
  - right. exists TakeWaiter. eexists. split; [done|by constructor].
  - right. exists ResumeWaiter. eexists. split; [done|by apply step_resume].
  - right. exists ResumeWaiter. eexists. split; [done|by apply step_resume_none].
  - destruct (join s) as [| | | |r'|] eqn:Ej; [| | |by destruct (iv_parked _ I Ea)| |by destruct (iv_gone _ I)].
    + right. exists CoAwait. eexists. split; [done|by constructor].
    + right. exists AwaitReady. eexists. split; [done|by constructor].
    + right. exists AwaitSuspend. eexists. split; [done|by constructor].
    + left. eauto.
Qed.

(** C33: A program that awaits the handle of a spawned task gets its result, however
    the steps of the two coroutines interleave on two threads: no step touches what
    is gone or throws; each brings the two nearer their end, so that every run ends;
    where it ends, the joining coroutine has the value or the exception that the
    task ended with; and it is resumed at most once, never when it is not suspended.
    The frame of the spawned coroutine is never freed on the way. *)
Theorem join_delivers (r0 : R) s :
  reaches joining s ->
  (forall e o, joining e -> step e s o -> exists s', o = Ok s' /\ (steps_left s' < steps_left s)%nat) /\
  ((forall e o, joining e -> ~ step e s o) -> at_ s = Parked /\ exists r, join s = Joined r) /\
  (forall r, join s = Joined r -> result s = Some r /\ done_ s = true) /\
  (resumed s <= 1)%nat /\ (at_ s = Taken true -> join s = Suspended) /\ frame_live s = true.
Proof.
  intros Hr%reaches_inv. split_and!.
  - intros e o He Hs. destruct (inv_step e s o Hr He Hs) as (s' & ? & _ & ?). eauto.
  - intros Hq. destruct (inv_busy r0 s Hr) as [?|(e & o & He & Hs)]; [done|by destruct (Hq e o He)].
  - apply iv_joined, Hr.
  - apply (iv_resumed _ Hr).
  - intros H. by apply (iv_taken _ Hr true H).
  - apply iv_live, Hr.
Qed.

(** ** Outside [joining] *)

(** A handle that was awaited is empty; the frame has one owner at most, and an owned
    frame is there. *)
Record owned (s : system) : Prop := {
  ow_moved : join s = Holding \/ join s = Gone \/ state_ s = false;
  ow_handle : join s = Holding -> handle_ s = true -> frame_live s = true /\ released s = false;
  ow_released : released s = true -> frame_live s = true
}.

Lemma owned_step e s s' : owned s -> step e s (Ok s') -> owned s'.
Proof.
  intros [M H L] Hs. inversion Hs; subst; unfold in_frame, await_resume, assign, release_handle, cancel, cleanup in *;
    repeat case_match; simplify_eq; repeat match goal with H : _ && _ = true |- _ => apply andb_true_iff in H as [??] end;
    constructor; cbn; intros; intuition congruence.
Qed.

Lemma reaches_owned allowed s : reaches allowed s -> owned s.
Proof. intros Hr. induction Hr as [|e s s' _ IH _ Hs]; [by split; [left|..]|by eapply owned_step]. Qed.

(** One more step of a run: [H] is that its start is reached. *)
Local Tactic Notation "onward" hyp(H) uconstr(e) uconstr(st) :=
  let H' := fresh in unshelve epose proof (reach_step _ e _ _ H _ (st _ _)) as H'; [done|done|];
  cbv [spawned set_field spawn_settable eta_of result done_ waiter frame_live handle_ state_ at_ join released resumed cleanup
    detach release_handle cancel andb] in H'; clear H; rename H' into H.

(** C34: When the frame of a spawned task is freed, and what a program must not do.
    A step frees the frame only if it is the destructor of a handle that was never
    awaited, or a move into it, when the task is done; or if a [scheduled_task]
    that was given the frame destroys it.  So a frame whose handle was awaited,
    detached, or destroyed before the task is done is never freed; and none is
    freed twice: who would free the frame finds it there.  The destructor that runs
    on another thread between [done] and the taking of the waiter frees the frame
    under the final awaiter; so does a [scheduled_task]; a joining coroutine that is
    destroyed while it is suspended leaves a waiter that is resumed when the task
    ends. *)
Theorem spawn_frame_lifetime (r : R) :
  (forall s e s', reaches (fun _ => True) s -> step e s (Ok s') ->
    frame_live s = true -> frame_live s' = false ->
    (e = Destroy \/ e = Assign) /\ join s = Holding /\ state_ s = true /\ done_ s = true \/
    e = Cancel /\ released s = true) /\
  (forall s, reaches (fun _ => True) s ->
    (join s = Holding -> handle_ s = true -> frame_live s = true) /\ (released s = true -> frame_live s = true)) /\
  (exists s, reaches (fun e => e <> Kill /\ e <> Release) s /\ step TakeWaiter s (Undefined UseAfterFree)) /\
  (exists s, reaches (fun e => e <> Kill /\ e <> Destroy) s /\ step TakeWaiter s (Undefined UseAfterFree)) /\
  (exists s, reaches (fun e => e <> Destroy /\ e <> Release) s /\ step ResumeWaiter s (Undefined UseAfterFree)).
Proof.
  split_and!.
  - intros s e s' [Hr _ _]%reaches_owned Hs Hl Hl'. inversion Hs; subst;
      unfold in_frame, await_resume, assign, cleanup in *; repeat case_match; simplify_eq; cbn in *; try congruence;
      try (match goal with H : _ && _ = true |- _ => apply andb_true_iff in H as [[_ ?]%andb_true_iff ?] end);
      [by left; split; [left|]|destruct Hr as [|[|]]; congruence|by left; split; [right|]|by right].
  - intros s [_ H L]%reaches_owned. split; [|done]. intros Hj Hh. by apply H.
  - pose proof (reach_spawned (fun e => e <> Kill /\ e <> Release)) as H.
    onward H (Returns_ r) (step_return r). onward H StoreDone step_store.
    onward H Destroy step_destroy. eexists. split; [exact H|by apply step_take].
  - pose proof (reach_spawned (fun e => e <> Kill /\ e <> Destroy)) as H.
    onward H Release step_release. onward H (Returns_ r) (step_return r). onward H StoreDone step_store.
    eapply (reach_step _ Cancel) in H; [|done|by apply step_cancel]. cbn in H.
    eexists. split; [exact H|by apply step_take].
  - pose proof (reach_spawned (fun e => e <> Destroy /\ e <> Release)) as H.
    onward H CoAwait step_await. onward H AwaitReady step_ready.
    onward H AwaitSuspend step_suspend. onward H Kill step_kill.
    onward H (Returns_ r) (step_return r). onward H StoreDone step_store.
    onward H TakeWaiter step_take. eexists. split; [exact H|by apply step_resume].
Qed.
End Join.

Local Tactic Notation "onward" hyp(H) uconstr(e) uconstr(st) :=
  let H' := fresh in unshelve epose proof (reach_step _ e _ _ H _ (st _ _)) as H'; [done|done|];
  cbv [spawned set_field spawn_settable eta_of result done_ waiter frame_live handle_ state_ at_ join released resumed cleanup
    detach release_handle cancel andb] in H'; clear H; rename H' into H.

(** ** Examples *)

Lemma join_delivers_witness :
  let s := {| result := Some 7; done_ := true; waiter := false; frame_live := true; handle_ := true; state_ := false;
              at_ := Parked; join := Joined 7; released := false; resumed := 1 |} in
  reaches joining s /\ (at_ s = Parked /\ exists r, join s = Joined r).
Proof.
  pose proof (reach_spawned (R := Z) joining) as H.
  onward H CoAwait step_await. onward H AwaitReady step_ready.
  onward H AwaitSuspend step_suspend. onward H (Returns_ 7) (step_return 7).
  onward H StoreDone step_store. onward H TakeWaiter step_take.
  onward H ResumeWaiter step_resume. split; [exact H|].
  apply (join_delivers 7 _ H). intros e o _ Hs. inversion Hs; subst; discriminate.
Defined.

Lemma spawn_frame_lifetime_witness :
  let s := {| result := Some 7; done_ := true; waiter := false; frame_live := true; handle_ := true; state_ := true;
              at_ := Parked; join := Holding; released := false; resumed := 0 |} in
  join s = Holding /\ state_ s = true /\ done_ s = true.
Proof.
  intros s. pose proof (reach_spawned (R := Z) (fun _ => True)) as H.
  onward H (Returns_ 7) (step_return 7). onward H StoreDone step_store. onward H TakeWaiter step_take.
  onward H ResumeWaiter step_resume_none.
  destruct (proj1 (spawn_frame_lifetime (R := Z) 7) s Destroy _ H (step_destroy s eq_refl)) as [[_ Hd]|[? _]];
    [reflexivity|reflexivity|exact Hd|discriminate].
Defined.
