(* ===== verification/IoContext.v ===== *)
(** * The I/O context (src/include/async_net/io/io_context.hpp,
      src/src/io/io_context.cpp, src/include/async_net/executor/schedule.hpp,
      src/include/async_net/executor/coroutine.hpp)

    The event loop: its queue of posted functions, its timer queue, the work
    count and the guards that hold it, the coroutines that sleep in it, and the
    loops [run], [run_until_complete], [run_one] and [poll].

    What the loop needs of an I/O backend is the class [Backend].  A function
    given to [post] or a coroutine to resume is a name; [Program] gives the name
    its code, a tree of the calls it makes.  The loop's thread advances by one
    point of its code at a time, so other threads may call the context anywhere
    in between; a run is any sequence of such steps.  [history] records what the
    loop did with every function, for the theorems only. *)
From S2P Require Import Prelude.
From stdpp Require Import sorting options.

#[local] Open Scope Z_scope.
#[local] Open Scope net_scope.

(** ** The interfaces *)

(** A coroutine handle: the frame and the point at which it is suspended. *)
Record handle (F : Type) := { frame : nat; point : F }.
Arguments frame {F} _.
Arguments point {F} _.

(** An I/O backend: [poll] hands over the coroutines it resumes, [polled] is the
    rest of it, after they ran.  [submit] starts an operation for a coroutine and
    says whether it completed at once, so that the coroutine goes on; what an
    operation brought is in its context and not part of the loop.  [awake] says
    that a call of [poll] would return at once because of an earlier [wake]. *)
Class Backend (B O F : Type) := {
  poll : Z -> B -> B * list (handle F);
  polled : B -> B;
  submit : O -> B -> B * bool;
  wake : B -> B;
  awake : B -> bool;
  wake_awake b : awake (wake b) = true;
  submit_awake o b : awake (submit o b).1 = awake b;
  polled_awake b : awake (polled b) = awake b
}.

(** [std::chrono::steady_clock]: its readings, in nanoseconds. *)
Class Clock := {
  reading : nat -> Z;
  reading_steady i j : (i <= j)%nat -> reading i <= reading j
}.

(** ** Threads and backends *)

(** What [run_mt] starts: the loop or the worker on the calling thread, [n]
    threads in one loop, or [n] threads with a context each. *)
Inductive mt_plan := RunHere | WorkerHere | SharedLoop (n : Z) | LoopEach (n : Z).

(** [run_mt]; [hardware] is [std::thread::hardware_concurrency()], [concurrent]
    the backend's [supports_concurrent_poll()]. *)
Definition run_mt (num_threads hardware : Z) (concurrent worker_factory : bool) : mt_plan :=
  let num_threads :=
    if num_threads =? 0 then if hardware =? 0 then 4 else hardware else num_threads in
  if num_threads <=? 1 then if worker_factory then WorkerHere else RunHere
  else if concurrent then SharedLoop num_threads
  else if worker_factory then LoopEach num_threads
  else RunHere.

Inductive backend_kind := Epoll | IoUring.

(** [create_default_backend] on Linux, with the environment variable
    ASYNC_NET_BACKEND; [io_uring] says that its constructor does not throw. *)
Definition create_default_backend (backend_env : option bytes) (io_uring : bool) : backend_kind :=
  match backend_env with
  | Some name =>
      if bool_decide (name = str "epoll") then Epoll else if io_uring then IoUring else Epoll
  | None => if io_uring then IoUring else Epoll
  end.

Section IoContext.
Context {B O F U : Type}.

(** ** Functions, timers and the state *)

(** A [std::function<void()>] of the loop: a user's function, the lambda of
    [run_on] that resumes a coroutine, and the lambda of
    [SleepAwaiter::await_suspend], which owns a work guard and shares the
    [alive] flag [awaiter]. *)
Inductive closure :=
| Call (f : F)
| Resume (co : handle F)
| SleepDone (awaiter : nat) (co : handle F).

(** [TimerEntry] *)
Record timer := { deadline : Z; callback : closure }.

(** The loops. *)
Inductive mode := Run | RunUntilComplete | RunOne | Poll.

(** What a batch of functions comes from: [backend_->poll], [process_timers],
    [execute_pending]. *)
Inductive phase := Polled | Timers | Pending.

(** Where the thread of the loop is: at the test of the loop's condition, at the
    test of the pending queue of [run_until_complete], at the computation of the
    time to block, in [backend_->poll], between two functions of a batch, or out
    of the loop, by its return or by an exception. *)
Inductive place :=
| Testing
| TestingPending
| Timing
| Blocking (since timeout : Z)
| Handling (ph : phase)
| Returned
| Thrown.

(** One function of a batch. *)
Inductive job :=
| FromPoll (co : handle F)
| FromTimer (t : timer)
| FromPost (func : closure).

Definition what (j : job) : closure :=
  match j with FromPoll co => Resume co | FromTimer t => callback t | FromPost func => func end.

(** What became of a function: it ran, or ended by an exception, when the last
    reading of the clock was [at_]; or it was destroyed without being run. *)
Inductive entry :=
| Ran (j : job) (at_ : Z)
| Failed (j : job) (at_ : Z)
| Lost (j : job).

Record loop := {
  backend_ : B;
  stopped_ : bool;
  work_count_ : Z;                (** [size_t] *)
  handlers_executed_ : Z;         (** [size_t] *)
  pending_ : list closure;
  timers_ : list timer;           (** a heap: the order of the list has no meaning *)
  guards : list bool;             (** the [work_guard] objects; [true]: [ctx_] is set *)
  awaiters : list (nat * bool);   (** the [SleepAwaiter]s: their frame and [*alive] *)
  frames : nat;                   (** coroutine frames allocated *)
  destroyed : list nat;           (** and destroyed *)
  readings : nat;                 (** readings taken of the clock *)
  user : U;
  kind : mode;
  at_place : place;
  batch : list job;               (** the rest of [expired], of the local [pending] *)
  now_ : Z;                       (** the last reading *)
  posted : list closure;          (** history: the calls of [post] *)
  armed : list timer;             (** the calls of [post_at] *)
  history : list entry
}.
#[export] Instance loop_settable : Settable loop := fun s =>
  Build_loop (backend_ s) (stopped_ s) (work_count_ s) (handlers_executed_ s) (pending_ s)
    (timers_ s) (guards s) (awaiters s) (frames s) (destroyed s) (readings s) (user s) (kind s)
    (at_place s) (batch s) (now_ s) (posted s) (armed s) (history s).

(** ** The timer queue

    [std::priority_queue]: [top] with [pop].  The standard leaves open which of
    several earliest timers comes first. *)
Class TimerQueue := {
  pop_top : list timer -> option (timer * list timer);
  pop_top_none q : pop_top q = None -> q = [];
  pop_top_some q t r :
    pop_top q = Some (t, r) ->
    q ≡ₚ t :: r /\ Forall (fun t' => deadline t <= deadline t') r
}.

Context `{HB : Backend B O F} `{HC : Clock} `{HQ : TimerQueue}.

(** [std::chrono::steady_clock::now()] *)
Definition now (s : loop) : Z * loop :=
  let t := reading (readings s) in (t, s <| readings ::= S |> <| now_ := t |>).

Definition wake_loop (s : loop) : loop := s <| backend_ ::= wake |>.

(** [stop], [restart] *)
Definition stop (s : loop) : loop := wake_loop (s <| stopped_ := true |>).
Definition restart (s : loop) : loop := s <| stopped_ := false |>.

(** [post_impl] *)
Definition post_impl (func : closure) (s : loop) : loop :=
  wake_loop (s <| pending_ ::= fun q => q ++ [func] |> <| posted ::= fun q => q ++ [func] |>).

(** [post_at] *)
Definition post_at (d : Z) (cb : closure) (s : loop) : loop :=
  let t := {| deadline := d; callback := cb |} in
  wake_loop (s <| timers_ ::= cons t |> <| armed ::= fun q => q ++ [t] |>).

(** [post_after] *)
Definition post_after (delay : Z) (cb : closure) (s : loop) : loop :=
  let '(t, s) := now s in post_at (t + delay) cb s.

(** ** Work guards *)

Definition acquire (s : loop) : loop := s <| work_count_ ::= fun c => u64 (c + 1) |>.

(** The effect of [work_guard::release] on a context that is set. *)
Definition drop_work (s : loop) : loop := wake_loop (s <| work_count_ ::= fun c => u64 (c - 1) |>).

(** [ctx_] of the guard object [g] *)
Definition holds (g : nat) (s : loop) : bool := default false (guards s !! g).

Definition is_guard (g : nat) (s : loop) : bool := (g <? length (guards s))%nat.

(** [explicit work_guard(io_context&)]; the new object's name is the number of
    objects before it. *)
Definition make_work (s : loop) : loop := acquire s <| guards ::= fun gs => gs ++ [true] |>.

(** [work_guard(const work_guard&)] *)
Definition copy_work (g : nat) (s : loop) : loop :=
  let b := holds g s in
  (if b then acquire s else s) <| guards ::= fun gs => gs ++ [b] |>.

(** [work_guard(work_guard&&)] *)
Definition move_work (g : nat) (s : loop) : loop :=
  let b := holds g s in
  s <| guards ::= fun gs => <[g := false]> gs ++ [b] |>.

(** [release], [reset] and the destructor *)
Definition release (g : nat) (s : loop) : loop :=
  if holds g s then drop_work s <| guards ::= <[g := false]> |> else s.

(** [operator=(const work_guard&)] *)
Definition assign_work (g other : nat) (s : loop) : loop :=
  if (g =? other)%nat || negb (is_guard g s) then s else
  let s := release g s in
  let b := holds other s in
  (if b then acquire s else s) <| guards ::= <[g := b]> |>.

(** [operator=(work_guard&&)] *)
Definition assign_move_work (g other : nat) (s : loop) : loop :=
  if (g =? other)%nat || negb (is_guard g s) then s else
  let s := release g s in
  let b := holds other s in
  s <| guards ::= fun gs => <[g := b]> (<[other := false]> gs) |>.

(** ** Coroutine frames and sleeping

    A frame stands for a spawned coroutine and the tasks it awaits, which are
    destroyed with it. *)

Definition is_destroyed (f : nat) (s : loop) : bool := bool_decide (f ∈ destroyed s).

Definition alive (a : nat) (s : loop) : bool :=
  match awaiters s !! a with Some (_, b) => b | None => false end.

(** [SleepAwaiter::await_suspend] *)
Definition await_suspend (d : Z) (co : handle F) (s : loop) : loop :=
  let a := length (awaiters s) in
  let s := acquire s <| awaiters ::= fun l => l ++ [(frame co, true)] |> in
  post_at d (SleepDone a co) s.

(** [~SleepAwaiter] *)
Definition end_sleep (a : nat) (s : loop) : loop :=
  s <| awaiters ::= alter (fun p => (p.1, false)) a |>.

(** [scheduled_task::cancel]: the handle is empty when the frame was destroyed;
    the destruction of the frame destroys the awaiters in it. *)
Definition cancel_task (f : nat) (s : loop) : loop :=
  if is_destroyed f s then s else
  s <| destroyed ::= cons f |>
    <| awaiters ::= map (fun p => if (p.1 =? f)%nat then (p.1, false) else p) |>.

(** ** The code of functions

    The calls of the context a function makes, in their order.  [Spawn] is
    [spawn] of a coroutine, which runs until it first suspends; the two sleeps
    and [RunOn] are [co_await] in the coroutine [co], and a sleep whose deadline
    has passed goes on with [k]; [Io] is [co_await] of an operation of the
    backend. *)
Inductive code :=
| Return
| Throw
| ToPost (func : F) (k : code)
| ToPostAt (d : Z) (cb : F) (k : code)
| ToPostAfter (delay : Z) (cb : F) (k : code)
| ToStop (k : code)
| ToRestart (k : code)
| MakeWork (k : nat -> code)
| CopyWork (g : nat) (k : nat -> code)
| MoveWork (g : nat) (k : nat -> code)
| AssignWork (g other : nat) (k : code)
| AssignMoveWork (g other : nat) (k : code)
| ResetWork (g : nat) (k : code)
| Spawn (c : nat -> code) (k : nat -> code)
| SleepUntil (d : Z) (co : handle F) (k : code)
| SleepFor (duration : Z) (co : handle F) (k : code)
| RunOn (co : handle F)
| CancelTask (f : nat) (k : code)
| Io (o : O) (k : code).

(** The state after the code and whether it threw. *)
Fixpoint exec (c : code) (s : loop) : outcome (loop * bool) :=
  let sleep d co k s :=
    let '(t, s) := now s in
    if d <=? t then exec k s else
    if is_destroyed (frame co) s then Undefined UseAfterFree else
    Ok (await_suspend d co s, false) in
  match c with
  | Return => Ok (s, false)
  | Throw => Ok (s, true)
  | ToPost func k => exec k (post_impl (Call func) s)
  | ToPostAt d cb k => exec k (post_at d (Call cb) s)
  | ToPostAfter delay cb k => exec k (post_after delay (Call cb) s)
  | ToStop k => exec k (stop s)
  | ToRestart k => exec k (restart s)
  | MakeWork k => exec (k (length (guards s))) (make_work s)
  | CopyWork g k => exec (k (length (guards s))) (copy_work g s)
  | MoveWork g k => exec (k (length (guards s))) (move_work g s)
  | AssignWork g other k => exec k (assign_work g other s)
  | AssignMoveWork g other k => exec k (assign_move_work g other s)
  | ResetWork g k => exec k (release g s)
  | Spawn c k =>
      let f := frames s in
      r ← exec (c f) (s <| frames ::= S |>);
      exec (k f) r.1
  | SleepUntil d co k => sleep d co k s
  | SleepFor duration co k => let '(t, s) := now s in sleep (t + duration) co k s
  | RunOn co => Ok (post_impl (Resume co) s, false)
  | CancelTask f k => exec k (cancel_task f s)
  | Io o k =>
      let '(b, completed) := submit o (backend_ s) in
      if completed then exec k (s <| backend_ := b |>) else Ok (s <| backend_ := b |>, false)
  end.

(** The code of a name, which may read and update the program's own state. *)
Context (body : F -> U -> U * code).

Definition run_body (f : F) (s : loop) : outcome (loop * bool) :=
  let '(u, c) := body f (user s) in exec c (s <| user := u |>).

(** [h.resume()]; an exception stays in the promise of the coroutine. *)
Definition resume (co : handle F) (s : loop) : outcome (loop * bool) :=
  if is_destroyed (frame co) s then Undefined UseAfterFree else
  r ← run_body (point co) s; Ok (r.1, false).

Definition run_closure (c : closure) (s : loop) : outcome (loop * bool) :=
  match c with
  | Call f => run_body f s
  | Resume co => resume co s
  | SleepDone a co =>
      let s := drop_work s in
      if alive a s then resume co (end_sleep a s) else Ok (s, false)
  end.

(** ** The loop *)

(** [next_timer_timeout_ms], with the instant it was computed at. *)
Definition next_timer_timeout_ms (s : loop) : Z * loop :=
  match pop_top (timers_ s) with
  | None => (100, s)
  | Some (top, _) =>
      let '(now, s) := now s in
      let diff := deadline top - now in
      if diff <=? 0 then (0, s) else (i32 (diff / 10 ^ 6), s)
  end.

(** The loop of [process_timers] that moves the timers due out of the queue. *)
Fixpoint expire (fuel : nat) (now : Z) (q : list timer) : list timer * list timer :=
  match fuel, pop_top q with
  | S fuel, Some (t, r) =>
      if deadline t <=? now then let '(e, q) := expire fuel now r in (t :: e, q) else ([], q)
  | _, _ => ([], q)
  end.

(** The critical section of [process_timers] *)
Definition take_timers (s : loop) : loop :=
  let '(now, s) := now s in
  let '(expired, rest) := expire (length (timers_ s)) now (timers_ s) in
  s <| timers_ := rest |> <| batch := map FromTimer expired |>.

(** The critical section of [execute_pending] *)
Definition take_pending (s : loop) : loop :=
  s <| batch := map FromPost (pending_ s) |> <| pending_ := [] |>.

(** [backend_->poll] up to the coroutines it resumes *)
Definition take_polled (timeout : Z) (s : loop) : loop :=
  let '(b, hs) := poll timeout (backend_ s) in
  s <| backend_ := b |> <| batch := map FromPoll hs |>.

(** The work guards in functions that are destroyed. *)
Definition owns_guard (c : closure) : bool := match c with SleepDone _ _ => true | _ => false end.

Definition owned (cs : list closure) : nat := sum_list_with (fun c => Nat.b2n (owns_guard c)) cs.

(** The exception leaves the loop: the rest of the batch is destroyed. *)
Definition unwind (s : loop) : loop :=
  let rest := batch s in
  Nat.iter (owned (map what rest)) drop_work
    (s <| batch := [] |> <| history ::= fun h => h ++ map Lost rest |>).

(** One function of a batch and the counting of it; [batch s] is what is left of
    the batch after it. *)
Definition run_job (ph : phase) (j : job) (s : loop) : outcome (loop * bool) :=
  let t := now_ s in
  r ← run_closure (what j) s;
  let '(s, threw) := r in
  if threw : bool then Ok (unwind (s <| history ::= fun h => h ++ [Failed j t] |>), true) else
  let s := s <| history ::= fun h => h ++ [Ran j t] |> in
  Ok (match ph with Polled => s | _ => s <| handlers_executed_ ::= fun n => u64 (n + 1) |> end,
      false).

Fixpoint run_batch (ph : phase) (js : list job) (s : loop) {struct js} : outcome (loop * bool) :=
  match js with
  | [] => Ok (s, false)
  | j :: rest =>
      r ← run_job ph j (s <| batch := rest |>);
      if (r.2 : bool) then Ok r else run_batch ph rest r.1
  end.

(** [process_timers] *)
Definition process_timers (s : loop) : outcome (loop * bool) :=
  let s := take_timers s in run_batch Timers (batch s) s.

(** [execute_pending] *)
Definition execute_pending (s : loop) : outcome (loop * bool) :=
  let s := take_pending s in run_batch Pending (batch s) s.

(** [backend_->poll(timeout)], [process_timers()], [execute_pending()] *)
Definition turn (timeout : Z) (s : loop) : outcome (loop * bool) :=
  let s := take_polled timeout s in
  r ← run_batch Polled (batch s) s;
  if (r.2 : bool) then Ok r else
  r ← process_timers (r.1 <| backend_ ::= polled |>);
  if (r.2 : bool) then Ok r else
  execute_pending r.1.

(** ** The thread of the loop *)

Definition at_ (p : place) (s : loop) : loop := s <| at_place := p |>.

(** The call of [run], [run_until_complete], [run_one] or [poll]. *)
Definition enter (m : mode) (s : loop) : loop :=
  let s := s <| kind := m |> in
  match m with
  | Run | RunUntilComplete => at_ Testing s
  | RunOne => if stopped_ s then at_ Returned s else at_ Timing (s <| handlers_executed_ := 0 |>)
  | Poll => at_ (Blocking (now_ s) 0) (s <| handlers_executed_ := 0 |>)
  end.

(** The thread goes on to its next place. *)
Definition advance (s : loop) : outcome loop :=
  match at_place s with
  | Testing =>
      if stopped_ s then Ok (at_ Returned s) else
      match kind s with
      | RunUntilComplete =>
          Ok (at_ (if work_count_ s =? 0 then TestingPending else Timing) s)
      | _ => Ok (at_ Timing s)
      end
  | TestingPending => Ok (at_ (match pending_ s with [] => Returned | _ => Timing end) s)
  | Timing =>
      let '(timeout, s) := next_timer_timeout_ms s in Ok (at_ (Blocking (now_ s) timeout) s)
  | Blocking _ timeout => Ok (at_ (Handling Polled) (take_polled timeout s))
  | Handling ph =>
      match batch s with
      | j :: rest =>
          r ← run_job ph j (s <| batch := rest |>);
          Ok (if (r.2 : bool) then at_ Thrown r.1 else r.1)
      | [] =>
          Ok match ph with
             | Polled => at_ (Handling Timers) (take_timers (s <| backend_ ::= polled |>))
             | Timers => at_ (Handling Pending) (take_pending s)
             | Pending =>
                 match kind s with
                 | Run | RunUntilComplete => at_ Testing s
                 | RunOne | Poll => at_ Returned s
                 end
             end
      end
  | Returned | Thrown => Ok s
  end.

(** What happens: the thread of the loop goes on, or calls the context from
    outside of a loop, or another thread makes calls. *)
Inductive event :=
| Advance
| Enter (m : mode)
| Foreign (c : code).

Definition out_of_loop (s : loop) : bool :=
  match at_place s with Returned | Thrown => true | _ => false end.

Definition step (e : event) (s : loop) : outcome loop :=
  match e with
  | Advance => advance s
  | Enter m => Ok (if out_of_loop s then enter m s else s)
  | Foreign c => r ← exec c s; Ok r.1
  end.

Fixpoint steps (es : list event) (s : loop) : outcome loop :=
  match es with
  | [] => Ok s
  | e :: es => s ← step e s; steps es s
  end.

(** [io_context(backend)] *)
Definition io_context (b : B) (u : U) : loop := {|
  backend_ := b; stopped_ := false; work_count_ := 0; handlers_executed_ := 0;
  pending_ := []; timers_ := []; guards := []; awaiters := []; frames := 0; destroyed := [];
  readings := 0; user := u; kind := Run; at_place := Returned; batch := []; now_ := reading 0;
  posted := []; armed := []; history := []
|}.

Definition reachable (s : loop) : Prop := exists b u es, steps es (io_context b u) = Ok s.

End IoContext.
