(* ===== verification/IoContextFacts.v ===== *)
(** * The I/O context: what its loop guarantees

    Every posted function runs once, in order; a timer never fires early; the
    work count is the number of guards held; the loop does not block while there
    is work; a cancelled sleep is not resumed. *)
From S2P Require Import Prelude IoContext.
From stdpp Require Import sorting options.

#[local] Open Scope Z_scope.
#[local] Open Scope net_scope.

#[local] Arguments owned : simpl never.
Create Rewrite HintDb jobs.
#[local] Set Default Proof Using "Type*".

Section Facts.
Context {B O F U : Type} `{HB : Backend B O F} `{HC : Clock} `{HQ : !@TimerQueue F}.
Context (body : F -> U -> U * @code O F).

Notation loop := (@loop B F U).
Notation code := (@code O F).

(** ** Induction over the code of a function *)

(** A relation that every call of the context keeps. *)
Record respects (R : loop -> loop -> Prop) : Prop := {
  r_refl s : R s s;
  r_trans s1 s2 s3 : R s1 s2 -> R s2 s3 -> R s1 s3;
  r_post c s : owns_guard c = false -> R s (post_impl c s);
  r_post_at d f s : R s (post_at d (Call f) s);
  r_now s : R s (now s).2;
  r_stop s : R s (stop s);
  r_restart s : R s (restart s);
  r_make s : R s (make_work s);
  r_copy g s : R s (copy_work g s);
  r_move g s : R s (move_work g s);
  r_release g s : R s (release g s);
  r_assign g o s : R s (assign_work g o s);
  r_assign_move g o s : R s (assign_move_work g o s);
  r_frames s : R s (s <| frames ::= S |>);
  r_sleep d co s : is_destroyed (frame co) s = false -> R s (await_suspend d co s);
  r_cancel f s : R s (cancel_task f s);
  r_submit o s : R s (s <| backend_ := (submit o (backend_ s)).1 |>);
  r_user u s : R s (s <| user := u |>)
}.

Section Respects.
Context (R : loop -> loop -> Prop) (HR : respects R).

Lemma r_post_after d f s : R s (post_after d (Call f) s).
Proof.
  unfold post_after. destruct (now s) as [t s1] eqn:E.
  eapply (r_trans R HR); [|apply (r_post_at R HR)].
  replace s1 with (now s).2 by (by rewrite E). apply (r_now R HR).
Qed.

Lemma sleeps_respect d (co : handle F) (k : code) s r :
  (forall s r, exec k s = Ok r -> R s r.1) ->
  (let '(t, s) := now s in
   if d <=? t then exec k s else
   if is_destroyed (frame co) s then Undefined UseAfterFree else
   Ok (await_suspend d co s, false)) = Ok r -> R s r.1.
Proof.
  intros IH. pose proof (r_now R HR s) as Hn. destruct (now s) as [t s1]. cbn in Hn.
  destruct (d <=? t).
  - intros H. eapply (r_trans R HR); [exact Hn|eauto].
  - destruct (is_destroyed _ _) eqn:E; [done|]. intros [= <-].
    eapply (r_trans R HR); [exact Hn|]. by apply (r_sleep R HR).
Qed.

Lemma exec_respects (c : code) s r : exec c s = Ok r -> R s r.1.
Proof.
  revert s r. induction c; intros s r He; cbn in He.
  all: try (eapply (r_trans R HR); [|eauto; fail]; first
    [ by apply (r_post R HR) | apply (r_post_at R HR) | apply r_post_after
    | apply (r_stop R HR) | apply (r_restart R HR) | apply (r_make R HR) | apply (r_copy R HR)
    | apply (r_move R HR) | apply (r_assign R HR) | apply (r_assign_move R HR)
    | apply (r_release R HR) | apply (r_cancel R HR) ]).
  all: try (injection He as <-; first [apply (r_refl R HR) | by apply (r_post R HR)]).
  - apply bind_ok in He as ([s1 b] & He1 & He2).
    eapply (r_trans R HR); [apply (r_frames R HR)|]. eapply (r_trans R HR); eauto.
  - exact (sleeps_respect _ _ _ _ _ IHc He).
  - eapply (r_trans R HR); [apply (r_now R HR)|].
    exact (sleeps_respect ((now s).1 + duration) _ _ (now s).2 _ IHc He).
  - pose proof (r_submit R HR o s) as Ho. destruct (submit o (backend_ s)) as [b []]; cbn in Ho.
    + eapply (r_trans R HR); [exact Ho|]. by apply IHc.
    + by injection He as <-.
Qed.

Lemma run_body_respects f s r : run_body body f s = Ok r -> R s r.1.
Proof.
  unfold run_body. destruct (body f (user s)) as [u c]. intros H%exec_respects.
  eapply (r_trans R HR); [apply (r_user R HR)|done].
Qed.

Lemma resume_respects co s r : resume body co s = Ok r -> R s r.1.
Proof.
  unfold resume. destruct (is_destroyed _ _); [done|].
  intros ([s1 b] & H & [= <-])%bind_ok. by apply run_body_respects in H.
Qed.

Lemma timeout_respects s : R s (next_timer_timeout_ms s).2.
Proof.
  unfold next_timer_timeout_ms. destruct (pop_top _) as [[tm q]|]; [|apply (r_refl R HR)].
  pose proof (r_now R HR s) as Hn. destruct (now s) as [t s1]. by case_match.
Qed.

End Respects.

(** What no call of the context touches. *)
Definition same_batch (s s' : loop) : Prop :=
  batch s' = batch s /\ history s' = history s /\ kind s' = kind s /\ at_place s' = at_place s.

Lemma same_batch_respects : respects same_batch.
Proof using HC.
  constructor; unfold same_batch; try done.
  - intros s1 s2 s3. intuition congruence.
  - intros g s. unfold copy_work. by destruct (holds g s).
  - intros g s. unfold release. by destruct (holds g s).
  - intros g o s. unfold assign_work, release. destruct (_ || _); [done|].
    destruct (holds g s); by case_match.
  - intros g o s. unfold assign_move_work, release. destruct (_ || _); [done|].
    by destruct (holds g s).
  - intros f s. unfold cancel_task. by destruct (is_destroyed f s).
Qed.

(** ** What the loop has done, as jobs *)

Definition job_of (e : @entry F) : @job F := match e with Ran j _ | Failed j _ | Lost j => j end.

Definition finished (s : loop) : list job := map job_of (history s).

Definition posts (js : list (@job F)) : list closure :=
  omap (fun j => match j with FromPost c => Some c | _ => None end) js.

Definition firings (js : list (@job F)) : list timer :=
  omap (fun j => match j with FromTimer t => Some t | _ => None end) js.

Definition due (t : Z) (j : @job F) : Prop :=
  match j with FromTimer tm => deadline tm <= t | _ => True end.

Definition on_time (e : @entry F) : Prop :=
  match e with Ran j t | Failed j t => due t j | Lost _ => True end.

Definition no_failure (s : loop) : Prop := forall j t, Failed j t ∉ history s.

Lemma posts_app js ks : posts (js ++ ks) = posts js ++ posts ks.
Proof. apply omap_app. Qed.
Lemma firings_app js ks : firings (js ++ ks) = firings js ++ firings ks.
Proof. apply omap_app. Qed.
Lemma posts_pending q : posts (map FromPost q) = q.
Proof. induction q as [|c q IH]; [done|]. unfold posts in *. cbn. by rewrite IH. Qed.
Lemma firings_pending q : firings (map FromPost q) = [].
Proof. by induction q. Qed.
Lemma posts_timers q : posts (map FromTimer q) = [].
Proof. by induction q. Qed.
Lemma firings_timers q : firings (map FromTimer q) = q.
Proof. induction q as [|t q IH]; [done|]. unfold firings in *. cbn. by rewrite IH. Qed.
Lemma posts_polled q : posts (map FromPoll q) = [].
Proof. by induction q. Qed.
Lemma firings_polled q : firings (map FromPoll q) = [].
Proof. by induction q. Qed.
Hint Rewrite posts_app firings_app posts_pending firings_pending posts_timers firings_timers
  posts_polled firings_polled map_app : jobs.

Lemma due_le t t' j : t <= t' -> due t j -> due t' j.
Proof. destruct j; cbn; lia. Qed.

(** ** Queues and clock: what a function may change *)

(** The last reading of the clock is one of those taken. *)
Definition clock_ok (s : loop) : Prop :=
  exists i, (i <= readings s)%nat /\ now_ s = reading i.

Definition grows (s s' : loop) : Prop :=
  (exists ps ts, posted s' = posted s ++ ps /\ pending_ s' = pending_ s ++ ps /\
    armed s' ≡ₚ armed s ++ ts /\ timers_ s' ≡ₚ timers_ s ++ ts) /\
  (clock_ok s -> clock_ok s' /\ now_ s <= now_ s').

Lemma grows_still s s' :
  posted s' = posted s -> pending_ s' = pending_ s -> armed s' = armed s ->
  timers_ s' = timers_ s -> readings s' = readings s -> now_ s' = now_ s -> grows s s'.
Proof using HC.
  intros Hp Hq Ha Ht Hr Hn. split.
  - exists [], []. by rewrite Hp, Hq, Ha, Ht, !app_nil_r.
  - intros (i & ? & ?). split; [|lia]. exists i. by rewrite Hr, Hn.
Qed.

Lemma grows_now s : grows s (now s).2.
Proof using HC.
  split.
  - exists [], []. cbn. by rewrite !app_nil_r.
  - intros (i & Hi & Hn). split; cbn.
    + exists (readings s). cbn. split; [lia|done].
    + rewrite Hn. by apply reading_steady.
Qed.

Lemma grows_post_at d c s : grows s (post_at d c s).
Proof using HC.
  split.
  - exists [], [{| deadline := d; callback := c |}]. cbn. rewrite !app_nil_r.
    split_and!; try done. by rewrite Permutation_app_comm.
  - intros (i & ? & ?). split; [by exists i|done].
Qed.

Lemma grows_trans s1 s2 s3 : grows s1 s2 -> grows s2 s3 -> grows s1 s3.
Proof using HC.
  intros [(ps & ts & P1 & P2 & A & T) N] [(ps' & ts' & P1' & P2' & A' & T') N']. split.
  - exists (ps ++ ps'), (ts ++ ts'). rewrite P1', P2', P1, P2, A', T', A, T, !app_assoc. done.
  - intros [H1 ?]%N. apply N' in H1 as []. split; [done|lia].
Qed.

Lemma grows_respects : respects grows.
Proof using HC.
  constructor; try (intros; by apply grows_still).
  - exact grows_trans.
  - intros c s _. split; [|intros (i & ? & ?); split; [by exists i|done]].
    exists [c], []. cbn. by rewrite !app_nil_r.
  - intros. apply grows_post_at.
  - apply grows_now.
  - intros g s. unfold copy_work. destruct (holds g s); by apply grows_still.
  - intros g s. unfold release. destruct (holds g s); by apply grows_still.
  - intros g o s. unfold assign_work, release. destruct (_ || _); [by apply grows_still|].
    destruct (holds g s); case_match; by apply grows_still.
  - intros g o s. unfold assign_move_work, release.
    destruct (_ || _); [by apply grows_still|]. destruct (holds g s); by apply grows_still.
  - intros d co s _. eapply grows_trans; [|apply grows_post_at]. by apply grows_still.
  - intros f s. unfold cancel_task. destruct (is_destroyed f s); by apply grows_still.
Qed.

(** ** From the code of a function to the steps of the loop *)

Section Closures.
Context (R : loop -> loop -> Prop) (HR : respects R).
Context (r_drop : forall s, R s (drop_work s)) (r_end : forall a s, R s (end_sleep a s)).

Lemma run_closure_respects c s r : run_closure body c s = Ok r -> R s r.1.
Proof.
  destruct c as [f|co|a co]; cbn [run_closure].
  - by apply run_body_respects.
  - by apply resume_respects.
  - destruct (alive _ _); intros Hc.
    + apply (resume_respects _ HR) in Hc.
      eapply (r_trans R HR); [apply r_drop|]. eapply (r_trans R HR); [apply r_end|done].
    + injection Hc as <-. apply r_drop.
Qed.

Lemma drops_respect n s : R s (Nat.iter n drop_work s).
Proof using HR r_drop. induction n; cbn; [apply (r_refl R HR)|]. eapply (r_trans R HR); [exact IHn|apply r_drop]. Qed.
End Closures.

Lemma closure_same_batch c s r : run_closure body c s = Ok r -> same_batch s r.1.
Proof. apply run_closure_respects; [apply same_batch_respects|done..]. Qed.

Lemma drops_same_batch n s : same_batch s (Nat.iter n drop_work s).
Proof using HC. apply drops_respect; [apply same_batch_respects|done..]. Qed.

Lemma closure_grows c s r : run_closure body c s = Ok r -> grows s r.1.
Proof. apply run_closure_respects; [apply grows_respects|intros; by apply grows_still..]. Qed.

Lemma drops_grow n s : grows s (Nat.iter n drop_work s).
Proof using HC. apply drops_respect; [apply grows_respects|intros; by apply grows_still..]. Qed.

(** A function of a batch: what it does, and the record of it. *)
Lemma run_job_inv ph j s r :
  run_job body ph j s = Ok r ->
  exists s1, run_closure body (what j) s = Ok (s1, r.2) /\
    (r.2 = true /\ r.1 = unwind (s1 <| history ::= fun h => h ++ [Failed j (now_ s)] |>) \/
     r.2 = false /\ exists n, r.1 = s1 <| history ::= fun h => h ++ [Ran j (now_ s)] |>
                                      <| handlers_executed_ := n |>).
Proof.
  unfold run_job. intros ([s1 threw] & H1 & H2)%bind_ok. destruct threw.
  - injection H2 as <-. eauto.
  - injection H2 as <-. exists s1. split; [done|]. right. split; [done|].
    destruct ph; [exists (handlers_executed_ s1)|eexists; reflexivity..]. by destruct s1.
Qed.

(** ** Every function runs once *)

(** The functions in [js] are in flight. *)
Record conserved (js : list (@job F)) (s : loop) : Prop := {
  c_posts : posted s = posts (finished s) ++ posts js ++ pending_ s;
  c_armed : armed s ≡ₚ firings (finished s) ++ firings js ++ timers_ s;
  c_clock : clock_ok s;
  c_due : Forall (due (now_ s)) js;
  c_time : Forall on_time (history s);
  c_lost : no_failure s -> forall j, Lost j ∉ history s
}.

Lemma conserved_grows js s s' :
  grows s s' -> history s' = history s -> conserved js s -> conserved js s'.
Proof.
  intros [(ps & ts & P & Q & A & T) N] Hh [c1 c2 c3 c4 c5 c6].
  destruct (N c3) as [N1 N2]. constructor; unfold finished, no_failure in *; rewrite ?Hh; try done.
  - by rewrite P, Q, c1, !app_assoc.
  - by rewrite A, T, c2, !app_assoc.
  - eapply Forall_impl; [exact c4|]. intros j. by apply due_le.
Qed.

(** The first function in flight has ended, at the reading [t]. *)
Lemma conserved_ran j js (e : @entry F) s s' :
  job_of e = j -> on_time e -> (forall k, e <> Lost k) ->
  history s' = history s ++ [e] -> posted s' = posted s -> pending_ s' = pending_ s ->
  armed s' = armed s -> timers_ s' = timers_ s -> readings s' = readings s -> now_ s' = now_ s ->
  conserved (j :: js) s -> conserved js s'.
Proof.
  intros <- Ht Hl Hh Hp Hq Ha Hti Hr Hn [c1 c2 c3 c4 c5 c6].
  constructor; unfold finished, no_failure, clock_ok in *; rewrite ?Hh, ?Hr, ?Hn; try done.
  - rewrite Hp, Hq, c1, map_app, posts_app, <- app_assoc. cbn. by destruct (job_of e).
  - rewrite Ha, Hti, c2, map_app, firings_app, <- app_assoc. cbn. by destruct (job_of e).
  - by inversion c4.
  - apply Forall_app. auto.
  - intros Hf k [Hk|Hk]%elem_of_app; [|apply list_elem_of_singleton in Hk; by eapply Hl].
    eapply c6; [|exact Hk]. intros j t Hj. apply (Hf j t). apply elem_of_app. by left.
Qed.

(** The functions in flight are destroyed after a failure. *)
Lemma conserved_lost js s :
  (exists j t, Failed j t ∈ history s) -> conserved js s ->
  conserved [] (s <| batch := [] |> <| history ::= fun h => h ++ map Lost js |>).
Proof.
  intros (jf & tf & Hf) [c1 c2 c3 c4 c5 c6].
  assert (map job_of (map Lost js) = js) as E by (rewrite map_map; apply map_id).
  constructor; unfold finished, no_failure in *; cbn.
  - by rewrite c1, map_app, E, posts_app, <- app_assoc.
  - by rewrite c2, map_app, E, firings_app, <- app_assoc.
  - done.
  - done.
  - apply Forall_app. split; [done|]. apply Forall_map. by apply Forall_true.
  - intros Hn. exfalso. apply (Hn jf tf). apply elem_of_app. by left.
Qed.

Lemma unwind_batch (s : loop) :
  batch (unwind s) = [] /\ history (unwind s) = history s ++ map Lost (batch s) /\
  kind (unwind s) = kind s /\ at_place (unwind s) = at_place s.
Proof using HC. exact (drops_same_batch (owned (map what (batch s))) _). Qed.

Lemma conserved_unwind s :
  (exists j t, Failed j t ∈ history s) -> conserved (batch s) s -> conserved [] (unwind s).
Proof.
  intros Hf C%conserved_lost; [|done]. eapply conserved_grows; [apply drops_grow| |exact C].
  apply unwind_batch.
Qed.

Lemma conserved_job ph j js s r :
  run_job body ph j (s <| batch := js |>) = Ok r -> conserved (j :: js) s -> conserved (batch r.1) r.1.
Proof.
  intros (s1 & Hc & Hr)%run_job_inv C.
  destruct (closure_same_batch _ _ _ Hc) as (Hb & Hh & _ & _). pose proof (closure_grows _ _ _ Hc) as G.
  assert (conserved (j :: js) (s <| batch := js |>)) as C0.
  { apply (conserved_grows _ s); [by apply grows_still|done|done]. }
  assert (due (now_ s) j) by (by destruct C as [_ _ _ [? _]%Forall_cons _ _]).
  eapply conserved_grows in C0; [|exact G|exact Hh].
  change (now_ (s <| batch := js |>)) with (now_ s) in Hr. destruct Hr as [[_ ->]|(_ & n & ->)].
  - destruct (unwind_batch (s1 <| history ::= fun h => h ++ [Failed j (now_ s)] |>)) as [-> _].
    apply conserved_unwind.
    + exists j, (now_ s). cbn. apply elem_of_app. right. by apply list_elem_of_singleton.
    + cbn in Hb |- *. rewrite Hb. by apply (conserved_ran j js (Failed j (now_ s)) s1).
  - cbn in Hb |- *. rewrite Hb. by apply (conserved_ran j js (Ran j (now_ s)) s1).
Qed.

(** ** The timer queue *)

Definition earlier (t t' : @timer F) : Prop := deadline t <= deadline t'.

Lemma expire_spec fuel t q e r :
  expire fuel t q = (e, r) ->
  q ≡ₚ e ++ r /\ Forall (fun tm => deadline tm <= t) e /\ StronglySorted earlier e /\
  ((length q <= fuel)%nat -> Forall (fun tm => t < deadline tm) r).
Proof.
  revert q e r. induction fuel as [|fuel IH]; intros q e r He; cbn in He.
  - injection He as <- <-. split_and!; try constructor; try done.
    intros. by destruct q; [|cbn in *; lia].
  - destruct (pop_top q) as [[tm q']|] eqn:E.
    + apply pop_top_some in E as [Eq Emin]. destruct (Z.leb_spec (deadline tm) t) as [Hd|Hd].
      * destruct (expire fuel t q') as [e' r'] eqn:E'. injection He as <- <-.
        apply IH in E' as (P1 & P2 & P3 & P4). split_and!.
        -- by rewrite Eq, P1.
        -- by constructor.
        -- constructor; [done|]. rewrite P1 in Emin. by apply Forall_app in Emin as [? _].
        -- intros Hl. apply P4. apply Permutation_length in Eq. cbn in Eq. lia.
      * injection He as <- <-. split_and!; try constructor; try done. intros _.
        rewrite Eq. constructor; [done|]. eapply Forall_impl; [exact Emin|]. cbn. lia.
    + injection He as <- <-. apply pop_top_none in E as ->. split_and!; constructor.
Qed.

(** ** The batches *)

Lemma conserved_timers (s : loop) :
  conserved [] s -> conserved (batch (take_timers s)) (take_timers s).
Proof.
  intros C. eapply conserved_grows in C; [|apply grows_now|done].
  unfold take_timers. destruct (now s) as [t s1] eqn:En. cbn [snd] in C.
  assert (now_ s1 = t) as Et by (by injection En as <- <-).
  destruct (expire _ _ _) as [e q] eqn:E. apply expire_spec in E as (P1 & P2 & _ & _).
  destruct C as [c1 c2 c3 c4 c5 c6]. constructor; cbn; try done.
  - autorewrite with jobs. exact c1.
  - autorewrite with jobs. cbn in c2. rewrite c2, P1. reflexivity.
  - rewrite Et. apply Forall_map. eapply Forall_impl; [exact P2|]. done.
Qed.

Lemma conserved_pending (s : loop) :
  conserved [] s -> conserved (batch (take_pending s)) (take_pending s).
Proof.
  intros [c1 c2 c3 c4 c5 c6]. constructor; cbn; try done.
  - autorewrite with jobs. by rewrite app_nil_r.
  - by autorewrite with jobs.
  - apply Forall_map. by apply Forall_true.
Qed.

Lemma conserved_polled timeout (s : loop) :
  conserved [] s -> conserved (batch (take_polled timeout s)) (take_polled timeout s).
Proof.
  intros [c1 c2 c3 c4 c5 c6]. unfold take_polled. destruct (poll _ _) as [b hs].
  constructor; cbn; try done.
  - by autorewrite with jobs.
  - by autorewrite with jobs.
  - apply Forall_map. by apply Forall_true.
Qed.

Definition handling (s : loop) : bool := match at_place s with Handling _ => true | _ => false end.

Definition consistent (s : loop) : Prop :=
  conserved (batch s) s /\ (handling s = false -> batch s = []).

Lemma conserved_at p js s : conserved js s -> conserved js (at_ p s).
Proof. intros C. apply (conserved_grows _ s); [by apply grows_still|done|exact C]. Qed.

Lemma consistent_job ph j rest s r :
  run_job body ph j (s <| batch := rest |>) = Ok r -> at_place s = Handling ph ->
  conserved (j :: rest) s -> consistent (if r.2 then at_ Thrown r.1 else r.1).
Proof.
  intros Hr Ep C. pose proof (conserved_job _ _ _ _ _ Hr C) as C'.
  apply run_job_inv in Hr as (s1 & Hc & Hr).
  destruct (closure_same_batch _ _ _ Hc) as (Hb & Hh & _ & Hp).
  destruct Hr as [[-> Hr]|(-> & n & Hr)]; rewrite Hr in *.
  - split; [by apply conserved_at|]. intros _. apply unwind_batch.
  - split; [done|]. unfold handling. cbn in Hp |- *. by rewrite Hp, Ep.
Qed.

Lemma consistent_advance s s' : advance body s = Ok s' -> consistent s -> consistent s'.
Proof.
  intros Ha [C Hb]. unfold advance in Ha. unfold handling in Hb.
  destruct (at_place s) as [| | |since timeout|ph| |] eqn:Ep.
  all: try (rewrite (Hb eq_refl) in C).
  - assert (exists p, s' = at_ p s) as [p ->].
    { destruct (stopped_ s), (kind s); injection Ha as <-; eauto. }
    split; cbn; rewrite Hb by done; [by apply conserved_at|done].
  - injection Ha as <-. split; cbn; rewrite Hb by done; [by apply conserved_at|done].
  - destruct (next_timer_timeout_ms s) as [to s1] eqn:En. injection Ha as <-.
    pose proof (timeout_respects _ grows_respects s) as G.
    destruct (timeout_respects _ same_batch_respects s) as (Eb & Eh & _).
    rewrite En in G, Eh, Eb. cbn in G, Eh, Eb.
    split; cbn; rewrite Eb, Hb by done; [|done]. apply conserved_at. by eapply conserved_grows.
  - injection Ha as <-. split; [|done]. apply conserved_at. by apply conserved_polled.
  - destruct (batch s) as [|j rest] eqn:Eb.
    + injection Ha as <-. destruct ph; [| |destruct (kind s)]; (split; [|done || (cbn; auto)]).
      all: try (cbn; rewrite Eb; by apply conserved_at).
      * apply conserved_at, conserved_timers.
        apply (conserved_grows _ s); [by apply grows_still|done|done].
      * by apply conserved_at, conserved_pending.
    + apply bind_ok in Ha as (r & Hr & [= <-]). by eapply consistent_job.
  - injection Ha as <-. split; rewrite Hb by done; done.
  - injection Ha as <-. split; rewrite Hb by done; done.
Qed.

Lemma consistent_step e s s' : step body e s = Ok s' -> consistent s -> consistent s'.
Proof.
  intros Hs [C Hb]. destruct e as [|m|c]; cbn in Hs.
  - by eapply consistent_advance.
  - injection Hs as <-. destruct (out_of_loop s) eqn:Eo; [|done].
    assert (batch s = []) as Eb.
    { apply Hb. unfold out_of_loop, handling in *. by destruct (at_place s). }
    rewrite Eb in C. destruct m; cbn; [| |destruct (stopped_ s)|]; split; cbn; rewrite ?Eb; try done.
    all: apply conserved_at; apply (conserved_grows _ s); [by apply grows_still|done|exact C].
  - apply bind_ok in Hs as (r & Hr & [= <-]).
    pose proof (exec_respects _ same_batch_respects _ _ _ Hr) as (Eb & Eh & _ & Ep).
    split.
    + rewrite Eb. apply (conserved_grows _ s); [|exact Eh|exact C].
      by apply (exec_respects _ grows_respects) in Hr.
    + unfold handling. by rewrite Ep, Eb.
Qed.

(** Induction over the steps of the loop and of the other threads. *)
Lemma reachable_invariant (P : loop -> Prop) :
  (forall b u, P (io_context b u)) ->
  (forall e s s', step body e s = Ok s' -> P s -> P s') ->
  forall s, reachable body s -> P s.
Proof.
  intros H0 Hs s (b & u & es & H). generalize (H0 b u). revert H.
  generalize (io_context b u : loop).
  induction es as [|e es IH]; cbn; intros s0 H C; [by injection H as <-|].
  apply bind_ok in H as (s1 & H1 & H2). eapply IH; [exact H2|]. by eapply Hs.
Qed.

Lemma consistent_reachable s : reachable body s -> consistent s.
Proof.
  apply reachable_invariant; [|exact consistent_step]. intros b u. split; [|done].
  constructor; cbn; try done; [by exists 0%nat|by intros _ j ?%elem_of_nil].
Qed.

(** C19: Every function given to [post] runs once and in the order of the calls:
    at any moment those that ran, those of the current batch and those in the
    queue are, one after the other, the ones posted.  Every timer of [post_at]
    fires once, never before its deadline.  A function is destroyed without
    being run only after another one ended by an exception. *)
Theorem loop_runs_each_once s :
  reachable body s ->
  posted s = posts (finished s) ++ posts (batch s) ++ pending_ s /\
  armed s ≡ₚ firings (finished s) ++ firings (batch s) ++ timers_ s /\
  (forall tm t, Ran (FromTimer tm) t ∈ history s -> deadline tm <= t) /\
  (no_failure s -> forall j, Lost j ∉ history s).
Proof.
  intros [[c1 c2 c3 c4 c5 c6] _]%consistent_reachable. split_and!; try done.
  intros tm t Hin. by eapply Forall_forall in c5; [|exact Hin].
Qed.

(** ** Work guards *)

Definition held (s : loop) : nat := sum_list_with Nat.b2n (guards s).

(** The work count when [n] guards are neither in a guard object nor in a timer. *)
Definition counted (n : nat) (s : loop) : Prop :=
  work_count_ s = u64 (Z.of_nat (n + held s + owned (map callback (timers_ s)))) /\
  owned (pending_ s) = 0%nat.

Lemma u64_step a d : u64 (u64 a + d) = u64 (a + d).
Proof. unfold u64. by rewrite Z.add_mod_idemp_l. Qed.

Lemma held_insert g b (gs : list bool) :
  (g < length gs)%nat ->
  (sum_list_with Nat.b2n (<[g := b]> gs) + Nat.b2n (default false (gs !! g)) =
   sum_list_with Nat.b2n gs + Nat.b2n b)%nat.
Proof.
  revert g. induction gs as [|x gs IH]; intros [|g] Hg; cbn in Hg; [lia..| |].
  - change (<[0%nat := b]> (x :: gs)) with (b :: gs). cbn. lia.
  - change (<[S g := b]> (x :: gs)) with (x :: <[g := b]> gs).
    change ((x :: gs) !! S g) with (gs !! g). cbn [sum_list_with].
    specialize (IH g ltac:(lia)). lia.
Qed.

Lemma held_app (gs : list bool) b :
  sum_list_with Nat.b2n (gs ++ [b]) = (sum_list_with Nat.b2n gs + Nat.b2n b)%nat.
Proof. rewrite sum_list_with_app. cbn. lia. Qed.

Lemma owned_app (cs ds : list (@closure F)) : owned (cs ++ ds) = (owned cs + owned ds)%nat.
Proof. apply sum_list_with_app. Qed.

Lemma owned_cons (c : @closure F) cs : owned (c :: cs) = (Nat.b2n (owns_guard c) + owned cs)%nat.
Proof. done. Qed.

Lemma held_clear g (gs : list bool) :
  (sum_list_with Nat.b2n (<[g := false]> gs) + Nat.b2n (default false (gs !! g)) =
   sum_list_with Nat.b2n gs)%nat.
Proof.
  destruct (decide (g < length gs)%nat) as [H|H].
  - rewrite held_insert by done. cbn. lia.
  - rewrite list_insert_ge, lookup_ge_None_2 by lia. cbn. lia.
Qed.

Lemma counted_release n g s : counted n s -> counted n (release g s).
Proof.
  unfold release. pose proof (held_clear g (guards s)) as Hc. unfold holds.
  destruct (default false _) eqn:E; [|done]. intros [Hw Hp]. split; [|done].
  cbn in Hc |- *. unfold held in *. cbn. rewrite Hw.
  change (u64 ?a - 1) with (u64 a + -1). rewrite u64_step. f_equal. lia.
Qed.

Lemma held_release g s :
  (held (release g s) + Nat.b2n (holds g s))%nat = held s /\ holds g (release g s) = false /\
  length (guards (release g s)) = length (guards s).
Proof.
  unfold release. pose proof (held_clear g (guards s)) as Hc.
  destruct (holds g s) eqn:E; unfold holds, held in *; cbn; rewrite ?E in *.
  - split_and!; [exact Hc| |apply length_insert].
    destruct (decide (g < length (guards s))%nat).
    + by rewrite list_lookup_insert_eq.
    + by rewrite list_insert_ge, lookup_ge_None_2 by lia.
  - split_and!; [lia|done|done].
Qed.

(** One more guard object that holds what the guard [b] does. *)
Lemma counted_store n s s' (b : bool) :
  counted n s -> work_count_ s' = (if b then u64 (work_count_ s + 1) else work_count_ s) ->
  held s' = (held s + Nat.b2n b)%nat -> timers_ s' = timers_ s -> pending_ s' = pending_ s ->
  counted n s'.
Proof.
  intros [Hw Hp] Hw' Hh Ht Hq. split; [|by rewrite Hq]. rewrite Hw', Hh, Ht, Hw.
  destruct b; cbn; [rewrite u64_step|]; f_equal; lia.
Qed.

Lemma held_replace g b s :
  (g < length (guards s))%nat -> holds g s = false ->
  sum_list_with Nat.b2n (<[g := b]> (guards s)) = (held s + Nat.b2n b)%nat.
Proof.
  intros Hg Hf. pose proof (held_insert g b (guards s) Hg) as H.
  unfold holds in Hf. rewrite Hf in H. cbn in H. unfold held. lia.
Qed.

Lemma counted_assign n g o s : counted n s -> counted n (assign_work g o s).
Proof.
  intros C. unfold assign_work, is_guard. destruct (_ || _) eqn:E; [done|].
  apply orb_false_iff in E as [_ Hg%negb_false_iff%Nat.ltb_lt].
  apply (counted_release _ g) in C. destruct (held_release g s) as (_ & Hf & Hl).
  rewrite <- Hl in Hg. generalize dependent (release g s). intros s1 C Hg Hf Hl.
  apply (counted_store n s1 _ (holds o s1) C).
  - by destruct (holds o s1).
  - unfold held at 1. by destruct (holds o s1); cbn; rewrite held_replace.
  - by destruct (holds o s1).
  - by destruct (holds o s1).
Qed.

Lemma counted_assign_move n g o s : counted n s -> counted n (assign_move_work g o s).
Proof.
  intros C. unfold assign_move_work, is_guard. destruct (_ || _) eqn:E; [done|].
  apply orb_false_iff in E as [Hgo%Nat.eqb_neq Hg%negb_false_iff%Nat.ltb_lt].
  apply (counted_release _ g) in C. destruct (held_release g s) as (_ & Hf & Hl).
  rewrite <- Hl in Hg. generalize dependent (release g s). intros s1 C Hg Hf Hl.
  apply (counted_store n s1 _ false C); try done. cbn. unfold held at 1. cbn.
  pose proof (held_clear o (guards s1)) as Hc.
  pose proof (held_replace g (holds o s1) (s1 <| guards ::= <[o := false]> |>)) as Hr.
  cbn in Hr. rewrite length_insert in Hr. unfold holds, held in *. cbn in Hr.
  rewrite list_lookup_insert_ne in Hr by done. specialize (Hr Hg Hf). lia.
Qed.

Lemma counted_respects n : respects (fun s s' => counted n s -> counted n s').
Proof.
  constructor; try done; try (intros; by apply counted_release); auto using counted_assign,
    counted_assign_move.
  - intros c s Hc [Hw Hp]. split; [done|]. cbn. by rewrite owned_app, owned_cons, Hp, Hc.
  - intros s C. apply (counted_store n s _ true C); try done. unfold held. cbn. by rewrite held_app.
  - intros g s C. unfold copy_work. apply (counted_store n s _ (holds g s) C).
    all: destruct (holds g s) eqn:E; try done; unfold held; cbn; by rewrite held_app.
  - intros g s C. apply (counted_store n s _ false C); try done. unfold held. cbn.
    rewrite held_app. pose proof (held_clear g (guards s)). unfold holds. lia.
  - intros d co s _ [Hw Hp]. split; [|done]. cbn. rewrite Hw, u64_step, owned_cons. f_equal.
    unfold held. cbn. lia.
  - intros f s C. unfold cancel_task. by destruct (is_destroyed f s).
Qed.

Lemma counted_drop n s : counted (S n) s -> counted n (drop_work s).
Proof.
  intros [Hw Hp]. split; [|done]. cbn. rewrite Hw.
  change (u64 ?a - 1) with (u64 a + -1). rewrite u64_step. f_equal. unfold held. cbn. lia.
Qed.

Lemma counted_drops k n s : counted (k + n) s -> counted n (Nat.iter k drop_work s).
Proof.
  revert n. induction k as [|k IH]; intros n C; cbn [Nat.iter]; [done|].
  apply counted_drop, IH. by rewrite Nat.add_succ_r.
Qed.

Lemma counted_still n s s' :
  work_count_ s' = work_count_ s -> guards s' = guards s -> timers_ s' = timers_ s ->
  pending_ s' = pending_ s -> counted n s -> counted n s'.
Proof. unfold counted, held. by intros -> -> -> ->. Qed.

Lemma counted_closure n c s r :
  run_closure body c s = Ok r -> counted (Nat.b2n (owns_guard c) + n) s -> counted n r.1.
Proof.
  destruct c as [f|co|a co]; cbn [run_closure].
  - intros H C. by apply (run_body_respects _ (counted_respects n) _ _ _ H).
  - intros H C. by apply (resume_respects _ (counted_respects n) _ _ _ H).
  - intros Hr C. apply (counted_drops 1) in C. destruct (alive _ _).
    + by apply (resume_respects _ (counted_respects n) _ _ _ Hr).
    + by injection Hr as <-.
Qed.

Definition in_flight (s : loop) : nat := owned (map what (batch s)).

Lemma counted_job ph j rest s r :
  run_job body ph j (s <| batch := rest |>) = Ok r ->
  counted (owned (map what (j :: rest))) s -> counted (in_flight r.1) r.1.
Proof.
  intros (s1 & Hc & Hr)%run_job_inv C.
  destruct (closure_same_batch _ _ _ Hc) as (Hb & _). cbn in Hb.
  apply (counted_closure (owned (map what rest))) in Hc; [|exact C]. cbn in Hc.
  destruct Hr as [[_ ->]|(_ & n & ->)].
  - unfold in_flight. destruct (unwind_batch (s1 <| history ::= fun h => h ++ [Failed j (now_ s)] |>))
      as [E _]. change (now_ (s <| batch := rest |>)) with (now_ s). rewrite E.
    apply counted_drops. cbn. rewrite Hb. change (owned []) with 0%nat. rewrite Nat.add_0_r.
    by apply (counted_still _ s1).
  - unfold in_flight. cbn. rewrite Hb. by apply (counted_still _ s1).
Qed.

Lemma owned_permutation (cs ds : list (@closure F)) : cs ≡ₚ ds -> owned cs = owned ds.
Proof. unfold owned. by intros ->. Qed.

Lemma counted_timers s : counted 0 s -> counted (in_flight (take_timers s)) (take_timers s).
Proof.
  intros [Hw Hp]. unfold take_timers. cbn. destruct (expire _ _ _) as [e q] eqn:E.
  apply expire_spec in E as [P _]. split; [|done]. cbn. rewrite Hw. do 2 f_equal.
  rewrite (owned_permutation _ (map callback e ++ map callback q)).
  - unfold in_flight, held. cbn. rewrite owned_app, map_map. change (fun x => what _) with (@callback F). lia.
  - rewrite <- map_app. by apply Permutation_map.
Qed.

Lemma counted_pending s : counted 0 s -> counted (in_flight (take_pending s)) (take_pending s).
Proof.
  intros [Hw Hp]. unfold take_pending, in_flight. split; [|done]. cbn.
  rewrite map_map, map_id, Hp. exact Hw.
Qed.

Lemma counted_polled timeout s :
  counted 0 s -> counted (in_flight (take_polled timeout s)) (take_polled timeout s).
Proof.
  intros C. unfold take_polled. destruct (poll _ _) as [b hs]. unfold in_flight. cbn.
  replace (owned _) with 0%nat by (by induction hs). by apply (counted_still _ s).
Qed.

Lemma counted_advance s s' :
  advance body s = Ok s' -> consistent s -> counted (in_flight s) s -> counted (in_flight s') s'.
Proof.
  intros Ha [_ Hb] C. unfold advance in Ha. unfold handling in Hb.
  destruct (at_place s) as [| | |since timeout|ph| |] eqn:Ep; [..|by injection Ha as <-|by injection Ha as <-].
  - destruct (stopped_ s), (kind s); by injection Ha as <-.
  - by injection Ha as <-.
  - pose proof (timeout_respects _ (counted_respects (in_flight s)) s C) as C'.
    destruct (timeout_respects _ same_batch_respects s) as (Eb & _).
    destruct (next_timer_timeout_ms s) as [to s1]. injection Ha as <-. cbn in Eb, C'.
    unfold in_flight in *. cbn. by rewrite Eb.
  - injection Ha as <-. apply counted_polled. unfold in_flight in C. by rewrite Hb in C.
  - destruct (batch s) as [|j rest] eqn:Eb.
    + assert (counted 0 s) as C0 by (unfold in_flight in C; by rewrite Eb in C).
      injection Ha as <-. destruct ph; [| |by destruct (kind s)].
      * apply counted_timers. by apply (counted_still _ s).
      * by apply counted_pending.
    + apply bind_ok in Ha as (r & Hr & [= <-]). unfold in_flight in C. rewrite Eb in C.
      apply counted_job in Hr; [|done]. by destruct r.2.
Qed.

Lemma counted_reachable s : reachable body s -> counted (in_flight s) s.
Proof.
  intros Hr. cut (consistent s /\ counted (in_flight s) s); [tauto|]. revert s Hr.
  apply reachable_invariant; [intros b u; split; [apply consistent_reachable; by exists b, u, []|done]|].
  intros e s s' Hs [I C]. split; [by eapply consistent_step|].
  destruct e as [|m|c]; cbn in Hs.
  - by eapply counted_advance.
  - injection Hs as <-. destruct (out_of_loop s); [|done].
    destruct m; cbn; try done. by destruct (stopped_ s).
  - apply bind_ok in Hs as (r & Hr & [= <-]).
    pose proof (exec_respects _ same_batch_respects _ _ _ Hr) as (Eb & _).
    unfold in_flight in *. rewrite Eb. by apply (exec_respects _ (counted_respects _) _ _ _ Hr).
Qed.

(** The guards held: by [work_guard] objects, by timers and by functions about to
    run *)
Definition holders (s : loop) : nat := (held s + owned (map callback (timers_ s)) + in_flight s)%nat.

Lemma foreign_steps cs s s1 : steps body (map Foreign cs) s = Ok s1 -> same_batch s s1.
Proof.
  revert s. induction cs as [|c cs IH]; intros s; cbn [map steps].
  { intros [= <-]. apply (r_refl _ same_batch_respects). }
  intros (s2 & (r & Hr & [= <-])%bind_ok & H)%bind_ok.
  eapply (r_trans _ same_batch_respects); [apply (exec_respects _ same_batch_respects _ _ _ Hr)|by apply IH].
Qed.

(** C20: [work_count_] is always the number of guards held: by [work_guard]
    objects, by timers (those of sleeping coroutines) and by functions about to
    run.  [run_until_complete], not stopped at its test, returns exactly when no
    guard was held at the moment it read [work_count_] and no posted function
    waits at the moment it looks at [pending_]; other threads may make any calls
    between the two, and a guard they make there does not keep the loop. *)
Theorem work_count_exact s :
  reachable body s ->
  work_count_ s = u64 (Z.of_nat (holders s)) /\
  (Z.of_nat (holders s) < 2 ^ 64 -> forall cs s1 s',
   at_place s = Testing -> kind s = RunUntilComplete -> stopped_ s = false ->
   steps body (Advance :: map Foreign cs) s = Ok s1 -> step body Advance s1 = Ok s' ->
   (at_place s' = Returned <-> holders s = 0%nat /\ pending_ s1 = [])).
Proof.
  intros Hr. destruct (counted_reachable _ Hr) as [Hw _].
  replace (in_flight s + held s + owned (map callback (timers_ s)))%nat with (holders s) in Hw by (unfold holders; lia).
  split; [exact Hw|]. intros Hlt cs s1 s' Hp Hk Hs (s0 & H0 & H1)%bind_ok H2.
  cbn [step] in H0, H2. unfold advance in H0. rewrite Hp, Hs, Hk in H0. injection H0 as <-.
  apply foreign_steps in H1 as (_ & _ & _ & H1). unfold advance in H2. rewrite H1 in H2.
  destruct (Z.eqb_spec (work_count_ s) 0) as [E|E]; cbn [at_ at_place set_field] in H2.
  - change (at_place (at_ TestingPending s)) with TestingPending in H2. injection H2 as <-.
    assert (holders s = 0%nat) as -> by (unfold u64 in Hw; lia). cbn. by destruct (pending_ s1); intuition.
  - change (at_place (at_ Timing s)) with Timing in H2.
    destruct (next_timer_timeout_ms s1) as [to s2]. injection H2 as <-. cbn. split; [done|].
    intros [Hz _]. rewrite Hz in Hw. by destruct E.
Qed.

(** ** Sleeping coroutines *)

Definition ids (cs : list (@closure F)) : list nat :=
  omap (fun c => match c with SleepDone a _ => Some a | _ => None end) cs.

(** Every sleep that is in a timer or in [cs] has an awaiter of its own, whose
    flag says whether the frame was destroyed. *)
Definition asleep (cs : list (@closure F)) (s : loop) : Prop :=
  NoDup (ids (map callback (timers_ s) ++ cs)) /\
  forall a co, SleepDone a co ∈ map callback (timers_ s) ++ cs ->
    awaiters s !! a = Some (frame co, negb (is_destroyed (frame co) s)).

Lemma ids_elem a cs : a ∈ ids cs <-> exists co, SleepDone a co ∈ cs.
Proof.
  unfold ids. rewrite list_elem_of_omap. split.
  - intros ([f|co|a' co] & Hin & [= <-]). by exists co.
  - intros [co Hin]. by exists (SleepDone a co).
Qed.

Lemma asleep_still cs s s' :
  timers_ s' = timers_ s -> awaiters s' = awaiters s -> destroyed s' = destroyed s ->
  asleep cs s -> asleep cs s'.
Proof. unfold asleep, is_destroyed. by intros -> -> ->. Qed.

Lemma asleep_suspend cs d co s :
  is_destroyed (frame co) s = false -> asleep cs s -> asleep cs (await_suspend d co s).
Proof.
  intros Hd [Hn Ha]. split; cbn.
  - apply NoDup_cons. split; [|done]. intros [co' Hin]%ids_elem. apply Ha in Hin.
    apply lookup_lt_Some in Hin. lia.
  - intros a co' [[= -> ->]|Hin]%elem_of_cons.
    + rewrite lookup_app_r, Nat.sub_diag by done. cbn. do 2 f_equal. symmetry.
      by apply negb_true_iff.
    + apply Ha in Hin. by apply lookup_app_l_Some.
Qed.

Lemma asleep_cancel cs f s : asleep cs s -> asleep cs (cancel_task f s).
Proof.
  unfold cancel_task. destruct (is_destroyed f s) eqn:E; [done|]. intros [Hn Ha]. split; [done|].
  cbn. intros a co Hin. rewrite list_lookup_fmap, (Ha _ _ Hin). cbn. f_equal.
  unfold is_destroyed in *. cbn. destruct (Nat.eqb_spec (frame co) f) as [->|Hf].
  - by rewrite (bool_decide_eq_true_2 (f ∈ f :: destroyed s)) by left.
  - do 2 f_equal. apply bool_decide_ext. rewrite elem_of_cons. naive_solver.
Qed.

Lemma asleep_respects cs : respects (fun s s' => asleep cs s -> asleep cs s').
Proof.
  constructor; try done; auto using asleep_cancel, asleep_suspend.
  - intros d f s [Hn Ha]. split; [done|]. intros a co [|Hin]%elem_of_cons; [done|]. by apply Ha.
  - intros g s. unfold copy_work. by destruct (holds g s).
  - intros g s. unfold release. by destruct (holds g s).
  - intros g o s. unfold assign_work, release. destruct (_ || _); [done|].
    by destruct (holds g s); case_match.
  - intros g o s. unfold assign_move_work, release. destruct (_ || _); [done|].
    by destruct (holds g s).
Qed.

Lemma ids_app cs ds : ids (cs ++ ds) = ids cs ++ ids ds.
Proof. apply omap_app. Qed.

Lemma asleep_permutation cs s :
  (forall cs', cs ≡ₚ cs' -> asleep cs s -> asleep cs' s).
Proof.
  intros cs' P [Hn Ha]. split.
  - unfold ids in *. by rewrite <- P.
  - intros a co. rewrite <- P. apply Ha.
Qed.

(** The functions that are not the end of a sleep do not count. *)
Lemma asleep_drop ds cs s : asleep (ds ++ cs) s -> asleep cs s.
Proof.
  intros [Hn Ha]. split.
  - rewrite !ids_app in *. apply NoDup_app in Hn as (? & H1 & [? []]%NoDup_app).
    apply NoDup_app. split_and!; [done| |done].
    intros a Hin Hin'. eapply H1; [exact Hin|]. apply elem_of_app. by right.
  - intros a co [Hin|Hin]%elem_of_app; apply Ha; set_solver.
Qed.

Lemma asleep_plain ds cs s : owned ds = 0%nat -> asleep cs s -> asleep (ds ++ cs) s.
Proof.
  intros Ho [Hn Ha].
  assert (forall a co, SleepDone a co ∉ ds) as Hd.
  { intros a co Hin. induction ds as [|d ds IH]; [by apply elem_of_nil in Hin|].
    rewrite owned_cons in Ho. apply elem_of_cons in Hin as [<-|Hin]; [done|].
    apply IH; [lia|done]. }
  assert (ids ds = []) as E.
  { destruct (ids ds) as [|a l] eqn:E; [done|]. destruct (proj1 (ids_elem a ds)) as [co Hin].
    - rewrite E. by left.
    - by apply Hd in Hin. }
  split; [by rewrite !ids_app, E in *|].
  intros a co [Hin|[Hin|Hin]%elem_of_app]%elem_of_app; [..|apply Ha; set_solver].
  - apply Ha. set_solver.
  - by apply Hd in Hin.
Qed.

(** The sleep [a] ends. *)
Lemma asleep_end a co cs s : asleep (SleepDone a co :: cs) s -> asleep cs (end_sleep a s).
Proof.
  intros HA. pose proof (asleep_drop [_] _ _ HA) as [Hn Ha]. destruct HA as [Hn' _].
  split; [done|]. cbn. intros a' co' Hin. rewrite list_lookup_alter_ne.
  - by apply Ha.
  - intros <-. rewrite ids_app in Hn', Hn. cbn in Hn'. unfold ids in Hn'. cbn in Hn'.
    apply NoDup_app in Hn' as (_ & H1 & [H2 _]%NoDup_cons).
    apply elem_of_app in Hin as [Hin|Hin].
    + eapply H1; [apply ids_elem; by exists co'|by left].
    + apply H2. apply ids_elem. by exists co'.
Qed.

Lemma asleep_closure c cs s r :
  run_closure body c s = Ok r -> asleep (c :: cs) s -> asleep cs r.1.
Proof.
  intros Hr HA. pose proof (asleep_drop [_] _ _ HA) as HA'.
  destruct c as [f|co|a co]; cbn [run_closure] in Hr.
  - by apply (run_body_respects _ (asleep_respects cs) _ _ _ Hr).
  - by apply (resume_respects _ (asleep_respects cs) _ _ _ Hr).
  - destruct (alive a (drop_work s)).
    + apply (resume_respects _ (asleep_respects cs) _ _ _ Hr).
      apply (asleep_end a co). by apply (asleep_still _ s).
    + injection Hr as <-. by apply (asleep_still _ s).
Qed.

Lemma drops_asleep cs n s : asleep cs s -> asleep cs (Nat.iter n drop_work s).
Proof using All.
  apply (drops_respect _ (asleep_respects cs)). intros s' ?. by apply (asleep_still _ s').
Qed.

Lemma asleep_job ph j rest s r :
  run_job body ph j (s <| batch := rest |>) = Ok r ->
  asleep (map what (j :: rest)) s -> asleep (map what (batch r.1)) r.1.
Proof.
  intros (s1 & Hc & Hr)%run_job_inv HA.
  destruct (closure_same_batch _ _ _ Hc) as (Hb & _). cbn in Hb.
  apply (asleep_closure _ (map what rest)) in Hc; [|by apply (asleep_still _ s)]. cbn in Hc.
  change (now_ (s <| batch := rest |>)) with (now_ s) in Hr.
  destruct Hr as [[_ ->]|(_ & n & ->)].
  - destruct (unwind_batch (s1 <| history ::= fun h => h ++ [Failed j (now_ s)] |>)) as [-> _].
    apply drops_asleep. apply (asleep_still _ s1); [done..|].
    rewrite <- (app_nil_r (map what rest)) in Hc. by apply asleep_drop in Hc.
  - cbn. rewrite Hb. by apply (asleep_still _ s1).
Qed.

Lemma asleep_timers s :
  asleep [] s -> asleep (map what (batch (take_timers s))) (take_timers s).
Proof.
  intros HA. unfold take_timers. cbn. destruct (expire _ _ _) as [e q] eqn:E.
  apply expire_spec in E as [P _]. destruct HA as [Hn Ha]. rewrite app_nil_r in Hn, Ha.
  assert (map callback (timers_ s) ≡ₚ map callback q ++ map what (map FromTimer e)) as P'.
  { rewrite P, map_app, map_map. change (fun x => what (FromTimer x)) with (@callback F).
    by rewrite Permutation_app_comm. }
  split; cbn.
  - unfold ids in *. by rewrite <- P'.
  - intros a co. rewrite <- P'. apply Ha.
Qed.

Lemma asleep_advance s s' :
  advance body s = Ok s' -> consistent s -> owned (pending_ s) = 0%nat ->
  asleep (map what (batch s)) s -> asleep (map what (batch s')) s'.
Proof.
  intros Ha [_ Hb] Ho HA. unfold advance in Ha. unfold handling in Hb.
  destruct (at_place s) as [| | |since timeout|ph| |] eqn:Ep; [..|by injection Ha as <-|by injection Ha as <-].
  - destruct (stopped_ s), (kind s); by injection Ha as <-.
  - by injection Ha as <-.
  - pose proof (timeout_respects _ (asleep_respects _) s HA) as HA'.
    destruct (timeout_respects _ same_batch_respects s) as (Eb & _).
    destruct (next_timer_timeout_ms s) as [to s1]. injection Ha as <-. cbn in Eb, HA'.
    cbn. by rewrite Eb.
  - injection Ha as <-. rewrite Hb in HA by done. unfold take_polled. destruct (poll _ _) as [b hs].
    cbn. rewrite <- (app_nil_r (map what _)). apply asleep_plain; [by induction hs|].
    by apply (asleep_still _ s).
  - destruct (batch s) as [|j rest] eqn:Eb.
    + injection Ha as <-. destruct ph; [| |by destruct (kind s); cbn; rewrite Eb].
      * by apply asleep_timers.
      * cbn. rewrite map_map, map_id, <- (app_nil_r (pending_ s)).
        apply asleep_plain; [done|]. by apply (asleep_still _ s).
    + apply bind_ok in Ha as (r & Hr & [= <-]). apply asleep_job in Hr; [|done].
      by destruct r.2.
Qed.

Lemma asleep_reachable s : reachable body s -> asleep (map what (batch s)) s.
Proof.
  intros Hr. cut (reachable body s /\ asleep (map what (batch s)) s); [tauto|]. revert s Hr.
  apply reachable_invariant.
  { intros b u. split; [by exists b, u, []|]. split; [constructor|]. by intros a co ?%elem_of_nil. }
  intros e s s' Hs [Hr HA]. split.
  { destruct Hr as (b & u & es & H). exists b, u, (es ++ [e]).
    revert H. generalize (io_context b u : loop). induction es as [|e' es IH]; cbn; intros s0 H.
    - injection H as ->. by rewrite Hs.
    - apply bind_ok in H as (s1 & -> & H). by apply IH. }
  destruct e as [|m|c]; cbn in Hs.
  - eapply asleep_advance; [exact Hs|by apply consistent_reachable| |done].
    by apply counted_reachable in Hr as [_ ?].
  - injection Hs as <-. destruct (out_of_loop s); [|done].
    destruct m; cbn; try done. by destruct (stopped_ s).
  - apply bind_ok in Hs as (r & Hs & [= <-]).
    pose proof (exec_respects _ same_batch_respects _ _ _ Hs) as (-> & _).
    by apply (exec_respects _ (asleep_respects _) _ _ _ Hs).
Qed.

(** C21: When the timer of a sleep fires, its work guard is released and the
    coroutine is resumed exactly if its frame was not destroyed since by
    [scheduled_task::cancel]; so the timer never resumes a destroyed frame. *)
Theorem sleep_resumes_unless_cancelled s a co :
  reachable body s ->
  SleepDone a co ∈ map callback (timers_ s) ++ map what (batch s) ->
  run_closure body (SleepDone a co) s =
    if is_destroyed (frame co) s then Ok (drop_work s, false)
    else r ← run_body body (point co) (end_sleep a (drop_work s)); Ok (r.1, false).
Proof.
  intros [_ Ha]%asleep_reachable Hin. apply Ha in Hin. cbn [run_closure]. unfold alive, resume.
  change (awaiters (drop_work s)) with (awaiters s). rewrite Hin.
  change (is_destroyed (frame co) (end_sleep a (drop_work s))) with (is_destroyed (frame co) s).
  by destruct (is_destroyed (frame co) s).
Qed.

(** ** Blocking *)

Definition woken (s : loop) : Prop := awake (backend_ s) = true.

(** What a call adds to the work of the loop, it wakes the loop for. *)
Definition wakes (s s' : loop) : Prop :=
  (woken s -> woken s') /\ (pending_ s' = pending_ s \/ woken s') /\
  (stopped_ s' = true -> stopped_ s = true \/ woken s') /\
  (forall tm, tm ∈ timers_ s' -> tm ∈ timers_ s \/ woken s').

Lemma wakes_still s s' :
  (woken s -> woken s') -> pending_ s' = pending_ s -> stopped_ s' = stopped_ s ->
  timers_ s' = timers_ s -> wakes s s'.
Proof using HB. intros ? Hp Hs Ht. unfold wakes. split_and!; rewrite ?Hp, ?Hs, ?Ht; auto. Qed.

Lemma wakes_woken s s' : woken s' -> wakes s s'.
Proof using HB. intros. unfold wakes. split_and!; auto. Qed.

Lemma woken_wake (s s' : loop) : backend_ s' = wake (backend_ s) -> woken s'.
Proof using HB. unfold woken. intros ->. apply wake_awake. Qed.

Lemma wakes_respects : respects wakes.
Proof using HC.
  constructor; try (intros; apply wakes_still; done); try (intros; by eapply wakes_woken, woken_wake).
  - intros s1 s2 s3 (A1 & A2 & A3 & A4) (B1 & B2 & B3 & B4). unfold wakes. split_and!; [auto|..].
    + destruct B2 as [->|?]; [|auto]. destruct A2; auto.
    + intros [H|]%B3; [|auto]. destruct (A3 H); auto.
    + intros tm [H|]%B4; [|auto]. destruct (A4 _ H); auto.
  - intros s. unfold wakes. by split_and!; auto.
  - intros g s. unfold copy_work. destruct (holds g s); by apply wakes_still.
  - intros g s. unfold release.
    destruct (holds g s); [by eapply wakes_woken, woken_wake|by apply wakes_still].
  - intros g o s. unfold assign_work, release. destruct (_ || _); [by apply wakes_still|].
    destruct (holds g s); [by eapply wakes_woken, woken_wake; case_match|].
    by case_match; apply wakes_still.
  - intros g o s. unfold assign_move_work, release. destruct (_ || _); [by apply wakes_still|].
    destruct (holds g s); [by eapply wakes_woken, woken_wake|by apply wakes_still].
  - intros f s. unfold cancel_task. destruct (is_destroyed f s); by apply wakes_still.
  - intros o s. apply wakes_still; try done. unfold woken. cbn. by rewrite submit_awake.
Qed.

Lemma closure_wakes c s r : run_closure body c s = Ok r -> wakes s r.1.
Proof.
  apply run_closure_respects; [apply wakes_respects|..].
  - intros s'. by eapply wakes_woken, woken_wake.
  - intros a s'. by apply wakes_still.
Qed.

(** The blocking call [poll(timeout)] made at [since] does not outlast the time
    to the timer [tm].  A timeout below 0 is no limit at all. *)
Definition in_time (since timeout : Z) (tm : @timer F) : Prop :=
  since + timeout * 10 ^ 6 <= deadline tm /\
  (timeout < 0 -> since + 2 ^ 31 * 10 ^ 6 <= deadline tm).

Definition may_block (since timeout : Z) (s : loop) : Prop :=
  stopped_ s = false /\ pending_ s = [] /\ Forall (in_time since timeout) (timers_ s).

Definition failed (s : loop) : Prop := exists j t, Failed j t ∈ history s.

Definition vigilant (s : loop) : Prop :=
  failed s \/
  match at_place s with
  | Handling Polled | Handling Timers => True
  | Testing | Handling Pending | Returned | Thrown => pending_ s = [] \/ woken s
  | TestingPending | Timing => stopped_ s = false /\ pending_ s = [] \/ woken s
  | Blocking since timeout => timeout = 0 \/ may_block since timeout s \/ woken s
  end.

Lemma vigilant_wakes s s' :
  at_place s' = at_place s -> history s' = history s -> wakes s s' -> vigilant s -> vigilant s'.
Proof.
  intros Hp Hh (W1 & W2 & W3 & W4). unfold vigilant, failed. rewrite Hp, Hh.
  intros [|V]; [auto|right]. destruct (at_place s) as [| | |since to|[]| |]; try done.
  1,5-7: destruct W2 as [->|]; tauto.
  1,2: destruct W2 as [->|]; [|tauto]; destruct V as [[Hs Hq]|]; [|tauto];
       destruct (stopped_ s'); [|tauto]; destruct W3 as [|]; [done|congruence|tauto].
  destruct V as [|[(Hs & Hq & Hf)|]]; [tauto| |tauto].
  destruct (decide (woken s')) as [|Hn]; [tauto|]. right. left. split_and!.
  - destruct (stopped_ s'); [|done]. destruct W3; [done|congruence|tauto].
  - destruct W2; [congruence|tauto].
  - apply Forall_forall. intros tm Hin. apply W4 in Hin as [Hin|]; [|tauto].
    by eapply Forall_forall in Hf.
Qed.

Lemma vigilant_still s s' l :
  at_place s' = at_place s -> history s' = history s ++ l -> backend_ s' = backend_ s ->
  pending_ s' = pending_ s -> stopped_ s' = stopped_ s -> timers_ s' = timers_ s ->
  vigilant s -> vigilant s'.
Proof.
  intros Hp Hh Hb Hq Hs Ht. unfold vigilant, failed, may_block, woken. rewrite Hp, Hb, Hq, Hs, Ht.
  intros [(j & t & H)|]; [|auto]. left. exists j, t. rewrite Hh. set_solver.
Qed.

Lemma i32_below x : 0 <= x -> i32 x <= x /\ (i32 x < 0 -> 2 ^ 31 <= x).
Proof. unfold i32. intros. lia. Qed.

(** The timeout never reaches beyond the first timer. *)
Lemma timeout_in_time (s : loop) timeout s1 :
  next_timer_timeout_ms s = (timeout, s1) ->
  timeout = 0 \/ Forall (in_time (now_ s1) timeout) (timers_ s1).
Proof.
  unfold next_timer_timeout_ms. destruct (pop_top (timers_ s)) as [[top q]|] eqn:E.
  - apply pop_top_some in E as [P Hmin]. cbn. destruct (Z.leb_spec (deadline top - reading (readings s)) 0) as [|Hd].
    + intros [= <- <-]. by left.
    + intros [= <- <-]. right. cbn. rewrite P. set (t := reading (readings s)) in *.
      pose proof (i32_below ((deadline top - t) / 10 ^ 6) ltac:(lia)) as [H1 H2].
      assert (in_time t (i32 ((deadline top - t) / 10 ^ 6)) top) as Hin by (unfold in_time; lia).
      constructor; [done|]. eapply Forall_impl; [exact Hmin|]. unfold in_time in *. cbn. lia.
  - intros [= <- <-]. right. by apply pop_top_none in E as ->.
Qed.

Lemma vigilant_job ph j rest s r :
  run_job body ph j (s <| batch := rest |>) = Ok r -> at_place s = Handling ph ->
  vigilant s -> vigilant (if r.2 then at_ Thrown r.1 else r.1).
Proof.
  intros (s1 & Hc & Hr)%run_job_inv Hp V.
  destruct (closure_same_batch _ _ _ Hc) as (_ & Hh & _ & Hp1). cbn in Hh, Hp1.
  change (now_ (s <| batch := rest |>)) with (now_ s) in Hr.
  destruct Hr as [[-> ->]|(-> & n & ->)].
  - left. exists j, (now_ s). change (history (at_ Thrown ?x)) with (history x).
    destruct (unwind_batch (s1 <| history ::= fun h => h ++ [Failed j (now_ s)] |>)) as (_ & -> & _).
    cbn. set_solver.
  - apply (vigilant_still s1 _ [Ran j (now_ s)]); try done.
    apply (vigilant_wakes (s <| batch := rest |>) s1); [done..| |].
    + by apply closure_wakes in Hc.
    + apply (vigilant_still s _ []); try done. cbn. by rewrite app_nil_r.
Qed.


Lemma vigilant_advance s s' : advance body s = Ok s' -> vigilant s -> vigilant s'.
Proof.
  intros Ha V. unfold advance in Ha. pose proof V as V'. unfold vigilant in V'.
  destruct (at_place s) as [| | |since timeout|ph| |] eqn:Ep; [..|by injection Ha as <-|by injection Ha as <-].
  - destruct V' as [|V']; [left; destruct (stopped_ s), (kind s); by injection Ha as <-|].
    right. destruct (stopped_ s) eqn:Es; [by injection Ha as <-|].
    unfold woken in *. destruct (kind s), (work_count_ s =? 0); injection Ha as <-; cbn;
      rewrite Es; tauto.
  - destruct V' as [|V']; [left; by injection Ha as <-|]. right. injection Ha as <-.
    unfold woken in *. destruct (pending_ s) eqn:Eq; cbn; rewrite Eq; tauto.
  - pose proof (timeout_respects _ wakes_respects s) as (W1 & W2 & W3 & _).
    pose proof (timeout_respects _ same_batch_respects s) as (_ & Hh & _).
    destruct (next_timer_timeout_ms s) as [to s1] eqn:En. injection Ha as <-. cbn in *.
    destruct V' as [|V']; [left; unfold failed in *; cbn; by rewrite Hh|]. right. cbn.
    apply timeout_in_time in En as [->|Hf]; [by left|right].
    destruct V' as [[Hs Hq]|Hw]; [|right; by apply W1].
    destruct (decide (woken s1)) as [|Hn]; [by right|left]. unfold may_block. cbn. split_and!; [| |done].
    + destruct (stopped_ s1); [|done]. destruct W3; [done|congruence|tauto].
    + destruct W2; [congruence|tauto].
  - injection Ha as <-. destruct V' as [(j & t & V')|_]; [|by right]. left. exists j, t.
    unfold take_polled. by destruct (poll _ _).
  - destruct (batch s) as [|j rest] eqn:Eb.
    + injection Ha as <-. destruct V' as [(j & t & V')|V'].
      * left. exists j, t. destruct ph; [| |by destruct (kind s)]; [|done].
        unfold take_timers. cbn. by destruct (expire _ _ _).
      * right. destruct ph; [done|by left|]. destruct (kind s); exact V'.
    + apply bind_ok in Ha as (r & Hr & [= <-]). by eapply vigilant_job.
Qed.

Lemma vigilant_reachable s : reachable body s -> vigilant s.
Proof.
  apply reachable_invariant; [by right; left|]. intros e s1 s2 Hs V. destruct e as [|m|c]; cbn in Hs.
  - by eapply vigilant_advance.
  - injection Hs as <-. unfold out_of_loop. destruct (at_place s1) eqn:Ep; try done; destruct V as [V|V].
    1,3: left; destruct m; cbn; try done; by destruct (stopped_ s1).
    all: rewrite Ep in V; right; destruct m; cbn; try exact V; try by left.
    all: unfold woken in *; destruct (stopped_ s1) eqn:Es; cbn; rewrite ?Es; tauto.
  - apply bind_ok in Hs as (r & Hs & [= <-]).
    pose proof (exec_respects _ same_batch_respects _ _ _ Hs) as (_ & Hh & _ & Hp).
    apply (vigilant_wakes s1); try done. by apply (exec_respects _ wakes_respects) in Hs.
Qed.

(** C17: The loop never sleeps while there is work: whenever its thread is in a
    blocking [poll(timeout)], either the backend has been woken and returns at
    once, or the loop is not stopped, no posted function waits and the timeout
    ends no later than the first timer.  A timeout that the conversion to [int]
    made negative, which is none to the backend, takes a timer 2^31 ms away.
    This is so as long as no function that the loop ran has thrown: one that throws
    leaves the loop. *)
Theorem loop_never_sleeps_on_work s since timeout :
  reachable body s -> no_failure s -> at_place s = Blocking since timeout -> timeout <> 0 ->
  awake (backend_ s) = true \/
  stopped_ s = false /\ pending_ s = [] /\
  forall tm, tm ∈ timers_ s ->
    since + timeout * 10 ^ 6 <= deadline tm /\
    (timeout < 0 -> since + 2 ^ 31 * 10 ^ 6 <= deadline tm).
Proof.
  intros [(j & t & H)|V]%vigilant_reachable Hn Hp Ht; [by apply Hn in H|].
  rewrite Hp in V. destruct V as [|[(Hs & Hq & Hf)|]]; [done| |by left].
  right. split_and!; [done..|]. intros tm Hin. by eapply Forall_forall in Hf.
Qed.

(** ** One turn of the loop *)

(** What the code of functions does not depend on: where the thread is. *)
Definition moved (p : place) (r : loop * bool) : loop * bool := (at_ p r.1, r.2).

Lemma now_at p (s : loop) : now (at_ p s) = ((now s).1, at_ p (now s).2).
Proof. done. Qed.

Lemma release_at g p (s : loop) : release g (at_ p s) = at_ p (release g s).
Proof. unfold release, holds. cbn. by case_match. Qed.

Lemma assign_at g o p (s : loop) : assign_work g o (at_ p s) = at_ p (assign_work g o s).
Proof.
  unfold assign_work, is_guard. change (guards (at_ p s)) with (guards s).
  destruct (_ || _); [done|]. rewrite release_at. generalize (release g s). intros s1.
  unfold holds. cbn. by case_match.
Qed.

Lemma assign_move_at g o p (s : loop) :
  assign_move_work g o (at_ p s) = at_ p (assign_move_work g o s).
Proof.
  unfold assign_move_work, is_guard. change (guards (at_ p s)) with (guards s).
  destruct (_ || _); [done|]. by rewrite release_at.
Qed.

Lemma exec_at p (c : code) s : exec c (at_ p s) = moved p <$> exec c s.
Proof.
  revert s. induction c; intros s; cbn [exec]; try done; rewrite ?assign_at, ?assign_move_at, ?release_at; auto.
  all: try (match goal with IH : forall s, exec ?k _ = _ |- _ => rewrite <- IH end; f_equal;
    unfold post_after, copy_work, cancel_task, is_destroyed, holds; cbn; repeat case_match; done).
  all: try (match goal with IH : forall n s, exec _ _ = _ |- _ => rewrite <- IH end; f_equal;
    unfold copy_work, holds; cbn; repeat case_match; done).
  - change (frames (at_ p s)) with (frames s).
    change ((at_ p s) <| frames ::= S |>) with (at_ p (s <| frames ::= S |>)). rewrite H.
    destruct (exec (c (frames s)) _) as [[s1 b]| | |]; cbn; auto.
  - rewrite now_at. destruct (now s) as [t s1]. cbn. destruct (d <=? t); [apply IHc|].
    unfold is_destroyed. cbn. by case_match.
  - rewrite now_at. destruct (now s) as [t s1]. cbn [fst snd]. rewrite now_at. destruct (now s1) as [t' s2].
    cbn. destruct (_ <=? t'); [apply IHc|]. unfold is_destroyed. cbn. by case_match.
  - cbn. destruct (submit o (backend_ s)) as [b []]; [|done].
    change ((at_ p s) <| backend_ := b |>) with (at_ p (s <| backend_ := b |>)). apply IHc.
Qed.

Lemma resume_at p co s : resume body co (at_ p s) = moved p <$> resume body co s.
Proof.
  unfold resume, is_destroyed. cbn. case_match; [done|]. unfold run_body. cbn.
  destruct (body (point co) (user s)) as [u c].
  change ((at_ p s) <| user := u |>) with (at_ p (s <| user := u |>)). rewrite exec_at.
  by destruct (exec c _) as [[s1 b]| | |].
Qed.

Lemma closure_at p c s : run_closure body c (at_ p s) = moved p <$> run_closure body c s.
Proof.
  destruct c as [f|co|a co]; cbn [run_closure].
  - unfold run_body. cbn. destruct (body f (user s)) as [u c].
    change ((at_ p s) <| user := u |>) with (at_ p (s <| user := u |>)). apply exec_at.
  - apply resume_at.
  - change (alive a (drop_work (at_ p s))) with (alive a (drop_work s)).
    destruct (alive a (drop_work s)); [|done].
    change (end_sleep a (drop_work (at_ p s))) with (at_ p (end_sleep a (drop_work s))).
    apply resume_at.
Qed.

Lemma run_job_at p ph j s s' :
  run_job body ph j s = Ok (s', false) -> run_job body ph j (at_ p s) = Ok (at_ p s', false).
Proof.
  unfold run_job. rewrite closure_at. intros ([s1 b] & -> & H)%bind_ok. cbn.
  destruct b; [by injection H|]. injection H as <-. by destruct ph.
Qed.

Lemma run_job_place ph j s s' :
  run_job body ph j s = Ok (s', false) ->
  at_place s' = at_place s /\ batch s' = batch s /\ finished s' = finished s ++ [j] /\ grows s s'.
Proof.
  intros (s1 & Hc & [[? _]|(_ & n & Hr)])%run_job_inv; [done|]. cbn in Hr, Hc. rewrite Hr.
  destruct (closure_same_batch _ _ _ Hc) as (Hb & Hh & _ & Hp). apply closure_grows in Hc.
  cbn in *. unfold finished. split_and!; [done|done| |].
  - cbn. by rewrite Hh, map_app.
  - eapply grows_trans; [exact Hc|]. by apply grows_still.
Qed.

Lemma run_batch_all ph js s s' :
  run_batch body ph js s = Ok (s', false) -> batch s = js ->
  batch s' = [] /\ finished s' = finished s ++ js /\ grows s s' /\
  steps body (repeat Advance (length js)) (at_ (Handling ph) s) = Ok (at_ (Handling ph) s').
Proof.
  revert s. induction js as [|j js IH]; intros s Hr Hb; cbn in Hr.
  - injection Hr as <-. split_and!; [done|by rewrite app_nil_r|by apply grows_still|done].
  - apply bind_ok in Hr as ([s1 b] & H1 & H2). destruct b; [done|]. cbn in H2.
    destruct (run_job_place _ _ _ _ H1) as (_ & Hb1 & Hf1 & G1). apply IH in H2 as (P1 & P2 & P3 & P4); [|done].
    split_and!; [done| | |].
    + rewrite P2, Hf1, <- app_assoc. done.
    + eapply grows_trans; [|exact P3]. eapply grows_trans; [|exact G1]. by apply grows_still.
    + cbn [length repeat steps step]. unfold advance at 1. cbn [at_ at_place set_field batch].
      change (batch (at_ (Handling ph) s)) with (batch s). rewrite Hb.
      change ((at_ (Handling ph) s) <| batch := js |>) with (at_ (Handling ph) (s <| batch := js |>)).
      rewrite (run_job_at _ _ _ _ _ H1). exact P4.
Qed.

Lemma loop_steps_app es es' s s1 :
  steps body es s = Ok s1 -> steps body (es ++ es') s = steps body es' s1.
Proof.
  revert s. induction es as [|e es IH]; intros s; cbn; [by intros [= ->]|].
  intros (s2 & -> & H)%bind_ok. cbn. by apply IH.
Qed.

(** A batch that is empty, and the place after it. *)
Lemma advance_next ph (s : loop) :
  batch s = [] -> ph <> Pending ->
  advance body (at_ (Handling ph) s) = Ok match ph with
    | Polled => at_ (Handling Timers) (take_timers (s <| backend_ ::= polled |>))
    | _ => at_ (Handling Pending) (take_pending s) end.
Proof.
  intros Hb Hp. unfold advance. cbn [at_ at_place set_field].
  change (batch (at_ (Handling ph) s)) with (batch s). rewrite Hb. destruct ph; try done.
  unfold take_timers. cbn. by destruct (expire _ _ _).
Qed.

(** The timers that [process_timers] takes. *)
Lemma take_timers_spec (s : loop) :
  exists es, batch (take_timers s) = map FromTimer es /\ StronglySorted earlier es /\
    finished (take_timers s) = finished s /\ pending_ (take_timers s) = pending_ s /\
    forall tm, tm ∈ timers_ s -> deadline tm <= reading (readings s) -> tm ∈ es.
Proof.
  unfold take_timers. cbn. destruct (expire _ _ _) as [es q] eqn:E.
  apply expire_spec in E as (P & _ & Hs & Hq). exists es. split_and!; try done.
  intros tm Hin Hd. rewrite P in Hin. apply elem_of_app in Hin as [|Hin]; [done|].
  eapply Forall_forall in Hq; [|done|exact Hin]. cbn in Hq. lia.
Qed.

(** The batches of a turn, one after the other. *)
Lemma turn_steps timeout (s s1 s2 s3 : loop) since n1 n2 n3 :
  at_place s = Blocking since timeout ->
  steps body (repeat Advance n1) (at_ (Handling Polled) (take_polled timeout s)) =
    Ok (at_ (Handling Polled) s1) -> batch s1 = [] ->
  steps body (repeat Advance n2) (at_ (Handling Timers) (take_timers (s1 <| backend_ ::= polled |>))) =
    Ok (at_ (Handling Timers) s2) -> batch s2 = [] ->
  steps body (repeat Advance n3) (at_ (Handling Pending) (take_pending s2)) =
    Ok (at_ (Handling Pending) s3) ->
  steps body (repeat Advance (1 + (n1 + (1 + (n2 + (1 + n3)))))) s = Ok (at_ (Handling Pending) s3).
Proof.
  intros Hp S1 B1 S2 B2 S3. cbn [Nat.add repeat steps step]. unfold advance at 1. rewrite Hp.
  cbn [mbind outcome_bind]. rewrite repeat_app. erewrite loop_steps_app; [|exact S1].
  cbn [Nat.add repeat steps step]. rewrite advance_next by done. cbn [mbind outcome_bind].
  rewrite repeat_app. erewrite loop_steps_app; [|exact S2].
  cbn [repeat steps step]. rewrite advance_next by done. exact S3.
Qed.

(** C18: One turn of the loop, from the blocking call of [poll] to the end of
    [execute_pending], runs the coroutines the backend hands over, then every
    timer that was due when the turn began, in the order of the deadlines, then
    every function that had been posted when it began, in the order of the
    posts, with those added meanwhile after them. *)
Theorem turn_runs_everything s since timeout s' :
  reachable body s -> at_place s = Blocking since timeout -> turn body timeout s = Ok (s', false) ->
  exists n es qs,
    steps body (repeat Advance n) s = Ok (at_ (Handling Pending) s') /\ batch s' = [] /\
    finished s' = finished s ++ map FromPoll (poll timeout (backend_ s)).2 ++
                  map FromTimer es ++ map FromPost (pending_ s ++ qs) /\
    StronglySorted earlier es /\
    (forall tm, tm ∈ timers_ s -> deadline tm <= now_ s -> tm ∈ es).
Proof.
  intros Hreach Hp Ht. apply consistent_reachable in Hreach as [[_ _ Hclock _ _ _] _].
  unfold turn in Ht. cbv zeta in Ht.
  apply bind_ok in Ht as ([s1 t1] & H1 & Ht). destruct t1; [done|].
  apply bind_ok in Ht as ([s2 t2] & H2 & H3). destruct t2; [done|]. cbn [fst snd] in H2, H3.
  apply run_batch_all in H1 as (B1 & F1 & [(ps1 & ts1 & _ & Q1 & _ & T1) N1] & S1); [|done].
  apply run_batch_all in H2 as (B2 & F2 & [(ps2 & ts2 & _ & Q2 & _) _] & S2); [|done].
  apply run_batch_all in H3 as (B3 & F3 & _ & S3); [|done].
  destruct (take_timers_spec (s1 <| backend_ ::= polled |>)) as (es & Ee & Hs & Fe & Qe & He).
  rewrite Ee, Fe in F2. rewrite Qe in Q2.
  unfold take_polled in F1, Q1, T1, N1. destruct (poll timeout (backend_ s)) as [b hs] eqn:Epoll.
  eexists _, es, (ps1 ++ ps2). split_and!; [exact (turn_steps _ _ _ _ _ _ _ _ _ Hp S1 B1 S2 B2 S3)|done| |done|].
  - change (finished s' = finished s2 ++ map FromPost (pending_ s2)) in F3.
    change (finished s2 = finished s1 ++ map FromTimer es) in F2.
    change (finished s1 = finished s ++ map FromPoll hs) in F1. cbn in Q1, Q2.
    rewrite F3, F2, F1, Q2, Q1, <- !app_assoc. done.
  - destruct (N1 Hclock) as [(i & Hi & Hn) Hle]. cbn in T1, Hle. intros tm Hin Hd. apply He; cbn.
    + rewrite T1. apply elem_of_app. by left.
    + pose proof (reading_steady i (readings s1) Hi). lia.
Qed.

End Facts.

(** ** An execution

    A clock that advances by a millisecond a reading, a timer queue in which the
    earliest timer armed last comes first, a backend that only wakes. *)

#[export] Program Instance millisecond_clock : Clock := {|
  reading n := Z.of_nat n * 1000000
|}.
Next Obligation. intros i j H. cbn beta. lia. Qed.

(** The earliest of [t] and [q], and the others. *)
Fixpoint earliest {F} (t : @timer F) (q : list (@timer F)) : @timer F * list (@timer F) :=
  match q with
  | [] => (t, [])
  | t' :: q =>
      if deadline t <=? deadline t' then let '(m, r) := earliest t q in (m, t' :: r)
      else let '(m, r) := earliest t' q in (m, t :: r)
  end.

Lemma earliest_spec {F} (t : @timer F) q m r :
  earliest t q = (m, r) ->
  t :: q ≡ₚ m :: r /\ Forall (fun t' => deadline m <= deadline t') r /\ deadline m <= deadline t.
Proof.
  revert t m r. induction q as [|t' q IH]; intros t m r; cbn; [intros [= <- <-]; split_and!; done || lia|].
  destruct (Z.leb_spec (deadline t) (deadline t')) as [H|H].
  - destruct (earliest t q) as [m' r'] eqn:E. intros [= <- <-]. apply IH in E as (P & Hf & Hm).
    split_and!; [|constructor; [lia|done]|done]. rewrite (Permutation_swap t' t q), P. apply Permutation_swap.
  - destruct (earliest t' q) as [m' r'] eqn:E. intros [= <- <-]. apply IH in E as (P & Hf & Hm).
    split_and!; [|constructor; [lia|done]|lia]. rewrite P. apply Permutation_swap.
Qed.

#[export] Program Instance earliest_queue {F} : @TimerQueue F := {|
  pop_top q := match q with [] => None | t :: q => Some (earliest t q) end
|}.
Next Obligation. intros F [|t q]; done. Qed.
Next Obligation.
  intros F [|t0 q] t r H; [done|]. injection H as H. by apply earliest_spec in H as (P & Hf & _).
Qed.

(** [awake] alone. *)
#[export] Program Instance idle_backend {F} : Backend bool unit F := {|
  poll _ _ := (false, []); polled b := b; submit _ b := (b, true); wake _ := true; awake b := b
|}.
Solve All Obligations with done.

(** Function 0 posts 1 and sets a timer for 2, and a coroutine sleeps before 3;
    another coroutine is cancelled while it sleeps.  The functions log their names. *)
Definition demo_body (f : nat) (log : list nat) : list nat * @code unit nat :=
  (log ++ [f], match f with
   | 0%nat =>
       ToPost 1%nat (ToPostAfter (12 * 10 ^ 6) 2%nat
         (Spawn (fun f => SleepFor (20 * 10 ^ 6) {| frame := f; point := 3%nat |} Return) (fun _ =>
          Spawn (fun f => SleepFor (10 * 10 ^ 6) {| frame := f; point := 4%nat |} Return) (fun f =>
          CancelTask f Return))))
   | _ => Return
   end).

Definition demo_from (n : nat) (k : mode) : outcome (@loop bool nat (list nat)) :=
  steps demo_body ([Foreign (ToPost 0%nat Return); Enter k] ++ repeat Advance n)
    (io_context false []).

Definition demo (n : nat) (k : mode) : @loop bool nat (list nat) :=
  match demo_from n k with Ok s => s | _ => io_context false [] end.

Lemma demo_reachable n k : is_ok (demo_from n k) = true -> reachable demo_body (demo n k).
Proof.
  intros H. eexists false, [], _. unfold demo. by destruct (demo_from n k) eqn:E.
Qed.

Example demo_log : user (demo 120 RunUntilComplete) = [0; 1; 2; 3]%nat.
Proof. reflexivity. Qed.

Lemma loop_runs_each_once_witness :
  let s := demo 31 Run in
  reachable demo_body s /\
  posted s = posts (finished s) ++ posts (batch s) ++ pending_ s /\
  armed s ≡ₚ firings (finished s) ++ firings (batch s) ++ timers_ s /\
  (forall tm t, Ran (FromTimer tm) t ∈ history s -> deadline tm <= t) /\
  (no_failure s -> forall j, Lost j ∉ history s).
Proof.
  split; [apply demo_reachable; vm_compute; reflexivity|].
  apply (loop_runs_each_once demo_body). apply demo_reachable. vm_compute. reflexivity.
Defined.

(** The end of the run: no guard is left, and the loop returns, even when another
    thread makes a guard after the test of the count. *)
Definition late_guard : @code unit nat := MakeWork (fun _ => Return).

Definition after (es : list event) : @loop bool nat (list nat) :=
  match steps demo_body es (demo 66 RunUntilComplete) with Ok s => s | _ => io_context false [] end.

Lemma work_count_exact_witness :
  let s1 := after [Advance; Foreign late_guard] in
  let s2 := after [Advance; Foreign late_guard; Advance] in
  held s1 = 1%nat /\ step demo_body Advance s1 = Ok s2 /\ at_place s2 = Returned.
Proof.
  destruct (work_count_exact demo_body (demo 66 RunUntilComplete)) as [_ H].
  - apply demo_reachable. vm_compute. reflexivity.
  - split; [vm_compute; reflexivity|]. split; [vm_compute; reflexivity|].
    eapply (H ltac:(vm_compute; reflexivity) [late_guard] (after [Advance; Foreign late_guard]));
      try (vm_compute; reflexivity). split; vm_compute; reflexivity.
Defined.

(** The sleep that was cancelled, and the one that was not. *)
Lemma sleep_resumes_unless_cancelled_witness :
  let s := demo 31 Run in
  is_destroyed 1 s = true /\
  run_closure demo_body (SleepDone 1 {| frame := 1; point := 4%nat |}) s = Ok (drop_work s, false) /\
  (fun r => user r.1) <$> run_closure demo_body (SleepDone 0 {| frame := 0; point := 3%nat |}) s =
    Ok [0; 1; 2; 3]%nat.
Proof.
  split; [vm_compute; reflexivity|]. split.
  - rewrite (sleep_resumes_unless_cancelled demo_body).
    + vm_compute. reflexivity.
    + apply demo_reachable. vm_compute. reflexivity.
    + vm_compute. right. left.
  - rewrite (sleep_resumes_unless_cancelled demo_body).
    + vm_compute. reflexivity.
    + apply demo_reachable. vm_compute. reflexivity.
    + vm_compute. left.
Defined.

Lemma no_failure_decide {B F U} (s : @loop B F U) :
  forallb (fun e => match e with Failed _ _ => false | _ => true end) (history s) = true ->
  no_failure s.
Proof. intros H j t Hin. rewrite forallb_forall in H. apply list_elem_of_In in Hin. by apply H in Hin. Qed.

Lemma loop_never_sleeps_on_work_witness :
  let s := demo 9 Run in
  at_place s = Blocking 6000000 7 /\
  (awake (O:=unit) (F:=nat) (backend_ s) = true \/
   stopped_ s = false /\ pending_ s = [] /\
   forall tm, tm ∈ timers_ s ->
     6000000 + 7 * 10 ^ 6 <= deadline tm /\ (7 < 0 -> 6000000 + 2 ^ 31 * 10 ^ 6 <= deadline tm)).
Proof.
  split; [vm_compute; reflexivity|]. apply (loop_never_sleeps_on_work demo_body).
  - apply demo_reachable. vm_compute. reflexivity.
  - apply no_failure_decide. vm_compute. reflexivity.
  - vm_compute. reflexivity.
  - lia.
Defined.

(** The turn in which the timer 2 fires. *)
Lemma turn_runs_everything_witness :
  let s := demo 28 Run in
  at_place s = Blocking 12000000 1 /\
  exists s', turn demo_body 1 s = Ok (s', false) /\ exists n es qs,
    steps demo_body (repeat Advance n) s = Ok (at_ (Handling Pending) s') /\ batch s' = [] /\
    finished s' = finished s ++ map FromPoll (poll (O:=unit) (F:=nat) 1 (backend_ s)).2 ++
                  map FromTimer es ++ map FromPost (pending_ s ++ qs) /\
    StronglySorted earlier es /\
    (forall tm, tm ∈ timers_ s -> deadline tm <= now_ s -> tm ∈ es).
Proof.
  split; [vm_compute; reflexivity|].
  exists (match turn demo_body 1 (demo 28 Run) with Ok r => r.1 | _ => io_context false [] end).
  split; [vm_compute; reflexivity|]. apply (turn_runs_everything demo_body _ 12000000).
  - apply demo_reachable. vm_compute. reflexivity.
  - vm_compute. reflexivity.
  - vm_compute. reflexivity.
Defined.

(** ** Corners *)

(** A timer 30 days away: the conversion to [int] gives a negative timeout. *)
Lemma far_timer_has_no_timeout :
  (next_timer_timeout_ms (post_at (30 * 86400 * 10 ^ 9) (Call 0%nat)
    (io_context false [] : @loop bool nat (list nat)))).1 = -1702967296.
Proof. vm_compute. reflexivity. Qed.

(** [scheduled_task::cancel] of a coroutine that waits in [run_on], whose handle
    has no flag: the loop resumes a destroyed frame. *)
Lemma cancelled_run_on_dangles :
  steps (fun f log => (log, Return))
    ([Foreign (Spawn (fun f => RunOn {| frame := f; point := 0%nat |}) (fun f => CancelTask f Return));
      Enter Run] ++ repeat Advance 8)
    (io_context false [] : @loop bool nat (list nat)) = Undefined UseAfterFree.
Proof. vm_compute. reflexivity. Qed.

(** A function that throws: the next one of its batch is destroyed, and the
    coroutine whose sleep ended with it sleeps for ever. *)
Lemma exception_loses_the_batch :
  (fun s => (at_place s, history s, pending_ s)) <$>
  steps (fun f log => (log, if (f =? 0)%nat then Throw else Return))
    ([Foreign (ToPost 0%nat (ToPost 1%nat Return)); Enter Run] ++ repeat Advance 8)
    (io_context false [] : @loop bool nat (list nat)) =
  Ok (Thrown, [Failed (FromPost (Call 0%nat)) 0; Lost (FromPost (Call 1%nat))], []).
Proof. vm_compute. reflexivity. Qed.
