(* ===== verification/Epoll.v ===== *)
(** * The epoll backend (src/src/io/epoll_backend.cpp, epoll_backend.hpp,
      src/include/async_net/io/operation_context.hpp)

    The pending operations of the sockets, the interest masks given to epoll, the
    operation contexts.  The kernel is the class [Kernel]: the system calls the
    backend makes, with what is documented of them.  A call of [poll] is split at
    the ends of its critical sections, so that other threads may submit
    operations and close descriptors in between. *)
From S2P Require Import Prelude IoContext.
From stdpp Require Import gmap options.

#[local] Open Scope Z_scope.
#[local] Open Scope net_scope.

(** ** The kernel *)

(** The result of a non-blocking call: its value, EAGAIN, or another error. *)
Inductive sysret (A : Type) := Done (a : A) | WouldBlock | Errno (e : Z).
Arguments Done {A} a.
Arguments WouldBlock {A}.
Arguments Errno {A} e.

Definition ENOENT : Z := 2.
Definition EINPROGRESS : Z := 115.
Definition EPOLLIN : Z := 1.
Definition EPOLLOUT : Z := 4.
Definition EPOLLERR : Z := 8.
Definition EPOLLHUP : Z := 16.

Inductive ctl := CTL_ADD | CTL_MOD | CTL_DEL.

(** [epoll_ctl] and the calls that return a status return an errno or 0.
    [interest] is the interest list of the epoll instance, [eventfd] says that the
    event descriptor is readable; [is_open] that a descriptor is open and can be
    polled.  The laws are those of the manual pages: [epoll_ctl] changes one entry
    of the list, MOD fails with ENOENT on a descriptor not in it and ADD on one
    that is; closing a descriptor takes it out; the other calls leave the list, and
    do not close descriptors; [epoll_wait] reports a descriptor once. *)
Class Kernel (K : Type) := {
  sys_read : Z -> Z -> K -> sysret bytes * K;
  sys_recvfrom : Z -> Z -> K -> sysret (bytes * bytes) * K;
  sys_write : Z -> bytes -> K -> sysret Z * K;
  sys_sendto : Z -> bytes -> bytes -> K -> sysret Z * K;
  sys_accept : Z -> K -> sysret Z * K;
  sys_connect : Z -> bytes -> K -> Z * K;
  so_error : Z -> K -> Z;
  set_nonblocking : Z -> K -> Z * K;
  epoll_ctl : ctl -> Z -> Z -> K -> Z * K;
  epoll_wait : Z -> K -> list (Z * Z) * K;
  sys_close : Z -> K -> K;
  write_eventfd : K -> K;
  read_eventfd : K -> K;
  eventfd : K -> bool;
  interest : K -> gmap Z Z;
  is_open : Z -> K -> bool;

  write_eventfd_readable k : eventfd (write_eventfd k) = true;
  ctl_mod fd ev k m :
    is_open fd k = true -> interest k !! fd = Some m ->
    (epoll_ctl CTL_MOD fd ev k).1 = 0 /\
    interest (epoll_ctl CTL_MOD fd ev k).2 = <[fd := ev]> (interest k);
  ctl_mod_absent fd ev k :
    is_open fd k = true -> interest k !! fd = None ->
    (epoll_ctl CTL_MOD fd ev k).1 = ENOENT /\
    interest (epoll_ctl CTL_MOD fd ev k).2 = interest k;
  ctl_add fd ev k :
    is_open fd k = true -> interest k !! fd = None ->
    (epoll_ctl CTL_ADD fd ev k).1 = 0 /\
    interest (epoll_ctl CTL_ADD fd ev k).2 = <[fd := ev]> (interest k);
  ctl_add_present fd ev k m :
    interest k !! fd = Some m ->
    (epoll_ctl CTL_ADD fd ev k).1 <> 0 /\ interest (epoll_ctl CTL_ADD fd ev k).2 = interest k;
  ctl_add_closed fd ev k : is_open fd k = false -> (epoll_ctl CTL_ADD fd ev k).1 <> 0 /\
    interest (epoll_ctl CTL_ADD fd ev k).2 = interest k;
  ctl_del fd ev k :
    interest (epoll_ctl CTL_DEL fd ev k).2 = delete fd (interest k);
  ctl_other op fd ev k fd' :
    fd' <> fd -> interest (epoll_ctl op fd ev k).2 !! fd' = interest k !! fd';
  interest_open fd k m : interest k !! fd = Some m -> is_open fd k = true;
  wait_distinct t k : NoDup (epoll_wait t k).1.*1
}.

(** A system call that leaves the interest list, the open descriptors and the
    event descriptor as they are. *)
Definition keeps `{Kernel K} (k k' : K) : Prop :=
  interest k' = interest k /\ eventfd k' = eventfd k /\
  forall fd, is_open fd k = true -> is_open fd k' = true.

Class KernelKeeps (K : Type) `{HK : Kernel K} : Prop := {
  keeps_read fd n k : keeps k (sys_read fd n k).2;
  keeps_recvfrom fd n k : keeps k (sys_recvfrom fd n k).2;
  keeps_write fd d k : keeps k (sys_write fd d k).2;
  keeps_sendto fd d a k : keeps k (sys_sendto fd d a k).2;
  keeps_accept fd k : keeps k (sys_accept fd k).2;
  keeps_connect fd a k : keeps k (sys_connect fd a k).2;
  keeps_nonblocking fd k : keeps k (set_nonblocking fd k).2;
  keeps_wait t k : keeps k (epoll_wait t k).2;
  write_keeps k : interest (write_eventfd k) = interest k /\
    forall fd, is_open fd (write_eventfd k) = is_open fd k;
  read_keeps k : interest (read_eventfd k) = interest k /\
    forall fd, is_open fd (read_eventfd k) = is_open fd k;
  close_closes fd k : eventfd (sys_close fd k) = eventfd k /\
    interest (sys_close fd k) = delete fd (interest k) /\
    forall fd', fd' <> fd -> is_open fd' k = true -> is_open fd' (sys_close fd k) = true;
  ctl_keeps op fd ev k : eventfd (epoll_ctl op fd ev k).2 = eventfd k /\
    forall fd', is_open fd' (epoll_ctl op fd ev k).2 = is_open fd' k
}.

Section Epoll.
Context {K F : Type} `{HK : Kernel K}.

(** ** Operations and their contexts *)

Inductive OpType :=
| Read | Write | Accept | Connect | RecvFrom | SendTo | Timer | WaitReadable | WaitWritable | Custom.

(** What [complete] stores, with what the operation wrote through the pointers
    of the caller: the buffer, the accepted socket, the address of the sender. *)
Record completion := {
  result_ : Z;
  error_code_ : Z;
  buffer : bytes;
  accepted : option Z;
  from_addr_ : bytes
}.

Definition completed (result error_code : Z) : completion :=
  {| result_ := result; error_code_ := error_code; buffer := []; accepted := None; from_addr_ := [] |}.

(** [OperationContext::result] *)
Definition result (c : completion) : Z := if error_code_ c =? 0 then result_ c else -1.

(** [OperationContext]: its coroutine, and its completion when [completed_]. *)
Record operation_context := { handle_ : handle F; completed_ : option completion }.

(** [PendingOp]; [len_] is the size of the buffer of a read, [data_] the data of
    a write, [ctx_] names the context. *)
Record PendingOp := {
  op_type : OpType;
  len_ : Z;
  data_ : bytes;
  dest_addr : option bytes;
  ctx_ : nat
}.

Definition pending_op (t : OpType) (ctx : nat) : PendingOp :=
  {| op_type := t; len_ := 0; data_ := []; dest_addr := None; ctx_ := ctx |}.

(** [DeferredWait] *)
Record DeferredWait := { dw_fd : Z; dw_ctx : nat; readable : bool }.

Record backend := {
  kernel : K;
  wake_fd_ : Z;
  read_ops_ : gmap Z PendingOp;
  write_ops_ : gmap Z PendingOp;
  fd_events_ : gmap Z Z;
  tl_deferred_waits_ : list DeferredWait;   (** of the thread that polls *)
  tl_in_poll_ : bool;                       (** of the thread that polls *)
  contexts : list operation_context         (** by name *)
}.
#[export] Instance backend_settable : Settable backend := fun s =>
  Build_backend (kernel s) (wake_fd_ s) (read_ops_ s) (write_ops_ s) (fd_events_ s)
    (tl_deferred_waits_ s) (tl_in_poll_ s) (contexts s).

(** [ctx->complete(...)] *)
Definition complete (ctx : nat) (c : completion) (s : backend) : backend :=
  s <| contexts ::= alter (fun o => {| handle_ := handle_ o; completed_ := Some c |}) ctx |>.

(** [ctx->completed()] *)
Definition is_completed (ctx : nat) (s : backend) : bool :=
  match contexts s !! ctx with Some {| completed_ := Some _ |} => true | _ => false end.

Definition count (fd : Z) (m : gmap Z PendingOp) : bool := bool_decide (is_Some (m !! fd)).

(** [update_events]; its second argument is not used. *)
Definition update_events (fd events : Z) (s : backend) : backend :=
  let new_events :=
    if count fd (read_ops_ s) && count fd (write_ops_ s) then Z.lor EPOLLIN EPOLLOUT
    else if count fd (read_ops_ s) then EPOLLIN
    else if count fd (write_ops_ s) then EPOLLOUT
    else 0 in
  if bool_decide (fd_events_ s !! fd = Some new_events) then s else
  let '(ret, k) := epoll_ctl CTL_MOD fd new_events (kernel s) in
  let k := if ret =? ENOENT then (epoll_ctl CTL_ADD fd new_events k).2 else k in
  s <| kernel := k |> <| fd_events_ ::= <[fd := new_events]> |>.

(** ** Results of system calls *)

(** What [complete] gets for the result of a call; nothing when it would block. *)
Definition sized (r : sysret Z) : option completion :=
  match r with
  | Done n => Some (completed n 0)
  | WouldBlock => None
  | Errno e => Some (completed (-1) e)
  end.

Definition received (r : sysret (bytes * bytes)) : option completion :=
  match r with
  | Done (d, a) =>
      Some {| result_ := len d; error_code_ := 0; buffer := d; accepted := None; from_addr_ := a |}
  | WouldBlock => None
  | Errno e => Some (completed (-1) e)
  end.

Definition read_result (r : sysret bytes) : option completion :=
  received match r with Done d => Done (d, []) | WouldBlock => WouldBlock | Errno e => Errno e end.

Definition accept_result (r : sysret Z) : option completion :=
  match r with
  | Done fd => Some {| result_ := 0; error_code_ := 0; buffer := []; accepted := Some fd; from_addr_ := [] |}
  | WouldBlock => None
  | Errno e => Some (completed (-1) e)
  end.

(** [read], [recvfrom] *)
Definition do_read (fd : Z) (op : PendingOp) (s : backend) : option completion * backend :=
  match op_type op with
  | RecvFrom => let '(r, k) := sys_recvfrom fd (len_ op) (kernel s) in (received r, s <| kernel := k |>)
  | _ => let '(r, k) := sys_read fd (len_ op) (kernel s) in (read_result r, s <| kernel := k |>)
  end.

(** [write], [sendto] *)
Definition do_write (fd : Z) (op : PendingOp) (s : backend) : option completion * backend :=
  match op_type op, dest_addr op with
  | SendTo, Some a =>
      let '(r, k) := sys_sendto fd (data_ op) a (kernel s) in (sized r, s <| kernel := k |>)
  | _, _ => let '(r, k) := sys_write fd (data_ op) (kernel s) in (sized r, s <| kernel := k |>)
  end.

(** [accept] and [set_nonblocking] of the new socket *)
Definition do_accept (fd : Z) (s : backend) : option completion * backend :=
  let '(r, k) := sys_accept fd (kernel s) in
  let k := match r with Done new_fd => (set_nonblocking new_fd k).2 | _ => k end in
  (accept_result r, s <| kernel := k |>).

(** ** Submission *)

(** The operation in a table completes with [c] and leaves it. *)
Definition settle_read (fd : Z) (op : PendingOp) (c : completion) (s : backend) : backend :=
  let s := (complete (ctx_ op) c s) <| read_ops_ ::= delete fd |> in
  update_events fd (if count fd (write_ops_ s) then EPOLLOUT else 0) s.

Definition settle_write (fd : Z) (op : PendingOp) (c : completion) (s : backend) : backend :=
  let s := (complete (ctx_ op) c s) <| write_ops_ ::= delete fd |> in
  update_events fd (if count fd (read_ops_ s) then EPOLLIN else 0) s.

Definition try_complete_read (fd : Z) (s : backend) : backend :=
  match read_ops_ s !! fd with
  | None => s
  | Some op =>
      let '(r, s) := do_read fd op s in
      match r with Some c => settle_read fd op c s | None => s end
  end.

Definition try_complete_write (fd : Z) (s : backend) : backend :=
  match write_ops_ s !! fd with
  | None => s
  | Some op =>
      let '(r, s) := do_write fd op s in
      match r with Some c => settle_write fd op c s | None => s end
  end.

(** [read_ops_[fd] = op; update_events(fd, EPOLLIN)] *)
Definition put_read (fd : Z) (op : PendingOp) (s : backend) : backend :=
  update_events fd EPOLLIN (s <| read_ops_ ::= <[fd := op]> |>).

Definition put_write (fd : Z) (op : PendingOp) (s : backend) : backend :=
  update_events fd EPOLLOUT (s <| write_ops_ ::= <[fd := op]> |>).

Definition async_read_impl (fd len : Z) (ctx : nat) (s : backend) : backend :=
  let op := {| op_type := Read; len_ := len; data_ := []; dest_addr := None; ctx_ := ctx |} in
  try_complete_read fd (put_read fd op s).

Definition async_write_impl (fd : Z) (data : bytes) (ctx : nat) (s : backend) : backend :=
  let op := {| op_type := Write; len_ := 0; data_ := data; dest_addr := None; ctx_ := ctx |} in
  try_complete_write fd (put_write fd op s).

Definition async_recvfrom_impl (fd len : Z) (ctx : nat) (s : backend) : backend :=
  let op := {| op_type := RecvFrom; len_ := len; data_ := []; dest_addr := None; ctx_ := ctx |} in
  try_complete_read fd (put_read fd op s).

Definition async_sendto_impl (fd : Z) (data to : bytes) (ctx : nat) (s : backend) : backend :=
  let dest := if (0 <? len to) && (len to <=? 128) then Some to else None in
  let op := {| op_type := SendTo; len_ := 0; data_ := data; dest_addr := dest; ctx_ := ctx |} in
  try_complete_write fd (put_write fd op s).

(** An error of the [accept] tried at once is left for the event. *)
Definition async_accept_impl (fd : Z) (ctx : nat) (s : backend) : backend :=
  let op := pending_op Accept ctx in
  let '(r, s) := do_accept fd (put_read fd op s) in
  match r with
  | Some c =>
      if error_code_ c =? 0 then
        update_events fd 0 ((complete ctx c s) <| read_ops_ ::= delete fd |>)
      else s
  | None => s
  end.

Definition async_connect_impl (fd : Z) (addr : bytes) (ctx : nat) (s : backend) : backend :=
  let '(e, k) := sys_connect fd addr (kernel s) in
  let s := s <| kernel := k |> in
  if e =? 0 then complete ctx (completed 0 0) s
  else if negb (e =? EINPROGRESS) then complete ctx (completed (-1) e) s
  else put_write fd (pending_op Connect ctx) s.

(** [here]: the call comes from the thread that polls. *)
Definition async_wait_readable_impl (here : bool) (fd : Z) (ctx : nat) (s : backend) : backend :=
  if here && tl_in_poll_ s
  then s <| tl_deferred_waits_ ::= fun l => l ++ [{| dw_fd := fd; dw_ctx := ctx; readable := true |}] |>
  else put_read fd (pending_op WaitReadable ctx) s.

Definition async_wait_writable_impl (here : bool) (fd : Z) (ctx : nat) (s : backend) : backend :=
  if here && tl_in_poll_ s
  then s <| tl_deferred_waits_ ::= fun l => l ++ [{| dw_fd := fd; dw_ctx := ctx; readable := false |}] |>
  else put_write fd (pending_op WaitWritable ctx) s.

Definition process_deferred_wait (dw : DeferredWait) (s : backend) : backend :=
  if readable dw then put_read (dw_fd dw) (pending_op WaitReadable (dw_ctx dw)) s
  else put_write (dw_fd dw) (pending_op WaitWritable (dw_ctx dw)) s.

Definition process_deferred_waits (s : backend) : backend :=
  (foldl (fun s dw => process_deferred_wait dw s) s (tl_deferred_waits_ s))
    <| tl_deferred_waits_ := [] |>.

(** [register_impl] *)
Definition register_impl (fd : Z) (s : backend) : bool * backend :=
  let '(e, k) := set_nonblocking fd (kernel s) in
  if negb (e =? 0) then (false, s <| kernel := k |>) else
  let '(e, k) := epoll_ctl CTL_ADD fd 0 k in
  if negb (e =? 0) then (false, s <| kernel := k |>) else
  (true, s <| kernel := k |> <| fd_events_ ::= <[fd := 0]> |>).

(** [deregister_impl] *)
Definition deregister_impl (fd : Z) (s : backend) : backend :=
  s <| kernel := (epoll_ctl CTL_DEL fd 0 (kernel s)).2 |>
    <| read_ops_ ::= delete fd |> <| write_ops_ ::= delete fd |> <| fd_events_ ::= delete fd |>.

(** [wake_impl] *)
Definition wake_impl (s : backend) : backend :=
  if 0 <=? wake_fd_ s then s <| kernel ::= write_eventfd |> else s.

(** An awaiter: the context made for it and the call that submits it. *)
Inductive request :=
| AsyncRead (fd len : Z)
| AsyncWrite (fd : Z) (data : bytes)
| AsyncRecvFrom (fd len : Z)
| AsyncSendTo (fd : Z) (data to : bytes)
| AsyncAccept (fd : Z)
| AsyncConnect (fd : Z) (addr : bytes)
| AsyncWaitReadable (fd : Z)
| AsyncWaitWritable (fd : Z).

Definition submit_impl (here : bool) (r : request) (ctx : nat) (s : backend) : backend :=
  match r with
  | AsyncRead fd len => async_read_impl fd len ctx s
  | AsyncWrite fd data => async_write_impl fd data ctx s
  | AsyncRecvFrom fd len => async_recvfrom_impl fd len ctx s
  | AsyncSendTo fd data to => async_sendto_impl fd data to ctx s
  | AsyncAccept fd => async_accept_impl fd ctx s
  | AsyncConnect fd addr => async_connect_impl fd addr ctx s
  | AsyncWaitReadable fd => async_wait_readable_impl here fd ctx s
  | AsyncWaitWritable fd => async_wait_writable_impl here fd ctx s
  end.

(** [await_suspend] of the awaiters of sockets: whether the operation completed
    at once. *)
Definition await_operation (here : bool) (r : request) (co : handle F) (s : backend) : backend * bool :=
  let ctx := length (contexts s) in
  let s := s <| contexts ::= fun l => l ++ [{| handle_ := co; completed_ := None |}] |> in
  let s := submit_impl here r ctx s in
  (s, is_completed ctx s).

(** ** Polling *)

(** The operations completed in this call of [poll]: their contexts, and the
    entries to erase. *)
Record polling := { to_resume : list nat; erase_reads : list Z; erase_writes : list Z }.

Definition nothing : polling := {| to_resume := []; erase_reads := []; erase_writes := [] |}.

(** The read side of an event: the call the pending operation waits for. *)
Definition attempt_read (fd : Z) (op : PendingOp) (s : backend) : option completion * backend :=
  match op_type op with
  | Read | RecvFrom => do_read fd op s
  | Accept => do_accept fd s
  | WaitReadable => (Some (completed 0 0), s)
  | _ => (None, s)
  end.

Definition attempt_write (fd : Z) (op : PendingOp) (s : backend) : option completion * backend :=
  match op_type op with
  | Write | SendTo => do_write fd op s
  | Connect =>
      let err := so_error fd (kernel s) in
      (Some (completed (if err =? 0 then 0 else -1) err), s)
  | WaitWritable => (Some (completed 0 0), s)
  | _ => (None, s)
  end.

(** The masks are updated, except after [accept], while the operation is still
    in its table. *)
Definition handle_read (fd : Z) (sp : backend * polling) : backend * polling :=
  let '(s, p) := sp in
  match read_ops_ s !! fd with
  | None => (s, p)
  | Some op =>
      let '(r, s) := attempt_read fd op s in
      match r with
      | None => (s, p)
      | Some c =>
          let s := complete (ctx_ op) c s in
          let s := match op_type op with
                   | Accept => s
                   | _ => update_events fd (if count fd (write_ops_ s) then EPOLLOUT else 0) s
                   end in
          (s, {| to_resume := to_resume p ++ [ctx_ op]; erase_reads := erase_reads p ++ [fd];
                 erase_writes := erase_writes p |})
      end
  end.

Definition handle_write (fd : Z) (sp : backend * polling) : backend * polling :=
  let '(s, p) := sp in
  match write_ops_ s !! fd with
  | None => (s, p)
  | Some op =>
      let '(r, s) := attempt_write fd op s in
      match r with
      | None => (s, p)
      | Some c =>
          let s := complete (ctx_ op) c s in
          let s := update_events fd (if count fd (read_ops_ s) then EPOLLIN else 0) s in
          (s, {| to_resume := to_resume p ++ [ctx_ op]; erase_reads := erase_reads p;
                 erase_writes := erase_writes p ++ [fd] |})
      end
  end.

Definition has (revents mask : Z) : bool := negb (Z.land revents mask =? 0).

(** One event of [epoll_wait]. *)
Definition handle_event (sp : backend * polling) (ev : Z * Z) : backend * polling :=
  let '(fd, revents) := ev in
  if fd =? wake_fd_ sp.1 then (sp.1 <| kernel ::= read_eventfd |>, sp.2) else
  let sp := if has revents (Z.lor EPOLLIN (Z.lor EPOLLHUP EPOLLERR)) then handle_read fd sp else sp in
  if has revents (Z.lor EPOLLOUT (Z.lor EPOLLHUP EPOLLERR)) then handle_write fd sp else sp.

(** [epoll_wait] and the first critical section of [poll_impl] *)
Definition poll_events (timeout_ms : Z) (s : backend) : backend * polling :=
  let s := s <| tl_in_poll_ := true |> in
  let '(events, k) := epoll_wait timeout_ms (kernel s) in
  let s := process_deferred_waits (s <| kernel := k |>) in
  foldl handle_event (s, nothing) events.

(** Its second critical section *)
Definition erase_completed (p : polling) (s : backend) : backend :=
  s <| read_ops_ ::= fun m => foldr delete m (erase_reads p) |>
    <| write_ops_ ::= fun m => foldr delete m (erase_writes p) |>.

(** What follows the resumptions *)
Definition end_poll (s : backend) : backend :=
  (process_deferred_waits s) <| tl_in_poll_ := false |>.

Definition handles (p : polling) (s : backend) : list (handle F) :=
  omap (fun c => handle_ <$> contexts s !! c) (to_resume p).

(** [EpollBackend()], with the two descriptors made. *)
Definition EpollBackend (wake_fd : Z) (k : K) : backend := {|
  kernel := (epoll_ctl CTL_ADD wake_fd EPOLLIN k).2; wake_fd_ := wake_fd;
  read_ops_ := ∅; write_ops_ := ∅; fd_events_ := ∅; tl_deferred_waits_ := [];
  tl_in_poll_ := false; contexts := []
|}.

(** ** The backend in its loop

    One thread polls; others submit, register and close at any moment.
    [Erasing p]: the thread is in [poll_impl], between its two critical sections,
    with the operations [p] completed; [Resuming cs]: it is at the loop that
    resumes the contexts [cs]. *)

Inductive place := Idle | Erasing (p : polling) | Resuming (cs : list nat).

Record system := {
  epoll : backend;
  at_place : place;
  resumed : list nat;     (** history: the contexts resumed by [poll_impl] *)
  orphans : gset Z        (** history: the descriptors closed with a wait deferred *)
}.

Inductive event :=
| PollOnce (timeout : Z)
| EraseCompleted
| ResumeNext
| EndPoll
| Submit (here : bool) (r : request) (co : handle F)
| Register (fd : Z)
| Close (fd : Z)              (** [deregister_socket] and [close_socket] *)
| Environment (k : K).        (** what happens in the kernel meanwhile *)

Definition request_fd (r : request) : Z :=
  match r with
  | AsyncRead fd _ | AsyncWrite fd _ | AsyncRecvFrom fd _ | AsyncSendTo fd _ _ | AsyncAccept fd
  | AsyncConnect fd _ | AsyncWaitReadable fd | AsyncWaitWritable fd => fd
  end.

(** A descriptor the program has: open, and not the backend's own. *)
Definition usable (fd : Z) (s : backend) : Prop := is_open fd (kernel s) = true /\ fd <> wake_fd_ s.

(** A wait deferred on a descriptor that is closed *)
Definition orphaned (fd : Z) (s : backend) : gset Z :=
  if bool_decide (fd ∈ map dw_fd (tl_deferred_waits_ s)) then {[fd]} else ∅.

(** The polling thread is in its own code. *)
Definition runs_coroutines (pl : place) : Prop := match pl with Erasing _ => False | _ => True end.

Inductive step : event -> system -> system -> Prop :=
| step_poll t s p b h o :
    poll_events t s = (b, p) ->
    step (PollOnce t) {| epoll := s; at_place := Idle; resumed := h; orphans := o |}
      {| epoll := b; at_place := Erasing p; resumed := h; orphans := o |}
| step_erase s p h o :
    step EraseCompleted {| epoll := s; at_place := Erasing p; resumed := h; orphans := o |}
      {| epoll := erase_completed p s; at_place := Resuming (to_resume p); resumed := h; orphans := o |}
| step_resume s c cs h o :
    step ResumeNext {| epoll := s; at_place := Resuming (c :: cs); resumed := h; orphans := o |}
      {| epoll := s; at_place := Resuming cs; resumed := h ++ [c]; orphans := o |}
| step_end s h o :
    step EndPoll {| epoll := s; at_place := Resuming []; resumed := h; orphans := o |}
      {| epoll := end_poll s; at_place := Idle; resumed := h; orphans := o |}
| step_submit here r co s pl h o :
    usable (request_fd r) s -> (here = true -> runs_coroutines pl) ->
    step (Submit here r co) {| epoll := s; at_place := pl; resumed := h; orphans := o |}
      {| epoll := (await_operation here r co s).1; at_place := pl; resumed := h; orphans := o |}
| step_register fd s pl h o :
    usable fd s ->
    step (Register fd) {| epoll := s; at_place := pl; resumed := h; orphans := o |}
      {| epoll := (register_impl fd s).2; at_place := pl; resumed := h; orphans := o |}
| step_close fd s pl h o :
    usable fd s ->
    step (Close fd) {| epoll := s; at_place := pl; resumed := h; orphans := o |}
      {| epoll := (deregister_impl fd s) <| kernel ::= sys_close fd |>; at_place := pl; resumed := h;
         orphans := o ∪ orphaned fd s |}
| step_environment k s pl h o :
    interest k = interest (kernel s) ->
    (forall fd, is_open fd (kernel s) = true -> is_open fd k = true) ->
    step (Environment k) {| epoll := s; at_place := pl; resumed := h; orphans := o |}
      {| epoll := s <| kernel := k |>; at_place := pl; resumed := h; orphans := o |}.

Inductive reachable (wake_fd : Z) (k : K) : system -> Prop :=
| reach_init :
    reachable wake_fd k
      {| epoll := EpollBackend wake_fd k; at_place := Idle; resumed := []; orphans := ∅ |}
| reach_step e s s' : reachable wake_fd k s -> step e s s' -> reachable wake_fd k s'.

End Epoll.
