(* ===== verification/EpollFacts.v ===== *)
(** * The epoll backend: no operation is forgotten, none is resumed twice *)
From S2P Require Import Prelude IoContext Epoll.
From stdpp Require Import gmap options.

#[local] Open Scope Z_scope.
#[local] Open Scope net_scope.
#[local] Set Default Proof Using "Type*".

Section Facts.
Context {K F : Type} `{HK : Kernel K} `{HKK : !KernelKeeps K}.
Notation backend := (@backend K F).

(** ** The interest masks *)

Section Watched.
(** The descriptors closed while a wait was deferred on them; nothing is said of
    these. *)
Context (o : gset Z).

Definition owned (fd : Z) (s : backend) : Prop :=
  fd <> wake_fd_ s /\ (fd ∉ o -> is_open fd (kernel s) = true).

(** The kernel watches what the backend believes, and every pending operation,
    but those of the descriptor [x], is in the mask of its descriptor. *)
Record watched (x : option Z) (s : backend) : Prop := {
  w_sync fd : fd ∉ o -> fd <> wake_fd_ s -> fd_events_ s !! fd = interest (kernel s) !! fd;
  w_own : fd_events_ s !! wake_fd_ s = None;
  w_reads fd op : read_ops_ s !! fd = Some op -> owned fd s;
  w_writes fd op : write_ops_ s !! fd = Some op -> owned fd s;
  w_deferred dw : dw ∈ tl_deferred_waits_ s -> owned (dw_fd dw) s;
  w_cover_reads fd op : read_ops_ s !! fd = Some op -> fd ∉ o -> Some fd <> x ->
    exists m, fd_events_ s !! fd = Some m /\ has m EPOLLIN = true;
  w_cover_writes fd op : write_ops_ s !! fd = Some op -> fd ∉ o -> Some fd <> x ->
    exists m, fd_events_ s !! fd = Some m /\ has m EPOLLOUT = true
}.

Lemma usable_owned fd s : usable fd s -> owned fd s.
Proof. by intros [? ?]. Qed.

Lemma watched_weaken x s : watched None s -> watched x s.
Proof. intros [? ? ? ? ? Hr Hw]. constructor; try done; intros fd op H ? _; [eapply Hr|eapply Hw]; done. Qed.

Lemma watched_kernel x s k :
  interest k = interest (kernel s) ->
  (forall fd, is_open fd (kernel s) = true -> is_open fd k = true) ->
  watched x s -> watched x (s <| kernel := k |>).
Proof.
  intros Hi Ho []. unfold owned in *. constructor; unfold owned; cbn; try done.
  - intros fd. rewrite Hi. auto.
  - intros fd op [H ?]%w_reads0. auto.
  - intros fd op [H ?]%w_writes0. auto.
  - intros dw [H ?]%w_deferred0. auto.
Qed.

Lemma watched_keeps x s k : keeps (kernel s) k -> watched x s -> watched x (s <| kernel := k |>).
Proof. intros (Hi & _ & Ho). by apply watched_kernel. Qed.

Lemma watched_contexts x s f : watched x s -> watched x (s <| contexts ::= f |>).
Proof. by intros []. Qed.

Lemma watched_complete x c r s : watched x s -> watched x (complete c r s).
Proof. apply watched_contexts. Qed.

Lemma watched_in_poll x b s : watched x s -> watched x (s <| tl_in_poll_ := b |>).
Proof. by intros []. Qed.

Lemma watched_delete_read x fd s : watched x s -> watched x (s <| read_ops_ ::= delete fd |>).
Proof.
  intros []. constructor; cbn; try done; intros fd' op [_ H]%lookup_delete_Some; eauto.
Qed.

Lemma watched_delete_write x fd s : watched x s -> watched x (s <| write_ops_ ::= delete fd |>).
Proof.
  intros []. constructor; cbn; try done; intros fd' op [_ H]%lookup_delete_Some; eauto.
Qed.

Lemma watched_insert_read fd op s :
  owned fd s -> watched None s -> watched (Some fd) (s <| read_ops_ ::= <[fd := op]> |>).
Proof.
  intros Hu W. apply (watched_weaken (Some fd)) in W as []. constructor; cbn; try done.
  - intros fd' op' [[<- _]|[_ H]]%lookup_insert_Some; eauto.
  - intros fd' op' [[<- _]|[_ H]]%lookup_insert_Some; [done|eauto].
Qed.

Lemma watched_insert_write fd op s :
  owned fd s -> watched None s -> watched (Some fd) (s <| write_ops_ ::= <[fd := op]> |>).
Proof.
  intros Hu W. apply (watched_weaken (Some fd)) in W as []. constructor; cbn; try done.
  - intros fd' op' [[<- _]|[_ H]]%lookup_insert_Some; eauto.
  - intros fd' op' [[<- _]|[_ H]]%lookup_insert_Some; [done|eauto].
Qed.

(** [epoll_ctl] as [update_events] calls it: elsewhere, and on an open descriptor *)
Definition ctl_result (fd m : Z) (k : K) : K :=
  let r := epoll_ctl CTL_MOD fd m k in
  if r.1 =? ENOENT then (epoll_ctl CTL_ADD fd m r.2).2 else r.2.

Lemma ctl_elsewhere fd m k :
  (forall fd', fd' <> fd -> interest (ctl_result fd m k) !! fd' = interest k !! fd') /\
  forall fd', is_open fd' (ctl_result fd m k) = is_open fd' k.
Proof.
  unfold ctl_result. destruct (ctl_keeps CTL_MOD fd m k) as [_ Hm].
  destruct (ctl_keeps CTL_ADD fd m (epoll_ctl CTL_MOD fd m k).2) as [_ Ha]. split; intros fd'.
  - intros Hne. destruct (_ =? _); by rewrite !ctl_other.
  - destruct (_ =? _); by rewrite ?Ha, Hm.
Qed.

Lemma ctl_sets fd m k :
  is_open fd k = true -> interest (ctl_result fd m k) !! fd = Some m.
Proof.
  intros Ho. unfold ctl_result. destruct (ctl_keeps CTL_MOD fd m k) as [_ Hm].
  destruct (interest k !! fd) as [m'|] eqn:E.
  - destruct (ctl_mod fd m k m' Ho E) as [-> Hi]. cbn. by rewrite Hi, lookup_insert_eq.
  - destruct (ctl_mod_absent fd m k Ho E) as [-> Hi]. cbn.
    destruct (ctl_add fd m (epoll_ctl CTL_MOD fd m k).2) as [_ Hi']; [by rewrite Hm|by rewrite Hi|].
    by rewrite Hi', lookup_insert_eq.
Qed.

(** The mask [update_events] computes has the bits of the operations there. *)
Lemma watched_update fd ev s :
  owned fd s -> watched (Some fd) s -> watched None (update_events fd ev s).
Proof.
  intros [Hw Ho] [W1 W2 W3 W4 W5 W6 W7]. unfold update_events.
  set (m := if _ && _ then _ else _).
  assert (forall op, read_ops_ s !! fd = Some op -> has m EPOLLIN = true) as Hr.
  { intros op H. unfold m, count. rewrite H, bool_decide_eq_true_2 by done. by destruct (bool_decide _). }
  assert (forall op, write_ops_ s !! fd = Some op -> has m EPOLLOUT = true) as Hwr.
  { intros op H. unfold m, count. rewrite H, (bool_decide_eq_true_2 (is_Some (Some op))) by done.
    by destruct (bool_decide _). }
  clearbody m. case_bool_decide as E.
  - constructor; try done; intros fd' op H Hx _; destruct (decide (fd' = fd)) as [->|]; [eauto| |eauto|].
    + eapply W6; [done..|congruence].
    + eapply W7; [done..|congruence].
  - pose proof (ctl_elsewhere fd m (kernel s)) as [Hi Hop]. pose proof (ctl_sets fd m (kernel s)) as Hs.
    unfold ctl_result in *. destruct (epoll_ctl _ _ _ _) as [r k].
    cbn in Hi, Hop, Hs. set (k' := if r =? ENOENT then _ else _) in *. clearbody k'.
    unfold owned in *. constructor; unfold owned; cbn; try setoid_rewrite Hop; try done.
    + intros fd' Hx H. destruct (decide (fd' = fd)) as [->|]; [by rewrite lookup_insert_eq, Hs by auto|].
      rewrite lookup_insert_ne, Hi by done. auto.
    + by rewrite lookup_insert_ne.
    + intros fd' op H Hx _. destruct (decide (fd' = fd)) as [->|].
      * rewrite lookup_insert_eq. eauto.
      * rewrite lookup_insert_ne by done. eapply W6; [done..|congruence].
    + intros fd' op H Hx _. destruct (decide (fd' = fd)) as [->|].
      * rewrite lookup_insert_eq. eauto.
      * rewrite lookup_insert_ne by done. eapply W7; [done..|congruence].
Qed.
End Watched.

(** What the system calls and [update_events] leave alone. *)
Definition same_tables (s s' : backend) : Prop :=
  read_ops_ s' = read_ops_ s /\ write_ops_ s' = write_ops_ s /\
  tl_deferred_waits_ s' = tl_deferred_waits_ s /\ contexts s' = contexts s /\
  wake_fd_ s' = wake_fd_ s.

Lemma update_tables fd ev s : same_tables s (update_events fd ev s).
Proof.
  unfold update_events. cbn zeta. case_bool_decide; [done|]. by destruct (epoll_ctl _ _ _ _).
Qed.

Lemma do_read_tables fd op s : same_tables s (do_read fd op s).2.
Proof.
  unfold do_read. destruct (sys_read fd (len_ op) (kernel s)), (sys_recvfrom fd (len_ op) (kernel s)).
  by destruct (op_type op).
Qed.

Lemma do_write_tables fd op s : same_tables s (do_write fd op s).2.
Proof.
  unfold do_write. destruct (sys_write fd (data_ op) (kernel s)).
  destruct (op_type op), (dest_addr op) as [a|]; try done.
  by destruct (sys_sendto fd (data_ op) a (kernel s)).
Qed.

Lemma do_accept_tables fd s : same_tables s (do_accept fd s).2.
Proof. unfold do_accept. by destruct (sys_accept fd (kernel s)). Qed.

Section Watching.
Context (o : gset Z).
Notation owned := (owned o).

Lemma watched_put_read fd op s : owned fd s -> watched o None s -> watched o None (put_read fd op s).
Proof. intros Hu W. apply watched_update; [done|]. by apply watched_insert_read. Qed.

Lemma watched_put_write fd op s : owned fd s -> watched o None s -> watched o None (put_write fd op s).
Proof. intros Hu W. apply watched_update; [done|]. by apply watched_insert_write. Qed.

Lemma watched_do_read x fd op s : watched o x s -> watched o x (do_read fd op s).2.
Proof.
  intros W. unfold do_read. pose proof (keeps_read fd (len_ op) (kernel s)) as H1.
  pose proof (keeps_recvfrom fd (len_ op) (kernel s)) as H2.
  destruct (sys_read _ _ _), (sys_recvfrom _ _ _), (op_type op); by apply watched_keeps.
Qed.

Lemma watched_do_write x fd op s : watched o x s -> watched o x (do_write fd op s).2.
Proof.
  intros W. unfold do_write. pose proof (keeps_write fd (data_ op) (kernel s)) as H1.
  destruct (sys_write _ _ _) as [r k].
  destruct (op_type op), (dest_addr op) as [a|]; try by apply watched_keeps.
  pose proof (keeps_sendto fd (data_ op) a (kernel s)). destruct (sys_sendto _ _ _ _).
  by apply watched_keeps.
Qed.

Lemma keeps_trans (k1 k2 k3 : K) : keeps k1 k2 -> keeps k2 k3 -> keeps k1 k3.
Proof. intros (A & B & C) (A' & B' & C'). split_and!; [congruence|congruence|auto]. Qed.

Lemma watched_do_accept x fd s : watched o x s -> watched o x (do_accept fd s).2.
Proof.
  intros W. unfold do_accept. pose proof (keeps_accept fd (kernel s)) as H.
  destruct (sys_accept fd (kernel s)) as [r k]. apply watched_keeps; [|done].
  destruct r as [n| |e]; [|done..]. eapply keeps_trans; [exact H|]. apply keeps_nonblocking.
Qed.

Lemma watched_settle_read fd op c s :
  owned fd s -> watched o None s -> watched o None (settle_read fd op c s).
Proof.
  intros Hu W. apply watched_update; [done|]. apply watched_weaken, watched_delete_read.
  by apply watched_complete.
Qed.

Lemma watched_settle_write fd op c s :
  owned fd s -> watched o None s -> watched o None (settle_write fd op c s).
Proof.
  intros Hu W. apply watched_update; [done|]. apply watched_weaken, watched_delete_write.
  by apply watched_complete.
Qed.

Lemma watched_try_read fd s : watched o None s -> watched o None (try_complete_read fd s).
Proof.
  intros W. unfold try_complete_read. destruct (read_ops_ s !! fd) as [op|] eqn:E; [|done].
  pose proof (watched_do_read None fd op s W) as W'.
  pose proof (do_read_tables fd op s) as (E' & _).
  destruct (do_read fd op s) as [[c|] s']; [|done]. cbn in *. apply watched_settle_read; [|done].
  apply (w_reads _ _ _ W' fd op). by rewrite E'.
Qed.

Lemma watched_try_write fd s : watched o None s -> watched o None (try_complete_write fd s).
Proof.
  intros W. unfold try_complete_write. destruct (write_ops_ s !! fd) as [op|] eqn:E; [|done].
  pose proof (watched_do_write None fd op s W) as W'.
  pose proof (do_write_tables fd op s) as (_ & E' & _).
  destruct (do_write fd op s) as [[c|] s']; [|done]. cbn in *. apply watched_settle_write; [|done].
  apply (w_writes _ _ _ W' fd op). by rewrite E'.
Qed.

Lemma watched_accept fd ctx s :
  owned fd s -> watched o None s -> watched o None (async_accept_impl fd ctx s).
Proof.
  intros Hu W. apply (watched_put_read fd (pending_op Accept ctx)) in W; [|done].
  assert (read_ops_ (put_read fd (pending_op Accept ctx) s) !! fd = Some (pending_op Accept ctx)) as E.
  { unfold put_read. destruct (update_tables fd EPOLLIN (s <| read_ops_ ::= <[fd := pending_op Accept ctx]> |>)) as [-> _].
    apply lookup_insert_eq. }
  unfold async_accept_impl. generalize dependent (put_read fd (pending_op Accept ctx) s).
  intros s1 W E. apply (watched_do_accept _ fd) in W.
  destruct (do_accept_tables fd s1) as [Et _]. rewrite <- Et in E.
  destruct (do_accept fd s1) as [[c|] s2]; [|done]. cbn in W, E. destruct (error_code_ c =? 0); [|done].
  apply watched_update; [by apply (w_reads _ _ _ W) in E|].
  apply watched_weaken, watched_delete_read. by apply watched_complete.
Qed.

Lemma watched_connect fd addr ctx s :
  owned fd s -> watched o None s -> watched o None (async_connect_impl fd addr ctx s).
Proof.
  intros [Hw Ho] W. unfold async_connect_impl. pose proof (keeps_connect fd addr (kernel s)) as Hk.
  destruct (sys_connect fd addr (kernel s)) as [e k]. cbn in Hk. apply (watched_keeps _ _ _ _ Hk) in W.
  case_match; [by apply watched_complete|]. case_match; [by apply watched_complete|].
  apply watched_put_write; [|done]. destruct Hk as (_ & _ & Hk). split; [done|]. intros Hx. by apply Hk, Ho.
Qed.

Lemma watched_defer dw s :
  owned (dw_fd dw) s -> watched o None s ->
  watched o None (s <| tl_deferred_waits_ ::= fun l => l ++ [dw] |>).
Proof.
  intros Hu []. constructor; cbn; try done.
  intros dw' [H| ->%list_elem_of_singleton]%elem_of_app; [by apply w_deferred0|done].
Qed.

Lemma watched_submit here r ctx s :
  owned (request_fd r) s -> watched o None s -> watched o None (submit_impl here r ctx s).
Proof.
  intros Hu W. destruct r; cbn [submit_impl request_fd] in *.
  - by apply watched_try_read, watched_put_read.
  - by apply watched_try_write, watched_put_write.
  - by apply watched_try_read, watched_put_read.
  - by apply watched_try_write, watched_put_write.
  - by apply watched_accept.
  - by apply watched_connect.
  - unfold async_wait_readable_impl. case_match; [by apply watched_defer|by apply watched_put_read].
  - unfold async_wait_writable_impl. case_match; [by apply watched_defer|by apply watched_put_write].
Qed.

(** Descriptors stay owned. *)
Definition stays (s s' : backend) : Prop := forall fd, owned fd s -> owned fd s'.

Lemma update_stays fd ev s : stays s (update_events fd ev s).
Proof.
  intros fd' [Hw Ho]. unfold update_events. cbn zeta. case_bool_decide; [done|].
  set (m := if _ && _ then _ else _). clearbody m.
  destruct (ctl_keeps CTL_MOD fd m (kernel s)) as [_ H1].
  destruct (epoll_ctl CTL_MOD fd m (kernel s)) as [r k]. cbn in H1.
  destruct (ctl_keeps CTL_ADD fd m k) as [_ H2]. split; [done|]. intros Hx. cbn.
  destruct (r =? ENOENT); [rewrite H2, H1|rewrite H1]; by apply Ho.
Qed.

Lemma deferred_wait_ok dw s :
  owned (dw_fd dw) s -> watched o None s ->
  watched o None (process_deferred_wait dw s) /\ stays s (process_deferred_wait dw s).
Proof.
  intros Hu W. unfold process_deferred_wait. destruct (readable dw); split.
  - by apply watched_put_read.
  - intros fd H. by apply update_stays.
  - by apply watched_put_write.
  - intros fd H. by apply update_stays.
Qed.

Lemma watched_deferred s :
  watched o None s ->
  watched o None (process_deferred_waits s) /\ stays s (process_deferred_waits s).
Proof.
  intros W. unfold process_deferred_waits. pose proof (w_deferred _ _ _ W) as Hd.
  assert (forall l s, (forall dw, dw ∈ l -> owned (dw_fd dw) s) -> watched o None s ->
    watched o None (foldl (fun s dw => process_deferred_wait dw s) s l) /\
    stays s (foldl (fun s dw => process_deferred_wait dw s) s l)) as Hfold.
  { intros l. induction l as [|dw l IH]; intros s0 Hl W0; cbn; [by split; [|intros fd]|].
    destruct (deferred_wait_ok dw s0) as [W1 S1]; [apply Hl; by left|done|].
    destruct (IH _ (fun dw' H => S1 _ (Hl dw' (list_elem_of_further _ _ _ H))) W1) as [W2 S2].
    split; [done|]. intros fd H. by apply S2, S1. }
  destruct (Hfold _ _ Hd W) as [[] S]. split; [|done]. constructor; cbn; try done.
  by intros dw ?%elem_of_nil.
Qed.

Lemma watched_attempt_read x fd op s : watched o x s -> watched o x (attempt_read fd op s).2.
Proof.
  intros W. unfold attempt_read.
  destruct (op_type op); auto using watched_do_read, watched_do_accept.
Qed.

Lemma attempt_read_tables fd op s : same_tables s (attempt_read fd op s).2.
Proof. unfold attempt_read. destruct (op_type op); try done; apply do_read_tables || apply do_accept_tables. Qed.

Lemma watched_attempt_write x fd op s : watched o x s -> watched o x (attempt_write fd op s).2.
Proof. intros W. unfold attempt_write. destruct (op_type op); auto using watched_do_write. Qed.

Lemma attempt_write_tables fd op s : same_tables s (attempt_write fd op s).2.
Proof. unfold attempt_write. destruct (op_type op); try done; apply do_write_tables. Qed.

Lemma watched_handle_read fd sp : watched o None sp.1 -> watched o None (handle_read fd sp).1.
Proof.
  destruct sp as [s p]. intros W. unfold handle_read.
  destruct (read_ops_ s !! fd) as [op|] eqn:E; [|done].
  pose proof (watched_attempt_read None fd op s W) as W'.
  destruct (attempt_read_tables fd op s) as [Et _]. destruct (attempt_read fd op s) as [[c|] s1]; [|done].
  cbn in W', Et |- *. apply (watched_complete _ _ (ctx_ op) c) in W'.
  assert (owned fd (complete (ctx_ op) c s1)).
  { apply (w_reads _ _ _ W' fd op). cbn. by rewrite Et. }
  destruct (op_type op); try done; by apply watched_update, watched_weaken.
Qed.

Lemma watched_handle_write fd sp : watched o None sp.1 -> watched o None (handle_write fd sp).1.
Proof.
  destruct sp as [s p]. intros W. unfold handle_write.
  destruct (write_ops_ s !! fd) as [op|] eqn:E; [|done].
  pose proof (watched_attempt_write None fd op s W) as W'.
  destruct (attempt_write_tables fd op s) as (_ & Et & _).
  destruct (attempt_write fd op s) as [[c|] s1]; [|done].
  cbn in W', Et |- *. apply (watched_complete _ _ (ctx_ op) c) in W'.
  apply watched_update, watched_weaken; [|done].
  apply (w_writes _ _ _ W' fd op). cbn. by rewrite Et.
Qed.

Lemma watched_event sp ev : watched o None sp.1 -> watched o None (handle_event sp ev).1.
Proof.
  intros W. destruct ev as [fd revents]. unfold handle_event.
  destruct (fd =? wake_fd_ sp.1).
  - cbn. destruct (read_keeps (kernel sp.1)) as [Hi Ho].
    apply (watched_kernel _ None sp.1); [done|intros fd'; by rewrite Ho|done].
  - destruct (has revents _), (has revents _); auto using watched_handle_read, watched_handle_write.
Qed.

Lemma watched_events events sp : watched o None sp.1 -> watched o None (foldl handle_event sp events).1.
Proof. revert sp. induction events as [|ev events IH]; intros sp W; [done|]. cbn. by apply IH, watched_event. Qed.

Lemma watched_poll t s : watched o None s -> watched o None (poll_events t s).1.
Proof.
  intros W. unfold poll_events. apply (watched_in_poll _ _ true) in W.
  pose proof (keeps_wait t (kernel (s <| tl_in_poll_ := true |>))) as Hk.
  destruct (epoll_wait _ _) as [events k].
  destruct (watched_deferred _ (watched_keeps _ _ _ _ Hk W)) as [W' _]. by apply watched_events.
Qed.

Lemma watched_erase p s : watched o None s -> watched o None (erase_completed p s).
Proof.
  unfold erase_completed. destruct p as [cs rs ws]. cbn. intros W.
  assert (forall s, watched o None s -> watched o None (s <| read_ops_ ::= fun m => foldr delete m rs |>)) as Hr.
  { intros s0 W0. induction rs as [|fd rs IH]; cbn; [by destruct W0|].
    by apply (watched_delete_read _ None fd) in IH. }
  assert (forall s, watched o None s -> watched o None (s <| write_ops_ ::= fun m => foldr delete m ws |>)) as Hw.
  { intros s0 W0. induction ws as [|fd ws IH]; cbn; [by destruct W0|].
    by apply (watched_delete_write _ None fd) in IH. }
  by apply (Hw (s <| read_ops_ ::= fun m => foldr delete m rs |>)), Hr.
Qed.

Lemma watched_register fd s : usable fd s -> watched o None s -> watched o None (register_impl fd s).2.
Proof.
  intros [Ho Hw] W. unfold register_impl. pose proof (keeps_nonblocking fd (kernel s)) as Hk.
  destruct (set_nonblocking fd (kernel s)) as [e k]. cbn in Hk.
  apply (watched_keeps _ _ _ _ Hk) in W. destruct (negb (e =? 0)); [done|].
  destruct Hk as (Hi & _ & Hk). apply Hk in Ho. clear Hk Hi.
  destruct (ctl_keeps CTL_ADD fd 0 k) as [_ Hop].
  destruct (interest k !! fd) as [m|] eqn:E.
  - destruct (ctl_add_present fd 0 k m E) as [He Hi'].
    destruct (epoll_ctl CTL_ADD fd 0 k) as [e' k']. cbn in He, Hi', Hop.
    rewrite (proj2 (Z.eqb_neq e' 0) He). cbn.
    apply (watched_kernel _ _ _ k') in W; [done|done|]. intros fd'. cbn. by rewrite Hop.
  - destruct (ctl_add fd 0 k Ho E) as [He Hi'].
    destruct (epoll_ctl CTL_ADD fd 0 k) as [e' k']. cbn in He, Hi', Hop. rewrite He. cbn.
    destruct W as [W1 W2 W3 W4 W5 W6 W7]. unfold Facts.owned in *. cbn in *.
    assert (forall fd' op, fd' ∉ o -> read_ops_ s !! fd' = Some op \/ write_ops_ s !! fd' = Some op -> fd' <> fd) as Hne.
    { intros fd' op Hx [H|H] ->; [destruct (W6 _ _ H) as (m & Hm & _)|destruct (W7 _ _ H) as (m & Hm & _)];
        try done; rewrite W1, E in Hm by done; done. }
    constructor; unfold Facts.owned; cbn; try setoid_rewrite Hop; try done.
    + intros fd' Hx Hfd'. rewrite Hi'. destruct (decide (fd' = fd)) as [->|]; [by rewrite !lookup_insert_eq|].
      rewrite !lookup_insert_ne by done. auto.
    + by rewrite lookup_insert_ne.
    + intros fd' op H Hx _. rewrite lookup_insert_ne by (symmetry; eauto). eauto.
    + intros fd' op H Hx _. rewrite lookup_insert_ne by (symmetry; eauto). eauto.
Qed.
End Watching.

(** A wait that is deferred when its descriptor is closed is given up. *)
Lemma watched_close o fd s :
  usable fd s -> watched o None s ->
  watched (o ∪ orphaned fd s) None ((deregister_impl fd s) <| kernel ::= sys_close fd |>).
Proof.
  intros [Ho Hw] [W1 W2 W3 W4 W5 W6 W7]. unfold owned in *.
  destruct (ctl_keeps CTL_DEL fd 0 (kernel s)) as [_ Hop].
  pose proof (ctl_del fd 0 (kernel s)) as Hi. set (k := (epoll_ctl CTL_DEL fd 0 (kernel s)).2) in *.
  destruct (close_closes fd k) as (_ & Hi' & Hop').
  assert (forall fd', fd' <> fd -> is_open fd' (kernel s) = true -> is_open fd' (sys_close fd k) = true) as Hopen.
  { intros fd' Hne H. apply Hop'; [done|]. by rewrite Hop. }
  constructor; unfold owned, deregister_impl; cbn; fold k.
  - intros fd' [Hx _]%not_elem_of_union H. rewrite Hi', Hi.
    destruct (decide (fd' = fd)) as [->|]; [by rewrite !lookup_delete_eq|].
    rewrite !lookup_delete_ne by done. auto.
  - rewrite lookup_delete_ne by done. done.
  - intros fd' op [Hne H]%lookup_delete_Some. apply W3 in H as [? H]. split; [done|].
    intros [Hx _]%not_elem_of_union. auto.
  - intros fd' op [Hne H]%lookup_delete_Some. apply W4 in H as [? H]. split; [done|].
    intros [Hx _]%not_elem_of_union. auto.
  - intros dw H. destruct (W5 dw H) as [H2 H1]. split; [done|].
    intros [Hx Hor]%not_elem_of_union. apply Hopen; [|by apply H1].
    intros <-. apply Hor. unfold orphaned. rewrite bool_decide_true by (by apply list_elem_of_fmap_2).
    by apply elem_of_singleton.
  - intros fd' op [Hne H]%lookup_delete_Some [Hx _]%not_elem_of_union _. rewrite lookup_delete_ne by done. eauto.
  - intros fd' op [Hne H]%lookup_delete_Some [Hx _]%not_elem_of_union _. rewrite lookup_delete_ne by done. eauto.
Qed.

Lemma watched_step e (s s' : @system K F) :
  step e s s' -> watched (orphans s) None (epoll s) -> watched (orphans s') None (epoll s').
Proof.
  intros Hs W. destruct Hs as [t s p b h o Hp| | | |here r co s pl h o Hu| | |]; cbn in *; try done.
  - pose proof (watched_poll _ t s W) as W'. by rewrite Hp in W'.
  - by apply watched_erase.
  - unfold end_poll. apply watched_in_poll. by apply watched_deferred.
  - unfold await_operation. cbn. apply watched_submit; [by apply usable_owned|]. by apply watched_contexts.
  - by apply watched_register.
  - by apply watched_close.
  - by apply watched_kernel.
Qed.

Lemma watched_reachable wake_fd k (s : @system K F) :
  interest k = ∅ -> reachable wake_fd k s -> watched (orphans s) None (epoll s).
Proof.
  intros Hk Hr. induction Hr as [|e s1 s2 _ IH Hs]; [|by eapply watched_step].
  cbn. constructor; cbn; try done.
  - intros fd' _ H. by rewrite ctl_other, Hk by done.
  - by intros dw ?%elem_of_nil.
Qed.

(** ** Where operations wait *)

Definition slot (r : bool) (s : backend) : gmap Z PendingOp := if r then read_ops_ s else write_ops_ s.

(** The operation of the context [c] waits on the descriptor [fd], for input ([r])
    or output: in its table or deferred. *)
Definition waits_on (s : backend) (c : nat) (fd : Z) (r : bool) : Prop :=
  ctx_ <$> slot r s !! fd = Some c \/
  {| dw_fd := fd; dw_ctx := c; readable := r |} ∈ tl_deferred_waits_ s.

Definition input (q : request) : bool :=
  match q with AsyncRead _ _ | AsyncRecvFrom _ _ | AsyncAccept _ | AsyncWaitReadable _ => true | _ => false end.

Definition same_ops (s s' : backend) : Prop :=
  read_ops_ s' = read_ops_ s /\ write_ops_ s' = write_ops_ s /\ tl_deferred_waits_ s' = tl_deferred_waits_ s.

Lemma waits_same s s' c fd r : same_ops s s' -> waits_on s c fd r -> waits_on s' c fd r.
Proof. unfold waits_on, slot. by intros (-> & -> & ->). Qed.

Lemma tables_ops s s' : same_tables s s' -> same_ops s s'.
Proof. by intros (? & ? & ? & _). Qed.

Lemma ops_trans s1 s2 s3 : same_ops s1 s2 -> same_ops s2 s3 -> same_ops s1 s3.
Proof. unfold same_ops. intuition congruence. Qed.

Lemma waits_put_read fd op s c fd' r :
  ~ (fd' = fd /\ r = true) -> waits_on s c fd' r -> waits_on (put_read fd op s) c fd' r.
Proof.
  intros Hx H. eapply waits_same; [apply tables_ops, update_tables|]. destruct H as [H|H]; [left|by right].
  destruct r; cbn; [|done]. by rewrite lookup_insert_ne by naive_solver.
Qed.

Lemma waits_put_write fd op s c fd' r :
  ~ (fd' = fd /\ r = false) -> waits_on s c fd' r -> waits_on (put_write fd op s) c fd' r.
Proof.
  intros Hx H. eapply waits_same; [apply tables_ops, update_tables|]. destruct H as [H|H]; [left|by right].
  destruct r; cbn; [done|]. by rewrite lookup_insert_ne by naive_solver.
Qed.

Lemma waits_delete_read fd s c fd' r :
  ~ (fd' = fd /\ r = true) -> waits_on s c fd' r -> waits_on (s <| read_ops_ ::= delete fd |>) c fd' r.
Proof.
  intros Hx [H|H]; [left|by right]. destruct r; cbn; [|done]. by rewrite lookup_delete_ne by naive_solver.
Qed.

Lemma waits_delete_write fd s c fd' r :
  ~ (fd' = fd /\ r = false) -> waits_on s c fd' r -> waits_on (s <| write_ops_ ::= delete fd |>) c fd' r.
Proof.
  intros Hx [H|H]; [left|by right]. destruct r; cbn; [done|]. by rewrite lookup_delete_ne by naive_solver.
Qed.

Lemma waits_try_read fd s c fd' r :
  ~ (fd' = fd /\ r = true) -> waits_on s c fd' r -> waits_on (try_complete_read fd s) c fd' r.
Proof.
  intros Hx H. unfold try_complete_read. destruct (read_ops_ s !! fd) as [op|]; [|done].
  pose proof (waits_same _ _ c fd' r (tables_ops _ _ (do_read_tables fd op s)) H) as H1.
  destruct (do_read fd op s) as [[x|] s1]; [|done]. eapply waits_same; [apply tables_ops, update_tables|].
  by apply (waits_delete_read fd (complete (ctx_ op) x s1)).
Qed.

Lemma waits_try_write fd s c fd' r :
  ~ (fd' = fd /\ r = false) -> waits_on s c fd' r -> waits_on (try_complete_write fd s) c fd' r.
Proof.
  intros Hx H. unfold try_complete_write. destruct (write_ops_ s !! fd) as [op|]; [|done].
  pose proof (waits_same _ _ c fd' r (tables_ops _ _ (do_write_tables fd op s)) H) as H1.
  destruct (do_write fd op s) as [[x|] s1]; [|done]. eapply waits_same; [apply tables_ops, update_tables|].
  by apply (waits_delete_write fd (complete (ctx_ op) x s1)).
Qed.

Lemma waits_submit here q ctx s c fd r :
  ~ (fd = request_fd q /\ r = input q) -> waits_on s c fd r -> waits_on (submit_impl here q ctx s) c fd r.
Proof.
  intros Hx H. destruct q as [fd' n|fd' d|fd' n|fd' d a|fd'|fd' a|fd'|fd']; cbn [submit_impl request_fd input] in *.
  - by apply waits_try_read, waits_put_read.
  - by apply waits_try_write, waits_put_write.
  - by apply waits_try_read, waits_put_read.
  - by apply waits_try_write, waits_put_write.
  - unfold async_accept_impl. apply (waits_put_read fd' (pending_op Accept ctx)) in H; [|done].
    pose proof (do_accept_tables fd' (put_read fd' (pending_op Accept ctx) s)) as Ht%tables_ops.
    destruct (do_accept fd' _) as [[x|] s1]; cbn in Ht; apply (waits_same _ _ _ _ _ Ht) in H; [|done].
    destruct (_ =? 0); [|done]. eapply waits_same; [apply tables_ops, update_tables|].
    by apply (waits_delete_read fd' (complete ctx x s1)).
  - unfold async_connect_impl. destruct (sys_connect fd' a (kernel s)) as [e k].
    case_match; [done|]. case_match; [done|]. by apply waits_put_write.
  - unfold async_wait_readable_impl. case_match; [|by apply waits_put_read].
    destruct H as [H|H]; [by left|]. right. cbn. apply elem_of_app. by left.
  - unfold async_wait_writable_impl. case_match; [|by apply waits_put_write].
    destruct H as [H|H]; [by left|]. right. cbn. apply elem_of_app. by left.
Qed.

(** Deferred waits that are processed are found in their tables, unless there is
    another of the same side. *)
Lemma process_wait_slot dw r s :
  slot r (process_deferred_wait dw s) =
  if Bool.eqb (readable dw) r
  then <[dw_fd dw := pending_op (if r then WaitReadable else WaitWritable) (dw_ctx dw)]> (slot r s) else slot r s.
Proof.
  unfold process_deferred_wait, put_read, put_write, slot. destruct (readable dw), r; cbn [Bool.eqb].
  all: by match goal with |- context [update_events ?fd ?ev ?s] => destruct (update_tables fd ev s) as (E & E' & _) end;
    rewrite ?E, ?E'.
Qed.

Lemma process_waits_slot fd r c l s :
  ctx_ <$> slot r s !! fd = Some c \/ {| dw_fd := fd; dw_ctx := c; readable := r |} ∈ l ->
  (forall c', ctx_ <$> slot r s !! fd = Some c' -> c' = c) ->
  (forall c', {| dw_fd := fd; dw_ctx := c'; readable := r |} ∈ l -> c' = c) ->
  ctx_ <$> slot r (foldl (fun s dw => process_deferred_wait dw s) s l) !! fd = Some c.
Proof.
  revert s. induction l as [|[fd' c1 r'] l IH]; intros s H Ht Hl; cbn [foldl].
  { by destruct H as [H|?%elem_of_nil]. }
  assert (forall c', {| dw_fd := fd; dw_ctx := c'; readable := r |} ∈ l -> c' = c) as Hl'.
  { intros c' Hc'. apply Hl. by right. }
  destruct (decide (fd' = fd /\ r' = r)) as [[-> ->]|Hx].
  - assert (c1 = c) as -> by (apply Hl; by left).
    assert (slot r (process_deferred_wait {| dw_fd := fd; dw_ctx := c; readable := r |} s) !! fd =
      Some (pending_op (if r then WaitReadable else WaitWritable) c)) as E.
    { rewrite process_wait_slot. cbn. by rewrite Bool.eqb_reflx, lookup_insert_eq. }
    apply IH; rewrite ?E; [by left|by intros c' [= <-]|done].
  - assert (slot r (process_deferred_wait {| dw_fd := fd'; dw_ctx := c1; readable := r' |} s) !! fd = slot r s !! fd) as E.
    { rewrite process_wait_slot. cbn. destruct (Bool.eqb r' r) eqn:Er; [|done]. apply Bool.eqb_prop in Er as ->.
      by rewrite lookup_insert_ne by naive_solver. }
    apply IH; rewrite ?E; [|done..]. destruct H as [H|[Heq|H]%elem_of_cons]; [by left| |by right].
    injection Heq as <- <- <-. by destruct Hx.
Qed.

Lemma waits_deferred s c fd r :
  (forall c', waits_on s c' fd r -> c' = c) -> waits_on s c fd r ->
  waits_on (process_deferred_waits s) c fd r.
Proof.
  intros Hu H. left. change (slot r (process_deferred_waits s)) with
    (slot r (foldl (fun s dw => process_deferred_wait dw s) s (tl_deferred_waits_ s))).
  apply process_waits_slot; [exact H|intros c' Hc'; apply Hu; by left|intros c' Hc'; apply Hu; by right].
Qed.

Lemma handle_read_ops fd (sp : backend * polling) : same_ops sp.1 (handle_read fd sp).1.
Proof.
  destruct sp as [s p]. unfold handle_read. destruct (read_ops_ s !! fd) as [op|]; [|done].
  pose proof (tables_ops _ _ (attempt_read_tables fd op s)) as H.
  destruct (attempt_read fd op s) as [[c|] s1]; [|exact H]. eapply ops_trans; [exact H|]. cbn [fst].
  destruct (op_type op); (done || exact (tables_ops _ _ (update_tables fd _ (complete (ctx_ op) c s1)))).
Qed.

Lemma handle_write_ops fd (sp : backend * polling) : same_ops sp.1 (handle_write fd sp).1.
Proof.
  destruct sp as [s p]. unfold handle_write. destruct (write_ops_ s !! fd) as [op|]; [|done].
  pose proof (tables_ops _ _ (attempt_write_tables fd op s)) as H.
  destruct (attempt_write fd op s) as [[c|] s1]; [|exact H]. eapply ops_trans; [exact H|]. cbn [fst].
  exact (tables_ops _ _ (update_tables fd _ (complete (ctx_ op) c s1))).
Qed.

Lemma handle_event_ops ev (sp : backend * polling) : same_ops sp.1 (handle_event sp ev).1.
Proof.
  destruct ev as [fd revents]. unfold handle_event. destruct (fd =? _); [done|].
  destruct (has _ _), (has _ _); try done; try apply handle_read_ops; try apply handle_write_ops.
  eapply ops_trans; [apply handle_read_ops|apply handle_write_ops].
Qed.

Lemma handle_events_ops evs (sp : backend * polling) : same_ops sp.1 (foldl handle_event sp evs).1.
Proof.
  revert sp. induction evs as [|ev evs IH]; intros sp; [done|]. cbn.
  eapply ops_trans; [apply (handle_event_ops ev)|apply IH].
Qed.

Lemma waits_poll t s c fd r :
  (forall c', waits_on s c' fd r -> c' = c) -> waits_on s c fd r -> waits_on (poll_events t s).1 c fd r.
Proof.
  intros Hu H. unfold poll_events. destruct (epoll_wait _ _) as [evs k].
  eapply waits_same; [apply handle_events_ops|]. by apply waits_deferred.
Qed.

Lemma foldr_delete_notin fd l (m : gmap Z PendingOp) :
  fd ∉ l -> foldr delete m l !! fd = m !! fd.
Proof.
  induction l as [|x l IH]; [done|]. intros [Hne Hl]%not_elem_of_cons. cbn.
  rewrite lookup_delete_ne by done. auto.
Qed.

Definition erased (p : polling) (r : bool) : list Z := if r then erase_reads p else erase_writes p.

Lemma slot_erase p r (s : backend) : slot r (erase_completed p s) = foldr delete (slot r s) (erased p r).
Proof. by destruct r. Qed.

(** What takes an operation off its descriptor: another one for the same side, the
    close of the descriptor, and the end of a poll that has completed an operation
    of that side. *)
Definition displaces (e : @event K F) (s : @system K F) (c : nat) (fd : Z) (r : bool) : Prop :=
  match e with
  | Submit _ q _ => fd = request_fd q /\ r = input q
  | PollOnce _ | EndPoll => exists c', c' <> c /\ waits_on (epoll s) c' fd r
  | Close fd' => fd' = fd
  | EraseCompleted => match at_place s with Erasing p => fd ∈ erased p r | _ => False end
  | _ => False
  end.

Definition waiters (s : backend) (fd : Z) (r : bool) : list nat :=
  option_list (ctx_ <$> slot r s !! fd) ++
  omap (fun dw => if decide (dw_fd dw = fd /\ readable dw = r) then Some (dw_ctx dw) else None) (tl_deferred_waits_ s).

Lemma waiters_spec s fd r c : c ∈ waiters s fd r <-> waits_on s c fd r.
Proof.
  unfold waiters, waits_on. rewrite elem_of_app, list_elem_of_omap.
  assert (c ∈ option_list (ctx_ <$> slot r s !! fd) <-> ctx_ <$> slot r s !! fd = Some c) as ->.
  { destruct (ctx_ <$> slot r s !! fd); cbn; [rewrite list_elem_of_singleton; naive_solver|].
    rewrite elem_of_nil. naive_solver. }
  split; (intros [H|H]; [by left|right]).
  - destruct H as ([fd' c' r'] & Hin & Hc). cbn in Hc. case_decide as E; [|done]. destruct E as [-> ->].
    by injection Hc as ->.
  - eexists. split; [exact H|]. cbn. by rewrite decide_True.
Qed.

#[export] Instance displaces_dec (e : @event K F) (s : @system K F) c fd r : Decision (displaces e s c fd r).
Proof.
  assert (Decision (exists c', c' <> c /\ waits_on (epoll s) c' fd r)) as Hd.
  { refine (cast_if (decide (Exists (fun c' => c' <> c) (waiters (epoll s) fd r)))).
    - abstract (apply Exists_exists in e0 as (c' & Hin & Hc'); exists c'; by rewrite <- waiters_spec).
    - abstract (intros (c' & Hne & H%waiters_spec); apply n, Exists_exists; by exists c'). }
  destruct e; cbn [displaces]; try apply _. destruct (at_place s); apply _.
Defined.

Lemma waits_step e (s s'  : @system K F) c fd r :
  step e s s' -> waits_on (epoll s) c fd r -> ~ displaces e s c fd r -> waits_on (epoll s') c fd r.
Proof.
  intros Hs H Hd. destruct Hs as [t s p b h o Hp| | | |here q co s pl h o Hu| | |]; cbn in Hd, H |- *; try done.
  - change b with (b, p).1. rewrite <- Hp. apply waits_poll; [|done].
    intros c' Hc'. destruct (decide (c' = c)); [done|]. destruct Hd. by exists c'.
  - destruct H as [H|H]; [left|by right]. by rewrite slot_erase, foldr_delete_notin.
  - unfold end_poll. eapply waits_same; [|apply waits_deferred; [|exact H]]; [done|].
    intros c' Hc'. destruct (decide (c' = c)); [done|]. destruct Hd. by exists c'.
  - unfold await_operation. cbn. by apply waits_submit.
  - unfold register_impl. destruct (set_nonblocking fd0 (kernel s)) as [e1 k1]. destruct (negb _); [done|].
    destruct (epoll_ctl CTL_ADD fd0 0 k1) as [e2 k2]. by destruct (negb _).
  - unfold deregister_impl. apply (waits_same ((s <| read_ops_ ::= delete fd0 |>) <| write_ops_ ::= delete fd0 |>));
      [done|]. apply waits_delete_write; [naive_solver|]. apply waits_delete_read; [naive_solver|done].
Qed.

(** C22: What the backend forgets.  In every state it can reach, whatever threads
    submit and close meanwhile, also between the two critical sections of a poll: a
    descriptor with a pending read is in the interest list of the kernel for input,
    and one with a pending write for output, except descriptors that were closed
    while a wait on them was deferred.  And a step takes an operation off its
    descriptor, before or after it is done, only if it closes the descriptor, puts
    another operation for the same side there, or is the erasure at the end of a
    poll that has completed an operation of that side; an operation submitted
    between the two critical sections of that poll is erased with it. *)
Theorem epoll_forgets_nothing wake_fd k (s : @system K F) :
  interest k = ∅ -> reachable wake_fd k s ->
  (forall fd, fd ∉ orphans s ->
   (forall op, read_ops_ (epoll s) !! fd = Some op ->
    exists m, interest (kernel (epoll s)) !! fd = Some m /\ has m EPOLLIN = true) /\
   (forall op, write_ops_ (epoll s) !! fd = Some op ->
    exists m, interest (kernel (epoll s)) !! fd = Some m /\ has m EPOLLOUT = true)) /\
  forall e s' c fd r, step e s s' -> waits_on (epoll s) c fd r ->
    waits_on (epoll s') c fd r \/ displaces e s c fd r.
Proof.
  intros Hk Hr. destruct (watched_reachable _ _ _ Hk Hr) as [W1 _ W3 W4 _ W6 W7]. split.
  - intros fd Hx. split; intros op H.
    + destruct (W3 _ _ H) as [Hne _]. destruct (W6 _ _ H) as (m & Hm & Hb); [done..|].
      exists m. by rewrite <- W1.
    + destruct (W4 _ _ H) as [Hne _]. destruct (W7 _ _ H) as (m & Hm & Hb); [done..|].
      exists m. by rewrite <- W1.
  - intros e s' c fd r Hs H. destruct (decide (displaces e s c fd r)); [by right|left].
    by eapply waits_step.
Qed.

(** ** Each operation completes once *)

Definition ctxs (m : gmap Z PendingOp) : list nat := ctx_ ∘ snd <$> map_to_list m.

Definition in_tables (s : backend) : list nat := ctxs (read_ops_ s) ++ ctxs (write_ops_ s).

(** The contexts that wait, but for those of [R], which are done. *)
Definition waiting (R : list nat) (s : backend) : list nat :=
  filter (fun c => c ∉ R) (in_tables s ++ map dw_ctx (tl_deferred_waits_ s)).

Definition unsettled (s : backend) (c : nat) : Prop :=
  exists o, contexts s !! c = Some o /\ completed_ o = None.

Definition settled (s : backend) (c : nat) : Prop :=
  exists o x, contexts s !! c = Some o /\ completed_ o = Some x.

(** The contexts that wait, [ws], and those that were completed for a resumption,
    [ds]. *)
Record once (ws ds : list nat) (s : backend) : Prop := {
  o_nodup : NoDup (ws ++ ds);
  o_waiting : Forall (unsettled s) ws;
  o_settled : Forall (settled s) ds
}.

(** A completion is final. *)
Definition final (s s' : backend) : Prop :=
  forall c o x, contexts s !! c = Some o -> completed_ o = Some x -> contexts s' !! c = Some o.

Lemma final_trans s1 s2 s3 : final s1 s2 -> final s2 s3 -> final s1 s3.
Proof. intros A B c o x H1 H2. eauto. Qed.

Lemma final_same s s' : contexts s' = contexts s -> final s s'.
Proof. intros H c o x. by rewrite H. Qed.

Lemma once_same ws ds s s' : contexts s' = contexts s -> once ws ds s -> once ws ds s'.
Proof. intros H [A B C]. constructor; unfold unsettled, settled in *; rewrite ?H; done. Qed.

Lemma once_fewer ws ws' ds s : ws' ⊆+ ws -> once ws ds s -> once ws' ds s.
Proof.
  intros [k P]%submseteq_Permutation [A B C]. rewrite P in A, B. constructor; [| |done].
  - rewrite <- app_assoc in A. apply NoDup_app in A as (A1 & A2 & [_ [_ A3]]%NoDup_app).
    apply NoDup_app. split_and!; [done| |done]. intros c Hc Hd. apply (A2 c Hc).
    apply elem_of_app. by right.
  - by apply Forall_app in B as [? _].
Qed.

Lemma once_complete c ws ds r s :
  once (c :: ws) ds s -> once ws (c :: ds) (complete c r s) /\ final s (complete c r s).
Proof.
  intros [A B C]. apply Forall_cons in B as [(o & Ho & Hc) B].
  assert ((c ∉ ws) /\ (c ∉ ds)) as [Hw Hd] by (apply NoDup_cons in A as [A _]; set_solver).
  split; [constructor|].
  - rewrite <- Permutation_middle. done.
  - apply Forall_forall. intros c' Hin. eapply Forall_forall in B as (o' & Ho' & Hc'); [|done].
    exists o'. cbn. rewrite list_lookup_alter_ne by (intros ->; done). done.
  - apply Forall_cons. split.
    + eexists _, r. cbn. rewrite list_lookup_alter_eq, Ho. done.
    + apply Forall_forall. intros c' Hin. eapply Forall_forall in C as (o' & x & Ho' & Hc'); [|done].
      exists o', x. cbn. rewrite list_lookup_alter_ne by (intros ->; done). done.
  - intros c' o' x Ho' Hc'. cbn. rewrite list_lookup_alter_ne; [done|]. intros ->. congruence.
Qed.

Lemma ctxs_insert fd op m : ctxs (<[fd := op]> m) ≡ₚ ctx_ op :: ctxs (delete fd m).
Proof. unfold ctxs. rewrite <- insert_delete_eq, map_to_list_insert by apply lookup_delete_eq. done. Qed.

Lemma ctxs_delete fd op m : m !! fd = Some op -> ctxs m ≡ₚ ctx_ op :: ctxs (delete fd m).
Proof. intros H. rewrite <- ctxs_insert. by rewrite insert_id. Qed.

Lemma ctxs_delete_fewer fd m : ctxs (delete fd m) ⊆+ ctxs m.
Proof.
  destruct (m !! fd) as [op|] eqn:E.
  - rewrite (ctxs_delete fd op m E). by apply submseteq_cons.
  - by rewrite delete_id.
Qed.

Lemma filter_fewer (P : nat -> Prop) `{!forall c, Decision (P c)} l k : l ⊆+ k -> filter P l ⊆+ filter P k.
Proof.
  intros [k' E]%submseteq_Permutation. rewrite E, filter_app. apply submseteq_inserts_r. done.
Qed.

Section Waiting.
Context (R : list nat).
Notation waiting := (waiting R).

(** The new operation [c] and the others are settled as far as the backend can. *)
Definition kept (ds : list nat) (c : nat) (s s' : backend) : Prop :=
  c ∉ R -> once (c :: waiting s) ds s -> once (waiting s') ds s' /\ final s s'.

Lemma waiting_more c s s' :
  c ∉ R -> in_tables s' ++ map dw_ctx (tl_deferred_waits_ s') ⊆+
    c :: in_tables s ++ map dw_ctx (tl_deferred_waits_ s) ->
  waiting s' ⊆+ c :: waiting s.
Proof.
  intros Hc H. unfold Facts.waiting. rewrite <- (filter_cons_True (fun c => c ∉ R) c) by done. by apply filter_fewer.
Qed.

Lemma waiting_done c s s' :
  c ∉ R -> in_tables s ++ map dw_ctx (tl_deferred_waits_ s) ≡ₚ
    c :: in_tables s' ++ map dw_ctx (tl_deferred_waits_ s') ->
  waiting s ≡ₚ c :: waiting s'.
Proof. intros Hc H. unfold Facts.waiting. rewrite H. by rewrite filter_cons_True. Qed.

Lemma put_read_tables fd op s :
  contexts (put_read fd op s) = contexts s /\
  read_ops_ (put_read fd op s) = <[fd := op]> (read_ops_ s) /\
  tl_deferred_waits_ (put_read fd op s) = tl_deferred_waits_ s /\
  in_tables (put_read fd op s) ⊆+ ctx_ op :: in_tables s.
Proof.
  unfold put_read, in_tables.
  destruct (update_tables fd EPOLLIN (s <| read_ops_ ::= <[fd := op]> |>)) as (-> & -> & -> & -> & _).
  split_and!; [done..|]. cbn. rewrite ctxs_insert. apply submseteq_skip, submseteq_skips_r.
  apply ctxs_delete_fewer.
Qed.

Lemma put_write_tables fd op s :
  contexts (put_write fd op s) = contexts s /\
  write_ops_ (put_write fd op s) = <[fd := op]> (write_ops_ s) /\
  tl_deferred_waits_ (put_write fd op s) = tl_deferred_waits_ s /\
  in_tables (put_write fd op s) ⊆+ ctx_ op :: in_tables s.
Proof.
  unfold put_write, in_tables.
  destruct (update_tables fd EPOLLOUT (s <| write_ops_ ::= <[fd := op]> |>)) as (-> & -> & -> & -> & _).
  split_and!; [done..|]. cbn. rewrite ctxs_insert, <- Permutation_middle.
  apply submseteq_skip, submseteq_skips_l, ctxs_delete_fewer.
Qed.

Lemma put_read_once fd op ds s : kept ds (ctx_ op) s (put_read fd op s).
Proof.
  intros HR O. destruct (put_read_tables fd op s) as (Hc & _ & Hd & Hw). split; [|by apply final_same].
  apply (once_same _ _ s); [done|]. eapply once_fewer; [|exact O]. apply waiting_more; [done|]. rewrite Hd.
  by apply (submseteq_skips_r _ _ (_ :: _)).
Qed.

Lemma put_write_once fd op ds s : kept ds (ctx_ op) s (put_write fd op s).
Proof.
  intros HR O. destruct (put_write_tables fd op s) as (Hc & _ & Hd & Hw). split; [|by apply final_same].
  apply (once_same _ _ s); [done|]. eapply once_fewer; [|exact O]. apply waiting_more; [done|]. rewrite Hd.
  by apply (submseteq_skips_r _ _ (_ :: _)).
Qed.

Lemma same_tables_waiting s s' : same_tables s s' -> waiting s' = waiting s /\ contexts s' = contexts s.
Proof. intros (A & B & C & D & _). unfold Facts.waiting, in_tables. by rewrite A, B, C. Qed.

(** The context [c] is completed and leaves the tables; in the second form its
    coroutine is to be resumed. *)
Lemma once_done c r ds s s' :
  contexts s' = contexts (complete c r s) -> waiting s ≡ₚ c :: waiting s' ->
  once (waiting s) ds s ->
  once (waiting s') ds s' /\ once (waiting s') (c :: ds) s' /\ final s s'.
Proof.
  intros Hc P O. apply (once_fewer _ (c :: waiting s')) in O; [|by rewrite P].
  apply (once_complete _ _ _ r) in O as [O Hf].
  assert (once (waiting s') (c :: ds) s') as O' by (by apply (once_same _ _ (complete c r s))).
  split_and!; [|done|].
  - destruct O' as [A B C]. constructor; [|done|by apply Forall_cons in C as [_ ?]].
    rewrite <- Permutation_middle in A. by apply NoDup_cons in A as [_ ?].
  - eapply final_trans; [exact Hf|]. by apply final_same.
Qed.

(** An operation that is done leaves its table. *)
Lemma settle_read_once fd op c ds s :
  read_ops_ s !! fd = Some op -> ctx_ op ∉ R -> once (waiting s) ds s ->
  once (waiting (settle_read fd op c s)) ds (settle_read fd op c s) /\
  final s (settle_read fd op c s).
Proof.
  intros E HR O. unfold settle_read. cbn zeta.
  set (s1 := (complete (ctx_ op) c s) <| read_ops_ ::= delete fd |>). set (ev := if count _ _ then _ else _).
  destruct (same_tables_waiting _ _ (update_tables fd ev s1)) as [Hw Hc].
  destruct (once_done (ctx_ op) c ds s (update_events fd ev s1)) as (? & _ & ?); [done| |done|done].
  rewrite Hw. apply waiting_done; [done|]. unfold in_tables. subst s1. cbn. by rewrite (ctxs_delete fd op _ E).
Qed.

Lemma settle_write_once fd op c ds s :
  write_ops_ s !! fd = Some op -> ctx_ op ∉ R -> once (waiting s) ds s ->
  once (waiting (settle_write fd op c s)) ds (settle_write fd op c s) /\
  final s (settle_write fd op c s).
Proof.
  intros E HR O. unfold settle_write. cbn zeta.
  set (s1 := (complete (ctx_ op) c s) <| write_ops_ ::= delete fd |>). set (ev := if count _ _ then _ else _).
  destruct (same_tables_waiting _ _ (update_tables fd ev s1)) as [Hw Hc].
  destruct (once_done (ctx_ op) c ds s (update_events fd ev s1)) as (? & _ & ?); [done| |done|done].
  rewrite Hw. apply waiting_done; [done|]. unfold in_tables. subst s1. cbn. rewrite (ctxs_delete fd op _ E).
  by rewrite <- Permutation_middle.
Qed.

Lemma try_read_once fd ds s :
  (forall op, read_ops_ s !! fd = Some op -> ctx_ op ∉ R) -> once (waiting s) ds s ->
  once (waiting (try_complete_read fd s)) ds (try_complete_read fd s) /\ final s (try_complete_read fd s).
Proof.
  intros HR O. unfold try_complete_read.
  destruct (read_ops_ s !! fd) as [op|] eqn:E; [|by split; [|apply final_same]].
  pose proof (do_read_tables fd op s) as Ht. destruct (do_read fd op s) as [r s1]. cbn in Ht.
  destruct (same_tables_waiting _ _ Ht) as [Hw Hc].
  assert (once (waiting s1) ds s1) as O1 by (rewrite Hw; by apply (once_same _ _ s)).
  destruct r as [c|]; [|by split; [|apply final_same]].
  apply (settle_read_once fd op c) in O1 as [? Hf]; [|by destruct Ht as [-> _]|by apply HR]. split; [done|].
  eapply final_trans; [by apply final_same|exact Hf].
Qed.

Lemma try_write_once fd ds s :
  (forall op, write_ops_ s !! fd = Some op -> ctx_ op ∉ R) -> once (waiting s) ds s ->
  once (waiting (try_complete_write fd s)) ds (try_complete_write fd s) /\ final s (try_complete_write fd s).
Proof.
  intros HR O. unfold try_complete_write.
  destruct (write_ops_ s !! fd) as [op|] eqn:E; [|by split; [|apply final_same]].
  pose proof (do_write_tables fd op s) as Ht. destruct (do_write fd op s) as [r s1]. cbn in Ht.
  destruct (same_tables_waiting _ _ Ht) as [Hw Hc].
  assert (once (waiting s1) ds s1) as O1 by (rewrite Hw; by apply (once_same _ _ s)).
  destruct r as [c|]; [|by split; [|apply final_same]].
  apply (settle_write_once fd op c) in O1 as [? Hf]; [|by destruct Ht as (_ & -> & _)|by apply HR]. split; [done|].
  eapply final_trans; [by apply final_same|exact Hf].
Qed.

Lemma put_try_read fd op ds s : kept ds (ctx_ op) s (try_complete_read fd (put_read fd op s)).
Proof.
  intros HR [O Hf]%(put_read_once fd op); [|done]. apply (try_read_once fd) in O as [? ?].
  - split; [done|]. by eapply final_trans.
  - destruct (put_read_tables fd op s) as (_ & -> & _). rewrite lookup_insert_eq. by intros op' [= <-].
Qed.

Lemma put_try_write fd op ds s : kept ds (ctx_ op) s (try_complete_write fd (put_write fd op s)).
Proof.
  intros HR [O Hf]%(put_write_once fd op); [|done]. apply (try_write_once fd) in O as [? ?].
  - split; [done|]. by eapply final_trans.
  - destruct (put_write_tables fd op s) as (_ & -> & _). rewrite lookup_insert_eq. by intros op' [= <-].
Qed.

Lemma accept_once fd ctx ds s : kept ds ctx s (async_accept_impl fd ctx s).
Proof.
  intros HR O. destruct (put_read_tables fd (pending_op Accept ctx) s) as (_ & E & _).
  apply (put_read_once fd (pending_op Accept ctx)) in O as [O Hf]; [|done].
  unfold async_accept_impl. generalize dependent (put_read fd (pending_op Accept ctx) s). intros s1 O Hf E.
  pose proof (do_accept_tables fd s1) as Ht. destruct (do_accept fd s1) as [r s2]. cbn in Ht.
  destruct (same_tables_waiting _ _ Ht) as [Hw Hc].
  assert (once (waiting s2) ds s2) as O2 by (rewrite Hw; by apply (once_same _ _ s1)).
  assert (final s s2) as Hf2 by (eapply final_trans; [exact Hf|by apply final_same]).
  destruct r as [c|]; [|done]. destruct (error_code_ c =? 0); [|done].
  set (s3 := (complete ctx c s2) <| read_ops_ ::= delete fd |>).
  destruct (same_tables_waiting _ _ (update_tables fd 0 s3)) as [Hw3 Hc3].
  destruct (once_done ctx c ds s2 (update_events fd 0 s3)) as (? & _ & ?); [done| |done|].
  2: { split; [done|]. by eapply final_trans. }
  - rewrite Hw3. apply waiting_done; [done|]. unfold in_tables. subst s3. cbn.
    rewrite (ctxs_delete fd (pending_op Accept ctx)); [done|].
    destruct Ht as [-> _]. rewrite E. apply lookup_insert_eq.
Qed.

(** A new context completed without waiting. *)
Lemma complete_once c r ds s : kept ds c s (complete c r s).
Proof.
  intros _ O. apply (once_complete c _ _ r) in O as [[A B C] Hf]. split; [|done].
  constructor; [|done|by apply Forall_cons in C as [_ ?]].
  rewrite <- Permutation_middle in A. by apply NoDup_cons in A as [_ ?].
Qed.

Lemma connect_once fd addr ctx ds s : kept ds ctx s (async_connect_impl fd addr ctx s).
Proof.
  intros HR O. unfold async_connect_impl. destruct (sys_connect fd addr (kernel s)) as [e k].
  assert (once (ctx :: waiting (s <| kernel := k |>)) ds (s <| kernel := k |>)) as O1
    by (by apply (once_same _ _ s)).
  assert (final s (s <| kernel := k |>)) as Hf by (by apply final_same).
  case_match; [|case_match].
  - apply (complete_once _ (completed 0 0)) in O1 as [? ?]; [|done]. split; [done|by eapply final_trans].
  - apply (complete_once _ (completed (-1) e)) in O1 as [? ?]; [|done]. split; [done|by eapply final_trans].
  - apply (put_write_once fd (pending_op Connect ctx)) in O1 as [? ?]; [|done]. split; [done|by eapply final_trans].
Qed.

Lemma defer_once dw ds s : kept ds (dw_ctx dw) s (s <| tl_deferred_waits_ ::= fun l => l ++ [dw] |>).
Proof.
  intros HR O. split; [|by apply final_same]. apply (once_same _ _ s); [done|].
  eapply once_fewer; [|exact O]. apply waiting_more; [done|]. cbn. rewrite map_app, app_assoc. cbn.
  by rewrite (Permutation_app_comm _ [_]).
Qed.

Lemma submit_once here r ctx ds s : kept ds ctx s (submit_impl here r ctx s).
Proof.
  destruct r as [fd n|fd d|fd n|fd d a|fd|fd a|fd|fd]; cbn [submit_impl].
  - apply (put_try_read fd {| op_type := Read; len_ := n; data_ := []; dest_addr := None; ctx_ := ctx |}).
  - apply (put_try_write fd {| op_type := Write; len_ := 0; data_ := d; dest_addr := None; ctx_ := ctx |}).
  - apply (put_try_read fd {| op_type := RecvFrom; len_ := n; data_ := []; dest_addr := None; ctx_ := ctx |}).
  - unfold async_sendto_impl. set (dest := if _ && _ then _ else _).
    apply (put_try_write fd {| op_type := SendTo; len_ := 0; data_ := d; dest_addr := dest; ctx_ := ctx |}).
  - apply accept_once.
  - apply connect_once.
  - unfold async_wait_readable_impl. case_match.
    + apply (defer_once {| dw_fd := fd; dw_ctx := ctx; readable := true |}).
    + apply (put_read_once fd (pending_op WaitReadable ctx)).
  - unfold async_wait_writable_impl. case_match.
    + apply (defer_once {| dw_fd := fd; dw_ctx := ctx; readable := false |}).
    + apply (put_write_once fd (pending_op WaitWritable ctx)).
Qed.

Lemma await_once here r co ds s :
  (forall c, c ∈ R -> settled s c) -> once (waiting s) ds s ->
  once (waiting (await_operation here r co s).1) ds (await_operation here r co s).1 /\
  final s (await_operation here r co s).1.
Proof.
  intros HR [A B C]. unfold await_operation. cbn [fst].
  set (s1 := s <| contexts ::= fun l => l ++ [{| handle_ := co; completed_ := None |}] |>).
  assert (forall c o, contexts s !! c = Some o -> contexts s1 !! c = Some o) as Hold.
  { intros c o H. by apply lookup_app_l_Some. }
  assert (final s s1) as Hf by (intros c o x H _; auto).
  destruct (submit_once here r (length (contexts s)) ds s1) as [? Hf']; [| |split; [done|by eapply final_trans]].
  { intros (o & x & Ho & _)%HR. apply lookup_lt_Some in Ho. lia. }
  assert (forall c, c ∈ waiting s ++ ds -> (c < length (contexts s))%nat) as Hlt.
  { intros c [H|H]%elem_of_app.
    - eapply Forall_forall in B as (o & Ho & _); [|exact H]. by eapply lookup_lt_Some.
    - eapply Forall_forall in C as (o & x & Ho & _); [|exact H]. by eapply lookup_lt_Some. }
  constructor.
  - cbn. apply NoDup_cons. split; [|exact A]. intros H%Hlt. lia.
  - apply Forall_cons. split.
    + eexists. subst s1. cbn. by rewrite lookup_app_r, Nat.sub_diag by done.
    + eapply Forall_impl; [exact B|]. intros c (o & H & ?). exists o. auto.
  - eapply Forall_impl; [exact C|]. intros c (o & x & H & ?). exists o, x. auto.
Qed.

End Waiting.

Lemma waiting_nil s : waiting [] s = in_tables s ++ map dw_ctx (tl_deferred_waits_ s).
Proof.
  unfold waiting. induction (in_tables s ++ _) as [|c l IH]; [done|].
  rewrite filter_cons_True by apply not_elem_of_nil. by rewrite IH.
Qed.

Lemma process_wait_tables dw s :
  contexts (process_deferred_wait dw s) = contexts s /\
  in_tables (process_deferred_wait dw s) ⊆+ dw_ctx dw :: in_tables s.
Proof.
  unfold process_deferred_wait. destruct (readable dw).
  - destruct (put_read_tables (dw_fd dw) (pending_op WaitReadable (dw_ctx dw)) s) as (? & _ & _ & ?). done.
  - destruct (put_write_tables (dw_fd dw) (pending_op WaitWritable (dw_ctx dw)) s) as (? & _ & _ & ?). done.
Qed.

Lemma deferred_once ds s :
  once (waiting [] s) ds s ->
  once (waiting [] (process_deferred_waits s)) ds (process_deferred_waits s) /\
  final s (process_deferred_waits s).
Proof.
  rewrite !waiting_nil. intros O. unfold process_deferred_waits.
  assert (forall l s, once (map dw_ctx l ++ in_tables s) ds s ->
    let s' := foldl (fun s dw => process_deferred_wait dw s) s l in
    once (in_tables s') ds s' /\ final s s') as Hfold.
  { clear O. intros l. induction l as [|dw l IH]; intros s0 O0; cbn; [by split; [|apply final_same]|].
    destruct (process_wait_tables dw s0) as [Hc Ht]. destruct (IH (process_deferred_wait dw s0)) as [? ?].
    - apply (once_same _ _ s0); [done|]. eapply once_fewer; [|exact O0]. cbn.
      rewrite (Permutation_middle _ _ (dw_ctx dw)). by apply submseteq_skips_l.
    - split; [done|]. eapply final_trans; [|done]. by apply final_same. }
  destruct (Hfold (tl_deferred_waits_ s) s) as [O' Hf].
  - eapply once_fewer; [|exact O]. by rewrite (Permutation_app_comm (map _ _)).
  - split.
    + cbn. rewrite app_nil_r. eapply once_same; [|exact O']. done.
    + eapply final_trans; [exact Hf|]. by apply final_same.
Qed.

(** ** A call of [poll] *)

(** The contexts that wait once the entries of [p] are erased. *)
Definition live (sp : backend * polling) : list nat :=
  ctxs (foldr delete (read_ops_ sp.1) (erase_reads sp.2)) ++
  ctxs (foldr delete (write_ops_ sp.1) (erase_writes sp.2)) ++
  map dw_ctx (tl_deferred_waits_ sp.1).

Definition polled_once (ds : list nat) (sp : backend * polling) : Prop :=
  once (live sp) (to_resume sp.2 ++ ds) sp.1.

Lemma foldr_delete_snoc fd l (m : gmap Z PendingOp) :
  foldr delete m (l ++ [fd]) = delete fd (foldr delete m l).
Proof. induction l as [|x l IH]; [done|]. cbn. by rewrite IH, delete_delete. Qed.

(** The entry of [ctx] is handled: the context is completed and will be erased. *)
Lemma handled_once ctx c ds s p s' p' :
  contexts s' = contexts (complete ctx c s) -> to_resume p' = to_resume p ++ [ctx] ->
  live (s, p) ≡ₚ ctx :: live (s', p') ->
  polled_once ds (s, p) -> polled_once ds (s', p') /\ final s s'.
Proof.
  intros Hc Hp Hl O. unfold polled_once in *.
  apply (once_fewer _ (ctx :: live (s', p'))) in O; [|by rewrite Hl].
  apply (once_complete _ _ _ c) in O as [O Hf]. split.
  - apply (once_same _ _ _ s') in O; [|done]. cbn [snd fst] in *. rewrite Hp.
    destruct O as [A B C]. constructor; [|done|].
    + rewrite <- app_assoc. cbn. by rewrite <- Permutation_middle.
    + rewrite <- app_assoc. cbn. by rewrite <- Permutation_middle.
  - eapply final_trans; [exact Hf|]. by apply final_same.
Qed.

Lemma same_polled ds s s' p :
  same_tables s s' -> polled_once ds (s, p) -> polled_once ds (s', p) /\ final s s'.
Proof.
  intros (A & B & C & D & _) O. split; [|by apply final_same].
  unfold polled_once, live in *. cbn in *. rewrite A, B, C. by apply (once_same _ _ s).
Qed.

Lemma handle_read_once ds fd sp :
  fd ∉ erase_reads sp.2 -> polled_once ds sp ->
  polled_once ds (handle_read fd sp) /\ final sp.1 (handle_read fd sp).1 /\
  (forall fd', fd' <> fd -> fd' ∈ erase_reads (handle_read fd sp).2 -> fd' ∈ erase_reads sp.2) /\
  erase_writes (handle_read fd sp).2 = erase_writes sp.2 /\
  wake_fd_ (handle_read fd sp).1 = wake_fd_ sp.1.
Proof.
  destruct sp as [s p]. cbn [fst snd]. intros Hfd O. unfold handle_read.
  destruct (read_ops_ s !! fd) as [op|] eqn:E; [|by split_and!; [|apply final_same|..]].
  pose proof (attempt_read_tables fd op s) as Ht. destruct (attempt_read fd op s) as [r s1]. cbn in Ht.
  destruct (same_polled _ _ _ _ Ht O) as [O1 F1]. pose proof Ht as (Et & _ & _ & _ & Hw).
  destruct r as [c|]; [|by split_and!].
  set (s2 := complete (ctx_ op) c s1).
  set (s3 := match op_type op with Accept => s2 | _ => _ end).
  assert (same_tables s2 s3) as Ht3 by (unfold s3; destruct (op_type op); done || apply update_tables).
  set (p' := {| to_resume := _ |}).
  assert (polled_once ds (s3, p') /\ final s1 s3) as [O3 F3].
  { apply (handled_once (ctx_ op) c ds s1 p); [by destruct Ht3 as (_ & _ & _ & -> & _)|done| |done].
    unfold live. cbn. destruct Ht3 as (-> & -> & -> & _). cbn. rewrite foldr_delete_snoc.
    rewrite (ctxs_delete fd op (foldr delete (read_ops_ s1) (erase_reads p))); [done|].
    by rewrite foldr_delete_notin, Et. }
  cbn [fst snd]. split_and!; [done|by eapply final_trans| |done|].
  - cbn. intros fd' Hne. rewrite elem_of_app, list_elem_of_singleton. by intros [|].
  - destruct Ht3 as (_ & _ & _ & _ & ->). done.
Qed.

Lemma handle_write_once ds fd sp :
  fd ∉ erase_writes sp.2 -> polled_once ds sp ->
  polled_once ds (handle_write fd sp) /\ final sp.1 (handle_write fd sp).1 /\
  (forall fd', fd' <> fd -> fd' ∈ erase_writes (handle_write fd sp).2 -> fd' ∈ erase_writes sp.2) /\
  erase_reads (handle_write fd sp).2 = erase_reads sp.2 /\
  wake_fd_ (handle_write fd sp).1 = wake_fd_ sp.1.
Proof.
  destruct sp as [s p]. cbn [fst snd]. intros Hfd O. unfold handle_write.
  destruct (write_ops_ s !! fd) as [op|] eqn:E; [|by split_and!; [|apply final_same|..]].
  pose proof (attempt_write_tables fd op s) as Ht. destruct (attempt_write fd op s) as [r s1]. cbn in Ht.
  destruct (same_polled _ _ _ _ Ht O) as [O1 F1]. pose proof Ht as (_ & Et & _ & _ & Hw).
  destruct r as [c|]; [|by split_and!].
  set (s2 := complete (ctx_ op) c s1). set (ev := if count _ _ then _ else _).
  pose proof (update_tables fd ev s2) as Ht3. set (p' := {| to_resume := _ |}).
  assert (polled_once ds (update_events fd ev s2, p') /\ final s1 (update_events fd ev s2)) as [O3 F3].
  { apply (handled_once (ctx_ op) c ds s1 p); [by destruct Ht3 as (_ & _ & _ & -> & _)|done| |done].
    unfold live. cbn [fst snd]. destruct Ht3 as (-> & -> & -> & _). cbn. rewrite foldr_delete_snoc.
    rewrite (ctxs_delete fd op (foldr delete (write_ops_ s1) (erase_writes p))).
    - by rewrite <- app_comm_cons, <- Permutation_middle.
    - by rewrite foldr_delete_notin, Et. }
  cbn [fst snd]. split_and!; [done|by eapply final_trans| |done|].
  - cbn. intros fd' Hne. rewrite elem_of_app, list_elem_of_singleton. by intros [|].
  - destruct Ht3 as (_ & _ & _ & _ & ->). done.
Qed.

Lemma handle_event_once ds ev sp :
  ev.1 ∉ erase_reads sp.2 -> ev.1 ∉ erase_writes sp.2 -> polled_once ds sp ->
  polled_once ds (handle_event sp ev) /\ final sp.1 (handle_event sp ev).1 /\
  forall fd, fd <> ev.1 ->
    (fd ∈ erase_reads (handle_event sp ev).2 -> fd ∈ erase_reads sp.2) /\
    (fd ∈ erase_writes (handle_event sp ev).2 -> fd ∈ erase_writes sp.2).
Proof.
  destruct ev as [fd revents]. cbn [fst]. intros Hr Hw O. unfold handle_event.
  destruct (fd =? wake_fd_ sp.1); [destruct sp as [s p]; cbn [fst snd]; split_and!; [|by apply final_same|done]|].
  { unfold polled_once, live in *. cbn in *. by apply (once_same _ _ s). }
  set (sp1 := if has _ _ then handle_read fd sp else sp).
  assert (polled_once ds sp1 /\ final sp.1 sp1.1 /\
    (forall fd', fd' <> fd -> fd' ∈ erase_reads sp1.2 -> fd' ∈ erase_reads sp.2) /\
    erase_writes sp1.2 = erase_writes sp.2) as (O1 & F1 & R1 & W1).
  { unfold sp1. destruct (has _ _); [|by split_and!; [|apply final_same|..]].
    by destruct (handle_read_once ds fd sp Hr O) as (? & ? & ? & ? & _). }
  clearbody sp1. destruct (has _ _).
  - destruct (handle_write_once ds fd sp1) as (O2 & F2 & W2 & R2 & _); [by rewrite W1|done|].
    split_and!; [done|by eapply final_trans|]. intros fd' Hne. rewrite R2. split; [by apply R1|].
    intros H%W2; [by rewrite W1 in H|done].
  - split_and!; [done|done|]. intros fd' Hne. rewrite W1. split; [by apply R1|done].
Qed.

Lemma handle_events_once ds events sp :
  NoDup events.*1 -> (forall fd, fd ∈ events.*1 -> (fd ∉ erase_reads sp.2) /\ (fd ∉ erase_writes sp.2)) ->
  polled_once ds sp ->
  polled_once ds (foldl handle_event sp events) /\ final sp.1 (foldl handle_event sp events).1.
Proof.
  revert sp. induction events as [|ev events IH]; intros sp Hn Hd O; [by split; [|apply final_same]|].
  cbn in Hn, Hd |- *. apply NoDup_cons in Hn as [Hev Hn].
  destruct (Hd ev.1) as [Hr Hw]; [by left|].
  destruct (handle_event_once ds ev sp Hr Hw O) as (O1 & F1 & E1).
  destruct (IH (handle_event sp ev)) as [O2 F2]; [done| |done|].
  - intros fd Hfd. destruct (Hd fd) as [H1 H2]; [by right|].
    destruct (E1 fd) as [E2 E3]; [by intros ->|]. split; auto.
  - split; [done|by eapply final_trans].
Qed.

Lemma foldr_delete_Some fd op l (m : gmap Z PendingOp) :
  foldr delete m l !! fd = Some op -> m !! fd = Some op /\ fd ∉ l.
Proof.
  intros H. destruct (decide (fd ∈ l)) as [Hin|Hn]; [|by rewrite foldr_delete_notin in H].
  exfalso. revert H. induction l as [|x l IH]; [by apply elem_of_nil in Hin|]. cbn.
  intros [Hne H]%lookup_delete_Some. apply elem_of_cons in Hin as [->|Hin]; [done|by apply IH].
Qed.

Lemma ctxs_elem c m : c ∈ ctxs m <-> exists fd, ctx_ <$> m !! fd = Some c.
Proof.
  unfold ctxs. rewrite list_elem_of_fmap. split.
  - intros ([fd op] & -> & H%elem_of_map_to_list). exists fd. cbn in *. by rewrite H.
  - intros [fd H]. destruct (m !! fd) as [op|] eqn:E; [|done]. injection H as <-. exists (fd, op).
    split; [done|]. by apply elem_of_map_to_list.
Qed.

Lemma waiting_elem R s c :
  c ∈ waiting R s <-> c ∉ R /\ exists fd r, waits_on s c fd r.
Proof.
  unfold waiting, in_tables. rewrite list_elem_of_filter, !elem_of_app, !ctxs_elem. split; (intros [Hc H]; split; [done|]).
  - destruct H as [[[fd H]|[fd H]]|H]; [by exists fd, true; left|by exists fd, false; left|].
    apply list_elem_of_fmap in H as ([fd c1 r] & -> & H). exists fd, r. by right.
  - destruct H as (fd & r & [H|H]).
    + left. destruct r; [left|right]; by exists fd.
    + right. apply list_elem_of_fmap. eexists. by split; [|exact H].
Qed.

Lemma live_elem s p c :
  c ∈ live (s, p) <->
  (exists fd r, ctx_ <$> slot r s !! fd = Some c /\ fd ∉ erased p r) \/ c ∈ map dw_ctx (tl_deferred_waits_ s).
Proof.
  unfold live. cbn [fst snd]. rewrite !elem_of_app, !ctxs_elem.
  assert (forall (m : gmap Z PendingOp) l fd, ctx_ <$> foldr delete m l !! fd = Some c <->
    ctx_ <$> m !! fd = Some c /\ fd ∉ l) as Hd.
  { intros m l fd. split.
    - destruct (foldr delete m l !! fd) as [op|] eqn:E; [|done]. apply foldr_delete_Some in E as [-> Hn]. done.
    - intros [H Hn]. by rewrite foldr_delete_notin. }
  split.
  - intros [[fd H]|[[fd H]|H]]; [left; exists fd, true|left; exists fd, false|by right]; by apply Hd in H.
  - intros [(fd & [] & H)|H]; [left; exists fd; by apply Hd|right; left; exists fd; by apply Hd|by right; right].
Qed.

(** The entries to be erased are of operations to be resumed. *)
Definition erases_done (sp : backend * polling) : Prop :=
  forall r fd c, fd ∈ erased sp.2 r -> ctx_ <$> slot r sp.1 !! fd = Some c -> c ∈ to_resume sp.2.

Lemma handle_read_polling fd (s : backend) p :
  (handle_read fd (s, p)).2 = p \/
  exists op, read_ops_ s !! fd = Some op /\ (handle_read fd (s, p)).2 =
    {| to_resume := to_resume p ++ [ctx_ op]; erase_reads := erase_reads p ++ [fd]; erase_writes := erase_writes p |}.
Proof.
  unfold handle_read. destruct (read_ops_ s !! fd) as [op|]; [|by left].
  destruct (attempt_read fd op s) as [[c|] s1]; [|by left]. right. by exists op.
Qed.

Lemma handle_write_polling fd (s : backend) p :
  (handle_write fd (s, p)).2 = p \/
  exists op, write_ops_ s !! fd = Some op /\ (handle_write fd (s, p)).2 =
    {| to_resume := to_resume p ++ [ctx_ op]; erase_reads := erase_reads p; erase_writes := erase_writes p ++ [fd] |}.
Proof.
  unfold handle_write. destruct (write_ops_ s !! fd) as [op|]; [|by left].
  destruct (attempt_write fd op s) as [[c|] s1]; [|by left]. right. by exists op.
Qed.

Lemma same_slot r (s s' : backend) : same_ops s s' -> slot r s' = slot r s.
Proof. unfold slot. by intros (-> & -> & _). Qed.

Lemma handle_read_erases fd sp : erases_done sp -> erases_done (handle_read fd sp).
Proof.
  intros H r fd' c'. rewrite (same_slot r sp.1) by apply handle_read_ops. destruct sp as [s p]. cbn [fst].
  destruct (handle_read_polling fd s p) as [->|(op & E & ->)]; [apply (H r)|]. intros Hin Hs. apply elem_of_app.
  destruct r; cbn in Hin, Hs; [|left; by apply (H false fd' c')].
  apply elem_of_app in Hin as [Hin| ->%list_elem_of_singleton]; [left; by apply (H true fd' c')|right].
  rewrite E in Hs. injection Hs as <-. by left.
Qed.

Lemma handle_write_erases fd sp : erases_done sp -> erases_done (handle_write fd sp).
Proof.
  intros H r fd' c'. rewrite (same_slot r sp.1) by apply handle_write_ops. destruct sp as [s p]. cbn [fst].
  destruct (handle_write_polling fd s p) as [->|(op & E & ->)]; [apply (H r)|]. intros Hin Hs. apply elem_of_app.
  destruct r; cbn in Hin, Hs; [left; by apply (H true fd' c')|].
  apply elem_of_app in Hin as [Hin| ->%list_elem_of_singleton]; [left; by apply (H false fd' c')|right].
  rewrite E in Hs. injection Hs as <-. by left.
Qed.

Lemma handle_events_erases evs sp : erases_done sp -> erases_done (foldl handle_event sp evs).
Proof.
  revert sp. induction evs as [|[fd revents] evs IH]; intros sp H; [done|]. cbn [foldl]. apply IH.
  unfold handle_event. destruct (fd =? _); [exact H|].
  destruct (has _ _), (has _ _); auto using handle_read_erases, handle_write_erases.
Qed.

(** What is done in a poll waits only where it will be erased. *)
Definition spared (p : polling) (s : backend) : Prop :=
  (forall r fd c, ctx_ <$> slot r s !! fd = Some c -> c ∈ to_resume p -> fd ∈ erased p r) /\
  (forall dw, dw ∈ tl_deferred_waits_ s -> dw_ctx dw ∉ to_resume p).

Lemma poll_once ds t s b p :
  poll_events t s = (b, p) -> once (waiting [] s) ds s ->
  once (waiting (to_resume p) b) (to_resume p ++ ds) b /\ spared p b /\ final s b.
Proof.
  intros Hp O. unfold poll_events in Hp.
  pose proof (wait_distinct t (kernel (s <| tl_in_poll_ := true |>))) as Hn.
  destruct (epoll_wait t _) as [events k]. cbn [fst] in Hn.
  destruct (deferred_once ds (s <| tl_in_poll_ := true |> <| kernel := k |>)) as [O1 F1];
    [by apply (once_same _ _ s)|].
  set (s1 := process_deferred_waits _) in *.
  pose proof (handle_events_ops events (s1, nothing)) as Hops.
  pose proof (handle_events_erases events (s1, nothing)) as He.
  destruct (handle_events_once ds events (s1, nothing)) as [O2 F2].
  - done.
  - intros fd _. split; apply not_elem_of_nil.
  - unfold polled_once, live. cbn [fst snd foldr nothing to_resume erase_reads erase_writes app].
    rewrite waiting_nil in O1. unfold in_tables in O1. by rewrite <- app_assoc in O1.
  - rewrite Hp in O2, F2, Hops, He. cbn [fst] in F2, Hops. unfold polled_once in O2. cbn [fst snd] in O2.
    assert (erases_done (b, p)) as He' by (apply He; intros r fd c Hin; by destruct r; apply elem_of_nil in Hin).
    split; [|split].
    + eapply once_fewer; [|exact O2]. apply NoDup_submseteq.
      * unfold waiting, in_tables. destruct Hops as (-> & -> & ->). apply NoDup_filter.
        destruct O1 as [O1 _ _]. rewrite waiting_nil in O1. by apply NoDup_app in O1 as [O1 _].
      * intros c [Hc (fd & r & [H|H])]%waiting_elem; apply live_elem.
        -- left. exists fd, r. split; [done|]. intros Hin. apply Hc. by apply (He' r fd c).
        -- right. apply list_elem_of_fmap. eexists. by split; [|exact H].
    + destruct O2 as [O2 _ _]. apply NoDup_app in O2 as (_ & Hd & _). split.
      * intros r fd c H Hc. destruct (decide (fd ∈ erased p r)) as [|Hne]; [done|]. exfalso.
        apply (Hd c); [apply live_elem; left; by exists fd, r|by apply elem_of_app; left].
      * intros dw H Hc. apply (Hd (dw_ctx dw)); [apply live_elem; right; by apply list_elem_of_fmap_2|].
        by apply elem_of_app; left.
    + eapply final_trans; [by apply (final_same s (s <| tl_in_poll_ := true |> <| kernel := k |>))|].
      eapply final_trans; [exact F1|exact F2].
Qed.

Lemma waiting_spared R s : (forall c fd r, waits_on s c fd r -> c ∉ R) -> waiting R s = waiting [] s.
Proof.
  intros H. assert (forall l : list nat, (forall c, c ∈ l -> c ∉ R) -> filter (fun c => c ∉ R) l = l) as Hf.
  { induction l as [|c l IH]; intros Hl; [done|]. rewrite filter_cons_True by (apply Hl; by left).
    rewrite IH; [done|]. intros c' Hc'. apply Hl. by right. }
  rewrite waiting_nil. unfold waiting. apply Hf. intros c Hc.
  rewrite <- waiting_nil in Hc. apply waiting_elem in Hc as (_ & fd & r & Hw). by apply (H c fd r).
Qed.

Lemma ctxs_foldr_fewer l m : ctxs (foldr delete m l) ⊆+ ctxs m.
Proof. induction l as [|x l IH]; [done|]. cbn. etransitivity; [apply ctxs_delete_fewer|exact IH]. Qed.

Lemma erase_once p ds s :
  once (waiting (to_resume p) s) ds s -> spared p s ->
  once (waiting [] (erase_completed p s)) ds (erase_completed p s) /\ final s (erase_completed p s).
Proof.
  intros O [Hs Hd]. split; [|by apply final_same]. apply (once_same _ _ s); [done|].
  eapply once_fewer; [|exact O]. rewrite <- (waiting_spared (to_resume p)).
  - unfold waiting, in_tables. apply filter_fewer. cbn.
    apply submseteq_skips_r, submseteq_app; apply ctxs_foldr_fewer.
  - intros c fd r [H|H]; [|by apply Hd in H]. intros Hc. rewrite slot_erase in H.
    destruct (foldr delete (slot r s) (erased p r) !! fd) as [op|] eqn:E; [|done].
    apply foldr_delete_Some in E as [E Hn]. apply Hn, (Hs r fd c); [by rewrite E|done].
Qed.

(** The operations of [s'] are those of [s] and [c]. *)
Definition adds (c : nat) (s s' : backend) : Prop :=
  (forall r fd x, ctx_ <$> slot r s' !! fd = Some x -> x = c \/ ctx_ <$> slot r s !! fd = Some x) /\
  (forall dw, dw ∈ tl_deferred_waits_ s' -> dw_ctx dw = c \/ dw ∈ tl_deferred_waits_ s).

Lemma adds_trans c s1 s2 s3 : adds c s1 s2 -> adds c s2 s3 -> adds c s1 s3.
Proof. intros [A B] [A' B']. split; [intros r fd x [->|H]%A'|intros dw [H|H]%B']; auto. Qed.

Lemma adds_same c s s' : same_ops s s' -> adds c s s'.
Proof. intros (A & B & C). unfold adds, slot. rewrite A, B, C. split; by right. Qed.

Lemma adds_put_read c fd op s : ctx_ op = c -> adds c s (put_read fd op s).
Proof.
  intros <-. eapply adds_trans; [|apply adds_same, tables_ops, update_tables]. split; [|by right].
  intros r fd' x. destruct r; cbn; [|by right]. destruct (decide (fd' = fd)) as [->|Hne].
  - rewrite lookup_insert_eq. intros [= <-]. by left.
  - rewrite lookup_insert_ne by done. by right.
Qed.

Lemma adds_put_write c fd op s : ctx_ op = c -> adds c s (put_write fd op s).
Proof.
  intros <-. eapply adds_trans; [|apply adds_same, tables_ops, update_tables]. split; [|by right].
  intros r fd' x. destruct r; cbn; [by right|]. destruct (decide (fd' = fd)) as [->|Hne].
  - rewrite lookup_insert_eq. intros [= <-]. by left.
  - rewrite lookup_insert_ne by done. by right.
Qed.

Lemma lookup_delete_ctx (m : gmap Z PendingOp) fd fd' x :
  ctx_ <$> delete fd m !! fd' = Some x -> ctx_ <$> m !! fd' = Some x.
Proof.
  destruct (decide (fd' = fd)) as [->|Hne]; [by rewrite lookup_delete_eq|by rewrite lookup_delete_ne].
Qed.

Lemma adds_delete_read c fd s : adds c s (s <| read_ops_ ::= delete fd |>).
Proof. split; [|by right]. intros [] fd' x; cbn; [intros ?%lookup_delete_ctx|]; by right. Qed.

Lemma adds_delete_write c fd s : adds c s (s <| write_ops_ ::= delete fd |>).
Proof. split; [|by right]. intros [] fd' x; cbn; [|intros ?%lookup_delete_ctx]; by right. Qed.

Lemma adds_try_read c fd s : adds c s (try_complete_read fd s).
Proof.
  unfold try_complete_read. destruct (read_ops_ s !! fd) as [op|]; [|by apply adds_same].
  pose proof (adds_same c _ _ (tables_ops _ _ (do_read_tables fd op s))) as H.
  destruct (do_read fd op s) as [[x|] s1]; [|exact H]. eapply adds_trans; [exact H|].
  eapply adds_trans; [|apply adds_same, tables_ops, update_tables].
  exact (adds_delete_read c fd (complete (ctx_ op) x s1)).
Qed.

Lemma adds_try_write c fd s : adds c s (try_complete_write fd s).
Proof.
  unfold try_complete_write. destruct (write_ops_ s !! fd) as [op|]; [|by apply adds_same].
  pose proof (adds_same c _ _ (tables_ops _ _ (do_write_tables fd op s))) as H.
  destruct (do_write fd op s) as [[x|] s1]; [|exact H]. eapply adds_trans; [exact H|].
  eapply adds_trans; [|apply adds_same, tables_ops, update_tables].
  exact (adds_delete_write c fd (complete (ctx_ op) x s1)).
Qed.

Lemma adds_defer c dw s :
  dw_ctx dw = c -> adds c s (s <| tl_deferred_waits_ ::= fun l => l ++ [dw] |>).
Proof.
  intros <-. split; [by right|]. intros dw'. cbn.
  intros [H| ->%list_elem_of_singleton]%elem_of_app; [by right|by left].
Qed.

Lemma adds_submit here q c s : adds c s (submit_impl here q c s).
Proof.
  destruct q as [fd n|fd d|fd n|fd d a|fd|fd a|fd|fd]; cbn [submit_impl].
  1,3: by eapply adds_trans; [apply adds_put_read|apply adds_try_read].
  1,2: by eapply adds_trans; [apply adds_put_write|apply adds_try_write].
  - unfold async_accept_impl. eapply adds_trans; [by apply (adds_put_read c fd (pending_op Accept c))|].
    pose proof (adds_same c _ _ (tables_ops _ _ (do_accept_tables fd (put_read fd (pending_op Accept c) s)))) as H.
    destruct (do_accept fd _) as [[x|] s1]; [|exact H]. destruct (_ =? 0); [|exact H].
    eapply adds_trans; [exact H|]. eapply adds_trans; [|apply adds_same, tables_ops, update_tables].
    exact (adds_delete_read c fd (complete c x s1)).
  - unfold async_connect_impl. destruct (sys_connect fd a (kernel s)) as [e k].
    case_match; [by apply adds_same|]. case_match; [by apply adds_same|].
    eapply adds_trans; [by apply (adds_same c s (s <| kernel := k |>))|by apply adds_put_write].
  - unfold async_wait_readable_impl. case_match; [by apply adds_defer|by apply adds_put_read].
  - unfold async_wait_writable_impl. case_match; [by apply adds_defer|by apply adds_put_write].
Qed.

Lemma spared_adds p c s s' : c ∉ to_resume p -> adds c s s' -> spared p s -> spared p s'.
Proof.
  intros Hc [A B] [Hs Hd]. split.
  - intros r fd x [->|H]%A; [done|by apply Hs].
  - intros dw [->|H]%B; [done|by apply Hd].
Qed.

(** The contexts completed by [poll] and not yet resumed *)
Definition completing (s : @system K F) : list nat :=
  match at_place s with Erasing p => to_resume p | _ => [] end.

(** The contexts completed by [poll]: those to resume and those resumed. *)
Definition polled_contexts (s : @system K F) : list nat :=
  match at_place s with Erasing p => to_resume p | Resuming cs => cs | Idle => [] end ++ resumed s.

Record sound (s : @system K F) : Prop := {
  so_once : once (waiting (completing s) (epoll s)) (polled_contexts s) (epoll s);
  so_spared : match at_place s with Erasing p => spared p (epoll s) | _ => True end
}.

Lemma completing_settled (s : @system K F) c : sound s -> c ∈ completing s -> settled (epoll s) c.
Proof.
  intros [[_ _ C] _] Hc. rewrite Forall_forall in C. apply C. unfold polled_contexts, completing in *.
  destruct (at_place s); try by apply elem_of_nil in Hc. apply elem_of_app. by left.
Qed.

(** A step that leaves the place of the polling thread and adds one operation at most *)
Lemma sound_beside s s' c :
  at_place s' = at_place s -> resumed s' = resumed s -> c ∉ completing s -> adds c (epoll s) (epoll s') ->
  once (waiting (completing s) (epoll s')) (polled_contexts s) (epoll s') -> sound s -> sound s'.
Proof.
  intros Hp Hr Hc Ha O [_ Hs]. unfold completing, polled_contexts in *.
  split; unfold completing, polled_contexts; rewrite Hp, ?Hr; [done|].
  destruct (at_place s); [done| |done]. by eapply spared_adds.
Qed.

Lemma same_once ws ds s s' R :
  contexts s' = contexts s -> ws ⊆+ waiting R s -> once (waiting R s) ds s -> once ws ds s'.
Proof. intros Hc Hw O. apply (once_same _ _ s); [done|]. by eapply once_fewer. Qed.

Lemma fresh_completing (s : @system K F) : sound s -> length (contexts (epoll s)) ∉ completing s.
Proof. intros Hs (o & x & H & _)%completing_settled; [|done]. apply lookup_lt_Some in H. lia. Qed.

Lemma sound_step e (s s' : @system K F) : step e s s' -> sound s -> sound s' /\ final (epoll s) (epoll s').
Proof.
  intros Hst Hs. pose proof (fresh_completing _ Hs) as Hfresh. pose proof (completing_settled s) as Hset.
  destruct Hst as [t s p b h o Hp|s p h o|s c cs h o|s h o|here r co s pl h o Hu Hh|fd s pl h o Hu|fd s pl h o Hu|k s pl h o Hi Ho];
    pose proof (so_once _ Hs) as O.
  - destruct (poll_once h t s b p Hp O) as (O' & Hsp & F'). split; [by split|exact F'].
  - destruct (erase_once p (to_resume p ++ h) s O (so_spared _ Hs)) as [O' F']. split; [by split|exact F'].
  - split; [|by apply final_same]. split; [|done]. unfold polled_contexts, completing in *. cbn in *.
    destruct O as [A B C]. assert (c :: cs ++ h ≡ₚ cs ++ h ++ [c]) as P by (by rewrite app_assoc, <- Permutation_cons_append).
    rewrite P in A, C. done.
  - destruct (deferred_once h s O) as [O1 F1]. split; [|exact F1]. split; [|done].
    by apply (once_same _ _ (process_deferred_waits s)).
  - destruct (await_once (completing {| epoll := s; at_place := pl; resumed := h; orphans := o |}) here r co _ s
      (fun c => Hset c Hs) O) as [O' F']. split; [|exact F'].
    eapply (sound_beside _ _ _ _ _ Hfresh); [|exact O'|exact Hs].
    cbn [epoll]. unfold await_operation. cbn [fst]. eapply adds_trans; [|apply adds_submit]. by apply adds_same.
  - assert (same_ops s (register_impl fd s).2 /\ contexts (register_impl fd s).2 = contexts s) as [Hops Hc].
    { unfold register_impl. destruct (set_nonblocking fd (kernel s)) as [e1 k1]. destruct (negb _); [done|].
      destruct (epoll_ctl CTL_ADD fd 0 k1) as [e2 k2]. by destruct (negb _). }
    split; [|by apply final_same]. eapply (sound_beside _ _ _ _ _ Hfresh); [by apply adds_same| |exact Hs].
    apply (same_once _ _ s _ (completing {| epoll := s; at_place := pl; resumed := h; orphans := o |})); [exact Hc| |exact O].
    unfold waiting, in_tables. cbn [epoll]. destruct Hops as (-> & -> & ->). done.
  - split; [|by apply final_same].
    eapply (sound_beside _ _ (length (contexts s)) _ _ Hfresh); [| |exact Hs].
    + cbn [epoll]. eapply adds_trans; [apply (adds_delete_read _ fd)|]. eapply adds_trans; [apply (adds_delete_write _ fd)|].
      by apply adds_same.
    + eapply (same_once _ _ s); [done| |exact O]. unfold waiting, in_tables. apply filter_fewer. cbn.
      apply submseteq_skips_r, submseteq_app; apply ctxs_delete_fewer.
  - split; [|by apply final_same]. eapply (sound_beside _ _ _ _ _ Hfresh); [by apply adds_same| |exact Hs].
    by apply (once_same _ _ s).
  Unshelve. all: done.
Qed.


(** ** The backend of an event loop *)

(** What only [poll] and [wake] change. *)
Definition silent (s s' : backend) : Prop :=
  wake_fd_ s' = wake_fd_ s /\ eventfd (kernel s') = eventfd (kernel s).

Lemma silent_refl s : silent s s.
Proof. done. Qed.

Lemma silent_trans s1 s2 s3 : silent s1 s2 -> silent s2 s3 -> silent s1 s3.
Proof. intros [A B] [A' B']. split; congruence. Qed.

Lemma silent_from s0 s s' :
  wake_fd_ s0 = wake_fd_ s -> kernel s0 = kernel s -> silent s0 s' -> silent s s'.
Proof. unfold silent. by intros -> ->. Qed.

Lemma silent_keeps s s' : wake_fd_ s' = wake_fd_ s -> keeps (kernel s) (kernel s') -> silent s s'.
Proof. intros H (_ & ? & _). by split. Qed.

Lemma silent_update fd ev s : silent s (update_events fd ev s).
Proof.
  unfold update_events. cbn zeta. case_bool_decide; [done|]. set (m := if _ && _ then _ else _). clearbody m.
  destruct (ctl_keeps CTL_MOD fd m (kernel s)) as [H1 _].
  destruct (epoll_ctl CTL_MOD fd m (kernel s)) as [r k]. cbn in H1.
  destruct (ctl_keeps CTL_ADD fd m k) as [H2 _]. split; [done|]. cbn. destruct (r =? ENOENT); congruence.
Qed.

Lemma silent_put_read fd op s : silent s (put_read fd op s).
Proof. by apply (silent_from (s <| read_ops_ ::= <[fd := op]> |>)), silent_update. Qed.

Lemma silent_put_write fd op s : silent s (put_write fd op s).
Proof. by apply (silent_from (s <| write_ops_ ::= <[fd := op]> |>)), silent_update. Qed.

Lemma silent_do_read fd op s : silent s (do_read fd op s).2.
Proof.
  apply silent_keeps; [apply do_read_tables|]. unfold do_read.
  pose proof (keeps_read fd (len_ op) (kernel s)). pose proof (keeps_recvfrom fd (len_ op) (kernel s)).
  destruct (sys_read _ _ _), (sys_recvfrom _ _ _), (op_type op); done.
Qed.

Lemma silent_do_write fd op s : silent s (do_write fd op s).2.
Proof.
  apply silent_keeps; [apply do_write_tables|]. unfold do_write.
  pose proof (keeps_write fd (data_ op) (kernel s)). destruct (sys_write _ _ _).
  destruct (op_type op), (dest_addr op) as [a|]; try done.
  pose proof (keeps_sendto fd (data_ op) a (kernel s)). by destruct (sys_sendto _ _ _ _).
Qed.

Lemma silent_do_accept fd s : silent s (do_accept fd s).2.
Proof.
  apply silent_keeps; [apply do_accept_tables|]. unfold do_accept.
  pose proof (keeps_accept fd (kernel s)) as H. destruct (sys_accept fd (kernel s)) as [[n| |e] k]; try done.
  eapply keeps_trans; [exact H|]. apply keeps_nonblocking.
Qed.

Lemma silent_try_read fd s : silent s (try_complete_read fd s).
Proof.
  unfold try_complete_read. destruct (read_ops_ s !! fd) as [op|]; [|done].
  pose proof (silent_do_read fd op s) as Hq. destruct (do_read fd op s) as [[c|] s1]; [|done].
  eapply silent_trans; [exact Hq|]. unfold settle_read. cbn zeta.
  by apply (silent_from ((complete (ctx_ op) c s1) <| read_ops_ ::= delete fd |>)), silent_update.
Qed.

Lemma silent_try_write fd s : silent s (try_complete_write fd s).
Proof.
  unfold try_complete_write. destruct (write_ops_ s !! fd) as [op|]; [|done].
  pose proof (silent_do_write fd op s) as Hq. destruct (do_write fd op s) as [[c|] s1]; [|done].
  eapply silent_trans; [exact Hq|]. unfold settle_write. cbn zeta.
  by apply (silent_from ((complete (ctx_ op) c s1) <| write_ops_ ::= delete fd |>)), silent_update.
Qed.

Lemma silent_accept fd ctx s : silent s (async_accept_impl fd ctx s).
Proof.
  unfold async_accept_impl. pose proof (silent_put_read fd (pending_op Accept ctx) s) as Hq.
  pose proof (silent_do_accept fd (put_read fd (pending_op Accept ctx) s)) as Hq'.
  destruct (do_accept fd _) as [[c|] s1]; [|by eapply silent_trans].
  destruct (error_code_ c =? 0); [|by eapply silent_trans].
  eapply silent_trans; [exact Hq|]. eapply silent_trans; [exact Hq'|].
  by apply (silent_from ((complete ctx c s1) <| read_ops_ ::= delete fd |>)), silent_update.
Qed.

Lemma silent_submit here r ctx s : silent s (submit_impl here r ctx s).
Proof.
  destruct r as [fd n|fd d|fd n|fd d a|fd|fd a|fd|fd]; cbn [submit_impl].
  1,3: eapply silent_trans; [apply silent_put_read|apply silent_try_read].
  1,2: eapply silent_trans; [apply silent_put_write|apply silent_try_write].
  - apply silent_accept.
  - unfold async_connect_impl. pose proof (keeps_connect fd a (kernel s)) as Hk.
    destruct (sys_connect fd a (kernel s)) as [e k]. cbn in Hk.
    assert (silent s (s <| kernel := k |>)) as Hq by (by apply silent_keeps).
    case_match; [exact Hq|]. case_match; [exact Hq|]. eapply silent_trans; [exact Hq|apply silent_put_write].
  - unfold async_wait_readable_impl. case_match; [done|apply silent_put_read].
  - unfold async_wait_writable_impl. case_match; [done|apply silent_put_write].
Qed.

Lemma silent_deferred s : silent s (process_deferred_waits s).
Proof.
  unfold process_deferred_waits.
  assert (forall l s, silent s (foldl (fun s dw => process_deferred_wait dw s) s l)) as H.
  { intros l. induction l as [|dw l IH]; intros s0; [done|]. cbn. eapply silent_trans; [|apply IH].
    unfold process_deferred_wait. destruct (readable dw); [apply silent_put_read|apply silent_put_write]. }
  exact (H (tl_deferred_waits_ s) s).
Qed.

Lemma wake_fd_event (sp : backend * polling) ev : wake_fd_ (handle_event sp ev).1 = wake_fd_ sp.1.
Proof.
  destruct ev as [fd revents]. unfold handle_event. destruct (fd =? _); [done|].
  assert (forall sp : backend * polling, wake_fd_ (handle_read fd sp).1 = wake_fd_ sp.1) as Hr.
  { intros [s p]. unfold handle_read. destruct (read_ops_ s !! fd) as [op|]; [|done].
    pose proof (attempt_read_tables fd op s) as (_ & _ & _ & _ & Hw).
    destruct (attempt_read fd op s) as [[c|] s1]; [|done]. cbn in Hw |- *. rewrite <- Hw.
    destruct (op_type op); done || apply (update_tables fd _ (complete (ctx_ op) c s1)). }
  assert (forall sp : backend * polling, wake_fd_ (handle_write fd sp).1 = wake_fd_ sp.1) as Hw.
  { intros [s p]. unfold handle_write. destruct (write_ops_ s !! fd) as [op|]; [|done].
    pose proof (attempt_write_tables fd op s) as (_ & _ & _ & _ & Hw).
    destruct (attempt_write fd op s) as [[c|] s1]; [|done]. cbn in Hw |- *. rewrite <- Hw.
    apply (update_tables fd _ (complete (ctx_ op) c s1)). }
  destruct (has _ _), (has _ _); by rewrite ?Hw, ?Hr.
Qed.

Lemma wake_fd_poll t (s : backend) : wake_fd_ (poll_events t s).1 = wake_fd_ s.
Proof.
  unfold poll_events. destruct (epoll_wait _ _) as [events k].
  destruct (silent_deferred (s <| tl_in_poll_ := true |> <| kernel := k |>)) as [H _].
  assert (forall l (sp : backend * polling), wake_fd_ (foldl handle_event sp l).1 = wake_fd_ sp.1) as Hf.
  { intros l. induction l as [|ev l IH]; intros sp; [done|]. cbn. by rewrite IH, wake_fd_event. }
  by rewrite Hf.
Qed.

(** An epoll backend whose event descriptor was made. *)
Definition wakeable : Type := { b : backend | 0 <=? wake_fd_ b = true }.

Lemma wakeable_from (s s' : backend) :
  wake_fd_ s' = wake_fd_ s -> 0 <=? wake_fd_ s = true -> 0 <=? wake_fd_ s' = true.
Proof. by intros ->. Qed.

Definition epoll_poll (t : Z) (b : wakeable) : wakeable * list (handle F) :=
  let r := poll_events t (proj1_sig b) in
  (erase_completed r.2 r.1 ↾ wakeable_from (proj1_sig b) (erase_completed r.2 r.1)
     (wake_fd_poll t (proj1_sig b)) (proj2_sig b),
   handles r.2 r.1).

Lemma await_silent r co s : silent s (await_operation true r co s).1.
Proof.
  unfold await_operation. cbn [fst]. set (s1 := s <| contexts ::= _ |>).
  apply (silent_from s1); [done..|]. apply silent_submit.
Qed.

(** [EpollBackend] implements what the loop needs. *)
#[export] Program Instance epoll_backend : Backend wakeable (request * handle F) F := {|
  poll := epoll_poll;
  polled b := end_poll (proj1_sig b) ↾ wakeable_from (proj1_sig b) _
    (proj1 (silent_deferred (proj1_sig b))) (proj2_sig b);
  submit o b := ((await_operation true o.1 o.2 (proj1_sig b)).1 ↾ wakeable_from (proj1_sig b) _
    (proj1 (await_silent o.1 o.2 (proj1_sig b))) (proj2_sig b),
    (await_operation true o.1 o.2 (proj1_sig b)).2);
  wake b := wake_impl (proj1_sig b) ↾ _;
  awake b := eventfd (kernel (proj1_sig b))
|}.
Next Obligation. intros [b Hb]. unfold wake_impl. cbn. by rewrite Hb. Qed.
Next Obligation. intros [b Hb]. unfold wake_impl. cbn. rewrite Hb. apply write_eventfd_readable. Qed.
Next Obligation. intros [r co] [b Hb]. cbn. apply await_silent. Qed.
Next Obligation. intros [b Hb]. cbn. apply silent_deferred. Qed.

End Facts.

(** ** An execution

    A kernel whose sockets have data to read or not, and always take a write: the
    open descriptors, with what has arrived and the mask epoll has for them. *)
Record toy := { fds : gmap Z (bytes * option Z); event_ : bool }.
#[export] Instance toy_settable : Settable toy := fun k => Build_toy (fds k) (event_ k).

Definition toy_interest (k : toy) : gmap Z Z := omap snd (fds k).

Definition toy_open (fd : Z) (k : toy) : bool := bool_decide (is_Some (fds k !! fd)).

Definition toy_read (fd n : Z) (k : toy) : sysret bytes * toy :=
  match fds k !! fd with
  | None => (Errno 9, k)
  | Some ([], _) => (WouldBlock, k)
  | Some (d, m) => (Done (takeZ n d), k <| fds ::= <[fd := (dropZ n d, m)]> |>)
  end.

Definition toy_ctl (op : ctl) (fd ev : Z) (k : toy) : Z * toy :=
  match op, fds k !! fd with
  | _, None => (9, k)
  | CTL_DEL, Some (d, _) => (0, k <| fds ::= <[fd := (d, None)]> |>)
  | CTL_MOD, Some (d, None) => (ENOENT, k)
  | CTL_ADD, Some (d, Some _) => (17, k)
  | _, Some (d, _) => (0, k <| fds ::= <[fd := (d, Some ev)]> |>)
  end.

Definition toy_event (p : Z * (bytes * option Z)) : option (Z * Z) :=
  match p with
  | (fd, (d, Some m)) =>
      if has m EPOLLOUT then Some (fd, EPOLLOUT)
      else if has m EPOLLIN && negb (bool_decide (d = [])) then Some (fd, EPOLLIN) else None
  | _ => None
  end.

Definition toy_wait (t : Z) (k : toy) : list (Z * Z) * toy :=
  (omap toy_event (map_to_list (fds k)), k).

Lemma toy_distinct (l : list (Z * (bytes * option Z))) : NoDup l.*1 -> NoDup (omap toy_event l).*1.
Proof.
  assert (forall p q, toy_event p = Some q -> q.1 = p.1) as He.
  { intros [fd [d m]] q. unfold toy_event. repeat case_match; intros; simplify_eq; done. }
  induction l as [|p l IH]; cbn; [done|]. intros [Hp Hl]%NoDup_cons.
  destruct (toy_event p) as [q|] eqn:E; [|auto]. cbn. apply NoDup_cons. split; [|auto].
  rewrite (He _ _ E). intros (q' & Hq & (p' & Hin & E')%list_elem_of_omap)%list_elem_of_fmap.
  apply Hp, list_elem_of_fmap. exists p'. split; [|done]. rewrite Hq. by apply He.
Qed.

Lemma toy_lookup k fd : toy_interest k !! fd = fds k !! fd ≫= snd.
Proof. apply lookup_omap. Qed.

Lemma toy_insert k fd d m :
  omap snd (<[fd := (d, Some m)]> (fds k)) = <[fd := m]> (toy_interest k : gmap Z Z).
Proof. unfold toy_interest. by rewrite (omap_insert_Some _ _ _ _ m). Qed.

#[export] Program Instance toy_kernel : Kernel toy := {|
  sys_read := toy_read;
  sys_recvfrom fd n k := let '(r, k) := toy_read fd n k in
    (match r with Done d => Done (d, []) | WouldBlock => WouldBlock | Errno e => Errno e end, k);
  sys_write _ d k := (Done (len d), k);
  sys_sendto _ d _ k := (Done (len d), k);
  sys_accept _ k := (WouldBlock, k);
  sys_connect _ _ k := (EINPROGRESS, k);
  so_error _ _ := 0;
  set_nonblocking _ k := (0, k);
  epoll_ctl := toy_ctl;
  epoll_wait := toy_wait;
  sys_close fd k := k <| fds ::= delete fd |>;
  write_eventfd k := k <| event_ := true |>;
  read_eventfd k := k <| event_ := false |>;
  eventfd := event_;
  interest := toy_interest;
  is_open := toy_open
|}.
Next Obligation. done. Qed.
Next Obligation.
  intros fd ev k m _ H. rewrite toy_lookup in H. cbn.
  destruct (fds k !! fd) as [[d [m'|]]|]; try done. split; [done|]. apply toy_insert.
Qed.
Next Obligation.
  intros fd ev k Ho H. rewrite toy_lookup in H. cbn. unfold toy_open in Ho.
  destruct (fds k !! fd) as [[d [m'|]]|]; done.
Qed.
Next Obligation.
  intros fd ev k Ho H. rewrite toy_lookup in H. cbn. unfold toy_open in Ho.
  destruct (fds k !! fd) as [[d [m'|]]|]; try done. split; [done|]. apply toy_insert.
Qed.
Next Obligation.
  intros fd ev k m H. rewrite toy_lookup in H. cbn. by destruct (fds k !! fd) as [[d [m'|]]|].
Qed.
Next Obligation. intros fd ev k Ho. cbn. unfold toy_open in Ho. by destruct (fds k !! fd). Qed.
Next Obligation.
  intros fd ev k. cbn. pose proof (toy_lookup k fd) as Hl. destruct (fds k !! fd) as [[d m]|] eqn:E.
  - unfold toy_interest. cbn. by rewrite omap_insert_None.
  - by rewrite delete_id.
Qed.
Next Obligation.
  intros op fd ev k fd' Hne. rewrite !toy_lookup. f_equal. unfold toy_ctl.
  destruct op, (fds k !! fd) as [[d [m|]]|]; cbn; rewrite ?lookup_insert_ne by done; done.
Qed.
Next Obligation.
  intros fd k m H. rewrite toy_lookup in H. unfold toy_open. by destruct (fds k !! fd).
Qed.
Next Obligation. intros t k. apply toy_distinct, NoDup_fst_map_to_list. Qed.

Lemma toy_insert_open fd fd' d m k d' m' :
  fds k !! fd = Some (d', m') -> toy_open fd' (k <| fds ::= <[fd := (d, m)]> |>) = toy_open fd' k.
Proof.
  intros H. unfold toy_open. cbn. destruct (decide (fd' = fd)) as [->|].
  - by rewrite lookup_insert_eq, H.
  - by rewrite lookup_insert_ne.
Qed.

Lemma toy_read_keeps fd n k : keeps k (toy_read fd n k).2.
Proof.
  unfold toy_read. destruct (fds k !! fd) as [[[|x d] m]|] eqn:E; try done.
  split_and!; [|done|intros fd'; cbn; by rewrite (toy_insert_open fd fd' _ _ _ _ _ E)].
  change (omap snd (<[fd := (dropZ n (x :: d), m)]> (fds k)) = toy_interest k).
  apply map_eq. intros fd'. rewrite toy_lookup, lookup_omap. destruct (decide (fd' = fd)) as [->|].
  - by rewrite lookup_insert_eq, E.
  - by rewrite lookup_insert_ne.
Qed.

#[export] Instance toy_keeps : KernelKeeps toy.
Proof.
  split; try done.
  - intros. apply toy_read_keeps.
  - intros fd n k. pose proof (toy_read_keeps fd n k) as H. cbn. by destruct (toy_read fd n k).
  - intros fd k. split_and!; [done| |].
    + cbn. unfold toy_interest. cbn. by rewrite omap_delete.
    + intros fd' Hne. cbn. unfold toy_open. cbn. by rewrite lookup_delete_ne.
  - intros op fd ev k. cbn. unfold toy_ctl.
    destruct op, (fds k !! fd) as [[d [m|]]|] eqn:E; cbn; split; try done; intros fd';
      by rewrite (toy_insert_open fd fd' _ _ _ _ _ E).
Qed.

(** Descriptors 3, the event descriptor, and 5, a socket. *)
Definition demo_kernel : toy := {| fds := {[3 := ([], None); 5 := ([], None)]}; event_ := false |}.

Definition demo_handle : handle nat := {| frame := 0; point := 7%nat |}.

(** The socket is registered, a read is submitted and waits. *)
Definition demo_epoll : @backend toy nat :=
  (await_operation true (AsyncRead 5 10) demo_handle
     (register_impl 5 (EpollBackend 3 demo_kernel)).2).1.

Definition demo_system (b : @backend toy nat) (pl : place) (h : list nat) : @system toy nat :=
  {| epoll := b; at_place := pl; resumed := h; orphans := ∅ |}.

Definition demo_reading : @system toy nat := demo_system demo_epoll Idle [].

(** Data arrives. *)
Definition demo_data (k : toy) : toy :=
  k <| fds ::= alter (fun p => ([x68; x69], p.2)) 5 |>.

(** The next poll completes the read; before it erases the entry, another thread
    waits for more input; and the coroutine is resumed. *)
Definition demo_polled : @backend toy nat * polling :=
  poll_events (-1) (demo_epoll <| kernel := demo_data (kernel demo_epoll) |>).

Definition demo_between : @system toy nat := demo_system
  (await_operation false (AsyncWaitReadable 5) demo_handle demo_polled.1).1 (Erasing demo_polled.2) [].

Definition demo_resumed : @system toy nat := demo_system
  (erase_completed demo_polled.2 (epoll demo_between)) (Resuming []) [0%nat].

Lemma demo_reading_reachable : reachable 3 demo_kernel demo_reading.
Proof.
  eapply reach_step.
  - eapply reach_step; [apply reach_init|]. apply (step_register 5). by split.
  - by apply (step_submit true (AsyncRead 5 10) demo_handle).
Qed.

Lemma demo_between_reachable : reachable 3 demo_kernel demo_between.
Proof.
  eapply reach_step; [eapply reach_step; [eapply reach_step; [exact demo_reading_reachable|]|]|].
  - apply (step_environment (demo_data (kernel demo_epoll)) demo_epoll); [vm_compute; reflexivity|].
    intros fd. cbn [interest is_open toy_kernel]. unfold toy_open, demo_data. cbn.
    rewrite !bool_decide_eq_true. intros [d Hd].
    destruct (decide (fd = 5)) as [->|]; [by rewrite lookup_alter_eq, Hd; eexists|].
    rewrite lookup_alter_ne by done. by exists d.
  - apply (step_poll (-1) _ demo_polled.2 demo_polled.1). exact (surjective_pairing demo_polled).
  - by apply (step_submit false (AsyncWaitReadable 5) demo_handle).
Qed.

Lemma demo_resumed_reachable : reachable 3 demo_kernel demo_resumed.
Proof.
  eapply reach_step; [eapply reach_step; [exact demo_between_reachable|]|].
  - apply step_erase.
  - apply (step_resume _ 0%nat []).
Qed.

(** The read that waits is watched for input; the wait submitted between the two
    critical sections is displaced by the erasure. *)
Lemma epoll_forgets_nothing_witness :
  (exists m, interest (kernel (epoll demo_reading)) !! 5 = Some m /\ has m EPOLLIN = true) /\
  displaces EraseCompleted demo_between 1 5 true.
Proof.
  split.
  - destruct (epoll_forgets_nothing 3 demo_kernel demo_reading) as [H _];
      [vm_compute; reflexivity|exact demo_reading_reachable|].
    destruct (H 5) as [Hr _]; [apply not_elem_of_empty|].
    apply (Hr {| op_type := Read; len_ := 10; data_ := []; dest_addr := None; ctx_ := 0 |}).
    vm_compute. reflexivity.
  - destruct (epoll_forgets_nothing 3 demo_kernel demo_between) as [_ H];
      [vm_compute; reflexivity|exact demo_between_reachable|].
    destruct (H EraseCompleted _ 1%nat 5 true (step_erase _ _ _ _)) as [Hw|Hd]; [left; vm_compute; reflexivity| |exact Hd].
    exfalso. destruct Hw as [Hw|Hw]; [by vm_compute in Hw|by apply elem_of_nil in Hw].
Defined.


(** ** Corners *)

(** The wait submitted between the two critical sections of the poll that completes
    a read of the same descriptor is erased: it waits for ever. *)
Lemma submission_erased :
  reachable 3 demo_kernel demo_resumed /\ waiting [] (epoll demo_resumed) = [] /\ unsettled (epoll demo_resumed) 1.
Proof. split; [exact demo_resumed_reachable|]. vm_compute. split; [reflexivity|]. by eexists. Qed.

(** [poll] calls [update_events] while the operation is still in its table: the
    mask keeps the bit of an operation that is done. *)
Lemma mask_outlives_the_read :
  read_ops_ (epoll demo_resumed) = ∅ /\
  interest (kernel (epoll demo_resumed)) !! 5 = Some EPOLLIN.
Proof. split; vm_compute; reflexivity. Qed.

(** A wait deferred inside [poll] on a descriptor that is closed before the end of
    it; the next socket with that number inherits the wait, out of epoll's sight. *)
Lemma deferred_wait_outlives_the_socket :
  let b := (await_operation true (AsyncWaitReadable 5) demo_handle demo_polled.1).1 in
  let b := (deregister_impl 5 b) <| kernel ::= fun k => (sys_close 5 k : toy) |> in
  let b := end_poll b in
  let b := (register_impl 5 (b <| kernel ::= fun k => k <| fds ::= <[5 := ([], None)]> |> |>)).2 in
  ctx_ <$> read_ops_ b !! 5 = Some 1%nat /\ interest (kernel b) !! 5 = Some 0.
Proof. split; vm_compute; reflexivity. Qed.
