(* ===== verification/IoUring.v ===== *)
(** * The io_uring backend (src/src/io/io_uring_backend.cpp, io_uring_backend.hpp)

    The two rings shared with the kernel, with their counters of 32 bits, the
    pending operations, submission, completion and polling.  The kernel is the
    class [Uring]: what [io_uring_enter] takes from the submission queue and what
    it puts into the completion queue.  Mapping the rings into memory is not
    modelled.  A pointer of a submission queue entry into a [PendingOp] names the
    node of the table, so that an entry whose operation has been erased is a
    dangling one. *)
From S2P Require Import Prelude IoContext Epoll.
From stdpp Require Import gmap options.

#[local] Open Scope Z_scope.
#[local] Open Scope net_scope.

Definition EBUSY : Z := 16.
Definition POLLIN : Z := 1.
Definition POLLOUT : Z := 4.

(** ** Entries of the queues *)

(** The 64 bits of [user_data]: the two constants, or the address of a context. *)
Inductive user_data :=
| NullData
| TIMEOUT_USER_DATA
| WAKEUP_USER_DATA
| Context (c : nat).

Inductive opcode :=
| OP_NOP | OP_READ | OP_WRITE | OP_ACCEPT | OP_CONNECT | OP_RECVMSG | OP_SENDMSG | OP_POLL_ADD
| OP_TIMEOUT.

(** What [addr] and [len] give: a buffer of the caller, data of the caller, a
    pointer into a node of the tables, a time. *)
Inductive operand :=
| NoOperand
| Space (n : Z)
| Contents (d : bytes)
| OfNode (n : nat)
| Timespec (sec nsec : Z).

Record io_uring_sqe := {
  opcode_ : opcode;
  sqe_fd : Z;
  addr : operand;
  poll32_events : Z;
  sqe_user_data : user_data
}.

(** [memset] of an entry, and the memory of a new ring *)
Definition zeroed : io_uring_sqe :=
  {| opcode_ := OP_NOP; sqe_fd := 0; addr := NoOperand; poll32_events := 0;
     sqe_user_data := NullData |}.

(** [cqe_data] and [cqe_from] are what the operation has written through the
    pointers it was given: the buffer, the address of the sender. *)
Record io_uring_cqe := {
  cqe_user_data : user_data;
  res : Z;
  cqe_data : bytes;
  cqe_from : bytes
}.

Definition no_cqe : io_uring_cqe :=
  {| cqe_user_data := NullData; res := 0; cqe_data := []; cqe_from := [] |}.

(** [PendingOp], with the name of its node.  [msg_namelen] is [None] when
    [msg_name] is null, [iov] the buffer of the message. *)
Record PendingOp := {
  node : nat;
  type : OpType;
  ctx_ : nat;
  out_fd : bool;
  addr_storage : bytes;
  addr_len : Z;
  msg_namelen : option Z;
  iov : operand
}.
#[export] Instance pending_settable : Settable PendingOp := fun o =>
  Build_PendingOp (node o) (type o) (ctx_ o) (out_fd o) (addr_storage o) (addr_len o)
    (msg_namelen o) (iov o).

(** ** The kernel *)

(** What the kernel reads of an entry: the entry, and the node it points into. *)
Record entry := { e_sqe : io_uring_sqe; e_node : option PendingOp }.

Definition e_tag (e : entry) : user_data := sqe_user_data (e_sqe e).

(** [uring_enter es min room k]: the kernel is offered the entries [es], is asked
    to wait for [min] completions and has [room] in the completion queue; it
    answers with the number of entries it takes and the completions it puts.
    [inflight] are the entries taken and not completed.  Of its documentation:
    entries are taken in order, each taken entry has one completion with its
    [user_data], and none is put into a full queue.  [event] says that the event
    descriptor is readable. *)
Class Uring (K : Type) := {
  uring_enter : list entry -> Z -> nat -> K -> nat * list io_uring_cqe * K;
  uring_nonblocking : Z -> K -> Z * K;
  uring_write_event : K -> K;
  uring_read_event : K -> K;
  event_ready : K -> bool;
  inflight : K -> list user_data;

  enter_law es min room k : let '(taken, cs, k') := uring_enter es min room k in
    (taken <= length es)%nat /\ (length cs <= room)%nat /\
    inflight k ++ map e_tag (take taken es) ≡ₚ map cqe_user_data cs ++ inflight k' /\
    event_ready k' = event_ready k;
  nonblocking_law fd k : inflight (uring_nonblocking fd k).2 = inflight k /\
    event_ready (uring_nonblocking fd k).2 = event_ready k;
  write_event_law k : inflight (uring_write_event k) = inflight k /\
    event_ready (uring_write_event k) = true;
  read_event_law k : inflight (uring_read_event k) = inflight k
}.

(** ** The rings *)

(** The counters are those of the kernel's memory; the arrays are read where
    nothing was written as zeros. *)
Record ring := {
  sq_head_ : Z;
  sq_tail_ : Z;
  sq_array_ : gmap Z Z;
  sqes_ : gmap Z io_uring_sqe;
  sq_mask_ : Z;
  sq_entries_ : Z;
  cq_head_ : Z;
  cq_tail_ : Z;
  cqes_ : gmap Z io_uring_cqe;
  cq_mask_ : Z;
  cq_entries_ : Z
}.
#[export] Instance ring_settable : Settable ring := fun r =>
  Build_ring (sq_head_ r) (sq_tail_ r) (sq_array_ r) (sqes_ r) (sq_mask_ r) (sq_entries_ r)
    (cq_head_ r) (cq_tail_ r) (cqes_ r) (cq_mask_ r) (cq_entries_ r).

(** What lies between a head and a tail, the oldest first. *)
Definition slots_of {A} (slot : Z -> A) (mask head tail : Z) : list A :=
  map (fun i => slot (Z.land (u32 (head + Z.of_nat i)) mask)) (seq 0 (Z.to_nat (u32 (tail - head)))).

Definition sq_slot (r : ring) (i : Z) : io_uring_sqe :=
  default zeroed (sqes_ r !! default 0 (sq_array_ r !! i)).
Definition cq_slot (r : ring) (i : Z) : io_uring_cqe := default no_cqe (cqes_ r !! i).

(** The submission queue and the completion queue *)
Definition sq (r : ring) : list io_uring_sqe := slots_of (sq_slot r) (sq_mask_ r) (sq_head_ r) (sq_tail_ r).
Definition cq (r : ring) : list io_uring_cqe := slots_of (cq_slot r) (cq_mask_ r) (cq_head_ r) (cq_tail_ r).

(** The free slots of the completion queue *)
Definition room (r : ring) : nat := Z.to_nat (cq_entries_ r - u32 (cq_tail_ r - cq_head_ r)).

(** The kernel puts a completion. *)
Definition post (r : ring) (c : io_uring_cqe) : ring :=
  r <| cqes_ ::= <[Z.land (cq_tail_ r) (cq_mask_ r) := c]> |> <| cq_tail_ ::= fun t => u32 (t + 1) |>.

(** The part of [get_sqe] that takes a free slot *)
Definition take_slot (r : ring) : Z * ring :=
  let index := Z.land (sq_tail_ r) (sq_mask_ r) in
  (index, r <| sqes_ ::= <[index := zeroed]> |> <| sq_array_ ::= <[index := index]> |>
            <| sq_tail_ ::= fun t => u32 (t + 1) |>).

Section IoUring.
Context {K F : Type} `{UK : Uring K}.

Record backend := {
  kernel : K;
  rings : ring;
  wake_fd_ : Z;
  read_ops_ : gmap Z PendingOp;
  write_ops_ : gmap Z PendingOp;
  next_node : nat;                             (** names of nodes *)
  contexts : list (operation_context (F := F))
}.
#[export] Instance uring_settable : Settable backend := fun s =>
  Build_backend (kernel s) (rings s) (wake_fd_ s) (read_ops_ s) (write_ops_ s) (next_node s)
    (contexts s).

(** [ctx->complete(...)] *)
Definition complete (ctx : nat) (c : completion) (s : backend) : backend :=
  s <| contexts ::= alter (fun o => {| handle_ := handle_ o; completed_ := Some c |}) ctx |>.

Definition is_completed (ctx : nat) (s : backend) : bool :=
  match contexts s !! ctx with Some {| completed_ := Some _ |} => true | _ => false end.

(** ** Submission queue entries *)

Definition find_op (p : PendingOp -> bool) (m : gmap Z PendingOp) : option (Z * PendingOp) :=
  List.find (fun x => p x.2) (map_to_list m).

(** The node that a pointer designates; reading one that was erased is undefined. *)
Definition node_of (s : backend) (n : nat) : option PendingOp :=
  match find_op (fun o => (node o =? n)%nat) (read_ops_ s) with
  | Some (_, o) => Some o
  | None => snd <$> find_op (fun o => (node o =? n)%nat) (write_ops_ s)
  end.

Definition fetch (s : backend) (e : io_uring_sqe) : outcome entry :=
  match addr e with
  | OfNode n =>
      match node_of s n with
      | Some o => Ok {| e_sqe := e; e_node := Some o |}
      | None => Undefined UseAfterFree
      end
  | _ => Ok {| e_sqe := e; e_node := None |}
  end.

(** [io_uring_enter]: the kernel takes entries at the head of the submission
    queue and puts completions at the tail of the other. *)
Definition io_uring_enter (to_submit min_complete : Z) (s : backend) : outcome backend :=
  let r := rings s in
  offered ← mapM (fetch s) (takeZ (u32 to_submit) (sq r));
  let '(taken, posted, k) := uring_enter offered min_complete (room r) (kernel s) in
  let r := r <| sq_head_ ::= fun h => u32 (h + Z.of_nat taken) |> in
  Ok (s <| kernel := k |> <| rings := foldl post r posted |>).

Definition submit_sqes (s : backend) : outcome backend :=
  let to_submit := u32 (sq_tail_ (rings s) - sq_head_ (rings s)) in
  if 0 <? to_submit then io_uring_enter to_submit 0 s else Ok s.

Definition sq_full (r : ring) : bool := sq_entries_ r <=? u32 (sq_tail_ r - sq_head_ r).

Definition get_sqe (s : backend) : outcome (option Z * backend) :=
  s ← (if sq_full (rings s) then submit_sqes s else Ok s);
  if sq_full (rings s) then Ok (None, s) else
  let '(index, r) := take_slot (rings s) in
  Ok (Some index, s <| rings := r |>).

(** [get_sqe] and the stores through the pointer it gave; [false] when it is null. *)
Definition queue_sqe (e : io_uring_sqe) (s : backend) : outcome (bool * backend) :=
  '(i, s) ← get_sqe s;
  match i with
  | None => Ok (false, s)
  | Some i => Ok (true, s <| rings ::= fun r => r <| sqes_ ::= <[i := e]> |> |>)
  end.

Definition wakeup_sqe (s : backend) : io_uring_sqe :=
  {| opcode_ := OP_POLL_ADD; sqe_fd := wake_fd_ s; addr := NoOperand; poll32_events := POLLIN;
     sqe_user_data := WAKEUP_USER_DATA |}.

(** The end of [setup_ring]: the poll of the event descriptor is armed. *)
Definition arm_wakeup (s : backend) : outcome backend :=
  if 0 <=? wake_fd_ s then
    '(ok, s) ← queue_sqe (wakeup_sqe s) s;
    if ok : bool then submit_sqes s else Ok s
  else Ok s.

(** ** Submission *)

(** [read_ops_[fd]]: the node of the key, or a new one. *)
Definition blank (n : nat) : PendingOp :=
  {| node := n; type := Read; ctx_ := 0; out_fd := false; addr_storage := []; addr_len := 0;
     msg_namelen := None; iov := NoOperand |}.

Definition put_read (fd : Z) (f : PendingOp -> PendingOp) (s : backend) : nat * backend :=
  let op := default (blank (next_node s)) (read_ops_ s !! fd) in
  (node op, s <| read_ops_ ::= <[fd := f op]> |> <| next_node ::= S |>).

Definition put_write (fd : Z) (f : PendingOp -> PendingOp) (s : backend) : nat * backend :=
  let op := default (blank (next_node s)) (write_ops_ s !! fd) in
  (node op, s <| write_ops_ ::= <[fd := f op]> |> <| next_node ::= S |>).

(** [op = PendingOp{t, ctx, nullptr, {}, 0}] *)
Definition assign (t : OpType) (ctx : nat) (op : PendingOp) : PendingOp :=
  (blank (node op)) <| type := t |> <| ctx_ := ctx |>.

Definition named (t : OpType) (ctx : nat) (out : bool) (op : PendingOp) : PendingOp :=
  op <| type := t |> <| ctx_ := ctx |> <| out_fd := out |>.

(** The entry is queued, or the operation completes with [EBUSY]. *)
Definition queue_read (fd : Z) (ctx : nat) (e : io_uring_sqe) (s : backend) : outcome backend :=
  '(ok, s) ← queue_sqe e s;
  Ok (if ok : bool then s else (complete ctx (completed (-1) EBUSY) s) <| read_ops_ ::= delete fd |>).

Definition queue_write (fd : Z) (ctx : nat) (e : io_uring_sqe) (s : backend) : outcome backend :=
  '(ok, s) ← queue_sqe e s;
  Ok (if ok : bool then s else (complete ctx (completed (-1) EBUSY) s) <| write_ops_ ::= delete fd |>).

Definition sqe_of (o : opcode) (fd : Z) (a : operand) (ctx : nat) : io_uring_sqe :=
  {| opcode_ := o; sqe_fd := fd; addr := a; poll32_events := 0; sqe_user_data := Context ctx |}.

(** The length goes through 32 bits. *)
Definition async_read_impl (fd len : Z) (ctx : nat) (s : backend) : outcome backend :=
  let '(_, s) := put_read fd (assign Read ctx) s in
  queue_read fd ctx (sqe_of OP_READ fd (Space (u32 len)) ctx) s.

Definition async_write_impl (fd : Z) (data : bytes) (ctx : nat) (s : backend) : outcome backend :=
  let '(_, s) := put_write fd (assign Write ctx) s in
  queue_write fd ctx (sqe_of OP_WRITE fd (Contents (takeZ (u32 (len data)) data)) ctx) s.

Definition async_accept_impl (fd : Z) (ctx : nat) (s : backend) : outcome backend :=
  let '(_, s) := put_read fd (fun op => (named Accept ctx true op) <| addr_len := 128 |>) s in
  queue_read fd ctx (sqe_of OP_ACCEPT fd NoOperand ctx) s.

(** An address longer than [sockaddr_storage] is copied past its end. *)
Definition async_connect_impl (fd : Z) (to : bytes) (ctx : nat) (s : backend) : outcome backend :=
  if 128 <? len to then Undefined OutOfBounds else
  let '(n, s) := put_write fd (fun op =>
    (named Connect ctx false op) <| addr_storage := to |> <| addr_len := len to |>) s in
  queue_write fd ctx (sqe_of OP_CONNECT fd (OfNode n) ctx) s.

Definition async_recvfrom_impl (fd len : Z) (ctx : nat) (s : backend) : outcome backend :=
  let '(n, s) := put_read fd (fun op =>
    (named RecvFrom ctx false op) <| addr_len := 128 |> <| msg_namelen := Some 128 |>
      <| iov := Space len |>) s in
  queue_read fd ctx (sqe_of OP_RECVMSG fd (OfNode n) ctx) s.

Definition async_sendto_impl (fd : Z) (data to : bytes) (ctx : nat) (s : backend) : outcome backend :=
  let named_to := (0 <? len to) && (len to <=? 128) in
  let '(n, s) := put_write fd (fun op =>
    let op := named SendTo ctx false op in
    let op := if named_to then op <| addr_storage := to |> <| addr_len := len to |>
              else op <| addr_len := 0 |> in
    op <| msg_namelen := if 0 <? addr_len op then Some (addr_len op) else None |>
       <| iov := Contents data |>) s in
  queue_write fd ctx (sqe_of OP_SENDMSG fd (OfNode n) ctx) s.

Definition poll_sqe (fd mask : Z) (ctx : nat) : io_uring_sqe :=
  {| opcode_ := OP_POLL_ADD; sqe_fd := fd; addr := NoOperand; poll32_events := mask;
     sqe_user_data := Context ctx |}.

Definition async_wait_readable_impl (fd : Z) (ctx : nat) (s : backend) : outcome backend :=
  let '(_, s) := put_read fd (assign WaitReadable ctx) s in
  queue_read fd ctx (poll_sqe fd POLLIN ctx) s.

Definition async_wait_writable_impl (fd : Z) (ctx : nat) (s : backend) : outcome backend :=
  let '(_, s) := put_write fd (assign WaitWritable ctx) s in
  queue_write fd ctx (poll_sqe fd POLLOUT ctx) s.

Definition submit_impl (r : request) (ctx : nat) (s : backend) : outcome backend :=
  match r with
  | AsyncRead fd len => async_read_impl fd len ctx s
  | AsyncWrite fd data => async_write_impl fd data ctx s
  | AsyncRecvFrom fd len => async_recvfrom_impl fd len ctx s
  | AsyncSendTo fd data to => async_sendto_impl fd data to ctx s
  | AsyncAccept fd => async_accept_impl fd ctx s
  | AsyncConnect fd to => async_connect_impl fd to ctx s
  | AsyncWaitReadable fd => async_wait_readable_impl fd ctx s
  | AsyncWaitWritable fd => async_wait_writable_impl fd ctx s
  end.

(** [await_suspend] of the awaiters of sockets *)
Definition await_operation (r : request) (co : handle F) (s : backend) : outcome (backend * bool) :=
  let ctx := length (contexts s) in
  s ← submit_impl r ctx (s <| contexts ::= fun l => l ++ [{| handle_ := co; completed_ := None |}] |>);
  Ok (s, is_completed ctx s).

Definition register_impl (fd : Z) (s : backend) : bool * backend :=
  let '(e, k) := uring_nonblocking fd (kernel s) in (e =? 0, s <| kernel := k |>).

Definition deregister_impl (fd : Z) (s : backend) : backend :=
  s <| read_ops_ ::= delete fd |> <| write_ops_ ::= delete fd |>.

Definition wake_impl (s : backend) : backend :=
  if 0 <=? wake_fd_ s then s <| kernel ::= uring_write_event |> else s.

(** ** Completion *)

(** [ctx->complete(res >= 0 ? res : -1, res < 0 ? -res : 0)] *)
Definition plain_completion (c : io_uring_cqe) : completion :=
  {| result_ := if 0 <=? res c then res c else -1; error_code_ := if res c <? 0 then - res c else 0;
     buffer := cqe_data c; accepted := None; from_addr_ := [] |}.

Definition read_completion (op : PendingOp) (c : io_uring_cqe) : completion :=
  match type op with
  | Accept =>
      if out_fd op then
        {| result_ := if 0 <=? res c then 0 else -1; error_code_ := if 0 <=? res c then 0 else - res c;
           buffer := []; accepted := Some (if 0 <=? res c then res c else -1); from_addr_ := [] |}
      else plain_completion c
  | RecvFrom =>
      {| result_ := if 0 <=? res c then res c else -1; error_code_ := if res c <? 0 then - res c else 0;
         buffer := cqe_data c; accepted := None;
         from_addr_ := if (0 <=? res c) && (0 <? len (cqe_from c)) then cqe_from c else [] |}
  | _ => plain_completion c
  end.

(** The completion of a context: the tables are searched for it. *)
Definition complete_cqe (ctx : nat) (c : io_uring_cqe) (s : backend) : backend :=
  match find_op (fun o => (ctx_ o =? ctx)%nat) (read_ops_ s) with
  | Some (fd, op) => (complete ctx (read_completion op c) s) <| read_ops_ ::= delete fd |>
  | None =>
      let s := complete ctx (plain_completion c) s in
      match find_op (fun o => (ctx_ o =? ctx)%nat) (write_ops_ s) with
      | Some (fd, _) => s <| write_ops_ ::= delete fd |>
      | None => s
      end
  end.

Definition handle_cqe (c : io_uring_cqe) (s : backend) (to_resume : list nat)
  : outcome (backend * list nat) :=
  match cqe_user_data c with
  | NullData | TIMEOUT_USER_DATA => Ok (s, to_resume)
  | WAKEUP_USER_DATA =>
      let s := s <| kernel ::= uring_read_event |> in
      '(_, s) ← queue_sqe (wakeup_sqe s) s;
      Ok (s, to_resume)
  | Context ctx => Ok (complete_cqe ctx c s, to_resume ++ [ctx])
  end.

(** The loop of [process_cqes]; the completions between [head] and [tail] are
    enough fuel. *)
Fixpoint cqe_loop (fuel : nat) (head tail : Z) (s : backend) (to_resume : list nat)
  : outcome (backend * list nat) :=
  if head =? tail then Ok (s, to_resume) else
  match fuel with
  | O => Timeout
  | S fuel =>
      let c := cq_slot (rings s) (Z.land head (cq_mask_ (rings s))) in
      '(s, to_resume) ← handle_cqe c s to_resume;
      cqe_loop fuel (u32 (head + 1)) tail s to_resume
  end.

Definition process_cqes (s : backend) : outcome (backend * list nat) :=
  let head := cq_head_ (rings s) in
  let tail := cq_tail_ (rings s) in
  '(s, to_resume) ← cqe_loop (Z.to_nat (u32 (tail - head))) head tail s [];
  Ok (s <| rings ::= fun r => r <| cq_head_ := tail |> |>, to_resume).

(** ** Polling *)

Definition timeout_sqe (timeout_ms : Z) : io_uring_sqe :=
  {| opcode_ := OP_TIMEOUT; sqe_fd := -1;
     addr := Timespec (timeout_ms / 1000) (timeout_ms mod 1000 * 1000000); poll32_events := 0;
     sqe_user_data := TIMEOUT_USER_DATA |}.

(** What [poll_impl] submits *)
Definition poll_submit (timeout_ms : Z) (s : backend) : outcome backend :=
  let sq_head_val := sq_head_ (rings s) in
  let pending_sq := u32 (sq_tail_ (rings s) - sq_head_val) in
  let has_cqes := negb (cq_head_ (rings s) =? cq_tail_ (rings s)) in
  if negb has_cqes && (0 <? timeout_ms) then
    '(tsqe, s) ← queue_sqe (timeout_sqe timeout_ms) s;
    let total_sq := u32 (sq_tail_ (rings s) - sq_head_val) in
    let total_sq := if 0 <? total_sq then total_sq else if tsqe : bool then 1 else 0 in
    if 0 <? total_sq then io_uring_enter total_sq 1 s else Ok s
  else if 0 <? pending_sq then submit_sqes s else Ok s.

(** The critical section of [poll_impl]: the contexts to resume. *)
Definition poll_impl (timeout_ms : Z) (s : backend) : outcome (backend * list nat) :=
  s ← poll_submit timeout_ms s; process_cqes s.

Definition handles (cs : list nat) (s : backend) : list (handle F) :=
  omap (fun c => handle_ <$> contexts s !! c) cs.

(** [IoUringBackend()], with the rings mapped and the event descriptor made *)
Definition IoUringBackend (wake_fd : Z) (r : ring) (k : K) : outcome backend :=
  arm_wakeup {| kernel := k; rings := r; wake_fd_ := wake_fd; read_ops_ := ∅; write_ops_ := ∅;
                next_node := 0; contexts := [] |}.

(** ** The backend in its loop

    [Resuming cs]: the thread is in [poll_impl], at the loop that resumes the
    contexts [cs].  Other threads submit, close and wake between critical
    sections; the kernel puts completions at any time.  A program waits for one
    operation of a side of a socket at a time. *)

Inductive place := Idle | Resuming (cs : list nat).

Record system := { uring : backend; at_place : place; resumed : list nat (** history *) }.

Inductive event :=
| PollOnce (timeout : Z)
| ResumeNext
| EndPoll
| Submit (r : request) (co : handle F)
| Register (fd : Z)
| Close (fd : Z)
| Wake
| Kernel (cs : list io_uring_cqe) (k : K).

(** No operation is pending on the side of the socket. *)
Definition side_free (r : request) (s : backend) : Prop :=
  match r with
  | AsyncRead fd _ | AsyncRecvFrom fd _ | AsyncAccept fd | AsyncWaitReadable fd => read_ops_ s !! fd = None
  | AsyncWrite fd _ | AsyncSendTo fd _ _ | AsyncConnect fd _ | AsyncWaitWritable fd =>
      write_ops_ s !! fd = None
  end.

(** No entry of the submission queue points into an operation of the socket. *)
Definition unqueued (fd : Z) (s : backend) : Prop :=
  forall op e, read_ops_ s !! fd = Some op \/ write_ops_ s !! fd = Some op ->
    e ∈ sq (rings s) -> addr e <> OfNode (node op).

Inductive step : event -> system -> system -> Prop :=
| step_poll t s b cs h :
    poll_impl t s = Ok (b, cs) ->
    step (PollOnce t) {| uring := s; at_place := Idle; resumed := h |}
      {| uring := b; at_place := Resuming cs; resumed := h |}
| step_resume s c cs h :
    step ResumeNext {| uring := s; at_place := Resuming (c :: cs); resumed := h |}
      {| uring := s; at_place := Resuming cs; resumed := h ++ [c] |}
| step_end s h :
    step EndPoll {| uring := s; at_place := Resuming []; resumed := h |}
      {| uring := s; at_place := Idle; resumed := h |}
| step_submit r co s b now pl h :
    side_free r s -> await_operation r co s = Ok (b, now) ->
    step (Submit r co) {| uring := s; at_place := pl; resumed := h |}
      {| uring := b; at_place := pl; resumed := h |}
| step_register fd s pl h :
    step (Register fd) {| uring := s; at_place := pl; resumed := h |}
      {| uring := (register_impl fd s).2; at_place := pl; resumed := h |}
| step_close fd s pl h :
    unqueued fd s ->
    step (Close fd) {| uring := s; at_place := pl; resumed := h |}
      {| uring := deregister_impl fd s; at_place := pl; resumed := h |}
| step_wake s pl h :
    step Wake {| uring := s; at_place := pl; resumed := h |}
      {| uring := wake_impl s; at_place := pl; resumed := h |}
| step_kernel cs k s pl h :
    inflight (kernel s) ≡ₚ map cqe_user_data cs ++ inflight k ->
    (length cs <= room (rings s))%nat ->
    step (Kernel cs k) {| uring := s; at_place := pl; resumed := h |}
      {| uring := s <| kernel := k |> <| rings ::= fun r => foldl post r cs |>; at_place := pl;
         resumed := h |}.

(** The rings as the kernel maps them: powers of two, nothing in them. *)
Definition mapped (r : ring) : Prop :=
  exists n m, 0 <= n <= 31 /\ 0 <= m <= 31 /\
    sq_entries_ r = 2 ^ n /\ sq_mask_ r = 2 ^ n - 1 /\
    cq_entries_ r = 2 ^ m /\ cq_mask_ r = 2 ^ m - 1 /\
    sq_head_ r = sq_tail_ r /\ cq_head_ r = cq_tail_ r /\
    0 <= sq_tail_ r < 2 ^ 32 /\ 0 <= cq_tail_ r < 2 ^ 32.

Inductive reachable : system -> Prop :=
| reach_init wake_fd r k s :
    mapped r -> inflight k = [] -> IoUringBackend wake_fd r k = Ok s ->
    reachable {| uring := s; at_place := Idle; resumed := [] |}
| reach_step e s s' : reachable s -> step e s s' -> reachable s'.
End IoUring.
Arguments backend K F : clear implicits.
