(* ===== verification/IoUringFacts.v ===== *)
(** * The io_uring backend: the rings are queues, no operation is lost *)
From S2P Require Import Prelude IoContext Epoll IoUring.
From stdpp Require Import gmap options.

#[local] Open Scope Z_scope.
#[local] Open Scope net_scope.
#[local] Set Default Proof Using "Type*".

(** ** Rings

    The counters wrap at 2^32 and the slots at a power of two below it. *)

Lemma land_mask x n : 0 <= n <= 31 -> Z.land (u32 x) (2 ^ n - 1) = x mod 2 ^ n.
Proof.
  intros Hn. change (2 ^ n - 1) with (Z.pred (2 ^ n)). rewrite <- Z.ones_equiv, Z.land_ones by lia. unfold u32.
  apply Z.mod_mod_divide. exists (2 ^ (32 - n)). rewrite <- Z.pow_add_r by lia. f_equal. lia.
Qed.

Lemma u32_bound z : 0 <= u32 z < 2 ^ 32.
Proof. unfold u32. lia. Qed.

(** Two counters less than the size of the ring apart are in different slots. *)
Lemma slot_distinct x y n :
  0 <= n -> 0 < y - x < 2 ^ n -> x mod 2 ^ n <> y mod 2 ^ n.
Proof.
  intros Hn Hd He. assert ((y - x) mod 2 ^ n = 0) as H0.
  { rewrite Zminus_mod, He, Z.sub_diag. apply Z.mod_0_l. lia. }
  rewrite Z.mod_small in H0 by lia. lia.
Qed.

Section Between.
Context {A : Type} (mask : Z) (n : Z).
Hypotheses (Hn : 0 <= n <= 31) (Hmask : mask = 2 ^ n - 1).
Implicit Types slot : Z -> A.

Lemma size_bound : 1 <= 2 ^ n <= 2 ^ 31.
Proof using Hn. split; [change 1 with (2 ^ 0)|]; apply Z.pow_le_mono_r; lia. Qed.

Lemma slots_length slot h t : length (slots_of slot mask h t) = Z.to_nat (u32 (t - h)).
Proof. unfold slots_of. by rewrite length_map, length_seq. Qed.

Lemma slots_empty slot h : slots_of slot mask h h = [].
Proof. unfold slots_of. by rewrite Z.sub_diag. Qed.

(** The slot at the tail is none of those in use. *)
Lemma tail_free h t i :
  u32 (t - h) < 2 ^ n -> 0 <= i < u32 (t - h) ->
  Z.land (u32 (h + i)) mask <> Z.land (u32 t) mask.
Proof.
  intros Hc Hi. rewrite Hmask, !land_mask by done.
  assert (u32 (h + u32 (t - h)) = u32 t) as E by (unfold u32; lia).
  rewrite <- (land_mask t), <- E, land_mask by done.
  apply slot_distinct; [lia|]. lia.
Qed.

Lemma slots_snoc slot slot' h t :
  0 <= t < 2 ^ 32 -> u32 (t - h) < 2 ^ n ->
  (forall i, i <> Z.land t mask -> slot' i = slot i) ->
  slots_of slot' mask h (u32 (t + 1)) = slots_of slot mask h t ++ [slot' (Z.land t mask)].
Proof.
  intros Ht Hc Hs. pose proof size_bound as Hb. unfold slots_of.
  assert (u32 (u32 (t + 1) - h) = u32 (t - h) + 1) as -> by (unfold u32 in *; lia).
  pose proof (Z.mod_pos_bound (t - h) (2 ^ 32) eq_refl) as H0. fold (u32 (t - h)) in H0.
  rewrite Z2Nat.inj_add by lia. rewrite seq_app, map_app. f_equal.
  - apply map_ext_in. intros i Hi%in_seq. apply Hs.
    intros E. apply (tail_free h t (Z.of_nat i)); [lia|lia|]. rewrite E. f_equal. unfold u32. lia.
  - change (Z.to_nat 1) with 1%nat. cbn [map seq Nat.add]. rewrite Z2Nat.id by lia. do 3 f_equal.
    unfold u32 in *. lia.
Qed.

Lemma slots_drop slot h t k :
  Z.of_nat k <= u32 (t - h) -> slots_of slot mask (u32 (h + Z.of_nat k)) t = drop k (slots_of slot mask h t).
Proof.
  intros Hk. unfold slots_of. rewrite skipn_map, drop_seq.
  assert (u32 (t - u32 (h + Z.of_nat k)) = u32 (t - h) - Z.of_nat k) as -> by (unfold u32 in *; lia).
  rewrite Z2Nat.inj_sub, Nat2Z.id by lia. rewrite <- (Nat.add_comm k), <- (fmap_add_seq k).
  change (@fmap list _ nat nat) with (@map nat nat). rewrite map_map.
  apply map_ext. intros i. do 2 f_equal. unfold u32. lia.
Qed.
End Between.

(** A ring whose queues fit, and whose indirection of the slots in use is the
    identity, as [get_sqe] sets it. *)
Record ring_ok (r : ring) : Prop := {
  ro_sq : exists n, 0 <= n <= 31 /\ sq_entries_ r = 2 ^ n /\ sq_mask_ r = 2 ^ n - 1;
  ro_cq : exists n, 0 <= n <= 31 /\ cq_entries_ r = 2 ^ n /\ cq_mask_ r = 2 ^ n - 1;
  ro_sq_tail : 0 <= sq_tail_ r < 2 ^ 32;
  ro_cq_tail : 0 <= cq_tail_ r < 2 ^ 32;
  ro_sq_count : u32 (sq_tail_ r - sq_head_ r) <= sq_entries_ r;
  ro_cq_count : u32 (cq_tail_ r - cq_head_ r) <= cq_entries_ r;
  ro_array i : 0 <= i < u32 (sq_tail_ r - sq_head_ r) ->
    let j := Z.land (u32 (sq_head_ r + i)) (sq_mask_ r) in sq_array_ r !! j = Some j;
  ro_cq_head : 0 <= cq_head_ r < 2 ^ 32
}.

Section Rings.
Implicit Types (r : ring).

Lemma sq_length r : length (sq r) = Z.to_nat (u32 (sq_tail_ r - sq_head_ r)).
Proof. unfold sq, cq, slots_of. by rewrite length_map, length_seq. Qed.

Lemma cq_length r : length (cq r) = Z.to_nat (u32 (cq_tail_ r - cq_head_ r)).
Proof. unfold sq, cq, slots_of. by rewrite length_map, length_seq. Qed.

Lemma slots_ext {A} (f g : Z -> A) mask h t :
  (forall i, 0 <= i < u32 (t - h) ->
    f (Z.land (u32 (h + i)) mask) = g (Z.land (u32 (h + i)) mask)) ->
  slots_of f mask h t = slots_of g mask h t.
Proof. intros H. apply map_ext_in. intros i Hi%in_seq. apply H. lia. Qed.

(** [get_sqe] with the stores of its caller *)
Definition push (e : io_uring_sqe) r : ring :=
  (take_slot r).2 <| sqes_ ::= <[(take_slot r).1 := e]> |>.

Lemma push_ok e r :
  ring_ok r -> sq_full r = false ->
  ring_ok (push e r) /\ sq (push e r) = sq r ++ [e] /\ cq (push e r) = cq r.
Proof.
  intros [[n (Hn & He & Hm)] Rcq Rt Rct Rc Rcc Ra Rch]. unfold sq_full. intros Hf%Z.leb_gt.
  set (t := Z.land (sq_tail_ r) (sq_mask_ r)).
  assert (forall i, 0 <= i < u32 (sq_tail_ r - sq_head_ r) ->
    Z.land (u32 (sq_head_ r + i)) (sq_mask_ r) <> t) as Hfree.
  { intros i Hi E. apply (tail_free (sq_mask_ r) n Hn Hm (sq_head_ r) (sq_tail_ r) i); [lia|done|].
    rewrite E. unfold t. f_equal. unfold u32. lia. }
  pose proof (size_bound n Hn).
  assert (Hcount : u32 (u32 (sq_tail_ r + 1) - sq_head_ r) = u32 (sq_tail_ r - sq_head_ r) + 1).
  { unfold u32 in *. lia. }
  split_and!; [|unfold sq; cbn -[Z.land]|done].
  - constructor; cbn -[Z.land]; [by exists n|done|unfold u32; lia|done|lia|done| |done].
    intros i Hi. fold t. destruct (decide (i = u32 (sq_tail_ r - sq_head_ r))) as [->|].
    + assert (Z.land (u32 (sq_head_ r + u32 (sq_tail_ r - sq_head_ r))) (sq_mask_ r) = t) as ->.
      { unfold t. f_equal. unfold u32. lia. }
      apply lookup_insert_eq.
    + rewrite lookup_insert_ne by (intros E; apply (Hfree i); [lia|done]). apply Ra. lia.
  - rewrite (slots_snoc (sq_mask_ r) n Hn Hm (sq_slot (push e r)) (sq_slot (push e r)) _ _ Rt) by (done || lia).
    fold t. f_equal.
    + apply slots_ext. intros i Hi. unfold sq_slot, push, take_slot. cbn -[Z.land]. fold t.
      specialize (Hfree i Hi). rewrite (lookup_insert_ne (sq_array_ r)) by congruence. rewrite (Ra i Hi). cbn -[Z.land].
      by rewrite !lookup_insert_ne by congruence.
    + unfold sq_slot, push, take_slot. cbn -[Z.land]. fold t. rewrite lookup_insert_eq. cbn -[Z.land].
      by rewrite lookup_insert_eq.
Qed.

(** The kernel takes entries at the head. *)
Lemma advance_ok k r :
  ring_ok r -> (k <= length (sq r))%nat ->
  let r' := r <| sq_head_ ::= fun h => u32 (h + Z.of_nat k) |> in
  ring_ok r' /\ sq r' = drop k (sq r) /\ cq r' = cq r.
Proof.
  intros [[n (Hn & He & Hm)] Rcq Rt Rct Rc Rcc Ra Rch] Hk. rewrite sq_length in Hk.
  pose proof (u32_bound (sq_tail_ r - sq_head_ r)).
  assert (u32 (sq_tail_ r - u32 (sq_head_ r + Z.of_nat k)) = u32 (sq_tail_ r - sq_head_ r) - Z.of_nat k)
    as Hcount by (unfold u32 in *; lia).
  split_and!; [constructor; cbn -[Z.land]; try done; [by exists n|lia|]| |done].
  - intros i Hi. assert (u32 (u32 (sq_head_ r + Z.of_nat k) + i) = u32 (sq_head_ r + (Z.of_nat k + i))) as ->
      by (unfold u32; lia).
    apply Ra. lia.
  - unfold sq. cbn. rewrite (slots_drop (sq_mask_ r) n Hn Hm); [done|lia].
Qed.

Lemma post_ok c r :
  ring_ok r -> (0 < room r)%nat ->
  ring_ok (post r c) /\ sq (post r c) = sq r /\ cq (post r c) = cq r ++ [c] /\
  room r = S (room (post r c)) /\ cq_head_ (post r c) = cq_head_ r.
Proof.
  intros [Rsq [n (Hn & He & Hm)] Rt Rct Rc Rcc Ra Rch] Hroom. unfold room in *.
  pose proof (size_bound n Hn).
  assert (Hcount : u32 (u32 (cq_tail_ r + 1) - cq_head_ r) = u32 (cq_tail_ r - cq_head_ r) + 1).
  { unfold u32 in *. lia. }
  split_and!; [|done| |cbn; lia|done].
  - constructor; cbn -[Z.land]; try done; [by exists n|unfold u32; lia|lia].
  - unfold cq. cbn -[Z.land].
    rewrite (slots_snoc (cq_mask_ r) n Hn Hm (cq_slot r) (cq_slot (post r c)) _ _ Rct).
    + unfold cq_slot at 2. cbn -[Z.land]. by rewrite lookup_insert_eq.
    + lia.
    + intros i Hi. unfold cq_slot. cbn -[Z.land]. by rewrite lookup_insert_ne.
Qed.

Lemma posts_ok cs r :
  ring_ok r -> (length cs <= room r)%nat ->
  ring_ok (foldl post r cs) /\ sq (foldl post r cs) = sq r /\ cq (foldl post r cs) = cq r ++ cs /\
  cq_head_ (foldl post r cs) = cq_head_ r.
Proof.
  revert r. induction cs as [|c cs IH]; intros r Hr Hl; cbn [foldl]; [by rewrite app_nil_r|].
  cbn in Hl. destruct (post_ok c r Hr) as (H1 & H2 & H3 & H4 & H5); [lia|].
  destruct (IH (post r c) H1) as (I1 & I2 & I3 & I4); [lia|].
  rewrite I2, I3, I4, H2, H3, <- app_assoc. done.
Qed.

(** The program takes completions at the head. *)
Lemma consume_ok r t :
  ring_ok r -> 0 <= t < 2 ^ 32 -> u32 (t - cq_head_ r) <= u32 (cq_tail_ r - cq_head_ r) ->
  let r' := r <| cq_head_ := t |> in
  ring_ok r' /\ sq r' = sq r /\ cq r' = drop (Z.to_nat (u32 (t - cq_head_ r))) (cq r).
Proof.
  intros [Rsq [n (Hn & He & Hm)] Rt Rct Rc Rcc Ra Rch] Ht Hle.
  assert (0 <= u32 (t - cq_head_ r)) as H0 by (unfold u32; lia).
  split_and!; [constructor; cbn -[Z.land]; try done; [by exists n|unfold u32 in *; lia]|done|].
  unfold cq. rewrite <- (slots_drop (cq_mask_ r) n Hn Hm); [|lia].
  cbn. f_equal. unfold u32 in *. lia.
Qed.
End Rings.

Section Facts.
Context {K F : Type} `{UK : Uring K}.
Notation backend := (IoUring.backend K F).
Implicit Types (s : backend) (e : io_uring_sqe) (c : nat).

(** ** What the kernel does to the rings *)

(** The kernel has taken entries and put completions. *)
Record moved s s' : Prop := {
  mv_ring : ring_ok (rings s) -> ring_ok (rings s');
  mv_queues : exists k cs, sq (rings s') = drop k (sq (rings s)) /\ cq (rings s') = cq (rings s) ++ cs /\
    map sqe_user_data (take k (sq (rings s))) ++ inflight (kernel s) ≡ₚ
    map cqe_user_data cs ++ inflight (kernel s');
  mv_head : cq_head_ (rings s') = cq_head_ (rings s);
  mv_mask : cq_mask_ (rings s') = cq_mask_ (rings s);
  mv_entries : sq_entries_ (rings s') = sq_entries_ (rings s);
  mv_reads : read_ops_ s' = read_ops_ s;
  mv_writes : write_ops_ s' = write_ops_ s;
  mv_contexts : contexts s' = contexts s;
  mv_wake : wake_fd_ s' = wake_fd_ s;
  mv_next : next_node s' = next_node s
}.

Lemma moved_refl s : moved s s.
Proof. constructor; try done. exists 0%nat, []. by rewrite app_nil_r. Qed.

Lemma moved_trans s1 s2 s3 : moved s1 s2 -> moved s2 s3 -> moved s1 s3.
Proof.
  intros [A1 (k1 & c1 & A2 & A3 & A4) A5 A5' A5'' A6 A7 A8 A9 A10] [B1 (k2 & c2 & B2 & B3 & B4) B5 B5' B5'' B6 B7 B8 B9 B10].
  constructor; try congruence; [auto|]. exists (k1 + k2)%nat, (c1 ++ c2).
  rewrite B2, B3, A2, A3, drop_drop, app_assoc. split_and!; try done.
  rewrite <- (take_drop k1 (take (k1 + k2) _)), take_take, (Nat.min_l k1) by lia.
  rewrite <- firstn_skipn_comm, <- A2, !map_app, <- !app_assoc.
  rewrite (Permutation_app_swap_app (map _ (take k1 _))), A4, Permutation_app_swap_app, B4.
  by rewrite Permutation_app_swap_app, app_assoc, <- app_assoc.
Qed.

(** Every entry of the submission queue points into a live node. *)
Definition pointers_live s : Prop :=
  forall e n, e ∈ sq (rings s) -> addr e = OfNode n -> is_Some (node_of s n).

Lemma fetch_all s es :
  (forall e n, e ∈ es -> addr e = OfNode n -> is_Some (node_of s n)) ->
  exists en, mapM (fetch s) es = Ok en /\ map e_tag en = map sqe_user_data es.
Proof.
  induction es as [|e es IH]; intros Hp; [by exists []|].
  destruct IH as (en & Hen & Ht); [intros e' n ?; apply Hp; by apply list_elem_of_further|].
  assert (exists x, fetch s e = Ok x /\ e_tag x = sqe_user_data e) as (x & Hx & Hxt).
  { unfold fetch. specialize (Hp e). destruct (addr e) as [| | |n|]; try by eexists.
    destruct (Hp n) as [o ->]; [apply list_elem_of_here|done|]. by eexists. }
  exists (x :: en). cbn [mapM mbind outcome_bind]. rewrite Hx. cbn [mbind outcome_bind]. rewrite Hen. cbn.
  by rewrite Hxt, Ht.
Qed.

(** A kernel that takes an entry whenever one is offered *)
Definition reliable : Prop :=
  forall es m room (k : K), es <> [] -> (0 < (uring_enter es m room k).1.1)%nat.

Lemma enter_moves n m s :
  pointers_live s -> ring_ok (rings s) -> exists s', io_uring_enter n m s = Ok s' /\ moved s s' /\
    (reliable -> 0 < u32 n -> sq (rings s) <> [] -> (length (sq (rings s')) < length (sq (rings s)))%nat).
Proof.
  intros Hp Hr. unfold io_uring_enter, takeZ. set (j := Z.to_nat (u32 n)).
  destruct (fetch_all s (take j (sq (rings s)))) as (en & -> & Ht).
  { intros e x Hin. apply Hp. rewrite <- (take_drop j). apply elem_of_app. by left. }
  cbn [mbind outcome_bind]. pose proof (enter_law en m (room (rings s)) (kernel s)) as Hl.
  pose proof (fun Hrel : reliable => Hrel en m (room (rings s)) (kernel s)) as Htake.
  destruct (uring_enter en m (room (rings s)) (kernel s)) as [[k cs] w] eqn:E.
  destruct Hl as (Hk & Hcs & Hperm & _). eexists. split; [reflexivity|].
  assert (length en = length (take j (sq (rings s)))) as Hlen.
  { pose proof (f_equal length Ht) as H. by rewrite !length_map in H. }
  rewrite Hlen, length_take in Hk.
  destruct (advance_ok k (rings s) Hr) as (A1 & A2 & A3); [lia|].
  set (r := _ <| sq_head_ ::= _ |>) in *.
  destruct (posts_ok cs r A1) as (P1 & P2 & P3 & P4); [done|].
  split.
  2: { intros Hrel Hn0 Hne. cbn [rings set_field]. rewrite P2, A2, length_drop.
    destruct (sq (rings s)) as [|e0 q0] eqn:Eq; [done|]. cbn in Htake, Hlen |- *.
    assert (en <> []) as Hen by (intros ->; destruct j eqn:Ej; [lia|done]). specialize (Htake Hrel Hen). lia. }
  constructor; try done; cbn [rings kernel set_field].
  - exists k, cs. rewrite P2, P3, A2, A3. split_and!; [done..|]. rewrite <- Hperm, Permutation_app_comm.
    f_equiv. by rewrite <- (firstn_map e_tag), Ht, firstn_map, take_take, Nat.min_l by lia.
  - change (cq_mask_ (rings s)) with (cq_mask_ r). clear. induction cs as [|c cs IH] using rev_ind; [done|]. by rewrite foldl_app.
  - change (sq_entries_ (rings s)) with (sq_entries_ r). clear. induction cs as [|c cs IH] using rev_ind; [done|]. by rewrite foldl_app.
Qed.

Lemma sq_full_spec r : ring_ok r -> sq_full r = true <-> sq_entries_ r = Z.of_nat (length (sq r)).
Proof.
  intros [_ _ _ _ Hc _ _ _]. unfold sq_full. rewrite sq_length, Z.leb_le.
  pose proof (u32_bound (sq_tail_ r - sq_head_ r)). lia.
Qed.

Lemma submit_moves s :
  pointers_live s -> ring_ok (rings s) -> exists s', submit_sqes s = Ok s' /\ moved s s' /\
    (reliable -> sq (rings s) <> [] -> (length (sq (rings s')) < length (sq (rings s)))%nat).
Proof.
  intros Hp Hr. unfold submit_sqes. set (n := u32 (sq_tail_ (rings s) - sq_head_ (rings s))).
  pose proof (u32_bound (sq_tail_ (rings s) - sq_head_ (rings s))) as Hb. fold n in Hb.
  destruct (0 <? n) eqn:En.
  - destruct (enter_moves n 0 s Hp Hr) as (s' & -> & Hm & Hs). exists s'. split_and!; [done..|].
    intros Hrel. apply Hs; [done|]. unfold u32 in *. lia.
  - exists s. split_and!; [done|apply moved_refl|]. intros _ Hne. destruct Hne.
    apply nil_length_inv. rewrite sq_length. fold n. lia.
Qed.

(** [queue_sqe]: the kernel has moved, and the entry is at the end of the queue
    unless the queue is still full. *)
Lemma queue_moves e s :
  pointers_live s -> ring_ok (rings s) ->
  exists s1 b, moved s s1 /\ sq_full (rings s1) = negb b /\ (reliable -> b = true) /\
    queue_sqe e s = Ok (b, if b then s1 <| rings ::= push e |> else s1).
Proof.
  intros Hp Hr. unfold queue_sqe, get_sqe.
  assert (exists s1, (if sq_full (rings s) then submit_sqes s else Ok s) = Ok s1 /\ moved s s1 /\
    (reliable -> sq_full (rings s1) = false)) as (s1 & -> & Hm & Hrel).
  { destruct (sq_full (rings s)) eqn:Ef; [|exists s; split_and!; [done|apply moved_refl|done]].
    destruct (submit_moves s Hp Hr) as (s1 & Hs1 & Hm & Hl). exists s1. split_and!; [done..|].
    intros Hrel. apply not_true_is_false. intros Ef1.
    apply sq_full_spec in Ef, Ef1; [|apply Hm, Hr|done]. rewrite (mv_entries _ _ Hm) in Ef1.
    destruct (ro_sq _ Hr) as [n (Hn & He & _)]. pose proof (size_bound n Hn).
    assert (sq (rings s) <> []) as Hne by (intros E; rewrite E in Ef; cbn in Ef; lia).
    specialize (Hl Hrel Hne). lia. }
  cbn [mbind outcome_bind]. destruct (sq_full (rings s1)) eqn:Ef.
  - exists s1, false. split_and!; [done..| |done]. intros Hr1. by specialize (Hrel Hr1).
  - exists s1, true. destruct (take_slot (rings s1)) as [i r] eqn:Et. split_and!; [done..|].
    change (s1 <| rings ::= push e |>) with (s1 <| rings := push e (rings s1) |>).
    unfold push. by rewrite Et.
Qed.

(** ** The invariant

    [d] completions have been handled of those in the queue, and [x] is what is
    owed: a context whose operation is being submitted, or the poll of the event
    descriptor that is being armed. *)

Definition ctx_tag (u : user_data) : option nat := match u with Context c => Some c | _ => None end.

(** The entries that are queued, in the kernel, or completed and not handled *)
Definition tags (d : nat) s : list user_data :=
  map sqe_user_data (sq (rings s)) ++ inflight (kernel s) ++ map cqe_user_data (drop d (cq (rings s))).

Definition flying (d : nat) s : list nat := omap ctx_tag (tags d s).

Definition waiting c s : Prop := exists o, contexts s !! c = Some o /\ completed_ o = None.

(** The table of the reads, or that of the writes *)
Definition table (w : bool) s : gmap Z IoUring.PendingOp := if w then write_ops_ s else read_ops_ s.

Definition points e s : Prop :=
  forall n, addr e = OfNode n -> exists w fd op,
    table w s !! fd = Some op /\ node op = n /\ sqe_user_data e = Context (ctx_ op).

(** How often the poll of the event descriptor is there *)
#[local] Instance user_data_dec : EqDecision user_data.
Proof. solve_decision. Defined.

Definition wakeups (d : nat) s : nat := length (filter (fun u => u = WAKEUP_USER_DATA) (tags d s)).

Record inv (d : nat) (x : user_data) s : Prop := {
  in_ring : ring_ok (rings s);
  in_once : NoDup (flying d s);
  in_flying c : c ∈ flying d s <-> waiting c s /\ x <> Context c;
  in_table w fd op : table w s !! fd = Some op -> waiting (ctx_ op) s;
  in_unique w fd op w' fd' op' : table w s !! fd = Some op -> table w' s !! fd' = Some op' ->
    ctx_ op = ctx_ op' -> w = w' /\ fd = fd';
  in_pointers e : e ∈ sq (rings s) -> points e s;
  in_nodes w fd op : table w s !! fd = Some op -> (node op < next_node s)%nat;
  in_armed : reliable -> 0 <= wake_fd_ s -> wakeups d s = if decide (x = WAKEUP_USER_DATA) then 0%nat else 1%nat
}.

Lemma find_op_some (p : PendingOp -> bool) (m : gmap Z PendingOp) fd op :
  m !! fd = Some op -> p op = true -> is_Some (find_op p m).
Proof.
  intros Hm Hp. unfold find_op. destruct (List.find _ _) as [y|] eqn:E; [done|].
  apply List.find_none with (x := (fd, op)) in E; [cbn in E; congruence|].
  by apply list_elem_of_In, elem_of_map_to_list.
Qed.

Lemma inv_live d x s : inv d x s -> pointers_live s.
Proof.
  intros Hi e n He Hn. destruct (in_pointers _ _ _ Hi e He n Hn) as (w & fd & op & Ht & Ho & _).
  unfold node_of. assert ((node op =? n)%nat = true) as Hp by by apply Nat.eqb_eq. destruct w; cbn in Ht.
  - destruct (find_op _ (read_ops_ s)) as [[? ?]|]; [done|].
    by destruct (find_op_some (fun o => (node o =? n)%nat) _ _ _ Ht Hp) as [[? ?] ->].
  - by destruct (find_op_some (fun o => (node o =? n)%nat) _ _ _ Ht Hp) as [[? ?] ->].
Qed.

Lemma moved_tags d s s' :
  moved s s' -> (d <= length (cq (rings s)))%nat -> tags d s' ≡ₚ tags d s.
Proof.
  intros [_ (k & cs & H1 & H2 & H3) _ _ _ _ _ _ _ _] Hd. unfold tags. rewrite H1, H2, drop_app_le, map_app by done.
  rewrite <- (take_drop k (sq (rings s))) at 2. rewrite map_app, <- app_assoc.
  rewrite (Permutation_app_swap_app (map _ (take k _))), (app_assoc (map _ (take k _))), H3.
  rewrite <- !app_assoc. f_equiv. rewrite (Permutation_app_swap_app (map _ cs)). f_equiv. apply Permutation_app_comm.
Qed.

Lemma moved_inv d x s s' :
  moved s s' -> (d <= length (cq (rings s)))%nat -> inv d x s -> inv d x s'.
Proof.
  intros Hm Hd Hi. pose proof (moved_tags d s s' Hm Hd) as Ht.
  assert (flying d s' ≡ₚ flying d s) as Hf by (unfold flying; by rewrite Ht).
  destruct Hi. destruct Hm as [M1 (k & cs & M2 & _) _ _ _ M3 M4 M5 M6 M7]. unfold waiting, points, table in *.
  constructor; unfold waiting, points, table; rewrite ?M3, ?M4, ?M5, ?M7; try done; [auto|by rewrite Hf| | |].
  - intros c. by rewrite Hf.
  - intros e. rewrite M2. intros He. apply in_pointers0. rewrite <- (take_drop k). apply elem_of_app. by right.
  - unfold wakeups. by rewrite Ht, M6.
Qed.

Lemma inv_same d x y s :
  (forall c, x = Context c <-> y = Context c) -> (x = WAKEUP_USER_DATA <-> y = WAKEUP_USER_DATA) ->
  inv d x s -> inv d y s.
Proof.
  intros Hc Hw [I1 I2 I3 I4 I5 I6 I8 I7]. constructor; try done.
  - intros c. rewrite I3. by rewrite Hc.
  - intros Hr Hwk. rewrite (I7 Hr Hwk). by do 2 case_decide; try naive_solver.
Qed.

(** The poll could not be armed. *)
Lemma inv_refused d s : inv d WAKEUP_USER_DATA s -> ~ (reliable /\ 0 <= wake_fd_ s) -> inv d NullData s.
Proof.
  intros [I1 I2 I3 I4 I5 I6 I8 I7] Hr. constructor; try done.
  - intros c. rewrite I3. split; intros [? ?]; by split.
  - intros ? ?. by destruct Hr.
Qed.

(** What is owed is queued. *)
Lemma push_inv d e s :
  inv d (sqe_user_data e) s -> sq_full (rings s) = false -> points e s ->
  (forall c, sqe_user_data e = Context c -> waiting c s) -> inv d NullData (s <| rings ::= push e |>).
Proof.
  intros [I1 I2 I3 I4 I5 I6 I8 I7] Hf Hp Hc. destruct (push_ok e _ I1 Hf) as (P1 & P2 & P3).
  set (s' := s <| rings ::= _ |>).
  assert (tags d s' ≡ₚ sqe_user_data e :: tags d s) as Ht.
  { unfold tags. cbn [rings kernel s' set_field]. rewrite P2, P3, map_app, <- app_assoc. cbn [map].
    symmetry. apply Permutation_middle. }
  assert (flying d s' ≡ₚ match ctx_tag (sqe_user_data e) with Some c => [c] | None => [] end ++ flying d s) as Hfl.
  { unfold flying. rewrite Ht. cbn. by destruct (ctx_tag _). }
  constructor; try done.
  - rewrite Hfl. destruct (sqe_user_data e) as [| | |c]; try done. constructor; [|done]. rewrite I3. by intros [_ []].
  - intros y. rewrite Hfl, elem_of_app, I3. destruct (sqe_user_data e) as [| | |c]; cbn;
      rewrite ?list_elem_of_singleton, ?elem_of_nil.
    1-3: split; [by intros [?|[? _]]|by intros [? _]; right].
    split; [intros [->|[? _]]; [by split; [apply Hc|]|done]|].
    intros [Hy _]. destruct (decide (y = c)) as [->|]; [by left|right]. split; [done|congruence].
  - intros e'. cbn [rings s' set_field]. rewrite P2, elem_of_app, list_elem_of_singleton.
    intros [H| ->]; [by apply I6|done].
  - intros Hr Hw. unfold wakeups. rewrite Ht, filter_cons. specialize (I7 Hr Hw). unfold wakeups in I7.
    rewrite (decide_False (P := NullData = _)) by done. by case_decide; cbn; rewrite I7.
Qed.

(** The operation of [c] completes and leaves the tables. *)
Lemma settle_inv d c r s s' :
  inv d (Context c) s -> rings s' = rings s -> kernel s' = kernel s ->
  contexts s' = contexts (complete c r s) -> wake_fd_ s' = wake_fd_ s -> next_node s' = next_node s ->
  (forall w fd op, table w s' !! fd = Some op <-> table w s !! fd = Some op /\ ctx_ op <> c) ->
  inv d NullData s'.
Proof.
  intros [I1 I2 I3 I4 I5 I6 I8 I7] Hr Hk Hc Hwf Hnx Ht.
  assert (forall y, waiting y s' <-> waiting y s /\ y <> c) as Hw.
  { intros y. unfold waiting. rewrite Hc. cbn. destruct (decide (y = c)) as [->|Hne].
    - setoid_rewrite list_lookup_alter_eq. destruct (contexts s !! c); naive_solver.
    - setoid_rewrite list_lookup_alter_ne; [|done]. naive_solver. }
  unfold flying, wakeups, tags in *. constructor; unfold flying, wakeups, tags; rewrite ?Hr, ?Hk, ?Hwf; try done.
  - intros y. rewrite I3, Hw. split; [intros [? Hne]; split; [split; [done|congruence]|done]|].
    intros [[? ?] _]. split; [done|congruence].
  - intros w fd op [H Hne]%Ht. apply Hw. split; [by eapply I4|done].
  - intros w fd op w' fd' op' [H _]%Ht [H' _]%Ht. by eapply I5.
  - intros e He n Hn. destruct (I6 e He n Hn) as (w & fd & op & H & Ho & He').
    exists w, fd, op. split_and!; try done. apply Ht. split; [done|]. intros E.
    apply (I3 c); [|done]. rewrite !omap_app, elem_of_app. left. apply list_elem_of_omap.
    exists (Context c). split; [|done]. rewrite <- E, <- He'. by apply list_elem_of_fmap_2.
  - intros w fd op [H _]%Ht. rewrite Hnx. by eapply I8.
Qed.

Definition insert_op (w : bool) (fd : Z) (op : IoUring.PendingOp) s : backend :=
  if w then s <| write_ops_ ::= <[fd := op]> |> <| next_node ::= S |>
  else s <| read_ops_ ::= <[fd := op]> |> <| next_node ::= S |>.

Definition new_context (co : handle F) : operation_context := {| handle_ := co; completed_ := None |}.

(** A new context, and its operation in a table *)
Lemma insert_inv d w fd op co s :
  inv d NullData s -> table w s !! fd = None -> ctx_ op = length (contexts s) -> node op = next_node s ->
  let s' := insert_op w fd op (s <| contexts ::= fun l => l ++ [new_context co] |>) in
  inv d (Context (length (contexts s))) s' /\ waiting (length (contexts s)) s'.
Proof.
  intros [I1 I2 I3 I4 I5 I6 I8 I7] Hfree Hctx Hnode s'. set (c := length (contexts s)).
  assert (contexts s' = contexts s ++ [new_context co]) as Hc by (unfold s'; by destruct w).
  assert (rings s' = rings s /\ kernel s' = kernel s /\ wake_fd_ s' = wake_fd_ s) as (Hr & Hk & Hwf)
    by (unfold s'; by destruct w).
  assert (forall y, waiting y s' <-> waiting y s \/ y = c) as Hw.
  { intros y. unfold waiting. rewrite Hc. split.
    - intros (o & [H|[Hl H]]%lookup_app_Some & Ho); [left; by exists o|]. right.
      apply list_lookup_singleton_Some in H as [? _]. unfold c. lia.
    - intros [(o & H & Ho)| ->]; [exists o; by rewrite (lookup_app_l_Some _ _ _ _ H)|].
      exists (new_context co). split; [|done]. by apply list_lookup_middle. }
  assert (~ waiting c s) as Hnew by by intros (o & H%lookup_lt_Some & _); unfold c in H; lia.
  assert (forall w' fd' op', table w' s' !! fd' = Some op' <->
    (w' = w /\ fd' = fd /\ op' = op) \/ table w' s !! fd' = Some op') as Ht.
  { intros w' fd' op'. unfold s', insert_op, table in *.
    destruct w, w'; cbn in *; rewrite ?lookup_insert_Some; naive_solver. }
  split; [|apply Hw; by right]. unfold flying, wakeups, tags in *.
  constructor; unfold flying, wakeups, tags; rewrite ?Hr, ?Hk, ?Hwf; try done.
  - intros y. rewrite I3, Hw. split; [intros [Hy _]; split; [by left|congruence]|].
    intros [[?| ->] ?]; [by split|done].
  - intros w' fd' op' [(_ & _ & ->)|H]%Ht; apply Hw; [by right|left; by eapply I4].
  - intros w1 fd1 op1 w2 fd2 op2 [(-> & -> & ->)|H1]%Ht [(-> & -> & ->)|H2]%Ht E; try done.
    + destruct Hnew. unfold c. rewrite <- Hctx, E. by eapply I4.
    + destruct Hnew. unfold c. rewrite <- Hctx, <- E. by eapply I4.
    + by eapply I5.
  - intros e He n Hn. destruct (I6 e He n Hn) as (w1 & fd1 & op1 & H1 & ? & ?).
    exists w1, fd1, op1. split_and!; try done. apply Ht. by right.
  - assert (next_node s' = S (next_node s)) as -> by (unfold s'; by destruct w).
    intros w' fd' op' [(_ & _ & ->)|H]%Ht; [lia|]. specialize (I8 _ _ _ H). lia.
Qed.

(** ** Submission *)

(** Contexts stay, with their coroutines, and a completion is final. *)
Definition stable s s' : Prop :=
  forall c o, contexts s !! c = Some o -> exists o', contexts s' !! c = Some o' /\
    handle_ o' = handle_ o /\ (completed_ o <> None -> o' = o).

#[local] Instance stable_preorder : PreOrder stable.
Proof.
  split; [by intros s c o H; exists o|]. intros s1 s2 s3 H12 H23 c o H.
  destruct (H12 c o H) as (o2 & H2 & Hh & Hc). destruct (H23 c o2 H2) as (o3 & H3 & Hh' & Hc').
  exists o3. split_and!; [done|congruence|]. intros Hn. pose proof (Hc Hn) as ->. by apply Hc'.
Qed.

Lemma complete_stable c r s : waiting c s -> stable s (complete c r s).
Proof.
  intros (o & Ho & Hn) c' o' Ho'. cbn. destruct (decide (c' = c)) as [->|Hne].
  - rewrite list_lookup_alter_eq, Ho'. eexists. split_and!; [done|done|]. congruence.
  - rewrite list_lookup_alter_ne by done. by exists o'.
Qed.

Definition queue_op (w : bool) : Z -> nat -> io_uring_sqe -> backend -> outcome backend :=
  if w then queue_write else queue_read.

Definition erase_op (w : bool) (fd : Z) s : backend :=
  if w then s <| write_ops_ ::= delete fd |> else s <| read_ops_ ::= delete fd |>.

Lemma erase_table w fd s w' fd' op :
  table w' (erase_op w fd s) !! fd' = Some op <-> table w' s !! fd' = Some op /\ ~ (w' = w /\ fd' = fd).
Proof.
  unfold erase_op, table. destruct w, w'; cbn; rewrite ?lookup_delete_Some; naive_solver.
Qed.

Lemma settle_erase d c r w fd op s :
  inv d (Context c) s -> table w s !! fd = Some op -> ctx_ op = c -> inv d NullData (erase_op w fd (complete c r s)).
Proof.
  intros Hi Ht Hc. apply (settle_inv d c r s); [done|by destruct w..|].
  intros w' fd' op'. rewrite erase_table. change (table w' (complete c r s)) with (table w' s).
  split; intros [H1 H2]; (split; [done|]).
  - intros E. destruct (in_unique _ _ _ Hi w' fd' op' w fd op) as [-> ->]; [done..|congruence|]. by apply H2.
  - intros [-> ->]. congruence.
Qed.

Lemma queue_ok w d fd c e op s :
  inv d (Context c) s -> (d <= length (cq (rings s)))%nat -> waiting c s ->
  table w s !! fd = Some op -> ctx_ op = c -> sqe_user_data e = Context c ->
  (forall n, addr e = OfNode n -> n = node op) ->
  exists s', queue_op w fd c e s = Ok s' /\ inv d NullData s' /\ stable s s' /\
    (waiting c s' \/ contexts s' = contexts (complete c (completed (-1) EBUSY) s)).
Proof.
  intros Hi Hd Hw Ht Hc He Ha. destruct (queue_moves e s) as (s1 & b & Hm & Hf & _ & Hq);
    [by eapply inv_live|apply Hi|].
  assert (inv d (Context c) s1) as Hi1 by by eapply moved_inv.
  assert (contexts s1 = contexts s) as Hc1 by apply Hm.
  assert (waiting c s1) as Hw1 by (unfold waiting; by rewrite Hc1).
  assert (table w s1 !! fd = Some op) as Ht1.
  { destruct Hm as [_ _ _ _ _ Mr Mw _ _ _]. unfold table in *. by rewrite Mr, Mw. }
  assert (queue_op w fd c e s =
    Ok (if b then s1 <| rings ::= push e |> else erase_op w fd (complete c (completed (-1) EBUSY) s1))) as ->.
  { unfold queue_op, queue_read, queue_write, erase_op. by destruct w; rewrite Hq; destruct b. }
  eexists. split; [done|]. destruct b; cbn [negb] in Hf.
  - split_and!; [apply push_inv; rewrite ?He; try done| |left; apply Hw1].
    + intros n Hn. exists w, fd, op. rewrite (Ha n Hn), Hc. done.
    + by intros y [= <-].
    + intros y o H. exists o. split_and!; [by cbn; rewrite Hc1|done..].
  - split_and!; [by eapply settle_erase| |right; destruct w; cbn; by rewrite Hc1].
    intros y o H. destruct (complete_stable c (completed (-1) EBUSY) s1 Hw1 y o) as (o' & Ho' & ?);
      [by rewrite Hc1|]. exists o'. split; [|done]. by destruct w.
Qed.

(** What [submit_impl] puts into which table, and queues. *)
Definition side (r : request) : bool :=
  match r with
  | AsyncRead _ _ | AsyncRecvFrom _ _ | AsyncAccept _ | AsyncWaitReadable _ => false
  | _ => true
  end.

Definition address_fits (r : request) : Prop :=
  match r with AsyncConnect _ a => len a <= 128 | _ => True end.

Lemma side_table r s : side_free r s -> table (side r) s !! request_fd r = None.
Proof. by destruct r. Qed.

Lemma submit_shape r c s :
  side_free r s -> address_fits r ->
  exists op e, ctx_ op = c /\ node op = next_node s /\ sqe_user_data e = Context c /\ (forall n, addr e = OfNode n -> n = node op) /\
    submit_impl r c s =
    queue_op (side r) (request_fd r) c e (insert_op (side r) (request_fd r) op s).
Proof.
  intros Hfree Ha. destruct r; cbn in Hfree, Ha;
    unfold submit_impl, async_read_impl, async_write_impl, async_recvfrom_impl, async_sendto_impl,
      async_accept_impl, async_connect_impl, async_wait_readable_impl, async_wait_writable_impl,
      put_read, put_write; rewrite ?Hfree; cbn [default from_option];
    try (case_match; [exfalso; lia|]); eexists _, _; (split; [|split; [|split; [|split; [|reflexivity]]]]); try done;
    try (by intros n [= <-]); destruct (_ && _); try done; by intros n [= <-].
Qed.

(** A submission in a state of the invariant *)
Lemma await_ok r co s :
  inv 0 NullData s -> side_free r s -> address_fits r ->
  exists s' now, await_operation r co s = Ok (s', now) /\ inv 0 NullData s' /\ stable s s'.
Proof.
  intros Hi Hfree Ha. unfold await_operation. set (c := length (contexts s)).
  set (s1 := s <| contexts ::= _ |>).
  destruct (submit_shape r c s1) as (op & e & Hc & Hno & He & Hn & ->); [by destruct r|done|].
  destruct (insert_inv 0 (side r) (request_fd r) op co s) as [Hi2 Hw2]; [done|by apply side_table|done|done|].
  fold s1 c in Hi2, Hw2. set (s2 := insert_op _ _ _ s1) in *.
  destruct (queue_ok (side r) 0 (request_fd r) c e op s2) as (s3 & -> & H1 & H2 & _); try done; [lia| |].
  { unfold s2, insert_op, table. destruct (side r); cbn; apply lookup_insert_eq. }
  eexists _, _. split; [done|]. split; [done|]. etrans; [|exact H2].
  intros y o H. exists o. split_and!; [|done..].
  assert (contexts s2 = contexts s ++ [new_context co]) as -> by (unfold s2, insert_op; by destruct (side r)).
  by apply lookup_app_l_Some.
Qed.

Lemma deregister_ok fd s : inv 0 NullData s -> unqueued fd s -> inv 0 NullData (deregister_impl fd s).
Proof.
  intros [I1 I2 I3 I4 I5 I6 I8 I7] Hu.
  assert (forall w fd' op, table w (deregister_impl fd s) !! fd' = Some op <->
    table w s !! fd' = Some op /\ fd' <> fd) as Ht.
  { intros w fd' op. unfold table. destruct w; cbn; rewrite lookup_delete_Some; naive_solver. }
  constructor; try done.
  - intros w fd' op [H _]%Ht. by eapply I4.
  - intros w1 fd1 op1 w2 fd2 op2 [H1 _]%Ht [H2 _]%Ht. by eapply I5.
  - intros e He n Hn. destruct (I6 e He n Hn) as (w & fd' & op & H & Ho & He').
    exists w, fd', op. split_and!; try done. apply Ht. split; [done|]. intros ->.
    apply (Hu op e); [destruct w; [by right|by left]|done|congruence].
  - intros w fd' op [H _]%Ht. by eapply I8.
Qed.

(** ** Completion *)

(** Contexts that were completed, each named once *)
Definition done_ok (cs : list nat) s : Prop := NoDup cs /\ forall c, c ∈ cs -> is_completed c s = true.

Lemma waiting_completed c s : waiting c s -> is_completed c s = false.
Proof. intros (o & Ho & Hn). unfold is_completed. rewrite Ho. by destruct o as [h [x|]]. Qed.

Lemma completed_stable c s s' : stable s s' -> is_completed c s = true -> is_completed c s' = true.
Proof.
  intros Hs. unfold is_completed. destruct (contexts s !! c) as [[h [x|]]|] eqn:E; try done.
  destruct (Hs c _ E) as (o' & -> & _ & Ho). by rewrite (Ho ltac:(done)).
Qed.

(** Completions have been handled, and the contexts [new] are to resume. *)
Record handled s s' (new : list nat) : Prop := {
  hd_stable : stable s s';
  hd_cq : exists p, cq (rings s') = cq (rings s) ++ p;
  hd_head : cq_head_ (rings s') = cq_head_ (rings s);
  hd_mask : cq_mask_ (rings s') = cq_mask_ (rings s);
  hd_done h : done_ok h s -> done_ok (h ++ new) s'
}.

Lemma handled_trans s1 s2 s3 n1 n2 :
  handled s1 s2 n1 -> handled s2 s3 n2 -> handled s1 s3 (n1 ++ n2).
Proof.
  intros [A1 [p A2] A3 A4 A5] [B1 [q B2] B3 B4 B5]. constructor; try congruence.
  - by etrans.
  - exists (p ++ q). by rewrite B2, A2, app_assoc.
  - intros h Hh. rewrite app_assoc. auto.
Qed.

Lemma handled_silent s s' :
  contexts s' = contexts s -> (exists p, cq (rings s') = cq (rings s) ++ p) ->
  cq_head_ (rings s') = cq_head_ (rings s) -> cq_mask_ (rings s') = cq_mask_ (rings s) ->
  handled s s' [].
Proof.
  intros Hc Hq Hh Hm. constructor; try done.
  - intros c o. rewrite Hc. by exists o.
  - intros h. rewrite app_nil_r. unfold done_ok, is_completed. by rewrite Hc.
Qed.

Lemma cq_lookup r d :
  (d < length (cq r))%nat -> cq r !! d = Some (cq_slot r (Z.land (u32 (cq_head_ r + Z.of_nat d)) (cq_mask_ r))).
Proof.
  intros Hd. rewrite cq_length in Hd. unfold cq, slots_of.
  change (@map nat io_uring_cqe) with (@fmap list _ nat io_uring_cqe).
  by rewrite list_lookup_fmap, lookup_seq_lt by done.
Qed.

Lemma find_op_in (p : PendingOp -> bool) (m : gmap Z PendingOp) fd op :
  find_op p m = Some (fd, op) -> m !! fd = Some op /\ p op = true.
Proof.
  unfold find_op. intros [H Hp]%List.find_some. split; [|done].
  by apply list_elem_of_In, elem_of_map_to_list in H.
Qed.

Lemma find_op_none (p : PendingOp -> bool) (m : gmap Z PendingOp) fd op :
  find_op p m = None -> m !! fd = Some op -> p op = false.
Proof.
  intros Hf Hm. destruct (p op) eqn:E; [|done]. by destruct (find_op_some p m fd op Hm E) as [? H]; rewrite Hf in H.
Qed.

(** [complete_cqe] is the completion of the context and the erasure of its entry,
    if it has one. *)
Lemma complete_cqe_ok d c q s :
  inv d (Context c) s -> waiting c s ->
  inv d NullData (complete_cqe c q s) /\ exists r, contexts (complete_cqe c q s) = contexts (complete c r s).
Proof.
  intros Hi Hw. unfold complete_cqe.
  destruct (find_op _ (read_ops_ s)) as [[fd op]|] eqn:Er.
  { apply find_op_in in Er as [Hm He]. apply Nat.eqb_eq in He.
    split; [|by eexists]. by apply (settle_erase d c _ false fd op). }
  cbn [write_ops_ complete set_field].
  destruct (find_op _ (write_ops_ s)) as [[fd op]|] eqn:Ew.
  { apply find_op_in in Ew as [Hm He]. apply Nat.eqb_eq in He.
    split; [|by eexists]. by apply (settle_erase d c _ true fd op). }
  split; [|by eexists]. apply (settle_inv d c (plain_completion q) s); try done.
  intros w fd op. split; [|by intros [? _]]. intros H. split; [done|]. intros E%Nat.eqb_eq.
  by destruct w; [pose proof (find_op_none _ _ _ _ Ew H)|pose proof (find_op_none _ _ _ _ Er H)]; congruence.
Qed.

Lemma flying_head d q s :
  cq (rings s) !! d = Some q ->
  flying d s ≡ₚ match ctx_tag (cqe_user_data q) with Some c => [c] | None => [] end ++ flying (S d) s.
Proof.
  intros Hq. unfold flying, tags. rewrite (drop_S _ q) by done. cbn [map]. rewrite !omap_app. cbn.
  destruct (ctx_tag _) as [c|]; cbn; [|done]. by rewrite <- !Permutation_middle.
Qed.

Lemma next_inv d q s :
  cq (rings s) !! d = Some q -> inv d NullData s ->
  inv (S d) (cqe_user_data q) s /\ forall c, cqe_user_data q = Context c -> waiting c s.
Proof.
  intros Hq [I1 I2 I3 I4 I5 I6 I8 I7]. pose proof (flying_head d q s Hq) as Hf.
  assert (tags d s ≡ₚ cqe_user_data q :: tags (S d) s) as Ht.
  { unfold tags. rewrite (drop_S _ q) by done. cbn [map]. by rewrite <- !Permutation_middle. }
  assert (forall y, waiting y s <-> cqe_user_data q = Context y \/ y ∈ flying (S d) s) as Hy.
  { intros y. transitivity (y ∈ flying d s); [rewrite I3; naive_solver|]. rewrite Hf, elem_of_app.
    destruct (cqe_user_data q) as [| | |c]; cbn [ctx_tag]; rewrite ?elem_of_nil, ?list_elem_of_singleton;
      naive_solver. }
  split; [|intros c Hc; apply Hy; by left]. rewrite Hf in I2. apply NoDup_app in I2 as (_ & Hn & I2).
  constructor; try done.
  - intros y. rewrite Hy. split; [|naive_solver]. intros Hin. split; [by right|]. intros E. rewrite E in Hn.
    by apply (Hn y); [apply list_elem_of_here|].
  - intros Hr Hw. specialize (I7 Hr Hw). unfold wakeups in *. rewrite Ht, filter_cons in I7.
    rewrite (decide_False (P := NullData = WAKEUP_USER_DATA)) in I7 by done. case_decide; cbn in I7; lia.
Qed.

(** One completion, the [d]-th of the queue *)
Lemma cqe_ok d q s rs :
  inv d NullData s -> cq (rings s) !! d = Some q ->
  exists s' new, handle_cqe q s rs = Ok (s', rs ++ new) /\ inv (S d) NullData s' /\ handled s s' new.
Proof.
  intros Hi Hq. destruct (next_inv d q s Hq Hi) as [Hi1 Hw]. pose proof (lookup_lt_Some _ _ _ Hq) as Hd.
  assert (forall s, exists p, cq (rings s) = cq (rings s) ++ p) as Hnil by (intros s1; exists []; by rewrite app_nil_r).
  unfold handle_cqe. destruct (cqe_user_data q) as [| | |c].
  1, 2: exists s, []; rewrite app_nil_r; split_and!; [done|by apply (inv_same (S d) _ NullData) in Hi1|by apply handled_silent].
  - set (s1 := s <| kernel ::= _ |>).
    assert (inv (S d) WAKEUP_USER_DATA s1) as Hi2.
    { destruct Hi1. unfold flying, wakeups, tags in *. constructor; unfold flying, wakeups, tags; try done;
        cbn; by rewrite read_event_law. }
    destruct (queue_moves (wakeup_sqe s1) s1) as (s2 & b & Hm & Hf & Hrel & ->); [by eapply inv_live|apply Hi2|].
    eapply moved_inv in Hi2; [|exact Hm|exact Hd]. destruct Hm as [_ (k & cs & _ & M2 & _) M3 M4 _ _ _ M5 _ _].
    cbn [mbind outcome_bind]. eexists _, []. rewrite app_nil_r. split; [done|].
    destruct b; [split; [by apply push_inv|]|split; [by apply inv_refused; [|intros [?%Hrel _]]|]];
      (apply handled_silent; [done|by exists cs|done|done]).
  - destruct (complete_cqe_ok (S d) c q s Hi1 (Hw c eq_refl)) as [Hi2 [r Hc]].
    eexists _, [c]. split; [done|]. split; [done|].
    assert (rings (complete_cqe c q s) = rings s) as Hr by (unfold complete_cqe; by repeat case_match).
    assert (stable s (complete_cqe c q s)) as Hst.
    { intros y o Hy. rewrite Hc. by apply (complete_stable c r s (Hw c eq_refl)). }
    constructor; rewrite ?Hr; try done. intros h [Hn Hh]. split.
    + apply NoDup_app. split_and!; [done| |by apply NoDup_singleton].
      intros y Hy ->%list_elem_of_singleton. pose proof (Hh c Hy) as Hcc.
      by rewrite (waiting_completed c s (Hw c eq_refl)) in Hcc.
    + intros y [Hy| ->%list_elem_of_singleton]%elem_of_app; [by eapply completed_stable, Hh|].
      unfold is_completed. rewrite Hc. cbn. destruct (Hw c eq_refl) as (o & Ho & _).
      by rewrite list_lookup_alter_eq, Ho.
Qed.

Lemma loop_ok n fuel d s rs :
  inv d NullData s -> (d <= n <= length (cq (rings s)))%nat -> (n - d <= fuel)%nat ->
  exists s' new, cqe_loop fuel (u32 (cq_head_ (rings s) + Z.of_nat d)) (u32 (cq_head_ (rings s) + Z.of_nat n)) s rs
    = Ok (s', rs ++ new) /\ inv n NullData s' /\ handled s s' new.
Proof.
  revert d s rs. induction fuel as [|fuel IH]; intros d s rs Hi Hd Hf; cbn [cqe_loop].
  { replace n with d by lia. rewrite Z.eqb_refl. exists s, []. rewrite app_nil_r. split_and!; [done..|].
    apply handled_silent; try done. exists []. by rewrite app_nil_r. }
  assert (Hbound : Z.of_nat n < 2 ^ 32).
  { destruct (in_ring _ _ _ Hi) as [_ [m (Hm & He & _)] _ _ _ Hc _ _]. rewrite cq_length in Hd.
    pose proof (u32_bound (cq_tail_ (rings s) - cq_head_ (rings s))). lia. }
  destruct (decide (d = n)) as [->|Hne].
  { rewrite Z.eqb_refl. exists s, []. rewrite app_nil_r. split_and!; [done..|].
    apply handled_silent; try done. exists []. by rewrite app_nil_r. }
  rewrite (proj2 (Z.eqb_neq _ _)) by (unfold u32; lia).
  pose proof (cq_lookup (rings s) d ltac:(lia)) as Hq. set (q := cq_slot _ _) in *.
  destruct (cqe_ok d q s rs Hi Hq) as (s1 & new & -> & Hi1 & H1). cbn [mbind outcome_bind].
  destruct H1 as [A1 [p A2] A3 A4 A5] eqn:E1. rewrite <- A3.
  replace (u32 (u32 (cq_head_ (rings s1) + Z.of_nat d) + 1)) with (u32 (cq_head_ (rings s1) + Z.of_nat (S d)))
    by (unfold u32; lia).
  destruct (IH (S d) s1 (rs ++ new) Hi1) as (s2 & new2 & -> & Hi2 & H2); [rewrite A2, length_app; lia|lia|].
  exists s2, (new ++ new2). rewrite app_assoc. split_and!; [done..|]. by eapply handled_trans.
Qed.

Lemma process_ok s :
  inv 0 NullData s ->
  exists s' cs, process_cqes s = Ok (s', cs) /\ inv 0 NullData s' /\ stable s s' /\
    forall h, done_ok h s -> done_ok (h ++ cs) s'.
Proof.
  intros Hi. unfold process_cqes. set (n := length (cq (rings s))).
  pose proof (in_ring _ _ _ Hi) as Hr. pose proof (ro_cq_tail _ Hr) as Ht.
  pose proof (u32_bound (cq_tail_ (rings s) - cq_head_ (rings s))) as Hb.
  assert (Hn : Z.of_nat n = u32 (cq_tail_ (rings s) - cq_head_ (rings s))).
  { unfold n. rewrite cq_length. lia. }
  destruct (loop_ok n (Z.to_nat (u32 (cq_tail_ (rings s) - cq_head_ (rings s)))) 0 s [])
    as (s1 & new & Hl & Hi1 & [A1 [p A2] A3 A4 A5]); [done|lia|lia|].
  assert (u32 (cq_head_ (rings s) + Z.of_nat n) = cq_tail_ (rings s)) as E by (unfold u32 in *; lia).
  replace (u32 (cq_head_ (rings s) + Z.of_nat 0)) with (cq_head_ (rings s)) in Hl
    by (pose proof (ro_cq_head _ Hr); unfold u32; lia).
  rewrite E in Hl. rewrite Hl. cbn [mbind outcome_bind app].
  destruct (consume_ok (rings s1) (cq_tail_ (rings s))) as (C1 & C2 & C3); [apply Hi1|done| |].
  { pose proof (f_equal length A2) as Hlen. rewrite length_app, !cq_length in Hlen.
    pose proof (u32_bound (cq_tail_ (rings s1) - cq_head_ (rings s1))). rewrite A3 in *. lia. }
  rewrite A3, <- Hn, Nat2Z.id in C3. set (s2 := s1 <| rings ::= _ |>).
  exists s2, new. split; [done|]. split; [|by split].
  assert (tags 0 s2 = tags n s1) as Htags by (unfold tags; cbn [rings kernel s2 set_field]; by rewrite C2, C3).
  destruct Hi1 as [I1 I2 I3 I4 I5 I6 I8 I7]. unfold flying, wakeups in *.
  constructor; unfold flying, wakeups; rewrite ?Htags; try done.
Qed.

Lemma submit_inv t s :
  inv 0 NullData s -> exists s', poll_submit t s = Ok s' /\ inv 0 NullData s' /\ contexts s' = contexts s.
Proof.
  intros Hi.
  assert (forall s1, inv 0 NullData s1 -> contexts s1 = contexts s -> forall (m : outcome backend),
    (exists s2, m = Ok s2 /\ moved s1 s2) ->
    exists s2, m = Ok s2 /\ inv 0 NullData s2 /\ contexts s2 = contexts s) as Hgo.
  { intros s1 H1 Hc m (s2 & -> & Hm). exists s2. split_and!; [done| |by rewrite <- Hc; apply Hm].
    eapply moved_inv; [done|lia|done]. }
  unfold poll_submit. destruct (_ && _).
  - destruct (queue_moves (timeout_sqe t) s) as (s1 & b & Hm & Hf & _ & ->); [by eapply inv_live|apply Hi|].
    cbn [mbind outcome_bind]. set (s2 := if b then _ else s1).
    assert (inv 0 NullData s1) as Hi1 by (eapply moved_inv; [done|lia|done]).
    assert (inv 0 NullData s2) as Hi2 by (unfold s2; destruct b; [|done]; apply push_inv; try done; by apply (inv_same 0 NullData)).
    assert (contexts s2 = contexts s) as Hc by (unfold s2; destruct b; apply Hm).
    set (total := if 0 <? u32 _ then _ else _). destruct (0 <? total).
    + apply (Hgo s2 Hi2 Hc). destruct (enter_moves total 1 s2) as (s3 & ? & ? & _);
        [by eapply inv_live|apply Hi2|]. by exists s3.
    + apply (Hgo s2 Hi2 Hc). exists s2. by split; [|apply moved_refl].
  - destruct (0 <? _); apply (Hgo s Hi eq_refl).
    + destruct (submit_moves s) as (s3 & ? & ? & _); [by eapply inv_live|apply Hi|]. by exists s3.
    + exists s. by split; [|apply moved_refl].
Qed.

(** A poll returns, in every state of the invariant. *)
Lemma poll_ok t s :
  inv 0 NullData s ->
  exists s' cs, poll_impl t s = Ok (s', cs) /\ inv 0 NullData s' /\ stable s s' /\
    forall h, done_ok h s -> done_ok (h ++ cs) s'.
Proof.
  intros Hi. unfold poll_impl. destruct (submit_inv t s Hi) as (s1 & -> & Hi1 & Hc). cbn [mbind outcome_bind].
  destruct (process_ok s1 Hi1) as (s2 & cs & -> & Hi2 & Hs & Hd). exists s2, cs. split_and!; try done.
  - intros c o. rewrite <- Hc. apply Hs.
  - intros h Hh. apply Hd. unfold done_ok, is_completed in *. by rewrite Hc.
Qed.

(** ** Reachable states *)

Definition to_do (pl : place) : list nat := match pl with Idle => [] | Resuming cs => cs end.

Record safe (y : system (F := F)) : Prop := {
  sf_inv : inv 0 NullData (uring y);
  sf_done : done_ok (resumed y ++ to_do (at_place y)) (uring y)
}.

Lemma done_stable cs s s' : stable s s' -> done_ok cs s -> done_ok cs s'.
Proof. intros Hs [Hn Hc]. split; [done|]. intros c Hin. by eapply completed_stable, Hc. Qed.

Lemma silent_inv s s' :
  rings s' = rings s -> inflight (kernel s') = inflight (kernel s) -> contexts s' = contexts s ->
  read_ops_ s' = read_ops_ s -> write_ops_ s' = write_ops_ s -> wake_fd_ s' = wake_fd_ s ->
  next_node s' = next_node s -> inv 0 NullData s -> inv 0 NullData s'.
Proof.
  intros Hr Hk Hc Ho Hw Hwf Hnx [I1 I2 I3 I4 I5 I6 I8 I7]. unfold flying, wakeups, tags, waiting, points, table in *.
  constructor; unfold flying, wakeups, tags, waiting, points, table; rewrite ?Hr, ?Hk, ?Hc, ?Ho, ?Hw, ?Hwf, ?Hnx; done.
Qed.

Lemma mapped_inv wake_fd r k s :
  mapped r -> inflight k = [] -> IoUringBackend wake_fd r k = Ok s -> inv 0 NullData s /\ contexts s = [].
Proof.
  intros (n & m & Hn & Hm & Hse & Hsm & Hce & Hcm & Hs & Hc & Hst & Hct) Hk.
  unfold IoUringBackend, arm_wakeup. cbn [wake_fd_]. set (s0 := Build_backend _ _ _ _ _ _ _).
  assert (inv 0 WAKEUP_USER_DATA s0) as Hi.
  { assert (tags 0 s0 = []) as Ht.
    { unfold tags, sq, cq, slots_of. cbn. by rewrite Hs, Hc, !Z.sub_diag, Hk. }
    unfold flying, wakeups. constructor; unfold flying, wakeups; rewrite ?Ht; try done; cbn.
    - constructor; try done; [by exists n|by exists m|rewrite Hs|rewrite Hc| |congruence];
        rewrite ?Z.sub_diag; [by rewrite Hse; apply Z.pow_nonneg|by rewrite Hce; apply Z.pow_nonneg|].
      rewrite Hs, Z.sub_diag. intros i Hi0. change (u32 0) with 0 in Hi0. lia.
    - constructor.
    - intros c. split; [by intros ?%not_elem_of_nil|]. by intros [(? & ? & _) _].
    - intros [] fd op H; cbn in H; by rewrite lookup_empty in H.
    - intros [] fd op w' fd' op' H; cbn in H; by rewrite lookup_empty in H.
    - unfold sq, slots_of. rewrite Hs, Z.sub_diag. by intros e ?%not_elem_of_nil.
    - intros [] fd op H; cbn in H; by rewrite lookup_empty in H. }
  destruct (Z.leb_spec 0 wake_fd) as [Hwf|Hwf].
  2: { intros [= <-]. split; [|done]. apply inv_refused; [done|]. cbn. lia. }
  destruct (queue_moves (wakeup_sqe s0) s0) as (s1 & b & Hmv & Hf & Hrel & ->); [by eapply inv_live|apply Hi|].
  assert (inv 0 WAKEUP_USER_DATA s1) as Hi1 by (eapply moved_inv; [done|lia|done]).
  cbn [mbind outcome_bind]. assert (contexts s1 = []) as Hc1 by by rewrite (mv_contexts _ _ Hmv).
  destruct b.
  2: { intros [= <-]. split; [|done]. apply inv_refused; [done|]. by intros [?%Hrel _]. }
  set (s2 := s1 <| rings ::= _ |>).
  assert (inv 0 NullData s2) as Hi2 by by apply push_inv.
  destruct (submit_moves s2) as (s3 & -> & Hm3 & _); [by eapply inv_live|apply Hi2|].
  intros [= <-]. split; [eapply moved_inv; [done|lia|done]|]. by rewrite (mv_contexts _ _ Hm3).
Qed.

Lemma submitted_fits r co s x : await_operation r co s = Ok x -> address_fits r.
Proof.
  destruct r; try done. unfold await_operation, submit_impl, async_connect_impl. cbn [address_fits].
  destruct (Z.ltb_spec 128 (len addr)); [done|]. intros _. lia.
Qed.

Lemma step_safe ev y y' : step ev y y' -> safe y -> safe y' /\ stable (uring y) (uring y').
Proof.
  intros Hst [Hi Hd]. destruct Hst as [t s b cs h Hp|s c cs h|s h|r co s b now pl h Hfree Ha|fd s pl h
    |fd s pl h Hu|s pl h|cs k s pl h Hk Hroom]; cbn [uring at_place resumed to_do] in *.
  - destruct (poll_ok t s Hi) as (s' & cs' & Hp' & Hi' & Hs & Hdone). rewrite Hp in Hp'. injection Hp' as <- <-.
    split; [split; [done|]|done]. cbn. rewrite <- (app_nil_r h). by apply Hdone.
  - split; [split; [done|]|done]. cbn. by rewrite <- app_assoc.
  - by split.
  - destruct (await_ok r co s Hi Hfree) as (s' & now' & Ha' & Hi' & Hs); [by eapply submitted_fits|].
    rewrite Ha in Ha'. injection Ha' as <- <-. split; [split; [done|by eapply done_stable]|done].
  - assert (contexts (register_impl fd s).2 = contexts s) as Hc.
    { unfold register_impl. by destruct (uring_nonblocking fd (kernel s)). }
    split; [split; cbn|intros c o H; exists o; by rewrite Hc].
    + pose proof (nonblocking_law fd (kernel s)) as [Hl _]. unfold register_impl.
      destruct (uring_nonblocking fd (kernel s)) as [x k]. by apply (silent_inv s).
    + unfold done_ok, is_completed. by rewrite Hc.
  - split; [split; [by apply deregister_ok|done]|]. intros c o H. by exists o.
  - assert (contexts (wake_impl s) = contexts s) as Hc by (unfold wake_impl; by case_match).
    split; [split; cbn|intros c o H; exists o; by rewrite Hc].
    + unfold wake_impl. destruct (0 <=? wake_fd_ s); [|done]. apply (silent_inv s); try done. apply write_event_law.
    + unfold done_ok, is_completed. by rewrite Hc.
  - assert (moved s (s <| kernel := k |> <| rings ::= fun r => foldl post r cs |>)) as Hm.
    { destruct (posts_ok cs (rings s)) as (P1 & P2 & P3 & P4); [apply Hi|done|].
      constructor; try done; cbn.
      - exists 0%nat, cs. by rewrite P2, P3.
      - clear. induction cs as [|c cs IH] using rev_ind; [done|]. by rewrite foldl_app.
      - clear. induction cs as [|c cs IH] using rev_ind; [done|]. by rewrite foldl_app. }
    split; [split; [|done]|intros c o H; by exists o]. eapply moved_inv; [done|cbn; lia|done].
Qed.

Lemma reachable_safe y : reachable y -> safe y.
Proof.
  induction 1 as [wake_fd r k s Hm Hk Hs|ev y y' _ IH Hst]; [|by destruct (step_safe ev y y')].
  destruct (mapped_inv wake_fd r k s Hm Hk Hs) as [Hi Hc]. split; [done|]. split; [constructor|].
  by intros c ?%not_elem_of_nil.
Qed.

(** C24: No operation is forgotten and none is waited for in vain, whatever the
    kernel does and in every interleaving of polls, resumptions, submissions,
    closes and wakes: the contexts whose coroutines are suspended are exactly
    those of the entries that are queued, in the kernel or completed and not
    handled, each once; an operation in a table is one of them. *)
Theorem uring_forgets_nothing (y : system (F := F)) :
  reachable y ->
  NoDup (flying 0 (uring y)) /\ (forall c, c ∈ flying 0 (uring y) <-> waiting c (uring y)) /\
  (forall w fd op, table w (uring y) !! fd = Some op -> ctx_ op ∈ flying 0 (uring y)).
Proof.
  intros [Hi _]%reachable_safe. assert (forall c, c ∈ flying 0 (uring y) <-> waiting c (uring y)) as Hf.
  { intros c. rewrite (in_flying _ _ _ Hi). naive_solver. }
  split; [apply Hi|]. split; [done|]. intros w fd op H. by eapply Hf, in_table.
Qed.

(** C25: Every operation completes at most once and its coroutine is resumed at
    most once: the contexts resumed or about to be are distinct and completed,
    and no step changes a completion or the coroutine of a context. *)
Theorem uring_completes_once (y : system (F := F)) :
  reachable y ->
  NoDup (resumed y ++ to_do (at_place y)) /\
  (forall c, c ∈ resumed y ++ to_do (at_place y) -> is_completed c (uring y) = true) /\
  (forall ev y', step ev y y' -> stable (uring y) (uring y')).
Proof.
  intros Hs%reachable_safe. split; [apply Hs|]. split; [apply Hs|]. intros ev y' Hst.
  by destruct (step_safe ev y y').
Qed.

(** A poll and a submission return: in every reachable state the completion
    loop ends, the kernel is given no dangling pointer, and nothing else is
    undefined. *)
Theorem uring_calls_return (y : system (F := F)) :
  reachable y ->
  (forall t, exists s' cs, poll_impl t (uring y) = Ok (s', cs)) /\
  (forall r co, side_free r (uring y) -> address_fits r ->
     exists s' now, await_operation r co (uring y) = Ok (s', now)).
Proof.
  intros [Hi _]%reachable_safe. split.
  - intros t. destruct (poll_ok t _ Hi) as (s' & cs & Hp & _). by exists s', cs.
  - intros r co Hfree Ha. destruct (await_ok r co _ Hi Hfree Ha) as (s' & now & H & _). by exists s', now.
Qed.

(** C27: No wake-up is lost: when the kernel takes entries that are offered, the
    poll of the event descriptor is armed in every reachable state: exactly once
    it is queued, in the kernel, or completed and about to be armed again. *)
Theorem uring_wake_armed (y : system (F := F)) :
  reliable -> reachable y -> 0 <= wake_fd_ (uring y) -> wakeups 0 (uring y) = 1%nat.
Proof. intros Hr [Hi _]%reachable_safe Hw. apply (in_armed _ _ _ Hi Hr Hw). Qed.

(** ** Closing a socket with a queued operation *)

(** An entry of the submission queue points into a node that was erased. *)
Definition dangling s : Prop :=
  exists e n, e ∈ sq (rings s) /\ addr e = OfNode n /\ node_of s n = None.

Lemma fetch_dangling s es e n :
  e ∈ es -> addr e = OfNode n -> node_of s n = None -> mapM (fetch s) es = Undefined UseAfterFree.
Proof.
  intros He Ha Hn. induction es as [|e' es IH]; [by apply not_elem_of_nil in He|].
  cbn [mapM mbind outcome_bind]. apply elem_of_cons in He as [<-|He].
  - assert (fetch s e = Undefined UseAfterFree) as ->; [|done]. unfold fetch. rewrite Ha. cbn. by rewrite Hn.
  - rewrite (IH He). unfold fetch. destruct (addr e'); try done. by case_match.
Qed.

Lemma enter_dangling n m s :
  dangling s -> u32 n = Z.of_nat (length (sq (rings s))) -> io_uring_enter n m s = Undefined UseAfterFree.
Proof.
  intros (e & x & He & Ha & Hx) Hn. unfold io_uring_enter, takeZ. rewrite Hn, Nat2Z.id, firstn_all.
  by rewrite (fetch_dangling s _ e x).
Qed.

Lemma queue_size r : u32 (u32 (sq_tail_ r - sq_head_ r)) = Z.of_nat (length (sq r)).
Proof. rewrite sq_length. pose proof (u32_bound (sq_tail_ r - sq_head_ r)). unfold u32 in *. lia. Qed.

Lemma dangling_pending s : dangling s -> 0 < u32 (sq_tail_ (rings s) - sq_head_ (rings s)).
Proof.
  intros (e & n & He & _). pose proof (sq_length (rings s)) as Hl.
  pose proof (u32_bound (sq_tail_ (rings s) - sq_head_ (rings s))).
  destruct (sq (rings s)); [by apply not_elem_of_nil in He|]. cbn in Hl. lia.
Qed.

Lemma submit_dangling s : dangling s -> submit_sqes s = Undefined UseAfterFree.
Proof.
  intros Hd. unfold submit_sqes. rewrite (proj2 (Z.ltb_lt _ _) (dangling_pending s Hd)).
  apply enter_dangling; [done|]. apply queue_size.
Qed.

Lemma poll_dangling t s : dangling s -> ring_ok (rings s) -> poll_impl t s = Undefined UseAfterFree.
Proof.
  intros Hd Hr. unfold poll_impl, poll_submit.
  destruct (_ && _).
  2: { rewrite (proj2 (Z.ltb_lt _ _) (dangling_pending s Hd)). by rewrite submit_dangling. }
  unfold queue_sqe, get_sqe. destruct (sq_full (rings s)) eqn:Ef; [by rewrite submit_dangling|].
  cbn [mbind outcome_bind]. rewrite Ef. destruct (take_slot (rings s)) as [j r] eqn:Et.
  cbn [mbind outcome_bind]. set (s1 := s <| rings := r |> <| rings ::= _ |>).
  assert (rings s1 = push (timeout_sqe t) (rings s)) as Hr1 by (unfold push; by rewrite Et).
  destruct (push_ok (timeout_sqe t) (rings s) Hr Ef) as (P1 & P2 & P3).
  assert (dangling s1) as Hd1.
  { destruct Hd as (e & n & He & Ha & Hn). exists e, n. rewrite Hr1, P2. split; [apply elem_of_app; by left|done]. }
  assert (sq_head_ (rings s1) = sq_head_ (rings s)) as Hh by by rewrite Hr1.
  rewrite <- Hh, !(proj2 (Z.ltb_lt _ _) (dangling_pending s1 Hd1)).
  rewrite enter_dangling; [done|done|]. apply queue_size.
Qed.

(** The operations whose entry points into their node *)
Definition by_node (r : request) : Prop :=
  match r with AsyncRecvFrom _ _ | AsyncSendTo _ _ _ | AsyncConnect _ _ => True | _ => False end.

Lemma submit_by_node r c s :
  side_free r s -> address_fits r -> by_node r ->
  exists op e, addr e = OfNode (next_node s) /\ submit_impl r c s =
    queue_op (side r) (request_fd r) c e (insert_op (side r) (request_fd r) op s).
Proof.
  intros Hfree Ha Hb. destruct r; cbn in Hfree, Ha; try done;
    unfold submit_impl, async_recvfrom_impl, async_sendto_impl, async_connect_impl, put_read, put_write;
    rewrite ?Hfree; cbn [default from_option];
    try (case_match; [exfalso; lia|]); eexists _, _; (split; [|reflexivity]); done.
Qed.

Lemma find_op_absent (p : PendingOp -> bool) (m : gmap Z PendingOp) :
  (forall fd op, m !! fd = Some op -> p op = false) -> find_op p m = None.
Proof.
  intros H. destruct (find_op p m) as [[fd op]|] eqn:E; [|done].
  apply find_op_in in E as [Hm Hp]. by rewrite (H fd op Hm) in Hp.
Qed.

(** C28: A socket that is closed while its datagram or its connection is queued
    makes the next poll undefined: the entry points into the erased operation,
    and the kernel reads it when the entries are submitted. *)
Theorem uring_close_dangling (y : system (F := F)) (r : request) (co : handle F) s1 now t :
  reachable y -> side_free r (uring y) -> address_fits r -> by_node r ->
  sq_full (rings (uring y)) = false -> await_operation r co (uring y) = Ok (s1, now) ->
  poll_impl t (deregister_impl (request_fd r) s1) = Undefined UseAfterFree.
Proof.
  intros [Hi _]%reachable_safe Hfree Ha Hb Hf. set (s := uring y) in *. unfold await_operation.
  set (s0 := s <| contexts ::= _ |>). set (c := length (contexts s)).
  destruct (submit_by_node r c s0) as (op & e & He & ->); [by destruct r|done|done|].
  set (s2 := insert_op _ _ op s0).
  assert (rings s2 = rings s) as Hr2 by (unfold s2, insert_op; by destruct (side r)).
  assert (queue_sqe e s2 = Ok (true, s2 <| rings ::= push e |>)) as Hq.
  { unfold queue_sqe, get_sqe. rewrite Hr2, Hf. cbn [mbind outcome_bind]. rewrite Hr2, Hf.
    destruct (take_slot (rings s)) as [j q] eqn:Et.
    change (s2 <| rings ::= push e |>) with (s2 <| rings := push e (rings s2) |>).
    unfold push. by rewrite Hr2, Et. }
  assert (queue_op (side r) (request_fd r) c e s2 = Ok (s2 <| rings ::= push e |>)) as ->.
  { unfold queue_op. destruct (side r); unfold queue_read, queue_write; by rewrite Hq. }
  cbn [mbind outcome_bind]. intros [= <- _].
  destruct (push_ok e (rings s)) as (P1 & P2 & _); [apply Hi|done|].
  apply poll_dangling; [|cbn [rings deregister_impl set_field]; by rewrite Hr2].
  exists e, (next_node s). cbn [rings deregister_impl set_field]. rewrite Hr2, P2. split_and!.
  - apply elem_of_app. right. by apply list_elem_of_singleton.
  - done.
  - assert (forall w fd' op', table w (deregister_impl (request_fd r) (s2 <| rings ::= push e |>)) !! fd' = Some op' ->
      (node op' =? next_node s)%nat = false) as Hno.
    { intros w fd' op' H. apply Nat.eqb_neq. enough (table w s !! fd' = Some op') as H'.
      { apply (in_nodes _ _ _ Hi) in H'. lia. }
      revert H. unfold s2, s0, insert_op, table. destruct (side r), w; cbn;
        rewrite lookup_delete_Some, ?lookup_insert_Some; naive_solver. }
    unfold node_of. rewrite (find_op_absent _ (read_ops_ _)); [|apply (Hno false)].
    by rewrite (find_op_absent _ (write_ops_ _)); [|apply (Hno true)].
Qed.
End Facts.

(** ** The rings, in the terms of the backend *)

(** C26: The rings are bounded queues, wherever their counters of 32 bits stand:
    [get_sqe] gives a slot exactly when the submission queue is not full, what is
    stored in it is then the last entry of the queue; the kernel takes entries
    from its front, and what it puts is at the end of the completion queue; and
    the ring stays well formed. *)
Theorem uring_rings_are_queues (r : ring) (e : io_uring_sqe) (k : nat) (cs : list io_uring_cqe) :
  ring_ok r ->
  (sq_full r = true <-> sq_entries_ r = Z.of_nat (length (sq r))) /\
  (sq_full r = false -> let '(i, r') := take_slot r in let r' := r' <| sqes_ ::= <[i := e]> |> in
     ring_ok r' /\ sq r' = sq r ++ [e] /\ cq r' = cq r) /\
  ((k <= length (sq r))%nat -> let r' := r <| sq_head_ ::= fun h => u32 (h + Z.of_nat k) |> in
     ring_ok r' /\ sq r' = drop k (sq r) /\ cq r' = cq r) /\
  ((length cs <= room r)%nat -> let r' := foldl post r cs in
     ring_ok r' /\ sq r' = sq r /\ cq r' = cq r ++ cs).
Proof.
  intros Hr. split; [by apply sq_full_spec|]. split.
  { intros Hf. destruct (take_slot r) as [i r'] eqn:Et. pose proof (push_ok e r Hr Hf) as Hp.
    unfold push in Hp. by rewrite Et in Hp. }
  split; [by apply advance_ok|]. intros Hc. by destruct (posts_ok cs r Hr Hc) as (? & ? & ? & _).
Qed.

(** ** An execution

    A kernel that takes every entry and completes none by itself; a ring of four
    entries whose counters are about to wrap.  A read is submitted, the kernel
    completes it, its coroutine is resumed. *)
Record toy := { taken_tags : list user_data; ready : bool }.

#[export] Program Instance toy_uring : Uring toy := {|
  uring_enter es _ _ k := (length es, [], {| taken_tags := taken_tags k ++ map e_tag es; ready := ready k |});
  uring_nonblocking _ k := (0, k);
  uring_write_event k := {| taken_tags := taken_tags k; ready := true |};
  uring_read_event k := {| taken_tags := taken_tags k; ready := false |};
  event_ready := ready;
  inflight := taken_tags
|}.
Next Obligation. intros es m n k. cbn. split_and!; [done|lia|by rewrite firstn_all|done]. Qed.
Next Obligation. done. Qed.
Next Obligation. done. Qed.
Next Obligation. done. Qed.

Lemma toy_reliable : reliable (K := toy).
Proof. intros [|e es] m n k H; [done|cbn; lia]. Qed.

Definition demo_ring : ring :=
  {| sq_head_ := 2 ^ 32 - 1; sq_tail_ := 2 ^ 32 - 1; sq_array_ := ∅; sqes_ := ∅; sq_mask_ := 3;
     sq_entries_ := 4; cq_head_ := 2 ^ 32 - 1; cq_tail_ := 2 ^ 32 - 1; cqes_ := ∅; cq_mask_ := 7;
     cq_entries_ := 8 |}.

Abbreviation demo_backend := (IoUring.backend toy unit) (only parsing).

Definition blank_backend : demo_backend :=
  {| kernel := {| taken_tags := []; ready := false |}; rings := demo_ring; wake_fd_ := 3;
     read_ops_ := ∅; write_ops_ := ∅; next_node := 0; contexts := [] |}.

Definition ok_or {A} (d : A) (m : outcome A) : A := match m with Ok a => a | _ => d end.

Definition demo_start : demo_backend :=
  ok_or blank_backend (IoUringBackend 3 demo_ring {| taken_tags := []; ready := false |}).
Definition demo_read : demo_backend :=
  (ok_or (blank_backend, false) (await_operation (AsyncRead 5 64) {| frame := 0; point := tt |} demo_start)).1.
Definition demo_polled : demo_backend := (ok_or (blank_backend, []) (poll_impl 100 demo_read)).1.
Definition hello : io_uring_cqe :=
  {| cqe_user_data := Context 0; res := 5; cqe_data := str "hello"; cqe_from := [] |}.
Definition demo_kernel : toy := {| taken_tags := [WAKEUP_USER_DATA; TIMEOUT_USER_DATA]; ready := false |}.
Definition demo_posted : demo_backend :=
  demo_polled <| kernel := demo_kernel |> <| rings ::= fun r => foldl post r [hello] |>.
Definition demo_done : demo_backend * list nat := ok_or (blank_backend, []) (poll_impl 100 demo_posted).

Definition demo_system : system (K := toy) (F := unit) :=
  {| uring := demo_done.1; at_place := Resuming []; resumed := [0%nat] |}.

Lemma demo_start_reachable :
  reachable (K := toy) (F := unit) {| uring := demo_start; at_place := Idle; resumed := [] |}.
Proof.
  apply (reach_init 3 demo_ring {| taken_tags := []; ready := false |}); [|done|by vm_compute].
  exists 2, 3. cbn. by split_and!.
Qed.

Lemma ring_demo_reachable : reachable demo_system.
Proof.
  unfold demo_system. eapply reach_step; [|apply (step_resume _ 0%nat [] [])].
  eapply reach_step; [|apply (step_poll 100 demo_posted); by vm_compute].
  eapply reach_step; [|apply (step_kernel [hello] demo_kernel); [by vm_compute; apply perm_swap|vm_compute; lia]].
  eapply reach_step; [|apply step_end].
  eapply reach_step; [|apply (step_poll 100 demo_read); by vm_compute].
  eapply reach_step; [|apply (step_submit (AsyncRead 5 64) {| frame := 0; point := tt |} demo_start _ false);
    [by vm_compute|by vm_compute]].
  apply demo_start_reachable.
Qed.

(** The read's context has its result. *)
Example demo_result : contexts demo_done.1 !! 0%nat =
  Some {| handle_ := {| frame := 0; point := tt |};
          completed_ := Some {| result_ := 5; error_code_ := 0; buffer := str "hello"; accepted := None;
                                from_addr_ := [] |} |}.
Proof. by vm_compute. Qed.

Lemma uring_forgets_nothing_witness :
  NoDup (flying 0 (uring demo_system)) /\
  (forall c, c ∈ flying 0 (uring demo_system) <-> waiting c (uring demo_system)) /\
  (forall w fd op, table w (uring demo_system) !! fd = Some op -> ctx_ op ∈ flying 0 (uring demo_system)).
Proof. apply uring_forgets_nothing. exact ring_demo_reachable. Defined.

Lemma uring_completes_once_witness :
  NoDup (resumed demo_system ++ to_do (at_place demo_system)) /\
  (forall c, c ∈ resumed demo_system ++ to_do (at_place demo_system) ->
     is_completed c (uring demo_system) = true) /\
  (forall ev y', step ev demo_system y' -> stable (uring demo_system) (uring y')).
Proof. apply uring_completes_once. exact ring_demo_reachable. Defined.

Lemma uring_calls_return_witness :
  (forall t, exists s' cs, poll_impl t (uring demo_system) = Ok (s', cs)) /\
  (forall r co, side_free r (uring demo_system) -> address_fits r ->
     exists s' now, await_operation r co (uring demo_system) = Ok (s', now)).
Proof. apply uring_calls_return. exact ring_demo_reachable. Defined.

Lemma uring_wake_armed_witness : wakeups 0 (uring demo_system) = 1%nat.
Proof.
  apply (uring_wake_armed demo_system toy_reliable ring_demo_reachable). vm_compute. discriminate.
Defined.

Lemma uring_close_dangling_witness :
  poll_impl 100 (deregister_impl 5 (ok_or (blank_backend, false)
    (await_operation (AsyncRecvFrom 5 64) {| frame := 0; point := tt |} demo_start)).1) = Undefined UseAfterFree.
Proof.
  apply (uring_close_dangling {| uring := demo_start; at_place := Idle; resumed := [] |}
    (AsyncRecvFrom 5 64) {| frame := 0; point := tt |} _ false).
  - exact demo_start_reachable.
  - by vm_compute.
  - exact I.
  - exact I.
  - by vm_compute.
  - by vm_compute.
Defined.

Lemma demo_ring_ok : ring_ok demo_ring.
Proof.
  constructor; cbn; try (unfold u32; cbn; lia).
  - by exists 2.
  - by exists 3.
Qed.

Lemma uring_rings_are_queues_witness :
  let r := foldl (fun r e => push e r) demo_ring [zeroed; zeroed; zeroed] in
  sq_tail_ r = 2 /\ sq r = [zeroed; zeroed; zeroed] /\ cq (foldl post demo_ring [hello; hello]) = [hello; hello].
Proof.
  split; [by vm_compute|]. split; [by vm_compute|].
  destruct (uring_rings_are_queues demo_ring zeroed 0 [hello; hello] demo_ring_ok) as (_ & _ & _ & H).
  destruct H as (_ & _ & H); [by vm_compute; lia|]. exact H.
Defined.
