(* ===== verification/Kqueue.v ===== *)
(** * The kqueue backend (src/src/io/kqueue_backend.cpp, kqueue_backend.hpp)

    The pending operations of the sockets and the one-shot filters given to
    kqueue.  Several threads may poll: [kevent] hands an event to one of them and
    forgets the filter, the thread then takes the lock and tries the operation,
    and resumes what is complete outside the lock.  The kernel is the class
    [KernelQueue].  Operations, their contexts and the results of system calls
    are those of Epoll.v. *)
From S2P Require Import Prelude IoContext Epoll.
From stdpp Require Import gmap options.

#[local] Open Scope Z_scope.
#[local] Open Scope net_scope.

(** EINPROGRESS of the systems that have kqueue *)
Definition BSD_EINPROGRESS : Z := 36.

(** ** The kernel *)

(** [EVFILT_USER] is the wake-up of the backend; it has no descriptor. *)
Inductive evfilt := EVFILT_READ | EVFILT_WRITE | EVFILT_USER.

#[export] Instance evfilt_dec : EqDecision evfilt.
Proof. solve_decision. Defined.

#[export] Instance evfilt_countable : Countable evfilt.
Proof.
  refine (inj_countable' (fun f => match f with EVFILT_READ => 0 | EVFILT_WRITE => 1 | EVFILT_USER => 2 end)%nat
    (fun n => match n with 0 => EVFILT_READ | 1 => EVFILT_WRITE | _ => EVFILT_USER end)%nat _).
  by intros [].
Defined.

(** An event, and a filter of a descriptor: [ident] and [filter] *)
Abbreviation kev := (Z * evfilt)%type.

(** The system calls of the backend.  [kevent_add] adds a filter with [EV_ADD |
    EV_ONESHOT], [kevent_delete] deletes one and fails when it is not there,
    [kevent_trigger] is [NOTE_TRIGGER], [kevent_wait] takes events, waiting for
    as long as is given.  [armed] are the filters of descriptors.  Of their
    manual page: a one-shot filter is deleted when its event is taken, an event
    belongs to a filter, closing a descriptor deletes its filters. *)
Class KernelQueue (K : Type) := {
  kq_read : Z -> Z -> K -> sysret bytes * K;
  kq_recvfrom : Z -> Z -> K -> sysret (bytes * bytes) * K;
  kq_write : Z -> bytes -> K -> sysret Z * K;
  kq_sendto : Z -> bytes -> bytes -> K -> sysret Z * K;
  kq_accept : Z -> K -> sysret Z * K;
  kq_connect : Z -> bytes -> K -> Z * K;
  kq_so_error : Z -> K -> Z;
  kq_nonblocking : Z -> K -> Z * K;
  kq_close : Z -> K -> K;
  kevent_add : kev -> K -> K;
  kevent_delete : kev -> K -> bool * K;
  kevent_trigger : K -> K;
  kevent_wait : option (Z * Z) -> K -> list kev * K;
  armed : K -> gset kev;
  open : Z -> K -> bool;

  add_law e k : open e.1 k = true -> armed (kevent_add e k) = {[e]} ∪ armed k;
  add_only e k : armed (kevent_add e k) ⊆ {[e]} ∪ armed k;
  delete_law e k : armed (kevent_delete e k).2 = armed k ∖ {[e]};
  trigger_law k : armed (kevent_trigger k) = armed k;
  wait_law t k : armed (kevent_wait t k).2 = armed k ∖ list_to_set (kevent_wait t k).1;
  wait_armed t k e : e ∈ (kevent_wait t k).1 -> e.2 = EVFILT_USER \/ e ∈ armed k;
  close_law fd k : armed (kq_close fd k) = filter (fun e => e.1 <> fd) (armed k)
}.

(** A call that does not touch the filters and closes nothing *)
Definition calm `{KernelQueue K} (k k' : K) : Prop :=
  armed k' = armed k /\ forall fd, open fd k = true -> open fd k' = true.

Class KernelCalm (K : Type) `{HK : KernelQueue K} : Prop := {
  calm_read fd n k : calm k (kq_read fd n k).2;
  calm_recvfrom fd n k : calm k (kq_recvfrom fd n k).2;
  calm_write fd d k : calm k (kq_write fd d k).2;
  calm_sendto fd d a k : calm k (kq_sendto fd d a k).2;
  calm_accept fd k : calm k (kq_accept fd k).2;
  calm_connect fd a k : calm k (kq_connect fd a k).2;
  calm_nonblocking fd k : calm k (kq_nonblocking fd k).2;
  add_open e k fd : open fd (kevent_add e k) = open fd k;
  delete_open e k fd : open fd (kevent_delete e k).2 = open fd k;
  trigger_open k fd : open fd (kevent_trigger k) = open fd k;
  wait_open t k fd : open fd (kevent_wait t k).2 = open fd k;
  close_open fd k fd' : fd' <> fd -> open fd' (kq_close fd k) = open fd' k
}.

Section Kqueue.
Context {K F : Type} `{HK : KernelQueue K}.

(** ** The backend *)

Record backend := {
  kernel : K;
  read_ops_ : gmap Z PendingOp;
  write_ops_ : gmap Z PendingOp;
  contexts : list (operation_context (F := F))   (** by name *)
}.
#[export] Instance kq_settable : Settable backend := fun s =>
  Build_backend (kernel s) (read_ops_ s) (write_ops_ s) (contexts s).
Implicit Types s : backend.

(** [ctx->complete(...)], [ctx->completed()] *)
Definition complete (ctx : nat) (c : completion) (s : backend) : backend :=
  s <| contexts ::= alter (fun o => {| handle_ := handle_ o; completed_ := Some c |}) ctx |>.

Definition is_completed (ctx : nat) (s : backend) : bool :=
  match contexts s !! ctx with Some {| completed_ := Some _ |} => true | _ => false end.

Definition register_event (fd : Z) (filter : evfilt) (s : backend) : backend :=
  s <| kernel ::= kevent_add (fd, filter) |>.

Definition register_impl (fd : Z) (s : backend) : bool * backend :=
  let '(e, k) := kq_nonblocking fd (kernel s) in (e =? 0, s <| kernel := k |>).

(** [kevent] stops at the first change that fails. *)
Definition deregister_impl (fd : Z) (s : backend) : backend :=
  let '(ok, k) := kevent_delete (fd, EVFILT_READ) (kernel s) in
  let k := if ok : bool then (kevent_delete (fd, EVFILT_WRITE) k).2 else k in
  s <| kernel := k |> <| read_ops_ ::= delete fd |> <| write_ops_ ::= delete fd |>.

(** ** Submission *)

(** [read_ops_[fd] = op; register_event(fd, EVFILT_READ)] *)
Definition put_read (fd : Z) (op : PendingOp) (s : backend) : backend :=
  register_event fd EVFILT_READ (s <| read_ops_ ::= <[fd := op]> |>).

Definition put_write (fd : Z) (op : PendingOp) (s : backend) : backend :=
  register_event fd EVFILT_WRITE (s <| write_ops_ ::= <[fd := op]> |>).

Definition async_read_impl (fd len : Z) (ctx : nat) (s : backend) : backend :=
  put_read fd {| op_type := Read; len_ := len; data_ := []; dest_addr := None; ctx_ := ctx |} s.

Definition async_write_impl (fd : Z) (data : bytes) (ctx : nat) (s : backend) : backend :=
  put_write fd {| op_type := Write; len_ := 0; data_ := data; dest_addr := None; ctx_ := ctx |} s.

Definition async_accept_impl (fd : Z) (ctx : nat) (s : backend) : backend :=
  put_read fd (pending_op Accept ctx) s.

Definition async_connect_impl (fd : Z) (addr : bytes) (ctx : nat) (s : backend) : backend :=
  let '(e, k) := kq_connect fd addr (kernel s) in
  let s := s <| kernel := k |> in
  if e =? 0 then complete ctx (completed 0 0) s
  else if negb (e =? BSD_EINPROGRESS) then complete ctx (completed (-1) e) s
  else put_write fd (pending_op Connect ctx) s.

Definition async_recvfrom_impl (fd len : Z) (ctx : nat) (s : backend) : backend :=
  put_read fd {| op_type := RecvFrom; len_ := len; data_ := []; dest_addr := None; ctx_ := ctx |} s.

(** The address is copied into the 128 bytes of [dest_addr]. *)
Definition async_sendto_impl (fd : Z) (data to : bytes) (ctx : nat) (s : backend) : outcome backend :=
  if 128 <? len to then Undefined OutOfBounds else
  Ok (put_write fd {| op_type := SendTo; len_ := 0; data_ := data; dest_addr := Some to; ctx_ := ctx |} s).

Definition async_wait_readable_impl (fd : Z) (ctx : nat) (s : backend) : backend :=
  put_read fd (pending_op WaitReadable ctx) s.

Definition async_wait_writable_impl (fd : Z) (ctx : nat) (s : backend) : backend :=
  put_write fd (pending_op WaitWritable ctx) s.

Definition wake_impl (s : backend) : backend := s <| kernel ::= kevent_trigger |>.

Definition submit_impl (r : request) (ctx : nat) (s : backend) : outcome backend :=
  match r with
  | AsyncRead fd len => Ok (async_read_impl fd len ctx s)
  | AsyncWrite fd data => Ok (async_write_impl fd data ctx s)
  | AsyncRecvFrom fd len => Ok (async_recvfrom_impl fd len ctx s)
  | AsyncSendTo fd data to => async_sendto_impl fd data to ctx s
  | AsyncAccept fd => Ok (async_accept_impl fd ctx s)
  | AsyncConnect fd addr => Ok (async_connect_impl fd addr ctx s)
  | AsyncWaitReadable fd => Ok (async_wait_readable_impl fd ctx s)
  | AsyncWaitWritable fd => Ok (async_wait_writable_impl fd ctx s)
  end.

(** [await_suspend] of the awaiters of sockets: whether it completed at once *)
Definition await_operation (r : request) (co : handle F) (s : backend) : outcome (backend * bool) :=
  let ctx := length (contexts s) in
  s ← submit_impl r ctx (s <| contexts ::= fun l => l ++ [{| handle_ := co; completed_ := None |}] |>);
  Ok (s, is_completed ctx s).

(** ** Events *)

(** The operation in a table completes and leaves it. *)
Definition settle_read (fd : Z) (op : PendingOp) (c : completion) (s : backend) : backend :=
  (complete (ctx_ op) c s) <| read_ops_ ::= delete fd |>.

Definition settle_write (fd : Z) (op : PendingOp) (c : completion) (s : backend) : backend :=
  (complete (ctx_ op) c s) <| write_ops_ ::= delete fd |>.

(** [Some op] that would block gets its filter back. *)
Definition try_complete_read (fd : Z) (op : PendingOp) (s : backend) : backend * list nat :=
  let '(r, k) := kq_read fd (len_ op) (kernel s) in
  let s := s <| kernel := k |> in
  match read_result r with
  | Some c => (settle_read fd op c s, [ctx_ op])
  | None => (register_event fd EVFILT_READ s, [])
  end.

Definition try_complete_recvfrom (fd : Z) (op : PendingOp) (s : backend) : backend * list nat :=
  let '(r, k) := kq_recvfrom fd (len_ op) (kernel s) in
  let s := s <| kernel := k |> in
  match received r with
  | Some c => (settle_read fd op c s, [ctx_ op])
  | None => (register_event fd EVFILT_READ s, [])
  end.

Definition try_complete_write (fd : Z) (op : PendingOp) (s : backend) : backend * list nat :=
  let '(r, k) := kq_write fd (data_ op) (kernel s) in
  let s := s <| kernel := k |> in
  match sized r with
  | Some c => (settle_write fd op c s, [ctx_ op])
  | None => (register_event fd EVFILT_WRITE s, [])
  end.

Definition try_complete_sendto (fd : Z) (op : PendingOp) (s : backend) : backend * list nat :=
  let '(r, k) := kq_sendto fd (data_ op) (default [] (dest_addr op)) (kernel s) in
  let s := s <| kernel := k |> in
  match sized r with
  | Some c => (settle_write fd op c s, [ctx_ op])
  | None => (register_event fd EVFILT_WRITE s, [])
  end.

(** An [accept] that would block stays in its table, without its filter. *)
Definition try_accept (fd : Z) (op : PendingOp) (s : backend) : backend * list nat :=
  let '(r, k) := kq_accept fd (kernel s) in
  let k := match r with Done new_fd => (kq_nonblocking new_fd k).2 | _ => k end in
  let s := s <| kernel := k |> in
  match accept_result r with
  | Some c => (settle_read fd op c s, [ctx_ op])
  | None => (s, [])
  end.

Definition handle_read (fd : Z) (s : backend) : backend * list nat :=
  match read_ops_ s !! fd with
  | None => (s, [])
  | Some op =>
      match op_type op with
      | Read => try_complete_read fd op s
      | RecvFrom => try_complete_recvfrom fd op s
      | Accept => try_accept fd op s
      | WaitReadable => (settle_read fd op (completed 0 0) s, [ctx_ op])
      | _ => (s, [])
      end
  end.

Definition handle_write (fd : Z) (s : backend) : backend * list nat :=
  match write_ops_ s !! fd with
  | None => (s, [])
  | Some op =>
      match op_type op with
      | Write => try_complete_write fd op s
      | SendTo => try_complete_sendto fd op s
      | Connect =>
          let err := kq_so_error fd (kernel s) in
          (settle_write fd op (completed (if err =? 0 then 0 else -1) err) s, [ctx_ op])
      | WaitWritable => (settle_write fd op (completed 0 0) s, [ctx_ op])
      | _ => (s, [])
      end
  end.

Definition handle_event (e : kev) (s : backend) : backend * list nat :=
  match e with
  | (fd, EVFILT_READ) => handle_read fd s
  | (fd, EVFILT_WRITE) => handle_write fd s
  | (_, EVFILT_USER) => (s, [])
  end.

(** The critical section of [poll_impl]: the contexts to resume *)
Fixpoint handle_events (es : list kev) (s : backend) : backend * list nat :=
  match es with
  | [] => (s, [])
  | e :: es =>
      let '(s, cs) := handle_event e s in
      let '(s, rest) := handle_events es s in
      (s, cs ++ rest)
  end.

(** The time [kevent] is given: none when the timeout is negative *)
Definition timespec (timeout_ms : Z) : option (Z * Z) :=
  if 0 <=? timeout_ms then Some (timeout_ms / 1000, timeout_ms mod 1000 * 1000000) else None.

(** The call of [kevent] that [poll_impl] starts with *)
Definition poll_wait (timeout_ms : Z) (s : backend) : list kev * backend :=
  let '(es, k) := kevent_wait (timespec timeout_ms) (kernel s) in (es, s <| kernel := k |>).

Definition handles (cs : list nat) (s : backend) : list (handle F) :=
  omap (fun c => handle_ <$> contexts s !! c) cs.

(** [KqueueBackend()], when its queue is made *)
Definition KqueueBackend (k : K) : backend :=
  {| kernel := k; read_ops_ := ∅; write_ops_ := ∅; contexts := [] |}.

(** ** Threads that poll

    [Handling es]: the thread is in [poll_impl], before the lock, with the events
    [es].  [Resuming cs]: it is at the loop that resumes the contexts [cs]. *)

Inductive place := Idle | Handling (es : list kev) | Resuming (cs : list nat).

Record system := {
  kq : backend;
  threads : list place;
  resumed : list nat                   (** history *)
}.

Inductive event :=
| PollWait (th : nat) (timeout_ms : Z)
| PollHandle (th : nat)
| ResumeNext (th : nat)
| EndPoll (th : nat)
| Submit (r : request) (co : handle F)
| Register (fd : Z)
| Close (fd : Z)              (** [deregister_socket] and [close_socket] *)
| Wake
| Environment (k : K).        (** what happens in the kernel meanwhile *)

(** Nothing is pending on the side of the socket that the request uses. *)
Definition side_free (r : request) (s : backend) : Prop :=
  match r with
  | AsyncRead fd _ | AsyncRecvFrom fd _ | AsyncAccept fd | AsyncWaitReadable fd => read_ops_ s !! fd = None
  | AsyncWrite fd _ | AsyncSendTo fd _ _ | AsyncConnect fd _ | AsyncWaitWritable fd =>
      write_ops_ s !! fd = None
  end.

Inductive step : event -> system -> system -> Prop :=
| step_wait th t s ts h es b :
    ts !! th = Some Idle -> poll_wait t s = (es, b) ->
    step (PollWait th t) {| kq := s; threads := ts; resumed := h |}
      {| kq := b; threads := <[th := Handling es]> ts; resumed := h |}
| step_handle th s ts h es b cs :
    ts !! th = Some (Handling es) -> handle_events es s = (b, cs) ->
    step (PollHandle th) {| kq := s; threads := ts; resumed := h |}
      {| kq := b; threads := <[th := Resuming cs]> ts; resumed := h |}
| step_resume th s ts h c cs :
    ts !! th = Some (Resuming (c :: cs)) ->
    step (ResumeNext th) {| kq := s; threads := ts; resumed := h |}
      {| kq := s; threads := <[th := Resuming cs]> ts; resumed := h ++ [c] |}
| step_end th s ts h :
    ts !! th = Some (Resuming []) ->
    step (EndPoll th) {| kq := s; threads := ts; resumed := h |}
      {| kq := s; threads := <[th := Idle]> ts; resumed := h |}
| step_submit r co s b now ts h :
    open (request_fd r) (kernel s) = true -> side_free r s -> await_operation r co s = Ok (b, now) ->
    step (Submit r co) {| kq := s; threads := ts; resumed := h |}
      {| kq := b; threads := ts; resumed := h |}
| step_register fd s ts h :
    step (Register fd) {| kq := s; threads := ts; resumed := h |}
      {| kq := (register_impl fd s).2; threads := ts; resumed := h |}
| step_close fd s ts h :
    step (Close fd) {| kq := s; threads := ts; resumed := h |}
      {| kq := (deregister_impl fd s) <| kernel ::= kq_close fd |>; threads := ts; resumed := h |}
| step_wake s ts h :
    step Wake {| kq := s; threads := ts; resumed := h |}
      {| kq := wake_impl s; threads := ts; resumed := h |}
| step_environment k s ts h :
    calm (kernel s) k ->
    step (Environment k) {| kq := s; threads := ts; resumed := h |}
      {| kq := s <| kernel := k |>; threads := ts; resumed := h |}.

(** [n] threads poll. *)
Inductive reachable (n : nat) (k : K) : system -> Prop :=
| reach_init :
    reachable n k {| kq := KqueueBackend k; threads := replicate n Idle; resumed := [] |}
| reach_step e y y' : reachable n k y -> step e y y' -> reachable n k y'.
End Kqueue.
Arguments backend K F : clear implicits.
