(* ===== verification/KqueueFacts.v ===== *)
(** * The kqueue backend: what several threads that poll cannot lose, and what they can *)
From S2P Require Import Prelude IoContext Epoll Kqueue.
From stdpp Require Import gmap options.

#[local] Open Scope Z_scope.
#[local] Open Scope net_scope.
#[local] Set Default Proof Using "Type*".

Section Facts.
Context {K F : Type} `{HK : KernelQueue K} `{HKC : !KernelCalm K}.
Notation backend := (Kqueue.backend K F).
Implicit Types (s : backend) (k : K) (e : kev) (hand : kev -> Prop).

(** ** Filters *)

Definition reads (t : OpType) : bool := match t with Read | RecvFrom | Accept | WaitReadable => true | _ => false end.
Definition writes (t : OpType) : bool := match t with Write | SendTo | Connect | WaitWritable => true | _ => false end.

(** Every pending operation, an [accept] apart, has its filter armed, or its event
    is in the hands of a thread. *)
Record watched hand s : Prop := {
  w_reads fd op : read_ops_ s !! fd = Some op -> open fd (kernel s) = true /\ reads (op_type op) = true /\
    (op_type op <> Accept -> (fd, EVFILT_READ) ∈ armed (kernel s) \/ hand (fd, EVFILT_READ));
  w_writes fd op : write_ops_ s !! fd = Some op -> open fd (kernel s) = true /\ writes (op_type op) = true /\
    ((fd, EVFILT_WRITE) ∈ armed (kernel s) \/ hand (fd, EVFILT_WRITE))
}.

(** The tables of one state and the filters and hands of another *)
Lemma kq_watched_mono hand hand' s s' :
  watched hand s ->
  (forall fd, open fd (kernel s) = true -> open fd (kernel s') = true) ->
  (forall fd op, read_ops_ s' !! fd = Some op -> read_ops_ s !! fd = Some op /\
    ((fd, EVFILT_READ) ∈ armed (kernel s) \/ hand (fd, EVFILT_READ) ->
     (fd, EVFILT_READ) ∈ armed (kernel s') \/ hand' (fd, EVFILT_READ))) ->
  (forall fd op, write_ops_ s' !! fd = Some op -> write_ops_ s !! fd = Some op /\
    ((fd, EVFILT_WRITE) ∈ armed (kernel s) \/ hand (fd, EVFILT_WRITE) ->
     (fd, EVFILT_WRITE) ∈ armed (kernel s') \/ hand' (fd, EVFILT_WRITE))) ->
  watched hand' s'.
Proof.
  intros [W1 W2] Ho Hr Hw. split; intros fd op H.
  - destruct (Hr fd op H) as [H0 Hi]. destruct (W1 fd op H0) as (? & ? & ?). auto.
  - destruct (Hw fd op H) as [H0 Hi]. destruct (W2 fd op H0) as (? & ? & ?). auto.
Qed.

Lemma kq_watched_kernel hand hand' s k :
  watched hand s -> (forall fd, open fd (kernel s) = true -> open fd k = true) ->
  (forall e, e ∈ armed (kernel s) \/ hand e -> e ∈ armed k \/ hand' e) ->
  watched hand' (s <| kernel := k |>).
Proof. intros W Ho Ha. apply (kq_watched_mono hand _ s); auto. Qed.

Lemma kq_watched_calm hand s k : calm (kernel s) k -> watched hand s -> watched hand (s <| kernel := k |>).
Proof. intros [Ha Ho] W. apply (kq_watched_kernel hand); [done|done|]. intros e. by rewrite Ha. Qed.

Lemma kq_watched_contexts hand s f : watched hand s -> watched hand (s <| contexts ::= f |>).
Proof. by intros []. Qed.

Lemma kq_watched_put_read hand fd op s :
  open fd (kernel s) = true -> reads (op_type op) = true -> watched hand s -> watched hand (put_read fd op s).
Proof.
  intros Ho Hr [W1 W2]. unfold put_read, register_event. split; cbn; intros fd' op' H;
    rewrite add_open, add_law by done.
  - apply lookup_insert_Some in H as [[<- <-]|[_ H]]; [set_solver|].
    destruct (W1 fd' op' H) as (? & ? & Ha). set_solver.
  - destruct (W2 fd' op' H) as (? & ? & Ha). set_solver.
Qed.

Lemma kq_watched_put_write hand fd op s :
  open fd (kernel s) = true -> writes (op_type op) = true -> watched hand s -> watched hand (put_write fd op s).
Proof.
  intros Ho Hr [W1 W2]. unfold put_write, register_event. split; cbn; intros fd' op' H;
    rewrite add_open, add_law by done.
  - destruct (W1 fd' op' H) as (? & ? & Ha). set_solver.
  - apply lookup_insert_Some in H as [[<- <-]|[_ H]]; [set_solver|].
    destruct (W2 fd' op' H) as (? & ? & Ha). set_solver.
Qed.

(** The hands of the threads, and the event one of them deals with *)
Definition also e hand : kev -> Prop := fun x => x = e \/ hand x.

Lemma kq_watched_settle_read hand fd op c s :
  watched (also (fd, EVFILT_READ) hand) s -> watched hand (settle_read fd op c s).
Proof.
  intros W. apply (kq_watched_mono _ _ _ _ W); cbn; unfold also.
  - done.
  - intros fd' op' [Hne H]%lookup_delete_Some. split; [done|]. intros [?|[[= ->]|?]]; auto. done.
  - intros fd' op' H. split; [done|]. intros [?|[?|?]]; auto. done.
Qed.

Lemma kq_watched_settle_write hand fd op c s :
  watched (also (fd, EVFILT_WRITE) hand) s -> watched hand (settle_write fd op c s).
Proof.
  intros W. apply (kq_watched_mono _ _ _ _ W); cbn; unfold also.
  - done.
  - intros fd' op' H. split; [done|]. intros [?|[?|?]]; auto. done.
  - intros fd' op' [Hne H]%lookup_delete_Some. split; [done|]. intros [?|[[= ->]|?]]; auto. done.
Qed.

(** The filter of the event is armed again. *)
Lemma kq_watched_again hand fd f s :
  open fd (kernel s) = true -> watched (also (fd, f) hand) s -> watched hand (register_event fd f s).
Proof.
  intros Ho W. apply (kq_watched_kernel _ _ _ _ W).
  - intros fd'. by rewrite add_open.
  - intros x. rewrite add_law by done. unfold also. set_solver.
Qed.

Lemma kq_watched_done hand fd f s :
  watched (also (fd, f) hand) s ->
  match f with
  | EVFILT_READ => forall op, read_ops_ s !! fd = Some op -> op_type op = Accept
  | EVFILT_WRITE => write_ops_ s !! fd = None
  | EVFILT_USER => True
  end -> watched hand s.
Proof.
  intros [W1 W2] Hf. split; intros fd' op H.
  - destruct (W1 fd' op H) as (? & ? & Ha). split_and!; [done|done|]. intros Hn.
    destruct (Ha Hn) as [?|[[= -> <-]|?]]; auto. by destruct (Hn (Hf op H)).
  - destruct (W2 fd' op H) as (? & ? & Ha). split_and!; [done|done|].
    destruct Ha as [?|[[= -> <-]|?]]; auto. congruence.
Qed.

(** ** One event *)

Lemma kq_watched_handle_read hand fd s :
  watched (also (fd, EVFILT_READ) hand) s -> watched hand (handle_read fd s).1.
Proof.
  intros W. unfold handle_read. destruct (read_ops_ s !! fd) as [op|] eqn:E.
  2: { apply (kq_watched_done _ fd EVFILT_READ); [done|]. cbn. intros op. by rewrite E. }
  destruct (w_reads _ _ W fd op E) as (Ho & Ht & _).
  pose proof (calm_read fd (len_ op) (kernel s)) as C1.
  pose proof (calm_recvfrom fd (len_ op) (kernel s)) as C2.
  pose proof (calm_accept fd (kernel s)) as C3.
  unfold try_complete_read, try_complete_recvfrom, try_accept.
  destruct (kq_read _ _ _) as [r1 k1], (kq_recvfrom _ _ _) as [r2 k2], (kq_accept _ _) as [r3 k3].
  destruct (op_type op) eqn:Et; try done; cbn in C1, C2, C3.
  - apply (kq_watched_calm _ _ _ C1) in W. destruct (read_result r1) as [c|]; [by apply kq_watched_settle_read|].
    apply kq_watched_again; [by apply C1|done].
  - set (k' := match r3 with Done new_fd => _ | _ => k3 end).
    assert (calm (kernel s) k') as C.
    { destruct r3 as [n| |]; [|done..]. destruct C3 as [A B], (calm_nonblocking n k3) as [A' B'].
      unfold k'. split; [by rewrite A'|auto]. }
    apply (kq_watched_calm _ _ _ C) in W. destruct (accept_result r3) as [c|]; [by apply kq_watched_settle_read|].
    apply (kq_watched_done _ fd EVFILT_READ); [done|]. cbn. rewrite E. by intros op' [= <-].
  - apply (kq_watched_calm _ _ _ C2) in W. destruct (received r2) as [c|]; [by apply kq_watched_settle_read|].
    apply kq_watched_again; [by apply C2|done].
  - by apply kq_watched_settle_read.
Qed.

Lemma kq_watched_handle_write hand fd s :
  watched (also (fd, EVFILT_WRITE) hand) s -> watched hand (handle_write fd s).1.
Proof.
  intros W. unfold handle_write. destruct (write_ops_ s !! fd) as [op|] eqn:E.
  2: by apply (kq_watched_done _ fd EVFILT_WRITE).
  destruct (w_writes _ _ W fd op E) as (Ho & Ht & _).
  pose proof (calm_write fd (data_ op) (kernel s)) as C1.
  pose proof (calm_sendto fd (data_ op) (default [] (dest_addr op)) (kernel s)) as C2.
  unfold try_complete_write, try_complete_sendto.
  destruct (kq_write _ _ _) as [r1 k1], (kq_sendto _ _ _ _) as [r2 k2].
  destruct (op_type op) eqn:Et; try done; cbn in C1, C2.
  - apply (kq_watched_calm _ _ _ C1) in W. destruct (sized r1) as [c|]; [by apply kq_watched_settle_write|].
    apply kq_watched_again; [by apply C1|done].
  - by apply kq_watched_settle_write.
  - apply (kq_watched_calm _ _ _ C2) in W. destruct (sized r2) as [c|]; [by apply kq_watched_settle_write|].
    apply kq_watched_again; [by apply C2|done].
  - by apply kq_watched_settle_write.
Qed.

Lemma kq_watched_event hand e s : watched (also e hand) s -> watched hand (handle_event e s).1.
Proof.
  destruct e as [fd []]; cbn [handle_event].
  - apply kq_watched_handle_read.
  - apply kq_watched_handle_write.
  - intros W. by apply (kq_watched_done _ fd EVFILT_USER).
Qed.

Lemma kq_watched_events hand es s :
  watched (fun x => x ∈ es \/ hand x) s -> watched hand (handle_events es s).1.
Proof.
  revert s. induction es as [|e es IH]; intros s W; cbn [handle_events].
  - destruct s as [k rs ws cs]. apply (kq_watched_kernel _ _ _ k W); [done|]. set_solver.
  - destruct (handle_event e s) as [s1 c1] eqn:E1, (handle_events es s1) as [s2 c2] eqn:E2. cbn.
    replace s2 with (handle_events es s1).1 by (by rewrite E2). apply IH.
    replace s1 with (handle_event e s).1 by (by rewrite E1). apply kq_watched_event.
    destruct s as [k rs ws cs]. apply (kq_watched_kernel _ _ _ k W); [done|]. unfold also. set_solver.
Qed.

(** ** Submission *)

Lemma kq_watched_submit hand r ctx s s' :
  open (request_fd r) (kernel s) = true -> submit_impl r ctx s = Ok s' -> watched hand s -> watched hand s'.
Proof.
  intros Ho Hs W. destruct r as [fd n|fd d|fd n|fd d to|fd|fd to|fd|fd]; cbn [submit_impl request_fd] in *;
    unfold async_sendto_impl, async_connect_impl in Hs.
  4: case_match; [done|].
  6: { pose proof (calm_connect fd to (kernel s)) as C. destruct (kq_connect fd to (kernel s)) as [x k].
       apply (kq_watched_calm _ _ _ C) in W. injection Hs as <-. case_match; [by apply kq_watched_contexts|].
       case_match; [by apply kq_watched_contexts|]. apply kq_watched_put_write; [by apply C|done|done]. }
  all: injection Hs as <-; first [by apply kq_watched_put_read|by apply kq_watched_put_write].
Qed.

Lemma kq_watched_close hand fd s :
  watched hand s -> watched hand ((deregister_impl fd s) <| kernel ::= kq_close fd |>).
Proof.
  intros W. unfold deregister_impl. pose proof (delete_law (fd, EVFILT_READ) (kernel s)) as D1.
  pose proof (delete_open (fd, EVFILT_READ) (kernel s)) as O1.
  destruct (kevent_delete (fd, EVFILT_READ) (kernel s)) as [ok k1]. cbn in D1, O1.
  pose proof (delete_law (fd, EVFILT_WRITE) k1) as D2. pose proof (delete_open (fd, EVFILT_WRITE) k1) as O2.
  set (k2 := if ok then _ else _).
  assert (forall fd', fd' <> fd -> open fd' (kernel s) = true -> open fd' (kq_close fd k2) = true) as Hopen.
  { intros fd' Hne Ho. rewrite close_open by done. unfold k2. destruct ok; [by rewrite O2, O1|by rewrite O1]. }
  assert (forall fd' f, fd' <> fd -> (fd', f) ∈ armed (kernel s) -> (fd', f) ∈ armed (kq_close fd k2)) as Harm.
  { intros fd' f Hne Ha. rewrite close_law. unfold k2. destruct ok; rewrite ?D2, D1; set_solver. }
  destruct W as [W1 W2]. split; cbn; intros fd' op [Hne H]%lookup_delete_Some.
  - destruct (W1 fd' op H) as (? & ? & Ha). split_and!; [by apply Hopen|done|]. intros Hn.
    destruct (Ha Hn); [left; by apply Harm|by right].
  - destruct (W2 fd' op H) as (? & ? & Ha). split_and!; [by apply Hopen|done|].
    destruct Ha; [left; by apply Harm|by right].
Qed.

(** ** Threads *)

Definition in_hand (ts : list place) : kev -> Prop :=
  fun e => exists th es, ts !! th = Some (Handling es) /\ e ∈ es.

(** A thread changes its place. *)
Lemma kq_in_hand_move ts th p p' e :
  ts !! th = Some p -> in_hand ts e ->
  match p with Handling es => e ∈ es | _ => False end \/ in_hand (<[th := p']> ts) e.
Proof.
  intros Hth (th' & es & H & He). destruct (decide (th' = th)) as [->|Hne].
  - left. rewrite H in Hth. by injection Hth as <-.
  - right. exists th', es. by rewrite list_lookup_insert_ne.
Qed.

Lemma kq_in_hand_new ts th p es e : ts !! th = Some p -> e ∈ es -> in_hand (<[th := Handling es]> ts) e.
Proof. intros Hth He. exists th, es. rewrite list_lookup_insert_eq; [done|by eapply lookup_lt_Some]. Qed.

Lemma kq_watched_step ev (y y' : system (F := F)) :
  step ev y y' -> watched (in_hand (threads y)) (kq y) -> watched (in_hand (threads y')) (kq y').
Proof.
  intros Hs W. destruct Hs as [th t s ts h es b Hth Hp|th s ts h es b cs Hth Hh|th s ts h c cs Hth|th s ts h Hth|
    r co s b now ts h Ho Hf Ha|fd s ts h|fd s ts h|s ts h|k s ts h Hc]; cbn [kq threads] in *.
  - unfold poll_wait in Hp. pose proof (wait_law (timespec t) (kernel s)) as Hl.
    pose proof (wait_open (timespec t) (kernel s)) as Hw.
    destruct (kevent_wait (timespec t) (kernel s)) as [es' k]. injection Hp as <- <-. cbn in Hl, Hw.
    apply (kq_watched_kernel _ _ _ _ W); [intros fd; by rewrite Hw|]. intros e [He|He].
    + destruct (decide (e ∈ es')); [right; by eapply kq_in_hand_new|left; rewrite Hl; set_solver].
    + right. by destruct (kq_in_hand_move ts th Idle (Handling es') e Hth He).
  - replace b with (handle_events es s).1 by (by rewrite Hh). apply kq_watched_events.
    destruct s as [k rs ws l]. apply (kq_watched_kernel _ _ _ k W); [done|]. intros e [He|He]; [by left|].
    right. by apply (kq_in_hand_move ts th (Handling es) (Resuming cs) e Hth).
  - destruct s as [k rs ws l]. apply (kq_watched_kernel _ _ _ k W); [done|]. intros e [He|He]; [by left|].
    right. by destruct (kq_in_hand_move ts th (Resuming (c :: cs)) (Resuming cs) e Hth He).
  - destruct s as [k rs ws l]. apply (kq_watched_kernel _ _ _ k W); [done|]. intros e [He|He]; [by left|].
    right. by destruct (kq_in_hand_move ts th (Resuming []) Idle e Hth He).
  - unfold await_operation in Ha. destruct (submit_impl _ _ _) as [s1| | |] eqn:E; [|done..].
    injection Ha as <- _. eapply kq_watched_submit; [..|exact E|]; [done|]. by apply kq_watched_contexts.
  - unfold register_impl. pose proof (calm_nonblocking fd (kernel s)) as C.
    destruct (kq_nonblocking fd (kernel s)) as [x k]. by apply kq_watched_calm.
  - by apply kq_watched_close.
  - apply (kq_watched_kernel _ _ _ _ W); [intros fd; by rewrite trigger_open|]. intros e. by rewrite trigger_law.
  - by apply kq_watched_calm.
Qed.

(** ** Contexts *)

(** The context has been made and is not completed. *)
Definition waiting (c : nat) (s : backend) : Prop := exists co, contexts s !! c = Some {| handle_ := co; completed_ := None |}.

Definition table (w : bool) (s : backend) : gmap Z PendingOp := if w then write_ops_ s else read_ops_ s.

(** [cs] are the contexts that are to be resumed, or have been. *)
Record once (cs : list nat) (s : backend) : Prop := {
  o_waiting w fd op : table w s !! fd = Some op -> waiting (ctx_ op) s;
  o_apart w1 w2 fd1 fd2 op1 op2 : table w1 s !! fd1 = Some op1 -> table w2 s !! fd2 = Some op2 ->
    ctx_ op1 = ctx_ op2 -> w1 = w2 /\ fd1 = fd2;
  o_done c : c ∈ cs -> is_completed c s = true;
  o_nodup : NoDup cs
}.

Lemma kq_once_perm cs cs' s : cs ≡ₚ cs' -> once cs s -> once cs' s.
Proof. intros Hp [O1 O2 O3 O4]. split; [done|done| |by rewrite <- Hp]. intros c. rewrite <- Hp. apply O3. Qed.

Lemma kq_once_kernel cs s k : once cs s -> once cs (s <| kernel := k |>).
Proof. intros [O1 O2 O3 O4]. split; [exact O1|exact O2|exact O3|exact O4]. Qed.

Lemma kq_waiting_not_completed c s : waiting c s -> is_completed c s = false.
Proof. intros [co H]. unfold is_completed. by rewrite H. Qed.

Lemma kq_waiting_complete c x r s : x <> c -> waiting c s -> waiting c (complete x r s).
Proof. intros Hne [co H]. exists co. cbn. by rewrite list_lookup_alter_ne. Qed.

Lemma kq_completed_complete c x r s : is_completed c s = true -> is_completed c (complete x r s) = true.
Proof.
  unfold is_completed, complete. cbn. destruct (decide (x = c)) as [->|Hne].
  - rewrite list_lookup_alter_eq. by destruct (contexts s !! c).
  - by rewrite list_lookup_alter_ne.
Qed.

(** The operation of one side of a descriptor completes. *)
Definition settle (w : bool) (fd : Z) (op : PendingOp) (c : completion) (s : backend) : backend :=
  if w then settle_write fd op c s else settle_read fd op c s.

Lemma kq_settle_table w fd op c s w' fd' op' :
  table w' (settle w fd op c s) !! fd' = Some op' <-> table w' s !! fd' = Some op' /\ ~ (w' = w /\ fd' = fd).
Proof.
  destruct w, w'; cbn; rewrite ?lookup_delete_Some; naive_solver.
Qed.

Lemma kq_once_settle cs w fd op c s :
  table w s !! fd = Some op -> once cs s -> once (ctx_ op :: cs) (settle w fd op c s).
Proof.
  intros Hop [O1 O2 O3 O4].
  assert (contexts (settle w fd op c s) = contexts (complete (ctx_ op) c s)) as Hc by by destruct w.
  assert (forall x, is_completed x (settle w fd op c s) = is_completed x (complete (ctx_ op) c s)) as Hd.
  { intros x. unfold is_completed. by rewrite Hc. }
  destruct (O1 _ _ _ Hop) as [co Hco]. split.
  - intros w' fd' op' [H Hne]%kq_settle_table. unfold waiting. rewrite Hc.
    apply kq_waiting_complete; [|by eapply O1]. intros E. apply Hne. by eapply O2.
  - intros w1 w2 fd1 fd2 op1 op2 [H1 _]%kq_settle_table [H2 _]%kq_settle_table. by eapply O2.
  - intros x. rewrite Hd. intros [->|Hx]%elem_of_cons; [|by apply kq_completed_complete, O3].
    unfold is_completed. cbn. by rewrite list_lookup_alter_eq, Hco.
  - constructor; [|done]. intros H%O3. by rewrite (kq_waiting_not_completed (ctx_ op) s) in H by (by eexists).
Qed.

(** An event completes the operation of its side, or none; of the filters it arms
    no other than its own. *)
Definition event_done (e : kev) (s : backend) (r : backend * list nat) : Prop :=
  exists k : K, armed k ⊆ {[e]} ∪ armed (kernel s) /\
    (r = (s <| kernel := k |>, []) \/
     exists (w : bool) op c, e.2 = (if w then EVFILT_WRITE else EVFILT_READ) /\ table w s !! e.1 = Some op /\
       r = (settle w e.1 op c (s <| kernel := k |>), [ctx_ op])).

Lemma kq_done_nothing e s : event_done e s (s, []).
Proof. exists (kernel s). split; [set_solver|]. left. by destruct s. Qed.

Lemma kq_done_again e s k : calm (kernel s) k -> event_done e s (register_event e.1 e.2 (s <| kernel := k |>), []).
Proof.
  intros [Ha _]. exists (kevent_add e k). split; [rewrite <- Ha; apply add_only|].
  left. unfold register_event. by destruct e.
Qed.

Lemma kq_done_settle w fd op c s k :
  calm (kernel s) k -> table w s !! fd = Some op ->
  event_done (fd, if w then EVFILT_WRITE else EVFILT_READ) s (settle w fd op c (s <| kernel := k |>), [ctx_ op]).
Proof. intros [Ha _] Ht. exists k. split; [set_solver|]. right. by exists w, op, c. Qed.

Lemma kq_calm_refl k : calm k k.
Proof. by split. Qed.

Lemma kq_calm_accepted fd k :
  let '(r, k') := kq_accept fd k in
  calm k (match r with Done new_fd => (kq_nonblocking new_fd k').2 | _ => k' end).
Proof.
  pose proof (calm_accept fd k) as C. destruct (kq_accept fd k) as [[n| |] k']; [|done..].
  destruct C as [A B], (calm_nonblocking n k') as [A' B']. split; [by rewrite A'|auto].
Qed.

Lemma kq_settle_id w fd op c s : settle w fd op c s = settle w fd op c (s <| kernel := kernel s |>).
Proof. by destruct s. Qed.

Lemma kq_event_cases e s : event_done e s (handle_event e s).
Proof.
  destruct e as [fd []]; cbn [handle_event]; [| |apply kq_done_nothing].
  - unfold handle_read. destruct (read_ops_ s !! fd) as [op|] eqn:E; [|apply kq_done_nothing].
    unfold try_complete_read, try_complete_recvfrom, try_accept.
    pose proof (calm_read fd (len_ op) (kernel s)) as C1. pose proof (calm_recvfrom fd (len_ op) (kernel s)) as C2.
    pose proof (kq_calm_accepted fd (kernel s)) as C3.
    destruct (kq_read _ _ _) as [r1 k1], (kq_recvfrom _ _ _) as [r2 k2], (kq_accept _ _) as [r3 k3].
    destruct (op_type op); try apply kq_done_nothing.
    + destruct (read_result r1); [by apply (kq_done_settle false)|by apply kq_done_again].
    + destruct (accept_result r3); [by apply (kq_done_settle false)|].
      eexists. split; [|by left]. destruct C3 as [-> _]. set_solver.
    + destruct (received r2); [by apply (kq_done_settle false)|by apply kq_done_again].
    + fold (settle false fd op (completed 0 0) s). rewrite kq_settle_id. by apply (kq_done_settle false).
  - unfold handle_write. destruct (write_ops_ s !! fd) as [op|] eqn:E; [|apply kq_done_nothing].
    unfold try_complete_write, try_complete_sendto.
    pose proof (calm_write fd (data_ op) (kernel s)) as C1.
    pose proof (calm_sendto fd (data_ op) (default [] (dest_addr op)) (kernel s)) as C2.
    destruct (kq_write _ _ _) as [r1 k1], (kq_sendto _ _ _ _) as [r2 k2].
    destruct (op_type op); try apply kq_done_nothing.
    + destruct (sized r1); [by apply (kq_done_settle true)|by apply kq_done_again].
    + match goal with |- event_done _ _ (settle_write fd op ?c s, _) => change (settle_write fd op c s) with (settle true fd op c s) end.
      rewrite kq_settle_id. by apply (kq_done_settle true).
    + destruct (sized r2); [by apply (kq_done_settle true)|by apply kq_done_again].
    + fold (settle true fd op (completed 0 0) s). rewrite kq_settle_id. by apply (kq_done_settle true).
Qed.

Lemma kq_once_events cs es s : once cs s -> once ((handle_events es s).2 ++ cs) (handle_events es s).1.
Proof.
  revert cs s. induction es as [|e es IH]; intros cs s O; cbn [handle_events]; [done|].
  destruct (kq_event_cases e s) as (k & _ & [->|(w & op & c & _ & Hop & ->)]).
  - apply (kq_once_kernel _ _ k), IH in O. by destruct (handle_events es _).
  - apply (kq_once_kernel _ _ k), (kq_once_settle _ w e.1 op c), IH in O; [|by destruct w].
    destruct (handle_events es _) as [s' rest]. cbn in *. eapply kq_once_perm; [|exact O].
    by rewrite Permutation_middle.
Qed.

(** ** New contexts *)

Lemma kq_waiting_lt c s : waiting c s -> (c < length (contexts s))%nat.
Proof. intros [co H]. by eapply lookup_lt_Some. Qed.

Lemma kq_once_context cs co s :
  once cs s -> once cs (s <| contexts ::= fun l => l ++ [{| handle_ := co; completed_ := None |}] |>).
Proof.
  intros [O1 O2 O3 O4].
  assert (forall c, (c < length (contexts s))%nat ->
    (contexts s ++ [{| handle_ := co; completed_ := None |}]) !! c = contexts s !! c) as Hc.
  { intros c H. by apply lookup_app_l. }
  split; [|done| |done].
  - intros w fd op H. destruct (O1 w fd op) as [co' Hw]; [by destruct w|]. exists co'. cbn.
    rewrite Hc; [done|by eapply lookup_lt_Some].
  - intros c Hd%O3. unfold is_completed in *. cbn. destruct (contexts s !! c) eqn:E; [|done].
    by rewrite Hc, E by (by eapply lookup_lt_Some).
Qed.

(** A pending operation with a context that no other has *)
Lemma kq_once_put cs w fd op s s' :
  once cs s -> waiting (ctx_ op) s -> (forall w fd op', table w s !! fd = Some op' -> ctx_ op' <> ctx_ op) ->
  contexts s' = contexts s -> (forall w', table w' s' = if eqb w w' then <[fd := op]> (table w s) else table w' s) ->
  once cs s'.
Proof.
  intros [O1 O2 O3 O4] Hw Hn Hc Ht.
  assert (forall w' fd' op', table w' s' !! fd' = Some op' ->
    (w' = w /\ fd' = fd /\ op' = op) \/ table w' s !! fd' = Some op') as Hin.
  { intros w' fd' op'. rewrite Ht. destruct (eqb_spec w w') as [->|]; [|by right].
    rewrite lookup_insert_Some. naive_solver. }
  split.
  - intros w' fd' op' [(-> & -> & ->)|H]%Hin; unfold waiting; rewrite Hc; [done|by eapply O1].
  - intros w1 w2 fd1 fd2 op1 op2 [(-> & -> & ->)|H1]%Hin [(-> & -> & ->)|H2]%Hin E; [done|..].
    + by destruct (Hn _ _ _ H2).
    + by destruct (Hn _ _ _ H1).
    + by eapply O2.
  - intros c. unfold is_completed. rewrite Hc. apply O3.
  - done.
Qed.

Lemma kq_once_put_read cs fd op s :
  once cs s -> waiting (ctx_ op) s -> (forall w fd op', table w s !! fd = Some op' -> ctx_ op' <> ctx_ op) ->
  once cs (put_read fd op s).
Proof. intros O Hw Hn. apply (kq_once_put cs false fd op s); [done|done|done|done|by intros []]. Qed.

Lemma kq_once_put_write cs fd op s :
  once cs s -> waiting (ctx_ op) s -> (forall w fd op', table w s !! fd = Some op' -> ctx_ op' <> ctx_ op) ->
  once cs (put_write fd op s).
Proof. intros O Hw Hn. apply (kq_once_put cs true fd op s); [done|done|done|done|by intros []]. Qed.

(** The new context completes at once: it is in no table. *)
Lemma kq_once_complete cs c r s :
  once cs s -> (forall w fd op', table w s !! fd = Some op' -> ctx_ op' <> c) -> once cs (complete c r s).
Proof.
  intros [O1 O2 O3 O4] Hn.
  split; [| |by intros x ?%O3; apply kq_completed_complete|done].
  - intros w fd op H. assert (table w s !! fd = Some op) as H' by by destruct w.
    apply kq_waiting_complete; [|by eapply O1]. intros E. by apply (Hn _ _ _ H').
  - intros w1 w2 fd1 fd2 op1 op2 H1 H2. apply O2; [by destruct w1|by destruct w2].
Qed.

Lemma kq_once_submit cs r co s s' now :
  once cs s -> await_operation r co s = Ok (s', now) -> once cs s'.
Proof.
  intros O Ha. unfold await_operation in Ha. destruct (submit_impl _ _ _) as [s1| | |] eqn:E; [|done..].
  injection Ha as <- _. set (c := length (contexts s)) in *.
  assert (forall w fd op', table w s !! fd = Some op' -> ctx_ op' <> c) as Hn.
  { intros w fd op' H%(o_waiting _ _ O)%kq_waiting_lt. unfold c. lia. }
  pose proof (kq_once_context cs co s O) as O'. revert E O'.
  set (s0 := s <| contexts ::= _ |>). intros E O'.
  assert (waiting c s0) as Hw.
  { exists co. unfold s0. cbn. unfold c. by rewrite lookup_app_r, Nat.sub_diag by done. }
  assert (forall w fd op', table w s0 !! fd = Some op' -> ctx_ op' <> c) as Hn0.
  { intros w fd op' H. apply (Hn w fd). by destruct w. }
  clearbody s0 c. destruct r as [fd n|fd d|fd n|fd d to|fd|fd to|fd|fd]; cbn [submit_impl] in E;
    unfold async_sendto_impl, async_connect_impl in E.
  4: case_match; [done|].
  6: { destruct (kq_connect fd to (kernel s0)) as [x k]. injection E as <-.
       assert (forall w fd op', table w (s0 <| kernel := k |>) !! fd = Some op' -> ctx_ op' <> c) as Hn1
         by (intros []; [apply (Hn0 true)|apply (Hn0 false)]).
       apply (kq_once_kernel _ _ k) in O'. case_match; [by apply kq_once_complete|].
       case_match; [by apply kq_once_complete|].
       by apply kq_once_put_write. }
  all: injection E as <-; first [by apply kq_once_put_read|by apply kq_once_put_write].
Qed.

Lemma kq_once_close cs fd s : once cs s -> once cs ((deregister_impl fd s) <| kernel ::= kq_close fd |>).
Proof.
  intros [O1 O2 O3 O4]. unfold deregister_impl. destruct (kevent_delete _ _) as [ok k].
  set (s' := _ <| kernel ::= kq_close fd |>).
  assert (forall w fd' op, table w s' !! fd' = Some op -> table w s !! fd' = Some op) as Ht.
  { intros [] fd' op; cbn; by intros [_ ?]%lookup_delete_Some. }
  split; [intros w fd' op H%Ht; by eapply O1| |exact O3|exact O4].
  intros w1 w2 fd1 fd2 op1 op2 H1%Ht H2%Ht. by eapply O2.
Qed.

(** ** The places of the threads *)

Definition resuming (p : place) : list nat := match p with Resuming cs => cs | _ => [] end.

Definition to_resume (ts : list place) : list nat := concat (resuming <$> ts).

Lemma kq_to_resume_move ts th p p' :
  ts !! th = Some p -> resuming p ++ to_resume (<[th := p']> ts) ≡ₚ resuming p' ++ to_resume ts.
Proof.
  revert th. induction ts as [|q ts IH]; intros [|th] H; cbn in *; try done.
  - injection H as ->. solve_Permutation.
  - specialize (IH th H). unfold to_resume in *. cbn. rewrite !(Permutation_app_swap_app _ (resuming q)), IH.
    solve_Permutation.
Qed.

Lemma kq_once_step ev (y y' : system (F := F)) :
  step ev y y' -> once (to_resume (threads y) ++ resumed y) (kq y) ->
  once (to_resume (threads y') ++ resumed y') (kq y').
Proof.
  intros Hs O. destruct Hs as [th t s ts h es b Hth Hp|th s ts h es b cs Hth Hh|th s ts h c cs Hth|th s ts h Hth|
    r co s b now ts h Ho Hf Ha|fd s ts h|fd s ts h|s ts h|k s ts h Hc]; cbn [kq threads resumed] in *.
  - unfold poll_wait in Hp. destruct (kevent_wait _ _) as [es' k]. injection Hp as <- <-. apply kq_once_kernel.
    eapply kq_once_perm; [|exact O]. by rewrite <- (kq_to_resume_move ts th Idle (Handling es') Hth).
  - pose proof (kq_once_events _ es s O) as O'. rewrite Hh in O'. cbn in O'. eapply kq_once_perm; [|exact O'].
    rewrite app_assoc. by rewrite <- (kq_to_resume_move ts th _ (Resuming cs) Hth).
  - eapply kq_once_perm; [|exact O]. pose proof (kq_to_resume_move ts th _ (Resuming cs) Hth) as Hm. cbn in Hm.
    rewrite app_assoc, <- Permutation_cons_append.
    assert (to_resume ts ≡ₚ c :: to_resume (<[th:=Resuming cs]> ts)) as ->; [|solve_Permutation].
    apply (Permutation_app_inv_l cs). rewrite <- Hm. by rewrite Permutation_middle.
  - eapply kq_once_perm; [|exact O]. by rewrite <- (kq_to_resume_move ts th (Resuming []) Idle Hth).
  - by eapply kq_once_submit.
  - unfold register_impl. destruct (kq_nonblocking fd (kernel s)). by apply kq_once_kernel.
  - by apply kq_once_close.
  - by apply (kq_once_kernel _ s).
  - by apply kq_once_kernel.
Qed.

(** ** What holds in every reachable state *)

Lemma kq_reachable_ok n k (y : system (F := F)) :
  reachable n k y -> watched (in_hand (threads y)) (kq y) /\ once (to_resume (threads y) ++ resumed y) (kq y).
Proof.
  intros Hr. induction Hr as [|ev y y' _ [W O] Hs]; [|by eauto using kq_watched_step, kq_once_step].
  assert (to_resume (replicate n Idle) = []) as E by (clear; by induction n).
  split; [by split|]. cbn [kq threads resumed]. rewrite E. split; [by intros []|by intros []|by intros c ?%elem_of_nil|constructor].
Qed.

(** C29: No thread that polls kqueue loses an operation: in every reachable state of
    any number of threads, however their waits, critical sections and resumptions
    interleave with submissions and closings, every pending operation has its
    one-shot filter armed or a thread holds its event; its coroutine is not
    completed.  An accept is the exception. *)
Theorem kqueue_forgets_nothing n k (y : system (F := F)) fd op :
  reachable n k y ->
  (read_ops_ (kq y) !! fd = Some op -> op_type op <> Accept ->
   ((fd, EVFILT_READ) ∈ armed (kernel (kq y)) \/ in_hand (threads y) (fd, EVFILT_READ)) /\
   is_completed (ctx_ op) (kq y) = false) /\
  (write_ops_ (kq y) !! fd = Some op ->
   ((fd, EVFILT_WRITE) ∈ armed (kernel (kq y)) \/ in_hand (threads y) (fd, EVFILT_WRITE)) /\
   is_completed (ctx_ op) (kq y) = false).
Proof.
  intros Hr. destruct (kq_reachable_ok n k y Hr) as [W O]. split.
  - intros H Ha. destruct (w_reads _ _ W fd op H) as (_ & _ & Hw). split; [by apply Hw|].
    by apply kq_waiting_not_completed, (o_waiting _ _ O false fd).
  - intros H. destruct (w_writes _ _ W fd op H) as (_ & _ & Hw). split; [done|].
    by apply kq_waiting_not_completed, (o_waiting _ _ O true fd).
Qed.

(** Of all the threads that poll at the same time, one completes an operation
    and resumes its coroutine, once; what is resumed is complete, and is in no
    table. *)
Theorem kqueue_completes_once n k (y : system (F := F)) :
  reachable n k y ->
  NoDup (to_resume (threads y) ++ resumed y) /\
  (forall c, c ∈ to_resume (threads y) ++ resumed y -> is_completed c (kq y) = true) /\
  (forall w fd op, table w (kq y) !! fd = Some op -> ctx_ op ∉ to_resume (threads y) ++ resumed y).
Proof.
  intros Hr. destruct (kq_reachable_ok n k y Hr) as [_ [O1 O2 O3 O4]]. split_and!; [done|done|].
  intros w fd op H Hc%O3. by rewrite (kq_waiting_not_completed _ _ (O1 w fd op H)) in Hc.
Qed.

(** ** An accept that is lost *)

(** The operation pends, and nothing will look at it. *)
Record lost (fd : Z) (op : PendingOp) (y : system (F := F)) : Prop := {
  lost_pending : read_ops_ (kq y) !! fd = Some op;
  lost_unarmed : (fd, EVFILT_READ) ∉ armed (kernel (kq y));
  lost_unheld : ~ in_hand (threads y) (fd, EVFILT_READ)
}.

Lemma kq_lost_events fd op es s :
  (fd, EVFILT_READ) ∉ es -> read_ops_ s !! fd = Some op -> (fd, EVFILT_READ) ∉ armed (kernel s) ->
  let s' := (handle_events es s).1 in
  read_ops_ s' !! fd = Some op /\ (fd, EVFILT_READ) ∉ armed (kernel s').
Proof.
  revert s. induction es as [|e es IH]; intros s He Hop Ha; cbn [handle_events]; [done|].
  apply not_elem_of_cons in He as [Hne He].
  assert (read_ops_ (handle_event e s).1 !! fd = Some op /\
          (fd, EVFILT_READ) ∉ armed (kernel (handle_event e s).1)) as [Hop' Ha'].
  { destruct (kq_event_cases e s) as (k & Hk & [->|(w & op' & c & Hf & Hop' & ->)]); [set_solver|].
    destruct e as [fd' f], w; cbn in *; subst f; [set_solver|].
    rewrite lookup_delete_ne by congruence. set_solver. }
  destruct (handle_event e s) as [s1 cs]. specialize (IH s1 He Hop' Ha'). cbn in IH.
  by destruct (handle_events es s1).
Qed.

Lemma kq_lost_submit fd op r c s s' :
  submit_impl r c s = Ok s' -> side_free r s -> read_ops_ s !! fd = Some op ->
  (fd, EVFILT_READ) ∉ armed (kernel s) ->
  read_ops_ s' !! fd = Some op /\ (fd, EVFILT_READ) ∉ armed (kernel s').
Proof.
  intros E Hf Hop Ha.
  assert (forall fd' op', read_ops_ s !! fd' = None -> read_ops_ (put_read fd' op' s) !! fd = Some op /\
    (fd, EVFILT_READ) ∉ armed (kernel (put_read fd' op' s))) as Hr.
  { intros fd' op' Hn. cbn. rewrite lookup_insert_ne by congruence. split; [done|].
    pose proof (add_only (fd', EVFILT_READ) (kernel s)). assert (fd' <> fd) by congruence. set_solver. }
  assert (forall fd' op' s, read_ops_ s !! fd = Some op -> (fd, EVFILT_READ) ∉ armed (kernel s) ->
    read_ops_ (put_write fd' op' s) !! fd = Some op /\
    (fd, EVFILT_READ) ∉ armed (kernel (put_write fd' op' s))) as Hw.
  { intros fd' op' s0 Hop0 Ha0. cbn. pose proof (add_only (fd', EVFILT_WRITE) (kernel s0)). set_solver. }
  destruct r as [fd' n|fd' d|fd' n|fd' d to|fd'|fd' to|fd'|fd']; cbn [submit_impl side_free] in *;
    unfold async_sendto_impl, async_connect_impl in E.
  4: case_match; [done|].
  6: { pose proof (calm_connect fd' to (kernel s)) as [C _]. destruct (kq_connect fd' to (kernel s)) as [x k].
       injection E as <-. cbn in C. case_match; [by rewrite <- C in Ha|]. case_match; [by rewrite <- C in Ha|].
       apply Hw; [done|]. cbn. by rewrite C. }
  all: injection E as <-; first [by apply Hr|by apply Hw].
Qed.

Lemma kq_lost_close fd fd' op s :
  fd' <> fd -> read_ops_ s !! fd = Some op -> (fd, EVFILT_READ) ∉ armed (kernel s) ->
  let s' := (deregister_impl fd' s) <| kernel ::= kq_close fd' |> in
  read_ops_ s' !! fd = Some op /\ (fd, EVFILT_READ) ∉ armed (kernel s').
Proof.
  intros Hne Hop Ha. unfold deregister_impl. pose proof (delete_law (fd', EVFILT_READ) (kernel s)) as D1.
  destruct (kevent_delete (fd', EVFILT_READ) (kernel s)) as [ok k1]. cbn in *.
  pose proof (delete_law (fd', EVFILT_WRITE) k1) as D2. rewrite lookup_delete_ne by done. split; [done|].
  rewrite close_law. destruct ok; rewrite ?D2, D1; set_solver.
Qed.

Lemma kq_unheld_move ts th p p' e :
  ts !! th = Some p -> ~ in_hand ts e -> (forall es, p' = Handling es -> e ∉ es) -> ~ in_hand (<[th := p']> ts) e.
Proof.
  intros Hth Hn Hp (th' & es & [(_ & H & _)|[_ H]]%list_lookup_insert_Some & He); [by apply (Hp es)|].
  apply Hn. by exists th', es.
Qed.

Lemma kq_lost_step ev fd op (y y' : system (F := F)) : step ev y y' -> ev <> Close fd -> lost fd op y -> lost fd op y'.
Proof.
  intros Hs He [Hop Ha Hh]. destruct Hs as [th t s ts h es b Hth Hp|th s ts h es b cs Hth Hev|th s ts h c cs Hth|
    th s ts h Hth|r co s b now ts h Ho Hf Hr|fd' s ts h|fd' s ts h|s ts h|k s ts h Hc]; cbn [kq threads] in *.
  - unfold poll_wait in Hp. pose proof (wait_law (timespec t) (kernel s)) as Hl.
    pose proof (wait_armed (timespec t) (kernel s) (fd, EVFILT_READ)) as Hw.
    destruct (kevent_wait _ _) as [es' k]. injection Hp as <- <-. cbn in Hl, Hw.
    split; cbn; [done|rewrite Hl; set_solver|]. eapply kq_unheld_move; [done|done|]. intros es [= <-]. naive_solver.
  - assert ((fd, EVFILT_READ) ∉ es) as Hes by (intros Hin; apply Hh; by exists th, es).
    destruct (kq_lost_events fd op es s Hes Hop Ha) as [Hop' Ha']. rewrite Hev in Hop', Ha'.
    split; [done|done|]. by eapply kq_unheld_move.
  - split; [done|done|]. by eapply kq_unheld_move.
  - split; [done|done|]. by eapply kq_unheld_move.
  - unfold await_operation in Hr. destruct (submit_impl _ _ _) as [s1| | |] eqn:E; [|done..].
    injection Hr as <- _. eapply kq_lost_submit in E as [Hop' Ha']; [by split|by destruct r|done|done].
  - unfold register_impl. pose proof (calm_nonblocking fd' (kernel s)) as [C _].
    destruct (kq_nonblocking fd' (kernel s)) as [x k]. cbn in C. split; cbn; [done|by rewrite C|done].
  - destruct (kq_lost_close fd fd' op s) as [Hop' Ha']; [congruence|done|done|]. by split.
  - split; [done|cbn; by rewrite trigger_law|done].
  - destruct Hc as [C _]. split; cbn; [done|by rewrite C|done].
Qed.

(** C30: An accept can be lost.  When the connection that its event announced is gone
    at the time of the [accept] call, which then would block, the operation stays
    in its table without its filter: whatever the threads and the program do from
    then on, until the listener is closed, no thread looks at it again, and the
    coroutine that accepts is not resumed, however many clients connect. *)
Theorem kqueue_accept_lost n k (y y1 : system (F := F)) th fd op :
  reachable n k y ->
  read_ops_ (kq y) !! fd = Some op -> op_type op = Accept ->
  threads y !! th = Some (Handling [(fd, EVFILT_READ)]) ->
  (forall th' es, th' <> th -> threads y !! th' = Some (Handling es) -> (fd, EVFILT_READ) ∉ es) ->
  (fd, EVFILT_READ) ∉ armed (kernel (kq y)) ->
  (kq_accept fd (kernel (kq y))).1 = WouldBlock ->
  step (PollHandle th) y y1 ->
  forall y2, rtc (fun a b => exists ev, ev <> Close fd /\ step ev a b) y1 y2 ->
    read_ops_ (kq y2) !! fd = Some op /\ is_completed (ctx_ op) (kq y2) = false /\
    ctx_ op ∉ to_resume (threads y2) ++ resumed y2.
Proof.
  intros Hr Hop Hacc Hth Hother Ha Hb Hs y2 Hrun.
  assert (lost fd op y1) as Hl.
  { inversion Hs as [|th' s ts h es b cs Hth' Hev| | | | | | |]; subst; cbn [kq threads] in *.
    rewrite Hth in Hth'. injection Hth' as <-. revert Hev. cbn. unfold handle_read, try_accept.
    rewrite Hop, Hacc. pose proof (calm_accept fd (kernel s)) as [C _].
    destruct (kq_accept fd (kernel s)) as [[] k']; try done. cbn in C |- *. intros [= <- <-].
    split; cbn; [done|by rewrite C|].
    intros (th' & es & [(_ & H & _)|[Hne H]]%list_lookup_insert_Some & He); [done|]. by apply (Hother th' es). }
  assert (lost fd op y2 /\ reachable n k y2) as [Hl2 Hr2].
  { assert (reachable n k y1) as Hr1 by by eapply reach_step.
    clear Hs. induction Hrun as [y1|y1 y3 y2 (ev & Hne & Hst) _ IH]; [done|].
    apply IH; [by eapply kq_lost_step|by eapply reach_step]. }
  destruct (kq_reachable_ok n k y2 Hr2) as [_ O]. pose proof (o_waiting _ _ O false fd op (lost_pending _ _ _ Hl2)) as Hw.
  split_and!; [apply Hl2|by apply kq_waiting_not_completed|]. intros Hc%(o_done _ _ O).
  by rewrite (kq_waiting_not_completed _ _ Hw) in Hc.
Qed.
End Facts.

(** ** A small kernel

    Every descriptor is open; an event is pending for each filter; reads find a
    byte, nobody connects. *)
Record toy_queue := { t_armed : gset kev }.

#[export] Instance toy_kernel_queue : KernelQueue toy_queue.
Proof.
  refine {| kq_read fd n k := (Done (str "x"), k); kq_recvfrom fd n k := (WouldBlock, k);
    kq_write fd d k := (Done (len d), k); kq_sendto fd d a k := (Done (len d), k);
    kq_accept fd k := (WouldBlock, k); kq_connect fd a k := (0, k); kq_so_error fd k := 0;
    kq_nonblocking fd k := (0, k); kq_close fd k := {| t_armed := filter (fun e => e.1 <> fd) (t_armed k) |};
    kevent_add e k := {| t_armed := {[e]} ∪ t_armed k |};
    kevent_delete e k := (bool_decide (e ∈ t_armed k), {| t_armed := t_armed k ∖ {[e]} |});
    kevent_trigger k := k; kevent_wait t k := (elements (t_armed k), {| t_armed := ∅ |});
    armed := t_armed; open fd k := true |}.
  all: intros; cbn; try done; set_solver.
Defined.

#[export] Instance toy_queue_calm : KernelCalm toy_queue.
Proof. split; try done; intros; by split. Qed.

Definition new_queue : toy_queue := {| t_armed := ∅ |}.

(** One submission, one wait of the first of two threads, its critical section *)
Definition submitted (r : request) : Kqueue.system (K := toy_queue) (F := Z) :=
  {| kq := match await_operation r {| frame := 0; point := 0 |} (KqueueBackend new_queue) with Ok (s, _) => s | _ => KqueueBackend new_queue end;
     threads := [Idle; Idle]; resumed := [] |}.

Definition waited (y : Kqueue.system (K := toy_queue) (F := Z)) : Kqueue.system (K := toy_queue) (F := Z) :=
  let '(es, b) := poll_wait 0 (kq y) in {| kq := b; threads := <[0%nat := Handling es]> (threads y); resumed := resumed y |}.

Definition handled (y : Kqueue.system (K := toy_queue) (F := Z)) : Kqueue.system (K := toy_queue) (F := Z) :=
  match threads y !! 0%nat with
  | Some (Handling es) =>
      let '(b, cs) := handle_events es (kq y) in
      {| kq := b; threads := <[0%nat := Resuming cs]> (threads y); resumed := resumed y |}
  | _ => y
  end.

Lemma submitted_reachable r :
  match r with AsyncConnect _ _ => False | AsyncSendTo _ _ _ => False | _ => True end ->
  reachable 2 new_queue (submitted r).
Proof.
  intros Hr. eapply reach_step; [apply reach_init|].
  apply (step_submit r {| frame := 0; point := 0 |} _ _ false); [done|by destruct r|by destruct r].
Qed.

Lemma waited_reachable n k y : threads y !! 0%nat = Some Idle -> reachable n k y -> reachable n k (waited y).
Proof.
  intros Hth Hr. eapply reach_step; [exact Hr|]. destruct y as [s ts h]. unfold waited. cbn [kq threads resumed] in *.
  destruct (poll_wait 0 s) as [es b] eqn:E. by eapply step_wait.
Qed.

Lemma handled_step y es : threads y !! 0%nat = Some (Handling es) -> step (PollHandle 0) y (handled y).
Proof.
  intros Hth. destruct y as [s ts h]. unfold handled. cbn [kq threads resumed] in *. rewrite Hth.
  destruct (handle_events es s) as [b cs] eqn:E. by eapply step_handle.
Qed.

(** A read completes: the first thread is to resume its coroutine. *)
Example toy_read : threads (handled (waited (submitted (AsyncRead 5 10)))) = [Resuming [0%nat]; Idle].
Proof. by vm_compute. Qed.

Definition reading_op : PendingOp := {| op_type := Read; len_ := 10; data_ := []; dest_addr := None; ctx_ := 0 |}.

Lemma kqueue_forgets_nothing_witness :
  let y := waited (submitted (AsyncRead 5 10)) in
  reachable 2 new_queue y /\
  (((5, EVFILT_READ) ∈ armed (kernel (kq y)) \/ in_hand (threads y) (5, EVFILT_READ)) /\
   is_completed 0 (kq y) = false).
Proof.
  assert (reachable 2 new_queue (waited (submitted (AsyncRead 5 10)))) as Hr
    by (apply waited_reachable; [by vm_compute|by apply submitted_reachable]).
  split; [exact Hr|]. apply (proj1 (kqueue_forgets_nothing _ _ _ 5 reading_op Hr)); [by vm_compute|done].
Defined.

Lemma kqueue_completes_once_witness :
  let y := handled (waited (submitted (AsyncRead 5 10))) in
  reachable 2 new_queue y /\ NoDup (to_resume (threads y) ++ resumed y).
Proof.
  assert (reachable 2 new_queue (handled (waited (submitted (AsyncRead 5 10))))) as Hr.
  { eapply reach_step; [|apply (handled_step _ [(5, EVFILT_READ)]); by vm_compute].
    apply waited_reachable; [by vm_compute|by apply submitted_reachable]. }
  split; [exact Hr|]. apply (kqueue_completes_once _ _ _ Hr).
Defined.

Lemma kqueue_accept_lost_witness :
  let y := handled (waited (submitted (AsyncAccept 5))) in
  read_ops_ (kq y) !! 5 = Some (pending_op Accept 0) /\ is_completed 0 (kq y) = false /\
  (0%nat) ∉ to_resume (threads y) ++ resumed y.
Proof.
  apply (kqueue_accept_lost 2 new_queue (waited (submitted (AsyncAccept 5)))
    (handled (waited (submitted (AsyncAccept 5)))) 0 5 (pending_op Accept 0)).
  - apply waited_reachable; [by vm_compute|by apply submitted_reachable].
  - by vm_compute.
  - done.
  - by vm_compute.
  - intros [|[|th]] es Hne H; [done|by vm_compute in H|by vm_compute in H].
  - vm_compute. set_solver.
  - by vm_compute.
  - apply (handled_step _ [(5, EVFILT_READ)]). by vm_compute.
  - apply rtc_refl.
Defined.
