(* ===== verification/ProcessManager.v ===== *)
(** * The process manager (src/include/async_net/executor/process_manager.hpp)

    A master that keeps a set of workers.  The host class [process_manager] is a
    template over a policy, here the class [WorkerPolicy] of its operations.
    [ForkPolicy] has workers that are processes, on the system calls of the class
    [Os]; [ThreadPolicy] has threads, on the class [Threads].  What the code
    prints is not modelled, and the reload callback does not throw. *)
From S2P Require Import Prelude.
From stdpp Require Import gmap options.

#[local] Open Scope Z_scope.
#[local] Open Scope net_scope.

(** ** Configuration *)

(** The concept [WorkerConfig]; the timeout is in seconds. *)
Class WorkerConfig (Cfg : Type) := {
  num_workers : Cfg -> Z;
  graceful_timeout : Cfg -> Z;
  set_num_workers : Z -> Cfg -> Cfg;
  num_workers_set n c : num_workers (set_num_workers n c) = n;
  graceful_timeout_set n c : graceful_timeout (set_num_workers n c) = graceful_timeout c
}.

Inductive worker_mode := process | thread | auto_mode.

(** [default_worker_config] *)
Record default_worker_config := {
  cfg_num_workers : Z;
  cfg_graceful_timeout : Z;
  cfg_mode : worker_mode
}.
#[export] Instance default_worker_config_settable : Settable default_worker_config := fun c =>
  Build_default_worker_config (cfg_num_workers c) (cfg_graceful_timeout c) (cfg_mode c).

Definition default_config : default_worker_config :=
  {| cfg_num_workers := 0; cfg_graceful_timeout := 5; cfg_mode := auto_mode |}.

#[export] Program Instance default_worker : WorkerConfig default_worker_config := {|
  num_workers := cfg_num_workers;
  graceful_timeout := cfg_graceful_timeout;
  set_num_workers n c := c <| cfg_num_workers := n |>
|}.
Solve All Obligations with done.

(** [resolve_config]; [hardware] is [std::thread::hardware_concurrency()]. *)
Definition resolve_config {Cfg} `{WorkerConfig Cfg} (hardware : Z) (cfg : Cfg) : Cfg :=
  if num_workers cfg =? 0
  then set_num_workers (if hardware =? 0 then 4 else hardware) cfg
  else cfg.

(** The policy [run_mp_master] takes on Unix for the [mode] field, if there is one. *)
Definition run_mp_master (mode : option worker_mode) : worker_mode :=
  match default auto_mode mode with auto_mode => process | m => m end.

Inductive signal := SIGTERM | SIGINT | SIGHUP | SIGPIPE | SIGKILL.
#[export] Instance signal_eq_dec : EqDecision signal.
Proof. solve_decision. Defined.

(** ** The interface of a policy *)

(** [worker_entry] *)
Record worker_entry (H : Type) := {
  handle : H;
  worker_id : Z;
  generation : Z;
  stopping : bool
}.
Arguments handle {H} _.
Arguments worker_id {H} _.
Arguments generation {H} _.
Arguments stopping {H} _.
Arguments Build_worker_entry {H} _ _ _ _.
#[export] Instance worker_entry_settable {H} : Settable (worker_entry H) := fun e =>
  Build_worker_entry (handle e) (worker_id e) (generation e) (stopping e).

(** The operations of a policy on handles [H] in a world [W]; [destroy] is the
    destructor of a handle. *)
Class WorkerPolicy (Cfg H W : Type) := {
  spawn : Z -> Cfg -> W -> H * W;
  signal_stop : H -> W -> W;
  force_stop : H -> W -> H * W;
  is_alive : H -> W -> bool * (H * W);
  reap : list (worker_entry H) -> W -> outcome (list (worker_entry H) * W);
  destroy : H -> W -> outcome W
}.

(** [std::chrono::steady_clock::now] and [std::this_thread::sleep_for], in
    milliseconds. *)
Class Timed (W : Type) := {
  now : W -> Z * W;
  sleep : Z -> W -> W;
  time : W -> Z;
  now_reads w : (now w).1 = time w /\ time w <= time (now w).2;
  sleep_lasts d w : 0 <= d -> time w + d <= time (sleep d w)
}.

(** ** The host *)

Section Host.
Context {Cfg H W : Type} `{HC : WorkerConfig Cfg} `{HP : WorkerPolicy Cfg H W} `{HT : Timed W}.

(** The members of [process_manager], and [pm_signal_state]. *)
Record process_manager := {
  shutdown_requested : bool;
  reload_requested : bool;
  config_ : Cfg;
  workers_ : list (worker_entry H);
  current_generation_ : Z;            (** [unsigned int] *)
  world : W
}.
#[export] Instance process_manager_settable : Settable process_manager := fun m =>
  Build_process_manager (shutdown_requested m) (reload_requested m) (config_ m) (workers_ m) (current_generation_ m) (world m).

(** [spawn_workers]: the workers [i], [i + 1], ... *)
Fixpoint spawn_from (i : Z) (count : nat) (generation : Z) (m : process_manager) : process_manager :=
  match count with
  | O => m
  | S count =>
      let '(h, w) := spawn i (config_ m) (world m) in
      let entry := {| handle := h; worker_id := i; generation := generation; stopping := false |} in
      spawn_from (i + 1) count generation
        (m <| workers_ ::= fun ws => ws ++ [entry] |> <| world := w |>)
  end.

Definition spawn_workers (count generation : Z) (m : process_manager) : process_manager :=
  spawn_from 0 (Z.to_nat count) generation m.

(** The first loop of [stop_old_workers] and of [stop_all_workers]: the workers
    that [p] selects and that are not stopping are signalled. *)
Fixpoint signal_workers (p : worker_entry H -> bool) (ws : list (worker_entry H)) (w : W) :
    list (worker_entry H) * W :=
  match ws with
  | [] => ([], w)
  | e :: ws =>
      let '(e, w) :=
        if p e && negb (stopping e) then (e <| stopping := true |>, signal_stop (handle e) w)
        else (e, w) in
      let '(ws, w) := signal_workers p ws w in
      (e :: ws, w)
  end.

(** [while (now() < deadline) { if (!is_alive(h)) break; sleep_for(50ms); }] *)
Fixpoint wait_exit (fuel : nat) (deadline : Z) (h : H) (w : W) : outcome (H * W) :=
  match fuel with
  | O => Timeout
  | S fuel =>
      let '(t, w) := now w in
      if t <? deadline then
        let '(alive, (h, w)) := is_alive h w in
        if alive : bool then wait_exit fuel deadline h (sleep 50 w) else Ok (h, w)
      else Ok (h, w)
  end.

(** [if (is_alive(h)) force_stop(h)] *)
Definition ensure_stopped (h : H) (w : W) : H * W :=
  let '(alive, (h, w)) := is_alive h w in
  if alive : bool then force_stop h w else (h, w).

(** The fuel of the waits: [timeout] milliseconds, [step] of them a round. *)
Definition rounds (timeout step : Z) : nat := S (S (Z.to_nat (timeout / step))).

(** The second loop of [stop_old_workers] *)
Fixpoint wait_old (fuel : nat) (deadline keep : Z) (ws : list (worker_entry H)) (w : W) :
    outcome (list (worker_entry H) * W) :=
  match ws with
  | [] => Ok ([], w)
  | e :: ws =>
      r ← (if negb (generation e =? keep) && stopping e then
             r ← wait_exit fuel deadline (handle e) w;
             let '(h, w) := ensure_stopped r.1 r.2 in
             Ok (e <| handle := h |>, w)
           else Ok (e, w));
      r' ← wait_old fuel deadline keep ws r.2;
      Ok (r.1 :: r'.1, r'.2)
  end.

Fixpoint destroy_all (ws : list (worker_entry H)) (w : W) : outcome W :=
  match ws with
  | [] => Ok w
  | e :: ws => w ← destroy (handle e) w; destroy_all ws w
  end.

Definition is_old (keep : Z) (e : worker_entry H) : bool := negb (generation e =? keep).

(** [stop_old_workers] *)
Definition stop_old_workers (keep : Z) (m : process_manager) : outcome process_manager :=
  let timeout := 1000 * graceful_timeout (config_ m) in
  let '(ws, w) := signal_workers (is_old keep) (workers_ m) (world m) in
  let '(t, w) := now w in
  r ← wait_old (rounds timeout 50) (t + timeout) keep ws w;
  let '(ws, w) := r in
  w ← destroy_all (List.filter (is_old keep) ws) w;
  Ok (m <| workers_ := List.filter (fun e => negb (is_old keep e)) ws |> <| world := w |>).

(** [all_exited]: the workers up to the first one alive are asked. *)
Fixpoint all_exited (ws : list (worker_entry H)) (w : W) : bool * (list (worker_entry H) * W) :=
  match ws with
  | [] => (true, ([], w))
  | e :: ws =>
      let '(alive, (h, w)) := is_alive (handle e) w in
      let e := e <| handle := h |> in
      if alive : bool then (false, (e :: ws, w))
      else let '(b, (ws, w)) := all_exited ws w in (b, (e :: ws, w))
  end.

(** The wait of [stop_all_workers] *)
Fixpoint wait_all (fuel : nat) (deadline : Z) (ws : list (worker_entry H)) (w : W) :
    outcome (list (worker_entry H) * W) :=
  match fuel with
  | O => Timeout
  | S fuel =>
      let '(t, w) := now w in
      if t <? deadline then
        let '(b, (ws, w)) := all_exited ws w in
        if b : bool then Ok (ws, w) else wait_all fuel deadline ws (sleep 100 w)
      else Ok (ws, w)
  end.

Fixpoint force_all (ws : list (worker_entry H)) (w : W) : list (worker_entry H) * W :=
  match ws with
  | [] => ([], w)
  | e :: ws =>
      let '(h, w) := ensure_stopped (handle e) w in
      let '(ws, w) := force_all ws w in
      (e <| handle := h |> :: ws, w)
  end.

(** [stop_all_workers] *)
Definition stop_all_workers (m : process_manager) : outcome process_manager :=
  let '(ws, w) := signal_workers (fun _ => true) (workers_ m) (world m) in
  let timeout := 1000 * graceful_timeout (config_ m) in
  let '(t, w) := now w in
  r ← wait_all (rounds timeout 100) (t + timeout) ws w;
  let '(ws, w) := force_all r.1 r.2 in
  w ← destroy_all ws w;
  Ok (m <| workers_ := [] |> <| world := w |>).

(** The configuration of a reload; [answer] is what [reload_fn_] returns, if set. *)
Definition new_config (answer : option Cfg) (m : process_manager) : Cfg :=
  match answer with
  | None => config_ m
  | Some c => if num_workers c =? 0 then set_num_workers (num_workers (config_ m)) c else c
  end.

(** The branch of [run] for a requested reload *)
Definition reload (answer : option Cfg) (m : process_manager) : outcome process_manager :=
  let new_config := new_config answer m in
  let g := u32 (current_generation_ m + 1) in
  let m := m <| current_generation_ := g |> in
  m ← stop_old_workers g (spawn_workers (num_workers new_config) g m);
  Ok (m <| config_ ::= set_num_workers (num_workers new_config) |>).

(** [request_shutdown] and [request_reload] *)
Definition request_shutdown (m : process_manager) : process_manager :=
  m <| shutdown_requested := true |>.
Definition request_reload (m : process_manager) : process_manager :=
  m <| reload_requested := true |>.

(** The handler of the master's signals *)
Definition master_signal_handler (m : process_manager) (s : signal) : process_manager :=
  match s with
  | SIGTERM | SIGINT => request_shutdown m
  | SIGHUP => request_reload m
  | _ => m
  end.

(** What happens around a turn of the loop of [run]: the signals that come before
    it looks at [shutdown_requested], those that come before it looks at
    [reload_requested], and the answer of the callback. *)
Record moment := {
  at_top : list signal;
  at_reload : list signal;
  answer : option Cfg
}.

(** The body of the loop: whether it goes on. *)
Definition turn (now : moment) (m : process_manager) : outcome (bool * process_manager) :=
  let m := fold_left master_signal_handler (at_reload now) m in
  m ← (if reload_requested m
       then reload (answer now) (m <| reload_requested := false |>)
       else Ok m);
  r ← reap (workers_ m) (world m);
  let m := m <| workers_ := r.1 |> <| world := r.2 |> in
  match workers_ m with
  | [] => Ok (false, m)
  | _ => Ok (true, m <| world ::= sleep 100 |>)
  end.

(** The loop of [run], through the given moments *)
Fixpoint run_loop (moments : list moment) (m : process_manager) : outcome process_manager :=
  match moments with
  | [] => Timeout
  | now :: moments =>
      let m := fold_left master_signal_handler (at_top now) m in
      if shutdown_requested m then Ok m else
      r ← turn now m;
      if r.1 : bool then run_loop moments r.2 else Ok r.2
  end.

(** [configure] *)
Definition configure (hardware : Z) (cfg : Cfg) (m : process_manager) : process_manager :=
  m <| config_ := resolve_config hardware cfg |>.

(** [run] *)
Definition run (hardware : Z) (moments : list moment) (m : process_manager) :
    outcome process_manager :=
  let m := configure hardware (config_ m) m in
  let m := m <| current_generation_ := 1 |> in
  m ← run_loop moments (spawn_workers (num_workers (config_ m)) 1 m);
  stop_all_workers m.

End Host.
Arguments process_manager Cfg H W : clear implicits.
Arguments moment Cfg : clear implicits.

(** ** What a worker does *)

(** [fn(id, ctx, cfg)] with its first resume, and [ctx.run()]; [shared] says
    whether the context is the master's. *)
Inductive worker_step :=
| CallWorker (id : Z) (shared : bool)
| RunContext (shared : bool).

(** ** [ForkPolicy] *)

(** What a process does at a signal. *)
Inductive disposition := SIG_DFL | SIG_IGN | Handler.

(** Signals of a child: a sequence of [sigaction]. *)
Definition child_signals (inherited : signal -> disposition) : signal -> disposition :=
  let reset := fun s =>
    match s with SIGTERM | SIGINT | SIGHUP | SIGPIPE => SIG_DFL | _ => inherited s end in
  fun s => match s with SIGTERM => Handler | _ => reset s end.

(** [install_signals] *)
Definition install_signals (inherited : signal -> disposition) : signal -> disposition := fun s =>
  match s with
  | SIGTERM | SIGINT | SIGHUP => Handler
  | SIGPIPE => SIG_IGN
  | _ => inherited s
  end.

Definition child_body (id : Z) : list worker_step := [CallWorker id false; RunContext false].

(** The system calls: [fork] as the parent sees it, with what the child will do,
    [kill], and [waitpid] with its result, [errno == ECHILD] and whether it was
    given [WNOHANG]. *)
Class Os (W : Type) := {
  fork : ((signal -> disposition) -> (signal -> disposition)) -> list worker_step -> W -> Z * W;
  kill : Z -> signal -> W -> W;
  waitpid : Z -> bool -> W -> Z * bool * W;
  children : W -> gset Z;              (** those not waited for *)
  killed : W -> gset Z                 (** those sent SIGKILL *)
}.

Section Fork.
Context {Cfg W : Type} `{HO : Os W}.

(** [handle_type]: the pid, 0 when there is none. *)
Abbreviation pid := Z (only parsing).

Definition fork_spawn (id : Z) (cfg : Cfg) (w : W) : pid * W :=
  let '(p, w) := fork child_signals (child_body id) w in
  if p <? 0 then (0, w) else (p, w).

Definition fork_signal_stop (h : pid) (w : W) : W :=
  if negb (h =? 0) then kill h SIGTERM w else w.

Definition fork_force_stop (h : pid) (w : W) : pid * W :=
  if negb (h =? 0) then
    let w := kill h SIGKILL w in
    let '(_, _, w) := waitpid h false w in
    (0, w)
  else (h, w).

Definition fork_is_alive (h : pid) (w : W) : bool * (pid * W) :=
  if h =? 0 then (false, (h, w)) else
  let '(result, echild, w) := waitpid h true w in
  if (result =? h) || ((result <? 0) && echild) then (false, (0, w)) else (true, (h, w)).

(** [for (auto& w : workers) if (w.handle.pid == pid) { w.handle.pid = 0; break; }] *)
Fixpoint forget_pid (p : pid) (ws : list (worker_entry pid)) : list (worker_entry pid) :=
  match ws with
  | [] => []
  | e :: ws => if handle e =? p then e <| handle := 0 |> :: ws else e :: forget_pid p ws
  end.

Fixpoint collect (fuel : nat) (ws : list (worker_entry pid)) (w : W) :
    outcome (list (worker_entry pid) * W) :=
  match fuel with
  | O => Timeout
  | S fuel =>
      let '(p, _, w) := waitpid (-1) true w in
      if p <=? 0 then Ok (ws, w) else collect fuel (forget_pid p ws) w
  end.

(** [reap]: a round for each child, and one that finds none. *)
Definition fork_reap (ws : list (worker_entry pid)) (w : W) :
    outcome (list (worker_entry pid) * W) :=
  r ← collect (S (size (children w))) ws w;
  Ok (List.filter (fun e => negb (handle e =? 0)) r.1, r.2).

Definition ForkPolicy : WorkerPolicy Cfg pid W := {|
  spawn := fork_spawn;
  signal_stop := fork_signal_stop;
  force_stop := fork_force_stop;
  is_alive := fork_is_alive;
  reap := fork_reap;
  destroy _ w := Ok w
|}.

End Fork.

(** ** [ThreadPolicy] *)

(** The body of the thread of the worker [id]; [share_ctx] is
    [shared_ctx.backend().supports_concurrent_poll()].  Its last step clears the
    flag [running]. *)
Definition thread_body (share_ctx : bool) (id : Z) : list worker_step :=
  if share_ctx then
    if id =? 0 then [CallWorker 0 true; RunContext true] else [RunContext true]
  else [CallWorker id false; RunContext false].

(** Threads with their flag [running], and the shared context. *)
Class Threads (W : Type) := {
  concurrent_poll : W -> bool;
  start : list worker_step -> W -> Z * W;    (** with [running] set *)
  running : Z -> W -> bool;
  clear_running : Z -> W -> W;
  stop_shared : W -> W;
  join_thread : Z -> W -> W
}.

Section Thread.
Context {Cfg W : Type} `{HW : Threads W}.

Record thread_handle := {
  flag : Z;                            (** the flag [running] *)
  joinable : bool                      (** of the thread with that flag *)
}.
#[export] Instance thread_handle_settable : Settable thread_handle := fun h =>
  Build_thread_handle (flag h) (joinable h).

Definition thread_spawn (id : Z) (cfg : Cfg) (w : W) : thread_handle * W :=
  let '(t, w) := start (thread_body (concurrent_poll w) id) w in
  ({| flag := t; joinable := true |}, w).

Definition thread_signal_stop (h : thread_handle) (w : W) : W :=
  stop_shared (clear_running (flag h) w).

Definition thread_force_stop (h : thread_handle) (w : W) : thread_handle * W :=
  if joinable h then (h <| joinable := false |>, join_thread (flag h) w) else (h, w).

Definition thread_is_alive (h : thread_handle) (w : W) : bool * (thread_handle * W) :=
  (running (flag h) w, (h, w)).

(** The first loop of [reap] *)
Fixpoint join_exited (ws : list (worker_entry thread_handle)) (w : W) :
    list (worker_entry thread_handle) * W :=
  match ws with
  | [] => ([], w)
  | e :: ws =>
      let '(h, w) := if running (flag (handle e)) w then (handle e, w)
                     else thread_force_stop (handle e) w in
      let '(ws, w) := join_exited ws w in
      (e <| handle := h |> :: ws, w)
  end.

(** [reap]; the entries it erases have no thread. *)
Definition thread_reap (ws : list (worker_entry thread_handle)) (w : W) :
    outcome (list (worker_entry thread_handle) * W) :=
  let '(ws, w) := join_exited ws w in
  Ok (List.filter (fun e => running (flag (handle e)) w || joinable (handle e)) ws, w).

(** The destructor of a [std::thread] that is joinable ends the program. *)
Definition thread_destroy (h : thread_handle) (w : W) : outcome W :=
  if joinable h then Throws Terminate else Ok w.

Definition ThreadPolicy : WorkerPolicy Cfg thread_handle W := {|
  spawn := thread_spawn;
  signal_stop := thread_signal_stop;
  force_stop := thread_force_stop;
  is_alive := thread_is_alive;
  reap := thread_reap;
  destroy := thread_destroy
|}.

End Thread.
