(* ===== verification/ProcessManagerFacts.v ===== *)
(** * The process manager: every worker is waited for

    [PolicyLaws] is what the loops of the host need of a policy to account for the
    workers.  [ForkPolicy] has these laws on any operating system that keeps its
    own, for the workers that were neither waited for nor killed, and the
    properties are about it; [ThreadPolicy] has not, and the last theorem shows
    what comes of it. *)
From S2P Require Import Prelude ProcessManager.
From stdpp Require Import gmap options.

#[local] Open Scope Z_scope.
#[local] Open Scope net_scope.
#[local] Set Default Proof Using "Type*".

(** ** The laws of a policy *)

(** The workers that the handle [o] stands for. *)
Definition one (o : option Z) : gset Z := match o with Some p => {[p]} | None => ∅ end.

Definition owners {H} (owned : H -> option Z) (ws : list (worker_entry H)) : list Z :=
  omap (fun e => owned (handle e)) ws.

(** The entries own different workers, and these are all the workers there are. *)
Definition accounts {H} (owned : H -> option Z) (ws : list (worker_entry H)) (all : gset Z) : Prop :=
  NoDup (owners owned ws) /\ all = list_to_set (owners owned ws).

Section Accounts.
Context {H : Type} {own : H -> option Z}.
Notation entry := (worker_entry H).

Lemma owners_app (ws ws' : list entry) : owners own (ws ++ ws') = owners own ws ++ owners own ws'.
Proof. apply omap_app. Qed.

Lemma owners_cons (e : entry) ws :
  owners own (e :: ws) = option_list (own (handle e)) ++ owners own ws.
Proof. unfold owners. cbn. by destruct (own (handle e)). Qed.

Lemma one_list o : (list_to_set (option_list o) : gset Z) = one o.
Proof. destruct o; [|done]. cbn. set_solver. Qed.

Lemma accounts_mid (ws1 ws2 : list entry) e all :
  accounts own (ws1 ++ e :: ws2) all <->
  one (own (handle e)) ⊆ all /\ accounts own (ws1 ++ ws2) (all ∖ one (own (handle e))).
Proof.
  unfold accounts. rewrite !owners_app, owners_cons, !list_to_set_app_L, one_list.
  destruct (own (handle e)) as [p|]; cbn; [|set_solver].
  rewrite <- Permutation_middle, NoDup_cons, elem_of_app.
  split.
  - intros [[Hp ?] ->]. repeat split; [set_solver|done|]. set_solver.
  - intros (Hp & ? & Heq). repeat split; [|done|].
    + rewrite <- elem_of_app. intros Hin. apply (elem_of_list_to_set (C := gset Z)) in Hin.
      rewrite list_to_set_app_L, <- Heq in Hin. set_solver.
    + apply set_eq. intros q. rewrite !set_eq in Heq. specialize (Heq q). destruct (decide (q = p)); set_solver.
Qed.

(** An entry whose worker is waited for. *)
Lemma accounts_waited ws1 ws2 (e : entry) h all :
  own h = None ->
  accounts own (ws1 ++ e :: ws2) all ->
  accounts own (ws1 ++ e <| handle := h |> :: ws2) (all ∖ one (own (handle e))).
Proof.
  intros Hn [_ Ha]%accounts_mid. apply accounts_mid. cbn. rewrite Hn. cbn.
  split; [set_solver|]. by replace (_ ∖ ∅) with (all ∖ one (own (handle e))) by set_solver.
Qed.

Lemma accounts_subseteq ws1 ws2 (e : entry) all :
  accounts own (ws1 ++ e :: ws2) all -> one (own (handle e)) ⊆ all.
Proof. by intros [? _]%accounts_mid. Qed.

Lemma owners_filter (f : entry -> bool) ws :
  (forall e, e ∈ ws -> f e = false -> own (handle e) = None) ->
  owners own (List.filter f ws) = owners own ws.
Proof.
  induction ws as [|e ws IH]; intros Hf; [done|]. rewrite owners_cons, <- IH by set_solver.
  cbn [List.filter]. destruct (f e) eqn:E; [by rewrite owners_cons|].
  rewrite (Hf e); [done|set_solver|done].
Qed.

Lemma owners_handles (ws ws' : list entry) :
  map handle ws' = map handle ws -> owners own ws' = owners own ws.
Proof.
  revert ws'. induction ws as [|e ws IH]; intros [|e' ws']; try done. intros [= He Hws].
  by rewrite !owners_cons, He, (IH ws').
Qed.

Lemma owners_none (ws : list entry) :
  Forall (fun e => own (handle e) = None) ws -> owners own ws = [].
Proof. induction 1 as [|e ws He _ IH]; [done|]. by rewrite owners_cons, He, IH. Qed.

End Accounts.

(** [owned h] is the worker that [h] has started and not yet waited for, and
    [workers w] are all such workers. *)
Class PolicyLaws (Cfg H W : Type) `{HP : WorkerPolicy Cfg H W} `{HT : Timed W} := {
  owned : H -> option Z;
  workers : W -> gset Z;
  spawn_law i c w : let '(h, w') := spawn i c w in
    one (owned h) ## workers w /\ workers w' = one (owned h) ∪ workers w;
  signal_law h w : workers (signal_stop h w) = workers w;
  force_law h w : let '(h', w') := force_stop h w in
    is_Some (owned h) -> one (owned h) ⊆ workers w ->
    owned h' = None /\ workers w' = workers w ∖ one (owned h) /\ time w <= time w';
  alive_law h w : let '(alive, (h', w')) := is_alive h w in
    time w <= time w' /\
    (one (owned h) ⊆ workers w ->
     if alive : bool then h' = h /\ is_Some (owned h) /\ workers w' = workers w
     else owned h' = None /\ workers w' = workers w ∖ one (owned h));
  reap_law ws w : accounts owned ws (workers w) ->
    exists ws' w', reap ws w = Ok (ws', w') /\ accounts owned ws' (workers w') /\
      forall e, e ∈ ws' -> e ∈ ws /\ is_Some (owned (handle e));
  destroy_law h w : owned h = None ->
    exists w', destroy h w = Ok w' /\ workers w' = workers w;
  clock_law w : workers (now w).2 = workers w;
  sleep_law d w : workers (sleep d w) = workers w
}.

Section Host.
Context {Cfg H W : Type} `{HC : WorkerConfig Cfg} `{HP : WorkerPolicy Cfg H W} `{HT : Timed W}
  `{HL : !PolicyLaws Cfg H W}.
Notation manager := (process_manager Cfg H W).
Notation entry := (worker_entry H).

(** ** The loops *)

Definition same_ids (ws ws' : list entry) : Prop :=
  map worker_id ws' = map worker_id ws /\ map generation ws' = map generation ws.

(** The selection of the workers to stop does not look at [stopping]. *)
Lemma signal_workers_accounts (p : entry -> bool) ws w :
  (forall e b, p (e <| stopping := b |>) = p e) ->
  let '(ws', w') := signal_workers p ws w in
  map handle ws' = map handle ws /\ workers w' = workers w /\ same_ids ws ws' /\
  Forall (fun e => p e = true -> stopping e = true) ws' /\
  List.filter (fun e => negb (p e)) ws' = List.filter (fun e => negb (p e)) ws.
Proof.
  intros Hp. revert w. induction ws as [|e ws IH]; intros w; [done|]. cbn [signal_workers].
  set (r := if _ && _ then _ else _).
  assert (handle r.1 = handle e /\ worker_id r.1 = worker_id e /\ generation r.1 = generation e /\
    (p r.1 = true -> stopping r.1 = true) /\ workers r.2 = workers w /\
    p r.1 = p e /\ (p e = false -> r.1 = e)) as (Hh & Hi & Hg & Hs & Hw & Hf & He).
  { subst r. destruct (p e) eqn:Ep, (stopping e) eqn:E; cbn; rewrite ?signal_law, ?Hp; try done.
    by rewrite Ep. }
  destruct r as [e' w']. cbn in *. specialize (IH w'). destruct (signal_workers p ws w') as [ws' w''].
  destruct IH as (IH1 & IH2 & [IH3 IH4] & IH5 & IH6). unfold same_ids. cbn.
  rewrite IH1, IH2, IH3, IH4, IH6, Hf, Hh, Hw, Hi, Hg. split; [done|]. split; [done|].
  split; [done|]. split; [by constructor|]. destruct (p e); cbn; [done|]. by rewrite He.
Qed.

(** A wait for one worker: the worker is as before, or waited for. *)
Definition settles (h : H) (w : W) (h' : H) (w' : W) : Prop :=
  time w <= time w' /\
  (h' = h /\ workers w' = workers w \/
   owned h' = None /\ workers w' = workers w ∖ one (owned h)).

Lemma wait_exit_ends n deadline h w :
  one (owned h) ⊆ workers w -> deadline - time w <= 50 * Z.of_nat n ->
  exists h' w', wait_exit (S n) deadline h w = Ok (h', w') /\ settles h w h' w'.
Proof.
  revert w. induction n as [|n IH]; intros w Hin Hfuel; cbn [wait_exit];
    pose proof (now_reads w) as [Ht Hmono]; pose proof (clock_law w) as Hw;
    destruct (now w) as [t w1]; cbn in *; subst t.
  - rewrite (proj2 (Z.ltb_ge _ _)) by lia. eexists _, _. split; [done|]. split; [lia|]. by left.
  - destruct (Z.ltb_spec (time w) deadline).
    2:{ eexists _, _. split; [done|]. split; [lia|]. by left. }
    pose proof (alive_law h w1) as Ha. destruct (is_alive h w1) as [alive [h' w2]].
    destruct Ha as [Ht' Ha]. specialize (Ha ltac:(by rewrite Hw)). destruct alive.
    + destruct Ha as (-> & _ & Hw2). pose proof (sleep_lasts 50 w2 ltac:(lia)).
      destruct (IH (sleep 50 w2)) as (h' & w3 & -> & Hm & Hs); [by rewrite sleep_law, Hw2, Hw|lia|].
      rewrite sleep_law, Hw2, Hw in Hs. eexists _, _. split; [done|]. split; [lia|done].
    + rewrite Hw in Ha. eexists _, _. split; [done|]. split; [lia|by right].
Qed.

Lemma ensure_stopped_waits h w :
  one (owned h) ⊆ workers w ->
  let '(h', w') := ensure_stopped h w in
  time w <= time w' /\ owned h' = None /\ workers w' = workers w ∖ one (owned h).
Proof.
  intros Hin. unfold ensure_stopped. pose proof (alive_law h w) as Ha.
  destruct (is_alive h w) as [alive [h' w']], Ha as [Ht Ha]. specialize (Ha Hin). destruct alive; [|by split].
  destruct Ha as (-> & Hs & Hw). pose proof (force_law h w') as Hf. destruct (force_stop h w') as [h'' w''].
  destruct Hf as (? & -> & ?); [done|by rewrite Hw|]. rewrite Hw. repeat split; [lia|done].
Qed.

Lemma rounds_enough timeout step :
  0 <= timeout -> 0 < step -> timeout <= step * Z.of_nat (S (Z.to_nat (timeout / step))).
Proof. intros. rewrite Nat2Z.inj_succ, Z2Nat.id by (apply Z.div_pos; lia). nia. Qed.

Lemma same_ids_cons e e' ws ws' :
  worker_id e' = worker_id e -> generation e' = generation e -> same_ids ws ws' ->
  same_ids (e :: ws) (e' :: ws').
Proof. intros Hi Hg [? ?]. split; cbn; congruence. Qed.

(** The accounts after a wait for the entry in the middle. *)
Lemma accounts_settles ws1 ws2 (e : entry) h w w' :
  settles (handle e) w h w' -> accounts owned (ws1 ++ e :: ws2) (workers w) ->
  accounts owned (ws1 ++ e <| handle := h |> :: ws2) (workers w').
Proof.
  intros [_ [[-> ->]|[Hn ->]]] Ha; [by destruct e|]. by apply accounts_waited.
Qed.

Lemma stopped_settles h w :
  one (owned h) ⊆ workers w ->
  let '(h', w') := ensure_stopped h w in settles h w h' w' /\ owned h' = None.
Proof.
  intros H1%ensure_stopped_waits. destruct (ensure_stopped h w) as [h' w'].
  destruct H1 as (? & ? & ?). repeat split; [done| |done]. by right.
Qed.

(** The wait for one old worker *)
Lemma wait_old_entry n deadline ws1 ws2 (e : entry) w :
  accounts owned (ws1 ++ e :: ws2) (workers w) -> deadline - time w <= 50 * Z.of_nat n ->
  exists h w', (r ← wait_exit (S n) deadline (handle e) w;
      let '(h, w) := ensure_stopped r.1 r.2 in Ok (e <| handle := h |>, w)) =
      Ok (e <| handle := h |>, w') /\
    owned h = None /\ time w <= time w' /\
    accounts owned (ws1 ++ e <| handle := h |> :: ws2) (workers w').
Proof.
  intros Ha Hfuel. destruct (wait_exit_ends n deadline (handle e) w) as (h1 & w1 & -> & Hs1); [|done|].
  { by eapply accounts_subseteq. }
  pose proof (accounts_settles _ _ _ _ _ _ Hs1 Ha) as Ha1. destruct Hs1 as [Ht1 _]. cbn.
  pose proof (stopped_settles h1 w1) as Hs. destruct (ensure_stopped h1 w1) as [h2 w2].
  destruct Hs as [Hs2 Hn]; [by apply (accounts_subseteq _ _ _ _ Ha1)|].
  pose proof (accounts_settles _ _ (e <| handle := h1 |>) _ _ _ Hs2 Ha1) as Ha2.
  eexists _, _. split; [done|]. repeat split; [done| |apply Ha2..]. destruct Hs2. lia.
Qed.

Lemma wait_old_ends n deadline keep ws0 ws w :
  accounts owned (ws0 ++ ws) (workers w) -> deadline - time w <= 50 * Z.of_nat n ->
  Forall (fun e => is_old keep e = true -> stopping e = true) ws ->
  exists ws' w', wait_old (S n) deadline keep ws w = Ok (ws', w') /\
    accounts owned (ws0 ++ ws') (workers w') /\
    Forall (fun e => is_old keep e = true -> owned (handle e) = None) ws' /\
    List.filter (fun e => negb (is_old keep e)) ws' = List.filter (fun e => negb (is_old keep e)) ws.
Proof.
  revert ws0 w. induction ws as [|e ws IH]; intros ws0 w Ha Hfuel Hs.
  { eexists [], _. repeat split; [apply Ha..|constructor]. }
  apply Forall_cons in Hs as [He Hs]. cbn [wait_old].
  change (negb (generation e =? keep)) with (is_old keep e). destruct (is_old keep e) eqn:E.
  - rewrite (He eq_refl). cbn [andb].
    destruct (wait_old_entry n deadline ws0 ws e w Ha Hfuel) as (h & w1 & -> & Hn & Ht & Ha1).
    rewrite cons_middle, app_assoc in Ha1.
    destruct (IH _ w1 Ha1 ltac:(lia) Hs) as (ws' & w2 & Heq & Ha2 & Hold & Hf).
    cbn. rewrite Heq. eexists _, _. split; [done|].
    rewrite <- app_assoc in Ha2. split; [done|]. cbn. rewrite Hf, E.
    assert (is_old keep (e <| handle := h |>) = true) as -> by done. split; [|done]. by constructor.
  - cbn. rewrite cons_middle, app_assoc in Ha.
    destruct (IH _ w Ha Hfuel Hs) as (ws' & w2 & Heq & Ha2 & Hold & Hf). rewrite Heq.
    eexists _, _. split; [done|]. rewrite <- app_assoc in Ha2. split; [done|]. cbn. rewrite Hf, E.
    split; [|done]. constructor; [congruence|done].
Qed.

Lemma destroy_all_ok ws w :
  Forall (fun e => owned (handle e) = None) ws ->
  exists w', destroy_all ws w = Ok w' /\ workers w' = workers w.
Proof.
  intros Hn. revert w. induction Hn as [|e ws He _ IH]; intros w; [by eexists|]. cbn.
  destruct (destroy_law (handle e) w He) as (w1 & -> & Hw1). cbn. destruct (IH w1) as (w2 & -> & Hw2).
  exists w2. split; [done|congruence].
Qed.

(** [stop_old_workers] keeps the entries of the generation as they are, and waits
    for the other workers. *)
Lemma stop_old_workers_spec keep (m : manager) :
  0 <= graceful_timeout (config_ m) -> accounts owned (workers_ m) (workers (world m)) ->
  exists w, stop_old_workers keep m =
      Ok (m <| workers_ := List.filter (fun e => negb (is_old keep e)) (workers_ m) |> <| world := w |>) /\
    accounts owned (List.filter (fun e => negb (is_old keep e)) (workers_ m)) (workers w).
Proof.
  intros Ht Ha. unfold stop_old_workers.
  pose proof (signal_workers_accounts (is_old keep) (workers_ m) (world m) ltac:(done)) as Hsig.
  destruct (signal_workers _ _ _) as [ws w]. destruct Hsig as (Hh & Hw & _ & Hst & Hf).
  pose proof (now_reads w) as [Hn Hmono]. pose proof (clock_law w) as Hw'. destruct (now w) as [t w']. cbn in *.
  unfold rounds. set (timeout := 1000 * _). pose proof (rounds_enough timeout 50 ltac:(lia) ltac:(lia)).
  destruct (wait_old_ends (S (Z.to_nat (timeout / 50))) (t + timeout) keep [] ws w')
    as (ws' & w2 & -> & Ha2 & Hold & Hf2); [|lia|done|].
  { unfold accounts. cbn [app]. rewrite (owners_handles _ _ Hh), Hw', Hw. done. }
  cbn. destruct (destroy_all_ok (List.filter (is_old keep) ws') w2) as (w3 & -> & Hw3).
  { rewrite List.Forall_forall in *. intros e [Hin He]%List.filter_In. auto. }
  cbn. rewrite Hf2, Hf. eexists. split; [done|].
  unfold accounts in *. rewrite <- Hf, <- Hf2, owners_filter, Hw3; [done|].
  intros e Hin He. rewrite List.Forall_forall in Hold. apply Hold; [by apply list_elem_of_In|].
  by destruct (is_old keep e).
Qed.
(** ** Stopping every worker *)

Lemma all_exited_accounts ws0 ws w :
  accounts owned (ws0 ++ ws) (workers w) ->
  let '(b, (ws', w')) := all_exited ws w in
  accounts owned (ws0 ++ ws') (workers w') /\ time w <= time w'.
Proof.
  revert ws0 w. induction ws as [|e ws IH]; intros ws0 w Ha; [by split; [|lia]|]. cbn [all_exited].
  pose proof (alive_law (handle e) w) as Hl. destruct (is_alive (handle e) w) as [alive [h w1]].
  destruct Hl as [Ht Hl]. specialize (Hl (accounts_subseteq _ _ _ _ Ha)).
  assert (accounts owned (ws0 ++ e <| handle := h |> :: ws) (workers w1)) as Ha1.
  { eapply accounts_settles; [|done]. split; [done|]. destruct alive; [left|by right]. naive_solver. }
  destruct alive; [done|]. rewrite cons_middle, app_assoc in Ha1. specialize (IH _ w1 Ha1).
  destruct (all_exited ws w1) as [b [ws' w2]]. destruct IH as [IH1 IH2]. rewrite <- app_assoc in IH1.
  split; [done|lia].
Qed.

Lemma wait_all_ends n deadline ws w :
  accounts owned ws (workers w) -> deadline - time w <= 100 * Z.of_nat n ->
  exists ws' w', wait_all (S n) deadline ws w = Ok (ws', w') /\ accounts owned ws' (workers w').
Proof.
  revert ws w. induction n as [|n IH]; intros ws w Ha Hfuel; cbn [wait_all];
    pose proof (now_reads w) as [Ht Hmono]; pose proof (clock_law w) as Hw;
    destruct (now w) as [t w1]; cbn in *; subst t; rewrite <- Hw in Ha.
  - rewrite (proj2 (Z.ltb_ge _ _)) by lia. by eexists _, _.
  - destruct (Z.ltb_spec (time w) deadline); [|by eexists _, _].
    pose proof (all_exited_accounts [] ws w1 Ha) as He. destruct (all_exited ws w1) as [b [ws' w2]].
    destruct He as [Ha2 Ht2]. destruct b; [by eexists _, _|].
    pose proof (sleep_lasts 100 w2 ltac:(lia)). apply IH; [by rewrite sleep_law|lia].
Qed.

Lemma force_all_accounts ws0 ws w :
  accounts owned (ws0 ++ ws) (workers w) ->
  let '(ws', w') := force_all ws w in
  accounts owned (ws0 ++ ws') (workers w') /\ Forall (fun e => owned (handle e) = None) ws'.
Proof.
  revert ws0 w. induction ws as [|e ws IH]; intros ws0 w Ha; [by split|]. cbn [force_all].
  pose proof (stopped_settles (handle e) w (accounts_subseteq _ _ _ _ Ha)) as Hs.
  destruct (ensure_stopped (handle e) w) as [h w1], Hs as [Hs Hn].
  pose proof (accounts_settles _ _ _ _ _ _ Hs Ha) as Ha1. rewrite cons_middle, app_assoc in Ha1.
  specialize (IH _ w1 Ha1). destruct (force_all ws w1) as [ws' w2]. destruct IH as [IH1 IH2].
  rewrite <- app_assoc in IH1. split; [done|by constructor].
Qed.

Lemma stop_all_workers_spec (m : manager) :
  0 <= graceful_timeout (config_ m) -> accounts owned (workers_ m) (workers (world m)) ->
  exists w, stop_all_workers m = Ok (m <| workers_ := [] |> <| world := w |>) /\ workers w = ∅.
Proof.
  intros Ht Ha. unfold stop_all_workers.
  pose proof (signal_workers_accounts (fun _ => true) (workers_ m) (world m) ltac:(done)) as Hsig.
  destruct (signal_workers _ _ _) as [ws w]. destruct Hsig as (Hh & Hw & _).
  pose proof (now_reads w) as [Hn Hmono]. pose proof (clock_law w) as Hw'. destruct (now w) as [t w'].
  cbn -[wait_all rounds] in *. unfold rounds. set (timeout := 1000 * _). pose proof (rounds_enough timeout 100 ltac:(lia) ltac:(lia)).
  destruct (wait_all_ends (S (Z.to_nat (timeout / 100))) (t + timeout) ws w') as (ws1 & w1 & -> & Ha1); [|lia|].
  { unfold accounts. by rewrite (owners_handles _ _ Hh), Hw', Hw. }
  cbn -[force_all]. pose proof (force_all_accounts [] ws1 w1 Ha1) as Hf. destruct (force_all ws1 w1) as [ws2 w2].
  destruct Hf as [[_ Ha2] Hn2]. destruct (destroy_all_ok ws2 w2 Hn2) as (w3 & -> & Hw3).
  eexists. split; [done|]. cbn [app] in Ha2. by rewrite Hw3, Ha2, owners_none.
Qed.

(** ** Starting workers *)

(** The entries of a new generation *)
Definition new_workers (i n g : Z) (ws : list entry) : Prop :=
  map worker_id ws = seqZ i n /\ Forall (fun e => generation e = g /\ stopping e = false) ws.

Lemma spawn_from_spec i n g (m : manager) :
  accounts owned (workers_ m) (workers (world m)) ->
  exists new w, spawn_from i n g m = m <| workers_ := workers_ m ++ new |> <| world := w |> /\
    new_workers i (Z.of_nat n) g new /\ accounts owned (workers_ m ++ new) (workers w).
Proof.
  revert i m. induction n as [|n IH]; intros i m Ha.
  { exists [], (world m). rewrite app_nil_r. split; [by destruct m|]. split; [|done]. by split. }
  cbn [spawn_from]. pose proof (spawn_law i (config_ m) (world m)) as Hs.
  destruct (spawn i (config_ m) (world m)) as [h w]. destruct Hs as [Hd Hw]. set (e := Build_worker_entry _ _ _ _).
  assert (accounts owned (workers_ m ++ [e]) (workers w)) as Ha1.
  { apply accounts_mid. subst e. cbn. rewrite Hw, app_nil_r. split; [set_solver|].
    by replace (_ ∖ _) with (workers (world m)) by set_solver. }
  destruct (IH (i + 1) (m <| workers_ ::= fun ws => ws ++ [e] |> <| world := w |>))
    as (new & w' & -> & [Hid Hg] & Ha2); [exact Ha1|].
  exists (e :: new), w'. cbn in *. rewrite <- app_assoc in Ha2. split; [by rewrite <- app_assoc|].
  split; [split|done].
  - cbn. rewrite Hid, (seqZ_cons i) by lia. unfold Z.succ. do 2 f_equal; lia.
  - by constructor.
Qed.

Lemma spawn_workers_spec n g (m : manager) :
  0 <= n -> accounts owned (workers_ m) (workers (world m)) ->
  exists new w, spawn_workers n g m = m <| workers_ := workers_ m ++ new |> <| world := w |> /\
    new_workers 0 n g new /\ accounts owned (workers_ m ++ new) (workers w).
Proof.
  intros Hn Ha. destruct (spawn_from_spec 0 (Z.to_nat n) g m Ha) as (new & w & Heq & Hnew & Ha').
  rewrite Z2Nat.id in Hnew by done. by exists new, w.
Qed.

Lemma filter_new n g (ws new : list entry) :
  Forall (fun e => generation e <> g) ws -> new_workers 0 n g new ->
  List.filter (fun e => negb (is_old g e)) (ws ++ new) = new.
Proof.
  intros Hws [_ Hnew]. unfold is_old. rewrite List.filter_app.
  assert (List.filter (fun e => negb (negb (generation e =? g))) ws = []) as ->.
  { induction Hws as [|e ws He _ IH]; [done|]. cbn. by rewrite (proj2 (Z.eqb_neq _ _) He). }
  cbn. induction Hnew as [|e new [He _] _ IH]; [done|]. cbn. by rewrite (proj2 (Z.eqb_eq _ _) He), IH.
Qed.

(** ** The master *)

(** Between the turns: the accounts, and one generation. *)
Record steady (m : manager) : Prop := {
  s_accounts : accounts owned (workers_ m) (workers (world m));
  s_timeout : 0 <= graceful_timeout (config_ m);
  s_number : 0 <= num_workers (config_ m);
  s_generation : 0 <= current_generation_ m < 2 ^ 32;
  s_one : Forall (fun e => generation e = current_generation_ m) (workers_ m)
}.

Lemma steady_signals l (m : manager) : steady m -> steady (fold_left master_signal_handler l m).
Proof.
  revert m. induction l as [|s l IH]; intros m Hm; [done|]. apply IH. by destruct s, Hm.
Qed.

(** The number of workers of the next generation *)
Lemma new_config_number answer (m : manager) :
  num_workers (new_config answer m) =
  match answer with
  | Some c => if num_workers c =? 0 then num_workers (config_ m) else num_workers c
  | None => num_workers (config_ m)
  end.
Proof. destruct answer as [c|]; [|done]. cbn. case_match; [apply num_workers_set|done]. Qed.

Lemma reload_spec answer (m : manager) :
  steady m -> 0 <= num_workers (new_config answer m) ->
  let n := num_workers (new_config answer m) in
  let g := u32 (current_generation_ m + 1) in
  exists new w, reload answer m =
      Ok (m <| current_generation_ := g |> <| workers_ := new |> <| world := w |>
            <| config_ ::= set_num_workers n |>) /\
    new_workers 0 n g new /\ accounts owned new (workers w).
Proof.
  intros [Ha Ht Hn Hg H1] Hn' n g. unfold reload. fold n g.
  set (m1 := m <| current_generation_ := g |>).
  destruct (spawn_workers_spec n g m1) as (new & w & -> & Hnew & Ha'); [done..|].
  destruct (stop_old_workers_spec g (m1 <| workers_ := workers_ m1 ++ new |> <| world := w |>))
    as (w' & -> & Ha2); [done..|].
  cbn in *. assert (Forall (fun e => generation e <> g) (workers_ m)) as Hold.
  { eapply Forall_impl; [done|]. cbn. intros e ->. unfold g, u32. lia. }
  rewrite (filter_new n g) in * by done. by exists new, w'.
Qed.

Lemma steady_reload answer (m : manager) :
  steady m -> 0 <= num_workers (new_config answer m) ->
  exists m', reload answer m = Ok m' /\ steady m'.
Proof.
  intros Hm Hn. destruct (reload_spec answer m Hm Hn) as (new & w & -> & [_ Hg] & Ha).
  eexists. split; [done|]. destruct Hm. constructor; cbn; try done.
  - by rewrite graceful_timeout_set.
  - by rewrite num_workers_set.
  - unfold u32. lia.
  - eapply Forall_impl; [apply Hg|]. by intros e [? _].
Qed.

(** The callback does not give a negative number of workers. *)
Definition sane (now : moment Cfg) : Prop :=
  forall c, answer now = Some c -> 0 <= num_workers c.

Lemma sane_number now (m : manager) :
  sane now -> steady m -> 0 <= num_workers (new_config (answer now) m).
Proof.
  intros Hs Hm. rewrite new_config_number. destruct (answer now) as [c|] eqn:E; [|apply Hm].
  case_match; [apply Hm|by apply Hs].
Qed.

Lemma turn_steady now (m : manager) :
  sane now -> steady m -> exists b m', turn now m = Ok (b, m') /\ steady m'.
Proof.
  intros Hs Hm. unfold turn. apply (steady_signals (at_reload now)) in Hm.
  set (m1 := fold_left _ _ m) in *. clearbody m1.
  assert (exists m2, (if reload_requested m1 then reload (answer now) (m1 <| reload_requested := false |>)
    else Ok m1) = Ok m2 /\ steady m2) as (m2 & -> & Hm2).
  { destruct (reload_requested m1); [|by exists m1]. apply steady_reload.
    - by destruct Hm.
    - apply sane_number; [done|]. by destruct Hm. }
  cbn. destruct Hm2 as [Ha Ht Hn Hg H1].
  destruct (reap_law _ _ Ha) as (ws & w & -> & Ha' & Hin). cbn.
  assert (Forall (fun e => generation e = current_generation_ m2) ws) as H2.
  { apply Forall_forall. intros e He. eapply Forall_forall in H1; [done|]. by apply Hin. }
  destruct ws as [|e ws]; eexists _, _; (split; [done|]); constructor; cbn; rewrite ?sleep_law; done.
Qed.

(** A signal that ends [run] *)
Definition shuts_down (now : moment Cfg) : Prop :=
  SIGTERM ∈ at_top now \/ SIGINT ∈ at_top now.

Lemma handler_keeps_shutdown l (m : manager) :
  shutdown_requested m = true -> shutdown_requested (fold_left master_signal_handler l m) = true.
Proof. revert m. induction l as [|s l IH]; intros m Hm; [done|]. apply IH. by destruct s. Qed.

Lemma shuts_down_seen now (m : manager) :
  shuts_down now -> shutdown_requested (fold_left master_signal_handler (at_top now) m) = true.
Proof.
  unfold shuts_down. generalize (at_top now) as l. intros l. revert m.
  induction l as [|s l IH]; intros m; [intros [?|?]; set_solver|].
  rewrite !elem_of_cons. cbn. intros H0.
  destruct (decide (s = SIGTERM \/ s = SIGINT)) as [Hs|Hs].
  - apply handler_keeps_shutdown. by destruct Hs as [->| ->].
  - apply IH. naive_solver.
Qed.

Lemma run_loop_ends before now after (m : manager) :
  Forall sane before -> shuts_down now -> steady m ->
  exists m', run_loop (before ++ now :: after) m = Ok m' /\ steady m'.
Proof.
  intros Hsane Hnow. revert m. induction Hsane as [|now' before Hn _ IH]; intros m Hm; cbn [app run_loop].
  - apply (steady_signals (at_top now)) in Hm as Hm'. rewrite shuts_down_seen by done. by eexists.
  - apply (steady_signals (at_top now')) in Hm. destruct (shutdown_requested _); [by eexists|].
    destruct (turn_steady now' _ Hn Hm) as (b & m' & -> & Hm'). cbn. destruct b; [by apply IH|by eexists].
Qed.

Lemma configure_number hardware cfg (m : manager) :
  0 <= hardware -> 0 <= num_workers cfg ->
  1 <= num_workers (config_ (configure hardware cfg m)) /\
  graceful_timeout (config_ (configure hardware cfg m)) = graceful_timeout cfg.
Proof.
  intros Hh Hc. cbn. unfold resolve_config. destruct (Z.eqb_spec (num_workers cfg) 0); [|split; [lia|done]].
  rewrite num_workers_set, graceful_timeout_set. split; [|done]. destruct (Z.eqb_spec hardware 0); lia.
Qed.

Lemma run_stops_all hardware before now after (m : manager) :
  workers_ m = [] -> workers (world m) = ∅ ->
  0 <= hardware -> 0 <= num_workers (config_ m) -> 0 <= graceful_timeout (config_ m) ->
  Forall sane before -> shuts_down now ->
  exists m', run hardware (before ++ now :: after) m = Ok m' /\
    workers_ m' = [] /\ workers (world m') = ∅.
Proof.
  intros Hws Hw Hh Hn Ht Hsane Hnow. unfold run.
  destruct (configure_number hardware (config_ m) m Hh Hn) as [Hn' Ht'].
  set (m1 := (configure hardware (config_ m) m) <| current_generation_ := 1 |>).
  destruct (spawn_workers_spec (num_workers (config_ m1)) 1 m1) as (new & w & -> & [_ Hg] & Ha).
  { change (config_ m1) with (config_ (configure hardware (config_ m) m)). lia. }
  { cbn. rewrite Hws, Hw. by split; [constructor|]. }
  destruct (run_loop_ends before now after
    (m1 <| workers_ := workers_ m1 ++ new |> <| world := w |>) Hsane Hnow) as (m2 & -> & [Ha2 Ht2 _ _ _]).
  { constructor; [exact Ha|cbn -[configure]; lia..|]. cbn. rewrite Hws.
    eapply Forall_impl; [apply Hg|]. by intros e [? _]. }
  cbn. destruct (stop_all_workers_spec m2 Ht2 Ha2) as (w3 & -> & Hw3). eexists. split; [done|]. by split.
Qed.

Lemma reload_generation answer (m : manager) :
  steady m -> 0 <= num_workers (new_config answer m) ->
  exists m', reload answer m = Ok m' /\
    let n := num_workers (new_config answer m) in
    new_workers 0 n (current_generation_ m') (workers_ m') /\
    accounts owned (workers_ m') (workers (world m')) /\
    current_generation_ m' <> current_generation_ m /\
    config_ m' = set_num_workers n (config_ m).
Proof.
  intros Hm Hn. destruct (reload_spec answer m Hm Hn) as (new & w & -> & Hnew & Ha).
  eexists. split; [done|]. cbn. repeat split; [apply Hnew..|apply Ha|apply Ha|].
  destruct Hm. unfold u32. lia.
Qed.

(** A turn without a reload starts no worker: those that crash are not replaced. *)
Lemma crashed_not_replaced now (m : manager) :
  steady m -> reload_requested m = false -> SIGHUP ∉ at_reload now ->
  exists b m', turn now m = Ok (b, m') /\ workers_ m' ⊆ workers_ m.
Proof.
  intros Hm Hr Hs. unfold turn.
  assert (forall l, SIGHUP ∉ l -> forall m : manager, reload_requested m = false ->
    reload_requested (fold_left master_signal_handler l m) = false /\
    workers_ (fold_left master_signal_handler l m) = workers_ m) as Hfold.
  { induction l as [|s l IH]; intros Hl m0 Hm0; [done|]. rewrite not_elem_of_cons in Hl. destruct Hl as [? Hl].
    cbn [fold_left]. destruct (IH Hl (master_signal_handler m0 s)) as [-> ->]; by destruct s. }
  destruct (Hfold _ Hs m Hr) as [E Hws]. apply (steady_signals (at_reload now)) in Hm.
  rewrite E. cbn. destruct Hm as [Ha _ _ _ _]. destruct (reap_law _ _ Ha) as (ws & w & -> & _ & Hin). cbn.
  assert (ws ⊆ workers_ m) as Hsub by (rewrite <- Hws; intros e He; by apply Hin).
  by destruct ws; eexists _, _.
Qed.

End Host.

(** ** Processes *)

(** What POSIX says of the calls, on processes whose children are the workers.  A
    wait may be interrupted by a signal (then its result is no child). *)
Class OsLaws (W : Type) `{HO : Os W} `{HT : Timed W} := {
  children_positive p w : p ∈ children w -> 0 < p;
  fork_law d b w : let '(p, w') := fork d b w in
    p < 0 /\ children w' = children w /\ killed w' = killed w \/
    0 < p /\ p ∉ children w /\ children w' = {[p]} ∪ children w /\ killed w' = killed w ∖ {[p]};
  kill_law p s w : children (kill p s w) = children w /\ time w <= time (kill p s w) /\
    (s <> SIGKILL -> killed (kill p s w) = killed w) /\
    (s = SIGKILL -> 0 < p -> killed (kill p s w) = {[p]} ∪ killed w);
  wait_time p nohang w : time w <= time (waitpid p nohang w).2;
  wait_killed p nohang w : killed (waitpid p nohang w).2 = killed w;
  wait_one p nohang w : 0 < p -> let '(result, echild, w') := waitpid p nohang w in
    result = p /\ p ∈ children w /\ children w' = children w ∖ {[p]} \/
    result <> p /\ children w' = children w /\ ((result <? 0) && echild = true <-> p ∉ children w);
  wait_any w : let '(result, _, w') := waitpid (-1) true w in
    result ∈ children w /\ children w' = children w ∖ {[result]} \/
    result <= 0 /\ children w' = children w;
  os_now w : children (now w).2 = children w /\ killed (now w).2 = killed w;
  os_sleep d w : children (sleep d w) = children w /\ killed (sleep d w) = killed w
}.

(** The child that a handle stands for *)
Definition fork_owned (h : Z) : option Z := if h =? 0 then None else Some h.

Lemma forget_pid_split p ws :
  p ∈ owners fork_owned ws ->
  exists ws1 e ws2, ws = ws1 ++ e :: ws2 /\ fork_owned (handle e) = Some p /\
    forget_pid p ws = ws1 ++ e <| handle := 0 |> :: ws2.
Proof.
  induction ws as [|e ws IH]; [set_solver|]. rewrite owners_cons, elem_of_app. cbn [forget_pid].
  intros Hin. destruct (Z.eqb_spec (handle e) p) as [<-|Hne].
  - exists [], e, ws. split; [done|]. split; [|done]. destruct Hin as [Hin|Hin].
    + destruct (fork_owned _) as [q|]; set_solver.
    + unfold owners in Hin. apply list_elem_of_omap in Hin as (e' & _ & Ho). unfold fork_owned in *.
      destruct (Z.eqb_spec (handle e') 0); [done|]. injection Ho as Ho.
      by rewrite (proj2 (Z.eqb_neq _ _)) by congruence.
  - destruct Hin as [Hin|Hin].
    + unfold fork_owned in Hin. destruct (_ =? 0); set_solver.
    + destruct (IH Hin) as (ws1 & e' & ws2 & -> & Ho & ->). by exists (e :: ws1), e', ws2.
Qed.

Lemma forget_absent p ws : p <> 0 -> p ∉ owners fork_owned ws -> forget_pid p ws = ws.
Proof.
  intros Hp. induction ws as [|e ws IH]; [done|]. rewrite owners_cons, not_elem_of_app. cbn [forget_pid].
  intros [He Hws]. destruct (Z.eqb_spec (handle e) p) as [<-|]; [|by rewrite IH].
  destruct He. unfold fork_owned. rewrite (proj2 (Z.eqb_neq _ _)) by done. by left.
Qed.

Section Fork.
Context {Cfg W : Type} `{HO : Os W} `{HT : Timed W} `{HL : !OsLaws W}.

(** The workers to account for are the children that are not [gone]; the calls
    change [gone] as they change [killed], if they change it, and [force_stop]
    makes its worker gone or takes it off the children. *)
Section Left.
Context (gone : W -> gset Z).
Definition left_over (w : W) : gset Z := children w ∖ gone w.
Context (gone_fork : forall d b w, let '(p, w') := fork d b w in
  p < 0 /\ gone w' = gone w \/ gone w' = gone w ∖ {[p]}).
Context (gone_term : forall p w, gone (kill p SIGTERM w) = gone w).
Context (gone_wait : forall p nohang w, gone (waitpid p nohang w).2 = gone w).
Context (gone_now : forall w, gone (now w).2 = gone w) (gone_sleep : forall d w, gone (sleep d w) = gone w).
Context (gone_force : forall p w, p <> 0 -> p ∈ left_over w ->
  left_over (fork_force_stop p w).2 = left_over w ∖ {[p]}).

Lemma fork_spawn_law i (c : Cfg) w :
  let '(h, w') := fork_spawn i c w in
  one (fork_owned h) ## left_over w /\ left_over w' = one (fork_owned h) ∪ left_over w.
Proof using All.
  unfold fork_spawn, fork_owned, left_over. pose proof (fork_law child_signals (child_body i) w) as Hf.
  pose proof (gone_fork child_signals (child_body i) w) as Hg.
  destruct (fork _ _ w) as [p w']. destruct Hf as [(Hp & Hc & _)|(Hp & Hin & Hc & _)].
  - rewrite (proj2 (Z.ltb_lt p 0)) by done. cbn. split; [set_solver|].
    assert (p ∉ children w) as Hn by (intros H%children_positive; lia).
    rewrite Hc. destruct Hg as [[_ ->]| ->]; set_solver.
  - rewrite (proj2 (Z.ltb_ge p 0)), (proj2 (Z.eqb_neq p 0)) by lia. cbn. split; [set_solver|].
    rewrite Hc. destruct Hg as [[? _]| ->]; [lia|]. apply set_eq. intros q. destruct (decide (q = p)); set_solver.
Qed.

(** The handle of a child *)
Lemma fork_owned_child h w :
  one (fork_owned h) ⊆ left_over w ->
  h = 0 \/ h <> 0 /\ 0 < h /\ h ∈ left_over w /\ fork_owned h = Some h.
Proof using All.
  unfold fork_owned. destruct (Z.eqb_spec h 0) as [|Hh]; [by left|]. right. cbn in *.
  assert (h ∈ left_over w) as Hin by set_solver.
  pose proof (children_positive h w ltac:(unfold left_over in Hin; set_solver)). auto.
Qed.

Lemma left_wait p nohang w : 0 < p -> let '(result, echild, w') := waitpid p nohang w in
  result = p /\ left_over w' = left_over w ∖ {[p]} \/
  result <> p /\ left_over w' = left_over w /\ (p ∈ left_over w -> (result <? 0) && echild = false).
Proof using All.
  intros Hp. pose proof (wait_one p nohang w Hp) as Hw. pose proof (gone_wait p nohang w) as Hg.
  destruct (waitpid p nohang w) as [[r e] w']. cbn in Hg. unfold left_over.
  destruct Hw as [(Hr & _ & ->)|(Hr & -> & Hiff)]; rewrite Hg; [left; split; [done|set_solver]|right].
  split; [done|]. split; [done|]. intros Hin. destruct ((r <? 0) && e); [|done]. set_solver.
Qed.

Lemma fork_alive_law h w : let '(alive, (h', w')) := fork_is_alive h w in
  time w <= time w' /\
  (one (fork_owned h) ⊆ left_over w ->
   if alive : bool then h' = h /\ is_Some (fork_owned h) /\ left_over w' = left_over w
   else fork_owned h' = None /\ left_over w' = left_over w ∖ one (fork_owned h)).
Proof using All.
  unfold fork_is_alive. destruct (Z.eqb_spec h 0) as [->|Hh].
  { split; [lia|]. intros _. split; [done|]. cbn. set_solver. }
  pose proof (wait_time h true w) as Ht. pose proof (left_wait h true w) as Hw.
  destruct (waitpid h true w) as [[r e] w']. cbn in Ht.
  assert (forall P : Prop, (one (fork_owned h) ⊆ left_over w -> 0 < h -> h ∈ left_over w ->
    fork_owned h = Some h -> P) -> one (fork_owned h) ⊆ left_over w -> P) as Hcase.
  { intros P HP Hin. destruct (fork_owned_child h w Hin) as [|(? & ? & ? & ?)]; [done|auto]. }
  destruct ((r =? h) || ((r <? 0) && e)) eqn:E; (split; [done|]); apply Hcase; intros _ Hp Hin ->.
  - destruct (Hw Hp) as [(_ & ->)|(Hne & _ & Hiff)]; [done|].
    exfalso. rewrite (proj2 (Z.eqb_neq r h)), (Hiff Hin) in E by done. done.
  - destruct (Hw Hp) as [(-> & _)|(_ & -> & _)]; [by rewrite Z.eqb_refl in E|done].
Qed.

(** A child that is gone is in no entry. *)
Lemma collect_ends n ws w :
  (size (children w) < n)%nat -> accounts fork_owned ws (left_over w) ->
  exists ws' w', collect n ws w = Ok (ws', w') /\ accounts fork_owned ws' (left_over w') /\
    forall e, e ∈ ws' -> handle e <> 0 -> e ∈ ws.
Proof using All.
  revert ws w. induction n as [|n IH]; intros ws w Hn Ha; [lia|]. cbn [collect].
  pose proof (wait_any w) as Hw. pose proof (gone_wait (-1) true w) as Hg.
  destruct (waitpid (-1) true w) as [[r e] w']. cbn in Hg. destruct Hw as [[Hin Hc]|[Hr Hc]].
  2:{ rewrite (proj2 (Z.leb_le r 0)) by done. exists ws, w'. split; [done|]. split; [|done].
      unfold left_over in *. by rewrite Hg, Hc. }
  pose proof (children_positive r w Hin). rewrite (proj2 (Z.leb_gt r 0)) by done.
  assert (left_over w' = left_over w ∖ {[r]}) as Hl by (unfold left_over; rewrite Hg, Hc; set_solver).
  assert (size (children w') < n)%nat as Hn'.
  { assert (size ({[r]} : gset Z) <= size (children w))%nat by (apply subseteq_size; set_solver).
    rewrite Hc, size_difference by set_solver. rewrite size_singleton in *. lia. }
  destruct (decide (r ∈ left_over w)) as [Hlr|Hlr].
  - destruct (forget_pid_split r ws) as (ws1 & e1 & ws2 & -> & Ho & ->).
    { destruct Ha as [_ Ha]. rewrite Ha in Hlr. by apply elem_of_list_to_set in Hlr. }
    apply (accounts_waited _ _ _ 0) in Ha; [|done]. rewrite Ho in Ha. change (one (Some r)) with ({[r]} : gset Z) in Ha.
    rewrite <- Hl in Ha. destruct (IH _ w' Hn' Ha) as (ws' & w'' & -> & Ha' & Hsub).
    exists ws', w''. split; [done|]. split; [done|]. intros e' He' Hne. specialize (Hsub e' He' Hne).
    rewrite elem_of_app, elem_of_cons in *. destruct Hsub as [|[->|]]; [by left|done|by right; right].
  - rewrite forget_absent; [|lia|].
    2:{ destruct Ha as [_ Ha]. rewrite Ha in Hlr. by rewrite elem_of_list_to_set in Hlr. }
    apply IH; [done|]. replace (left_over w') with (left_over w) by set_solver. done.
Qed.

Lemma fork_reap_law ws w :
  accounts fork_owned ws (left_over w) ->
  exists ws' w', fork_reap ws w = Ok (ws', w') /\ accounts fork_owned ws' (left_over w') /\
    forall e, e ∈ ws' -> e ∈ ws /\ is_Some (fork_owned (handle e)).
Proof using All.
  intros Ha. unfold fork_reap. destruct (collect_ends (S (size (children w))) ws w) as (ws' & w' & -> & Ha' & Hsub);
    [lia|done|].
  eexists _, _. split; [done|]. split.
  - unfold accounts in *. rewrite owners_filter; [done|]. intros e _ He. unfold fork_owned.
    by destruct (handle e =? 0).
  - intros e He. apply list_elem_of_In, List.filter_In in He as [He Hne]. apply list_elem_of_In in He.
    cbn in Hne. unfold fork_owned. destruct (Z.eqb_spec (handle e) 0); [done|]. split; [by apply Hsub|by eexists].
Qed.

Lemma fork_force_law h w : let '(h', w') := fork_force_stop h w in
  is_Some (fork_owned h) -> one (fork_owned h) ⊆ left_over w ->
  fork_owned h' = None /\ left_over w' = left_over w ∖ one (fork_owned h) /\ time w <= time w'.
Proof using All.
  pose proof (gone_force h w) as Hg. unfold fork_force_stop in *. destruct (Z.eqb_spec h 0) as [->|Hh]; cbn.
  { by intros [? [=]]. }
  destruct (kill_law h SIGKILL w) as (_ & Hkt & _ & _). set (w1 := kill h SIGKILL w) in *. clearbody w1.
  pose proof (wait_time h false w1) as Ht. cbn in Hg. destruct (waitpid h false w1) as [[r e] w2]. cbn in *.
  intros _ Hin. apply fork_owned_child in Hin as [|(_ & _ & Hin & ->)]; [done|].
  split; [done|]. split; [by apply Hg|lia].
Qed.

(** [ForkPolicy] keeps its promises to the host. *)
Definition fork_policy_laws : PolicyLaws Cfg Z W (HP := ForkPolicy) (HT := HT).
Proof using All.
  refine {| owned := fork_owned; workers := left_over |}; cbn.
  - exact fork_spawn_law.
  - intros h w. unfold fork_signal_stop, left_over. case_match; [|done].
    destruct (kill_law h SIGTERM w) as [-> _]. by rewrite gone_term.
  - exact fork_force_law.
  - exact fork_alive_law.
  - exact fork_reap_law.
  - intros h w _. by eexists.
  - intros w. unfold left_over. destruct (os_now w) as [-> _]. by rewrite gone_now.
  - intros d w. unfold left_over. destruct (os_sleep d w) as [-> _]. by rewrite gone_sleep.
Defined.
End Left.

(** The workers neither waited for nor killed, whether or not waits are
    interrupted *)
Lemma killed_force p w : p <> 0 -> p ∈ left_over killed w ->
  left_over killed (fork_force_stop p w).2 = left_over killed w ∖ {[p]}.
Proof using HL.
  intros Hp Hin. unfold fork_force_stop, left_over in *. rewrite (proj2 (Z.eqb_neq p 0)) by done. cbn.
  assert (0 < p) as H0 by (apply (children_positive p w); set_solver).
  destruct (kill_law p SIGKILL w) as (Hk & _ & _ & Hk'). specialize (Hk' eq_refl H0). set (w1 := kill p SIGKILL w) in *. clearbody w1.
  pose proof (wait_one p false w1 H0) as Hw. pose proof (wait_killed p false w1) as Hg.
  destruct (waitpid p false w1) as [[r e] w2]. cbn in *. rewrite Hg, Hk'.
  destruct Hw as [(_ & _ & ->)|(_ & -> & _)]; rewrite Hk; set_solver.
Qed.

Definition fork_laws : PolicyLaws Cfg Z W (HP := ForkPolicy) (HT := HT).
Proof using HL.
  apply (fork_policy_laws killed).
  - intros d b w. pose proof (fork_law d b w) as Hf. destruct (fork d b w) as [p w'].
    destruct Hf as [(? & _ & ?)|(_ & _ & _ & ?)]; [by left|by right].
  - intros p w. destruct (kill_law p SIGTERM w) as (_ & _ & Hk & _). by apply Hk.
  - apply wait_killed.
  - apply os_now.
  - apply os_sleep.
  - apply killed_force.
Defined.

(** No signal interrupts a wait for a process that was killed. *)
Definition uninterrupted : Prop := forall p (w : W), p ∈ children w -> (waitpid p false w).1.1 = p.

Lemma waited_force p (w : W) : uninterrupted -> p <> 0 -> p ∈ left_over (fun _ => ∅) w ->
  left_over (fun _ => ∅) (fork_force_stop p w).2 = left_over (fun _ => ∅) w ∖ {[p]}.
Proof using HL.
  intros Hu Hp Hin. unfold fork_force_stop, left_over in *. rewrite (proj2 (Z.eqb_neq p 0)) by done. cbn.
  assert (p ∈ children w) as Hc by set_solver. pose proof (children_positive p w Hc) as H0.
  destruct (kill_law p SIGKILL w) as (Hk & _). set (w1 := kill p SIGKILL w) in *. clearbody w1.
  rewrite <- Hk in Hc. specialize (Hu p w1 Hc). pose proof (wait_one p false w1 H0) as Hw.
  destruct (waitpid p false w1) as [[r e] w2]. cbn in *. destruct Hw as [(_ & _ & ->)|[? _]]; [|done].
  rewrite Hk. set_solver.
Qed.

Definition waited_laws : uninterrupted -> PolicyLaws Cfg Z W (HP := ForkPolicy) (HT := HT).
Proof using HL.
  intros Hu. apply (fork_policy_laws (fun _ => ∅)); try done.
  - intros d b w. destruct (fork d b w). right. set_solver.
  - intros p w. by apply waited_force.
Defined.
End Fork.

(** ** The master of processes *)

Section Master.
Context {Cfg W : Type} `{HC : WorkerConfig Cfg} `{HO : Os W} `{HT : Timed W} `{HL : !OsLaws W}.
#[local] Instance fork_policy : WorkerPolicy Cfg Z W := ForkPolicy.
Notation manager := (process_manager Cfg Z W).

(** C31: The master of a [ForkPolicy] stops: [run] returns when it gets SIGTERM or
    SIGINT, whatever reloads came before and however the workers end, its waits
    being bounded by the graceful timeout.  It leaves no entry, and a worker that
    it has not waited for it has killed with SIGKILL; when no signal interrupts its
    waits (its handlers are installed without SA_RESTART) it has waited for all.
    The calls of the operating system are as POSIX says.  This is not so of a
    [ThreadPolicy], which ends the program. *)
Theorem master_leaves_no_worker hardware before now after (m : manager) :
  workers_ m = [] -> children (world m) = ∅ ->
  0 <= hardware -> 0 <= num_workers (config_ m) -> 0 <= graceful_timeout (config_ m) ->
  Forall sane before -> shuts_down now ->
  exists m', run hardware (before ++ now :: after) m = Ok m' /\ workers_ m' = [] /\
    children (world m') ⊆ killed (world m') /\
    ((forall p (w : W), p ∈ children w -> (waitpid p false w).1.1 = p) -> children (world m') = ∅).
Proof using HL.
  intros Hws Hc Hh Hn Ht Hs Hd.
  destruct (run_stops_all (HL := fork_laws) hardware before now after m Hws) as (m' & Hr & H1 & H2); try done.
  { cbn. unfold left_over. rewrite Hc. set_solver. }
  exists m'. split; [done|]. split; [done|]. cbn in H2. unfold left_over in H2. split; [set_solver|].
  intros Hu. destruct (run_stops_all (HL := waited_laws Hu) hardware before now after m Hws) as (m2 & Hr2 & _ & H3);
    try done; [cbn; unfold left_over; rewrite Hc; set_solver|].
  rewrite Hr in Hr2. injection Hr2 as <-. cbn in H3. unfold left_over in H3. set_solver.
Qed.

(** C32: A reload under a [ForkPolicy] leaves exactly a new generation: workers 0,
    1, ..., as many as the callback asked for (as many as before when it gave no
    number), none of them being stopped; of the rest of the callback's
    configuration nothing is kept.  The entries stand for different processes, and
    these are the children that are left but for those killed: a worker of the old
    generation has been waited for or killed with SIGKILL, and has been waited for
    when no signal interrupts the waits.  A [fork] that fails leaves an entry
    without a process. *)
Theorem reload_replaces_workers answer (m : manager) :
  NoDup (owners fork_owned (workers_ m)) -> children (world m) = list_to_set (owners fork_owned (workers_ m)) ->
  killed (world m) ## children (world m) ->
  0 <= graceful_timeout (config_ m) -> 0 <= num_workers (config_ m) -> 0 <= current_generation_ m < 2 ^ 32 ->
  Forall (fun e => generation e = current_generation_ m) (workers_ m) ->
  0 <= num_workers (new_config answer m) ->
  exists m', reload answer m = Ok m' /\
    let n := num_workers (new_config answer m) in
    new_workers 0 n (current_generation_ m') (workers_ m') /\
    current_generation_ m' <> current_generation_ m /\
    config_ m' = set_num_workers n (config_ m) /\
    accounts fork_owned (workers_ m') (children (world m') ∖ killed (world m')) /\
    ((forall p (w : W), p ∈ children w -> (waitpid p false w).1.1 = p) ->
     accounts fork_owned (workers_ m') (children (world m'))).
Proof using HL.
  intros Hnd Hc Hk Ht Hn Hg H1 Hn'.
  destruct (reload_generation (HL := fork_laws) answer m) as (m' & Hr & Hnew & Ha & Hgen & Hcfg); [|done|].
  { constructor; try done. split; [done|]. cbn. unfold left_over. rewrite <- Hc. set_solver. }
  exists m'. split; [done|]. cbn zeta. split; [exact Hnew|]. split; [done|]. split; [done|]. split; [exact Ha|].
  intros Hu. destruct (reload_generation (HL := waited_laws Hu) answer m) as (m2 & Hr2 & _ & Ha2 & _); [|done|].
  { constructor; try done. split; [done|]. cbn. unfold left_over. rewrite <- Hc. set_solver. }
  rewrite Hr in Hr2. injection Hr2 as <-. cbn in Ha2. unfold left_over in Ha2.
  by rewrite difference_empty_L in Ha2.
Qed.
End Master.

(** ** A machine to run on

    Its processes never end by themselves: their handler of SIGTERM does nothing. *)
Module Machine.

Record machine := {
  kids : gset positive;
  dead : gset positive;
  clock : Z
}.
#[export] Instance machine_settable : Settable machine := fun m =>
  Build_machine (kids m) (dead m) (clock m).

Definition pids (m : machine) : gset Z := set_map Zpos (kids m).

Definition do_fork (m : machine) : Z * machine :=
  let p := fresh (kids m) in (Zpos p, m <| kids ::= fun k => {[p]} ∪ k |> <| dead ::= fun k => k ∖ {[p]} |>).

Definition do_kill (p : Z) (s : signal) (m : machine) : machine :=
  match s with SIGKILL => m <| dead ::= fun k => {[Z.to_pos p]} ∪ k |> | _ => m end.

Definition reap_one (p : positive) (m : machine) : Z * bool * machine :=
  (Zpos p, false, m <| kids ::= fun k => k ∖ {[p]} |>).

Definition do_wait (p : Z) (nohang : bool) (m : machine) : Z * bool * machine :=
  if p =? -1 then
    match elements (kids m ∩ dead m) with
    | [] => (if bool_decide (kids m = ∅) then -1 else 0, bool_decide (kids m = ∅), m)
    | q :: _ => reap_one q m
    end
  else if bool_decide (p ∈ pids m) then
    if nohang && bool_decide (Z.to_pos p ∉ dead m) then (0, false, m) else reap_one (Z.to_pos p) m
  else (-1, true, m).

#[export] Instance machine_os : Os machine := {|
  fork _ _ := do_fork;
  kill := do_kill;
  waitpid := do_wait;
  children := pids;
  killed m := set_map Zpos (dead m)
|}.

#[export] Program Instance machine_time : Timed machine := {|
  now m := (clock m, m);
  sleep d m := m <| clock ::= Z.add (Z.max 0 d) |>;
  time := clock
|}.
Next Obligation. done. Qed.
Next Obligation. intros; cbn; lia. Qed.

Lemma reap_one_pids p m :
  p ∈ kids m -> Zpos p ∈ pids m /\ pids (reap_one p m).2 = pids m ∖ {[Zpos p]}.
Proof. unfold pids. cbn. intros. split; set_solver. Qed.

#[export] Instance machine_laws : OsLaws machine.
Proof.
  constructor.
  - intros p m. cbn. unfold pids. set_solver by lia.
  - intros d b m. cbn. unfold pids. cbn. right. pose proof (is_fresh (kids m)). split; [lia|].
    split; [set_solver|]. split; [set_solver|]. apply set_eq. intros q. set_solver.
  - intros p s m. cbn. split; [by destruct s|]. split; [by destruct s|]. split; [by destruct s|].
    intros -> Hp. cbn. rewrite set_map_union_L, set_map_singleton_L. by rewrite Z2Pos.id.
  - intros p nohang m. cbn. unfold do_wait. repeat case_match; done.
  - intros p nohang m. cbn. unfold do_wait. repeat case_match; done.
  - intros p nohang m Hp. cbn. unfold do_wait. rewrite (proj2 (Z.eqb_neq p (-1))) by lia.
    case_bool_decide as Hin.
    + assert (Z.to_pos p ∈ kids m /\ Zpos (Z.to_pos p) = p) as [Hk Hz].
      { unfold pids in Hin. apply elem_of_map in Hin as (q & -> & ?). done. }
      destruct (nohang && _); cbn.
      * right. split; [lia|]. split; [done|]. by split.
      * left. rewrite Hz. destruct (reap_one_pids _ _ Hk) as [? Hr]. cbn in Hr. by rewrite Hr, Hz.
    + right. split; [lia|]. by split.
  - intros m. cbn. destruct (elements (kids m ∩ dead m)) as [|q l] eqn:E.
    + right. by case_bool_decide.
    + left. assert (q ∈ kids m) as Hq.
      { assert (q ∈ elements (kids m ∩ dead m)) as Hq by (rewrite E; by left). set_solver. }
      by apply reap_one_pids.
  - done.
  - done.
Qed.

Lemma machine_uninterrupted p (m : machine) : p ∈ children m -> (waitpid p false m).1.1 = p.
Proof.
  cbn. intros Hin. unfold do_wait. assert (exists q, p = Zpos q) as [q ->].
  { unfold pids in Hin. apply elem_of_map in Hin as (q & -> & ?). by exists q. }
  cbn. by rewrite bool_decide_eq_true_2.
Qed.

#[export] Instance machine_policy : WorkerPolicy default_worker_config Z machine := ForkPolicy.

Definition idle : machine := {| kids := ∅; dead := ∅; clock := 0 |}.

Definition master (ws : list (worker_entry Z)) (m : machine) :
    process_manager default_worker_config Z machine := {|
  shutdown_requested := false; reload_requested := false;
  config_ := default_config; workers_ := ws; current_generation_ := 1; world := m
|}.

(** A reload with three workers, then SIGTERM. *)
Definition reloads : moment default_worker_config :=
  {| at_top := [SIGHUP]; at_reload := [];
     answer := Some (default_config <| cfg_num_workers := 3 |>) |}.
Definition ends : moment default_worker_config :=
  {| at_top := [SIGTERM]; at_reload := []; answer := None |}.

Lemma master_leaves_no_worker_witness :
  exists m', run 2 ([reloads] ++ ends :: []) (master [] idle) = Ok m' /\
    workers_ m' = [] /\ children (world m') = ∅.
Proof.
  destruct (master_leaves_no_worker 2 [reloads] ends [] (master [] idle)) as (m' & Hr & Hw & _ & Hc).
  - reflexivity.
  - reflexivity.
  - lia.
  - cbn. lia.
  - cbn. lia.
  - repeat constructor. intros c [= <-]. cbn. lia.
  - left. by left.
  - exists m'. split; [exact Hr|]. split; [exact Hw|]. apply Hc. exact machine_uninterrupted.
Defined.

(** Two workers, and a reload for three. *)
Definition two_workers : process_manager default_worker_config Z machine :=
  spawn_workers 2 1 (master [] idle) <| config_ ::= set_num_workers 2 |>.

Lemma reload_replaces_workers_witness :
  exists m', reload (answer reloads) two_workers = Ok m' /\
    new_workers 0 3 (current_generation_ m') (workers_ m') /\
    accounts fork_owned (workers_ m') (children (world m')) /\
    current_generation_ m' <> 1 /\ config_ m' = set_num_workers 3 (config_ two_workers).
Proof.
  destruct (reload_replaces_workers (answer reloads) two_workers) as (m' & Hr & Hn & Hg & Hc & _ & Ha).
  - apply (bool_decide_unpack _). by vm_compute.
  - by vm_compute.
  - apply (bool_decide_unpack _). by vm_compute.
  - by vm_compute.
  - by vm_compute.
  - by vm_compute.
  - by repeat constructor.
  - by vm_compute.
  - exists m'. split; [exact Hr|]. split; [exact Hn|]. split; [exact (Ha machine_uninterrupted)|]. by split.
Defined.

End Machine.

(** ** Threads *)

Section Thread.
Context {Cfg W : Type} `{HC : WorkerConfig Cfg} `{HW : Threads W} `{HT : Timed W}.
#[local] Instance thread_policy : WorkerPolicy Cfg thread_handle W := ThreadPolicy.

(** The flag [running] is a variable: after it is cleared it stays clear, and the
    clock does not set it. *)
Class ThreadLaws : Prop := {
  cleared t w : running t (clear_running t w) = false;
  stays_clear t t' w : running t w = false -> running t (clear_running t' w) = false;
  stop_keeps t w : running t (stop_shared w) = running t w;
  now_keeps t w : running t w = false -> running t (now w).2 = false
}.
Context `{HL : !ThreadLaws}.
Notation entry := (worker_entry thread_handle).

Definition quiet (w : W) (e : entry) : Prop := running (flag (handle e)) w = false.

Lemma signal_quiet (ws : list entry) w :
  Forall (fun e => stopping e = false) ws ->
  let '(ws', w') := signal_workers (fun _ => true) ws w in
  map handle ws' = map handle ws /\ Forall (quiet w') ws' /\
  forall t, running t w = false -> running t w' = false.
Proof.
  intros Hs. revert w. induction Hs as [|e ws He _ IH]; intros w; [by repeat constructor|].
  cbn [signal_workers]. rewrite He. cbn.
  set (w1 := thread_signal_stop (handle e) w). specialize (IH w1).
  destruct (signal_workers _ ws w1) as [ws' w2]. destruct IH as (IH1 & IH2 & IH3).
  assert (forall t, running t w = false -> running t w1 = false) as H1.
  { intros t Ht. unfold w1, thread_signal_stop. rewrite stop_keeps. by apply stays_clear. }
  split; [by rewrite <- IH1|]. split; [|auto]. constructor; [|done]. unfold quiet. cbn. apply IH3.
  unfold w1, thread_signal_stop. rewrite stop_keeps. apply cleared.
Qed.

Lemma all_exited_quiet (ws : list entry) w :
  Forall (quiet w) ws -> all_exited ws w = (true, (ws, w)).
Proof.
  induction 1 as [|e ws He _ IH]; [done|]. cbn. unfold thread_is_alive, quiet in *. rewrite He.
  cbn in IH. rewrite IH. by destruct e.
Qed.

Lemma force_all_quiet (ws : list entry) w : Forall (quiet w) ws -> force_all ws w = (ws, w).
Proof.
  induction 1 as [|e ws He _ IH]; [done|]. cbn. unfold ensure_stopped. cbn.
  unfold thread_is_alive, quiet in *. rewrite He. cbn in IH. rewrite IH. by destruct e.
Qed.

(** Stopping the workers of a [ThreadPolicy] ends the program with
    std::terminate when there is a worker: [signal_stop] clears the flag that
    [is_alive] reads, so no thread is waited for or joined, and the first entry
    that is destroyed still has a joinable thread. *)
Theorem thread_stop_terminates (e : entry) ws m :
  joinable (handle e) = true -> workers_ m = e :: ws ->
  Forall (fun e => stopping e = false) (e :: ws) -> 
  stop_all_workers (Cfg := Cfg) m = Throws Terminate.
Proof.
  intros Hj Hws Hs. unfold stop_all_workers. rewrite Hws. pose proof (signal_quiet _ (world m) Hs) as Hq.
  destruct (signal_workers _ (e :: ws) _) as [ws' w]. destruct Hq as (Hh & Hq & _).
  assert (forall w, Forall (quiet w) ws' -> Forall (quiet (now w).2) ws') as Hnow.
  { intros w1 H1. eapply Forall_impl; [done|]. intros e' He. by apply now_keeps. }
  apply Hnow in Hq. destruct (now w) as [t w1]. cbn [snd] in Hq.
  assert (exists w2, wait_all (rounds (1000 * graceful_timeout (config_ m)) 100)
    (t + 1000 * graceful_timeout (config_ m)) ws' w1 = Ok (ws', w2) /\ Forall (quiet w2) ws') as (w2 & -> & Hq2).
  { unfold rounds. cbn [wait_all]. apply Hnow in Hq. destruct (now w1) as [t' w2]. cbn [snd] in Hq.
    rewrite all_exited_quiet by done. exists w2. by destruct (t' <? _). }
  cbn -[force_all destroy_all]. rewrite force_all_quiet by done.
  destruct ws' as [|e' ws']; [done|]. injection Hh as He _. cbn. unfold thread_destroy. by rewrite He, Hj.
Qed.

End Thread.

(** Threads that run until they are told to stop *)
Module Threads.

Record threads := { live : gset Z; started : Z; ticks : Z }.
#[export] Instance threads_settable : Settable threads := fun m =>
  Build_threads (live m) (started m) (ticks m).

#[export] Instance toy_threads : ProcessManager.Threads threads := {|
  concurrent_poll _ := false;
  start _ m := (started m, m <| live ::= fun l => {[started m]} ∪ l |> <| started ::= Z.succ |>);
  running t m := bool_decide (t ∈ live m);
  clear_running t m := m <| live ::= fun l => l ∖ {[t]} |>;
  stop_shared m := m;
  join_thread _ m := m
|}.

#[export] Program Instance toy_time : Timed threads := {|
  now m := (ticks m, m);
  sleep d m := m <| ticks ::= Z.add (Z.max 0 d) |>;
  time := ticks
|}.
Next Obligation. done. Qed.
Next Obligation. intros; cbn; lia. Qed.

#[export] Instance toy_laws : ThreadLaws (W := threads).
Proof. constructor; cbn; intros; rewrite ?bool_decide_eq_false in *; set_solver. Qed.

Definition first_worker : worker_entry thread_handle :=
  {| handle := {| flag := 0; joinable := true |}; worker_id := 0; generation := 1; stopping := false |}.

Definition one_thread : process_manager default_worker_config thread_handle threads :=
  {| shutdown_requested := true; reload_requested := false; config_ := default_config;
     workers_ := [first_worker];
     current_generation_ := 1;
     world := {| live := {[0]}; started := 1; ticks := 0 |} |}.

Lemma thread_stop_terminates_witness :
  stop_all_workers (HP := ThreadPolicy) one_thread = Throws Terminate.
Proof.
  refine (thread_stop_terminates first_worker [] one_thread _ _ _).
  - reflexivity.
  - reflexivity.
  - repeat constructor.
Defined.

End Threads.
