(* ===== verification/Transport.v ===== *)
(** * Byte streams

    What the protocol loops need of a connected socket: [async_read_some] into a
    buffer of a given size and [async_write_some], of which the code takes a
    result that is not positive as the end (the class [ByteStream]), and a pipe
    that delivers given pieces and takes a bounded number of bytes per write. *)
From S2P Require Import Prelude.
From stdpp Require Import options.

(** [read_some k] is [None] when the call gives 0 or an error, otherwise what it
    has put into the buffer; [write_some] gives the result of the call. *)
Class ByteStream (W : Type) := {
  read_some : Z -> W -> option bytes * W;
  write_some : bytes -> W -> Z * W
}.

Section Stream.
Context `{BS : ByteStream W}.

(** [while (total_sent < data.size())]: every write that does not end the loop
    takes at least one byte, so the length of [data] is enough fuel. *)
Fixpoint write_loop (fuel : nat) (data : bytes) (w : W) : bool * W :=
  match fuel with
  | O => (true, w)
  | S fuel =>
      if bool_decide (data = []) then (true, w) else
      let '(n, w) := write_some data w in
      if n <=? 0 then (false, w) else write_loop fuel (dropZ n data) w
  end.

(** Whether all of [data] has been written. *)
Definition write_all (data : bytes) (w : W) : bool * W := write_loop (length data) data w.
End Stream.

(** ** A pipe *)

Record pipe := { arriving : list bytes; sent : bytes; quantum : Z }.

#[export] Instance pipe_eta : Settable pipe := fun p =>
  Build_pipe (arriving p) (sent p) (quantum p).

(** A read gives the piece that arrives next, or what fits of it; the end of the
    pieces is the end of the stream. *)
Definition pipe_read (k : Z) (p : pipe) : option bytes * pipe :=
  match arriving p with
  | [] => (None, p)
  | d :: ds =>
      if len d <=? k then (Some d, p <| arriving := ds |>)
      else (Some (takeZ k d), p <| arriving := dropZ k d :: ds |>)
  end.

Definition pipe_write (data : bytes) (p : pipe) : Z * pipe :=
  let n := Z.min (len data) (quantum p) in (n, p <| sent ::= fun s => s ++ takeZ n data |>).

#[export] Instance pipe_stream : ByteStream pipe :=
  {| read_some := pipe_read; write_some := pipe_write |}.

(** ** Lemmas *)

Lemma pipe_ext p q :
  arriving p = arriving q -> sent p = sent q -> quantum p = quantum q -> p = q.
Proof. destruct p, q; cbn. congruence. Qed.

Lemma write_all_pipe data p :
  0 < quantum p -> write_all data p = (true, p <| sent ::= fun s => s ++ data |>).
Proof.
  intros Hq. unfold write_all.
  assert (forall fuel data p, quantum p > 0 -> (length data <= fuel)%nat ->
    write_loop fuel data p = (true, p <| sent ::= fun s => s ++ data |>)) as H.
  2: { apply H; lia. }
  clear. induction fuel as [|fuel IH]; intros data p Hq Hl; cbn [write_loop].
  - destruct data; [|cbn in Hl; lia]. f_equal. apply pipe_ext; cbn; [done|by rewrite app_nil_r|done].
  - case_bool_decide as E.
    + subst data. f_equal. apply pipe_ext; cbn; [done|by rewrite app_nil_r|done].
    + cbn [write_some pipe_stream pipe_write].
      assert (0 < len data) by (destruct data; [done|blia]).
      set (n := Z.min (len data) (quantum p)). rewrite (proj2 (Z.leb_gt _ _)) by lia.
      rewrite IH.
      * f_equal. apply pipe_ext; cbn; [done| |done]. by rewrite <- app_assoc, takeZ_dropZ.
      * exact Hq.
      * pose proof (len_dropZ n data). unfold len in *. lia.
Qed.

(** The pieces of a stream cut for buffers of [k] bytes. *)
Definition cut_ok (k : Z) (ds : list bytes) : Prop := Forall (fun d => 0 < len d <= k) ds.

Lemma pipe_read_piece k d ds p :
  arriving p = d :: ds -> len d <= k -> read_some k p = (Some d, p <| arriving := ds |>).
Proof.
  intros E Hd. cbn. unfold pipe_read. rewrite E. by rewrite (proj2 (Z.leb_le _ _)).
Qed.
