(* ===== verification/H3Session.v ===== *)
(** * The HTTP/3 session (src/src/http/http3_session.cpp,
      src/include/async_net/http/http3_session.hpp)

    The state of [http3_session::impl], the callbacks that QUIC makes into it, and
    its public operations.  QUIC itself is ngtcp2: the class [Quic] names the
    calls the session makes, and nothing is assumed of their answers.  Each call
    that hands stream data to QUIC is recorded as an [effect], as are the calls
    of the user's functions and the resumption of waiting coroutines.  Setting
    up a connection (TLS contexts, transport parameters) is not modelled: a
    session is given its connection. *)
From S2P Require Import Prelude Framing HeaderTable Qpack H3Frame CppString CppStream HttpTypes.
From stdpp Require Import options.

(** ** QUIC *)

(** What [ngtcp2_conn_read_pkt] calls back before it returns. *)
Inductive quic_event :=
| HandshakeCompleted
| StreamOpened (sid : Z)
| StreamData (sid : Z) (data : bytes) (fin : bool)
| StreamClosed (sid : Z).

Inductive read_result := ReadOk | ReadRetry | ReadFailed.

(** [writev_stream] gives the packet, if there is one, and the number of bytes of
    the data that went into it ([pdatalen]; -1 when none of the stream did), which
    the code does not look at; the code gives it no flag with which ngtcp2 would
    ask for more data.  [pending_packets] is what the loop of [write_packets]
    collects and whether it ends without an error. *)
Class Quic (Q : Type) := {
  open_bidi_stream : Q -> option Z * Q;
  open_uni_stream : Q -> option Z * Q;
  writev_stream : Q -> Z -> bytes -> bool -> option bytes * Z * Q;
  pending_packets : Q -> list bytes * bool * Q;
  read_pkt : Q -> bytes -> list quic_event * read_result * Q;
  (** [ngtcp2_crypto_generate_retry_token] and [ngtcp2_crypto_write_retry] on a
      version and the client's two connection ids. *)
  retry_packet : Q -> Z -> bytes -> bytes -> option bytes;
  handle_conn_expiry : Q -> bool * Q;
  (** [ngtcp2_conn_get_expiry], in nanoseconds; 2^64 - 1 when no timer runs. *)
  conn_expiry : Q -> Z;
  (** [NGTCP2_MAX_CIDLEN]. *)
  max_cidlen : Z;
  (** [impl::init_server] on a version, the client's first destination id and
      its source id. *)
  server_new : Z -> bytes -> bytes -> option Q
}.

(** ** State *)

Record push_promise_info := { push_id : Z; promised_request : request }.

Definition no_push_info : push_promise_info :=
  {| push_id := 0; promised_request := request_default |}.

Record response_promise := {
  pr_resp : response;
  pr_complete : bool;
  pr_error : bool;
  pr_is_push : bool;
  pr_push_info : push_promise_info;
  pr_waiter : bool
}.

#[export] Instance h3_promise_eta : Settable response_promise := fun p =>
  Build_response_promise (pr_resp p) (pr_complete p) (pr_error p) (pr_is_push p)
    (pr_push_info p) (pr_waiter p).

Definition new_promise : response_promise :=
  {| pr_resp := response_default; pr_complete := false; pr_error := false;
     pr_is_push := false; pr_push_info := no_push_info; pr_waiter := false |}.

Inductive st := idle | open | closed.

Record stream_state := {
  stream_id : Z;
  sstate : st;
  req : request;
  body : bytes;
  headers_complete : bool;
  end_stream : bool;
  reader : frame_reader;
  control_stream : bool;
  qpack_encoder_stream : bool;
  qpack_decoder_stream : bool;
  send_buf : bytes;
  send_offset : Z;
  resp : response;
  resp_body : bytes;
  resp_headers_complete : bool;
  promise : option nat
}.

#[export] Instance h3_stream_eta : Settable stream_state := fun ss =>
  Build_stream_state (stream_id ss) (sstate ss) (req ss) (body ss) (headers_complete ss)
    (end_stream ss) (reader ss) (control_stream ss) (qpack_encoder_stream ss)
    (qpack_decoder_stream ss) (send_buf ss) (send_offset ss) (resp ss) (resp_body ss)
    (resp_headers_complete ss) (promise ss).

Definition new_stream : stream_state :=
  {| stream_id := 0; sstate := idle; req := request_default; body := [];
     headers_complete := false; end_stream := false; reader := frame_reader_init;
     control_stream := false; qpack_encoder_stream := false; qpack_decoder_stream := false;
     send_buf := []; send_offset := 0; resp := response_default; resp_body := [];
     resp_headers_complete := false; promise := None |}.

Inductive mode := server | client.

Record handlers := {
  request_handler_ : option (request -> response);
  push_provider_ : option (request -> list (request * response));
  push_handler_ : bool
}.

Inductive effect :=
| Wrote (sid : Z) (data : bytes) (fin : bool) (accepted : Z)
| Requested (r : request)
| PushPromised (info : push_promise_info)
| Resumed (p : nat).

Section Session.
Context `{QU : Quic Q}.

Record session := mk_session {
  mode_ : mode;
  alive_ : bool;
  handshake_done_ : bool;
  conn_ : option Q;
  output_pkts_ : list bytes;
  qpack_encoder_ : qpack_encoder;
  qpack_decoder_ : qpack_decoder;
  streams_ : gmap Z stream_state;
  control_stream_id_ : Z;
  qpack_encoder_stream_id_ : Z;
  qpack_decoder_stream_id_ : Z;
  hooks_ : handlers;
  completed_promises_ : list nat;
  next_push_id_ : Z;
  max_push_id_sent_ : Z;
  (** The request and the promise that wait for the handshake. *)
  pending_request_ : request;
  pending_promise_ : option nat;
  has_pending_request_ : bool;
  uni_stream_buf_ : gmap Z bytes;
  heap_ : gmap nat response_promise;
  effects_ : list effect
}.

#[export] Instance h3_session_eta : Settable session := fun s =>
  mk_session (mode_ s) (alive_ s) (handshake_done_ s) (conn_ s) (output_pkts_ s)
    (qpack_encoder_ s) (qpack_decoder_ s) (streams_ s) (control_stream_id_ s)
    (qpack_encoder_stream_id_ s) (qpack_decoder_stream_id_ s) (hooks_ s)
    (completed_promises_ s) (next_push_id_ s) (max_push_id_sent_ s) (pending_request_ s)
    (pending_promise_ s) (has_pending_request_ s) (uni_stream_buf_ s) (heap_ s) (effects_ s).

Implicit Types (s : session) (ss : stream_state).

Definition effect_of (e : effect) (s : session) : session :=
  s <| effects_ ::= fun es => es ++ [e] |>.

Definition update_stream (sid : Z) (f : stream_state -> stream_state) (s : session) : session :=
  s <| streams_ ::= alter f sid |>.

(** [streams_[sid]]: a new stream when there is none. *)
Definition touch_stream (sid : Z) (s : session) : session :=
  match streams_ s !! sid with
  | Some _ => s
  | None => s <| streams_ ::= insert sid new_stream |>
  end.

Definition new_session (m : mode) (q : option Q) (e : qpack_encoder) (d : qpack_decoder)
    (heap : gmap nat response_promise) : session :=
  {| mode_ := m; alive_ := true; handshake_done_ := false; conn_ := q; output_pkts_ := [];
     qpack_encoder_ := e; qpack_decoder_ := d; streams_ := ∅; control_stream_id_ := -1;
     qpack_encoder_stream_id_ := -1; qpack_decoder_stream_id_ := -1;
     hooks_ := {| request_handler_ := None; push_provider_ := None; push_handler_ := false |};
     completed_promises_ := []; next_push_id_ := 0; max_push_id_sent_ := 0;
     pending_request_ := request_default; pending_promise_ := None;
     has_pending_request_ := false; uni_stream_buf_ := ∅; heap_ := heap; effects_ := [] |}.

(** ** Writing *)

(** One call of [ngtcp2_conn_writev_stream]; without a connection there are no
    callbacks and no calls. *)
Definition write_stream (sid : Z) (data : bytes) (fin : bool) (s : session) : session :=
  match conn_ s with
  | None => s
  | Some q =>
      let '(packet, pdatalen, q) := writev_stream q sid data fin in
      let s := effect_of (Wrote sid data fin pdatalen) (s <| conn_ := Some q |>) in
      match packet with
      | Some p => s <| output_pkts_ ::= fun ps => ps ++ [p] |>
      | None => s
      end
  end.

Definition write_packets (s : session) : Z * session :=
  match conn_ s with
  | None => (-1, s)
  | Some q =>
      let '(ps, ok, q) := pending_packets q in
      let s := s <| conn_ := Some q |> <| output_pkts_ ::= fun out => out ++ ps |> in
      (if ok : bool then foldr Z.add 0 (map len ps) else -1, s)
  end.

Definition open_uni (s : session) : option Z * session :=
  match conn_ s with
  | None => (None, s)
  | Some q => let '(r, q) := open_uni_stream q in (r, s <| conn_ := Some q |>)
  end.

Definition open_bidi (s : session) : option Z * session :=
  match conn_ s with
  | None => (None, s)
  | Some q => let '(r, q) := open_bidi_stream q in (r, s <| conn_ := Some q |>)
  end.

Definition build_h3_headers (hdrs : list header) : bytes := build_headers_frame (encode_static hdrs).
Definition build_h3_data (data : bytes) : bytes := build_data_frame data.

(** The frames of a message: its header fields, its body unless it is empty. *)
Definition message_frames (hdrs : list header) (bd : bytes) : bytes :=
  build_h3_headers hdrs ++ (if bool_decide (bd = []) then [] else build_h3_data bd).

Definition open_control_streams (s : session) : session :=
  if 0 <=? control_stream_id_ s then s else
  match open_uni s with
  | (None, s) => s
  | (Some sid, s) =>
      let s := s <| control_stream_id_ := sid |> in
      let s := write_stream sid
        (append_varint [] stream_type.CONTROL ++
         build_settings_frame [{| se_id := setting_id.MAX_FIELD_SECTION_SIZE; se_value := 8192 |}])
        false s in
      let '(r, s) := open_uni s in
      let s := match r with
               | Some sid =>
                   write_stream sid (append_varint [] stream_type.QPACK_ENCODER) false
                     (s <| qpack_encoder_stream_id_ := sid |>)
               | None => s
               end in
      let '(r, s) := open_uni s in
      match r with
      | Some sid =>
          write_stream sid (append_varint [] stream_type.QPACK_DECODER) false
            (s <| qpack_decoder_stream_id_ := sid |>)
      | None => s
      end
  end.

Definition response_headers (r : response) : list header :=
  (str ":status", to_string (rs_status r)) :: rs_hdrs r.

Definition submit_response (sid : Z) (r : response) (s : session) : session :=
  let frames := message_frames (response_headers r) (rs_bd r) in
  let s := touch_stream sid s in
  let s := update_stream sid (fun ss => ss <| send_buf ::= fun b => b ++ frames |>) s in
  match streams_ s !! sid with
  | Some ss =>
      if send_offset ss <? len (send_buf ss) then
        write_stream sid (dropZ (send_offset ss) (send_buf ss)) true s
      else s
  | None => s
  end.

(** The value of [authority] after the loop over the headers: the last one. *)
Definition authority_of (hs : headers) : bytes :=
  foldl (fun a (kv : header) =>
           if bool_decide (kv.1 = str ":authority") || bool_decide (kv.1 = str "Host") ||
              bool_decide (kv.1 = str "host") then kv.2 else a) [] hs.

Definition not_colon (kv : header) : bool := negb (bool_decide (byte_at kv.1 0 = x3a)).

Definition request_headers (r : request) : list header :=
  [(str ":method", method_to_string (rq_method r));
   (str ":path", if bool_decide (rq_path r = []) then str "/" else rq_path r);
   (str ":scheme", str "https")] ++
  (if bool_decide (authority_of (rq_hdrs r) = []) then []
   else [(str ":authority", authority_of (rq_hdrs r))]) ++
  List.filter not_colon (rq_hdrs r).

(** The part [submit_request] and [submit_queued_request] share: the stream, the
    frames, one write and the packets that are ready. *)
Definition send_request (r : request) (p : option nat) (s : session) : option Z * session :=
  let frames := message_frames (request_headers r) (rq_bd r) in
  match open_bidi s with
  | (None, s) => (None, s)
  | (Some sid, s) =>
      let s := touch_stream sid s in
      let s := update_stream sid
        (fun ss => ss <| stream_id := sid |> <| sstate := open |> <| send_buf := frames |>
                      <| promise := p |>) s in
      (Some sid, (write_packets (write_stream sid frames true s)).2)
  end.

Definition submit_request (r : request) (p : option nat) (s : session) : Z * session :=
  match conn_ s with
  | None => (-1, s)
  | Some _ =>
      if negb (handshake_done_ s) then
        (0, s <| pending_request_ := r |> <| pending_promise_ := p |>
              <| has_pending_request_ := true |>)
      else
        match send_request r p s with
        | (None, s) => (-3, s)
        | (Some sid, s) => (i32 sid, s)
        end
  end.

Definition update_promise (p : nat) (f : response_promise -> response_promise) (s : session)
  : session := s <| heap_ ::= alter f p |>.

Definition submit_queued_request (s : session) : session :=
  if negb (has_pending_request_ s) then s else
  let s := s <| has_pending_request_ := false |> in
  match send_request (pending_request_ s) (pending_promise_ s) s with
  | (Some _, s) => s
  | (None, s) =>
      match pending_promise_ s with
      | Some p => update_promise p (fun pr => pr <| pr_error := true |> <| pr_complete := true |>) s
      | None => s
      end
  end.

(** ** Server push *)

Definition push_headers (r : request) : list header :=
  [(str ":method", method_to_string (rq_method r));
   (str ":path", if bool_decide (rq_path r = []) then str "/" else rq_path r);
   (str ":scheme", str "https");
   (str ":authority", default (str "localhost") (headers_get (rq_hdrs r) (str "Host")))] ++
  omap (fun kv : header =>
          let lk := to_lower kv.1 in
          if bool_decide (lk = str "host") || bool_decide (lk = str "connection") then None
          else Some (lk, kv.2)) (rq_hdrs r).

(** What the push stream carries. *)
Definition push_data (id : Z) (r : response) : bytes :=
  append_varint (append_varint [] stream_type.PUSH) id ++
  message_frames (response_headers r) (rs_bd r).

Definition do_submit_push (promised : request) (r : response) (sid : Z) (s : session)
  : Z * session :=
  match mode_ s, conn_ s with
  | client, _ | _, None => (-1, s)
  | server, Some _ =>
      let id := next_push_id_ s in
      let s := s <| next_push_id_ := u64 (id + 1) |> in
      let s :=
        if max_push_id_sent_ s <=? id then
          let new_max := u64 (id + 10) in
          (write_stream (control_stream_id_ s) (build_max_push_id_frame new_max) false s)
            <| max_push_id_sent_ := new_max |>
        else s in
      let s := write_stream sid (build_push_promise_frame id (encode_static (push_headers promised)))
                 false s in
      match open_uni s with
      | (None, s) => (-1, s)
      | (Some push_sid, s) =>
          (id, (write_packets (write_stream push_sid (push_data id r) true s)).2)
      end
  end.

Fixpoint submit_pushes (sid : Z) (pushes : list (request * response)) (s : session) : session :=
  match pushes with
  | [] => s
  | (promised, r) :: pushes => submit_pushes sid pushes (do_submit_push promised r sid s).2
  end.

(** ** Requests and responses *)

Definition with_request_body (r : request) (bd : bytes) : request :=
  {| rq_method := rq_method r; rq_path := rq_path r; rq_query := rq_query r;
     rq_ver := rq_ver r; rq_hdrs := rq_hdrs r; rq_bd := bd |}.

Definition dispatch_request (sid : Z) (s : session) : session :=
  match request_handler_ (hooks_ s), streams_ s !! sid with
  | Some h, Some ss =>
      let r := with_request_body (req ss) (body ss) in
      let s := update_stream sid (fun ss => ss <| req := r |>) s in
      let s := submit_response sid (h r) (effect_of (Requested r) s) in
      match push_provider_ (hooks_ s) with
      | Some provider => submit_pushes sid (provider r) s
      | None => s
      end
  | _, _ => s
  end.

(** One field of a request's header list. *)
Definition apply_header (r : request) (h : header) : request :=
  let '(name, value) := h in
  let with_hdrs hs := {| rq_method := rq_method r; rq_path := rq_path r; rq_query := rq_query r;
                         rq_ver := rq_ver r; rq_hdrs := hs; rq_bd := rq_bd r |} in
  if bool_decide (name = str ":method") then
    {| rq_method := default (rq_method r) (parse_method value); rq_path := rq_path r;
       rq_query := rq_query r; rq_ver := rq_ver r; rq_hdrs := rq_hdrs r; rq_bd := rq_bd r |}
  else if bool_decide (name = str ":path") then
    {| rq_method := rq_method r; rq_path := value; rq_query := rq_query r; rq_ver := rq_ver r;
       rq_hdrs := rq_hdrs r; rq_bd := rq_bd r |}
  else if bool_decide (name = str ":authority") then
    with_hdrs (headers_append (rq_hdrs r) (str "Host") value)
  else if bool_decide (name = str ":scheme") then r
  else if negb (bool_decide (byte_at name 0 = x3a)) then
    with_hdrs (headers_append (rq_hdrs r) name value)
  else r.

Definition http3_request (r : request) : request :=
  {| rq_method := rq_method r; rq_path := rq_path r; rq_query := rq_query r;
     rq_ver := HTTP_3; rq_hdrs := rq_hdrs r; rq_bd := rq_bd r |}.

(** [std::atoi] on a string up to its first NUL; out of the range of [int] its
    behaviour is undefined. *)
Definition atoi (s : bytes) : outcome Z :=
  let s := match find_char s x00 0 with Some n => substr s 0 n | None => s end in
  match stoi s with
  | Ok v => Ok v
  | Throws BadArgument => Ok 0
  | _ => Undefined SignedOverflow
  end.

(** One field of a response's header list; [put] is [set] on a request stream,
    [append] on a push stream. *)
Definition apply_response_field (status : bytes -> outcome Z)
    (put : headers -> bytes -> bytes -> headers) (r : response) (h : header) : outcome response :=
  let '(name, value) := h in
  if bool_decide (name = str ":status") then
    code ← status value;
    Ok {| rs_status := code; rs_ver := rs_ver r; rs_hdrs := rs_hdrs r; rs_bd := rs_bd r;
          rs_trailers := rs_trailers r |}
  else if negb (bool_decide (byte_at name 0 = x3a)) then
    Ok {| rs_status := rs_status r; rs_ver := rs_ver r; rs_hdrs := put (rs_hdrs r) name value;
          rs_bd := rs_bd r; rs_trailers := rs_trailers r |}
  else Ok r.

Fixpoint apply_response_fields (status : bytes -> outcome Z)
    (put : headers -> bytes -> bytes -> headers) (r : response) (hs : list header)
  : outcome response :=
  match hs with
  | [] => Ok r
  | h :: hs => r ← apply_response_field status put r h; apply_response_fields status put r hs
  end.

Definition request_stream_status (value : bytes) : outcome Z :=
  code ← atoi value; Ok (if 0 <? code then code else 500).

Definition push_stream_status (value : bytes) : outcome Z :=
  Ok (from_chars_value 10 INT_MIN INT_MAX 0 value).

Definition http3_response (r : response) : response :=
  {| rs_status := rs_status r; rs_ver := HTTP_3; rs_hdrs := rs_hdrs r; rs_bd := rs_bd r;
     rs_trailers := rs_trailers r |}.

Definition with_body (r : response) (bd : bytes) : response :=
  {| rs_status := rs_status r; rs_ver := rs_ver r; rs_hdrs := rs_hdrs r; rs_bd := bd;
     rs_trailers := rs_trailers r |}.

(** What [std::move] leaves of a response. *)
Definition moved_from (r : response) : response :=
  {| rs_status := rs_status r; rs_ver := rs_ver r; rs_hdrs := []; rs_bd := []; rs_trailers := [] |}.

(** [p->complete = true; if (p->waiter) p->waiter.resume();] *)
Definition settle (p : nat) (f : response_promise -> response_promise) (s : session) : session :=
  let s := update_promise p (fun pr => (f pr) <| pr_complete := true |>) s in
  match heap_ s !! p with
  | Some pr => if pr_waiter pr then effect_of (Resumed p) s else s
  | None => s
  end.

(** The stream's response goes to its promise, unless that is complete. *)
Definition complete_promise (sid : Z) (finish : response -> response) (s : session) : session :=
  match streams_ s !! sid with
  | Some ss =>
      match promise ss with
      | Some p =>
          match heap_ s !! p with
          | Some pr =>
              if pr_complete pr then s else
              let s := update_stream sid (fun ss => ss <| resp := moved_from (resp ss) |>) s in
              settle p (fun pr => pr <| pr_resp := finish (with_body (resp ss) (resp_body ss)) |>) s
          | None => s
          end
      | None => s
      end
  | None => s
  end.

Definition handle_response_headers (sid : Z) (payload : bytes) (s : session) : outcome session :=
  match streams_ s !! sid with
  | None => Ok s
  | Some ss =>
      hdrs ← qpack_decode (qpack_decoder_ s) payload;
      r ← apply_response_fields request_stream_status headers_set (resp ss) hdrs;
      let s := update_stream sid
        (fun ss => ss <| resp_headers_complete := true |> <| resp := http3_response r |>) s in
      Ok (if end_stream ss then complete_promise sid (fun r => r) s else s)
  end.

Definition handle_response_data (sid : Z) (payload : bytes) (s : session) : session :=
  match streams_ s !! sid with
  | None => s
  | Some ss =>
      let s := update_stream sid (fun ss => ss <| resp_body ::= fun b => b ++ payload |>) s in
      if end_stream ss && resp_headers_complete ss then complete_promise sid (fun r => r) s else s
  end.

Definition handle_request_headers (sid : Z) (payload : bytes) (s : session) : outcome session :=
  match streams_ s !! sid with
  | None => Ok s
  | Some ss =>
      match mode_ s with
      | client => handle_response_headers sid payload s
      | server =>
          hdrs ← qpack_decode (qpack_decoder_ s) payload;
          let s := update_stream sid
            (fun ss => ss <| headers_complete := true |>
                          <| req := http3_request (foldl apply_header (req ss) hdrs) |>) s in
          Ok (if end_stream ss then dispatch_request sid s else s)
      end
  end.

Definition handle_request_data (sid : Z) (payload : bytes) (s : session) : session :=
  match streams_ s !! sid with
  | None => s
  | Some ss =>
      match mode_ s with
      | client => handle_response_data sid payload s
      | server =>
          let s := update_stream sid (fun ss => ss <| body ::= fun b => b ++ payload |>) s in
          if end_stream ss then
            let s := update_stream sid (fun ss => ss <| req := with_request_body (req ss) (body ss) |>) s in
            if headers_complete ss then dispatch_request sid s else s
          else s
      end
  end.

(** [handle_settings] parses the settings and drops them. *)
Definition handle_settings (payload : bytes) (s : session) : session := s.

Definition handle_push_promise (payload : bytes) (s : session) : outcome session :=
  match mode_ s with
  | server => Ok s
  | client =>
      let pp := parse_push_promise payload in
      hdrs ← qpack_decode (qpack_decoder_ s) (pp_header_block pp);
      let info := {| push_id := pp_push_id pp;
                     promised_request := http3_request (foldl apply_header request_default hdrs) |} in
      Ok (if push_handler_ (hooks_ s) then effect_of (PushPromised info) s else s)
  end.

(** ** Unidirectional streams *)

(** [handle_push_stream].  The reader is fed once, and its loop takes one frame
    and does not feed the rest. *)
Definition push_frame (d : qpack_decoder) (f : frame) (ss : stream_state)
  : outcome stream_state :=
  if type f =? frame_type.HEADERS then
    hdrs ← qpack_decode d (payload f);
    r ← apply_response_fields push_stream_status headers_append (resp ss) hdrs;
    Ok (ss <| resp := http3_response r |> <| headers_complete := true |>)
  else if type f =? frame_type.DATA then
    Ok (ss <| resp_body ::= fun b => b ++ payload f |>)
  else Ok ss.

(** [while (ss.reader.has_frame())]: [take_frame] leaves the reader at the
    start of the next frame, so the body runs at most once. *)
Definition push_frames (d : qpack_decoder) (ss : stream_state) : outcome stream_state :=
  if has_frame (reader ss) then
    let '(f, r) := take_frame (reader ss) in push_frame d f (ss <| reader := r |>)
  else Ok ss.

(** The stream once its reader has been fed, or [None] when the push id is not
    complete. *)
Definition feed_push (data : bytes) (ss : stream_state) : option stream_state :=
  if negb (headers_complete ss) && bool_decide (body ss = []) then
    match decode_varint data with
    | None => None
    | Some (n, id) =>
        let ss := ss <| send_offset := id |> in
        Some (if 0 <? len data - n then ss <| reader := (feed (reader ss) (dropZ n data)).1 |>
              else ss)
    end
  else Some (ss <| reader := (feed (reader ss) data).1 |>).

Definition pushed_promise (ss : stream_state) : response_promise :=
  {| pr_resp := with_body (resp ss) (resp_body ss); pr_complete := true; pr_error := false;
     pr_is_push := true;
     pr_push_info := {| push_id := send_offset ss; promised_request := request_default |};
     pr_waiter := false |}.

(** [std::make_shared]: the promise at an unused address. *)
Definition new_completed_promise (pr : response_promise) (s : session) : session :=
  let p := fresh (dom (heap_ s)) in
  s <| heap_ ::= insert p pr |> <| completed_promises_ ::= fun ps => ps ++ [p] |>.

Definition handle_push_stream (sid : Z) (data : bytes) (fin : bool) (s : session)
  : outcome session :=
  match mode_ s with
  | server => Ok s
  | client =>
      match streams_ s !! sid with
      | None => Ok s
      | Some ss =>
          match feed_push data ss with
          | None => Ok s
          | Some ss =>
              ss ← push_frames (qpack_decoder_ s) ss;
              if fin && headers_complete ss then
                Ok (new_completed_promise (pushed_promise ss)
                      (update_stream sid (fun _ => ss <| resp := moved_from (resp ss) |>
                                                      <| resp_body := [] |>) s))
              else Ok (update_stream sid (fun _ => ss) s)
          end
      end
  end.

Definition control_frame (s : session) (f : frame) : outcome session :=
  if type f =? frame_type.SETTINGS then Ok (handle_settings (payload f) s)
  else if type f =? frame_type.PUSH_PROMISE then handle_push_promise (payload f) s
  else Ok s.

(** A handler as the loop over a reader's frames runs it. *)
Definition processing (handle : session -> frame -> outcome session)
    (s : outcome session) (f : frame) : outcome session := s ← s; handle s f.

(** What a unidirectional stream carries after its type. *)
Definition uni_payload (sid : Z) (stream_type : Z) (data : bytes) (fin : bool) (s : session)
  : outcome session :=
  if stream_type =? stream_type.CONTROL then
    (drive (processing control_frame) frame_reader_init
       (Ok (update_stream sid (fun ss => ss <| control_stream := true |>) s)) data).2
  else if stream_type =? stream_type.PUSH then handle_push_stream sid data fin s
  else if stream_type =? stream_type.QPACK_ENCODER then
    let s := update_stream sid (fun ss => ss <| qpack_encoder_stream := true |>) s in
    d ← process_encoder_instructions (qpack_decoder_ s) data;
    Ok (s <| qpack_decoder_ := d |>)
  else if stream_type =? stream_type.QPACK_DECODER then
    Ok (update_stream sid (fun ss => ss <| qpack_decoder_stream := true |>) s)
  else Ok s.

(** [cb_recv_stream_data] on a unidirectional stream: the bytes join those the
    stream has carried so far, and the whole of them is processed. *)
Definition recv_uni (sid : Z) (data : bytes) (fin : bool) (s : session) : outcome session :=
  let s := update_stream sid (fun ss => ss <| stream_id := sid |>) (touch_stream sid s) in
  let buf := default [] (uni_stream_buf_ s !! sid) ++ data in
  let s := s <| uni_stream_buf_ ::= insert sid buf |> in
  match decode_varint buf with
  | None => Ok s
  | Some (consumed, stream_type) => uni_payload sid stream_type (dropZ consumed buf) fin s
  end.

(** ** Request streams *)

Definition request_frame (sid : Z) (s : session) (f : frame) : outcome session :=
  if type f =? frame_type.HEADERS then handle_request_headers sid (payload f) s
  else if type f =? frame_type.DATA then Ok (handle_request_data sid (payload f) s)
  else Ok s.

Definition opened (ss : stream_state) : stream_state :=
  ss <| sstate ::= fun st => match st with idle => open | st => st end |>.

(** The end of a request stream. *)
Definition stream_finished (sid : Z) (s : session) : session :=
  let s := update_stream sid (fun ss => ss <| end_stream := true |>) s in
  match streams_ s !! sid, mode_ s with
  | Some ss, server => if headers_complete ss then dispatch_request sid s else s
  | Some ss, client =>
      if resp_headers_complete ss then complete_promise sid http3_response s else s
  | None, _ => s
  end.

Definition recv_bidi (sid : Z) (data : bytes) (fin : bool) (s : session) : outcome session :=
  let s := update_stream sid (fun ss => opened (ss <| stream_id := sid |>)) (touch_stream sid s) in
  match streams_ s !! sid with
  | None => Ok s
  | Some ss =>
      let '(r, s) := drive (processing (request_frame sid)) (reader ss) (Ok s) data in
      s ← s;
      let s := update_stream sid (fun ss => ss <| reader := r |>) s in
      Ok (if fin then stream_finished sid s else s)
  end.

Definition recv_stream_data (sid : Z) (data : bytes) (fin : bool) (s : session)
  : outcome session :=
  if negb (Z.land sid 2 =? 0) then recv_uni sid data fin s else recv_bidi sid data fin s.

(** ** The other callbacks *)

Definition stream_open (sid : Z) (s : session) : session :=
  update_stream sid (fun ss => ss <| stream_id := sid |>) (touch_stream sid s).

(** The promise of a request stream that closes: the headers of the response
    stay in the stream. *)
Definition abandon_promise (ss : stream_state) (s : session) : session :=
  match mode_ s, promise ss with
  | client, Some p =>
      match heap_ s !! p with
      | Some pr =>
          if pr_complete pr then s else
          settle p (fun pr =>
            if resp_headers_complete ss then
              pr <| pr_resp := http3_response (with_body (pr_resp pr) (resp_body ss)) |>
            else pr <| pr_error := true |>) s
      | None => s
      end
  | _, _ => s
  end.

Definition stream_close (sid : Z) (s : session) : session :=
  match streams_ s !! sid with
  | None => s
  | Some ss => update_stream sid (fun ss => ss <| sstate := closed |>) (abandon_promise ss s)
  end.

Definition handshake_completed (s : session) : session :=
  let s := open_control_streams (s <| handshake_done_ := true |>) in
  match mode_ s with
  | client => if has_pending_request_ s then submit_queued_request s else s
  | server => s
  end.

Definition run_event (s : session) (e : quic_event) : outcome session :=
  match e with
  | HandshakeCompleted => Ok (handshake_completed s)
  | StreamOpened sid => Ok (stream_open sid s)
  | StreamData sid data fin => recv_stream_data sid data fin s
  | StreamClosed sid => Ok (stream_close sid s)
  end.

Fixpoint run_events (s : session) (es : list quic_event) : outcome session :=
  match es with
  | [] => Ok s
  | e :: es => s ← run_event s e; run_events s es
  end.

(** ** Packets *)

Record long_header := { lh_version : Z; lh_dcid : bytes; lh_scid : bytes }.

Definition version_of (data : bytes) : Z :=
  Z.lor (Z.lor (Z.lor (Z.shiftl (u8 (byte_at data 1)) 24) (Z.shiftl (u8 (byte_at data 2)) 16))
               (Z.shiftl (u8 (byte_at data 3)) 8)) (u8 (byte_at data 4)).

Definition is_long (data : bytes) : bool := negb (Z.land (u8 (byte_at data 0)) 0x80 =? 0).

(** One connection id at an offset as [feed_packet] reads it: a length that is
    missing or too large counts as 0. *)
Definition lenient_cid (data : bytes) (offset : Z) : bytes * Z :=
  let '(n, offset) :=
    if offset <? len data then (u8 (byte_at data offset), offset + 1) else (0, offset) in
  let n := if len data <? offset + n then 0 else n in
  (takeZ n (dropZ offset data), offset + n).

Definition lenient_header (data : bytes) : long_header :=
  let '(dcid, offset) := lenient_cid data 5 in
  let '(scid, _) := lenient_cid data offset in
  {| lh_version := version_of data; lh_dcid := dcid; lh_scid := scid |}.

(** The id and the offset after it, as [init_server_from_packet] reads it. *)
Definition strict_cid (data : bytes) (offset : Z) : option (bytes * Z) :=
  if len data <=? offset then None else
  let n := u8 (byte_at data offset) in
  if (len data <? offset + 1 + n) || (max_cidlen <? n) then None
  else Some (takeZ n (dropZ (offset + 1) data), offset + 1 + n).

Definition parse_long_header (data : bytes) : option long_header :=
  if len data <? 5 then None else
  if negb (is_long data) then None else
  match strict_cid data 5 with
  | None => None
  | Some (dcid, offset) =>
      match strict_cid data offset with
      | None => None
      | Some (scid, _) =>
          Some {| lh_version := version_of data; lh_dcid := dcid; lh_scid := scid |}
      end
  end.

(** Whether the session has a connection afterwards. *)
Definition init_server_from_packet (data : bytes) (s : session) : bool * session :=
  match conn_ s, mode_ s with
  | Some _, _ => (true, s)
  | None, client => (false, s)
  | None, server =>
      match parse_long_header data with
      | None => (false, s)
      | Some h =>
          match server_new (lh_version h) (lh_dcid h) (lh_scid h) with
          | Some q => (true, s <| conn_ := Some q |>)
          | None => (false, s)
          end
      end
  end.

Definition feed_packet (data : bytes) (s : session) : outcome (Z * session) :=
  match alive_ s, conn_ s with
  | true, Some q =>
      let '(es, rv, q) := read_pkt q data in
      s ← run_events (s <| conn_ := Some q |>) es;
      match rv with
      | ReadOk => Ok (len data, (write_packets s).2)
      | ReadRetry =>
          let s :=
            match conn_ s with
            | Some q =>
                if (5 <=? len data) && is_long data then
                  let h := lenient_header data in
                  match retry_packet q (lh_version h) (lh_dcid h) (lh_scid h) with
                  | Some p => s <| output_pkts_ ::= fun ps => ps ++ [p] |>
                  | None => s
                  end
                else s
            | None => s
            end in
          Ok (len data, s <| alive_ := false |>)
      | ReadFailed => Ok (-1, s <| alive_ := false |>)
      end
  | _, _ => Ok (-1, s)
  end.

(** The packets the session has been fed, one after another. *)
Fixpoint feed_packets (s : session) (packets : list bytes) : outcome session :=
  match packets with
  | [] => Ok s
  | p :: ps => r ← feed_packet p s; feed_packets r.2 ps
  end.

Definition handle_expiry (s : session) : session :=
  match conn_ s with
  | None => s
  | Some q =>
      let '(ok, q) := handle_conn_expiry q in
      let s := s <| conn_ := Some q |> in
      (write_packets (if ok : bool then s else s <| alive_ := false |>)).2
  end.

(** Milliseconds until the timer, at [now] nanoseconds; -1 without one. *)
Definition get_expiry (now : Z) (s : session) : Z :=
  match conn_ s with
  | None => -1
  | Some q =>
      if conn_expiry q =? 2 ^ 64 - 1 then -1
      else if conn_expiry q <=? now then 0
      else (conn_expiry q - now) / 1000000
  end.

(** ** Output and the rest of the interface *)

Definition get_pending_output (s : session) : bytes * session :=
  (concat (output_pkts_ s), s <| output_pkts_ := [] |>).

Definition get_pending_packets (s : session) : list bytes * session :=
  (output_pkts_ s, s <| output_pkts_ := [] |>).

(** [flush]: [fn] on a datagram gives the count it returns; every call that does
    not end the loop takes at least one byte. *)
Section Flush.
Context {W : Type} (fn : W -> bytes -> Z * W).

Fixpoint send_all (fuel : nat) (w : W) (data : bytes) : bool * W :=
  match fuel with
  | O => (true, w)
  | S fuel =>
      if bool_decide (data = []) then (true, w) else
      let '(n, w) := fn w data in
      if n <=? 0 then (false, w) else send_all fuel w (dropZ n data)
  end.

Fixpoint flush_packets (w : W) (pkts : list bytes) : bool * W :=
  match pkts with
  | [] => (true, w)
  | data :: pkts =>
      match send_all (length data) w data with
      | (true, w) => flush_packets w pkts
      | (false, w) => (false, w)
      end
  end.

Definition flush (w : W) (s : session) : bool * W * session :=
  let '(pkts, s) := get_pending_packets s in (flush_packets w pkts, s).
End Flush.

Definition take_completed_promises (s : session) : list nat * session :=
  (completed_promises_ s, s <| completed_promises_ := [] |>).

Definition is_alive (s : session) : bool := alive_ s.
Definition handshake_complete (s : session) : bool := handshake_done_ s.

Definition submit_push (promised : request) (r : response) (sid : Z) (s : session)
  : Z * session := do_submit_push promised r sid s.

Definition set_request_handler (h : request -> response) (s : session) : session :=
  s <| hooks_ ::= fun hs => {| request_handler_ := Some h; push_provider_ := push_provider_ hs;
                               push_handler_ := push_handler_ hs |} |>.

Definition set_push_provider (p : request -> list (request * response)) (s : session) : session :=
  s <| hooks_ ::= fun hs => {| request_handler_ := request_handler_ hs;
                               push_provider_ := Some p; push_handler_ := push_handler_ hs |} |>.

Definition set_push_handler (s : session) : session :=
  s <| hooks_ ::= fun hs => {| request_handler_ := request_handler_ hs;
                               push_provider_ := push_provider_ hs; push_handler_ := true |} |>.

End Session.
Arguments session : clear implicits.
