(* ===== verification/H2Session.v ===== *)
(** * The HTTP/2 session (src/src/http/http2_session.cpp,
      src/include/async_net/http/http2_session.hpp)

    The state of [http2_session::impl], one definition per handler of a frame
    type and per operation of the public interface, and [feed], which drives the
    frame reader.  Header compression is any [HeaderCodec].  The functions the
    user installs are fields of the state: what they answer, and the calls of
    the session they make before they return ([api_call]); each time one is
    called, and each time a waiting coroutine is resumed, the session records an
    [effect].  Response promises are shared objects: they live in a heap. *)
From S2P Require Import Prelude Framing H2Frame HeaderTable CppString HttpTypes.
From stdpp Require Import options.

(** ** Callbacks *)

(** Calls of the session that a callback makes.  A data callback is a closure: it
    is given the stream, the data and the end-of-stream flag, changes what it has
    captured, and makes calls of the session, unless it fails. *)
Inductive api_call :=
| SubmitResponse (sid : Z) (r : response)
| SubmitResponseHeaders (sid : Z) (r : response)
| SubmitData (sid : Z) (data : bytes) (end_stream : bool)
| SubmitTrailers (sid : Z) (trailers : headers)
| SubmitPush (parent : Z) (req : request) (r : response)
| SetDataCallback (sid : Z) (cb : data_callback)
with data_callback :=
| Closure (S : Type) (captured : S)
    (call : S -> Z -> bytes -> bool -> outcome (S * list api_call)).
Arguments Closure {S} captured call.

(** The handlers set on a session, [None] when empty. *)
Record handlers := {
  request_handler_ : option (request -> outcome response);
  streaming_request_handler_ : option (Z -> request -> outcome (bool * list api_call));
  request_start_handler_ : option (Z -> request -> bool -> outcome (bool * list api_call));
  push_provider_ : option (request -> list (request * response));
  push_handler_ : bool
}.

Definition no_handlers : handlers :=
  {| request_handler_ := None; streaming_request_handler_ := None;
     request_start_handler_ := None; push_provider_ := None; push_handler_ := false |}.

Record push_promise_info := { promised_stream_id : Z; promised_request : request }.

Inductive effect :=
| RequestStarted (sid : Z) (req : request) (end_stream : bool)
| StreamingRequest (sid : Z) (req : request)
| Requested (req : request)
| DataDelivered (sid : Z) (data : bytes) (end_stream : bool)
| PushPromised (info : push_promise_info)
| Resumed (p : nat).

(** ** State *)

Record response_promise := {
  pr_resp : response;
  pr_complete : bool;
  pr_error : bool;
  pr_is_push : bool;
  pr_push_info : option push_promise_info;
  pr_waiter : bool
}.

#[export] Instance promise_eta : Settable response_promise := fun p =>
  Build_response_promise (pr_resp p) (pr_complete p) (pr_error p) (pr_is_push p)
    (pr_push_info p) (pr_waiter p).

Definition new_promise : response_promise :=
  {| pr_resp := response_default; pr_complete := false; pr_error := false;
     pr_is_push := false; pr_push_info := None; pr_waiter := false |}.

Inductive st := idle | open | half_closed_local | half_closed_remote | closed.

Record stream_state := {
  stream_id : Z;
  state : st;
  req : request;
  resp : response;
  body : bytes;
  headers_complete : bool;
  end_stream : bool;
  send_window : Z;
  recv_window : Z;
  promise : option nat;
  data_cb : option data_callback;
  streaming_handled : bool;
  pending_header_block : bytes
}.

#[export] Instance stream_eta : Settable stream_state := fun ss =>
  Build_stream_state (stream_id ss) (state ss) (req ss) (resp ss) (body ss)
    (headers_complete ss) (end_stream ss) (send_window ss) (recv_window ss) (promise ss)
    (data_cb ss) (streaming_handled ss) (pending_header_block ss).

Definition new_stream : stream_state :=
  {| stream_id := 0; state := idle; req := request_default; resp := response_default;
     body := []; headers_complete := false; end_stream := false;
     send_window := DEFAULT_WINDOW_SIZE; recv_window := DEFAULT_WINDOW_SIZE;
     promise := None; data_cb := None; streaming_handled := false;
     pending_header_block := [] |}.

Inductive mode := server | client.

Section Session.
Context `{HC : HeaderCodec E D}.

Record session := mk_session {
  mode_ : mode;
  alive_ : bool;
  preface_received_ : bool;
  flushing_ : bool;
  output_buf_ : bytes;
  encoder_ : E;
  decoder_ : D;
  streams_ : gmap Z stream_state;
  next_stream_id_ : Z;
  last_client_stream_ : Z;
  conn_send_window_ : Z;
  conn_recv_window_ : Z;
  peer_max_frame_size_ : Z;
  peer_initial_window_size_ : Z;
  hooks_ : handlers;
  completed_promises_ : list nat;
  continuation_stream_ : Z;
  peer_enable_push_ : bool;
  next_push_stream_id_ : Z;
  heap_ : gmap nat response_promise;
  effects_ : list effect
}.

#[export] Instance session_eta : Settable session := fun s =>
  mk_session (mode_ s) (alive_ s) (preface_received_ s) (flushing_ s) (output_buf_ s)
    (encoder_ s) (decoder_ s) (streams_ s) (next_stream_id_ s) (last_client_stream_ s)
    (conn_send_window_ s) (conn_recv_window_ s) (peer_max_frame_size_ s)
    (peer_initial_window_size_ s) (hooks_ s) (completed_promises_ s)
    (continuation_stream_ s) (peer_enable_push_ s) (next_push_stream_id_ s) (heap_ s)
    (effects_ s).

Implicit Types (s : session) (ss : stream_state).

Definition enqueue (data : bytes) (s : session) : session :=
  s <| output_buf_ ::= fun out => out ++ data |>.

Definition effect_of (e : effect) (s : session) : session :=
  s <| effects_ ::= fun es => es ++ [e] |>.

Definition update_stream (sid : Z) (f : stream_state -> stream_state) (s : session) : session :=
  s <| streams_ ::= alter f sid |>.

(** [streams_[sid]]: a new stream when there is none. *)
Definition touch_stream (sid : Z) (s : session) : session :=
  match streams_ s !! sid with
  | Some _ => s
  | None => s <| streams_ ::= insert sid new_stream |>
  end.

Definition update_promise (p : nat) (f : response_promise -> response_promise) (s : session)
  : session := s <| heap_ ::= alter f p |>.

(** [impl(mode m)], with the codec objects and the heap it starts with. *)
Definition new_session (m : mode) (e : E) (d : D) (heap : gmap nat response_promise) : session :=
  enqueue
    (build_settings_frame
       [{| se_id := setting_id.MAX_CONCURRENT_STREAMS; se_value := 100 |};
        {| se_id := setting_id.INITIAL_WINDOW_SIZE; se_value := 65535 |};
        {| se_id := setting_id.MAX_HEADER_LIST_SIZE; se_value := 8192 |};
        {| se_id := setting_id.ENABLE_PUSH; se_value := 1 |}] false)
    {| mode_ := m; alive_ := true; preface_received_ := false; flushing_ := false;
       output_buf_ := []; encoder_ := e; decoder_ := d; streams_ := ∅;
       next_stream_id_ := match m with server => 2 | client => 1 end;
       last_client_stream_ := 0; conn_send_window_ := DEFAULT_WINDOW_SIZE;
       conn_recv_window_ := DEFAULT_WINDOW_SIZE;
       peer_max_frame_size_ := DEFAULT_MAX_FRAME_SIZE;
       peer_initial_window_size_ := DEFAULT_WINDOW_SIZE; hooks_ := no_handlers;
       completed_promises_ := []; continuation_stream_ := 0; peer_enable_push_ := true;
       next_push_stream_id_ := 2; heap_ := heap; effects_ := [] |}.

Definition goaway (ec : Z) (debug : bytes) (s : session) : session :=
  (enqueue (build_goaway (last_client_stream_ s) ec debug) s) <| alive_ := false |>.

(** ** Sending *)

(** The loop of [build_headers_frame] on what is left of the block; a
    CONTINUATION carries at least a byte, so [length block] units of fuel are
    enough. *)
Fixpoint continuation_frames (fuel : nat) (max stream_id : Z) (block : bytes) : bytes :=
  match fuel with
  | O => []
  | S fuel =>
      if len block =? 0 then [] else
      let chunk := takeZ max block in
      let block := dropZ max block in
      build_frame frame_type.CONTINUATION
        (if len block =? 0 then flag.END_HEADERS else 0) stream_id chunk ++
      continuation_frames fuel max stream_id block
  end.

Definition build_headers_frame (stream_id flags : Z) (hdrs : list header) (s : session)
  : bytes * session :=
  let '(block, encoder) := hc_encode (encoder_ s) hdrs in
  let s := s <| encoder_ := encoder |> in
  let max := peer_max_frame_size_ s in
  if len block <=? max then
    (build_frame frame_type.HEADERS (Z.lor flags flag.END_HEADERS) stream_id block, s)
  else
    (build_frame frame_type.HEADERS flags stream_id (takeZ max block) ++
     continuation_frames (length block) max stream_id (dropZ max block), s).

(** The loop of [build_data_frames] and [do_submit_data]. *)
Fixpoint data_frames (fuel : nat) (max stream_id : Z) (end_stream : bool) (data : bytes) : bytes :=
  match fuel with
  | O => []
  | S fuel =>
      if len data =? 0 then [] else
      let chunk := takeZ max data in
      let data := dropZ max data in
      build_frame frame_type.DATA
        (if end_stream && (len data =? 0) then flag.END_STREAM else 0) stream_id chunk ++
      data_frames fuel max stream_id end_stream data
  end.

Definition build_data_frames (stream_id : Z) (body_data : bytes) (no_end_stream : bool)
    (s : session) : bytes :=
  data_frames (length body_data) (peer_max_frame_size_ s) stream_id (negb no_end_stream)
    body_data ++
  if (len body_data =? 0) && negb no_end_stream then
    build_frame frame_type.DATA flag.END_STREAM stream_id []
  else [].

Definition to_lower_header (hdr : bytes) : bytes := to_lower hdr.

(** The header fields of a request. *)
Definition request_headers (req : request) : list header :=
  [(str ":method", method_to_string (rq_method req));
   (str ":path", if bool_decide (rq_path req = []) then str "/" else rq_path req);
   (str ":scheme", str "https");
   (str ":authority", default (str "localhost") (headers_get (rq_hdrs req) (str "Host")))] ++
  omap (fun kv : header =>
          let lk := to_lower_header kv.1 in
          if bool_decide (lk = str "host") || bool_decide (lk = str "connection") then None
          else Some (lk, kv.2)) (rq_hdrs req).

(** The fields of a response that both ways to send it share. *)
Definition other_headers (r : response) : list header :=
  omap (fun kv : header =>
          let lk := to_lower_header kv.1 in
          if bool_decide (lk = str "content-type") || bool_decide (lk = str "content-length") ||
             bool_decide (lk = str "connection") || bool_decide (lk = str "transfer-encoding")
          then None else Some (lk, kv.2)) (rs_hdrs r).

Definition status_headers (r : response) : list header :=
  (str ":status", to_string (rs_status r)) ::
  match headers_get (rs_hdrs r) (str "Content-Type") with
  | Some ct => [(str "content-type", ct)]
  | None => []
  end.

Definition response_headers (r : response) : list header :=
  status_headers r ++
  (if bool_decide (rs_bd r = []) then []
   else [(str "content-length", to_string (len (rs_bd r)))]) ++
  other_headers r.

Definition trailer_headers (trailers : headers) : list header :=
  map (fun kv : header => (to_lower_header kv.1, kv.2)) trailers.

Definition close_stream (sid : Z) (s : session) : session :=
  update_stream sid (fun ss => ss <| state := closed |>) s.

Definition do_submit_response (stream_id : Z) (r : response) (s : session) : session :=
  let has_body := negb (bool_decide (rs_bd r = [])) in
  let has_trailers := negb (bool_decide (rs_trailers r = [])) in
  let flags := if has_body || has_trailers then 0 else flag.END_STREAM in
  let '(wire, s) := build_headers_frame stream_id flags (response_headers r) s in
  let s := enqueue wire s in
  let s := if has_body then enqueue (build_data_frames stream_id (rs_bd r) has_trailers s) s
           else s in
  let s := if has_trailers then
             let '(wire, s) := build_headers_frame stream_id flag.END_STREAM
                                 (trailer_headers (rs_trailers r)) s in
             enqueue wire s
           else s in
  close_stream stream_id s.

Definition do_submit_response_headers (stream_id : Z) (r : response) (s : session) : session :=
  let '(wire, s) := build_headers_frame stream_id 0 (status_headers r ++ other_headers r) s in
  enqueue wire s.

Definition do_submit_data (stream_id : Z) (data : bytes) (end_stream : bool) (s : session)
  : session :=
  let wire :=
    if bool_decide (data = []) then
      build_frame frame_type.DATA (if end_stream then flag.END_STREAM else 0) stream_id []
    else data_frames (length data) (peer_max_frame_size_ s) stream_id end_stream data in
  let s := enqueue wire s in
  if end_stream then close_stream stream_id s else s.

Definition do_submit_trailers (stream_id : Z) (trailers : headers) (s : session) : session :=
  let '(wire, s) := build_headers_frame stream_id flag.END_STREAM (trailer_headers trailers) s in
  close_stream stream_id (enqueue wire s).

Definition do_submit_request (r : request) (p : option nat) (no_end_stream : bool) (s : session)
  : outcome (Z * session) :=
  let sid := next_stream_id_ s in
  next ← int_add sid 2;
  let s := touch_stream sid (s <| next_stream_id_ := next |>) in
  let s := update_stream sid
             (fun ss => ss <| stream_id := sid |> <| state := open |> <| promise := p |>) s in
  let has_body := negb (bool_decide (rq_bd r = [])) in
  let flags := if has_body || no_end_stream then 0 else flag.END_STREAM in
  let '(wire, s) := build_headers_frame sid flags (request_headers r) s in
  let s := enqueue wire s in
  let s := if has_body then enqueue (build_data_frames sid (rq_bd r) false s) s else s in
  Ok (sid, s).

Definition do_submit_push (parent_stream_id : Z) (promised_req : request) (push_resp : response)
    (s : session) : outcome (Z * session) :=
  if negb (peer_enable_push_ s) then Ok (-1, s) else
  let promised_sid := next_push_stream_id_ s in
  next ← int_add promised_sid 2;
  let s := s <| next_push_stream_id_ := next |> in
  let '(header_block, encoder) := hc_encode (encoder_ s) (request_headers promised_req) in
  let s := s <| encoder_ := encoder |> in
  let s := enqueue (build_push_promise parent_stream_id promised_sid header_block) s in
  let s := touch_stream promised_sid s in
  let s := update_stream promised_sid
             (fun ss => ss <| stream_id := promised_sid |> <| state := half_closed_local |>) s in
  Ok (promised_sid, do_submit_response promised_sid push_resp s).

Definition set_data_callback (sid : Z) (cb : data_callback) (s : session) : session :=
  update_stream sid (fun ss => ss <| data_cb := Some cb |>) s.

(** ** Running callbacks *)

Definition run_call (c : api_call) (s : session) : outcome session :=
  match c with
  | SubmitResponse sid r => Ok (do_submit_response sid r s)
  | SubmitResponseHeaders sid r => Ok (do_submit_response_headers sid r s)
  | SubmitData sid data end_stream => Ok (do_submit_data sid data end_stream s)
  | SubmitTrailers sid trailers => Ok (do_submit_trailers sid trailers s)
  | SubmitPush parent req r => '(_, s) ← do_submit_push parent req r s; Ok s
  | SetDataCallback sid cb => Ok (set_data_callback sid cb s)
  end.

Fixpoint run_calls (cs : list api_call) (s : session) : outcome session :=
  match cs with
  | [] => Ok s
  | c :: cs => s ← run_call c s; run_calls cs s
  end.

Definition call_data_cb (cb : data_callback) (sid : Z) (data : bytes) (fin : bool) (s : session)
  : outcome session :=
  let s := effect_of (DataDelivered sid data fin) s in
  match cb with
  | Closure captured call =>
      '(captured, calls) ← call captured sid data fin;
      run_calls calls (set_data_callback sid (Closure captured call) s)
  end.

(** ** Completing requests and responses *)

Fixpoint submit_pushes (sid : Z) (pushes : list (request * response)) (s : session)
  : outcome session :=
  match pushes with
  | [] => Ok s
  | (promised, r) :: pushes =>
      '(_, s) ← do_submit_push sid promised r s; submit_pushes sid pushes s
  end.

(** The second half of [dispatch_request]: the handler, and the pushes. *)
Definition run_request_handler (sid : Z) (r : request) (s : session) : outcome session :=
  match request_handler_ (hooks_ s) with
  | None => Ok (do_submit_response sid response_not_found s)
  | Some h =>
      rsp ← h r;
      let s := do_submit_response sid rsp (effect_of (Requested r) s) in
      match push_provider_ (hooks_ s) with
      | Some provider => if peer_enable_push_ s then submit_pushes sid (provider r) s else Ok s
      | None => Ok s
      end
  end.

Definition dispatch_request (sid : Z) (s : session) : outcome session :=
  match streams_ s !! sid with
  | None => Ok s
  | Some ss =>
      let r := {| rq_method := rq_method (req ss); rq_path := rq_path (req ss);
                  rq_query := rq_query (req ss); rq_ver := rq_ver (req ss);
                  rq_hdrs := rq_hdrs (req ss); rq_bd := body ss |} in
      let s := update_stream sid (fun ss => ss <| req := r |> <| body := [] |>) s in
      '(taken, s) ←
        match streaming_request_handler_ (hooks_ s) with
        | None => Ok (false, s)
        | Some h =>
            '(taken, calls) ← h sid r;
            s ← run_calls calls (effect_of (StreamingRequest sid r) s); Ok (taken, s)
        end;
      if taken : bool then Ok s else run_request_handler sid r s
  end.

(** What [std::move] leaves of a response: its containers are empty. *)
Definition moved_from (r : response) : response :=
  {| rs_status := rs_status r; rs_ver := rs_ver r; rs_hdrs := []; rs_bd := [];
     rs_trailers := [] |}.

(** The promise [p] is done: it goes to the completed ones and its waiter, if
    any, is resumed. *)
Definition settle_promise (p : nat) (f : response_promise -> response_promise) (s : session)
  : session :=
  let s := update_promise p f s in
  let s := s <| completed_promises_ ::= fun ps => ps ++ [p] |> in
  match heap_ s !! p with
  | Some pr => if pr_waiter pr then effect_of (Resumed p) s else s
  | None => s
  end.

Definition complete_promise (sid : Z) (s : session) : session :=
  match streams_ s !! sid with
  | None => s
  | Some ss =>
      let r := {| rs_status := rs_status (resp ss); rs_ver := rs_ver (resp ss);
                  rs_hdrs := rs_hdrs (resp ss); rs_bd := body ss;
                  rs_trailers := rs_trailers (resp ss) |} in
      let s := update_stream sid (fun ss => ss <| resp := r |> <| body := [] |>) s in
      match promise ss with
      | None => s
      | Some p =>
          let s := update_stream sid (fun ss => ss <| resp := moved_from r |>) s in
          settle_promise p (fun pr => pr <| pr_resp := r |> <| pr_complete := true |>) s
      end
  end.

(** ** Receiving header blocks *)

(** One field of a request header list. *)
Definition apply_header (r : request) (h : header) : request :=
  let '(name, value) := h in
  let set_hdrs hs := {| rq_method := rq_method r; rq_path := rq_path r; rq_query := rq_query r;
                        rq_ver := rq_ver r; rq_hdrs := hs; rq_bd := rq_bd r |} in
  if bool_decide (name = str ":method") then
    {| rq_method := default (rq_method r) (parse_method value); rq_path := rq_path r;
       rq_query := rq_query r; rq_ver := rq_ver r; rq_hdrs := rq_hdrs r; rq_bd := rq_bd r |}
  else if bool_decide (name = str ":path") then
    let '(path, query) :=
      match find_char value x3f 0 with
      | Some qpos => (substr value 0 qpos, substr_from value (qpos + 1))
      | None => (value, rq_query r)
      end in
    {| rq_method := rq_method r;
       rq_path := if bool_decide (path = []) then str "/" else path;
       rq_query := query; rq_ver := rq_ver r; rq_hdrs := rq_hdrs r; rq_bd := rq_bd r |}
  else if bool_decide (name = str ":scheme") || bool_decide (name = str ":authority") then
    if bool_decide (name = str ":authority")
    then set_hdrs (headers_append (rq_hdrs r) (str "Host") value) else r
  else if negb (bool_decide (byte_at name 0 = x3a)) then
    set_hdrs (headers_append (rq_hdrs r) name value)
  else r.

Definition http2_request (r : request) : request :=
  {| rq_method := rq_method r; rq_path := rq_path r; rq_query := rq_query r;
     rq_ver := HTTP_2; rq_hdrs := rq_hdrs r; rq_bd := rq_bd r |}.

Definition apply_headers (sid : Z) (hdrs : list header) (fin : bool) (s : session)
  : outcome session :=
  let s := update_stream sid
    (fun ss => ss <| headers_complete := true |>
                  <| req := http2_request (foldl apply_header (req ss) hdrs) |>) s in
  let s := if fin then update_stream sid (fun ss => ss <| end_stream := true |>) s else s in
  match request_start_handler_ (hooks_ s), streams_ s !! sid with
  | Some h, Some ss =>
      '(taken, calls) ← h sid (req ss) fin;
      s ← run_calls calls (effect_of (RequestStarted sid (req ss) fin) s);
      if taken : bool then Ok (update_stream sid (fun ss => ss <| streaming_handled := true |>) s)
      else if fin then dispatch_request sid s else Ok s
  | _, _ => if fin then dispatch_request sid s else Ok s
  end.

(** One field of a response header list. *)
Definition apply_response_header (r : response) (h : header) : response :=
  let '(name, value) := h in
  if bool_decide (name = str ":status") then
    {| rs_status := from_chars_value 10 INT_MIN INT_MAX 0 value; rs_ver := rs_ver r;
       rs_hdrs := rs_hdrs r; rs_bd := rs_bd r; rs_trailers := rs_trailers r |}
  else if negb (bool_decide (byte_at name 0 = x3a)) then
    {| rs_status := rs_status r; rs_ver := rs_ver r;
       rs_hdrs := headers_append (rs_hdrs r) name value; rs_bd := rs_bd r;
       rs_trailers := rs_trailers r |}
  else r.

Definition http2_response (r : response) : response :=
  {| rs_status := rs_status r; rs_ver := HTTP_2; rs_hdrs := rs_hdrs r; rs_bd := rs_bd r;
     rs_trailers := rs_trailers r |}.

Definition apply_response_headers (sid : Z) (hdrs : list header) (fin : bool) (s : session)
  : session :=
  let s := update_stream sid
    (fun ss => ss <| headers_complete := true |>
                  <| resp := http2_response (foldl apply_response_header (resp ss) hdrs) |>) s in
  if fin then complete_promise sid (update_stream sid (fun ss => ss <| end_stream := true |>) s)
  else s.

(** [decoder_.decode] and what the session does with the fields. *)
Definition apply_block (sid : Z) (block : bytes) (fin : bool) (s : session) : outcome session :=
  '(hdrs, decoder) ← hc_decode (decoder_ s) block;
  let s := s <| decoder_ := decoder |> in
  match mode_ s with
  | server => apply_headers sid hdrs fin s
  | client => Ok (apply_response_headers sid hdrs fin s)
  end.

(** ** Frame handlers *)

(** Padding of DATA and HEADERS: the error, or the offset of what the frame
    carries and its length. *)
Definition unpad (f : frame) : Z + Z * Z :=
  let payload_len := len (payload f) in
  if has_flag (hdr f) flag.PADDED then
    if payload_len <? 1 then inl error_code.FRAME_SIZE_ERROR else
    let pad_len := u8 (byte_at (payload f) 0) in
    if payload_len <? 1 + pad_len then inl error_code.PROTOCOL_ERROR
    else inr (1, payload_len - (1 + pad_len))
  else inr (0, payload_len).

(** The lazy update of a receive window: the window, and the increment sent. *)
Definition replenish (window : Z) : Z * option Z :=
  if window <? DEFAULT_WINDOW_SIZE / 2 then
    let increment := u32 (DEFAULT_WINDOW_SIZE - window) in (window + increment, Some increment)
  else (window, None).

Definition consume_conn (n : Z) (s : session) : session :=
  let '(w, increment) := replenish (conn_recv_window_ s - n) in
  let s := s <| conn_recv_window_ := w |> in
  match increment with
  | Some i => enqueue (build_window_update 0 i) s
  | None => s
  end.

Definition consume_stream (sid n : Z) (s : session) : session :=
  match streams_ s !! sid with
  | None => s
  | Some ss =>
      let '(w, increment) := replenish (recv_window ss - n) in
      let s := update_stream sid (fun ss => ss <| recv_window := w |>) s in
      match increment with
      | Some i => enqueue (build_window_update sid i) s
      | None => s
      end
  end.

Definition handle_data (f : frame) (s : session) : outcome session :=
  let sid := fh_stream_id (hdr f) in
  if sid =? 0 then Ok (goaway error_code.PROTOCOL_ERROR (str "DATA on stream 0") s) else
  match streams_ s !! sid with
  | None => Ok (enqueue (build_rst_stream sid error_code.STREAM_CLOSED) s)
  | Some ss =>
      match unpad f with
      | inl ec => Ok (goaway ec [] s)
      | inr (offset, payload_len) =>
          let data := takeZ payload_len (dropZ offset (payload f)) in
          let fin := has_flag (hdr f) flag.END_STREAM in
          s ← match data_cb ss with
              | Some cb => call_data_cb cb sid data fin s
              | None => Ok (update_stream sid (fun ss => ss <| body ::= fun b => b ++ data |>) s)
              end;
          let s := consume_stream sid payload_len (consume_conn payload_len s) in
          if fin then
            let s := update_stream sid (fun ss => ss <| end_stream := true |>) s in
            match mode_ s with
            | server =>
                if default false (streaming_handled <$> streams_ s !! sid) then Ok s
                else dispatch_request sid s
            | client => Ok (complete_promise sid s)
            end
          else Ok s
      end
  end.

(** The header block fragment of a HEADERS frame. *)
Definition header_fragment (f : frame) : Z + bytes :=
  match unpad f with
  | inl ec => inl ec
  | inr (offset, payload_len) =>
      if has_flag (hdr f) flag.PRIORITY then
        if payload_len <? 5 then inl error_code.FRAME_SIZE_ERROR
        else inr (takeZ (payload_len - 5) (dropZ (offset + 5) (payload f)))
      else inr (takeZ payload_len (dropZ offset (payload f)))
  end.

(** CONTINUATION frames must follow. *)
Definition begin_continuation (sid : Z) (block : bytes) (fin : bool) (s : session) : session :=
  let s := update_stream sid (fun ss => ss <| pending_header_block := block |>) s in
  let s := s <| continuation_stream_ := sid |> in
  if fin then update_stream sid (fun ss => ss <| end_stream := true |>) s else s.

Definition server_headers (sid : Z) (block : bytes) (end_headers fin : bool) (s : session)
  : outcome session :=
  let create s :=
    let s := touch_stream sid s in
    let s := update_stream sid (fun ss => ss <| stream_id := sid |> <| state := open |>) s in
    let s := s <| last_client_stream_ := Z.max (last_client_stream_ s) sid |> in
    if end_headers then apply_block sid block fin s
    else Ok (begin_continuation sid block fin s) in
  match streams_ s !! sid with
  | Some ss =>
      if streaming_handled ss && fin then
        s ← match data_cb ss with
            | Some cb => call_data_cb cb sid [] true s
            | None => Ok s
            end;
        Ok (update_stream sid (fun ss => ss <| end_stream := true |>) s)
      else create s
  | None => create s
  end.

Definition client_headers (sid : Z) (block : bytes) (end_headers fin : bool) (s : session)
  : outcome session :=
  match streams_ s !! sid with
  | None => Ok s
  | Some ss =>
      match data_cb ss with
      | Some cb =>
          if headers_complete ss && fin then
            s ← call_data_cb cb sid [] true s; apply_block sid block fin s
          else if end_headers then apply_block sid block fin s
          else Ok (begin_continuation sid block fin s)
      | None =>
          if end_headers then apply_block sid block fin s
          else Ok (begin_continuation sid block fin s)
      end
  end.

Definition handle_headers (f : frame) (s : session) : outcome session :=
  let sid := fh_stream_id (hdr f) in
  if sid =? 0 then Ok (goaway error_code.PROTOCOL_ERROR (str "HEADERS on stream 0") s) else
  match header_fragment f with
  | inl ec => Ok (goaway ec [] s)
  | inr block =>
      let end_headers := has_flag (hdr f) flag.END_HEADERS in
      let fin := has_flag (hdr f) flag.END_STREAM in
      match mode_ s with
      | server => server_headers sid block end_headers fin s
      | client => client_headers sid block end_headers fin s
      end
  end.

Definition handle_continuation (f : frame) (s : session) : outcome session :=
  let sid := fh_stream_id (hdr f) in
  match streams_ s !! sid with
  | None => Ok (goaway error_code.PROTOCOL_ERROR (str "CONTINUATION for unknown stream") s)
  | Some ss =>
      let block := pending_header_block ss ++ payload f in
      let s := update_stream sid (fun ss => ss <| pending_header_block := block |>) s in
      if has_flag (hdr f) flag.END_HEADERS then
        let s := s <| continuation_stream_ := 0 |> in
        let s := update_stream sid (fun ss => ss <| pending_header_block := [] |>) s in
        apply_block sid block (end_stream ss) s
      else Ok s
  end.

(** One entry of a SETTINGS frame; [false] is the early return. *)
Definition apply_setting (e : setting_entry) (s : session) : session * bool :=
  let id := se_id e in
  let value := se_value e in
  if id =? setting_id.HEADER_TABLE_SIZE then
    (s <| encoder_ := hc_resize (encoder_ s) value |>, true)
  else if id =? setting_id.INITIAL_WINDOW_SIZE then
    if MAX_WINDOW_SIZE <? value then (goaway error_code.FLOW_CONTROL_ERROR [] s, false)
    else
      let delta := value - peer_initial_window_size_ s in
      let s := s <| streams_ ::= fmap (fun ss => ss <| send_window ::= fun w => w + delta |>) |> in
      (s <| peer_initial_window_size_ := value |>, true)
  else if id =? setting_id.MAX_FRAME_SIZE then
    if (value <? 16384) || (16777215 <? value)
    then (goaway error_code.PROTOCOL_ERROR (str "Invalid MAX_FRAME_SIZE") s, false)
    else (s <| peer_max_frame_size_ := value |>, true)
  else if id =? setting_id.ENABLE_PUSH then
    (s <| peer_enable_push_ := negb (value =? 0) |>, true)
  else (s, true).

Fixpoint apply_settings (es : list setting_entry) (s : session) : session :=
  match es with
  | [] => enqueue (build_settings_frame [] true) s
  | e :: es =>
      let '(s, go) := apply_setting e s in if go : bool then apply_settings es s else s
  end.

Definition handle_settings (f : frame) (s : session) : session :=
  if negb (fh_stream_id (hdr f) =? 0) then
    goaway error_code.PROTOCOL_ERROR (str "SETTINGS on non-zero stream") s
  else if has_flag (hdr f) flag.ACK then s
  else if negb (len (payload f) mod SETTINGS_PARAM_SIZE =? 0) then
    goaway error_code.FRAME_SIZE_ERROR [] s
  else apply_settings (parse_settings (payload f)) s.

Definition handle_ping (f : frame) (s : session) : session :=
  if negb (fh_stream_id (hdr f) =? 0) then
    goaway error_code.PROTOCOL_ERROR (str "PING on non-zero stream") s
  else if negb (len (payload f) =? 8) then goaway error_code.FRAME_SIZE_ERROR [] s
  else if negb (has_flag (hdr f) flag.ACK) then enqueue (build_ping (payload f) true) s
  else s.

Definition handle_window_update (f : frame) (s : session) : session :=
  let sid := fh_stream_id (hdr f) in
  if negb (len (payload f) =? 4) then goaway error_code.FRAME_SIZE_ERROR [] s else
  let increment := parse_window_update (payload f) in
  if increment =? 0 then
    if sid =? 0 then goaway error_code.PROTOCOL_ERROR (str "WINDOW_UPDATE 0 increment") s
    else enqueue (build_rst_stream sid error_code.PROTOCOL_ERROR) s
  else if sid =? 0 then
    let s := s <| conn_send_window_ ::= fun w => w + increment |> in
    if MAX_WINDOW_SIZE <? conn_send_window_ s then goaway error_code.FLOW_CONTROL_ERROR [] s else s
  else
    match streams_ s !! sid with
    | None => s
    | Some ss =>
        let s := update_stream sid (fun ss => ss <| send_window ::= fun w => w + increment |>) s in
        if MAX_WINDOW_SIZE <? send_window ss + increment
        then enqueue (build_rst_stream sid error_code.FLOW_CONTROL_ERROR) s else s
    end.

(** The peer's GOAWAY is only logged. *)
Definition handle_goaway (f : frame) (s : session) : session := s <| alive_ := false |>.

Definition handle_rst_stream (f : frame) (s : session) : session :=
  let sid := fh_stream_id (hdr f) in
  if negb (len (payload f) =? 4) then goaway error_code.FRAME_SIZE_ERROR [] s else
  match streams_ s !! sid with
  | None => s
  | Some ss =>
      let s := match promise ss with
               | Some p => settle_promise p (fun pr => pr <| pr_error := true |>
                                                          <| pr_complete := true |>) s
               | None => s
               end in
      s <| streams_ ::= delete sid |>
  end.

(** The promised request: as [apply_header], but the path is not split. *)
Definition apply_promised_header (r : request) (h : header) : request :=
  if bool_decide (h.1 = str ":path") then
    {| rq_method := rq_method r; rq_path := h.2; rq_query := rq_query r; rq_ver := rq_ver r;
       rq_hdrs := rq_hdrs r; rq_bd := rq_bd r |}
  else apply_header r h.

Definition handle_push_promise (f : frame) (s : session) : outcome session :=
  match mode_ s with
  | server => Ok (goaway error_code.PROTOCOL_ERROR (str "PUSH_PROMISE on server") s)
  | client =>
      let pp := parse_push_promise (payload f) in
      let sid := pp_promised_stream_id pp in
      '(hdrs, decoder) ← hc_decode (decoder_ s) (pp_header_block pp);
      let s := s <| decoder_ := decoder |> in
      let info := {| promised_stream_id := sid;
                     promised_request :=
                       http2_request (foldl apply_promised_header request_default hdrs) |} in
      let p := fresh (dom (heap_ s)) in
      let s := touch_stream sid s in
      let s := update_stream sid
        (fun ss => ss <| stream_id := sid |> <| state := open |> <| promise := Some p |>) s in
      let s := s <| heap_ ::= insert p
        (new_promise <| pr_is_push := true |> <| pr_push_info := Some info |>) |> in
      Ok (if push_handler_ (hooks_ s) then effect_of (PushPromised info) s else s)
  end.

Definition process_frame (f : frame) (s : session) : outcome session :=
  let type := fh_type (hdr f) in
  if negb (continuation_stream_ s =? 0) then
    if negb (type =? frame_type.CONTINUATION) ||
       negb (fh_stream_id (hdr f) =? continuation_stream_ s)
    then Ok (goaway error_code.PROTOCOL_ERROR (str "Expected CONTINUATION") s)
    else handle_continuation f s
  else if type =? frame_type.DATA then handle_data f s
  else if type =? frame_type.HEADERS then handle_headers f s
  else if type =? frame_type.PRIORITY then Ok s
  else if type =? frame_type.RST_STREAM then Ok (handle_rst_stream f s)
  else if type =? frame_type.SETTINGS then Ok (handle_settings f s)
  else if type =? frame_type.PUSH_PROMISE then handle_push_promise f s
  else if type =? frame_type.PING then Ok (handle_ping f s)
  else if type =? frame_type.GOAWAY then Ok (handle_goaway f s)
  else if type =? frame_type.WINDOW_UPDATE then Ok (handle_window_update f s)
  else if type =? frame_type.CONTINUATION then
    Ok (goaway error_code.PROTOCOL_ERROR (str "Unexpected CONTINUATION") s)
  else Ok s.

(** ** [feed], [get_pending_output] *)

(** What the frame pump runs: a handler that fails ends it. *)
Definition pump_process (m : outcome session) (f : frame) : outcome session :=
  s ← m; process_frame f s.

Definition pump_alive (m : outcome session) : bool :=
  match m with Ok s => alive_ s | _ => false end.

Definition feed (r : frame_reader) (s : session) (data : bytes)
  : outcome (frame_reader * session * Z) :=
  if negb (alive_ s) then Ok (r, s, -1) else
  let s := match mode_ s with server => s <| preface_received_ := true |> | client => s end in
  let '(r, m, consumed) := pump pump_process pump_alive r (Ok s) data in
  s ← m; Ok (r, s, consumed).

(** Successive reads from the transport. *)
Fixpoint feed_list (r : frame_reader) (s : session) (chunks : list bytes)
  : outcome (frame_reader * session) :=
  match chunks with
  | [] => Ok (r, s)
  | c :: chunks => '(r, s, _) ← feed r s c; feed_list r s chunks
  end.

Definition get_pending_output (s : session) : bytes * session :=
  (output_buf_ s, s <| output_buf_ := [] |>).

(** The inner loop of [flush] on one batch of output: [results] are the values
    the send function gives, one per call, [sent] what it has taken. *)
Fixpoint send_all (results : list Z) (data sent : bytes) : bool * bytes * list Z :=
  if len data =? 0 then (true, sent, results) else
  match results with
  | [] => (false, sent, [])
  | n :: results =>
      if n <=? 0 then (false, sent, results)
      else send_all results (dropZ n data) (sent ++ takeZ n data)
  end.

(** [flush] while nothing else uses the session: one batch, and the flag. *)
Definition flush (results : list Z) (s : session) : bool * bytes * session :=
  if flushing_ s then (true, [], s) else
  let '(data, s) := get_pending_output s in
  let '(ok, sent, _) := send_all results data [] in
  (ok, sent, s).

(** ** Public operations *)
Definition set_request_handler (h : request -> outcome response) (s : session) : session :=
  s <| hooks_ := {| request_handler_ := Some h;
                    streaming_request_handler_ := streaming_request_handler_ (hooks_ s);
                    request_start_handler_ := request_start_handler_ (hooks_ s);
                    push_provider_ := push_provider_ (hooks_ s);
                    push_handler_ := push_handler_ (hooks_ s) |} |>.

Definition take_completed_promises (s : session) : list nat * session :=
  (completed_promises_ s, s <| completed_promises_ := [] |>).

End Session.
Arguments session : clear implicits.
