(* ===== verification/Grpc.v ===== *)
(** * gRPC messages and streams (src/include/async_net/grpc/, src/src/grpc/)

    types.hpp and grpc_wire.cpp: status codes, metadata, paths and the
    length-prefixed framing; stream_deframer.hpp; the reader and writer of
    grpc_stream.cpp; the interceptor chain of interceptor.hpp.  Sizes computed
    on [uint32_t] wrap, and a copy past the end of a buffer is undefined.  A
    suspended [read] is a reader with a waiter; resuming it hands it a value. *)
From S2P Require Import Prelude HeaderTable CppString CppMap HttpTypes Framing H2Session.
From stdpp Require Import options.

(** ** types.hpp *)
Module grpc_status.
Definition ok : Z := 0.
Definition cancelled : Z := 1.
Definition unknown : Z := 2.
Definition invalid_argument : Z := 3.
Definition deadline_exceeded : Z := 4.
Definition not_found : Z := 5.
Definition already_exists : Z := 6.
Definition permission_denied : Z := 7.
Definition resource_exhausted : Z := 8.
Definition failed_precondition : Z := 9.
Definition aborted : Z := 10.
Definition out_of_range : Z := 11.
Definition unimplemented : Z := 12.
Definition internal : Z := 13.
Definition unavailable : Z := 14.
Definition data_loss : Z := 15.
Definition unauthenticated : Z := 16.
End grpc_status.

Definition grpc_status_name (code : Z) : bytes :=
  if code =? grpc_status.ok then str "OK"
  else if code =? grpc_status.cancelled then str "CANCELLED"
  else if code =? grpc_status.unknown then str "UNKNOWN"
  else if code =? grpc_status.invalid_argument then str "INVALID_ARGUMENT"
  else if code =? grpc_status.deadline_exceeded then str "DEADLINE_EXCEEDED"
  else if code =? grpc_status.not_found then str "NOT_FOUND"
  else if code =? grpc_status.already_exists then str "ALREADY_EXISTS"
  else if code =? grpc_status.permission_denied then str "PERMISSION_DENIED"
  else if code =? grpc_status.resource_exhausted then str "RESOURCE_EXHAUSTED"
  else if code =? grpc_status.failed_precondition then str "FAILED_PRECONDITION"
  else if code =? grpc_status.aborted then str "ABORTED"
  else if code =? grpc_status.out_of_range then str "OUT_OF_RANGE"
  else if code =? grpc_status.unimplemented then str "UNIMPLEMENTED"
  else if code =? grpc_status.internal then str "INTERNAL"
  else if code =? grpc_status.unavailable then str "UNAVAILABLE"
  else if code =? grpc_status.data_loss then str "DATA_LOSS"
  else if code =? grpc_status.unauthenticated then str "UNAUTHENTICATED"
  else str "UNKNOWN".

Record status := { st_code : Z; st_message : bytes }.

Definition status_ok (s : status) : bool := st_code s =? grpc_status.ok.

(** [std::map<std::string, std::string>] *)
Abbreviation metadata := (list (bytes * bytes)).

(** The headers that [extract_from_headers] leaves out. *)
Definition skipped_header (k : bytes) : bool :=
  bool_decide (k = []) ||
  bool_decide (byte_at k 0 = x3a) || bool_decide (byte_at k 0 = x2d) ||
  bool_decide (k ∈ [str "content-type"; str "te"; str "host"; str "grpc-encoding";
                    str "grpc-status"; str "grpc-message"; str "grpc-accept-encoding";
                    str "user-agent"; str "accept-encoding"]).

Definition extract_from_headers (hdrs : headers) : metadata :=
  foldl (fun md e => if skipped_header e.1 then md else map_set e.1 e.2 md) [] hdrs.

Definition make_path (service method : bytes) : bytes :=
  str "/" ++ service ++ str "/" ++ method.

Definition parse_path (path : bytes) : bytes * bytes :=
  if bool_decide (path = []) || negb (bool_decide (byte_at path 0 = x2f)) then ([], []) else
  match find_char path x2f 1 with
  | None => ([], [])
  | Some slash => (substr path 1 (slash - 1), substr_from path (slash + 1))
  end.

(** The two protocols on this wire: gRPC, with Protocol Buffers, and fRPC, with
    FlatBuffers.  They differ in their content type and in four texts; what they
    rely on is that both content types start alike. *)
Class Flavour := {
  content_type : bytes;
  not_rpc_text : bytes;
  needs_post_text : bytes;
  invalid_frame_text : bytes;
  invalid_response_text : bytes;
  content_type_prefix : starts_with (str "application/grpc") content_type = true
}.

Definition grpc_flavour : Flavour := {|
  content_type := str "application/grpc";
  not_rpc_text := str "Not a gRPC request";
  needs_post_text := str "gRPC requires POST method";
  invalid_frame_text := str "Invalid gRPC frame";
  invalid_response_text := str "Invalid gRPC response frame";
  content_type_prefix := eq_refl
|}.

(** ** grpc_wire.cpp *)

Definition encode_grpc_message (protobuf_data : bytes) : bytes :=
  [x00] ++ be32 (u32 (len protobuf_data)) ++ protobuf_data.

(** [5 + msg_len], an [int] plus a [uint32_t]. *)
Definition frame_len (msg_len : Z) : Z := u32 (5 + msg_len).

(** [nullopt] is [None]; the copy reads [msg_len] bytes from [data + 5]. *)
Definition decode_grpc_message (data : bytes) : outcome (option bytes) :=
  if len data <? 5 then Ok None else
  let msg_len := rd32 data 1 in
  if len data <? frame_len msg_len then Ok None else
  m ← rd_n (dropZ 5 data) msg_len; Ok (Some m).

(** ** stream_deframer.hpp *)

(** [while (buf_.size() >= 5)]: the messages extracted and [buf_].  The copy
    [frame_data] ends at [buf_.begin() + 5 + msg_len], on 64 bits.  Every pass
    erases at least five bytes, or is undefined. *)
Fixpoint deframe_loop (fuel : nat) (buf : bytes) (msgs : list bytes)
  : outcome (list bytes * bytes) :=
  match fuel with
  | O => Timeout
  | S fuel =>
      if 5 <=? len buf then
        let msg_len := rd32 buf 1 in
        if len buf <? frame_len msg_len then Ok (msgs, buf) else
        frame_data ← rd_n buf (5 + msg_len);
        let buf := dropZ (frame_len msg_len) buf in
        proto ← decode_grpc_message frame_data;
        deframe_loop fuel buf (match proto with Some m => msgs ++ [m] | None => msgs end)
      else Ok (msgs, buf)
  end.

Definition deframer_feed (buf data : bytes) : outcome (list bytes * bytes) :=
  let buf := buf ++ data in deframe_loop (S (length buf)) buf [].

(** Successive DATA frames. *)
Fixpoint deframer_feed_list (buf : bytes) (chunks : list bytes)
  : outcome (list bytes * bytes) :=
  match chunks with
  | [] => Ok ([], buf)
  | d :: ds =>
      '(ms, buf) ← deframer_feed buf d;
      '(ms', buf) ← deframer_feed_list buf ds;
      Ok (ms ++ ms', buf)
  end.

(** ** The message reader (grpc_stream.cpp) *)
Record reader := { messages_ : list bytes; done_ : bool; waiter_ : bool }.

Definition reader_new : reader := {| messages_ := []; done_ := false; waiter_ := false |}.

(** What [co_await read()] does: it completes at once, or suspends. *)
Inductive read_result := Ready (m : option bytes) | Suspended.

Definition read (r : reader) : reader * read_result :=
  match messages_ r with
  | m :: ms => ({| messages_ := ms; done_ := done_ r; waiter_ := waiter_ r |}, Ready (Some m))
  | [] =>
      if done_ r then (r, Ready None)
      else ({| messages_ := messages_ r; done_ := done_ r; waiter_ := true |}, Suspended)
  end.

(** [await_resume] *)
Definition await_resume (r : reader) : reader * option bytes :=
  match messages_ r with
  | m :: ms => ({| messages_ := ms; done_ := done_ r; waiter_ := waiter_ r |}, Some m)
  | [] => (r, None)
  end.

(** Clear the waiter and resume it, with what it then receives. *)
Definition resume_waiter (r : reader) : reader * option (option bytes) :=
  if waiter_ r then
    let '(r, m) := await_resume {| messages_ := messages_ r; done_ := done_ r; waiter_ := false |} in
    (r, Some m)
  else (r, None).

Definition push_message (r : reader) (data : bytes) : reader * option (option bytes) :=
  resume_waiter {| messages_ := messages_ r ++ [data]; done_ := done_ r; waiter_ := waiter_ r |}.

Definition reader_finish (r : reader) : reader * option (option bytes) :=
  resume_waiter {| messages_ := messages_ r; done_ := true; waiter_ := waiter_ r |}.

(** ** The message writer *)
Record writer := { session_ : bool; stream_id_ : Z; finished_ : bool }.

Definition writer_new (sid : Z) : writer :=
  {| session_ := true; stream_id_ := sid; finished_ := false |}.

Definition writer_write (w : writer) (message : bytes) : writer * list api_call * bool :=
  if finished_ w || negb (session_ w) then (w, [], false)
  else (w, [SubmitData (stream_id_ w) (encode_grpc_message message) false], true).

Definition writer_finish (w : writer) (code : Z) (msg : bytes) : writer * list api_call :=
  if finished_ w || negb (session_ w) then (w, []) else
  let trailers := headers_set [] (str "grpc-status") (to_string code) in
  let trailers :=
    if bool_decide (msg = []) then trailers
    else headers_set trailers (str "grpc-message") msg in
  ({| session_ := session_ w; stream_id_ := stream_id_ w; finished_ := true |},
   [SubmitTrailers (stream_id_ w) trailers]).

(** What a coroutine does with a writer. *)
Inductive writer_op := Write (m : bytes) | WriterFinish (code : Z) (msg : bytes).

Fixpoint writer_run (w : writer) (ops : list writer_op) : writer * list api_call :=
  match ops with
  | [] => (w, [])
  | Write m :: ops =>
      let '(w, calls, _) := writer_write w m in
      let '(w, calls') := writer_run w ops in (w, calls ++ calls')
  | WriterFinish code msg :: ops =>
      let '(w, calls) := writer_finish w code msg in
      let '(w, calls') := writer_run w ops in (w, calls ++ calls')
  end.

(** ** The interceptor chain (interceptor.hpp) *)
Record call_info := { ci_service : bytes; ci_method : bytes; ci_metadata : metadata }.

Definition full_method (i : call_info) : bytes :=
  str "/" ++ ci_service i ++ str "/" ++ ci_method i.

(** An interceptor run by [task.resume()]: it returns its verdict, throws, or is
    still suspended; either way it may have written the two reference
    arguments. *)
Definition interceptor_fn : Type :=
  call_info -> bytes -> bytes * status -> task bool * (bytes * status).

Fixpoint chain_run (chain : list interceptor_fn) (info : call_info) (request : bytes)
    (out : bytes * status) : outcome (bool * (bytes * status)) :=
  match chain with
  | [] => Ok (true, out)
  | i :: chain =>
      let '(verdict, out) := i info request out in
      match verdict with
      | Returns false => Ok (false, out)
      | Returns true | Suspends _ => chain_run chain info request out
      | Raises what => Throws (RuntimeError what)
      end
  end.

(** ** Lemmas: framing *)

(** Reference: one message off the front of a byte string. *)
Definition parse_message1 (b : bytes) : option (bytes * Z) :=
  if len b <? 5 then None else
  let n := rd32 b 1 in
  if len b <? 5 + n then None else Some (takeZ n (dropZ 5 b), 5 + n).

Lemma rd32_app p q i : 0 <= i -> i + 4 <= len p -> rd32 (p ++ q) i = rd32 p i.
Proof. intros. unfold rd32. rewrite !byte_at_app_l by lia. done. Qed.

Lemma parse_message1_bounds b m n : parse_message1 b = Some (m, n) -> 0 < n <= len b.
Proof.
  unfold parse_message1. pose proof (rd32_range b 1). zcases; [done..|]. intros [= <- <-]. lia.
Qed.

Lemma parse_message1_app b c m n :
  parse_message1 b = Some (m, n) -> parse_message1 (b ++ c) = Some (m, n).
Proof.
  unfold parse_message1. pose proof (rd32_range b 1). rewrite len_app. pose proof (len_nonneg c).
  destruct (Z.ltb_spec (len b) 5); [done|]. rewrite rd32_app by lia.
  destruct (Z.ltb_spec (len b) (5 + rd32 b 1)); [done|]. intros [= <- <-].
  zdec. unfold takeZ, dropZ, len in *.
  rewrite drop_app_le, take_app_le by (rewrite ?length_drop; lia). done.
Qed.

#[export] Instance grpc_framing : Framing bytes := {|
  parse1 := parse_message1;
  parse1_bounds := parse_message1_bounds;
  parse1_app := parse_message1_app
|}.

(** The longest message whose frame length does not wrap. *)
Definition MESSAGE_MAX : Z := 2 ^ 32 - 6.

Lemma frame_len_small n : 0 <= n <= MESSAGE_MAX -> frame_len n = 5 + n.
Proof. unfold frame_len, u32, MESSAGE_MAX. intros. apply Z.mod_small. lia. Qed.

Lemma encode_prefix m :
  len m <= MESSAGE_MAX -> forall c, rd32 (encode_grpc_message m ++ c) 1 = len m.
Proof.
  intros Hm c. unfold encode_grpc_message. rewrite <- !app_assoc. rewrite rd32_shift by blia.
  change (1 - len [x00]) with 0. rewrite rd32_be32. unfold u32, MESSAGE_MAX in *.
  pose proof (len_nonneg m). lia.
Qed.

Lemma len_encode m : len (encode_grpc_message m) = 5 + len m.
Proof. unfold encode_grpc_message. blia. Qed.

Lemma parse_message1_encode m c :
  len m <= MESSAGE_MAX ->
  parse_message1 (encode_grpc_message m ++ c) = Some (m, len (encode_grpc_message m)).
Proof.
  intros Hm. unfold parse_message1. rewrite encode_prefix, len_app, len_encode by done.
  zdec. unfold encode_grpc_message. rewrite app_assoc, <- app_assoc, dropZ_app_len by done.
  by rewrite takeZ_app_len.
Qed.

Lemma parse_all_messages ms tail :
  Forall (fun m => len m <= MESSAGE_MAX) ms -> parse_message1 tail = None ->
  parse_all (concat (map encode_grpc_message ms) ++ tail) = (ms, tail).
Proof.
  intros Hms Ht. induction Hms as [|m ms Hm _ IH]; cbn [map concat app].
  - by apply parse_all_none.
  - rewrite <- app_assoc, (parse_all_cons _ _ m), IH; [done|]. cbn.
    rewrite <- (app_nil_r (encode_grpc_message m)) at 1. by apply parse_message1_encode.
Qed.

(** ** Lemmas: the deframer *)

(** No length field, at the front or after any frame, is large enough to wrap. *)
Fixpoint unwrapped (fuel : nat) (b : bytes) : Prop :=
  match fuel with
  | O => True
  | S fuel =>
      5 <= len b -> rd32 b 1 <= MESSAGE_MAX /\
      (5 + rd32 b 1 <= len b -> unwrapped fuel (dropZ (5 + rd32 b 1) b))
  end.

Lemma deframe_loop_step buf :
  5 <= len buf -> rd32 buf 1 <= MESSAGE_MAX -> 5 + rd32 buf 1 <= len buf ->
  rd_n buf (5 + rd32 buf 1) = Ok (takeZ (5 + rd32 buf 1) buf) /\
  decode_grpc_message (takeZ (5 + rd32 buf 1) buf) =
    Ok (Some (takeZ (rd32 buf 1) (dropZ 5 buf))).
Proof.
  intros H5 Hm Hl. pose proof (rd32_range buf 1) as Hr. set (n := rd32 buf 1) in *.
  unfold rd_n. rewrite (proj2 (Z.leb_le _ _)) by lia. split; [done|].
  unfold decode_grpc_message.
  assert (rd32 (takeZ (5 + n) buf) 1 = n) as ->.
  { unfold n at 2. rewrite <- (takeZ_dropZ (5 + n) buf) at 2.
    symmetry. apply rd32_app; [lia|]. rewrite len_takeZ. lia. }
  rewrite frame_len_small, !len_takeZ by lia.
  rewrite (proj2 (Z.ltb_ge _ 5)), (proj2 (Z.ltb_ge _ (5 + n))) by lia.
  assert (dropZ 5 (takeZ (5 + n) buf) = takeZ n (dropZ 5 buf)) as ->.
  { rewrite takeZ_add by lia. apply dropZ_app_len. rewrite len_takeZ. lia. }
  unfold rd_n. rewrite len_takeZ, len_dropZ, (proj2 (Z.leb_le _ _)) by lia.
  cbn. rewrite takeZ_all; [done|]. rewrite len_takeZ. lia.
Qed.

Lemma deframe_loop_spec fuel buf msgs :
  (length buf < fuel)%nat -> unwrapped fuel buf ->
  deframe_loop fuel buf msgs = Ok (msgs ++ (parse_all buf).1, (parse_all buf).2).
Proof.
  revert buf msgs. induction fuel as [|fuel IH]; intros buf msgs Hf Hu; [lia|].
  cbn [deframe_loop unwrapped] in *. rewrite (parse_all_step buf). cbn [parse1 grpc_framing].
  unfold parse_message1. pose proof (rd32_range buf 1) as Hr.
  destruct (Z.leb_spec 5 (len buf)) as [H5|H5].
  2: { rewrite (proj2 (Z.ltb_lt _ 5)) by lia. cbn. by rewrite app_nil_r. }
  destruct (Hu H5) as [Hm Hnext]. rewrite frame_len_small by lia.
  rewrite (proj2 (Z.ltb_ge _ 5)) by lia.
  destruct (Z.ltb_spec (len buf) (5 + rd32 buf 1)) as [Hl|Hl].
  { cbn. by rewrite app_nil_r. }
  destruct (deframe_loop_step buf H5 Hm Hl) as [-> Hd]. cbn [mbind outcome_bind]. rewrite Hd.
  cbn [mbind outcome_bind]. rewrite IH.
  - destruct (parse_all (dropZ (5 + rd32 buf 1) buf)) as [fs rest]. cbn. by rewrite <- app_assoc.
  - unfold dropZ, len in *. rewrite length_drop. lia.
  - by apply Hnext.
Qed.

Abbreviation wire ms := (concat (map encode_grpc_message ms)).
Abbreviation all_small := (Forall (fun m : bytes => len m <= MESSAGE_MAX)).

(** The front of a wire of messages is some messages and a part of the next. *)
Lemma wire_front ms p q :
  all_small ms -> p ++ q = wire ms ->
  (forall fuel, unwrapped fuel p) /\
  exists ms', ms = (parse_all p).1 ++ ms' /\ (parse_all p).2 ++ q = wire ms'.
Proof.
  intros Hms. revert p. induction Hms as [|m ms Hm Hms IH]; intros p E.
  - apply app_eq_nil in E as [-> ->]. split; [by intros [|fuel]|]. by exists [].
  - cbn [map concat] in E. pose proof (len_encode m) as Hlen.
    assert (Hrd : 5 <= len p -> rd32 p 1 = len m).
    { intros H5. rewrite <- (rd32_app p q) by lia. rewrite E. by apply encode_prefix. }
    destruct (Z.le_gt_cases (len (encode_grpc_message m)) (len p)) as [Hle|Hgt].
    + assert (Hp : p = encode_grpc_message m ++ dropZ (5 + len m) p).
      { rewrite <- (takeZ_dropZ (5 + len m) p) at 1. f_equal.
        transitivity (takeZ (5 + len m) (p ++ q)).
        - unfold takeZ, len in *. by rewrite take_app_le by lia.
        - rewrite E. by apply takeZ_app_len. }
      assert (E' : dropZ (5 + len m) p ++ q = wire ms).
      { rewrite Hp, <- app_assoc in E. by apply app_inv_head in E. }
      destruct (IH _ E') as (Hu & ms' & Ems & Erest). split.
      * intros [|fuel]; [done|]. cbn. intros H5. rewrite Hrd by done. split; [done|].
        intros _. apply Hu.
      * exists ms'. rewrite Hp, (parse_all_cons _ _ m).
        -- cbn [fst snd app]. split; [by rewrite <- Ems|done].
        -- cbn. rewrite <- (app_nil_r (encode_grpc_message m)) at 1. by apply parse_message1_encode.
    + assert (Hnone : parse_message1 p = None).
      { destruct (parse_message1 p) as [[m' n]|] eqn:Ep; [|done].
        pose proof (parse_message1_bounds _ _ _ Ep). apply (parse_message1_app _ q) in Ep.
        rewrite E, parse_message1_encode in Ep by done. injection Ep as <- <-. lia. }
      split.
      * intros [|fuel]; [done|]. cbn. intros H5. rewrite Hrd by done. split; [done|lia].
      * exists (m :: ms). rewrite parse_all_none by done. done.
Qed.

Lemma deframer_feed_list_spec ds buf ms :
  all_small ms -> parse_message1 buf = None -> buf ++ concat ds = wire ms ->
  deframer_feed_list buf ds = Ok (ms, []).
Proof.
  revert buf ms. induction ds as [|d ds IH]; intros buf ms Hms Hb E; cbn [deframer_feed_list concat] in *.
  - rewrite app_nil_r in E. destruct ms as [|m ms]; [by rewrite E|].
    apply Forall_cons in Hms as [Hm _]. cbn [map concat] in E.
    by rewrite E, parse_message1_encode in Hb.
  - rewrite app_assoc in E. destruct (wire_front ms (buf ++ d) (concat ds) Hms E)
      as (Hu & ms' & Ems & Erest).
    unfold deframer_feed. rewrite deframe_loop_spec by (done || lia).
    cbn [mbind outcome_bind app]. rewrite (IH _ ms').
    + cbn [mbind outcome_bind]. by rewrite <- Ems.
    + rewrite Ems in Hms. by apply Forall_app in Hms as [_ ?].
    + exact (parse_all_rest (buf ++ d)).
    + done.
Qed.

Lemma grpc_decode_encode m : len m <= MESSAGE_MAX -> decode_grpc_message (encode_grpc_message m) = Ok (Some m).
Proof.
  intros Hm. pose proof (len_encode m) as Hl.
  pose proof (encode_prefix m Hm []) as Hrd. rewrite app_nil_r in Hrd.
  destruct (deframe_loop_step (encode_grpc_message m)) as [_ Hd];
    rewrite ?Hrd, ?Hl; [blia|done|lia|].
  rewrite Hrd, takeZ_all in Hd by lia. rewrite Hd. unfold encode_grpc_message.
  rewrite app_assoc, dropZ_app_len, takeZ_all by done. done.
Qed.

(** ** Lemmas: the reader *)

(** A single consumer: a suspended reader has nothing to deliver. *)
Definition reader_ok (r : reader) : Prop := waiter_ r = true -> messages_ r = [] /\ done_ r = false.

Inductive reader_op := Read | Push (m : bytes) | Finish.

(** One operation, and what the consumer receives from it. *)
Definition reader_step (r : reader) (op : reader_op) : reader * option (option bytes) :=
  match op with
  | Read =>
      let '(r, res) := read r in
      (r, match res with Ready m => Some m | Suspended => None end)
  | Push m => push_message r m
  | Finish => reader_finish r
  end.

(** A run in which the consumer does not call [read] while it is suspended and
    the producer does not push after [finish]. *)
Inductive reader_run : reader -> list reader_op -> list (option bytes) -> reader -> Prop :=
| run_nil r : reader_run r [] [] r
| run_cons r op ops out r1 outs r2 :
    (op = Read -> waiter_ r = false) -> (forall m, op = Push m -> done_ r = false) ->
    reader_step r op = (r1, out) -> reader_run r1 ops outs r2 ->
    reader_run r (op :: ops) (option_list out ++ outs) r2.

Definition pushed (ops : list reader_op) : list bytes :=
  omap (fun op => match op with Push m => Some m | _ => None end) ops.

Definition delivered (outs : list (option bytes)) : list bytes := omap id outs.

Lemma reader_step_ok r op r1 out :
  reader_ok r -> (op = Read -> waiter_ r = false) -> (forall m, op = Push m -> done_ r = false) ->
  reader_step r op = (r1, out) ->
  reader_ok r1 /\
  messages_ r ++ pushed [op] = delivered (option_list out) ++ messages_ r1 /\
  (out = Some None -> done_ r1 = true /\ messages_ r1 = []) /\
  (done_ r = true -> done_ r1 = true).
Proof.
  unfold reader_ok. destruct r as [ms dn w]. intros Hok Hread Hpush Hstep.
  destruct op as [|m|]; cbn in *.
  - specialize (Hread eq_refl). subst w. unfold read in Hstep; cbn in Hstep.
    destruct ms as [|m ms].
    + destruct dn; injection Hstep as <- <-; cbn; naive_solver.
    + injection Hstep as <- <-; cbn. rewrite app_nil_r. naive_solver.
  - specialize (Hpush m eq_refl). subst dn. unfold push_message, resume_waiter in Hstep. cbn in Hstep.
    destruct w; cbn in Hstep.
    + destruct (Hok eq_refl) as [-> _]. cbn in Hstep. injection Hstep as <- <-. cbn. naive_solver.
    + injection Hstep as <- <-. cbn. naive_solver.
  - unfold reader_finish, resume_waiter in Hstep. cbn in Hstep. rewrite app_nil_r.
    destruct w; cbn in Hstep.
    + destruct (Hok eq_refl) as [-> _]. cbn in Hstep. injection Hstep as <- <-. cbn. naive_solver.
    + injection Hstep as <- <-. cbn. naive_solver.
Qed.

Lemma reader_run_done r ops outs r' :
  reader_run r ops outs r' -> reader_ok r -> done_ r = true -> pushed ops = [].
Proof.
  induction 1 as [r|r op ops out r1 outs r2 Hread Hpush Hstep Hrun IH]; intros Hok Hd; [done|].
  destruct (reader_step_ok r op r1 out Hok Hread Hpush Hstep) as (Hok1 & _ & _ & Hd1).
  destruct op as [|m|]; cbn; [by apply IH; auto| |by apply IH; auto].
  by rewrite (Hpush m eq_refl) in Hd.
Qed.

Lemma reader_run_spec r ops outs r' :
  reader_run r ops outs r' -> reader_ok r ->
  messages_ r ++ pushed ops = delivered outs ++ messages_ r' /\
  (None ∈ outs -> messages_ r' = []).
Proof.
  induction 1 as [r|r op ops out r1 outs r2 Hread Hpush Hstep Hrun IH]; intros Hok.
  - split; [|by intros ?%not_elem_of_nil]. cbn. by rewrite app_nil_r.
  - destruct (reader_step_ok r op r1 out Hok Hread Hpush Hstep) as (Hok1 & Hq & Hnone & _).
    destruct (IH Hok1) as (Hq2 & Hnone2).
    assert (Hp : pushed (op :: ops) = pushed [op] ++ pushed ops).
    { unfold pushed. by rewrite <- omap_app. }
    assert (Hd : delivered (option_list out ++ outs) = delivered (option_list out) ++ delivered outs).
    { apply omap_app. }
    split.
    + rewrite Hp, Hd, app_assoc, Hq, <- !app_assoc. by rewrite Hq2.
    + intros [Hin|Hin]%elem_of_app; [|by apply Hnone2].
      destruct out as [[m|]|]; cbn in Hin;
        [by apply list_elem_of_singleton in Hin| |by apply not_elem_of_nil in Hin].
      destruct (Hnone eq_refl) as [Hdn Hms].
      rewrite Hms, (reader_run_done _ _ _ _ Hrun Hok1 Hdn) in Hq2. cbn in Hq2.
      by destruct (delivered outs), (messages_ r2).
Qed.

(** ** Properties *)

(** GRPC messages cross DATA frames intact: feeding the deframer the bytes
    of any list of messages (each short enough for its 32-bit frame length),
    cut anywhere, extracts exactly these messages in order and leaves its buffer
    empty; a single message decodes to itself. *)
Theorem grpc_messages_survive_chunking (ms : list bytes) (chunks : list bytes) :
  all_small ms -> concat chunks = wire ms ->
  deframer_feed_list [] chunks = Ok (ms, []) /\
  Forall (fun m => decode_grpc_message (encode_grpc_message m) = Ok (Some m)) ms.
Proof.
  intros Hms E. split; [by apply deframer_feed_list_spec|].
  apply Forall_impl with (1 := Hms). apply grpc_decode_encode.
Qed.

Lemma grpc_messages_survive_chunking_witness :
  deframer_feed_list [] (map (fun b => [b]) (wire [str "one"; []; str "three"])) =
  Ok ([str "one"; []; str "three"], []).
Proof.
  apply (grpc_messages_survive_chunking [str "one"; []; str "three"]).
  - repeat constructor; ground.
  - vm_compute. reflexivity.
Defined.

(** A length field in the last five values of [uint32_t] makes [5 + msg_len]
    wrap: the deframer takes the frame for complete and copies 4 GiB from a
    buffer that does not hold them, and so does [decode_grpc_message]. *)
Theorem grpc_length_wraps (k : Z) (rest : bytes) :
  0 <= k < 5 -> len rest < 2 ^ 31 ->
  let data := [x00; xff; xff; xff; b8 (251 + k)] ++ rest in
  deframer_feed [] data = Undefined OutOfBounds /\
  decode_grpc_message data = Undefined OutOfBounds.
Proof.
  intros Hk Hr data.
  assert (Hlen : len data = 5 + len rest) by (unfold data; blia).
  assert (Hrd : rd32 data 1 = 2 ^ 32 - 5 + k).
  { rewrite rd32_val. unfold data. cbn [app]. byte_at_simpl. rewrite u8_b8_small by lia.
    change (u8 xff) with 255. lia. }
  assert (Hfl : frame_len (2 ^ 32 - 5 + k) = k) by (unfold frame_len, u32; lia).
  pose proof (len_nonneg rest).
  split.
  - unfold deframer_feed. cbn [app deframe_loop]. rewrite Hlen, Hrd, Hfl.
    rewrite (proj2 (Z.leb_le 5 _)), (proj2 (Z.ltb_ge _ k)) by lia.
    unfold rd_n. rewrite Hlen, (proj2 (Z.leb_gt _ _)) by lia. done.
  - unfold decode_grpc_message. rewrite Hlen, Hrd, Hfl.
    rewrite (proj2 (Z.ltb_ge _ 5)), (proj2 (Z.ltb_ge _ k)) by lia.
    unfold rd_n. rewrite len_dropZ, Hlen, (proj2 (Z.leb_gt _ _)) by lia. done.
Qed.

Lemma grpc_length_wraps_witness :
  deframer_feed [] [x00; xff; xff; xff; xff; x61] = Undefined OutOfBounds.
Proof. apply (grpc_length_wraps 4 [x61]); ground. Defined.

(** The message reader is a FIFO queue with one consumer: in every run, what
    [read] has returned so far followed by what is still queued is what was
    pushed, in order; [read] reports the end of the stream only when everything
    pushed has been delivered. *)
Theorem reader_fifo (ops : list reader_op) (outs : list (option bytes)) (r : reader) :
  reader_run reader_new ops outs r ->
  delivered outs ++ messages_ r = pushed ops /\
  (None ∈ outs -> delivered outs = pushed ops).
Proof.
  intros Hrun. destruct (reader_run_spec _ _ _ _ Hrun) as [Hq Hnone]; [done|]. cbn [app] in Hq.
  cbn in Hq. split; [done|]. intros Hin. by rewrite Hq, (Hnone Hin), app_nil_r.
Qed.

Lemma reader_fifo_witness :
  delivered [Some (str "a"); Some (str "b"); None] = [str "a"; str "b"].
Proof.
  assert (Hrun : reader_run reader_new [Read; Push (str "a"); Push (str "b"); Finish; Read; Read]
            [Some (str "a"); Some (str "b"); None]
            {| messages_ := []; done_ := true; waiter_ := false |}).
  { eapply (run_cons _ Read _ None); [done|done|reflexivity|].
    eapply (run_cons _ (Push (str "a")) _ (Some (Some (str "a")))); [done|done|reflexivity|].
    eapply (run_cons _ (Push (str "b")) _ None); [done|done|reflexivity|].
    eapply (run_cons _ Finish _ None); [done|done|reflexivity|].
    eapply (run_cons _ Read _ (Some (Some (str "b")))); [done|done|reflexivity|].
    eapply (run_cons _ Read _ (Some None)); [done|done|reflexivity|]. apply run_nil. }
  apply (reader_fifo _ _ _ Hrun). right. right. left.
Defined.

(** ** Lemmas: the writer *)

(** The messages written before the stream is finished. *)
Fixpoint written (ops : list writer_op) : list bytes :=
  match ops with
  | Write m :: ops => m :: written ops
  | WriterFinish _ _ :: _ | [] => []
  end.

Definition call_data (c : api_call) : bytes :=
  match c with SubmitData _ d _ => d | _ => [] end.

Definition is_trailers (c : api_call) : bool :=
  match c with SubmitTrailers _ _ => true | _ => false end.

Definition is_finish (op : writer_op) : bool :=
  match op with WriterFinish _ _ => true | Write _ => false end.

Lemma writer_run_finished w ops : finished_ w = true -> writer_run w ops = (w, []).
Proof.
  intros Hf. induction ops as [|[m|code msg] ops IH]; cbn [writer_run]; [done|..];
    unfold writer_write, writer_finish; rewrite Hf; cbn; by rewrite IH.
Qed.

Lemma writer_run_spec sid ops :
  let calls := (writer_run {| session_ := true; stream_id_ := sid; finished_ := false |} ops).2 in
  concat (map call_data calls) = wire (written ops) /\
  length (filter (fun c => is_trailers c = true) calls) = (if existsb is_finish ops then 1 else 0)%nat.
Proof.
  set (w := {| session_ := true; stream_id_ := sid; finished_ := false |}).
  induction ops as [|[m|code msg] ops IH]; cbn [writer_run]; [done|..].
  - change (writer_write w m) with (w, [SubmitData sid (encode_grpc_message m) false], true).
    cbv iota. destruct (writer_run w ops) as [w' calls]. cbn in *. destruct IH as [-> IH].
    split; [done|]. exact IH.
  - unfold writer_finish. cbn [finished_ session_ w negb orb].
    rewrite writer_run_finished by done. cbn. done.
Qed.

(** What one side writes, the other reads: the DATA of a writer's calls,
    up to its first [finish], cut in any way and fed to a deframer, gives the
    messages written; trailers are sent once, by the first [finish], and
    nothing after them. *)
Theorem grpc_writer_to_deframer (sid : Z) (ops : list writer_op) (chunks : list bytes) :
  let calls := (writer_run {| session_ := true; stream_id_ := sid; finished_ := false |} ops).2 in
  all_small (written ops) ->
  concat chunks = concat (map call_data calls) ->
  deframer_feed_list [] chunks = Ok (written ops, []) /\
  length (filter (fun c => is_trailers c = true) calls) =
    (if existsb is_finish ops then 1 else 0)%nat.
Proof.
  intros calls Hms E. destruct (writer_run_spec sid ops) as [Hd Ht]. split; [|done].
  apply deframer_feed_list_spec; [done..|]. by rewrite E, <- Hd.
Qed.

Lemma grpc_writer_to_deframer_witness :
  deframer_feed_list [] [concat (map call_data
    (writer_run {| session_ := true; stream_id_ := 3; finished_ := false |}
       [Write (str "a"); Write (str "bc"); WriterFinish 0 []; Write (str "late")]).2)] =
  Ok ([str "a"; str "bc"], []).
Proof.
  apply (grpc_writer_to_deframer 3
           [Write (str "a"); Write (str "bc"); WriterFinish 0 []; Write (str "late")]).
  - repeat constructor; ground.
  - vm_compute. reflexivity.
Defined.

(** Paths of calls: [parse_path] inverts [make_path]. *)
Lemma parse_make_path service method :
  x2f ∉ service -> parse_path (make_path service method) = (service, method).
Proof.
  intros Hs. unfold parse_path, make_path. change (str "/") with [x2f]. cbn [app].
  change (byte_at (x2f :: ?l) 0) with x2f. cbn [orb negb].
  rewrite bool_decide_eq_false_2, bool_decide_eq_true_2 by done. cbn [orb negb].
  change (x2f :: service ++ x2f :: method) with ([x2f] ++ service ++ x2f :: method).
  assert (find_char ([x2f] ++ service ++ x2f :: method) x2f 1 = Some (1 + len service)) as ->.
  { unfold find_char. change 1 with (len [x2f]). rewrite find_at.
    by rewrite (find_pat_first x2f [] service method Hs : find_pat [x2f] (service ++ x2f :: method) = _). }
  unfold substr, substr_from. rewrite dropZ_app_len, takeZ_app_len by (done || lia).
  rewrite app_assoc. change (x2f :: method) with ([x2f] ++ method).
  rewrite app_assoc, dropZ_app_len by blia. done.
Qed.
