(* ===== verification/H2SessionFacts.v ===== *)
(** * Correctness of the HTTP/2 session

    Chunking, flow control, the ways a session dies, and the delivery of
    requests and responses, on the definitions of H2Session.v. *)
From S2P Require Import Prelude Framing HeaderTable Hpack H2Frame CppString HttpTypes H2Session.
From stdpp Require Import options.

Section Facts.
Context `{HC : HeaderCodec E D}.
Implicit Types (s : session E D) (ss : stream_state) (f : frame).

(** ** What sending and the callbacks leave alone *)

Definition window_ok (w : Z) : Prop := DEFAULT_WINDOW_SIZE / 2 <= w <= DEFAULT_WINDOW_SIZE.

Definition windows_ok (m : gmap Z stream_state) : Prop :=
  map_Forall (fun _ ss => window_ok (recv_window ss)) m.

Record passive s s' : Prop := {
  pas_alive : alive_ s' = alive_ s;
  pas_mode : mode_ s' = mode_ s;
  pas_preface : preface_received_ s' = preface_received_ s;
  pas_recv : conn_recv_window_ s' = conn_recv_window_ s;
  pas_send : conn_send_window_ s' = conn_send_window_ s;
  pas_max : peer_max_frame_size_ s' = peer_max_frame_size_ s;
  pas_initial : peer_initial_window_size_ s' = peer_initial_window_size_ s;
  pas_encoder : hc_enc_ok (encoder_ s) -> hc_enc_ok (encoder_ s');
  pas_windows : windows_ok (streams_ s) -> windows_ok (streams_ s')
}.

#[local] Instance passive_preorder : PreOrder passive.
Proof.
  split.
  - by split.
  - intros s1 s2 s3 [] []. split; congruence || auto.
Qed.

Lemma windows_alter m sid (g : stream_state -> stream_state) :
  (forall ss, window_ok (recv_window ss) -> window_ok (recv_window (g ss))) ->
  windows_ok m -> windows_ok (alter g sid m).
Proof.
  intros Hg Hm i ss Hi. destruct (decide (i = sid)) as [->|Hne].
  - rewrite lookup_alter_eq in Hi. apply fmap_Some in Hi as (ss' & Hi & ->).
    apply Hg. by apply (Hm sid).
  - rewrite lookup_alter_ne in Hi by done. by apply (Hm i).
Qed.

Lemma windows_insert m sid ss :
  window_ok (recv_window ss) -> windows_ok m -> windows_ok (<[sid := ss]> m).
Proof. intros. by apply map_Forall_insert_2. Qed.

Lemma passive_enqueue data s : passive s (enqueue data s).
Proof. by split. Qed.

Lemma passive_effect e s : passive s (effect_of e s).
Proof. by split. Qed.

Lemma passive_update sid (g : stream_state -> stream_state) s :
  (forall ss, recv_window (g ss) = recv_window ss) -> passive s (update_stream sid g s).
Proof.
  intros Hg. split; cbn; try done. apply windows_alter. intros ss. by rewrite Hg.
Qed.

Lemma passive_touch sid s : passive s (touch_stream sid s).
Proof.
  unfold touch_stream. destruct (streams_ s !! sid); [done|]. split; cbn; try done.
  apply windows_insert. cbn. unfold window_ok, DEFAULT_WINDOW_SIZE. lia.
Qed.

Lemma passive_promise p g s : passive s (update_promise p g s).
Proof. by split. Qed.

Lemma passive_headers sid flags hdrs s :
  passive s (build_headers_frame sid flags hdrs s).2.
Proof.
  unfold build_headers_frame. pose proof (hc_enc_ok_step (encoder_ s) hdrs) as He.
  destruct (hc_encode (encoder_ s) hdrs) as [block e]. by destruct (_ <=? _); split.
Qed.

Create HintDb passive.
#[local] Hint Resolve passive_enqueue passive_effect passive_touch passive_promise
  passive_headers : passive.
#[local] Hint Extern 3 (passive _ (update_stream _ _ _)) => by apply passive_update : passive.
#[local] Hint Extern 4 (passive _ (set_field _ _ _)) => by split : passive.

(** Peel the last operation off the right-hand side. *)
Ltac passive_step :=
  lazymatch goal with
  | |- passive ?s ?s => reflexivity
  | |- passive _ (?g ?a ?b ?c ?s) => transitivity s; [|by eauto with passive]
  | |- passive _ (?g ?a ?b ?s) => transitivity s; [|by eauto with passive]
  | |- passive _ (?g ?a ?s) => transitivity s; [|by eauto with passive]
  end.

Lemma passive_send_headers sid flags hdrs s :
  passive s (let '(wire, s) := build_headers_frame sid flags hdrs s in enqueue wire s).
Proof.
  pose proof (passive_headers sid flags hdrs s) as Hp.
  destruct (build_headers_frame _ _ _ _) as [wire s1]. transitivity s1; [done|].
  apply passive_enqueue.
Qed.

Lemma passive_response sid r s : passive s (do_submit_response sid r s).
Proof.
  unfold do_submit_response, close_stream. set (fl := if _ || _ then _ else _).
  pose proof (passive_headers sid fl (response_headers r) s) as Hp.
  destruct (build_headers_frame _ _ _ _) as [wire s1]. cbn [snd] in Hp.
  passive_step. set (s2 := if negb (bool_decide (rs_bd r = [])) then _ else _).
  assert (H2 : passive s s2).
  { unfold s2. destruct (negb _); repeat passive_step; done. }
  destruct (negb (bool_decide (rs_trailers r = []))); [|done].
  transitivity s2; [done|]. apply passive_send_headers.
Qed.

Lemma passive_response_headers sid r s : passive s (do_submit_response_headers sid r s).
Proof. apply passive_send_headers. Qed.

Lemma passive_close sid s : passive s (close_stream sid s).
Proof. by apply passive_update. Qed.

Lemma passive_data sid data fin s : passive s (do_submit_data sid data fin s).
Proof.
  unfold do_submit_data. destruct fin; [|apply passive_enqueue].
  transitivity (enqueue (if bool_decide (data = []) then build_frame frame_type.DATA flag.END_STREAM sid []
    else data_frames (length data) (peer_max_frame_size_ s) sid true data) s);
    [apply passive_enqueue|apply passive_close].
Qed.

Lemma passive_trailers sid tr s : passive s (do_submit_trailers sid tr s).
Proof.
  unfold do_submit_trailers.
  pose proof (passive_send_headers sid flag.END_STREAM (trailer_headers tr) s) as Hp.
  destruct (build_headers_frame _ _ _ _) as [wire s1]. etransitivity; [exact Hp|apply passive_close].
Qed.

Lemma passive_push parent rq r s n s' :
  do_submit_push parent rq r s = Ok (n, s') -> passive s s'.
Proof.
  unfold do_submit_push. destruct (negb _); [by intros [= <- <-]|].
  intros (next & _ & H)%bind_ok. pose proof (hc_enc_ok_step (encoder_ s) (request_headers rq)) as He.
  cbn [encoder_ set_field] in H. destruct (hc_encode (encoder_ s) (request_headers rq)) as [block e].
  injection H as <- <-. etransitivity; [|apply passive_response]. repeat passive_step.
Qed.

Lemma passive_set_cb sid cb s : passive s (set_data_callback sid cb s).
Proof. by apply passive_update. Qed.

Lemma passive_call c s s' : run_call c s = Ok s' -> passive s s'.
Proof.
  destruct c; cbn.
  - intros [= <-]. apply passive_response.
  - intros [= <-]. apply passive_response_headers.
  - intros [= <-]. apply passive_data.
  - intros [= <-]. apply passive_trailers.
  - intros ([n s1] & H & [= <-])%bind_ok. by eapply passive_push.
  - intros [= <-]. apply passive_set_cb.
Qed.

Lemma passive_calls cs s s' : run_calls cs s = Ok s' -> passive s s'.
Proof.
  revert s. induction cs as [|c cs IH]; intros s; cbn [run_calls].
  - by intros [= <-].
  - intros (s1 & H1 & H2)%bind_ok. transitivity s1; [by eapply passive_call|by apply IH].
Qed.

Lemma passive_data_cb cb sid data fin s s' : call_data_cb cb sid data fin s = Ok s' -> passive s s'.
Proof.
  unfold call_data_cb. destruct cb as [S st call]. intros ([st' calls] & _ & H%passive_calls)%bind_ok.
  etransitivity; [|exact H]. etransitivity; [apply passive_effect|apply passive_set_cb].
Qed.

Lemma passive_pushes sid pushes s s' : submit_pushes sid pushes s = Ok s' -> passive s s'.
Proof.
  revert s. induction pushes as [|[rq r] pushes IH]; intros s; cbn [submit_pushes].
  - by intros [= <-].
  - intros ([n s1] & H1 & H2)%bind_ok. transitivity s1; [by eapply passive_push|by apply IH].
Qed.

Lemma passive_handler sid r s s' : run_request_handler sid r s = Ok s' -> passive s s'.
Proof.
  unfold run_request_handler. destruct (request_handler_ _) as [h|].
  - intros (rsp & _ & H)%bind_ok.
    assert (H3 : passive s (do_submit_response sid rsp (effect_of (Requested r) s))).
    { etransitivity; [apply passive_effect|apply passive_response]. }
    destruct (push_provider_ _) as [pv|]; [|by injection H as <-].
    destruct (peer_enable_push_ _); [|by injection H as <-].
    etransitivity; [exact H3|by eapply passive_pushes].
  - intros [= <-]. apply passive_response.
Qed.

Lemma passive_dispatch sid s s' : dispatch_request sid s = Ok s' -> passive s s'.
Proof.
  unfold dispatch_request. destruct (streams_ s !! sid) as [ss|]; [|by intros [= <-]].
  set (r := Build_request _ _ _ _ _ _). set (s1 := update_stream _ _ _).
  assert (H1 : passive s s1) by by apply passive_update.
  intros ([taken s2] & H2 & H)%bind_ok. transitivity s2.
  - destruct (streaming_request_handler_ _) as [h|]; [|by injection H2 as <- <-].
    apply bind_ok in H2 as ([t calls] & _ & H2). apply bind_ok in H2 as (s3 & H2%passive_calls & [= <- <-]).
    etransitivity; [|exact H2]. etransitivity; [exact H1|apply passive_effect].
  - destruct taken; [by injection H as <-|by eapply passive_handler].
Qed.

Lemma passive_settle p g s : passive s (settle_promise p g s).
Proof.
  unfold settle_promise. set (s1 := (update_promise p g s) <| completed_promises_ ::= _ |>).
  assert (H1 : passive s s1) by by split.
  destruct (heap_ s1 !! p) as [pr|]; [|done]. destruct (pr_waiter pr); [|done].
  etransitivity; [exact H1|apply passive_effect].
Qed.

Lemma passive_complete sid s : passive s (complete_promise sid s).
Proof.
  unfold complete_promise. destruct (streams_ s !! sid) as [ss|]; [|done].
  destruct (promise ss) as [p|]; [|by apply passive_update].
  etransitivity; [|apply passive_settle]. by repeat passive_step.
Qed.

Lemma passive_apply_headers sid hdrs fin s s' : apply_headers sid hdrs fin s = Ok s' -> passive s s'.
Proof.
  unfold apply_headers. set (s1 := update_stream sid (fun ss => ss <| headers_complete := true |>
    <| req := _ |>) s). set (s2 := if fin then _ else s1).
  assert (H2 : passive s s2).
  { transitivity s1; [by apply passive_update|]. unfold s2. destruct fin; [by apply passive_update|done]. }
  assert (Hd : (if fin then dispatch_request sid s2 else Ok s2) = Ok s' -> passive s s').
  { destruct fin; [|by intros [= <-]]. intros H%passive_dispatch. by transitivity s2. }
  destruct (request_start_handler_ _) as [h|]; [|exact Hd].
  destruct (streams_ s2 !! sid) as [ss|]; [|exact Hd].
  intros ([taken calls] & _ & Hh)%bind_ok. apply bind_ok in Hh as (s3 & H3%passive_calls & H).
  assert (H4 : passive s s3).
  { etransitivity; [exact H2|]. etransitivity; [|exact H3]. apply passive_effect. }
  destruct taken; [injection H as <-; transitivity s3; [done|by apply passive_update]|].
  destruct fin; [apply passive_dispatch in H; by transitivity s3|by injection H as <-].
Qed.

Lemma passive_apply_response sid hdrs fin s : passive s (apply_response_headers sid hdrs fin s).
Proof.
  unfold apply_response_headers. destruct fin; [|by apply passive_update].
  etransitivity; [|apply passive_complete]. repeat passive_step.
Qed.

Lemma passive_block sid block fin s s' : apply_block sid block fin s = Ok s' -> passive s s'.
Proof.
  unfold apply_block. intros ([hdrs d] & _ & H)%bind_ok.
  assert (H1 : passive s (s <| decoder_ := d |>)) by by split.
  destruct (mode_ _).
  - apply passive_apply_headers in H. by etransitivity.
  - injection H as <-. etransitivity; [exact H1|apply passive_apply_response].
Qed.

Lemma passive_continuation sid block fin s : passive s (begin_continuation sid block fin s).
Proof.
  unfold begin_continuation. set (s1 := (update_stream _ _ s) <| continuation_stream_ := _ |>).
  assert (H1 : passive s s1).
  { transitivity (update_stream sid (fun ss => ss <| pending_header_block := block |>) s);
      [by apply passive_update|by split]. }
  destruct fin; [|done]. etransitivity; [exact H1|by apply passive_update].
Qed.

Lemma passive_server_headers sid block eh fin s s' :
  server_headers sid block eh fin s = Ok s' -> passive s s'.
Proof.
  unfold server_headers. set (s1 := touch_stream sid s).
  set (s2 := update_stream sid (fun ss => ss <| stream_id := sid |> <| state := open |>) s1).
  set (s3 := s2 <| last_client_stream_ := _ |>). assert (H3 : passive s s3) by (unfold s3, s2, s1; repeat passive_step).
  assert (Hc : (if eh then apply_block sid block fin s3 else Ok (begin_continuation sid block fin s3))
               = Ok s' -> passive s s').
  { destruct eh; [intros H%passive_block; by transitivity s3|intros [= <-]].
    etransitivity; [exact H3|apply passive_continuation]. }
  destruct (streams_ s !! sid) as [ss|]; [|exact Hc]. destruct (_ && fin); [|exact Hc].
  intros (s4 & H4 & [= <-])%bind_ok. transitivity s4; [|by apply passive_update].
  destruct (data_cb ss); [by apply passive_data_cb in H4|by injection H4 as <-].
Qed.

Lemma passive_client_headers sid block eh fin s s' :
  client_headers sid block eh fin s = Ok s' -> passive s s'.
Proof.
  unfold client_headers. destruct (streams_ s !! sid) as [ss|]; [|by intros [= <-]].
  assert (Hc : (if eh then apply_block sid block fin s else Ok (begin_continuation sid block fin s))
               = Ok s' -> passive s s').
  { destruct eh; [apply passive_block|intros [= <-]; apply passive_continuation]. }
  destruct (data_cb ss); [|exact Hc]. destruct (_ && fin); [|exact Hc].
  intros (s1 & H1%passive_data_cb & H%passive_block)%bind_ok. by transitivity s1.
Qed.

(** ** The invariant, and how a session dies *)

Record good s : Prop := {
  good_recv : window_ok (conn_recv_window_ s);
  good_windows : windows_ok (streams_ s);
  good_max : 16384 <= peer_max_frame_size_ s <= 16777215;
  good_initial : 0 <= peer_initial_window_size_ s <= MAX_WINDOW_SIZE;
  good_send : 0 <= conn_send_window_ s /\
              (alive_ s = true -> conn_send_window_ s <= MAX_WINDOW_SIZE);
  good_encoder : hc_enc_ok (encoder_ s)
}.

(** The last thing the session has said is a GOAWAY. *)
Definition said_goaway s : Prop :=
  exists pre ec debug, output_buf_ s = pre ++ build_goaway (last_client_stream_ s) ec debug.

Definition same_side s s' : Prop :=
  mode_ s' = mode_ s /\ preface_received_ s' = preface_received_ s.

(** A step that keeps the invariant, keeps the session alive unless it says so,
    and adds [g] to the connection's send window. *)
Definition grows (g : Z) s s' : Prop :=
  alive_ s = true -> alive_ s' = true -> conn_send_window_ s' = conn_send_window_ s + g.

Definition step_ok (g : Z) s s' : Prop :=
  (good s -> good s') /\ (alive_ s' = alive_ s \/ said_goaway s') /\ same_side s s' /\ grows g s s'.

Lemma step_passive s s' : passive s s' -> step_ok 0 s s'.
Proof.
  intros []. split; [|split; [by left|split; [by split|intros _ _; lia]]]. intros [].
  split; rewrite ?pas_recv0, ?pas_max0, ?pas_initial0; auto.
  by rewrite pas_send0, pas_alive0.
Qed.

Lemma step_trans g s1 s2 s3 : passive s1 s2 -> step_ok g s2 s3 -> step_ok g s1 s3.
Proof.
  intros Hp (Hg & Ha & [Hm Hpr] & Hs). destruct (step_passive _ _ Hp) as (Hg1 & _ & [Hm1 Hpr1] & _).
  split; [auto|]. split; [destruct Ha as [->|]; [left; apply Hp|by right]|]. split; [split; congruence|].
  intros Ha1 Ha3. rewrite Hs; [by rewrite (pas_send _ _ Hp)|by rewrite (pas_alive _ _ Hp)|done].
Qed.

Lemma step_passive_r s1 s2 s3 :
  (good s1 -> good s2) -> alive_ s2 = alive_ s1 -> same_side s1 s2 ->
  conn_send_window_ s2 = conn_send_window_ s1 -> passive s2 s3 -> step_ok 0 s1 s3.
Proof.
  intros Hg Ha [Hm Hpr] Hw Hp. destruct (step_passive _ _ Hp) as (Hg1 & _ & [Hm1 Hpr1] & _).
  split; [auto|]. split; [left; rewrite <- Ha; apply Hp|]. split; [split; congruence|].
  intros _ _. rewrite (pas_send _ _ Hp). lia.
Qed.

Lemma good_dead s : good s -> good (s <| alive_ := false |>).
Proof. intros []. split; cbn; try done. split; [lia|done]. Qed.

Lemma goaway_said ec debug s : said_goaway (goaway ec debug s).
Proof. by exists (output_buf_ s), ec, debug. Qed.

Lemma step_goaway g ec debug s : step_ok g s (goaway ec debug s).
Proof.
  split.
  - intros Hg. apply good_dead. by apply (step_passive _ _ (passive_enqueue _ s)).
  - split; [right; apply goaway_said|]. by split.
Qed.

(** *** DATA *)

Lemma replenish_ok w n :
  window_ok w -> 0 <= n < 2 ^ 24 ->
  window_ok (replenish (w - n)).1 /\
  (forall i, (replenish (w - n)).2 = Some i -> 0 < i < 2 ^ 31 /\ (replenish (w - n)).1 = w - n + i).
Proof.
  unfold window_ok, replenish, DEFAULT_WINDOW_SIZE. intros Hw Hn.
  destruct (Z.ltb_spec (w - n) (65535 / 2)); cbn [fst snd].
  - unfold u32. rewrite Z.mod_small by lia. split; [lia|]. intros i [= <-]. lia.
  - split; [lia|done].
Qed.

Lemma good_conn w s : window_ok w -> good s -> good (s <| conn_recv_window_ := w |>).
Proof. intros Hw []. by split. Qed.

Lemma good_consume_conn n s : 0 <= n < 2 ^ 24 -> good s -> good (consume_conn n s).
Proof.
  intros Hn Hg. pose proof (replenish_ok _ n (good_recv _ Hg) Hn) as [Hw _]. unfold consume_conn.
  destruct (replenish _) as [w [i|]]; cbn [fst] in Hw; [|by apply good_conn].
  apply (step_passive _ _ (passive_enqueue _ _)). by apply good_conn.
Qed.

Lemma good_streams s m : windows_ok m -> good s -> good (s <| streams_ ::= fun _ => m |>).
Proof. intros Hm []. by split. Qed.

Lemma good_consume_stream sid n s : 0 <= n < 2 ^ 24 -> good s -> good (consume_stream sid n s).
Proof.
  intros Hn Hg. unfold consume_stream. destruct (streams_ s !! sid) as [ss|] eqn:Es; [|done].
  pose proof (replenish_ok _ n (good_windows _ Hg _ _ Es) Hn) as [Hw _].
  destruct (replenish _) as [w i]; cbn [fst] in Hw.
  assert (Hg' : good (update_stream sid (fun ss => ss <| recv_window := w |>) s)).
  { apply (good_streams s (alter _ sid (streams_ s))); [|done].
    apply windows_alter; [by intros|apply Hg]. }
  destruct i; [|done]. by apply (step_passive _ _ (passive_enqueue _ _)).
Qed.

Lemma alive_consume sid n s :
  alive_ (consume_stream sid n (consume_conn n s)) = alive_ s /\
  conn_send_window_ (consume_stream sid n (consume_conn n s)) = conn_send_window_ s /\
  same_side s (consume_stream sid n (consume_conn n s)).
Proof.
  unfold consume_stream, consume_conn. destruct (replenish _) as [w [i|]]; cbn;
    (destruct (streams_ s !! sid) as [ss|]; [|done]); by destruct (replenish _) as [? [?|]].
Qed.

Lemma unpad_bounds f off n : unpad f = inr (off, n) -> 0 <= off /\ 0 <= n /\ off + n <= len (payload f).
Proof.
  unfold unpad. destruct (has_flag _ _).
  - destruct (Z.ltb_spec (len (payload f)) 1); [done|]. destruct (Z.ltb_spec (len (payload f)) (1 + u8 (byte_at (payload f) 0))); [done|].
    intros [= <- <-]. bounds. lia.
  - intros [= <- <-]. bounds. lia.
Qed.

Lemma step_data f s s' : frame_ok f -> handle_data f s = Ok s' -> step_ok 0 s s'.
Proof.
  intros [(Hlen & _) Hf]. unfold handle_data.
  destruct (_ =? 0); [intros [= <-]; apply step_goaway|].
  destruct (streams_ s !! _) as [ss|]; [|intros [= <-]; by apply step_passive, passive_enqueue].
  destruct (unpad f) as [ec|[off n]] eqn:Eu; [intros [= <-]; apply step_goaway|].
  apply unpad_bounds in Eu. set (sid := fh_stream_id _). set (data := takeZ _ _).
  intros (s1 & H1 & H)%bind_ok.
  assert (Hp : passive s s1).
  { destruct (data_cb ss); [by apply passive_data_cb in H1|injection H1 as <-].
    by apply passive_update. }
  apply (step_trans 0 s s1); [done|]. assert (Hn : 0 <= n < 2 ^ 24) by lia.
  set (s2 := consume_stream _ _ _) in H.
  apply (step_passive_r _ s2); [intros; by apply good_consume_stream, good_consume_conn|apply alive_consume|apply alive_consume|apply alive_consume|].
  destruct (has_flag _ _); [|by injection H as <-].
  set (s3 := update_stream _ _ s2) in H. assert (H3 : passive s2 s3) by by apply passive_update.
  destruct (mode_ s3); [|injection H as <-; transitivity s3; [done|apply passive_complete]].
  destruct (default false _); [by injection H as <-|]. apply passive_dispatch in H. by transitivity s3.
Qed.

(** *** Header blocks *)

Lemma step_headers f s s' : handle_headers f s = Ok s' -> step_ok 0 s s'.
Proof.
  unfold handle_headers. destruct (_ =? 0); [intros [= <-]; apply step_goaway|].
  destruct (header_fragment f) as [ec|block]; [intros [= <-]; apply step_goaway|].
  intros H. apply step_passive. destruct (mode_ s).
  - eapply passive_server_headers, H.
  - eapply passive_client_headers, H.
Qed.

Lemma step_continuation f s s' : handle_continuation f s = Ok s' -> step_ok 0 s s'.
Proof.
  unfold handle_continuation.
  destruct (streams_ s !! _) as [ss|]; [|intros [= <-]; apply step_goaway].
  set (s1 := update_stream _ _ s). assert (H1 : passive s s1) by by apply passive_update.
  destruct (has_flag _ _); [|intros [= <-]; by apply step_passive].
  intros H%passive_block. apply step_passive. etransitivity; [exact H1|].
  etransitivity; [|exact H]. repeat passive_step.
Qed.

(** *** Connection frames *)

Lemma step_setting e s s' go :
  0 <= se_value e < 2 ^ 32 -> apply_setting e s = (s', go) ->
  step_ok 0 s s' /\ (go = true -> alive_ s' = alive_ s).
Proof.
  intros Hv. unfold apply_setting.
  destruct (_ =? setting_id.HEADER_TABLE_SIZE).
  { intros [= <- <-]. split; [|done]. apply step_passive. split; cbn; try done.
    by apply hc_enc_ok_resize. }
  destruct (_ =? setting_id.INITIAL_WINDOW_SIZE).
  { destruct (Z.ltb_spec MAX_WINDOW_SIZE (se_value e)); intros [= <- <-]; [split; [apply step_goaway|done]|].
    split; [|done]. split; [|split; [by left|split; [by split|intros _ _; cbn; lia]]]. intros []. split; cbn; try done; [|lia].
    intros i ss Hi. rewrite lookup_fmap in Hi. apply fmap_Some in Hi as (ss' & Hi & ->).
    exact (good_windows0 i ss' Hi). }
  destruct (_ =? setting_id.MAX_FRAME_SIZE).
  { destruct (Z.ltb_spec (se_value e) 16384); cbn [orb]; [intros [= <- <-]; split; [apply step_goaway|done]|].
    destruct (Z.ltb_spec 16777215 (se_value e)); intros [= <- <-]; (split; [|done]); [apply step_goaway|].
    split; [|split; [by left|split; [by split|intros _ _; cbn; lia]]]. intros []. by split. }
  destruct (_ =? setting_id.ENABLE_PUSH); intros [= <- <-]; (split; [|done]); apply step_passive; [by split|done].
Qed.

Lemma step_settings es s :
  Forall (fun e => 0 <= se_value e < 2 ^ 32) es -> step_ok 0 s (apply_settings es s).
Proof.
  intros Hes. revert s. induction Hes as [|e es He _ IH]; intros s; cbn [apply_settings].
  { by apply step_passive, passive_enqueue. }
  destruct (apply_setting e s) as [s1 go] eqn:E1. apply step_setting in E1 as [Hs1 Hgo]; [|done].
  destruct go; [|exact Hs1]. destruct Hs1 as (Hg1 & _ & [Hm1 Hp1] & Hw1).
  destruct (IH s1) as (Hg2 & Ha2 & [Hm2 Hp2] & Hw2). specialize (Hgo eq_refl).
  split; [auto|]. split; [destruct Ha2 as [Ha2|]; [left; congruence|by right]|].
  split; [split; congruence|]. intros Ha Ha'. rewrite Hw2, Hw1 by congruence. lia.
Qed.

Lemma parse_settings_values pl : Forall (fun e => 0 <= se_value e < 2 ^ 32) (parse_settings pl).
Proof.
  unfold parse_settings. destruct (negb _); [constructor|].
  assert (H : forall n i, Forall (fun e => 0 <= se_value e < 2 ^ 32) (parse_settings_loop n pl i)); [|apply H].
  induction n as [|n IH]; intros i; cbn [parse_settings_loop]; [constructor|].
  destruct (i <? len pl); [|constructor]. constructor; [cbn; apply rd32_range|apply IH].
Qed.

Lemma step_settings_frame f s : step_ok 0 s (handle_settings f s).
Proof.
  unfold handle_settings. destruct (negb _); [apply step_goaway|].
  destruct (has_flag _ _); [by apply step_passive|]. destruct (negb _); [apply step_goaway|].
  apply step_settings, parse_settings_values.
Qed.

Lemma step_ping f s : step_ok 0 s (handle_ping f s).
Proof.
  unfold handle_ping. destruct (negb _); [apply step_goaway|]. destruct (negb _); [apply step_goaway|].
  destruct (negb _); apply step_passive; [apply passive_enqueue|done].
Qed.

(** What a WINDOW_UPDATE frame adds to the connection's send window. *)
Definition window_increment f : Z :=
  if (fh_stream_id (hdr f) =? 0) && (len (payload f) =? 4) then parse_window_update (payload f)
  else 0.

Definition connection_grant f : Z :=
  if fh_type (hdr f) =? frame_type.WINDOW_UPDATE then window_increment f else 0.

Lemma step_window_update f s : step_ok (window_increment f) s (handle_window_update f s).
Proof.
  unfold handle_window_update, window_increment.
  destruct (Z.eqb_spec (len (payload f)) 4); cbn [negb]; [|apply step_goaway].
  assert (Hi : 0 <= parse_window_update (payload f)).
  { unfold parse_window_update. destruct (_ <? 4); [done|]. rewrite land_31. lia. }
  set (i := parse_window_update _) in *. destruct (Z.eqb_spec i 0) as [E0|_]; destruct (_ =? 0); cbn [andb].
  - apply step_goaway.
  - apply step_passive, passive_enqueue.
  - cbn [conn_send_window_ set_field]. set (s1 := s <| conn_send_window_ ::= _ |>).
    destruct (Z.ltb_spec MAX_WINDOW_SIZE (conn_send_window_ s + i)).
    + split; [|split; [right; apply goaway_said|by split]].
      intros []. split; cbn; try done. split; [lia|done].
    + split; [|split; [by left|by split]].
      intros []. split; cbn; try done. split; [lia|done].
  - destruct (streams_ s !! _); [|by apply step_passive].
    apply step_passive. destruct (_ <? _); [|by apply passive_update].
    etransitivity; [|apply passive_enqueue]. by apply passive_update.
Qed.

Lemma windows_delete m sid : windows_ok m -> windows_ok (delete sid m).
Proof. intros Hm i ss Hi. apply lookup_delete_Some in Hi as [_ Hi]. by apply (Hm i). Qed.

Lemma passive_delete sid s : passive s (s <| streams_ ::= delete sid |>).
Proof. split; cbn; try done. apply windows_delete. Qed.

Lemma step_rst f s : step_ok 0 s (handle_rst_stream f s).
Proof.
  unfold handle_rst_stream. destruct (negb _); [apply step_goaway|].
  destruct (streams_ s !! _) as [ss|]; [|by apply step_passive]. apply step_passive.
  etransitivity; [|apply passive_delete]. destruct (promise ss); [apply passive_settle|done].
Qed.

Lemma step_push_promise f s s' : handle_push_promise f s = Ok s' -> step_ok 0 s s'.
Proof.
  unfold handle_push_promise. destruct (mode_ s); [intros [= <-]; apply step_goaway|].
  intros ([hdrs d] & _ & H)%bind_ok. injection H as <-. apply step_passive.
  destruct (push_handler_ _); repeat passive_step.
Qed.

Lemma process_frame_ok f s s' :
  frame_ok f -> process_frame f s = Ok s' ->
  step_ok (connection_grant f) s s' \/
  fh_type (hdr f) = frame_type.GOAWAY /\ s' = handle_goaway f s.
Proof.
  intros Hf. unfold process_frame, connection_grant. destruct (negb (continuation_stream_ s =? 0)).
  { destruct (Z.eqb_spec (fh_type (hdr f)) frame_type.CONTINUATION) as [->|]; cbn [negb orb].
    - destruct (negb _); [intros [= <-]; left; apply step_goaway|].
      intros H. left. by apply step_continuation in H.
    - intros [= <-]. left. apply step_goaway. }
  repeat match goal with
  | |- context [fh_type (hdr f) =? ?t] => destruct (Z.eqb_spec (fh_type (hdr f)) t)
  end; try match goal with
           | H1 : fh_type _ = ?t, H2 : fh_type _ = ?u |- _ => rewrite H1 in H2; discriminate H2
           end; intros H; try (injection H as <-).
  all: eauto using step_data, step_headers, step_passive, step_rst, step_settings_frame,
         step_push_promise, step_ping, step_window_update, step_goaway.
  all: left; by apply step_passive.
Qed.

(** *** Reachable states *)

(** What the user does with a session: a call, a request, setting handlers,
    taking what is ready. *)
Inductive user_moves s : session E D -> Prop :=
| by_call c s' : run_call c s = Ok s' -> user_moves s s'
| by_request r p open sid s' : do_submit_request r p open s = Ok (sid, s') -> user_moves s s'
| by_handlers h : user_moves s (s <| hooks_ := h |>)
| by_output : user_moves s (get_pending_output s).2
| by_promises : user_moves s (take_completed_promises s).2.

(** What happens to a session: its user moves, or a frame is processed. *)
Inductive moves s : session E D -> Prop :=
| by_frame f s' : alive_ s = true -> frame_ok f -> process_frame f s = Ok s' -> moves s s'
| by_user s' : user_moves s s' -> moves s s'.

(** [s] comes from [s0], and the frames in between have added [n] to the
    connection's send window. *)
Inductive history s0 : Z -> session E D -> Prop :=
| history_start : history s0 0 s0
| history_frame n s f s' :
    history s0 n s -> alive_ s = true -> frame_ok f -> process_frame f s = Ok s' ->
    history s0 (n + connection_grant f) s'
| history_user n s s' : history s0 n s -> user_moves s s' -> history s0 n s'.

Definition reachable s0 s : Prop := rtc moves s0 s.

Lemma passive_request r p op s sid s' : do_submit_request r p op s = Ok (sid, s') -> passive s s'.
Proof.
  unfold do_submit_request. intros (next & _ & H)%bind_ok.
  set (s1 := update_stream _ _ _) in H.
  assert (H1 : passive s s1) by (unfold s1; repeat passive_step).
  pose proof (passive_headers (next_stream_id_ s)
    (if negb (bool_decide (rq_bd r = [])) || op then 0 else flag.END_STREAM) (request_headers r) s1) as H2.
  destruct (build_headers_frame _ _ _ _) as [wire s2]. cbn [snd] in H2. injection H as _ <-.
  transitivity s1; [done|]. transitivity s2; [done|]. destruct (negb _); repeat passive_step.
Qed.

Lemma step_user s s' : user_moves s s' -> step_ok 0 s s' /\ alive_ s' = alive_ s.
Proof.
  intros [c s1 H|r p op sid s1 H|h| |].
  - apply passive_call in H. split; [by apply step_passive|apply H].
  - apply passive_request in H. split; [by apply step_passive|apply H].
  - split; [|done]. apply step_passive. by split.
  - split; [|done]. apply step_passive. by split.
  - split; [|done]. apply step_passive. by split.
Qed.

Lemma good_moves s s' : moves s s' -> good s -> good s'.
Proof.
  intros Hm Hg. destruct Hm as [f s' _ Hf H|s' Hu].
  - apply process_frame_ok in H as [[H _]|[_ ->]]; [auto| |done]. by apply good_dead.
  - apply step_user in Hu as [[H _] _]. auto.
Qed.

Lemma history_good s0 n s : history s0 n s -> good s0 -> good s.
Proof.
  induction 1 as [|n s f s' _ IH Ha Hf Hp|n s s' _ IH Hu]; intros Hg; [done|..].
  - eapply good_moves, IH, Hg. by eapply by_frame.
  - eapply good_moves, IH, Hg. by apply by_user.
Qed.

Lemma history_window s0 n s :
  history s0 n s -> alive_ s = true -> alive_ s0 = true /\
  conn_send_window_ s = conn_send_window_ s0 + n.
Proof.
  induction 1 as [|n s f s' _ IH Ha Hf Hp|n s s' _ IH Hu]; intros Ha'.
  - split; [done|lia].
  - destruct (IH Ha) as [Ha0 Hw]. split; [done|].
    apply process_frame_ok in Hp as [(_ & _ & _ & Hs)|[_ ->]]; [|done..]. rewrite Hs by done. lia.
  - apply step_user in Hu as [(_ & _ & _ & Hs) Ha]. rewrite Ha in Ha'.
    destruct (IH Ha') as [Ha0 Hw]. split; [done|]. rewrite Hs by congruence. lia.
Qed.

Lemma good_new m e d heap : hc_enc_ok e -> good (new_session m e d heap).
Proof.
  intros He. split; cbn; try done.
Qed.

Lemma good_reachable s0 s : reachable s0 s -> good s0 -> good s.
Proof. induction 1 as [|s0 s1 s Hm _ IH]; [done|]. intros Hg. by eapply IH, good_moves. Qed.

(** ** Chunking *)

Lemma feed_pump r s data :
  alive_ s = true -> (mode_ s = server -> preface_received_ s = true) ->
  feed r s data =
  let '(r', m, n) := pump pump_process pump_alive r (Ok s) data in s' ← m; Ok (r', s', n).
Proof.
  intros Ha Hpre. unfold feed. rewrite Ha. cbn [negb]. destruct (mode_ s) eqn:Em; [|done].
  assert (s <| preface_received_ := true |> = s) as ->; [|done].
  specialize (Hpre eq_refl). destruct s; cbn in *. by subst.
Qed.

Lemma parse_frame1_ok b f n : parse_frame1 b = Some (f, n) -> frame_ok f.
Proof.
  unfold parse_frame1. destruct (_ <? _); [done|].
  pose proof (read_from_ok (takeZ FRAME_HEADER_SIZE b)) as Hh. cbv zeta.
  generalize dependent (read_from (takeZ FRAME_HEADER_SIZE b)). intros h Hh.
  destruct (Z.ltb_spec (len b) (FRAME_HEADER_SIZE + fh_length h)); [done|]. intros [= <- <-].
  split; [done|]. cbn [hdr payload]. destruct Hh as [Hh _]. unfold FRAME_HEADER_SIZE in *.
  rewrite len_takeZ, len_dropZ. lia.
Qed.

Lemma parse_all_ok (b : bytes) : Forall frame_ok (parse_all (F := frame) b).1.
Proof.
  remember (length b) as n eqn:Hn. revert b Hn.
  induction n as [n IH] using lt_wf_ind; intros b ->. rewrite parse_all_step.
  destruct (parse1 b) as [[f k]|] eqn:Ef; [|constructor].
  pose proof (parse1_bounds _ _ _ Ef) as Hk. specialize (IH (length (dropZ k b))).
  destruct (parse_all (dropZ k b)) as [fs rest] eqn:Er. cbn. constructor.
  - by eapply parse_frame1_ok.
  - specialize (IH ltac:(unfold dropZ, len in *; rewrite length_drop; lia) _ eq_refl).
    by rewrite Er in IH.
Qed.

Abbreviation run_frames := (run (S := outcome (session E D)) pump_process pump_alive).

Lemma run_side fs s s' : Forall frame_ok fs -> run_frames (Ok s) fs = Ok s' -> same_side s s'.
Proof.
  intros Hf. revert s. induction Hf as [|f fs Hf _ IH]; intros s; cbn [run]; [by intros [= <-]|].
  destruct (pump_alive (Ok s)) eqn:Ea; [|by intros [= <-]]. cbn [pump_process mbind outcome_bind].
  destruct (process_frame f s) as [s1|? |? |] eqn:E1.
  - intros H. destruct (IH _ H) as [Hm Hp]. apply process_frame_ok in E1; [|done].
    destruct E1 as [(_ & _ & [Hm1 Hp1] & _)|[_ ->]]; split; congruence || done.
  - by rewrite run_dead.
  - by rewrite run_dead.
  - by rewrite run_dead.
Qed.

(** [preface_received_], which the first [feed] of a server sets. *)
Definition prefaced s : session E D :=
  match mode_ s with server => s <| preface_received_ := true |> | client => s end.

Lemma prefaced_same s : (mode_ s = server -> preface_received_ s = true) -> prefaced s = s.
Proof.
  unfold prefaced. destruct (mode_ s) eqn:Em; [|done]. intros Hp. specialize (Hp eq_refl).
  destruct s; cbn in *. by subst.
Qed.

Lemma prefaced_side s s' :
  same_side (prefaced s) s' -> mode_ s' = server -> preface_received_ s' = true.
Proof.
  unfold same_side, prefaced. destruct (mode_ s) eqn:Em; cbn; intros [H1 ->] H2; congruence.
Qed.

Lemma feed_list_dead r s chunks : alive_ s = false -> snd <$> feed_list r s chunks = Ok s.
Proof.
  intros Ha. revert r. induction chunks as [|c chunks IH]; intros r; [done|].
  cbn [feed_list]. unfold feed. rewrite Ha. cbn [negb mbind outcome_bind]. apply IH.
Qed.

Lemma feed_list_run r b s chunks :
  absorbed r b -> parse1 b = None -> (mode_ s = server -> preface_received_ s = true) ->
  snd <$> feed_list r s chunks = run_frames (Ok s) (parse_all (b ++ concat chunks)).1.
Proof.
  revert r b s. induction chunks as [|c chunks IH]; intros r b s Hr Hb Hpre; cbn [feed_list concat].
  { by rewrite app_nil_r, parse_all_none. }
  destruct (alive_ s) eqn:Ha.
  2: { rewrite run_dead by done. by apply (feed_list_dead r s (c :: chunks)). }
  unfold feed. rewrite Ha. cbn [negb].
  fold (prefaced s). rewrite prefaced_same by done.
  pose proof (pump_spec pump_process pump_alive r b (Ok s) c Hr Hb) as Hp.
  destruct (pump _ _ r (Ok s) c) as [[r' m] n]. destruct Hp as (Hm & _ & Hlive).
  rewrite app_assoc, (parse_all_app (b ++ c)). cbn [fst]. rewrite run_app, <- Hm.
  destruct m as [s'|? |? |]; cbn [mbind outcome_bind]; try by rewrite run_dead.
  assert (Hside : same_side s s') by (eapply run_side; [apply parse_all_ok|by rewrite Hm]).
  destruct (alive_ s') eqn:Ha'.
  - destruct (Hlive Ha') as (_ & Hr' & _). apply IH; [done|apply parse_all_rest|].
    destruct Hside as [-> ->]. done.
  - rewrite run_dead by done. by apply feed_list_dead.
Qed.
End Facts.

(** ** Properties *)

(** C4: from a new session on, whatever frames arrive and whatever the user and
    the callbacks do, the receive windows of the connection and of every stream
    stay between half the default window and the default window, the send
    window of a live connection and the peer's settings stay in the ranges of
    the protocol. *)
Theorem h2_windows_bounded `{HC : HeaderCodec E D} (m : mode) (e : E) (d : D)
    (heap : gmap nat response_promise) (s : session E D) :
  hc_enc_ok e -> reachable (new_session m e d heap) s ->
  32767 <= conn_recv_window_ s <= 65535 /\
  (forall sid ss, streams_ s !! sid = Some ss -> 32767 <= recv_window ss <= 65535) /\
  (alive_ s = true -> 0 <= conn_send_window_ s <= MAX_WINDOW_SIZE) /\
  0 <= peer_initial_window_size_ s <= MAX_WINDOW_SIZE /\
  16384 <= peer_max_frame_size_ s <= 16777215.
Proof.
  intros He Hr. apply good_reachable in Hr as [H1 H2 H3 H4 [H5 H5'] _]; [|by apply good_new].
  split_and!; try apply H1; try apply H4; try apply H3; [apply H2|]. auto.
Qed.

(** A client and a server with the codecs the code starts with. *)
Definition test_session (m : mode) : session hpack_encoder hpack_decoder :=
  new_session m (new_hpack_encoder 4096) (new_hpack_decoder 4096) {[ 0%nat := new_promise ]}.

(** A DATA frame on an open stream. *)
Definition some_data : frame :=
  {| hdr := {| fh_length := 4; fh_type := frame_type.DATA; fh_flags := 0; fh_stream_id := 1 |};
     payload := str "body" |}.

Lemma h2_windows_bounded_witness :
  match do_submit_request request_default (Some 0%nat) true (test_session client) with
  | Ok (_, s) => match process_frame some_data s with
                 | Ok s' => 32767 <= conn_recv_window_ s' <= 65535
                 | _ => False
                 end
  | _ => False
  end.
Proof.
  destruct (do_submit_request _ _ _ _) as [[sid s]|? |? |] eqn:E1; [|vm_compute in E1; discriminate..].
  destruct (process_frame some_data s) as [s'|? |? |] eqn:E2.
  - apply (h2_windows_bounded client (new_hpack_encoder 4096) (new_hpack_decoder 4096)
             {[ 0%nat := new_promise ]} s'); [cbn; lia|].
    apply (rtc_l moves _ s); [by eapply by_user, by_request, E1|].
    apply (rtc_l moves _ s'); [|apply rtc_refl]. apply (by_frame s some_data s').
    + vm_compute in E1. by injection E1 as _ <-.
    + split; [|vm_compute; reflexivity]. ground.
    + exact E2.
  - exfalso. vm_compute in E1. injection E1 as _ <-. vm_compute in E2. discriminate.
  - exfalso. vm_compute in E1. injection E1 as _ <-. vm_compute in E2. discriminate.
  - exfalso. vm_compute in E1. injection E1 as _ <-. vm_compute in E2. discriminate.
Defined.

(** C6: DATA that is sent does not use up the send window.  However much a session
    has sent, as long as it lives its connection window is the default one plus
    everything its peer has granted; so a connection over which a peer has
    granted 2^31 - 65536 bytes in all is dead. *)
Theorem h2_send_window_only_grows `{HC : HeaderCodec E D} (m : mode) (e : E) (d : D)
    (heap : gmap nat response_promise) (n : Z) (s : session E D) :
  hc_enc_ok e -> history (new_session m e d heap) n s ->
  (alive_ s = true -> conn_send_window_ s = DEFAULT_WINDOW_SIZE + n) /\
  (MAX_WINDOW_SIZE < DEFAULT_WINDOW_SIZE + n -> alive_ s = false).
Proof.
  intros He Hh. assert (Hw : alive_ s = true -> conn_send_window_ s = DEFAULT_WINDOW_SIZE + n).
  { intros Ha. by destruct (history_window _ _ _ Hh Ha) as [_ ->]. }
  split; [done|]. intros Hn. destruct (alive_ s) eqn:Ea; [|done]. exfalso.
  destruct (good_send _ (history_good _ _ _ Hh (good_new m e d heap He))) as [_ Hmax].
  specialize (Hmax Ea). rewrite (Hw eq_refl) in Hmax. lia.
Qed.

(** A body, and the peer's update for it. *)
Definition small_body : bytes := str "hello".

Definition window_refill : frame :=
  {| hdr := {| fh_length := 4; fh_type := frame_type.WINDOW_UPDATE; fh_flags := 0;
               fh_stream_id := 0 |};
     payload := be32 5 |}.

Definition uploaded (s : session hpack_encoder hpack_decoder)
  : outcome (session hpack_encoder hpack_decoder) :=
  process_frame window_refill (do_submit_data 1 small_body false s).

Lemma h2_send_window_only_grows_witness :
  match uploaded (test_session client) with
  | Ok s => conn_send_window_ s = DEFAULT_WINDOW_SIZE + 5
  | _ => False
  end.
Proof.
  destruct (uploaded (test_session client)) as [s|? |? |] eqn:Eu.
  - apply (h2_send_window_only_grows client (new_hpack_encoder 4096) (new_hpack_decoder 4096)
             {[ 0%nat := new_promise ]} (0 + connection_grant window_refill) s); [cbn; lia| |].
    + apply (history_frame _ 0 (do_submit_data 1 small_body false (test_session client)));
        [|reflexivity| |exact Eu].
      * eapply history_user; [apply history_start|]. by apply (by_call _ (SubmitData 1 small_body false)).
      * split; [|vm_compute; reflexivity]. ground.
    + unfold uploaded in Eu. vm_compute in Eu. by injection Eu as <-.
  - exfalso. unfold uploaded in Eu. vm_compute in Eu. discriminate.
  - exfalso. unfold uploaded in Eu. vm_compute in Eu. discriminate.
  - exfalso. unfold uploaded in Eu. vm_compute in Eu. discriminate.
Defined.

(** C5: what a session does with the bytes it is fed does not depend on how the
    transport cuts them: it is the result of its frame handler on the frames of
    the whole input, up to the frame that kills it or makes a handler fail. *)
Theorem h2_feed_chunking `{HC : HeaderCodec E D} (s : session E D) (chunks : list bytes) :
  chunks <> [] -> alive_ s = true ->
  snd <$> feed_list frame_reader_init s chunks =
  run pump_process pump_alive (Ok (prefaced s)) (parse_all (concat chunks)).1.
Proof.
  intros Hc Ha. transitivity (snd <$> feed_list frame_reader_init (prefaced s) chunks).
  - destruct chunks as [|c chunks]; [done|]. cbn [feed_list]. unfold feed.
    assert (Hp : alive_ (prefaced s) = true) by (unfold prefaced; by destruct (mode_ s)).
    rewrite Ha, Hp. cbn [negb]. fold (prefaced s) (prefaced (prefaced s)).
    rewrite (prefaced_same (prefaced s)) by (by apply (prefaced_side s)). done.
  - apply (feed_list_run _ []); [exact (absorbed_init (R := frame_reader))|by apply parse1_nil|].
    by apply (prefaced_side s).
Qed.

Lemma h2_feed_chunking_witness :
  snd <$> feed_list frame_reader_init (test_session server)
            [takeZ 5 (build_ping (repeat x07 8) false); dropZ 5 (build_ping (repeat x07 8) false)] =
  run pump_process pump_alive (Ok (prefaced (test_session server)))
    (parse_all (build_ping (repeat x07 8) false)).1.
Proof. apply h2_feed_chunking; done. Defined.

(** C7: a session dies in one of two ways: its peer has sent GOAWAY, or the
    last thing it has to send is a GOAWAY of its own; and a dead session
    refuses its input with -1 and changes nothing. *)
Theorem h2_dies_with_goaway `{HC : HeaderCodec E D} (f : frame) (s s' : session E D) :
  frame_ok f -> alive_ s = true -> process_frame f s = Ok s' -> alive_ s' = false ->
  (fh_type (hdr f) = frame_type.GOAWAY \/ said_goaway s') /\
  (forall r data, feed r s' data = Ok (r, s', -1)).
Proof.
  intros Hf Ha H Hd. split.
  - apply process_frame_ok in H as [(_ & [H|H] & _)|[H _]]; [congruence|by right|by left|done].
  - intros r data. unfold feed. by rewrite Hd.
Qed.

Definition bad_ping : frame :=
  {| hdr := {| fh_length := 0; fh_type := frame_type.PING; fh_flags := 0; fh_stream_id := 0 |};
     payload := [] |}.

Lemma h2_dies_with_goaway_witness :
  match process_frame bad_ping (test_session server) with
  | Ok s' => fh_type (hdr bad_ping) = frame_type.GOAWAY \/ said_goaway s'
  | _ => False
  end.
Proof.
  apply (h2_dies_with_goaway bad_ping (test_session server)).
  - split; [|done]. ground.
  - done.
  - done.
  - done.
Defined.
