(* ===== verification/H2Output.v ===== *)
(** * The output of an HTTP/2 session

    A session only appends to its output buffer and never looks at it: taking
    what is pending between two reads changes nothing but where it is found.  So
    a transport that flushes after every read carries the same bytes as one that
    flushes at the end. *)
From S2P Require Import Prelude Framing HeaderTable H2Frame CppString HttpTypes H2Session H2SessionFacts.
From stdpp Require Import options.

Section Output.
Context `{HC : HeaderCodec E D}.

Implicit Types (s : session E D).

(** The session with more output in front. *)
Definition pre (o : bytes) s : session E D := s <| output_buf_ ::= fun out => o ++ out |>.

Definition pre_ok (o : bytes) (m : outcome (session E D)) : outcome (session E D) :=
  s ← m; Ok (pre o s).

Lemma pre_nil s : pre [] s = s.
Proof. by destruct s. Qed.

Lemma pre_pre o o' s : pre o (pre o' s) = pre (o ++ o') s.
Proof. destruct s. unfold pre, set_field. cbn. by rewrite app_assoc. Qed.

(** What the handlers look at. *)
Lemma pre_mode o s : mode_ (pre o s) = mode_ s. Proof. done. Qed.
Lemma pre_alive o s : alive_ (pre o s) = alive_ s. Proof. done. Qed.
Lemma pre_encoder o s : encoder_ (pre o s) = encoder_ s. Proof. done. Qed.
Lemma pre_decoder o s : decoder_ (pre o s) = decoder_ s. Proof. done. Qed.
Lemma pre_streams o s : streams_ (pre o s) = streams_ s. Proof. done. Qed.
Lemma pre_next o s : next_stream_id_ (pre o s) = next_stream_id_ s. Proof. done. Qed.
Lemma pre_last o s : last_client_stream_ (pre o s) = last_client_stream_ s. Proof. done. Qed.
Lemma pre_send o s : conn_send_window_ (pre o s) = conn_send_window_ s. Proof. done. Qed.
Lemma pre_recv o s : conn_recv_window_ (pre o s) = conn_recv_window_ s. Proof. done. Qed.
Lemma pre_max o s : peer_max_frame_size_ (pre o s) = peer_max_frame_size_ s. Proof. done. Qed.
Lemma pre_initial o s : peer_initial_window_size_ (pre o s) = peer_initial_window_size_ s.
Proof. done. Qed.
Lemma pre_hooks o s : hooks_ (pre o s) = hooks_ s. Proof. done. Qed.
Lemma pre_cont o s : continuation_stream_ (pre o s) = continuation_stream_ s. Proof. done. Qed.
Lemma pre_push o s : peer_enable_push_ (pre o s) = peer_enable_push_ s. Proof. done. Qed.
Lemma pre_next_push o s : next_push_stream_id_ (pre o s) = next_push_stream_id_ s. Proof. done. Qed.
Lemma pre_heap o s : heap_ (pre o s) = heap_ s. Proof. done. Qed.

(** What they change. *)
Lemma pre_set_alive o f s : (pre o s) <| alive_ ::= f |> = pre o (s <| alive_ ::= f |>). Proof. done. Qed.
Lemma pre_set_encoder o f s : (pre o s) <| encoder_ ::= f |> = pre o (s <| encoder_ ::= f |>).
Proof. done. Qed.
Lemma pre_set_decoder o f s : (pre o s) <| decoder_ ::= f |> = pre o (s <| decoder_ ::= f |>).
Proof. done. Qed.
Lemma pre_set_streams o f s : (pre o s) <| streams_ ::= f |> = pre o (s <| streams_ ::= f |>).
Proof. done. Qed.
Lemma pre_set_next o f s :
  (pre o s) <| next_stream_id_ ::= f |> = pre o (s <| next_stream_id_ ::= f |>).
Proof. done. Qed.
Lemma pre_set_last o f s :
  (pre o s) <| last_client_stream_ ::= f |> = pre o (s <| last_client_stream_ ::= f |>).
Proof. done. Qed.
Lemma pre_set_send o f s :
  (pre o s) <| conn_send_window_ ::= f |> = pre o (s <| conn_send_window_ ::= f |>).
Proof. done. Qed.
Lemma pre_set_recv o f s :
  (pre o s) <| conn_recv_window_ ::= f |> = pre o (s <| conn_recv_window_ ::= f |>).
Proof. done. Qed.
Lemma pre_set_max o f s :
  (pre o s) <| peer_max_frame_size_ ::= f |> = pre o (s <| peer_max_frame_size_ ::= f |>).
Proof. done. Qed.
Lemma pre_set_initial o f s :
  (pre o s) <| peer_initial_window_size_ ::= f |> = pre o (s <| peer_initial_window_size_ ::= f |>).
Proof. done. Qed.
Lemma pre_set_completed o f s :
  (pre o s) <| completed_promises_ ::= f |> = pre o (s <| completed_promises_ ::= f |>).
Proof. done. Qed.
Lemma pre_set_cont o f s :
  (pre o s) <| continuation_stream_ ::= f |> = pre o (s <| continuation_stream_ ::= f |>).
Proof. done. Qed.
Lemma pre_set_push o f s :
  (pre o s) <| peer_enable_push_ ::= f |> = pre o (s <| peer_enable_push_ ::= f |>).
Proof. done. Qed.
Lemma pre_set_next_push o f s :
  (pre o s) <| next_push_stream_id_ ::= f |> = pre o (s <| next_push_stream_id_ ::= f |>).
Proof. done. Qed.
Lemma pre_set_heap o f s : (pre o s) <| heap_ ::= f |> = pre o (s <| heap_ ::= f |>).
Proof. done. Qed.
Lemma pre_effect o e s : effect_of e (pre o s) = pre o (effect_of e s). Proof. done. Qed.
Lemma pre_update o sid f s : update_stream sid f (pre o s) = pre o (update_stream sid f s).
Proof. done. Qed.
Lemma pre_update_promise o p f s : update_promise p f (pre o s) = pre o (update_promise p f s).
Proof. done. Qed.

Lemma pre_enqueue o d s : enqueue d (pre o s) = pre o (enqueue d s).
Proof. destruct s. unfold pre, enqueue, set_field. cbn. by rewrite app_assoc. Qed.

Lemma pre_touch o sid s : touch_stream sid (pre o s) = pre o (touch_stream sid s).
Proof. unfold touch_stream. rewrite pre_streams. by destruct (streams_ s !! sid). Qed.
End Output.

Create Rewrite HintDb h2_out.
#[export] Hint Rewrite @pre_mode @pre_alive @pre_encoder @pre_decoder @pre_streams @pre_next
  @pre_last @pre_send @pre_recv @pre_max @pre_initial @pre_hooks @pre_cont @pre_push
  @pre_next_push @pre_heap @pre_set_alive @pre_set_encoder @pre_set_decoder @pre_set_streams
  @pre_set_next @pre_set_last @pre_set_send @pre_set_recv @pre_set_max @pre_set_initial
  @pre_set_completed @pre_set_cont @pre_set_push @pre_set_next_push @pre_set_heap @pre_effect
  @pre_update @pre_update_promise @pre_enqueue @pre_touch : h2_out.

(** Moves [pre] to the outside of a handler, through its branches. *)
Ltac out_step := first [done | progress autorewrite with h2_out | case_match].
Ltac out := cbv zeta; repeat out_step.

Section Handlers.
Context `{HC : HeaderCodec E D}.

Implicit Types (s : session E D).

Lemma out_goaway o ec d s : goaway ec d (pre o s) = pre o (goaway ec d s).
Proof. unfold goaway. out. Qed.

Lemma out_build_headers o sid fl hdrs s :
  build_headers_frame sid fl hdrs (pre o s) =
  ((build_headers_frame sid fl hdrs s).1, pre o (build_headers_frame sid fl hdrs s).2).
Proof. unfold build_headers_frame. out. Qed.

Lemma out_build_data o sid data b s :
  build_data_frames sid data b (pre o s) = build_data_frames sid data b s.
Proof. done. Qed.

Lemma out_close o sid s : close_stream sid (pre o s) = pre o (close_stream sid s).
Proof. done. Qed.

Lemma out_response o sid r s :
  do_submit_response sid r (pre o s) = pre o (do_submit_response sid r s).
Proof.
  unfold do_submit_response. cbv zeta. rewrite out_build_headers.
  destruct (build_headers_frame _ _ _ s) as [wire s1]. cbn [fst snd].
  destruct (negb (bool_decide (rs_bd r = []))), (negb (bool_decide (rs_trailers r = [])));
    rewrite ?pre_enqueue, ?out_build_data, ?pre_enqueue, ?out_build_headers; try done.
  - by destruct (build_headers_frame _ _ _ (enqueue (build_data_frames _ _ _ _) _)) as [w2 s2]; cbn [fst snd]; out.
  - by destruct (build_headers_frame _ _ _ (enqueue wire s1)) as [w2 s2]; cbn [fst snd]; out.
Qed.

Lemma out_response_headers o sid r s :
  do_submit_response_headers sid r (pre o s) = pre o (do_submit_response_headers sid r s).
Proof.
  unfold do_submit_response_headers. rewrite out_build_headers.
  destruct (build_headers_frame _ _ _ s) as [wire s1]. cbn [fst snd]. out.
Qed.

Lemma out_data o sid data fin s :
  do_submit_data sid data fin (pre o s) = pre o (do_submit_data sid data fin s).
Proof. unfold do_submit_data. out; by rewrite out_close. Qed.

Lemma out_trailers o sid ts s :
  do_submit_trailers sid ts (pre o s) = pre o (do_submit_trailers sid ts s).
Proof.
  unfold do_submit_trailers. rewrite out_build_headers.
  destruct (build_headers_frame _ _ _ s) as [wire s1]. cbn [fst snd]. out.
Qed.

Lemma out_push o parent req r s :
  do_submit_push parent req r (pre o s) =
  ('(n, s) ← do_submit_push parent req r s; Ok (n, pre o s)).
Proof.
  unfold do_submit_push. rewrite pre_push, pre_next_push. destruct (negb _); [done|].
  destruct (int_add _ 2); [|done..]. cbn [mbind outcome_bind]. cbv zeta.
  autorewrite with h2_out. destruct (hc_encode _ _) as [block e]. autorewrite with h2_out.
  by rewrite out_response.
Qed.

Lemma out_call o c s : run_call c (pre o s) = pre_ok o (run_call c s).
Proof.
  destruct c; cbn [run_call pre_ok mbind outcome_bind].
  - by rewrite out_response.
  - by rewrite out_response_headers.
  - by rewrite out_data.
  - by rewrite out_trailers.
  - rewrite out_push. by destruct (do_submit_push _ _ _ s) as [[n s1]| | |].
  - done.
Qed.

Lemma out_calls o cs s : run_calls cs (pre o s) = pre_ok o (run_calls cs s).
Proof.
  revert s. induction cs as [|c cs IH]; intros s; cbn [run_calls]; [done|].
  rewrite out_call. destruct (run_call c s); [apply IH|done..].
Qed.

Lemma out_data_cb o cb sid data fin s :
  call_data_cb cb sid data fin (pre o s) = pre_ok o (call_data_cb cb sid data fin s).
Proof.
  unfold call_data_cb. destruct cb as [S st call]. destruct (call st sid data fin) as [[st' calls]| | |];
    [|done..]. cbn [mbind outcome_bind].
  exact (out_calls o calls (set_data_callback sid (Closure st' call) (effect_of (DataDelivered sid data fin) s))).
Qed.

Lemma out_pushes o sid pushes s :
  submit_pushes sid pushes (pre o s) = pre_ok o (submit_pushes sid pushes s).
Proof.
  revert s. induction pushes as [|[req r] pushes IH]; intros s; cbn [submit_pushes]; [done|].
  rewrite out_push. destruct (do_submit_push _ _ _ s) as [[n s1]| | |]; [apply IH|done..].
Qed.

Lemma out_handler o sid r s : run_request_handler sid r (pre o s) = pre_ok o (run_request_handler sid r s).
Proof.
  unfold run_request_handler. rewrite pre_hooks. destruct (request_handler_ (hooks_ s)) as [h|].
  - destruct (h r) as [rsp| | |]; [|done..]. cbn [mbind outcome_bind]. cbv zeta.
    rewrite pre_effect, out_response, pre_hooks, pre_push.
    destruct (push_provider_ _) as [provider|]; [|done].
    destruct (peer_enable_push_ _); [apply out_pushes|done].
  - by rewrite out_response.
Qed.

Lemma out_dispatch o sid s : dispatch_request sid (pre o s) = pre_ok o (dispatch_request sid s).
Proof.
  unfold dispatch_request. rewrite pre_streams. destruct (streams_ s !! sid) as [ss|]; [|done].
  cbv zeta. rewrite pre_update. set (s1 := update_stream _ _ s). set (r := Build_request _ _ _ _ _ _).
  rewrite pre_hooks. destruct (streaming_request_handler_ (hooks_ s1)) as [h|].
  - destruct (h sid r) as [[taken calls]| | |]; [|done..]. cbn [mbind outcome_bind].
    rewrite pre_effect, out_calls.
    destruct (run_calls calls _) as [s2| | |]; [|done..]. cbn [pre_ok mbind outcome_bind].
    destruct taken; [done|apply out_handler].
  - cbn [mbind outcome_bind]. apply out_handler.
Qed.

Lemma out_settle o p f s : settle_promise p f (pre o s) = pre o (settle_promise p f s).
Proof.
  unfold settle_promise. cbv zeta. autorewrite with h2_out.
  destruct (heap_ _ !! p) as [pr|]; [by destruct (pr_waiter pr)|done].
Qed.

Lemma out_complete o sid s : complete_promise sid (pre o s) = pre o (complete_promise sid s).
Proof.
  unfold complete_promise. rewrite pre_streams. destruct (streams_ s !! sid) as [ss|]; [|done].
  cbv zeta. destruct (promise ss) as [p|]; [|done]. rewrite !pre_update. apply out_settle.
Qed.

Lemma out_apply_headers o sid hdrs fin s :
  apply_headers sid hdrs fin (pre o s) = pre_ok o (apply_headers sid hdrs fin s).
Proof.
  unfold apply_headers. cbv zeta. rewrite pre_update. set (s1 := update_stream sid _ s).
  set (s2 := if fin then update_stream sid _ s1 else s1).
  assert ((if fin then update_stream sid (fun ss => ss <| end_stream := true |>) (pre o s1)
           else pre o s1) = pre o s2) as -> by (subst s2; by destruct fin).
  assert ((if fin then dispatch_request sid (pre o s2) else Ok (pre o s2)) =
          pre_ok o (if fin then dispatch_request sid s2 else Ok s2)) as Hd
    by (destruct fin; [apply out_dispatch|done]).
  rewrite pre_hooks, pre_streams. destruct (request_start_handler_ (hooks_ s2)) as [h|]; [|exact Hd].
  destruct (streams_ s2 !! sid) as [ss|]; [|exact Hd].
  destruct (h sid (req ss) fin) as [[taken calls]| | |]; [|done..]. cbn [mbind outcome_bind].
  rewrite pre_effect, out_calls.
  destruct (run_calls calls _) as [s3| | |]; [|done..]. cbn [pre_ok mbind outcome_bind].
  destruct taken; [done|]. destruct fin; [apply out_dispatch|done].
Qed.

Lemma out_block o sid block fin s :
  apply_block sid block fin (pre o s) = pre_ok o (apply_block sid block fin s).
Proof.
  unfold apply_block. rewrite pre_decoder. destruct (hc_decode _ block) as [[hdrs d]| | |]; [|done..].
  cbn [mbind outcome_bind]. cbv zeta. autorewrite with h2_out. destruct (mode_ _).
  - apply out_apply_headers.
  - cbn [pre_ok mbind outcome_bind]. unfold apply_response_headers. rewrite pre_update.
    destruct fin; [by rewrite pre_update, out_complete|done].
Qed.

Lemma out_consume o sid n s :
  consume_stream sid n (consume_conn n (pre o s)) = pre o (consume_stream sid n (consume_conn n s)).
Proof.
  assert (consume_conn n (pre o s) = pre o (consume_conn n s)) as ->.
  { unfold consume_conn. rewrite pre_recv. destruct (replenish _) as [w [i|]]; out. }
  unfold consume_stream. rewrite pre_streams. destruct (streams_ _ !! sid) as [ss|]; [|done].
  destruct (replenish _) as [w [i|]]; out.
Qed.

Lemma out_handle_data o f s : handle_data f (pre o s) = pre_ok o (handle_data f s).
Proof.
  unfold handle_data. cbv zeta. rewrite !out_goaway. destruct (_ =? 0); [done|].
  rewrite pre_streams. destruct (streams_ s !! _) as [ss|]; [|by rewrite pre_enqueue].
  destruct (unpad f) as [ec|[off n]]; [by rewrite out_goaway|].
  set (data := takeZ n _). set (fin := has_flag _ _). set (sid := fh_stream_id _).
  assert (forall s1, (let s := consume_stream sid n (consume_conn n (pre o s1)) in
    if fin then
      match mode_ (update_stream sid (fun ss => ss <| end_stream := true |>) s) with
      | server =>
          if default false (streaming_handled <$>
               streams_ (update_stream sid (fun ss => ss <| end_stream := true |>) s) !! sid)
          then Ok (update_stream sid (fun ss => ss <| end_stream := true |>) s)
          else dispatch_request sid (update_stream sid (fun ss => ss <| end_stream := true |>) s)
      | client => Ok (complete_promise sid (update_stream sid (fun ss => ss <| end_stream := true |>) s))
      end
    else Ok s) = pre_ok o (let s := consume_stream sid n (consume_conn n s1) in
    if fin then
      match mode_ (update_stream sid (fun ss => ss <| end_stream := true |>) s) with
      | server =>
          if default false (streaming_handled <$>
               streams_ (update_stream sid (fun ss => ss <| end_stream := true |>) s) !! sid)
          then Ok (update_stream sid (fun ss => ss <| end_stream := true |>) s)
          else dispatch_request sid (update_stream sid (fun ss => ss <| end_stream := true |>) s)
      | client => Ok (complete_promise sid (update_stream sid (fun ss => ss <| end_stream := true |>) s))
      end
    else Ok s)) as Hrest.
  { intros s1. cbv zeta. rewrite out_consume. destruct fin; [|done].
    rewrite pre_update, pre_mode, pre_streams. destruct (mode_ _).
    - destruct (default _ _); [done|apply out_dispatch].
    - by rewrite out_complete. }
  destruct (data_cb ss) as [cb|].
  - rewrite out_data_cb. destruct (call_data_cb _ _ _ _ s); [apply Hrest|done..].
  - cbn [mbind outcome_bind]. rewrite pre_update. apply Hrest.
Qed.

Lemma out_begin o sid block fin s :
  begin_continuation sid block fin (pre o s) = pre o (begin_continuation sid block fin s).
Proof. unfold begin_continuation. by destruct fin. Qed.

Lemma out_server_headers o sid block eh fin s :
  server_headers sid block eh fin (pre o s) = pre_ok o (server_headers sid block eh fin s).
Proof.
  unfold server_headers. cbv zeta. rewrite !pre_touch, !pre_update, !pre_last, !pre_set_last.
  set (s1 := set_field last_client_stream_ _ _).
  assert ((if eh then apply_block sid block fin (pre o s1)
           else Ok (begin_continuation sid block fin (pre o s1))) =
          pre_ok o (if eh then apply_block sid block fin s1
                    else Ok (begin_continuation sid block fin s1))) as Hd.
  { destruct eh; [apply out_block|]. by rewrite out_begin. }
  rewrite pre_streams. destruct (streams_ s !! sid) as [ss|]; [|exact Hd].
  destruct (_ && fin); [|exact Hd]. destruct (data_cb ss) as [cb|]; [|done].
  rewrite out_data_cb. by destruct (call_data_cb _ _ _ _ s).
Qed.

Lemma out_client_headers o sid block eh fin s :
  client_headers sid block eh fin (pre o s) = pre_ok o (client_headers sid block eh fin s).
Proof.
  unfold client_headers. rewrite pre_streams. destruct (streams_ s !! sid) as [ss|]; [|done].
  rewrite out_begin.
  destruct (data_cb ss) as [cb|]; [|destruct eh; [apply out_block|done]].
  destruct (_ && fin); [|destruct eh; [apply out_block|done]].
  rewrite out_data_cb. destruct (call_data_cb _ _ _ _ s); [apply out_block|done..].
Qed.

Lemma out_handle_headers o f s : handle_headers f (pre o s) = pre_ok o (handle_headers f s).
Proof.
  unfold handle_headers. cbv zeta. rewrite out_goaway. destruct (_ =? 0); [done|].
  destruct (header_fragment f) as [ec|block]; [by rewrite out_goaway|]. rewrite pre_mode.
  destruct (mode_ s); [apply out_server_headers|apply out_client_headers].
Qed.

Lemma out_continuation o f s : handle_continuation f (pre o s) = pre_ok o (handle_continuation f s).
Proof.
  unfold handle_continuation. cbv zeta. rewrite pre_streams, out_goaway.
  destruct (streams_ s !! _) as [ss|]; [|done]. autorewrite with h2_out.
  destruct (has_flag _ _); [apply out_block|done].
Qed.

Lemma out_settings o es s : apply_settings es (pre o s) = pre o (apply_settings es s).
Proof.
  assert (forall e s, apply_setting e (pre o s) = (pre o (apply_setting e s).1, (apply_setting e s).2))
    as Hset.
  { clear. intros e s. unfold apply_setting. cbv zeta. rewrite !out_goaway. out. }
  revert s. induction es as [|e es IH]; intros s; cbn [apply_settings]; [by rewrite pre_enqueue|].
  rewrite Hset. destruct (apply_setting e s) as [s1 [|]]; cbn [fst snd]; [apply IH|done].
Qed.

Lemma out_window o f s : handle_window_update f (pre o s) = pre o (handle_window_update f s).
Proof.
  unfold handle_window_update. cbv zeta. rewrite !out_goaway. autorewrite with h2_out.
  rewrite !out_goaway. out.
Qed.

Lemma out_rst o f s : handle_rst_stream f (pre o s) = pre o (handle_rst_stream f s).
Proof.
  unfold handle_rst_stream. cbv zeta. rewrite out_goaway, pre_streams. destruct (negb _); [done|].
  destruct (streams_ s !! _) as [ss|]; [|done]. destruct (promise ss) as [p|]; [|done].
  by rewrite out_settle.
Qed.

Lemma out_push_promise o f s : handle_push_promise f (pre o s) = pre_ok o (handle_push_promise f s).
Proof.
  unfold handle_push_promise. rewrite pre_mode, out_goaway. destruct (mode_ s); [done|]. cbv zeta.
  rewrite pre_decoder. destruct (hc_decode _ _) as [[hdrs d]| | |]; [|done..].
  cbn [mbind outcome_bind]. autorewrite with h2_out.
  by destruct (push_handler_ _).
Qed.

Lemma out_frame o f s : process_frame f (pre o s) = pre_ok o (process_frame f s).
Proof.
  unfold process_frame. cbv zeta. rewrite pre_cont, !out_goaway.
  destruct (negb (_ =? 0)).
  { destruct (_ || _); [done|apply out_continuation]. }
  destruct (_ =? _); [apply out_handle_data|]. destruct (_ =? _); [apply out_handle_headers|].
  destruct (_ =? _); [done|]. destruct (_ =? _); [by rewrite out_rst|].
  destruct (_ =? _).
  { unfold handle_settings. rewrite !out_goaway, out_settings. cbn [pre_ok mbind outcome_bind]. by repeat case_match. }
  destruct (_ =? _); [apply out_push_promise|].
  destruct (_ =? _).
  { unfold handle_ping. rewrite !out_goaway, pre_enqueue. cbn [pre_ok mbind outcome_bind]. by repeat case_match. }
  destruct (_ =? _); [done|]. destruct (_ =? _); [by rewrite out_window|].
  by destruct (_ =? _).
Qed.
End Handlers.

(** ** Reads with output taken between them *)

Section Reads.
Context `{HC : HeaderCodec E D}.

Implicit Types (s : session E D).

(** What [get_pending_output] leaves. *)
Definition drained s : session E D := s <| output_buf_ := [] |>.

Lemma drained_pre s : s = pre (output_buf_ s) (drained s).
Proof. destruct s. unfold pre, drained, set_field. cbn. by rewrite app_nil_r. Qed.

Lemma out_run o fs (m : outcome (session E D)) :
  run pump_process pump_alive (s ← m; Ok (pre o s)) fs =
  pre_ok o (run pump_process pump_alive m fs).
Proof.
  revert m. induction fs as [|f fs IH]; intros m; cbn [run]; [done|].
  assert (pump_alive (s ← m; Ok (pre o s)) = pump_alive m) as -> by by destruct m.
  destruct (pump_alive m); [|done]. rewrite <- IH. f_equal.
  destruct m as [s| | |]; cbn [pump_process mbind outcome_bind]; [apply out_frame|done..].
Qed.

(** One read by a live session that has seen a first read. *)
Lemma feed_read r b s d s1 :
  absorbed r b -> parse1 b = None -> alive_ s = true -> prefaced s = s ->
  run pump_process pump_alive (Ok s) (parse_all (b ++ d)).1 = Ok s1 ->
  exists r1 n, feed r s d = Ok (r1, s1, n) /\ 0 <= n /\ prefaced s1 = s1 /\
    (alive_ s1 = true -> absorbed r1 (parse_all (b ++ d)).2).
Proof.
  intros Hr Hb Ha Hp Hrun. unfold feed. rewrite Ha. cbn [negb]. fold (prefaced s). rewrite Hp.
  pose proof (pump_spec pump_process pump_alive r b (Ok s) d Hr Hb) as Hspec.
  destruct (pump _ _ r (Ok s) d) as [[r1 m] n]. destruct Hspec as (Hm & Hn & Hlive).
  rewrite Hrun in Hm. subst m. cbn [mbind outcome_bind]. exists r1, n.
  split; [done|]. split; [lia|].
  assert (same_side s s1) as Hside by (eapply run_side; [apply parse_all_ok|exact Hrun]).
  split; [|intros Ha1; by destruct (Hlive Ha1) as (_ & H & _)].
  apply prefaced_same. destruct Hside as [-> ->]. intros Hmode. rewrite <- Hp.
  unfold prefaced. by rewrite Hmode.
Qed.

(** The rest of the run, from the session without its output. *)
Lemma run_drained s fs s2 :
  run pump_process pump_alive (Ok s) fs = Ok s2 ->
  exists s3, run pump_process pump_alive (Ok (drained s)) fs = Ok s3 /\ s2 = pre (output_buf_ s) s3.
Proof.
  rewrite (drained_pre s) at 1. intros H.
  pose proof (out_run (output_buf_ s) fs (Ok (drained s))) as Ho. cbn [mbind outcome_bind] in Ho.
  rewrite H in Ho. unfold pre_ok in Ho.
  destruct (run _ _ (Ok (drained s)) fs) as [s3| | |]; [|done..]. cbn [mbind outcome_bind] in Ho.
  exists s3. split; [done|]. congruence.
Qed.
End Reads.
