(* ===== verification/H2Delivery.v ===== *)
(** * Delivery of requests and responses over HTTP/2

    What one session writes for a request or a response, the other reads back:
    the header block in HEADERS and CONTINUATION frames, the body in DATA frames,
    and the event that ends the stream. *)
From S2P Require Import Prelude Framing HeaderTable Hpack H2Frame CppString HttpTypes.
From S2P Require Import H2Session H2SessionFacts.
From stdpp Require Import options.

(** ** What is received *)

(** The lowercase name of a field, and whether a request keeps the field. *)
Definition kept_in_request (kv : header) : option header :=
  let lk := to_lower kv.1 in
  if bool_decide (lk = str "host") || bool_decide (lk = str "connection") then None
  else Some (lk, kv.2).

(** The request a server sees: the host first, names in lower case; the path
    defaults to [/], and the query is not transmitted. *)
Definition received_request (r : request) : request :=
  {| rq_method := rq_method r;
     rq_path := if bool_decide (rq_path r = []) then str "/" else rq_path r;
     rq_query := []; rq_ver := HTTP_2;
     rq_hdrs := (str "Host", default (str "localhost") (headers_get (rq_hdrs r) (str "Host")))
                :: omap kept_in_request (rq_hdrs r);
     rq_bd := rq_bd r |}.

(** The response a client sees; trailers come after the headers, in the same
    container. *)
Definition received_response (r : response) : response :=
  {| rs_status := rs_status r; rs_ver := HTTP_2;
     rs_hdrs := tail (response_headers r) ++ trailer_headers (rs_trailers r);
     rs_bd := rs_bd r; rs_trailers := [] |}.

(** The name of a field is not that of a pseudo-header. *)
Definition plain_name (kv : header) : Prop := byte_at (to_lower kv.1) 0 <> x3a.

Lemma apply_header_plain r kv : byte_at kv.1 0 <> x3a -> apply_header r kv = put_header r kv.
Proof.
  destruct kv as [name value]. cbn [fst]. intros Hn. unfold apply_header.
  rewrite !(bool_decide_eq_false_2 (name = _)) by by apply not_pseudo. cbn [orb].
  by rewrite bool_decide_eq_false_2.
Qed.

Lemma kept_plain hs :
  Forall plain_name hs -> Forall (fun kv => byte_at kv.1 0 <> x3a) (omap kept_in_request hs).
Proof.
  induction 1 as [|[k v] hs Hk _ IH]; cbn; [constructor|]. unfold kept_in_request.
  destruct (_ || _); [exact IH|]. by constructor.
Qed.

Lemma apply_path r (path : bytes) :
  x3f ∉ path -> path <> [] ->
  apply_header r (str ":path", path) =
  {| rq_method := rq_method r; rq_path := path; rq_query := rq_query r; rq_ver := rq_ver r;
     rq_hdrs := rq_hdrs r; rq_bd := rq_bd r |}.
Proof.
  intros Hq Hne. unfold apply_header. rewrite find_char_absent by done.
  rewrite (bool_decide_eq_false_2 (path = [])) by done. done.
Qed.

Lemma request_roundtrip r :
  Forall plain_name (rq_hdrs r) -> x3f ∉ rq_path r ->
  http2_request (foldl apply_header request_default (request_headers r)) =
  received_request {| rq_method := rq_method r; rq_path := rq_path r; rq_query := rq_query r;
                      rq_ver := rq_ver r; rq_hdrs := rq_hdrs r; rq_bd := [] |}.
Proof.
  intros Hp Hq. unfold request_headers. rewrite foldl_app. cbn [foldl].
  set (path := if bool_decide (rq_path r = []) then _ else _).
  assert (Hpath : (x3f ∉ path) /\ path <> []).
  { unfold path. case_bool_decide as E; [|done]. split; [|done]. by apply (bool_decide_unpack _). }
  destruct Hpath as [Hq' Hne].
  assert (Hm : apply_header request_default (str ":method", method_to_string (rq_method r)) =
               {| rq_method := rq_method r; rq_path := str "/"; rq_query := []; rq_ver := HTTP_11;
                  rq_hdrs := []; rq_bd := [] |}).
  { unfold apply_header. rewrite parse_method_to_string. done. }
  rewrite Hm, apply_path by done. rewrite (foldl_plain _ put_header), foldl_put_header.
  - done.
  - apply apply_header_plain.
  - by apply kept_plain.
Qed.

Definition put_field (r : response) (kv : header) : response :=
  {| rs_status := rs_status r; rs_ver := rs_ver r; rs_hdrs := rs_hdrs r ++ [kv];
     rs_bd := rs_bd r; rs_trailers := rs_trailers r |}.

Lemma apply_field_plain r kv : byte_at kv.1 0 <> x3a -> apply_response_header r kv = put_field r kv.
Proof.
  destruct kv as [name value]. cbn [fst]. intros Hn. unfold apply_response_header.
  rewrite (bool_decide_eq_false_2 (name = _)) by by apply not_pseudo.
  by rewrite bool_decide_eq_false_2.
Qed.

Lemma foldl_put_field r hs :
  foldl put_field r hs =
  {| rs_status := rs_status r; rs_ver := rs_ver r; rs_hdrs := rs_hdrs r ++ hs;
     rs_bd := rs_bd r; rs_trailers := rs_trailers r |}.
Proof.
  revert r. induction hs as [|h hs IH]; intros r; cbn.
  - rewrite app_nil_r. by destruct r.
  - rewrite IH. cbn. by rewrite <- app_assoc.
Qed.

Lemma apply_fields r hs :
  Forall (fun kv => byte_at kv.1 0 <> x3a) hs ->
  foldl apply_response_header r hs =
  {| rs_status := rs_status r; rs_ver := rs_ver r; rs_hdrs := rs_hdrs r ++ hs;
     rs_bd := rs_bd r; rs_trailers := rs_trailers r |}.
Proof.
  intros Hh. rewrite (foldl_plain _ put_field) by (done || apply apply_field_plain).
  apply foldl_put_field.
Qed.

Lemma response_tail_plain r :
  Forall plain_name (rs_hdrs r) ->
  Forall (fun kv => byte_at kv.1 0 <> x3a) (tail (response_headers r)).
Proof.
  intros Hp. unfold response_headers, status_headers. cbn [tail app].
  repeat rewrite Forall_app. split_and!.
  - destruct (headers_get _ _); by repeat constructor.
  - case_bool_decide; by repeat constructor.
  - unfold other_headers. induction Hp as [|[k v] hs Hk _ IH]; cbn; [constructor|].
    destruct (_ || _); [exact IH|]. by constructor.
Qed.

Lemma trailers_plain ts :
  Forall plain_name ts -> Forall (fun kv => byte_at kv.1 0 <> x3a) (trailer_headers ts).
Proof. intros Hp. unfold trailer_headers. induction Hp; by constructor. Qed.

Lemma response_fields r :
  Forall plain_name (rs_hdrs r) -> 0 <= rs_status r < 2 ^ 31 ->
  foldl apply_response_header response_default (response_headers r) =
  {| rs_status := rs_status r; rs_ver := HTTP_11; rs_hdrs := tail (response_headers r);
     rs_bd := []; rs_trailers := [] |}.
Proof.
  intros Hp Hs. assert (E : response_headers r =
    (str ":status", to_string (rs_status r)) :: tail (response_headers r)) by done.
  rewrite E. cbn [foldl tail]. rewrite apply_fields by by apply response_tail_plain.
  unfold apply_response_header. rewrite bool_decide_eq_true_2 by done.
  unfold from_chars_value. rewrite from_chars_to_string by (unfold INT_MIN, INT_MAX; lia). done.
Qed.

(** ** The frames of a block and of a body *)

Definition frame_of (t fl sid : Z) (pl : bytes) : frame :=
  {| hdr := {| fh_length := len pl; fh_type := t; fh_flags := fl; fh_stream_id := sid |};
     payload := pl |}.

(** What [max] bytes at a time makes of a string. *)
Fixpoint chunks_of (fuel : nat) (max : Z) (data : bytes) : list bytes :=
  match fuel with
  | O => []
  | S fuel => if len data =? 0 then [] else takeZ max data :: chunks_of fuel max (dropZ max data)
  end.

(** Frames of type [t] with these payloads; the last one carries the flag. *)
Fixpoint frames_of (t last_flag sid : Z) (pls : list bytes) : list frame :=
  match pls with
  | [] => []
  | [pl] => [frame_of t last_flag sid pl]
  | pl :: pls => frame_of t 0 sid pl :: frames_of t last_flag sid pls
  end.

Lemma chunks_concat fuel max data :
  0 < max -> (length data <= fuel)%nat -> concat (chunks_of fuel max data) = data.
Proof.
  intros Hm. revert data. induction fuel as [|fuel IH]; intros data Hf; cbn [chunks_of].
  - by destruct data; [|cbn in Hf; lia].
  - destruct (Z.eqb_spec (len data) 0) as [E|E].
    + by destruct data; [|unfold len in E; cbn in E; lia].
    + cbn. rewrite IH; [by rewrite takeZ_dropZ|].
      unfold dropZ, len in *. rewrite length_drop. lia.
Qed.

Lemma chunks_bound fuel max data :
  0 < max -> Forall (fun pl => 0 < len pl <= max) (chunks_of fuel max data).
Proof.
  intros Hm. revert data. induction fuel as [|fuel IH]; intros data; cbn [chunks_of]; [constructor|].
  destruct (Z.eqb_spec (len data) 0); constructor; [|apply IH]. blia.
Qed.

Lemma chunks_nil fuel max data :
  (length data <= fuel)%nat -> chunks_of fuel max data = [] -> data = [].
Proof.
  destruct fuel as [|fuel]; cbn; intros Hf; [by destruct data; [|cbn in Hf; lia]|].
  destruct (Z.eqb_spec (len data) 0) as [E|]; [|done].
  by destruct data; [|unfold len in E; cbn in E; lia].
Qed.

Lemma chunks_fuel fuel max : chunks_of fuel max [] = [].
Proof. by destruct fuel. Qed.

(** One step of the frames of a body: the flag is on the last chunk. *)
Lemma frames_step t fl sid fuel max data :
  0 < max -> (length (dropZ max data) <= fuel)%nat -> len data <> 0 ->
  concat (map frame_wire (frames_of t fl sid (chunks_of (S fuel) max data))) =
  build_frame t (if len (dropZ max data) =? 0 then fl else 0) sid (takeZ max data) ++
  concat (map frame_wire (frames_of t fl sid (chunks_of fuel max (dropZ max data)))).
Proof.
  intros Hm Hf Hne. cbn [chunks_of]. rewrite (proj2 (Z.eqb_neq _ 0)) by done.
  destruct (chunks_of fuel max (dropZ max data)) as [|pl pls] eqn:E.
  - assert (Hd : dropZ max data = []).
    { by apply (chunks_nil fuel max). }
    rewrite Hd. cbn. done.
  - assert (Hd : len (dropZ max data) <> 0).
    { intros Hd. destruct (dropZ max data); [|unfold len in Hd; cbn in Hd; lia].
      by rewrite chunks_fuel in E. }
    rewrite (proj2 (Z.eqb_neq _ 0)) by done. done.
Qed.

Lemma data_frames_wire fuel max sid fin data :
  0 < max -> (length data <= fuel)%nat ->
  data_frames fuel max sid fin data =
  concat (map frame_wire (frames_of frame_type.DATA (if fin then flag.END_STREAM else 0) sid
                            (chunks_of fuel max data))).
Proof.
  intros Hm. revert data. induction fuel as [|fuel IH]; intros data Hf; [done|].
  destruct (Z.eqb_spec (len data) 0) as [E|E].
  { cbn [data_frames chunks_of]. by rewrite E. }
  assert (Hd : (length (dropZ max data) <= fuel)%nat).
  { unfold dropZ, len in *. rewrite length_drop. lia. }
  rewrite frames_step by done.
  cbn [data_frames]. rewrite (proj2 (Z.eqb_neq _ 0)) by done. rewrite IH by done.
  by destruct fin, (_ =? 0).
Qed.

Lemma continuation_frames_wire fuel max sid block :
  0 < max -> (length block <= fuel)%nat ->
  continuation_frames fuel max sid block =
  concat (map frame_wire (frames_of frame_type.CONTINUATION flag.END_HEADERS sid
                            (chunks_of fuel max block))).
Proof.
  intros Hm. revert block. induction fuel as [|fuel IH]; intros block Hf; [done|].
  destruct (Z.eqb_spec (len block) 0) as [E|E].
  { cbn [continuation_frames chunks_of]. by rewrite E. }
  assert (Hd : (length (dropZ max block) <= fuel)%nat).
  { unfold dropZ, len in *. rewrite length_drop. lia. }
  rewrite frames_step by done. cbn [continuation_frames].
  rewrite (proj2 (Z.eqb_neq _ 0)) by done. by rewrite IH.
Qed.

Definition header_frames (sid flags max : Z) (block : bytes) : list frame :=
  if len block <=? max then
    [frame_of frame_type.HEADERS (Z.lor flags flag.END_HEADERS) sid block]
  else
    frame_of frame_type.HEADERS flags sid (takeZ max block) ::
    frames_of frame_type.CONTINUATION flag.END_HEADERS sid
      (chunks_of (length block) max (dropZ max block)).

Definition body_frames (sid max : Z) (fin : bool) (data : bytes) : list frame :=
  frames_of frame_type.DATA (if fin then flag.END_STREAM else 0) sid
    (chunks_of (length data) max data).

Lemma frame_of_ok t fl sid pl :
  0 <= t < 256 -> 0 <= fl < 256 -> 0 <= sid < 2 ^ 31 -> len pl < 2 ^ 24 ->
  frame_ok (frame_of t fl sid pl).
Proof. intros. split; [|done]. unfold header_ok; cbn. blia. Qed.

Lemma frames_of_ok t fl sid max pls :
  0 <= t < 256 -> 0 <= fl < 256 -> 0 <= sid < 2 ^ 31 -> max < 2 ^ 24 ->
  Forall (fun pl => 0 < len pl <= max) pls -> Forall frame_ok (frames_of t fl sid pls).
Proof.
  intros Ht Hfl Hs Hm Hp. induction Hp as [|pl pls Hl _ IH]; [constructor|]. cbn.
  destruct pls; repeat constructor; try apply IH; apply frame_of_ok; lia.
Qed.

Lemma header_frames_ok sid flags max block :
  0 <= sid < 2 ^ 31 -> 0 < max < 2 ^ 24 -> flags = 0 \/ flags = flag.END_STREAM ->
  Forall frame_ok (header_frames sid flags max block).
Proof.
  intros Hs Hm Hfl. assert (Hf : 0 <= flags < 256 /\ 0 <= Z.lor flags flag.END_HEADERS < 256).
  { by destruct Hfl as [-> | ->]. }
  unfold header_frames. destruct (Z.leb_spec (len block) max).
  - constructor; [|constructor]. apply frame_of_ok; [done|lia..].
  - constructor; [apply frame_of_ok; [done|lia|lia|blia]|].
    apply (frames_of_ok _ _ _ max); [done..|lia|lia|]. apply chunks_bound; lia.
Qed.

Lemma body_frames_ok sid max fin data :
  0 <= sid < 2 ^ 31 -> 0 < max < 2 ^ 24 -> Forall frame_ok (body_frames sid max fin data).
Proof.
  intros. apply (frames_of_ok _ _ _ max); [done|by destruct fin|lia|lia|]. apply chunks_bound; lia.
Qed.

Section Wire.
Context `{HC : HeaderCodec E D}.
Implicit Types (s : session E D) (ss : stream_state).

Lemma build_headers_wire sid flags hdrs s :
  0 < peer_max_frame_size_ s ->
  build_headers_frame sid flags hdrs s =
  (concat (map frame_wire (header_frames sid flags (peer_max_frame_size_ s)
             (hc_encode (encoder_ s) hdrs).1)),
   s <| encoder_ := (hc_encode (encoder_ s) hdrs).2 |>).
Proof.
  intros Hm. unfold build_headers_frame, header_frames.
  destruct (hc_encode (encoder_ s) hdrs) as [block e]. cbn [fst snd peer_max_frame_size_ set_field].
  destruct (Z.leb_spec (len block) (peer_max_frame_size_ s)).
  - cbn. by rewrite app_nil_r.
  - rewrite continuation_frames_wire; [done|done|]. unfold dropZ. rewrite length_drop. lia.
Qed.

Lemma build_data_wire sid data s :
  0 < peer_max_frame_size_ s -> data <> [] -> forall b,
  build_data_frames sid data b s =
  concat (map frame_wire (body_frames sid (peer_max_frame_size_ s) (negb b) data)).
Proof.
  intros Hm Hne b. unfold build_data_frames, body_frames.
  rewrite data_frames_wire by done. destruct (Z.eqb_spec (len data) 0) as [E0|]; cbn [andb].
  - destruct data; [done|]. unfold len in E0; cbn in E0; lia.
  - by rewrite app_nil_r.
Qed.

(** The frames of a response. *)
Definition has_body (r : response) : bool := negb (bool_decide (rs_bd r = [])).
Definition has_trailers (r : response) : bool := negb (bool_decide (rs_trailers r = [])).

Definition response_frames (sid max : Z) (e : E) (r : response) : list frame :=
  let '(block, e) := hc_encode e (response_headers r) in
  header_frames sid (if has_body r || has_trailers r then 0 else flag.END_STREAM) max block ++
  (if has_body r then body_frames sid max (negb (has_trailers r)) (rs_bd r) else []) ++
  (if has_trailers r
   then header_frames sid flag.END_STREAM max (hc_encode e (trailer_headers (rs_trailers r))).1
   else []).

(** The encoder after a response. *)
Definition response_encoder (e : E) (r : response) : E :=
  let e := (hc_encode e (response_headers r)).2 in
  if has_trailers r then (hc_encode e (trailer_headers (rs_trailers r))).2 else e.

Lemma enqueue_twice a b s : enqueue b (enqueue a s) = enqueue (a ++ b) s.
Proof. unfold enqueue, set_field. cbn. by rewrite <- app_assoc. Qed.

Lemma enqueue_encoder a b e s :
  enqueue b ((enqueue a s) <| encoder_ := e |>) = enqueue (a ++ b) (s <| encoder_ := e |>).
Proof.
  change ((enqueue a s) <| encoder_ := e |>) with (enqueue a (s <| encoder_ := e |>)).
  apply enqueue_twice.
Qed.

Lemma submit_response_wire sid r s :
  0 < peer_max_frame_size_ s ->
  do_submit_response sid r s =
  close_stream sid
    (enqueue (concat (map frame_wire
                (response_frames sid (peer_max_frame_size_ s) (encoder_ s) r)))
       (s <| encoder_ := response_encoder (encoder_ s) r |>)).
Proof.
  intros Hm. unfold do_submit_response, response_frames, response_encoder.
  fold (has_body r) (has_trailers r). rewrite build_headers_wire by done.
  destruct (hc_encode (encoder_ s) (response_headers r)) as [b1 e1]. cbn [fst snd].
  set (max := peer_max_frame_size_ s). set (f1 := header_frames _ _ max b1).
  destruct (has_body r) eqn:Eb, (has_trailers r) eqn:Et; cbn [orb negb] in *.
  - rewrite build_data_wire by (done || unfold has_body in Eb; by case_bool_decide).
    rewrite build_headers_wire by done. cbn [fst snd]. rewrite !enqueue_twice.
    rewrite enqueue_encoder, !map_app, !concat_app, app_assoc. done.
  - rewrite build_data_wire by (done || unfold has_body in Eb; by case_bool_decide).
    rewrite !enqueue_twice, !map_app, !concat_app. cbn [map concat]. by rewrite !app_nil_r.
  - rewrite build_headers_wire by done. cbn [fst snd]. by rewrite enqueue_encoder, !map_app, !concat_app.
  - rewrite !map_app, !concat_app. cbn [map concat]. by rewrite !app_nil_r.
Qed.

(** ** Receiving a block *)

Lemma alter_alter {A} (g h : A -> A) (i : Z) (m : gmap Z A) :
  alter g i (alter h i m) = alter (fun a => g (h a)) i m.
Proof.
  apply map_eq. intros j. destruct (decide (j = i)) as [->|Hne].
  - rewrite !lookup_alter_eq. by destruct (m !! i).
  - by rewrite !lookup_alter_ne.
Qed.

Abbreviation run_frames := (run (S := outcome (session E D)) pump_process pump_alive).

Lemma run_step f fs s :
  alive_ s = true -> run_frames (Ok s) (f :: fs) = run_frames (process_frame f s) fs.
Proof. intros Ha. cbn [run]. change (pump_alive (Ok s)) with (alive_ s). by rewrite Ha. Qed.

Lemma process_continuation f s :
  fh_type (hdr f) = frame_type.CONTINUATION -> continuation_stream_ s <> 0 ->
  fh_stream_id (hdr f) = continuation_stream_ s -> process_frame f s = handle_continuation f s.
Proof.
  intros Ht Hc Hs. unfold process_frame.
  rewrite Ht, Hs, !Z.eqb_refl. by destruct (Z.eqb_spec (continuation_stream_ s) 0).
Qed.

(** The state when the block is complete. *)
Definition block_done (sid : Z) (s : session E D) : session E D :=
  update_stream sid (fun ss => ss <| pending_header_block := [] |>)
    (s <| continuation_stream_ := 0 |>).

Lemma update_stream_twice sid (g h : stream_state -> stream_state) s :
  update_stream sid g (update_stream sid h s) = update_stream sid (fun ss => g (h ss)) s.
Proof.
  transitivity (s <| streams_ := alter g sid (alter h sid (streams_ s)) |>); [done|].
  by rewrite alter_alter.
Qed.

Lemma block_done_pending sid block s :
  update_stream sid (fun ss => ss <| pending_header_block := [] |>)
    ((update_stream sid (fun ss => ss <| pending_header_block := block |>) s)
       <| continuation_stream_ := 0 |>) = block_done sid s.
Proof.
  change (update_stream sid (fun ss => ss <| pending_header_block := [] |>)
    (update_stream sid (fun ss => ss <| pending_header_block := block |>)
       (s <| continuation_stream_ := 0 |>)) = block_done sid s).
  by rewrite update_stream_twice.
Qed.

Lemma block_done_update sid block s :
  block_done sid (update_stream sid (fun ss => ss <| pending_header_block := block |>) s) =
  block_done sid s.
Proof. apply block_done_pending. Qed.

Lemma continuation_run pls sid s ss :
  sid <> 0 -> alive_ s = true -> continuation_stream_ s = sid -> streams_ s !! sid = Some ss ->
  pls <> [] ->
  run_frames (Ok s) (frames_of frame_type.CONTINUATION flag.END_HEADERS sid pls) =
  apply_block sid (pending_header_block ss ++ concat pls) (end_stream ss) (block_done sid s).
Proof.
  intros H0. revert s ss. induction pls as [|pl pls IH]; intros s ss Ha Hc Hss Hne; [done|].
  destruct pls as [|pl' pls].
  - cbn [frames_of]. rewrite run_step by done. cbn [run].
    rewrite process_continuation by (cbn; congruence). unfold handle_continuation. cbn [fh_stream_id hdr frame_of].
    rewrite Hss. cbn [has_flag fh_flags]. change (has_flag _ flag.END_HEADERS) with true. cbv iota.
    cbn [concat payload]. rewrite app_nil_r. by rewrite block_done_pending.
  - change (frames_of frame_type.CONTINUATION flag.END_HEADERS sid (pl :: pl' :: pls)) with
      (frame_of frame_type.CONTINUATION 0 sid pl ::
       frames_of frame_type.CONTINUATION flag.END_HEADERS sid (pl' :: pls)).
    rewrite run_step by done. rewrite process_continuation by (cbn; congruence).
    unfold handle_continuation. cbn [fh_stream_id hdr frame_of payload]. rewrite Hss.
    change (has_flag _ flag.END_HEADERS) with false. cbv iota.
    set (s1 := update_stream _ _ s).
    rewrite (IH s1 (ss <| pending_header_block := pending_header_block ss ++ pl |>)); [|done|done| |done].
    + cbn [concat pending_header_block set_field end_stream]. rewrite <- app_assoc.
      unfold s1. by rewrite block_done_update.
    + unfold s1. cbn. by rewrite lookup_alter_eq, Hss.
Qed.

Lemma update_stream_ext sid (g h : stream_state -> stream_state) s ss :
  streams_ s !! sid = Some ss -> g ss = h ss -> update_stream sid g s = update_stream sid h s.
Proof.
  intros Hss Hg. unfold update_stream.
  assert (Hm : alter g sid (streams_ s) = alter h sid (streams_ s)); [|by unfold set_field; cbn; rewrite Hm].
  apply map_eq. intros j. destruct (decide (j = sid)) as [->|Hne].
  - rewrite !lookup_alter_eq, Hss. cbn. by rewrite Hg.
  - by rewrite !lookup_alter_ne.
Qed.

Lemma update_stream_id sid (g : stream_state -> stream_state) s ss :
  streams_ s !! sid = Some ss -> g ss = ss -> update_stream sid g s = s.
Proof.
  intros Hss Hg. rewrite (update_stream_ext sid g (fun ss => ss) s ss) by done.
  unfold update_stream. assert (Hm : alter (fun ss => ss) sid (streams_ s) = streams_ s).
  { apply map_eq. intros j. destruct (decide (j = sid)) as [->|Hne].
    - by rewrite lookup_alter_eq, Hss.
    - by rewrite lookup_alter_ne. }
  unfold set_field; cbn. rewrite Hm. by destruct s.
Qed.

Lemma continuation_id s : continuation_stream_ s = 0 -> s <| continuation_stream_ := 0 |> = s.
Proof. destruct s; cbn. by intros ->. Qed.

(** A block that took CONTINUATION frames leaves the stream as one that did not,
    but for the end of the stream. *)
Lemma begin_done sid block fin s ss :
  streams_ s !! sid = Some ss -> pending_header_block ss = [] -> continuation_stream_ s = 0 ->
  block_done sid (begin_continuation sid block fin s) =
  if fin then update_stream sid (fun ss => ss <| end_stream := true |>) s else s.
Proof.
  intros Hss Hp Hc.
  assert (Hm : block_done sid (begin_continuation sid block fin s) =
    update_stream sid (fun ss => ss <| pending_header_block := [] |>)
      (if fin then update_stream sid (fun ss => ss <| end_stream := true |>)
                     (s <| continuation_stream_ := 0 |>)
       else s <| continuation_stream_ := 0 |>)).
  { destruct fin.
    - change (update_stream sid (fun ss => ss <| pending_header_block := [] |>)
        (update_stream sid (fun ss => ss <| end_stream := true |>)
           (update_stream sid (fun ss => ss <| pending_header_block := block |>)
              (s <| continuation_stream_ := 0 |>))) =
        update_stream sid (fun ss => ss <| pending_header_block := [] |>)
          (update_stream sid (fun ss => ss <| end_stream := true |>)
             (s <| continuation_stream_ := 0 |>))).
      by rewrite !update_stream_twice.
    - apply block_done_pending. }
  rewrite Hm. clear Hm. rewrite (continuation_id s Hc). destruct fin.
  - apply (update_stream_id _ _ _ (ss <| end_stream := true |>)).
    + cbn. by rewrite lookup_alter_eq, Hss.
    + destruct ss; cbn in *. by rewrite Hp.
  - apply (update_stream_id _ _ _ ss); [done|]. destruct ss; cbn in *. by rewrite Hp.
Qed.

Lemma apply_block_end sid block s :
  apply_block sid block true (update_stream sid (fun ss => ss <| end_stream := true |>) s) =
  apply_block sid block true s.
Proof.
  unfold apply_block. cbn [decoder_ update_stream set_field].
  destruct (hc_decode (decoder_ s) block) as [[hdrs d]| | |]; cbn; try done.
  destruct (mode_ s); unfold apply_headers, apply_response_headers;
    change ((update_stream sid (fun ss => ss <| end_stream := true |>) s) <| decoder_ := d |>)
      with (update_stream sid (fun ss => ss <| end_stream := true |>) (s <| decoder_ := d |>));
    by rewrite !update_stream_twice.
Qed.

(** What a handler of HEADERS frames does in the state [s0] it has prepared. *)
Definition takes_headers (sid : Z) (fin : bool) s s0 : Prop :=
  forall block eh,
    match mode_ s with
    | server => server_headers sid block eh fin s
    | client => client_headers sid block eh fin s
    end = if eh : bool then apply_block sid block fin s0
          else Ok (begin_continuation sid block fin s0).

Definition headers_flags (fin eh : bool) : Z :=
  Z.lor (if fin then flag.END_STREAM else 0) (if eh then flag.END_HEADERS else 0).

Lemma unpadded_fragment fin eh sid pl :
  header_fragment (frame_of frame_type.HEADERS (headers_flags fin eh) sid pl) = inr pl.
Proof.
  unfold header_fragment, unpad. set (f := frame_of _ _ _ _).
  assert (Hp : has_flag (hdr f) flag.PADDED = false) by by destruct fin, eh.
  assert (Hr : has_flag (hdr f) flag.PRIORITY = false) by by destruct fin, eh.
  rewrite Hp, Hr. change (payload f) with pl. by rewrite dropZ_0, takeZ_all.
Qed.

Lemma process_headers fin eh sid pl s s0 :
  continuation_stream_ s = 0 -> sid <> 0 -> takes_headers sid fin s s0 ->
  process_frame (frame_of frame_type.HEADERS (headers_flags fin eh) sid pl) s =
  if eh then apply_block sid pl fin s0 else Ok (begin_continuation sid pl fin s0).
Proof.
  intros Hc H0 Ht. unfold process_frame. rewrite Hc. cbn [Z.eqb negb].
  transitivity (handle_headers (frame_of frame_type.HEADERS (headers_flags fin eh) sid pl) s);
    [done|].
  unfold handle_headers. rewrite unpadded_fragment.
  change (fh_stream_id _) with sid. rewrite (proj2 (Z.eqb_neq sid 0)) by done.
  rewrite <- Ht. by destruct fin, eh.
Qed.

Lemma headers_run sid fin max block s s0 ss :
  sid <> 0 -> 0 < max -> alive_ s = true -> continuation_stream_ s = 0 ->
  takes_headers sid fin s s0 -> alive_ s0 = true -> continuation_stream_ s0 = 0 ->
  streams_ s0 !! sid = Some ss -> pending_header_block ss = [] ->
  (fin = false -> end_stream ss = false) ->
  run_frames (Ok s) (header_frames sid (if fin then flag.END_STREAM else 0) max block) =
  apply_block sid block fin s0.
Proof.
  intros H0 Hm Ha Hc Ht Ha0 Hc0 Hss Hp He. unfold header_frames.
  destruct (Z.leb_spec (len block) max).
  - rewrite run_step by done. cbn [run]. exact (process_headers fin true sid block s s0 Hc H0 Ht).
  - rewrite run_step by done.
    assert (Hf : process_frame (frame_of frame_type.HEADERS (if fin then flag.END_STREAM else 0) sid
      (takeZ max block)) s = Ok (begin_continuation sid (takeZ max block) fin s0)).
    { rewrite <- (process_headers fin false sid (takeZ max block) s s0 Hc H0 Ht). by destruct fin. }
    rewrite Hf. clear Hf. set (s1 := begin_continuation _ _ _ _).
    assert (Hs1 : streams_ s1 !! sid = Some (if fin
      then ss <| pending_header_block := takeZ max block |> <| end_stream := true |>
      else ss <| pending_header_block := takeZ max block |>)).
    { unfold s1, begin_continuation. destruct fin; cbn; by rewrite !lookup_alter_eq, Hss. }
    assert (Hne : chunks_of (length block) max (dropZ max block) <> []).
    { intros Hn%chunks_nil; [|unfold dropZ; rewrite length_drop; lia].
      apply (f_equal len) in Hn. blia. }
    assert (Hs1a : alive_ s1 = true) by by unfold s1, begin_continuation; destruct fin.
    assert (Hs1c : continuation_stream_ s1 = sid) by by unfold s1, begin_continuation; destruct fin.
    change (run_frames (Ok s1) (frames_of frame_type.CONTINUATION flag.END_HEADERS sid
      (chunks_of (length block) max (dropZ max block))) = apply_block sid block fin s0).
    rewrite (continuation_run _ sid s1 _ H0 Hs1a Hs1c Hs1 Hne).
    rewrite chunks_concat by (done || unfold dropZ; rewrite length_drop; lia).
    unfold s1. rewrite (begin_done _ _ _ _ ss) by done. destruct fin; cbn; rewrite takeZ_dropZ.
    + apply apply_block_end.
    + by rewrite He.
Qed.

(** ** Receiving a body *)

(** What receiving DATA frames leaves alone. *)
Record heard s s' : Prop := {
  heard_alive : alive_ s' = alive_ s;
  heard_mode : mode_ s' = mode_ s;
  heard_continuation : continuation_stream_ s' = continuation_stream_ s;
  heard_encoder : encoder_ s' = encoder_ s;
  heard_max : peer_max_frame_size_ s' = peer_max_frame_size_ s;
  heard_push : peer_enable_push_ s' = peer_enable_push_ s;
  heard_hooks : hooks_ s' = hooks_ s;
  heard_completed : completed_promises_ s' = completed_promises_ s;
  heard_heap : heap_ s' = heap_ s;
  heard_effects : effects_ s' = effects_ s
}.

#[local] Instance heard_preorder : PreOrder heard.
Proof.
  split; [by split|]. intros s1 s2 s3 [] []. split; congruence.
Qed.

(** What the receiver grants in return: WINDOW_UPDATE frames, as pairs of a
    stream (0 for the connection) and an increment. *)
Definition grant_frame (u : Z * Z) : frame :=
  frame_of frame_type.WINDOW_UPDATE 0 u.1 (be32 (Z.land u.2 0x7FFFFFFF)).

Definition grants_wire (ups : list (Z * Z)) : bytes := concat (map frame_wire (map grant_frame ups)).

Definition grant_ok (sid : Z) (u : Z * Z) : Prop := (u.1 = 0 \/ u.1 = sid) /\ 0 < u.2 < 2 ^ 31.

(** The sum of the increments of a stream. *)
Fixpoint total (id : Z) (ups : list (Z * Z)) : Z :=
  match ups with
  | [] => 0
  | u :: ups => (if u.1 =? id then u.2 else 0) + total id ups
  end.

Lemma total_app id us vs : total id (us ++ vs) = total id us + total id vs.
Proof. induction us as [|u us IH]; cbn; lia. Qed.

Lemma grants_wire_app us vs : grants_wire (us ++ vs) = grants_wire us ++ grants_wire vs.
Proof. unfold grants_wire. by rewrite !map_app, concat_app. Qed.

Lemma total_grants sid ups : sid <> 0 -> Forall (grant_ok sid) ups -> 0 <= total 0 ups /\ 0 <= total sid ups.
Proof.
  intros H0. induction 1 as [|u ups [_ Hu] _ IH]; cbn; [lia|].
  destruct (u.1 =? 0), (u.1 =? sid); lia.
Qed.

(** A window after [n] bytes, with the updates it has sent. *)
Definition window_moved (id w n w' : Z) (ups : list (Z * Z)) : Prop :=
  window_ok w -> window_ok w' /\ total id ups = w' - w + n.

Lemma replenish_grants w n sid id :
  window_ok w -> 0 <= n < 2 ^ 24 -> id = 0 \/ id = sid ->
  let '(w', i) := replenish (w - n) in
  let ups := match i with Some i => [(id, i)] | None => [] end in
  Forall (grant_ok sid) ups /\ window_ok w' /\ total id ups = w' - w + n.
Proof.
  intros Hw Hn Hid. unfold replenish, window_ok, DEFAULT_WINDOW_SIZE in *.
  destruct (Z.ltb_spec (w - n) (65535 / 2)) as [Hlt|Hge]; cbn [total].
  - rewrite Z.eqb_refl. unfold u32. rewrite Z.mod_small by lia.
    split; [|cbn [fst snd]; lia]. constructor; [|by constructor]. split; cbn [fst snd]; [done|lia].
  - split; [constructor|lia].
Qed.

(** The stream after [data]. *)
Definition with_data (data : bytes) (w : Z) (fin : bool) ss : stream_state :=
  ss <| body ::= fun b => b ++ data |> <| recv_window := w |> <| end_stream ::= orb fin |>.

(** What receiving [n] bytes on [sid] has granted. *)
Definition granted (sid n : Z) ss w (ups : list (Z * Z)) s s' : Prop :=
  output_buf_ s' = output_buf_ s ++ grants_wire ups /\
  (window_ok (conn_recv_window_ s) -> window_ok (recv_window ss) ->
   Forall (grant_ok sid) ups /\
   (window_ok (conn_recv_window_ s') /\ total 0 ups = conn_recv_window_ s' - conn_recv_window_ s + n) /\
   (window_ok w /\ total sid ups = w - recv_window ss + n)).

Definition took_data (sid : Z) (data : bytes) (fin : bool) ss s s' : Prop :=
  heard s s' /\ exists w ups, streams_ s' !! sid = Some (with_data data w fin ss) /\
    granted sid (len data) ss w ups s s'.

Definition grants_of (id : Z) (i : option Z) : list (Z * Z) :=
  match i with Some i => [(id, i)] | None => [] end.

Lemma consume_conn_eq n s :
  consume_conn n s = (enqueue (grants_wire (grants_of 0 (replenish (conn_recv_window_ s - n)).2)) s)
    <| conn_recv_window_ := (replenish (conn_recv_window_ s - n)).1 |>.
Proof.
  unfold consume_conn. destruct (replenish _) as [w [i|]]; cbn [fst snd grants_of].
  - unfold grants_wire. cbn [map concat]. by rewrite app_nil_r.
  - unfold enqueue, grants_wire. cbn [map concat]. unfold set_field; cbn. by rewrite app_nil_r.
Qed.

Lemma consume_stream_eq sid n s ss :
  streams_ s !! sid = Some ss ->
  consume_stream sid n s =
  update_stream sid (fun ss' => ss' <| recv_window := (replenish (recv_window ss - n)).1 |>)
    (enqueue (grants_wire (grants_of sid (replenish (recv_window ss - n)).2)) s).
Proof.
  intros Hss. unfold consume_stream. rewrite Hss.
  destruct (replenish _) as [w [i|]]; cbn [fst snd grants_of].
  - unfold grants_wire. cbn [map concat]. by rewrite app_nil_r.
  - unfold enqueue, update_stream, grants_wire. cbn [map concat]. unfold set_field; cbn.
    by rewrite app_nil_r.
Qed.

(** The two updates after [n] bytes. *)
Lemma consume_granted sid n s ss :
  sid <> 0 -> 0 <= n < 2 ^ 24 -> streams_ s !! sid = Some ss ->
  exists w ups, streams_ (consume_stream sid n (consume_conn n s)) !! sid =
                  Some (ss <| recv_window := w |>) /\
    heard s (consume_stream sid n (consume_conn n s)) /\
    granted sid n ss w ups s (consume_stream sid n (consume_conn n s)).
Proof.
  intros H0 Hn Hss. rewrite (consume_stream_eq sid n _ ss); [|by rewrite consume_conn_eq].
  rewrite consume_conn_eq. set (r0 := replenish (conn_recv_window_ s - n)).
  set (r1 := replenish (recv_window ss - n)).
  exists r1.1, (grants_of 0 r0.2 ++ grants_of sid r1.2). split; [|split; [|split]].
  - cbn. by rewrite lookup_alter_eq, Hss.
  - by split.
  - cbn. by rewrite grants_wire_app, app_assoc.
  - intros Hc Hw. pose proof (replenish_grants _ n sid 0 Hc Hn (or_introl eq_refl)) as Hg0.
    pose proof (replenish_grants _ n sid sid Hw Hn (or_intror eq_refl)) as Hg1.
    fold r0 in Hg0. fold r1 in Hg1. destruct r0 as [w0 i0], r1 as [w1 i1]. cbn [fst snd].
    fold (grants_of 0 i0) in Hg0. fold (grants_of sid i1) in Hg1.
    destruct Hg0 as (Hf0 & Hw0 & Ht0), Hg1 as (Hf1 & Hw1 & Ht1).
    assert (Hx0 : total sid (grants_of 0 i0) = 0).
    { destruct i0; cbn [grants_of total fst]; [|done]. by rewrite (proj2 (Z.eqb_neq 0 sid)). }
    assert (Hx1 : total 0 (grants_of sid i1) = 0).
    { destruct i1; cbn [grants_of total fst]; [|done]. by rewrite (proj2 (Z.eqb_neq sid 0)). }
    rewrite !total_app. split; [by apply Forall_app|]. cbn [conn_recv_window_ set_field].
    split; (split; [done|]); cbn; lia.
Qed.

(** What the end of the stream starts. *)
Definition stream_done (sid : Z) s : outcome (session E D) :=
  match mode_ s with
  | server =>
      if default false (streaming_handled <$> streams_ s !! sid) then Ok s
      else dispatch_request sid s
  | client => Ok (complete_promise sid s)
  end.

Lemma process_data (fin : bool) sid data s ss :
  sid <> 0 -> len data < 2 ^ 24 -> continuation_stream_ s = 0 -> streams_ s !! sid = Some ss ->
  data_cb ss = None ->
  exists s', took_data sid data fin ss s s' /\
    process_frame (frame_of frame_type.DATA (if fin then flag.END_STREAM else 0) sid data) s =
    if fin then stream_done sid s' else Ok s'.
Proof.
  intros H0 Hlen Hc Hss Hcb.
  set (s1 := update_stream sid (fun ss => ss <| body ::= fun b => b ++ data |>) s).
  assert (H1 : streams_ s1 !! sid = Some (ss <| body ::= fun b => b ++ data |>)).
  { cbn. by rewrite lookup_alter_eq, Hss. }
  destruct (consume_granted sid (len data) s1 _ H0 ltac:(blia) H1) as (w & ups & H3 & Hh3 & Hg3).
  set (s3 := consume_stream sid (len data) (consume_conn (len data) s1)) in *.
  assert (Hh : heard s s3) by (transitivity s1; [by split|done]).
  exists (if fin then update_stream sid (fun ss => ss <| end_stream := true |>) s3 else s3). split.
  - split; [destruct fin; [transitivity s3; [done|by split]|done]|]. exists w, ups. split.
    + destruct fin; [cbn; by rewrite lookup_alter_eq, H3|]. by destruct ss.
    + by destruct fin.
  - unfold process_frame. rewrite Hc. set (f := frame_of _ _ _ _).
    transitivity (handle_data f s); [done|].
    unfold handle_data. change (fh_stream_id _) with sid. rewrite (proj2 (Z.eqb_neq sid 0)) by done.
    assert (Hu : unpad f = inr (0, len data)) by by destruct fin.
    rewrite Hss, Hu, Hcb, dropZ_0, takeZ_all by done. by destruct fin.
Qed.

Lemma with_data_twice d1 w1 d2 w2 fin ss :
  with_data d2 w2 fin (with_data d1 w1 false ss) = with_data (d1 ++ d2) w2 fin ss.
Proof. unfold with_data, set_field; cbn. by rewrite <- app_assoc. Qed.

Lemma took_trans sid d1 d2 fin ss s1 s2 s3 w ups :
  heard s1 s2 -> granted sid (len d1) ss w ups s1 s2 ->
  took_data sid d2 fin (with_data d1 w false ss) s2 s3 ->
  took_data sid (d1 ++ d2) fin ss s1 s3.
Proof.
  intros Hh1 (Ho1 & Hg1) (Hh2 & w2 & ups2 & Hs & Ho2 & Hg2). split; [by transitivity s2|].
  exists w2, (ups ++ ups2). split; [by rewrite Hs, with_data_twice|]. split.
  - by rewrite Ho2, Ho1, grants_wire_app, app_assoc.
  - intros Hc Hw. destruct (Hg1 Hc Hw) as (Hf1 & [Hc1 Ht1] & [Hw1 Hu1]).
    destruct (Hg2 Hc1 Hw1) as (Hf2 & [Hc2 Ht2] & [Hw2 Hu2]).
    change (recv_window (with_data d1 w false ss)) with w in *.
    rewrite !total_app, len_app. split; [by apply Forall_app|]. split; (split; [done|lia]).
Qed.

Lemma frames_run (fin : bool) sid pls s ss :
  sid <> 0 -> Forall (fun pl => len pl < 2 ^ 24) pls ->
  alive_ s = true -> continuation_stream_ s = 0 -> streams_ s !! sid = Some ss ->
  data_cb ss = None -> pls <> [] ->
  exists s', took_data sid (concat pls) fin ss s s' /\
    run_frames (Ok s) (frames_of frame_type.DATA (if fin then flag.END_STREAM else 0) sid pls) =
    if fin then stream_done sid s' else Ok s'.
Proof.
  intros H0 Hl. revert s ss. induction Hl as [|pl pls Hpl _ IH]; intros s ss Ha Hc Hss Hcb Hne; [done|].
  destruct pls as [|pl' pls].
  - destruct (process_data fin sid pl s ss H0 Hpl Hc Hss Hcb) as (s' & Ht & Hp).
    exists s'. cbn [concat]. rewrite app_nil_r. split; [done|]. cbn [frames_of].
    rewrite run_step by done. exact Hp.
  - destruct (process_data false sid pl s ss H0 Hpl Hc Hss Hcb)
      as (s1 & (Hh & w & ups & Hw & Hg) & Hp).
    destruct (IH s1 (with_data pl w false ss)) as (s' & Ht & Hr); try done.
    { by rewrite (heard_alive _ _ Hh). }
    { by rewrite (heard_continuation _ _ Hh). }
    exists s'. split; [by eapply took_trans|].
    rewrite <- Hr, <- Hp. change (frames_of frame_type.DATA (if fin then flag.END_STREAM else 0)
        sid (pl :: pl' :: pls)) with (frame_of frame_type.DATA 0 sid pl ::
          frames_of frame_type.DATA (if fin then flag.END_STREAM else 0) sid (pl' :: pls)).
    by rewrite run_step.
Qed.

Lemma body_run (fin : bool) sid max data s ss :
  0 < max < 2 ^ 24 -> data <> [] -> sid <> 0 -> alive_ s = true -> continuation_stream_ s = 0 ->
  streams_ s !! sid = Some ss -> data_cb ss = None ->
  exists s', took_data sid data fin ss s s' /\
    run_frames (Ok s) (body_frames sid max fin data) = if fin then stream_done sid s' else Ok s'.
Proof.
  intros Hm Hne H0 Ha Hc Hss Hcb.
  assert (Hn : chunks_of (length data) max data <> []) by by intros Hn%chunks_nil.
  assert (Hl : Forall (fun pl => len pl < 2 ^ 24) (chunks_of (length data) max data)).
  { eapply Forall_impl; [apply chunks_bound; lia|]. cbn. lia. }
  destruct (frames_run fin sid _ s ss H0 Hl Ha Hc Hss Hcb Hn) as (s' & Ht & Hr).
  exists s'. rewrite chunks_concat in Ht by (done || lia). by split.
Qed.

(** ** A server and a request *)

(** A server that answers its requests with [h], and knows nothing of [sid]. *)
Record serving (h : request -> outcome response) (sid : Z) s : Prop := {
  sv_mode : mode_ s = server;
  sv_alive : alive_ s = true;
  sv_max : 0 < peer_max_frame_size_ s;
  sv_preface : preface_received_ s = true;
  sv_continuation : continuation_stream_ s = 0;
  sv_stream : streams_ s !! sid = None;
  sv_handler : request_handler_ (hooks_ s) = Some h;
  sv_streaming : streaming_request_handler_ (hooks_ s) = None;
  sv_push : push_provider_ (hooks_ s) = None
}.

(** A request before its body. *)
Definition head_of (r : request) : request :=
  {| rq_method := rq_method r; rq_path := rq_path r; rq_query := rq_query r; rq_ver := rq_ver r;
     rq_hdrs := rq_hdrs r; rq_bd := [] |}.

(** The start handler, if any, leaves the request to the request handler. *)
Definition declines (sid : Z) (head : request) (fin : bool) s : Prop :=
  match request_start_handler_ (hooks_ s) with
  | None => True
  | Some g => g sid head fin = Ok (false, [])
  end.

Definition start_effects (sid : Z) (head : request) (fin : bool) s : list effect :=
  match request_start_handler_ (hooks_ s) with
  | None => []
  | Some _ => [RequestStarted sid head fin]
  end.

Definition noted (es : list effect) s : session E D := s <| effects_ ::= fun l => l ++ es |>.

Lemma noted_nil s : noted [] s = s.
Proof. unfold noted. destruct s. unfold set_field. cbn. by rewrite app_nil_r. Qed.

Lemma serving_noted h sid es s : serving h sid s -> serving h sid (noted es s).
Proof. by intros []. Qed.

(** The stream that a HEADERS frame opens. *)
Definition opened (sid : Z) s : session E D :=
  let s := update_stream sid (fun ss => ss <| stream_id := sid |> <| state := open |>)
             (touch_stream sid s) in
  s <| last_client_stream_ := Z.max (last_client_stream_ s) sid |>.

Lemma opened_stream sid s :
  streams_ s !! sid = None ->
  streams_ (opened sid s) !! sid = Some (new_stream <| stream_id := sid |> <| state := open |>).
Proof.
  intros Hn. unfold opened, touch_stream. rewrite Hn. cbn.
  by rewrite lookup_alter_eq, lookup_insert_eq.
Qed.

(** Nothing is written, and the connection's window stays. *)
Definition same_io s s' : Prop :=
  output_buf_ s' = output_buf_ s /\ conn_recv_window_ s' = conn_recv_window_ s.

Lemma opened_heard sid s : heard s (opened sid s) /\ same_io s (opened sid s).
Proof. unfold opened, touch_stream. destruct (streams_ s !! sid); by split. Qed.

Lemma opened_takes h sid fin s : serving h sid s -> takes_headers sid fin s (opened sid s).
Proof. intros [] block eh. rewrite sv_mode0. unfold server_headers. by rewrite sv_stream0. Qed.

(** The request of a stream, with the body received so far. *)
Definition request_of ss : request :=
  {| rq_method := rq_method (req ss); rq_path := rq_path (req ss); rq_query := rq_query (req ss);
     rq_ver := rq_ver (req ss); rq_hdrs := rq_hdrs (req ss); rq_bd := body ss |}.

(** [s'] has replied to [r] on [sid] with [rsp]. *)
Definition replied (rsp : response) (sid : Z) (r : request) s s' : Prop :=
  exists s1, heard s s1 /\ same_io s s1 /\ is_Some (streams_ s1 !! sid) /\
    s' = do_submit_response sid rsp (effect_of (Requested r) s1).

(** What [n] bytes of a body have made the server grant. *)
Definition gave (sid n : Z) (ups : list (Z * Z)) s s' : Prop :=
  output_buf_ s' = output_buf_ s ++ grants_wire ups /\
  (window_ok (conn_recv_window_ s) ->
   Forall (grant_ok sid) ups /\ total 0 ups <= 32768 + n /\ total sid ups <= 32768 + n).

(** [s'] has received [r] on [sid], granted its bytes back, and replied. *)
Definition answered (rsp : response) (sid : Z) (r : request) s s' : Prop :=
  exists s1 ups, heard s s1 /\ gave sid (len (rq_bd r)) ups s s1 /\ replied rsp sid r s1 s'.

Lemma dispatch_replies h rsp sid s ss :
  request_handler_ (hooks_ s) = Some h -> streaming_request_handler_ (hooks_ s) = None ->
  push_provider_ (hooks_ s) = None -> 0 < peer_max_frame_size_ s ->
  streams_ s !! sid = Some ss -> h (request_of ss) = Ok rsp ->
  exists s', dispatch_request sid s = Ok s' /\ replied rsp sid (request_of ss) s s'.
Proof.
  intros Hh Hst Hpu Hm Hss Hrsp. unfold dispatch_request. rewrite Hss.
  fold (request_of ss). set (r := request_of ss) in *. set (s1 := update_stream _ _ s).
  exists (do_submit_response sid rsp (effect_of (Requested r) s1)). split.
  - cbv zeta. change (hooks_ s1) with (hooks_ s). rewrite Hst. cbn [mbind outcome_bind].
    unfold run_request_handler. change (hooks_ s1) with (hooks_ s). rewrite Hh, Hrsp.
    cbn [mbind outcome_bind]. rewrite submit_response_wire by done.
    set (s2 := close_stream _ _). change (hooks_ s2) with (hooks_ s). by rewrite Hpu.
  - exists s1. split; [by split|]. split; [done|]. split; [|done].
    cbn. rewrite lookup_alter_eq, Hss. by eexists.
Qed.

(** The stream after its request's header block. *)
Definition with_request (hdrs : list header) (fin : bool) ss : stream_state :=
  ss <| headers_complete := true |>
     <| req := http2_request (foldl apply_header (req ss) hdrs) |>
     <| end_stream ::= orb fin |>.

Lemma server_block (fin : bool) sid block hdrs d s ss :
  mode_ s = server -> hc_decode (decoder_ s) block = Ok (hdrs, d) -> streams_ s !! sid = Some ss ->
  let head := req (with_request hdrs fin ss) in
  declines sid head fin s ->
  exists s', heard (noted (start_effects sid head fin s) s) s' /\ same_io s s' /\
    streams_ s' !! sid = Some (with_request hdrs fin ss) /\
    apply_block sid block fin s = if fin then dispatch_request sid s' else Ok s'.
Proof.
  intros Hm Hd Hss head Hdec. unfold apply_block. rewrite Hd. cbn [mbind outcome_bind].
  change (mode_ s <| decoder_ := d |>) with (mode_ s). rewrite Hm. unfold apply_headers. cbv zeta.
  set (s1 := update_stream sid _ (s <| decoder_ := d |>)).
  set (s2 := if fin then update_stream sid (fun ss => ss <| end_stream := true |>) s1 else s1).
  assert (H2 : streams_ s2 !! sid = Some (with_request hdrs fin ss)).
  { unfold s2. destruct fin; cbn; rewrite ?lookup_alter_eq, Hss; by destruct ss. }
  exists (noted (start_effects sid head fin s) s2).
  split; [by unfold s2; destruct fin|]. split; [unfold s2; destruct fin; by split|]. split; [exact H2|].
  assert (Hh2 : hooks_ s2 = hooks_ s) by (unfold s2; by destruct fin). rewrite Hh2, H2.
  unfold declines, start_effects in *. destruct (request_start_handler_ (hooks_ s)) as [g|].
  - fold head. rewrite Hdec. cbn [mbind outcome_bind run_calls]. by destruct fin.
  - by rewrite noted_nil.
Qed.

(** The frames of a request. *)
Definition request_frames (sid max : Z) (block data : bytes) : list frame :=
  header_frames sid (if bool_decide (data = []) then flag.END_STREAM else 0) max block ++
  (if bool_decide (data = []) then [] else body_frames sid max true data).

(** The header block, on a stream it opens. *)
Lemma serve_headers h sid fin max block hdrs d s :
  serving h sid s -> sid <> 0 -> 0 < max -> hc_decode (decoder_ s) block = Ok (hdrs, d) ->
  let ss := with_request hdrs fin (new_stream <| stream_id := sid |> <| state := open |>) in
  declines sid (req ss) fin s ->
  exists s', heard (noted (start_effects sid (req ss) fin s) s) s' /\ same_io s s' /\
    streams_ s' !! sid = Some ss /\
    run_frames (Ok s) (header_frames sid (if fin then flag.END_STREAM else 0) max block) =
    if fin then dispatch_request sid s' else Ok s'.
Proof.
  intros Hs H0 Hm Hd ss Hdec. destruct (opened_heard sid s) as [Ho [Hio1 Hio2]].
  pose proof (opened_takes h sid fin s Hs) as Ht. destruct Hs.
  pose proof (opened_stream sid s sv_stream0) as Hss.
  set (s0 := opened sid s) in *. set (ss0 := new_stream <| stream_id := sid |> <| state := open |>) in *.
  assert (Hd0 : hc_decode (decoder_ s0) block = Ok (hdrs, d)).
  { unfold s0, opened, touch_stream. by rewrite sv_stream0. }
  assert (Hk : hooks_ s0 = hooks_ s) by apply (heard_hooks _ _ Ho).
  assert (Hdec0 : declines sid (req ss) fin s0) by (unfold declines; by rewrite Hk).
  destruct (server_block fin sid block hdrs d s0 ss0) as (s1 & H1 & [Hi1 Hi2] & Hs1 & He);
    [by rewrite (heard_mode _ _ Ho)|done|done|exact Hdec0|].
  exists s1. split.
  { transitivity (noted (start_effects sid (req ss) fin s) s0).
    - destruct Ho. split; try done. exact (f_equal (fun l => l ++ _) heard_effects0).
    - unfold start_effects in *. by rewrite <- Hk. }
  split; [split; congruence|]. split; [done|]. rewrite <- He.
  apply (headers_run sid fin max block s s0 ss0); try done.
  - by rewrite (heard_alive _ _ Ho).
  - by rewrite (heard_continuation _ _ Ho).
Qed.

Lemma serving_replies h rsp sid s s1 ss :
  serving h sid s -> heard s s1 -> streams_ s1 !! sid = Some ss -> h (request_of ss) = Ok rsp ->
  exists s', dispatch_request sid s1 = Ok s' /\ replied rsp sid (request_of ss) s1 s'.
Proof.
  intros [] Hh Hss Hrsp. apply (dispatch_replies h); [..|done|done].
  - by rewrite (heard_hooks _ _ Hh).
  - by rewrite (heard_hooks _ _ Hh).
  - by rewrite (heard_hooks _ _ Hh).
  - by rewrite (heard_max _ _ Hh).
Qed.

(** What the server makes of a header list and a body. *)
Definition request_made (hdrs : list header) (data : bytes) : request :=
  request_of (with_data data 0 false (with_request hdrs true new_stream)).

Lemma apply_headers_body hdrs r : rq_bd (foldl apply_header r hdrs) = rq_bd r.
Proof.
  revert r. induction hdrs as [|[name value] hdrs IH]; intros r; cbn [foldl]; [done|].
  rewrite IH. unfold apply_header. by repeat case_match.
Qed.

Lemma request_made_head sid hdrs data fin :
  req (with_request hdrs fin (new_stream <| stream_id := sid |> <| state := open |>)) =
  head_of (request_made hdrs data).
Proof.
  unfold request_made, head_of, with_request, http2_request. cbn.
  by rewrite (apply_headers_body hdrs request_default).
Qed.

Lemma serve_request h rsp sid max block hdrs d data s :
  serving h sid s -> sid <> 0 -> 0 < max < 2 ^ 24 -> hc_decode (decoder_ s) block = Ok (hdrs, d) ->
  let r := request_made hdrs data in
  let fin := bool_decide (data = []) in
  declines sid (head_of r) fin s -> h r = Ok rsp ->
  exists s', run_frames (Ok s) (request_frames sid max block data) = Ok s' /\
    answered rsp sid r (noted (start_effects sid (head_of r) fin s) s) s'.
Proof.
  intros Hs H0 Hm Hd r fin Hdec Hrsp. unfold request_frames. rewrite run_app. fold fin.
  destruct (serve_headers h sid fin max block hdrs d s Hs H0 ltac:(lia) Hd)
    as (s1 & H1 & [Hio Hiw] & Hss & ->); [by rewrite (request_made_head sid hdrs data)|].
  rewrite (request_made_head sid hdrs data) in H1. fold r in H1.
  set (sn := noted _ s) in *. pose proof (serving_noted _ _ (start_effects sid (head_of r) fin s) s Hs) as Hn.
  fold sn in Hn. unfold fin. case_bool_decide as Eb.
  - subst data. destruct (serving_replies h rsp sid sn s1 _ Hn H1 Hss Hrsp) as (s' & -> & Ha).
    exists s'. split; [done|]. exists s1, []. split; [done|]. split; [|exact Ha]. split.
    + change (output_buf_ sn) with (output_buf_ s). by rewrite Hio, app_nil_r.
    + intros _. split; [constructor|]. change (rq_bd _) with (@nil Byte.byte).
      cbn [total]. blia.
  - assert (Ha1 : alive_ s1 = true) by (rewrite (heard_alive _ _ H1); apply Hs).
    assert (Hc1 : continuation_stream_ s1 = 0) by (rewrite (heard_continuation _ _ H1); apply Hs).
    destruct (body_run true sid max data s1 _ Hm Eb H0 Ha1 Hc1 Hss eq_refl)
      as (s2 & (H2 & w & ups & Hs2 & Hout & Hg) & ->).
    assert (H02 : heard sn s2) by by transitivity s1.
    destruct (serving_replies h rsp sid sn s2 _ Hn H02 Hs2 Hrsp) as (s' & Hd' & Ha).
    exists s'. split.
    + rewrite <- Hd'. unfold stream_done.
      by rewrite (heard_mode _ _ H2), (heard_mode _ _ H1), (sv_mode _ _ _ Hn), Hs2.
    + exists s2, ups. split; [done|]. split; [|exact Ha]. split; [by rewrite Hout, Hio|].
      change (conn_recv_window_ sn) with (conn_recv_window_ s).
      intros Hw. rewrite <- Hiw in Hw. destruct Hg as (Hf & [Hc Ht0] & [Hw' Ht]); [done|done|].
      change (rq_bd _) with data. change (recv_window _) with 65535 in Ht.
      unfold window_ok, DEFAULT_WINDOW_SIZE in *. split; [done|]. lia.
Qed.

Lemma request_frames_ok sid max block data :
  0 <= sid < 2 ^ 31 -> 0 < max < 2 ^ 24 -> Forall frame_ok (request_frames sid max block data).
Proof.
  intros Hs Hm. unfold request_frames. rewrite Forall_app. split.
  - apply header_frames_ok; [done|done|]. case_bool_decide; auto.
  - case_bool_decide; [constructor|by apply body_frames_ok].
Qed.

(** The client with the stream of a request. *)
Definition requesting (sid : Z) (p : option nat) s : session E D :=
  update_stream sid
    (fun ss => ss <| stream_id := sid |> <| state := open |> <| promise := p |>)
    (touch_stream sid (s <| next_stream_id_ := sid + 2 |>)).

Lemma submit_request_wire r p s sid s' :
  0 < peer_max_frame_size_ s -> do_submit_request r p false s = Ok (sid, s') ->
  sid = next_stream_id_ s /\
  s' = enqueue (concat (map frame_wire
         (request_frames sid (peer_max_frame_size_ s) (hc_encode (encoder_ s) (request_headers r)).1
            (rq_bd r))))
         ((requesting sid p s) <| encoder_ := (hc_encode (encoder_ s) (request_headers r)).2 |>).
Proof.
  intros Hm. unfold do_submit_request. intros (next & Hnext & H)%bind_ok.
  unfold int_add in Hnext. destruct (_ && _); [|done]. injection Hnext as <-.
  fold (requesting (next_stream_id_ s) p s) in H. cbv zeta in H.
  set (s1 := requesting (next_stream_id_ s) p s) in *.
  assert (Hs1 : peer_max_frame_size_ s1 = peer_max_frame_size_ s /\ encoder_ s1 = encoder_ s).
  { unfold s1, requesting, touch_stream. cbn [streams_ set_field]. by destruct (_ !! _). }
  destruct Hs1 as [Hs1m Hs1e]. rewrite orb_false_r in H. rewrite build_headers_wire in H by congruence.
  rewrite Hs1m, Hs1e in H. unfold request_frames. rewrite map_app, concat_app.
  case_bool_decide as Eb; cbn [negb] in H.
  - injection H as <- <-. cbn [map concat]. by rewrite app_nil_r.
  - rewrite build_data_wire in H; [|change (0 < peer_max_frame_size_ s1); congruence|done].
    injection H as <- <-.
    split; [done|]. rewrite enqueue_twice. cbn [negb]. rewrite <- Hs1m. done.
Qed.

Lemma request_made_fields hdrs data r :
  http2_request (foldl apply_header request_default hdrs) = r ->
  request_made hdrs data =
  {| rq_method := rq_method r; rq_path := rq_path r; rq_query := rq_query r; rq_ver := rq_ver r;
     rq_hdrs := rq_hdrs r; rq_bd := data |}.
Proof. by intros <-. Qed.

Lemma request_made_received r :
  Forall plain_name (rq_hdrs r) -> x3f ∉ rq_path r ->
  request_made (request_headers r) (rq_bd r) = received_request r.
Proof. intros Hp Hq. by rewrite (request_made_fields _ _ _ (request_roundtrip r Hp Hq)). Qed.

(** What [r] needs to be transmitted unharmed. *)
Record transmissible (e : E) (r : request) : Prop := {
  tr_names : Forall plain_name (rq_hdrs r);
  tr_path : x3f ∉ rq_path r;
  tr_ok : hc_ok (request_headers r);
  tr_encoder : hc_enc_ok e;
  tr_size : len (hc_encode e (request_headers r)).1 < 2 ^ 30
}.

(** The events of a request at the server, before its handler. *)
Definition request_events (sid : Z) (r : request) s : list effect :=
  start_effects sid (head_of r) (bool_decide (rq_bd r = [])) s.

(** A server fed the frames of a request, in pieces. *)
Lemma serve_wire h rsp r e sid max s chunks :
  serving h sid s -> 0 < sid < 2 ^ 31 -> 0 < max < 2 ^ 24 -> transmissible e r ->
  declines sid (head_of (received_request r)) (bool_decide (rq_bd r = [])) s ->
  h (received_request r) = Ok rsp ->
  concat chunks =
    concat (map frame_wire (request_frames sid max (hc_encode e (request_headers r)).1 (rq_bd r))) ->
  exists s', snd <$> feed_list frame_reader_init s chunks = Ok s' /\
    answered rsp sid (received_request r) (noted (request_events sid (received_request r) s) s) s'.
Proof.
  intros Hs Hsid Hm [] Hdec Hrsp Hc. pose proof (request_made_received r tr_names0 tr_path0) as Hmade.
  destruct (hc_roundtrip e (decoder_ s) (request_headers r)) as [d Hd]; [done..|].
  destruct (serve_request h rsp sid max _ _ d (rq_bd r) s Hs ltac:(lia) ltac:(lia) Hd) as (s' & Hr & Ha);
    [by rewrite Hmade|by rewrite Hmade|].
  exists s'. rewrite Hmade in Ha. split; [|exact Ha].
  rewrite (feed_list_run frame_reader_init []); [|exact (absorbed_init (R := frame_reader))|by apply parse1_nil|by intros _; apply Hs].
  cbn [app]. rewrite Hc, parse_all_wire; [done|]. apply request_frames_ok; lia.
Qed.

(** ** A client and a response *)

(** A client that waits for the response of stream [sid] in the promise [p]. *)
Record waiting (p : nat) (sid : Z) ss s : Prop := {
  wt_mode : mode_ s = client;
  wt_alive : alive_ s = true;
  wt_continuation : continuation_stream_ s = 0;
  wt_stream : streams_ s !! sid = Some ss;
  wt_promise : promise ss = Some p;
  wt_cb : data_cb ss = None;
  wt_pending : pending_header_block ss = [];
  wt_heap : is_Some (heap_ s !! p)
}.

(** [s'] has settled the promise [p] of [s] with the response [r]. *)
Record settled (p : nat) (r : response) s s' : Prop := {
  st_alive : alive_ s' = true;
  st_completed : completed_promises_ s' = completed_promises_ s ++ [p];
  st_promise : exists pr0 pr, heap_ s !! p = Some pr0 /\ heap_ s' !! p = Some pr /\
    pr_resp pr = r /\ pr_complete pr = true /\ pr_error pr = pr_error pr0;
  st_effects : effects_ s' = effects_ s ++
    (if default false (pr_waiter <$> heap_ s !! p) then [Resumed p] else [])
}.

Definition response_of ss : response :=
  {| rs_status := rs_status (resp ss); rs_ver := rs_ver (resp ss); rs_hdrs := rs_hdrs (resp ss);
     rs_bd := body ss; rs_trailers := rs_trailers (resp ss) |}.

Lemma complete_settles p sid ss s :
  waiting p sid ss s -> settled p (response_of ss) s (complete_promise sid s).
Proof.
  intros []. destruct wt_heap0 as [pr Hpr]. unfold complete_promise. rewrite wt_stream0.
  fold (response_of ss). cbv zeta. rewrite wt_promise0. unfold settle_promise, update_promise.
  set (r := response_of ss). set (s1 := update_stream _ _ _). cbn [heap_ set_field].
  change (heap_ s1) with (heap_ s).
  assert (Hl : alter (fun pr => pr <| pr_resp := r |> <| pr_complete := true |>) p (heap_ s) !! p =
    Some (pr <| pr_resp := r |> <| pr_complete := true |>)) by by rewrite lookup_alter_eq, Hpr.
  rewrite Hl. change (pr_waiter (pr <| pr_resp := r |> <| pr_complete := true |>)) with (pr_waiter pr).
  split.
  - by destruct (pr_waiter pr).
  - by destruct (pr_waiter pr).
  - exists pr, (pr <| pr_resp := r |> <| pr_complete := true |>).
    split; [done|]. split; [|done]. by destruct (pr_waiter pr).
  - rewrite Hpr. cbn [fmap option_fmap option_map default]. destruct (pr_waiter pr) eqn:Ew; [done|].
    cbn. by rewrite app_nil_r.
Qed.

(** The stream after a header block of its response. *)
Definition with_response (hdrs : list header) (fin : bool) ss : stream_state :=
  ss <| headers_complete := true |>
     <| resp := http2_response (foldl apply_response_header (resp ss) hdrs) |>
     <| end_stream ::= orb fin |>.

Lemma client_block (fin : bool) sid block hdrs d s ss :
  mode_ s = client -> hc_decode (decoder_ s) block = Ok (hdrs, d) -> streams_ s !! sid = Some ss ->
  exists s', heard s s' /\ streams_ s' !! sid = Some (with_response hdrs fin ss) /\
    apply_block sid block fin s = Ok (if fin then complete_promise sid s' else s').
Proof.
  intros Hm Hd Hss. unfold apply_block. rewrite Hd. cbn [mbind outcome_bind].
  change (mode_ s <| decoder_ := d |>) with (mode_ s). rewrite Hm. unfold apply_response_headers.
  set (s1 := update_stream sid _ (s <| decoder_ := d |>)).
  exists (if fin then update_stream sid (fun ss => ss <| end_stream := true |>) s1 else s1).
  split; [by destruct fin|]. split; [|by destruct fin].
  destruct fin; cbn; rewrite ?lookup_alter_eq, Hss; by destruct ss.
Qed.

Lemma waiting_heard p sid ss ss' s s' :
  waiting p sid ss s -> heard s s' -> streams_ s' !! sid = Some ss' ->
  promise ss' = promise ss -> data_cb ss' = data_cb ss ->
  pending_header_block ss' = pending_header_block ss -> waiting p sid ss' s'.
Proof. intros [] [] Hss Hp Hcb Hpe. split; congruence. Qed.

Lemma settled_heard p r s s1 s' : heard s s1 -> settled p r s1 s' -> settled p r s s'.
Proof.
  intros [] []. split; [done|congruence|by rewrite <- heard_heap0|].
  by rewrite st_effects0, heard_effects0, heard_heap0.
Qed.

Lemma client_headers_run (fin : bool) p sid max block hdrs d s ss :
  waiting p sid ss s -> end_stream ss = false -> sid <> 0 -> 0 < max ->
  hc_decode (decoder_ s) block = Ok (hdrs, d) ->
  exists s', heard s s' /\ waiting p sid (with_response hdrs fin ss) s' /\
    run_frames (Ok s) (header_frames sid (if fin then flag.END_STREAM else 0) max block) =
    Ok (if fin then complete_promise sid s' else s').
Proof.
  intros Hw He H0 Hm Hd. destruct (client_block fin sid block hdrs d s ss) as (s' & Hh & Hss & Hb);
    [apply Hw|done|apply Hw|].
  exists s'. split; [done|]. split; [by eapply waiting_heard|]. rewrite <- Hb.
  destruct Hw. apply (headers_run sid fin max block s s ss); try done.
  intros b eh. rewrite wt_mode0. unfold client_headers. by rewrite wt_stream0, wt_cb0.
Qed.

Lemma client_body_run (fin : bool) p sid max data s ss :
  waiting p sid ss s -> sid <> 0 -> 0 < max < 2 ^ 24 -> data <> [] ->
  exists s' w, heard s s' /\ waiting p sid (with_data data w fin ss) s' /\
    run_frames (Ok s) (body_frames sid max fin data) =
    Ok (if fin then complete_promise sid s' else s').
Proof.
  intros Hw H0 Hm Hne. destruct (body_run fin sid max data s ss) as (s' & (Hh & w & ups & Hss & _) & Hr);
    [done..|apply Hw|apply Hw|apply Hw|apply Hw|].
  exists s', w. split; [done|]. split; [by eapply waiting_heard|]. rewrite Hr.
  destruct fin; [|done]. unfold stream_done. by rewrite (heard_mode _ _ Hh), (wt_mode _ _ _ _ Hw).
Qed.

(** What [r] needs to be transmitted unharmed. *)
Record transmissible_response (e : E) (r : response) : Prop := {
  trr_names : Forall plain_name (rs_hdrs r);
  trr_status : 0 <= rs_status r < 2 ^ 31;
  trr_trailers : Forall plain_name (rs_trailers r);
  trr_ok : hc_ok (response_headers r);
  trr_ok_trailers : hc_ok (trailer_headers (rs_trailers r));
  trr_encoder : hc_enc_ok e;
  trr_size : len (hc_encode e (response_headers r)).1 < 2 ^ 30;
  trr_size_trailers :
    len (hc_encode (hc_encode e (response_headers r)).2 (trailer_headers (rs_trailers r))).1 < 2 ^ 30
}.

(** A stream that has received nothing. *)
Definition fresh_stream ss : Prop :=
  resp ss = response_default /\ body ss = [] /\ end_stream ss = false.

(** The response of a stream, once the trailers are in. *)
Definition response_with ss (data : bytes) (fields : list header) : response :=
  {| rs_status := rs_status (resp ss); rs_ver := rs_ver (resp ss);
     rs_hdrs := rs_hdrs (resp ss) ++ fields; rs_bd := body ss ++ data;
     rs_trailers := rs_trailers (resp ss) |}.

Lemma trailers_run p sid max e ts s ss :
  waiting p sid ss s -> end_stream ss = false -> rs_ver (resp ss) = HTTP_2 -> sid <> 0 -> 0 < max < 2 ^ 24 ->
  Forall plain_name ts -> hc_ok (trailer_headers ts) -> hc_enc_ok e ->
  len (hc_encode e (trailer_headers ts)).1 < 2 ^ 30 ->
  exists s', run_frames (Ok s)
      (header_frames sid flag.END_STREAM max (hc_encode e (trailer_headers ts)).1) = Ok s' /\
    settled p (response_with ss [] (trailer_headers ts)) s s'.
Proof.
  intros Hw He Hv H0 Hm Hp Hok Hee Hlen.
  destruct (hc_roundtrip e (decoder_ s) (trailer_headers ts)) as [d Hd]; [done..|].
  destruct (client_headers_run true p sid max _ _ d s ss Hw He H0 ltac:(lia) Hd) as (s1 & H1 & Hw1 & ->).
  exists (complete_promise sid s1). split; [done|]. apply (settled_heard p _ s s1); [done|].
  pose proof (complete_settles _ _ _ _ Hw1) as Hc. unfold response_of in Hc.
  cbn [resp body with_response set_field] in Hc. rewrite apply_fields in Hc by by apply trailers_plain.
  unfold response_with. rewrite app_nil_r, Hv. exact Hc.
Qed.

(** The body and the trailers, after the header block. *)
Lemma rest_run p sid max e r s ss :
  waiting p sid ss s -> end_stream ss = false -> rs_ver (resp ss) = HTTP_2 -> sid <> 0 -> 0 < max < 2 ^ 24 ->
  Forall plain_name (rs_trailers r) -> hc_ok (trailer_headers (rs_trailers r)) -> hc_enc_ok e ->
  len (hc_encode e (trailer_headers (rs_trailers r))).1 < 2 ^ 30 ->
  has_body r || has_trailers r = true ->
  exists s', run_frames (Ok s)
      ((if has_body r then body_frames sid max (negb (has_trailers r)) (rs_bd r) else []) ++
       (if has_trailers r
        then header_frames sid flag.END_STREAM max (hc_encode e (trailer_headers (rs_trailers r))).1
        else [])) = Ok s' /\
    settled p (response_with ss (rs_bd r) (trailer_headers (rs_trailers r))) s s'.
Proof.
  intros Hw He Hv H0 Hm Hp Hok Hee Hlen Hsome. rewrite run_app. unfold has_body, has_trailers in *.
  case_bool_decide as Eb; case_bool_decide as Et; cbn [negb] in *; [done|..].
  - rewrite Eb. by apply trailers_run.
  - destruct (client_body_run true p sid max (rs_bd r) s ss Hw H0 Hm Eb) as (s1 & w & H1 & Hw1 & ->).
    exists (complete_promise sid s1). split; [done|]. apply (settled_heard p _ s s1); [done|].
    rewrite Et. cbn [trailer_headers map]. unfold response_with. rewrite app_nil_r.
    exact (complete_settles _ _ _ _ Hw1).
  - destruct (client_body_run false p sid max (rs_bd r) s ss Hw H0 Hm Eb) as (s1 & w & H1 & Hw1 & ->).
    destruct (trailers_run p sid max e (rs_trailers r) s1 (with_data (rs_bd r) w false ss))
      as (s' & Hr & Hs'); [done..|].
    exists s'. split; [done|]. apply (settled_heard p _ s s1) in Hs'; [|done].
    unfold response_with in *. rewrite app_nil_r in Hs'. exact Hs'.
Qed.

Lemma response_run p sid max e r s ss :
  waiting p sid ss s -> fresh_stream ss -> sid <> 0 -> 0 < max < 2 ^ 24 -> transmissible_response e r ->
  exists s', run_frames (Ok s) (response_frames sid max e r) = Ok s' /\
    settled p (received_response r) s s'.
Proof.
  intros Hw (Hf1 & Hf2 & Hf3) H0 Hm [].
  destruct (hc_roundtrip e (decoder_ s) (response_headers r)) as [d Hd]; [done..|].
  pose proof (hc_enc_ok_step e (response_headers r) trr_encoder0) as He1.
  unfold response_frames. destruct (hc_encode e (response_headers r)) as [block e1]. cbn [fst snd] in *.
  pose proof (client_headers_run (negb (has_body r || has_trailers r)) p sid max block _ d s ss
    Hw Hf3 H0 ltac:(lia) Hd) as (s1 & H1 & Hw1 & Hr1).
  rewrite run_app. replace (if has_body r || has_trailers r then 0 else flag.END_STREAM) with
    (if negb (has_body r || has_trailers r) then flag.END_STREAM else 0) by by destruct (has_body r || _).
  rewrite Hr1. clear Hr1.
  set (ss1 := with_response _ _ ss) in *.
  assert (Hresp : resp ss1 = {| rs_status := rs_status r; rs_ver := HTTP_2;
    rs_hdrs := tail (response_headers r); rs_bd := []; rs_trailers := [] |}).
  { unfold ss1, with_response. cbn [resp set_field]. rewrite Hf1.
    transitivity (http2_response (foldl apply_response_header response_default (response_headers r)));
      [done|]. by rewrite response_fields. }
  assert (Hbody : body ss1 = []) by done.
  assert (Hrec : response_with ss1 (rs_bd r) (trailer_headers (rs_trailers r)) = received_response r).
  { unfold response_with. by rewrite Hresp, Hbody. }
  destruct (has_body r || has_trailers r) eqn:Eor; cbn [negb] in *.
  - destruct (rest_run p sid max e1 r s1 ss1) as (s' & Hr & Hs');
      [done| |by rewrite Hresp|done..|].
    { unfold ss1, with_response. cbn. by rewrite Hf3. }
    exists s'. rewrite <- Hrec. split; [done|by apply (settled_heard p _ s s1)].
  - apply orb_false_iff in Eor as [Eb Et]. rewrite Eb, Et. cbn [app run].
    exists (complete_promise sid s1). split; [done|]. apply (settled_heard p _ s s1); [done|].
    unfold has_body in Eb. case_bool_decide as Hb; [|done].
    unfold has_trailers in Et. case_bool_decide as Ht; [|done].
    rewrite <- Hrec, Hb, Ht. cbn [trailer_headers map]. unfold response_with. rewrite !app_nil_r.
    exact (complete_settles _ _ _ _ Hw1).
Qed.

(** ** A client and the grants of its server *)

Lemma grant_increment i : 0 < i < 2 ^ 31 -> parse_window_update (be32 (Z.land i 0x7FFFFFFF)) = i.
Proof.
  intros Hi. unfold parse_window_update. rewrite len_be32. cbn [Z.ltb Z.compare Pos.compare].
  rewrite <- (app_nil_r (be32 _)), rd32_be32, !land_31. cbn. lia.
Qed.

Lemma process_grant u s :
  continuation_stream_ s = 0 -> 0 < u.2 < 2 ^ 31 ->
  process_frame (grant_frame u) s =
  Ok (if u.1 =? 0 then
        let s := s <| conn_send_window_ ::= fun w => w + u.2 |> in
        if MAX_WINDOW_SIZE <? conn_send_window_ s then goaway error_code.FLOW_CONTROL_ERROR [] s else s
      else match streams_ s !! u.1 with
           | None => s
           | Some ss =>
               let s := update_stream u.1 (fun ss => ss <| send_window ::= fun w => w + u.2 |>) s in
               if MAX_WINDOW_SIZE <? send_window ss + u.2
               then enqueue (build_rst_stream u.1 error_code.FLOW_CONTROL_ERROR) s else s
           end).
Proof.
  intros Hc Hu. unfold process_frame. rewrite Hc. cbn [Z.eqb negb].
  transitivity (Ok (handle_window_update (grant_frame u) s)); [done|].
  unfold handle_window_update. change (payload (grant_frame u)) with (be32 (Z.land u.2 0x7FFFFFFF)).
  rewrite len_be32, grant_increment by done. change (fh_stream_id _) with u.1. cbn [Z.eqb Pos.eqb negb].
  by rewrite (proj2 (Z.eqb_neq u.2 0)) by lia.
Qed.

(** The stream with another send window. *)
Definition with_send (w : Z) ss : stream_state := ss <| send_window := w |>.

Lemma grants_run p sid ups s ss :
  0 < sid -> waiting p sid ss s -> Forall (grant_ok sid) ups ->
  conn_send_window_ s + total 0 ups <= MAX_WINDOW_SIZE ->
  send_window ss + total sid ups <= MAX_WINDOW_SIZE ->
  exists s' w, run_frames (Ok s) (map grant_frame ups) = Ok s' /\ heard s s' /\
    waiting p sid (with_send w ss) s'.
Proof.
  intros H0 Hw Hu. revert s ss Hw. induction Hu as [|u ups [Hid Hi] Hus IH]; intros s ss Hw Hc Hs.
  { exists s, (send_window ss). split; [done|]. split; [done|]. by destruct ss. }
  pose proof (total_grants sid ups ltac:(lia) Hus) as [Ht0 Ht]. cbn [total] in Hc, Hs.
  cbn [map]. rewrite run_step by apply Hw. rewrite process_grant by (done || apply Hw).
  destruct Hid as [Hid|Hid]; rewrite Hid in *.
  - rewrite (proj2 (Z.eqb_neq 0 sid)) in Hs by lia. cbn [Z.eqb] in *. cbv zeta.
    set (s1 := s <| conn_send_window_ ::= _ |>).
    change (conn_send_window_ s1) with (conn_send_window_ s + u.2).
    rewrite (proj2 (Z.ltb_ge _ _)) by lia.
    assert (Hw1 : waiting p sid ss s1) by by destruct Hw.
    destruct (IH s1 ss Hw1) as (s' & w & Hr & Hh & Hw'); [cbn; lia|lia|].
    exists s', w. split; [done|]. split; [|done]. transitivity s1; [by split|done].
  - rewrite Z.eqb_refl in Hs. rewrite (proj2 (Z.eqb_neq sid 0)) in Hc |- * by lia.
    rewrite (wt_stream _ _ _ _ Hw). cbv zeta. rewrite (proj2 (Z.ltb_ge _ _)) by lia.
    set (s1 := update_stream _ _ s).
    assert (Hs1 : streams_ s1 !! sid = Some (with_send (send_window ss + u.2) ss)).
    { cbn. by rewrite lookup_alter_eq, (wt_stream _ _ _ _ Hw). }
    assert (Hw1 : waiting p sid (with_send (send_window ss + u.2) ss) s1).
    { eapply waiting_heard; [exact Hw|by split|done..]. }
    destruct (IH s1 _ Hw1) as (s' & w & Hr & Hh & Hw'); [cbn; lia|cbn; lia|].
    exists s', w. split; [done|]. split; [transitivity s1; [by split|done]|exact Hw'].
Qed.

(** ** The exchange *)

(** A client ready to send [r] and wait for its response in [p]. *)
Record asking (r : request) (p : nat) (sid : Z) s : Prop := {
  as_mode : mode_ s = client;
  as_alive : alive_ s = true;
  as_continuation : continuation_stream_ s = 0;
  as_output : output_buf_ s = [];
  as_max : 0 < peer_max_frame_size_ s < 2 ^ 24;
  as_next : next_stream_id_ s = sid /\ 0 < sid < 2 ^ 31 - 2;
  as_stream : streams_ s !! sid = None;
  as_heap : is_Some (heap_ s !! p);
  as_window : conn_send_window_ s + 32768 + len (rq_bd r) <= MAX_WINDOW_SIZE;
  as_body : len (rq_bd r) + 98303 <= MAX_WINDOW_SIZE;
  as_request : transmissible (encoder_ s) r
}.

(** The stream of a request at the client. *)
Definition asked_stream (sid : Z) (p : nat) : stream_state :=
  new_stream <| stream_id := sid |> <| state := open |> <| promise := Some p |>.

Lemma ask r p sid s :
  asking r p sid s ->
  exists s', do_submit_request r (Some p) false s = Ok (sid, s') /\
    output_buf_ s' = concat (map frame_wire (request_frames sid (peer_max_frame_size_ s)
      (hc_encode (encoder_ s) (request_headers r)).1 (rq_bd r))) /\
    waiting p sid (asked_stream sid p) s' /\ conn_send_window_ s' = conn_send_window_ s /\
    heap_ s' = heap_ s.
Proof.
  intros []. destruct as_next0 as [Hn Hsid].
  destruct (do_submit_request r (Some p) false s) as [[sid' s']|? |? |] eqn:Er.
  2-4: unfold do_submit_request, int_add in Er; rewrite Hn in Er;
    rewrite (proj2 (Z.leb_le _ _)), (proj2 (Z.ltb_lt _ _)) in Er by lia; cbn in Er;
    by destruct (build_headers_frame _ _ _ _).
  apply submit_request_wire in Er as [-> ->]; [|lia]. rewrite Hn. exists (enqueue (concat (map frame_wire
    (request_frames sid (peer_max_frame_size_ s) (hc_encode (encoder_ s) (request_headers r)).1
       (rq_bd r)))) ((requesting sid (Some p) s) <| encoder_ := (hc_encode (encoder_ s) (request_headers r)).2 |>)).
  unfold requesting, touch_stream. cbn [streams_ set_field].
  change (streams_ s <| next_stream_id_ := sid + 2 |>) with (streams_ s). rewrite as_stream0.
  split; [done|]. split; [cbn; by rewrite as_output0|]. split; [|done].
  split; try done. cbn. by rewrite lookup_alter_eq, lookup_insert_eq.
Qed.

Lemma response_frames_ok sid max e r :
  0 <= sid < 2 ^ 31 -> 0 < max < 2 ^ 24 -> Forall frame_ok (response_frames sid max e r).
Proof.
  intros Hs Hm. unfold response_frames. destruct (hc_encode e (response_headers r)) as [block e1].
  rewrite !Forall_app. split_and!.
  - apply header_frames_ok; [done|done|]. destruct (_ || _); auto.
  - destruct (has_body r); [by apply body_frames_ok|constructor].
  - destruct (has_trailers r); [apply header_frames_ok; auto|constructor].
Qed.

Lemma grants_ok sid ups : 0 < sid < 2 ^ 31 -> Forall (grant_ok sid) ups ->
  Forall frame_ok (map grant_frame ups).
Proof.
  intros Hs. induction 1 as [|u ups [Hid Hu] _ IH]; [constructor|]. constructor; [|done].
  apply frame_of_ok; [done|done|lia|rewrite len_be32; lia].
Qed.

(** What an answer leaves: the event, and what is written. *)
Lemma answered_effects rsp sid r s s' :
  answered rsp sid r s s' -> 0 < peer_max_frame_size_ s ->
  effects_ s' = effects_ s ++ [Requested r] /\
  exists ups, output_buf_ s' = output_buf_ s ++ concat (map frame_wire
      (map grant_frame ups ++ response_frames sid (peer_max_frame_size_ s) (encoder_ s) rsp)) /\
    (window_ok (conn_recv_window_ s) ->
     Forall (grant_ok sid) ups /\ total 0 ups <= 32768 + len (rq_bd r) /\
     total sid ups <= 32768 + len (rq_bd r)).
Proof.
  intros (s1 & ups & H1 & [Ho1 Hg] & (s2 & H2 & [Ho2 _] & _ & ->)) Hm.
  assert (H02 : heard s s2) by by transitivity s1. destruct H02.
  rewrite submit_response_wire by (cbn; congruence). split; [cbn; congruence|].
  exists ups. split; [|done]. cbn [output_buf_ close_stream update_stream set_field].
  rewrite map_app, concat_app, app_assoc. fold (grants_wire ups). rewrite <- Ho1, <- Ho2.
  rewrite <- heard_max0, <- heard_encoder0. done.
Qed.

(** The answer, at the client. *)
Lemma receive_answer p sid ups max e r s chunks :
  waiting p sid (asked_stream sid p) s -> 0 < sid < 2 ^ 31 -> 0 < max < 2 ^ 24 ->
  transmissible_response e r -> Forall (grant_ok sid) ups ->
  conn_send_window_ s + total 0 ups <= MAX_WINDOW_SIZE -> 65535 + total sid ups <= MAX_WINDOW_SIZE ->
  concat chunks = concat (map frame_wire (map grant_frame ups ++ response_frames sid max e r)) ->
  exists s', snd <$> feed_list frame_reader_init s chunks = Ok s' /\
    settled p (received_response r) s s'.
Proof.
  intros Hw Hsid Hm Hr Hu Hc0 Hs0 Hc.
  rewrite (feed_list_run frame_reader_init []); [|exact (absorbed_init (R := frame_reader))|by apply parse1_nil|].
  2: { rewrite (wt_mode _ _ _ _ Hw). done. }
  cbn [app]. rewrite Hc, parse_all_wire.
  2: { apply Forall_app. split; [by apply (grants_ok sid)|apply response_frames_ok; lia]. }
  cbn [fst]. rewrite run_app.
  destruct (grants_run p sid ups s (asked_stream sid p)) as (s1 & w & -> & H1 & Hw1); [lia|done..|].
  destruct (response_run p sid max e r s1 _ Hw1) as (s' & Hrun & Hset); [done|lia|done|done|].
  exists s'. split; [done|]. by apply (settled_heard p _ s s1).
Qed.

Lemma exchange (c s : session E D) (r : request) (p : nat) (sid : Z)
    (h : request -> outcome response) (rsp : response) (up : list bytes) :
  asking r p sid c -> serving h sid s -> output_buf_ s = [] -> window_ok (conn_recv_window_ s) ->
  peer_max_frame_size_ s < 2 ^ 24 ->
  declines sid (head_of (received_request r)) (bool_decide (rq_bd r = [])) s ->
  h (received_request r) = Ok rsp -> transmissible_response (encoder_ s) rsp ->
  exists c1, do_submit_request r (Some p) false c = Ok (sid, c1) /\ heap_ c1 = heap_ c /\
    (concat up = (get_pending_output c1).1 ->
     exists s1, snd <$> feed_list frame_reader_init s up = Ok s1 /\
       effects_ s1 = effects_ s ++ request_events sid (received_request r) s ++
                     [Requested (received_request r)] /\
       forall down, concat down = (get_pending_output s1).1 ->
       exists c2, snd <$> feed_list frame_reader_init c1 down = Ok c2 /\
         settled p (received_response rsp) c1 c2).
Proof.
  intros Hc Hs Ho Hw Hm Hdec Hrsp Ht. destruct (ask r p sid c Hc) as (c1 & -> & Hout & Hwait & Hcw & Hch).
  exists c1. split; [done|]. split; [done|]. intros Hup. destruct Hc. destruct as_next0 as [_ Hsid].
  destruct (serve_wire h rsp r (encoder_ c) sid (peer_max_frame_size_ c) s up Hs) as (s1 & Hf & Ha);
    [lia|done|done|done|done|by rewrite Hup|].
  exists s1. split; [done|].
  destruct (answered_effects _ _ _ _ _ Ha) as (He & ups & Hwire & Hg); [apply Hs|].
  split; [by rewrite He, app_assoc|]. intros down Hdown. cbn in Hwire. rewrite Ho in Hwire.
  destruct (Hg Hw) as (Hok & Hg0 & Hg1). change (rq_bd (received_request r)) with (rq_bd r) in *.
  apply (receive_answer p sid ups (peer_max_frame_size_ s) (encoder_ s)); try done.
  - lia.
  - destruct Hs. lia.
  - lia.
  - lia.
  - by rewrite Hdown.
Qed.
End Wire.

(** ** Properties *)

(** C1: a whole exchange.  A client submits a request; the server is fed what
    the client writes, cut into reads at any bytes; its handler is called once,
    with the request received (after the start handler, if there is one, has
    left the request to it), and the client, fed what the server writes, cut
    in any way (window updates and a response of HEADERS, CONTINUATION, DATA and
    trailers), settles the promise of the request with the response received. *)
Theorem h2_exchange `{HC : HeaderCodec E D} (c s : session E D) (r : request) (p : nat) (sid : Z)
    (h : request -> outcome response) (rsp : response) (up : list bytes) :
  asking r p sid c -> serving h sid s -> output_buf_ s = [] -> window_ok (conn_recv_window_ s) ->
  peer_max_frame_size_ s < 2 ^ 24 ->
  declines sid (head_of (received_request r)) (bool_decide (rq_bd r = [])) s ->
  h (received_request r) = Ok rsp -> transmissible_response (encoder_ s) rsp ->
  exists c1, do_submit_request r (Some p) false c = Ok (sid, c1) /\
    (concat up = (get_pending_output c1).1 ->
     exists s1, snd <$> feed_list frame_reader_init s up = Ok s1 /\
       effects_ s1 = effects_ s ++ request_events sid (received_request r) s ++
                     [Requested (received_request r)] /\
       forall down, concat down = (get_pending_output s1).1 ->
       exists c2, snd <$> feed_list frame_reader_init c1 down = Ok c2 /\
         settled p (received_response rsp) c1 c2).
Proof.
  intros. destruct (exchange c s r p sid h rsp up) as (c1 & Hc1 & _ & Hx); [done..|]. by exists c1.
Qed.

(** A POST with a body, answered with a body and a trailer. *)
Definition test_post : request :=
  {| rq_method := POST; rq_path := str "/submit"; rq_query := []; rq_ver := HTTP_11;
     rq_hdrs := [(str "Host", str "example.com"); (str "X-Id", str "7")];
     rq_bd := str "ping" |}.

Definition test_handler (r : request) : response :=
  {| rs_status := 200; rs_ver := HTTP_11;
     rs_hdrs := [(str "Content-Type", str "text/plain"); (str "X-Path", rq_path r)];
     rs_bd := str "pong: " ++ rq_bd r; rs_trailers := [(str "X-Sum", str "42")] |}.

Definition quiet_client : session hpack_encoder hpack_decoder :=
  (get_pending_output (test_session client)).2.

Definition quiet_server : session hpack_encoder hpack_decoder :=
  prefaced (set_request_handler (fun r => Ok (test_handler r)) (get_pending_output (test_session server)).2).

(** What a session has to send, a byte at a time. *)
Definition bytewise (s : session hpack_encoder hpack_decoder) : list bytes :=
  map (fun b => [b]) (output_buf_ s).

Lemma concat_bytewise s : concat (bytewise s) = output_buf_ s.
Proof. unfold bytewise. induction (output_buf_ s) as [|b l IH]; cbn; congruence. Qed.

Definition test_asked : outcome (Z * session hpack_encoder hpack_decoder) :=
  do_submit_request test_post (Some 0%nat) false quiet_client.

Definition test_up : list bytes := match test_asked with Ok (_, c1) => bytewise c1 | _ => [] end.

Lemma h2_exchange_witness :
  exists c1 s1 c2, test_asked = Ok (1, c1) /\
    snd <$> feed_list frame_reader_init quiet_server test_up = Ok s1 /\
    snd <$> feed_list frame_reader_init c1 (bytewise s1) = Ok c2 /\
    settled 0 (received_response (test_handler (received_request test_post))) c1 c2.
Proof.
  destruct (h2_exchange quiet_client quiet_server test_post 0 1
    (fun r => Ok (test_handler r)) (test_handler (received_request test_post)) test_up)
    as (c1 & Ec & Hx).
  - split; [done|done|done|done|by vm_compute|by vm_compute|done|by exists new_promise|
      by vm_compute|by vm_compute|].
    split; [repeat constructor; done| | |by vm_compute|by vm_compute].
    + apply (bool_decide_unpack _). vm_compute. exact I.
    + apply (bool_decide_unpack (Forall Hpack.header_ok (request_headers test_post))). vm_compute. exact I.
  - split; by vm_compute.
  - done.
  - by vm_compute.
  - by vm_compute.
  - exact I.
  - done.
  - split; [repeat constructor; done|by vm_compute|repeat constructor; done| | |by vm_compute..].
    + apply (bool_decide_unpack (Forall Hpack.header_ok _)). vm_compute. exact I.
    + apply (bool_decide_unpack (Forall Hpack.header_ok _)). vm_compute. exact I.
  - destruct Hx as (s1 & Hs1 & _ & Hdown).
    { unfold test_up, test_asked. rewrite Ec. apply concat_bytewise. }
    destruct (Hdown (bytewise s1) (concat_bytewise s1)) as (c2 & Hc2 & Hset).
    exists c1, s1, c2. exact (conj Ec (conj Hs1 (conj Hc2 Hset))).
Defined.
