(* ===== verification/HttpServer.v ===== *)
(** * The HTTP server (src/src/http/server_impl.cpp, src/include/async_net/http/server.hpp,
      server_builder.hpp)

    The route table, the keep-alive loop of HTTP/1.1 and the connection loop of
    HTTP/2 on any byte stream, and the builder.  Accepting connections and
    starting threads are system calls and are not modelled; a connection is a
    function of its stream. *)
From S2P Require Import Prelude Framing HeaderTable H2Frame CppString HttpTypes Http1Codec WebSocket Transport H2Session.
From stdpp Require Import options.

(** ** Handlers and routes *)

Abbreviation handler_fn := (request -> task response).

(** A WebSocket handler is named by a number: it takes over the socket. *)
Abbreviation ws_handler_fn := nat (only parsing).

Record route_entry := { re_m : method; re_path : bytes; re_handler : handler_fn }.

Inductive acceptor_kind := NoAcceptor | PlainAcceptor | TlsAcceptor.

Record server_context := {
  port : Z;
  addr : bytes;
  reuse_port : bool;
  running : bool;
  routes : list route_entry;
  ws_routes : list (bytes * ws_handler_fn);
  default_handler : handler_fn;
  push_provider_fn : option (request -> list (request * response));
  h3_enabled : bool;
  h3_cert : bytes;
  h3_key : bytes;
  acceptor_of : acceptor_kind
}.

#[export] Instance server_context_eta : Settable server_context := fun c =>
  Build_server_context (port c) (addr c) (reuse_port c) (running c) (routes c) (ws_routes c)
    (default_handler c) (push_provider_fn c) (h3_enabled c) (h3_cert c) (h3_key c)
    (acceptor_of c).

(** [server::server]; a null address is the empty string. *)
Definition new_server (p : Z) (a : bytes) (rp : bool) : server_context :=
  {| port := p; addr := if bool_decide (a = []) then str "0.0.0.0" else a; reuse_port := rp;
     running := true; routes := []; ws_routes := [];
     default_handler := fun _ => Returns response_not_found; push_provider_fn := None;
     h3_enabled := false; h3_cert := []; h3_key := []; acceptor_of := NoAcceptor |}.

Definition route (m : method) (path : bytes) (h : handler_fn) (c : server_context)
  : server_context :=
  c <| routes ::= fun rs => rs ++ [{| re_m := m; re_path := path; re_handler := h |}] |>.

Definition ws_route (path : bytes) (h : ws_handler_fn) (c : server_context) : server_context :=
  c <| ws_routes ::= fun rs => rs ++ [(path, h)] |>.

Definition set_default_handler (h : handler_fn) (c : server_context) : server_context :=
  c <| default_handler := h |>.

Definition set_push_provider (f : request -> list (request * response)) (c : server_context)
  : server_context := c <| push_provider_fn := Some f |>.

Definition stop (c : server_context) : server_context := c <| running := false |>.

(** The first entry of the table with the method and the path of the request. *)
Fixpoint find_route (rs : list route_entry) (req : request) : option handler_fn :=
  match rs with
  | [] => None
  | r :: rs =>
      if bool_decide (re_m r = rq_method req) && bool_decide (re_path r = rq_path req)
      then Some (re_handler r) else find_route rs req
  end.

Definition dispatch_request (c : server_context) (req : request) : outcome response :=
  match find_route (routes c) req with
  | Some h => await (h req)
  | None => await (default_handler c req)
  end.

Fixpoint find_ws_handler (rs : list (bytes * ws_handler_fn)) (path : bytes) : option ws_handler_fn :=
  match rs with
  | [] => None
  | (p, h) :: rs => if bool_decide (p = path) then Some h else find_ws_handler rs path
  end.

(** ** The HTTP/1.1 keep-alive loop *)

(** [ASYNC_NET_HAS_HTTP3] *)
Class BuildOptions := { has_http3 : bool }.

Section Server.
Context `{BO : BuildOptions}.

Definition with_headers (f : headers -> headers) (r : response) : response :=
  {| rs_status := rs_status r; rs_ver := rs_ver r; rs_hdrs := f (rs_hdrs r); rs_bd := rs_bd r;
     rs_trailers := rs_trailers r |}.

Definition alt_svc (c : server_context) (h : headers) : headers :=
  if has_http3 && negb (headers_contains h (str "Alt-Svc"))
  then headers_set h (str "Alt-Svc") (str "h3=" ++ [x22; x3a] ++ to_string (port c) ++ [x22] ++ str "; ma=86400")
  else h.

(** The headers the loop adds to the response of a handler. *)
Definition finish_response (c : server_context) (keep_alive : bool) (r : response) : response :=
  with_headers (fun h =>
    let h := headers_set h (str "Connection")
               (if keep_alive then str "keep-alive" else str "close") in
    let h := alt_svc c h in
    if headers_contains h (str "Content-Length") then h
    else headers_set h (str "Content-Length") (to_string (len (rs_bd r)))) r.

Definition keeps_alive (req : request) : bool :=
  is_keep_alive (rq_hdrs req) && bool_decide (rq_ver req = HTTP_11).

(** What a connection has done: the handlers it has run. *)
Inductive served := Served (req : request) (resp : response) | Upgraded (h : ws_handler_fn).

Section Connection.
Context `{BS : ByteStream W}.

(** The inner loop: [attempts] passes are left. *)
Fixpoint read_request (attempts : nat) (buffer : bytes) (w : W) : outcome (option request * W) :=
  match attempts with
  | O => Ok (None, w)
  | S attempts =>
      result ← parse_request (S (length buffer)) buffer;
      match result with
      | Some (req, _) => Ok (Some req, w)
      | None =>
          match read_some 8192 w with
          | (None, w) => Ok (None, w)
          | (Some d, w) => read_request attempts (buffer ++ d) w
          end
      end
  end.

(** [http11_keep_alive_loop]: [turns] is how often the loop finds [running] set;
    the socket is closed when it returns. *)
Fixpoint http11_keep_alive_loop (turns : nat) (c : server_context) (w : W)
  : outcome (list served * W) :=
  match turns with
  | O => Ok ([], w)
  | S turns =>
      '(req_opt, w) ← read_request 1000 [] w;
      match req_opt with
      | None => Ok ([], w)
      | Some req =>
          match (if is_websocket_upgrade req then find_ws_handler (ws_routes c) (rq_path req)
                 else None) with
          | Some h =>
              let '(_, w) := write_all (build_handshake_response req) w in Ok ([Upgraded h], w)
          | None =>
              let keep_alive := keeps_alive req in
              resp ← dispatch_request c req;
              let '(ok, w) :=
                write_all (serialize_response (finish_response c keep_alive resp)) w in
              if negb ok || negb keep_alive then Ok ([Served req resp], w)
              else
                '(rest, w) ← http11_keep_alive_loop turns c w;
                Ok (Served req resp :: rest, w)
          end
      end
  end.
End Connection.

(** ** HTTP/2 *)

(** [h2_dispatch_adapter::dispatch]: the handler's coroutine is started and must
    be done; [result] throws what it has thrown. *)
Definition h2_dispatch (c : server_context) (req : request) : outcome response :=
  match find_route (routes c) req with
  | Some h =>
      match h req with
      | Returns r => Ok (with_headers (alt_svc c) r)
      | Raises what => Throws (RuntimeError what)
      | Suspends _ => Ok (response_internal_error (str "Handler not synchronous"))
      end
  | None =>
      match default_handler c req with
      | Returns r => Ok (with_headers (alt_svc c) r)
      | Raises what => Throws (RuntimeError what)
      | Suspends _ => Ok response_not_found
      end
  end.

(** The answer to the protocols a client offers. *)
Definition alpn_select (protos : list bytes) : bytes :=
  if bool_decide (str "h2" ∈ protos) then str "h2"
  else if bool_decide (str "http/1.1" ∈ protos) then str "http/1.1"
  else [].

Definition PREFACE : bytes := str "PRI * HTTP/2.0" ++ CRLF ++ CRLF ++ str "SM" ++ CRLF ++ CRLF.
Definition PREFACE_LEN : Z := 24.

Section Http2.
Context `{HC : HeaderCodec E D} `{BS : ByteStream W}.

Definition flush_session (s : session E D) (w : W) : bool * session E D * W :=
  let '(data, s) := get_pending_output s in
  let '(ok, w) := write_all data w in (ok, s, w).

(** The loop that fills [preface_buf]; each pass reads at least a byte, so the
    24 bytes it is after are enough fuel. *)
Fixpoint read_preface (fuel : nat) (buf : bytes) (w : W) : bytes * W :=
  match fuel with
  | O => (buf, w)
  | S fuel =>
      if len buf <? PREFACE_LEN then
        match read_some (256 - len buf) w with
        | (None, w) => (buf, w)
        | (Some d, w) => read_preface fuel (buf ++ d) w
        end
      else (buf, w)
  end.

(** The read loop: [turns] is how often it finds [running] set. *)
Fixpoint h2_loop (turns : nat) (r : frame_reader) (s : session E D) (w : W)
  : outcome (frame_reader * session E D * W) :=
  match turns with
  | O => Ok (r, s, w)
  | S turns =>
      if negb (alive_ s) then Ok (r, s, w) else
      match read_some 16384 w with
      | (None, w) => Ok (r, s, w)
      | (Some d, w) =>
          '(r, s, consumed) ← feed r s d;
          if consumed <? 0 then Ok (r, s, w) else
          let '(ok, s, w) := flush_session s w in
          if ok : bool then h2_loop turns r s w else Ok (r, s, w)
      end
  end.

(** A connection of HTTP/2 on a session whose handlers are set: [None] when the
    connection preface is not that of HTTP/2. *)
Definition serve_session (turns : nat) (s : session E D) (w : W)
  : outcome (option (frame_reader * session E D) * W) :=
  let '(_, s, w) := flush_session s w in
  let '(buf, w) := read_preface (Z.to_nat PREFACE_LEN) [] w in
  if (len buf <? PREFACE_LEN) || negb (bool_decide (takeZ PREFACE_LEN buf = PREFACE))
  then Ok (None, w)
  else
    '(r, s) ← (if PREFACE_LEN <? len buf
               then '(r, s, _) ← feed frame_reader_init s (dropZ PREFACE_LEN buf); Ok (r, s)
               else Ok (frame_reader_init, s));
    let '(_, s, w) := flush_session s w in
    '(r, s, w) ← h2_loop turns r s w;
    Ok (Some (r, s), w).

(** The handlers of a new session of [run_tls]. *)
Definition server_handlers (c : server_context) : handlers :=
  {| request_handler_ := Some (h2_dispatch c); streaming_request_handler_ := None;
     request_start_handler_ := None; push_provider_ := push_provider_fn c;
     push_handler_ := false |}.

(** [run_tls] when the client has chosen [h2], on a new session. *)
Definition run_h2 (turns : nat) (c : server_context) (s : session E D) (w : W)
  : outcome (option (frame_reader * session E D) * W) :=
  serve_session turns (s <| hooks_ := server_handlers c |>) w.
End Http2.

(** [run_tls] after the handshake: which protocol is spoken. *)
Definition speaks_h2 (alpn : bytes) : bool := bool_decide (alpn = str "h2").
End Server.

(** ** The builder *)

Record server_builder := {
  b_port : Z;
  b_addr : bytes;
  b_reuse_port : bool;
  b_routes : list route_entry;
  b_ws_routes : list (bytes * ws_handler_fn);
  b_default_handler : option handler_fn;
  b_push_provider : option (request -> list (request * response));
  b_use_tls : bool;
  b_ssl_ctx : bool;
  b_use_h3 : bool;
  b_h3_cert : bytes;
  b_h3_key : bytes
}.

#[export] Instance builder_eta : Settable server_builder := fun b =>
  Build_server_builder (b_port b) (b_addr b) (b_reuse_port b) (b_routes b) (b_ws_routes b)
    (b_default_handler b) (b_push_provider b) (b_use_tls b) (b_ssl_ctx b) (b_use_h3 b)
    (b_h3_cert b) (b_h3_key b).

Definition new_builder (p : Z) : server_builder :=
  {| b_port := p; b_addr := str "0.0.0.0"; b_reuse_port := false; b_routes := [];
     b_ws_routes := []; b_default_handler := None; b_push_provider := None; b_use_tls := false;
     b_ssl_ctx := false; b_use_h3 := false; b_h3_cert := []; b_h3_key := [] |}.

Inductive builder_call :=
| Address (a : bytes)
| ReusePort (rp : bool)
| Route (m : method) (path : bytes) (h : handler_fn)
| WsRoute (path : bytes) (h : ws_handler_fn)
| DefaultHandler (h : handler_fn)
| PushProvider (f : request -> list (request * response))
| Http1
| Tls
| Http3 (cert key : bytes).

Definition builder_step (b : server_builder) (call : builder_call) : server_builder :=
  match call with
  | Address a => b <| b_addr := a |>
  | ReusePort rp => b <| b_reuse_port := rp |>
  | Route m path h =>
      b <| b_routes ::= fun rs => rs ++ [{| re_m := m; re_path := path; re_handler := h |}] |>
  | WsRoute path h => b <| b_ws_routes ::= fun rs => rs ++ [(path, h)] |>
  | DefaultHandler h => b <| b_default_handler := Some h |>
  | PushProvider f => b <| b_push_provider := Some f |>
  | Http1 => b <| b_use_tls := false |>
  | Tls => b <| b_use_tls := true |> <| b_ssl_ctx := true |>
  | Http3 cert key => b <| b_use_h3 := true |> <| b_h3_cert := cert |> <| b_h3_key := key |>
  end.

(** [build]: the calls on the new server, then the acceptor and the
    configuration of HTTP/3. *)
Definition build (b : server_builder) : server_context :=
  let c := new_server (b_port b) (b_addr b) (b_reuse_port b) in
  let c := foldl (fun c r => route (re_m r) (re_path r) (re_handler r) c) c (b_routes b) in
  let c := foldl (fun c r => ws_route r.1 r.2 c) c (b_ws_routes b) in
  let c := match b_default_handler b with Some h => set_default_handler h c | None => c end in
  let c := match b_push_provider b with Some f => set_push_provider f c | None => c end in
  let c := c <| acceptor_of :=
                  if b_use_tls b && b_ssl_ctx b then TlsAcceptor else PlainAcceptor |> in
  if b_use_h3 b then
    c <| h3_enabled := true |> <| h3_cert := b_h3_cert b |> <| h3_key := b_h3_key b |>
  else c.

(** What [serve_configured] starts. *)
Definition serve_configured (c : server_context) : acceptor_kind :=
  match acceptor_of c with NoAcceptor => PlainAcceptor | k => k end.
