(* ===== verification/HttpServerFacts.v ===== *)
(** * Facts of the HTTP server

    What a keep-alive connection answers, what the route table of a built server
    does, and where an HTTP/2 connection starts. *)
From S2P Require Import Prelude Framing HeaderTable H2Frame CppString HttpTypes Http1Codec WebSocket Transport H2Session H2SessionFacts H2Output HttpServer.
From stdpp Require Import options.

(** ** One request *)

(** A request as the server's parser gives it. *)
Definition seen (r : request) : request :=
  {| rq_method := rq_method r; rq_path := (split_target (rq_path r)).1;
     rq_query := (split_target (rq_path r)).2; rq_ver := rq_ver r;
     rq_hdrs := rq_hdrs r; rq_bd := rq_bd r |}.

Section Http1.
Context `{BO : BuildOptions}.

(** The pieces in which a request arrives: not empty, within the read buffer,
    and fewer than the attempts the server makes. *)
Definition request_pieces (r : request) (ds : list bytes) : Prop :=
  cut_ok 8192 ds /\ (length ds < 1000)%nat /\ concat ds = serialize_request r.

Lemma read_request_pieces r attempts b ds rest (p : pipe) :
  request_wf r -> cut_ok 8192 ds -> (length ds < attempts)%nat ->
  b ++ concat ds = serialize_request r -> arriving p = ds ++ rest ->
  read_request attempts b p = Ok (Some (seen r), p <| arriving := rest |>).
Proof.
  intros Hwf. destruct (request_parses r Hwf) as [Hwhole Hpart].
  revert b ds p. induction attempts as [|attempts IH]; intros b ds p Hcut Hlen Hb Hp; [lia|].
  cbn [read_request]. destruct ds as [|d ds].
  - cbn [concat app] in *. rewrite app_nil_r in Hb. subst b.
    pose proof (Hwhole (S (length (serialize_request r))) []) as H. rewrite app_nil_r in H.
    rewrite H. cbn [mbind outcome_bind]. do 2 f_equal. apply pipe_ext; [by rewrite Hp|done..].
  - inversion Hcut as [|? ? Hd Hds]; subst. cbn [concat] in Hb.
    rewrite (Hpart _ b (d ++ concat ds)).
    + cbn [mbind outcome_bind]. rewrite (pipe_read_piece 8192 d (ds ++ rest)) by (done || lia).
      rewrite (IH _ ds); [done|done|cbn in Hlen; lia|by rewrite <- app_assoc|done].
    + done.
    + intros E%app_nil. destruct E as [-> _]. blia.
Qed.

Lemma read_request_end attempts b (p : pipe) :
  arriving p = [] -> parse_request (S (length b)) b = Ok None ->
  exists w, read_request attempts b p = Ok (None, w) /\ arriving w = [] /\ sent w = sent p.
Proof.
  intros Hp Hb. destruct attempts as [|attempts]; cbn [read_request]; [by exists p|].
  rewrite Hb. cbn [mbind outcome_bind read_some pipe_stream]. unfold pipe_read. rewrite Hp. by exists p.
Qed.

(** ** A conversation *)

(** A request of HTTP/1.1 that does not ask to close the connection. *)
Definition persistent (r : request) : Prop := rq_ver r = HTTP_11 /\ is_keep_alive (rq_hdrs r) = true.

#[export] Instance persistent_dec r : Decision (persistent r).
Proof. unfold persistent. apply _. Defined.

Lemma keeps_alive_persistent r : keeps_alive (seen r) = bool_decide (persistent r).
Proof.
  unfold keeps_alive. apply eq_bool_prop_intro. rewrite bool_decide_spec. unfold persistent.
  rewrite andb_True, bool_decide_spec. cbn. destruct (is_keep_alive (rq_hdrs r)); naive_solver.
Qed.

(** The requests a connection answers, each with the response of its handler,
    and the bytes of the answers: it ends after the first request that does not
    keep it alive. *)
Fixpoint conversation (c : server_context) (rs : list (request * response)) : list served * bytes :=
  match rs with
  | [] => ([], [])
  | (r, resp) :: rs =>
      let req := seen r in
      let out := serialize_response (finish_response c (bool_decide (persistent r)) resp) in
      if decide (persistent r) then
        let '(es, o) := conversation c rs in (Served req resp :: es, out ++ o)
      else ([Served req resp], out)
  end.

(** The request is not taken over by a WebSocket handler. *)
Definition not_upgraded (c : server_context) (r : request) : Prop :=
  is_websocket_upgrade (seen r) = false \/ find_ws_handler (ws_routes c) (rq_path (seen r)) = None.

(** A request the server can answer, with the response of its handler. *)
Definition answerable (c : server_context) (rr : request * response) : Prop :=
  request_wf rr.1 /\ not_upgraded c rr.1 /\ dispatch_request c (seen rr.1) = Ok rr.2.

Lemma keep_alive_conversation c rs cuts turns (p : pipe) :
  Forall (answerable c) rs -> Forall2 (fun rr => request_pieces rr.1) rs cuts ->
  (length rs < turns)%nat -> arriving p = concat cuts -> 0 < quantum p ->
  exists p', http11_keep_alive_loop turns c p = Ok ((conversation c rs).1, p') /\
    sent p' = sent p ++ (conversation c rs).2.
Proof.
  intros Hwf. revert cuts turns p.
  induction Hwf as [|[r resp] rs (Hr & Hu & Hd) _ IH]; intros cuts turns p Hcuts Ht Hp Hq;
    (destruct turns as [|turns]; [cbn in Ht; lia|]); cbn [http11_keep_alive_loop conversation].
  - inversion Hcuts; subst. cbn [concat] in Hp.
    destruct (read_request_end 1000 [] p Hp eq_refl) as (w & -> & _ & Hs).
    cbn [mbind outcome_bind]. exists w. split; [done|]. rewrite Hs. by rewrite app_nil_r.
  - inversion Hcuts as [|? ds ? cuts' Hds Hcuts']; subst. cbn [fst snd] in *.
    destruct Hds as (Hcut & Hn & Hc). cbn [concat] in Hp.
    rewrite (read_request_pieces r 1000 [] ds (concat cuts')) by (done || lia).
    cbn [mbind outcome_bind].
    assert ((if is_websocket_upgrade (seen r) then find_ws_handler (ws_routes c) (rq_path (seen r))
             else None) = None) as -> by (destruct Hu as [-> | ->]; [done|by destruct (is_websocket_upgrade _)]).
    rewrite Hd, keeps_alive_persistent. cbn [mbind outcome_bind].
    destruct (decide (persistent r)) as [Hk|Hk];
      [rewrite (bool_decide_eq_true_2 _ Hk)|rewrite (bool_decide_eq_false_2 _ Hk)];
      set (out := serialize_response _); rewrite write_all_pipe by done; cbn [negb orb].
    + destruct (IH cuts' turns
        (p <| arriving := concat cuts' |> <| sent ::= fun s => s ++ out |>))
        as (p' & -> & Hs); [done|cbn in Ht; lia|done|done|].
      cbn [mbind outcome_bind]. destruct (conversation c rs) as [es o]. exists p'.
      split; [done|]. rewrite Hs. cbn. by rewrite <- app_assoc.
    + eexists. split; [done|]. done.
Qed.
End Http1.

(** ** Routing *)

Section Routing.
Context `{BO : BuildOptions}.

(** The routes and the default handler that a sequence of builder calls
    registers. *)
Definition registered (calls : list builder_call) : list route_entry :=
  omap (fun call => match call with
                    | Route m path h => Some {| re_m := m; re_path := path; re_handler := h |}
                    | _ => None
                    end) calls.

Definition last_default (calls : list builder_call) : handler_fn :=
  foldl (fun d call => match call with DefaultHandler h => h | _ => d end)
    (fun _ => Returns response_not_found) calls.

(** The handler a request goes to. *)
Definition handler_for (calls : list builder_call) (req : request) : handler_fn :=
  match List.find (fun e => bool_decide (re_m e = rq_method req) &&
                            bool_decide (re_path e = rq_path req)) (registered calls) with
  | Some e => re_handler e
  | None => last_default calls
  end.

Lemma find_route_find rs req :
  find_route rs req =
  re_handler <$> List.find (fun e => bool_decide (re_m e = rq_method req) &&
                                     bool_decide (re_path e = rq_path req)) rs.
Proof. induction rs as [|e rs IH]; cbn; [done|]. by destruct (_ && _). Qed.

Lemma builder_routes b calls :
  b_routes (foldl builder_step b calls) = b_routes b ++ registered calls.
Proof.
  revert b. induction calls as [|call calls IH]; intros b; cbn [foldl].
  - by rewrite app_nil_r.
  - rewrite IH. destruct call; cbn; try done. by rewrite <- app_assoc.
Qed.

Lemma builder_default b calls d :
  default (fun _ => Returns response_not_found) (b_default_handler b) = d ->
  default (fun _ => Returns response_not_found) (b_default_handler (foldl builder_step b calls)) =
  foldl (fun d call => match call with DefaultHandler h => h | _ => d end) d calls.
Proof.
  revert b d. induction calls as [|call calls IH]; intros b d Hd; cbn [foldl]; [done|].
  apply IH. by destruct call.
Qed.

Lemma add_routes rs c :
  let c' := foldl (fun c r => route (re_m r) (re_path r) (re_handler r) c) c rs in
  routes c' = routes c ++ rs /\ default_handler c' = default_handler c.
Proof.
  revert c. induction rs as [|r rs IH]; intros c; cbn [foldl]; [by rewrite app_nil_r|].
  destruct (IH (route (re_m r) (re_path r) (re_handler r) c)) as [-> ->].
  split; [|done]. cbn. rewrite <- app_assoc. by destruct r.
Qed.

Lemma add_ws_routes rs c :
  let c' := foldl (fun c (r : bytes * ws_handler_fn) => ws_route r.1 r.2 c) c rs in
  routes c' = routes c /\ default_handler c' = default_handler c.
Proof.
  revert c. induction rs as [|r rs IH]; intros c; cbn [foldl]; [done|].
  by destruct (IH (ws_route r.1 r.2 c)) as [-> ->].
Qed.

Lemma build_routes b :
  routes (build b) = b_routes b /\
  default_handler (build b) = default (fun _ => Returns response_not_found) (b_default_handler b).
Proof.
  unfold build. set (c0 := new_server _ _ _).
  set (c1 := foldl _ c0 (b_routes b)). set (c2 := foldl _ c1 (b_ws_routes b)).
  assert (routes c1 = b_routes b /\ default_handler c1 = default_handler c0) as [Hr1 Hd1].
  { destruct (add_routes (b_routes b) c0) as [H1 H2]. by split. }
  assert (routes c2 = routes c1 /\ default_handler c2 = default_handler c1) as [Hr2 Hd2].
  { apply add_ws_routes. }
  rewrite Hr1 in Hr2. rewrite Hd1 in Hd2.
  destruct (b_default_handler b), (b_push_provider b), (b_use_h3 b); done.
Qed.

Lemma built_handler p calls req :
  match find_route (routes (build (foldl builder_step (new_builder p) calls))) req with
  | Some h => h
  | None => default_handler (build (foldl builder_step (new_builder p) calls))
  end = handler_for calls req.
Proof.
  destruct (build_routes (foldl builder_step (new_builder p) calls)) as [-> ->].
  rewrite builder_routes, (builder_default _ _ _ eq_refl), find_route_find. unfold handler_for, last_default.
  cbn [b_routes new_builder app]. by destruct (List.find _ _).
Qed.
End Routing.

(** ** HTTP/2 connections *)

Section Http2.
Context `{HC : HeaderCodec E D} `{BO : BuildOptions}.

Implicit Types (s : session E D) (p : pipe).

Lemma flush_pipe s p :
  0 < quantum p ->
  flush_session s p = (true, drained s, p <| sent ::= fun o => o ++ output_buf_ s |>).
Proof. intros Hq. unfold flush_session, get_pending_output. by rewrite write_all_pipe. Qed.

(** A read takes a prefix of what arrives, and is not empty. *)
Lemma pipe_reads k p :
  0 < k -> Forall (fun d => d <> []) (arriving p) -> arriving p <> [] ->
  exists d p', read_some k p = (Some d, p') /\ d <> [] /\ len d <= k /\
    concat (arriving p) = d ++ concat (arriving p') /\
    Forall (fun d => d <> []) (arriving p') /\ sent p' = sent p /\ quantum p' = quantum p.
Proof.
  intros Hk Hf Hne. cbn. unfold pipe_read. destruct (arriving p) as [|d ds] eqn:Ea; [done|].
  inversion Hf as [|? ? Hd Hds]; subst. assert (0 < len d) by (destruct d; [done|blia]).
  destruct (Z.leb_spec (len d) k).
  - exists d, (p <| arriving := ds |>). done.
  - exists (takeZ k d), (p <| arriving := dropZ k d :: ds |>). split; [done|].
    split; [intros Ez%(f_equal len); revert Ez; blia|]. split; [blia|].
    split; [cbn; by rewrite app_assoc, takeZ_dropZ|]. split; [|done].
    constructor; [|done]. intros Ez%(f_equal len). revert Ez. blia.
Qed.

Lemma prefaced_drained s : prefaced s = s -> prefaced (drained s) = drained s.
Proof.
  unfold prefaced. change (mode_ (drained s)) with (mode_ s). destruct (mode_ s); [|done].
  intros Hp. rewrite <- Hp at 2. done.
Qed.

(** The read loop does to the session what its frame handler does on the whole
    input, and writes what that appends to the output. *)
Lemma h2_loop_run turns r b s s2 p :
  (alive_ s = true -> absorbed r b) -> (parse1 b : option (H2Frame.frame * Z)) = None -> prefaced s = s ->
  output_buf_ s = [] -> 0 < quantum p ->
  Forall (fun d => d <> []) (arriving p) -> (length (concat (arriving p)) < turns)%nat ->
  run pump_process pump_alive (Ok s) (parse_all (b ++ concat (arriving p))).1 = Ok s2 ->
  exists r' p', h2_loop turns r s p = Ok (r', drained s2, p') /\ sent p' = sent p ++ output_buf_ s2.
Proof.
  revert r b s s2 p. induction turns as [|turns IH]; intros r b s s2 p Hr Hb Hp Ho Hq Hne Hl Hrun;
    [lia|]. cbn [h2_loop].
  assert (drained s = s) as Hd by (destruct s; cbn in *; by subst).
  destruct (alive_ s) eqn:Ha; cbn [negb].
  2: { rewrite run_dead in Hrun by exact Ha. injection Hrun as <-. exists r, p. rewrite Hd, Ho.
       split; [done|]. by rewrite app_nil_r. }
  destruct (decide (arriving p = [])) as [Ea|Ea].
  { assert (read_some 16384 p = (None, p)) as -> by (cbn; unfold pipe_read; by rewrite Ea).
    rewrite Ea, app_nil_r, parse_all_none in Hrun by done. cbn in Hrun. injection Hrun as <-.
    exists r, p. rewrite Hd, Ho. split; [done|]. by rewrite app_nil_r. }
  destruct (pipe_reads 16384 p) as (d & p1 & -> & Hd0 & _ & Hc & Hne1 & Hs1 & Hq1); [done..|].
  rewrite Hc, app_assoc, parse_all_app in Hrun. cbn [fst] in Hrun. rewrite run_app in Hrun.
  destruct (run pump_process pump_alive (Ok s) (parse_all (b ++ d)).1) as [s1| | |] eqn:E1;
    [|by rewrite run_dead in Hrun by done..].
  destruct (feed_read r b s d s1 (Hr eq_refl) Hb Ha Hp E1) as (r1 & n & -> & Hn & Hp1 & Habs).
  cbn [mbind outcome_bind]. rewrite (proj2 (Z.ltb_ge _ _)) by lia.
  rewrite flush_pipe by lia.
  destruct (run_drained _ _ _ Hrun) as (s3 & Hrun3 & ->).
  set (p2 := p1 <| sent ::= fun o => o ++ output_buf_ s1 |>).
  assert (exists r' p', h2_loop turns r1 (drained s1) p2 = Ok (r', drained s3, p') /\
            sent p' = sent p2 ++ output_buf_ s3) as (r' & p' & Hloop & Hsent).
  { apply (IH r1 (@parse_all H2Frame.frame _ (b ++ d)).2); try done.
    - apply parse_all_rest.
    - by apply prefaced_drained.
    - cbn. lia.
    - cbn. apply (f_equal length) in Hc. rewrite length_app in Hc.
      assert (length d <> 0%nat) by (by destruct d). lia. }
  exists r', p'. rewrite Hloop. split; [done|]. rewrite Hsent. cbn. rewrite Hs1.
  by rewrite <- app_assoc.
Qed.

(** The preface loop takes all it was given, or at least 24 bytes of it. *)
Lemma read_preface_spec fuel buf p :
  Forall (fun d => d <> []) (arriving p) -> len buf < 256 -> 24 <= len buf + Z.of_nat fuel ->
  exists buf' p', read_preface fuel buf p = (buf', p') /\
    buf ++ concat (arriving p) = buf' ++ concat (arriving p') /\
    (24 <= len buf' \/ arriving p' = []) /\ Forall (fun d => d <> []) (arriving p') /\
    sent p' = sent p /\ quantum p' = quantum p.
Proof.
  revert buf p. induction fuel as [|fuel IH]; intros buf p Hne Hl Hf; cbn [read_preface].
  - exists buf, p. split_and!; try done. left. lia.
  - unfold PREFACE_LEN. destruct (Z.ltb_spec (len buf) 24) as [H24|H24].
    2: { exists buf, p. split_and!; try done. by left. }
    destruct (decide (arriving p = [])) as [Ea|Ea].
    + assert (read_some (256 - len buf) p = (None, p)) as -> by (cbn; unfold pipe_read; by rewrite Ea).
      exists buf, p. split_and!; try done. by right.
    + destruct (pipe_reads (256 - len buf) p) as (d & p1 & -> & Hd & Hdl & Hc & Hne1 & Hs1 & Hq1);
        [lia|done..|].
      assert (0 < len d) by (destruct d; [done|blia]).
      destruct (Z.lt_ge_cases (len (buf ++ d)) 256) as [H256|H256].
      * destruct (IH (buf ++ d) p1 Hne1 H256) as (buf' & p' & Hr & Hcc & Hrest); [blia|].
        exists buf', p'. rewrite Hr. split; [done|]. split.
        { rewrite Hc. rewrite <- Hcc. by rewrite app_assoc. }
        destruct Hrest as (? & ? & ? & ?). split_and!; try done; congruence.
      * exists (buf ++ d), p1. split_and!; try done; [|by rewrite Hc, app_assoc|left; lia].
        destruct fuel; cbn [read_preface]; [done|]. unfold PREFACE_LEN.
        by rewrite (proj2 (Z.ltb_ge _ _)) by lia.
Qed.

Lemma feed_prefaced r s d : alive_ s = true -> feed r s d = feed r (prefaced s) d.
Proof.
  intros Ha. unfold feed. change (match mode_ s with server => s <| preface_received_ := true |> | client => s end)
    with (prefaced s).
  assert (alive_ (prefaced s) = true) as Hp by (unfold prefaced; by destruct (mode_ s)).
  rewrite Ha, Hp. cbn [negb]. change (match mode_ (prefaced s) with
    | server => (prefaced s) <| preface_received_ := true |> | client => prefaced s end)
    with (prefaced (prefaced s)).
  rewrite (prefaced_same (prefaced s)); [done|]. by apply (prefaced_side s).
Qed.

Lemma h2_loop_prefaced turns r s p :
  alive_ s = true -> arriving p <> [] -> Forall (fun d => d <> []) (arriving p) ->
  (0 < turns)%nat -> h2_loop turns r s p = h2_loop turns r (prefaced s) p.
Proof.
  intros Ha Hne Hf Ht. destruct turns as [|turns]; [lia|]. cbn [h2_loop].
  assert (alive_ (prefaced s) = true) as Hp by (unfold prefaced; by destruct (mode_ s)).
  rewrite Ha, Hp. cbn [negb].
  destruct (pipe_reads 16384 p) as (d & p1 & -> & _); [done..|]. by rewrite feed_prefaced.
Qed.

(** What has been read before the loop, cut behind the preface. *)
Lemma preface_split (data buf rest : bytes) :
  PREFACE ++ data = buf ++ rest -> 24 <= len buf \/ rest = [] ->
  24 <= len buf /\ takeZ PREFACE_LEN buf = PREFACE /\ data = dropZ PREFACE_LEN buf ++ rest.
Proof.
  intros Hbuf Hor. assert (24 <= len buf) as H24.
  { destruct Hor as [H|Hnil]; [done|]. rewrite Hnil, app_nil_r in Hbuf. subst buf.
    rewrite len_app. pose proof (len_nonneg data). change (len PREFACE) with 24. lia. }
  unfold PREFACE_LEN. split; [done|]. split.
  - transitivity (takeZ 24 (buf ++ rest)); [by rewrite takeZ_app_le by lia|].
    rewrite <- Hbuf. by rewrite takeZ_app_len.
  - transitivity (dropZ 24 (buf ++ rest)); [|by rewrite dropZ_app_le by lia].
    rewrite <- Hbuf. by rewrite dropZ_app_len.
Qed.

(** A connection of HTTP/2 is the run of its frames, from the session with the
    server's preface received. *)
Lemma serve_session_run turns s s2 p data :
  alive_ s = true -> mode_ s = server -> 0 < quantum p ->
  Forall (fun d => d <> []) (arriving p) -> concat (arriving p) = PREFACE ++ data -> data <> [] ->
  (length data < turns)%nat ->
  run pump_process pump_alive (Ok (prefaced (drained s))) (parse_all data).1 = Ok s2 ->
  exists r p', serve_session turns s p = Ok (Some (r, drained s2), p') /\
    sent p' = sent p ++ output_buf_ s ++ output_buf_ s2.
Proof.
  intros Ha Hm Hq Hne Hc Hd Ht Hrun. unfold serve_session. rewrite flush_pipe by done.
  set (p0 := p <| sent ::= fun o => o ++ output_buf_ s |>).
  set (s0 := drained s) in *. assert (alive_ s0 = true) as Ha0 by done.
  destruct (read_preface_spec (Z.to_nat PREFACE_LEN) [] p0) as (buf & p1 & -> & Hbuf & Hor & Hne1 & Hs1 & Hq1);
    [done|done|done|]. cbn [app] in Hbuf. change (arriving p0) with (arriving p) in Hbuf.
  change (quantum p0) with (quantum p) in Hq1.
  rewrite Hc in Hbuf. destruct (preface_split data buf _ Hbuf) as (H24 & Hpre & Hdata).
  { destruct Hor as [H|Hnil]; [by left|right; by rewrite Hnil]. }
  rewrite Hpre, bool_decide_eq_true_2 by done. unfold PREFACE_LEN at 1.
  rewrite (proj2 (Z.ltb_ge _ _)) by lia. cbn [negb orb].
  set (d0 := dropZ PREFACE_LEN buf) in *.
  assert (Hprefaced : prefaced (prefaced s0) = prefaced s0)
    by (apply prefaced_same; by apply (prefaced_side s0)).
  assert (Hap : alive_ (prefaced s0) = true) by (unfold prefaced; by destruct (mode_ s0)).
  assert (Ho0 : output_buf_ (prefaced s0) = []) by (unfold prefaced; by destruct (mode_ s0)).
  assert (Hsent : sent p1 = sent p ++ output_buf_ s) by (by rewrite Hs1).
  unfold PREFACE_LEN at 1. destruct (Z.ltb_spec 24 (len buf)) as [H|H].
  - rewrite feed_prefaced by done. rewrite Hdata, parse_all_app in Hrun. cbn [fst] in Hrun.
    rewrite run_app in Hrun.
    destruct (run pump_process pump_alive (Ok (prefaced s0)) (@parse_all H2Frame.frame _ d0).1)
      as [s1| | |] eqn:E1; [|by rewrite run_dead in Hrun by done..].
    destruct (feed_read frame_reader_init [] (prefaced s0) d0 s1) as (r1 & n & -> & Hn & Hp1 & Habs);
      [exact (absorbed_init (R := frame_reader))|by apply parse1_nil|done..|].
    cbn [mbind outcome_bind]. rewrite flush_pipe by lia.
    destruct (run_drained _ _ _ Hrun) as (s3 & Hrun3 & ->).
    set (p2 := p1 <| sent ::= fun o => o ++ output_buf_ s1 |>).
    destruct (h2_loop_run turns r1 (@parse_all H2Frame.frame _ d0).2 (drained s1) s3 p2)
      as (r' & p' & Hloop & Hsent'); try done.
    + apply parse_all_rest.
    + by apply prefaced_drained.
    + cbn. lia.
    + change (arriving p2) with (arriving p1). apply (f_equal length) in Hdata. rewrite length_app in Hdata. lia.
    + rewrite Hloop. cbn [mbind outcome_bind]. exists r', p'. split; [done|]. rewrite Hsent'. cbn.
      rewrite Hsent. by rewrite <- !app_assoc.
  - assert (d0 = []) as Hd0 by (unfold d0, PREFACE_LEN; apply dropZ_all; lia).
    cbn [mbind outcome_bind]. rewrite flush_pipe by lia.
    rewrite Hd0 in Hdata. cbn [app] in Hdata.
    change (output_buf_ s0) with (@nil byte). set (p2 := p1 <| sent ::= fun o => o ++ [] |>).
    change (drained s0) with s0. rewrite h2_loop_prefaced; [|done|..|lia].
    + destruct (h2_loop_run turns frame_reader_init [] (prefaced s0) s2 p2)
        as (r' & p' & Hloop & Hsent'); try done.
      * cbn. lia.
      * change (arriving p2) with (arriving p1). rewrite <- Hdata. lia.
      * change (arriving p2) with (arriving p1). cbn [app]. by rewrite <- Hdata.
      * rewrite Hloop. cbn [mbind outcome_bind]. exists r', p'. split; [done|]. rewrite Hsent'. cbn.
        rewrite Hsent, app_nil_r. by rewrite <- !app_assoc.
    + change (arriving p2) with (arriving p1). intros Ez. rewrite Ez in Hdata. done.
    + done.
Qed.
End Http2.

(** ** Properties *)

(** C11: a keep-alive connection of HTTP/1.1 answers every request of its client,
    in order, whatever the reads: the handler of the request's route is run on
    the request as the client wrote it, the answer carries the headers of the
    loop, and the connection ends after the first request that does not keep it
    alive.  The client sends its next request when it has its answer: a read
    that reaches into the next request loses what it has read of it.  A request
    comes in fewer than 1000 reads, the bound of the loop, and its handler does not
    throw. *)
Theorem h1_keep_alive_answers `{BO : BuildOptions} (c : server_context)
    (rs : list (request * response)) (cuts : list (list bytes)) (turns : nat) (p : pipe) :
  Forall (answerable c) rs -> Forall2 (fun rr => request_pieces rr.1) rs cuts ->
  (length rs < turns)%nat -> arriving p = concat cuts -> 0 < quantum p ->
  exists p', http11_keep_alive_loop turns c p = Ok ((conversation c rs).1, p') /\
    sent p' = sent p ++ (conversation c rs).2.
Proof. apply keep_alive_conversation. Qed.

#[export] Instance with_http3 : BuildOptions := {| has_http3 := true |}.

Definition echo (req : request) : task response := Returns (response_ok (rq_bd req)).
Definition slow (req : request) : task response := Suspends (Ok (response_ok (rq_path req))).

Definition example_calls : list builder_call :=
  [Route POST (str "/items") echo; Tls; Route GET (str "/slow") slow;
   Route POST (str "/items") slow; Http3 (str "cert.pem") (str "key.pem")].

Definition example_server : server_context := build (foldl builder_step (new_builder 8080) example_calls).

Definition closing_request : request :=
  {| rq_method := GET; rq_path := str "/slow"; rq_query := []; rq_ver := HTTP_10;
     rq_hdrs := [(str "Host", str "example.com")]; rq_bd := [] |}.

(** Pieces of ten bytes. *)
Definition tens (b : bytes) : list bytes := [takeZ 10 b; takeZ 10 (dropZ 10 b); dropZ 20 b].

Definition example_pipe : pipe :=
  {| arriving := tens (serialize_request example_request) ++ tens (serialize_request closing_request);
     sent := []; quantum := 7 |}.

Definition example_talk : list (request * response) :=
  [(example_request, response_ok (str "hello")); (closing_request, response_ok (str "/slow"))].

Lemma h1_keep_alive_answers_witness :
  exists p', http11_keep_alive_loop 3 example_server example_pipe =
    Ok ([Served (seen example_request) (response_ok (str "hello"));
         Served (seen closing_request) (response_ok (str "/slow"))], p') /\
    sent p' = (conversation example_server example_talk).2.
Proof.
  destruct (h1_keep_alive_answers example_server example_talk
    [tens (serialize_request example_request); tens (serialize_request closing_request)] 3 example_pipe)
    as (p' & Hrun & Hsent).
  - repeat constructor; cbn; try (apply (bool_decide_unpack _); vm_compute; exact I);
      intros c [= <-]; reflexivity.
  - repeat constructor; by vm_compute.
  - cbn. lia.
  - done.
  - done.
  - exists p'. split; [exact Hrun|exact Hsent].
Defined.

(** What a read brings of the next request is lost: the second of two requests
    in one piece is not answered. *)
Lemma h1_pipelined_request_lost :
  (fst <$> http11_keep_alive_loop 3 example_server
     {| arriving := [serialize_request example_request ++ serialize_request closing_request];
        sent := []; quantum := 7 |}) =
  Ok [Served (seen example_request) (response_ok (str "hello"))].
Proof. by vm_compute. Qed.

(** C12: the route table of a built server.  A request goes to the handler
    registered first for its method and its path, else to the default handler
    set last, else it gets 404; HTTP/2 and HTTP/3 answer the same as HTTP/1.1,
    with the headers of the server's [alt_svc], when the handler returns without
    suspending. *)
Theorem server_routing `{BO : BuildOptions} (p : Z) (calls : list builder_call) (req : request) :
  let c := build (foldl builder_step (new_builder p) calls) in
  dispatch_request c req = await (handler_for calls req req) /\
  (forall r, handler_for calls req req = Returns r ->
     h2_dispatch c req = with_headers (alt_svc c) <$> dispatch_request c req).
Proof.
  intros c. pose proof (built_handler p calls req) as H. fold c in H.
  assert (dispatch_request c req = await (handler_for calls req req)) as Hd.
  { unfold dispatch_request. rewrite <- H. by destruct (find_route (routes c) req). }
  split; [done|]. intros r Hr. rewrite Hd. unfold h2_dispatch. rewrite <- H in *.
  by destruct (find_route (routes c) req) as [h|]; rewrite Hr.
Qed.

Lemma server_routing_witness :
  h2_dispatch example_server (seen example_request) =
    with_headers (alt_svc example_server) <$> dispatch_request example_server (seen example_request) /\
  rs_status <$> h2_dispatch example_server (seen closing_request) = Ok 500.
Proof.
  split; [|by vm_compute].
  apply (proj2 (server_routing 8080 example_calls (seen example_request))) with (response_ok (str "hello")).
  by vm_compute.
Defined.
