(* ===== verification/Http3Server.v ===== *)
(** * The UDP loop of the HTTP/3 server (src/src/http/server_impl.cpp, [server::serve_h3])

    One socket carries the connections of all peers; a map from the text of a
    peer's address to its session.  The sockets are the class [UdpSocket], QUIC is
    that of H3Session.v.  The adapter's dispatch is a function here: a handler
    that throws would leave a callback of the QUIC library. *)
From S2P Require Import Prelude Framing Qpack H3Session CppString HttpTypes HttpServer.
From stdpp Require Import options.

(** [udp::endpoint]: the text of its address, and its port. *)
Record endpoint := { address : bytes; ep_port : Z }.

#[export] Instance endpoint_dec : EqDecision endpoint.
Proof. solve_decision. Defined.

(** [receive_from] fails or gives a datagram and where it comes from. *)
Class UdpSocket (W : Type) := {
  receive_from : Z -> W -> option (bytes * endpoint) * W;
  send_to : bytes -> endpoint -> W -> W
}.

Definition ep_key (e : endpoint) : bytes := address e ++ [x3a] ++ to_string (ep_port e).

Section Loop.
Context `{QU : Quic Q}.
(** The coders of a new session, and [adapter.dispatch] *)
Context (enc : qpack_encoder) (dec : qpack_decoder) (dispatch : request -> response)
  (push : option (request -> list (request * response))).
Notation session := (H3Session.session Q).

(** [conn_state] *)
Record conn_state := { cs_session : option session; cs_remote : option endpoint }.

Definition no_conn : conn_state := {| cs_session := None; cs_remote := None |}.

(** The session is alive, or there is none. *)
Definition kept (cs : conn_state) : bool :=
  match cs_session cs with Some s => is_alive s | None => true end.

(** The sweep before each datagram *)
Definition sweep (connections : gmap bytes conn_state) : gmap bytes conn_state :=
  filter (fun e => kept e.2 = true) connections.

Definition new_server_session : session :=
  let s := H3Session.set_request_handler dispatch (new_session H3Session.server None enc dec ∅) in
  match push with Some p => H3Session.set_push_provider p s | None => s end.

(** What follows [feed_packet]: the packets to send, and the session after its
    timers have been looked at. *)
Definition reply (s : session) : list bytes * session :=
  let '(pkts, s) := get_pending_packets s in
  (List.filter (fun p => negb (bool_decide (p = []))) pkts, handle_expiry s).

(** A datagram of the peer of [cs]: the packets sent back. *)
Definition serve_packet (data : bytes) (from : endpoint) (cs : conn_state)
  : outcome (list bytes * conn_state) :=
  match cs_session cs with
  | None =>
      let '(ok, s) := init_server_from_packet data new_server_session in
      if negb ok then Ok ([], {| cs_session := None; cs_remote := Some from |}) else
      '(_, s) ← feed_packet data s;
      let '(pkts, s) := reply s in
      Ok (pkts, {| cs_session := Some s; cs_remote := Some from |})
  | Some s =>
      '(_, s) ← feed_packet data s;
      let '(pkts, s) := reply s in
      Ok (pkts, {| cs_session := Some s; cs_remote := cs_remote cs |})
  end.

Section Socket.
Context `{US : UdpSocket W}.

(** [turns] is how often the loop finds [running] set. *)
Fixpoint serve_h3 (turns : nat) (connections : gmap bytes conn_state) (w : W)
  : outcome (gmap bytes conn_state * W) :=
  match turns with
  | O => Ok (connections, w)
  | S turns =>
      match receive_from 4096 w with
      | (None, w) => serve_h3 turns connections w
      | (Some (data, from), w) =>
          let key := ep_key from in
          let connections := sweep connections in
          '(pkts, cs) ← serve_packet data from (default no_conn (connections !! key));
          serve_h3 turns (<[key := cs]> connections) (foldl (fun w p => send_to p from w) w pkts)
      end
  end.
End Socket.

(** ** One peer on its own

    The datagrams of one peer, its packets, and the connection that is left; a
    dead session is replaced at the next datagram. *)
Definition serve_peer (cs : option conn_state) (data : bytes) (from : endpoint)
  : outcome (list bytes * conn_state) :=
  serve_packet data from (default no_conn (cs ≫= fun cs => if kept cs then Some cs else None)).

Fixpoint peer_run (cs : option conn_state) (ds : list (bytes * endpoint))
  : outcome (list bytes * option conn_state) :=
  match ds with
  | [] => Ok ([], cs)
  | (data, from) :: ds =>
      '(pkts, cs) ← serve_peer cs data from;
      '(rest, cs) ← peer_run (Some cs) ds;
      Ok (pkts ++ rest, cs)
  end.
End Loop.

(** ** A socket as a mailbox *)

Record mailbox := {
  incoming : list (option (bytes * endpoint));      (** a failed read is [None] *)
  outgoing : list (bytes * endpoint)
}.
#[export] Instance mailbox_settable : Settable mailbox := fun w =>
  Build_mailbox (incoming w) (outgoing w).

#[export] Instance mailbox_socket : UdpSocket mailbox := {|
  receive_from n w :=
    match incoming w with
    | [] => (None, w)
    | m :: rest => (match m with Some (d, e) => Some (takeZ n d, e) | None => None end,
                    w <| incoming := rest |>)
    end;
  send_to d e w := w <| outgoing ::= fun out => out ++ [(d, e)] |>
|}.

(** The datagrams of a peer among those that arrive, cut to the buffer, and the
    packets sent to it. *)
Definition datagrams_of (key : bytes) (ms : list (option (bytes * endpoint))) : list (bytes * endpoint) :=
  omap (fun m => m ≫= fun de => if decide (ep_key de.2 = key) then Some (takeZ 4096 de.1, de.2) else None) ms.

Definition packets_to (key : bytes) (out : list (bytes * endpoint)) : list bytes :=
  omap (fun de => if decide (ep_key de.2 = key) then Some de.1 else None) out.

Section Facts.
Context `{QU : Quic Q} (enc : qpack_encoder) (dec : qpack_decoder) (dispatch : request -> response)
  (push : option (request -> list (request * response))).
Notation serve_h3 := (serve_h3 enc dec dispatch push).
Notation peer_run := (peer_run enc dec dispatch push).
Notation serve_packet := (serve_packet enc dec dispatch push).
Notation conn_state := (Http3Server.conn_state (Q := Q)).
Implicit Types (conns : gmap bytes conn_state) (w : mailbox) (cs : option conn_state).

(** A connection with its session, unless that has ended *)
Definition live cs : option conn_state :=
  cs ≫= fun c => if kept c then Some c else None.

Lemma sweep_lookup conns key : sweep conns !! key = live (conns !! key).
Proof.
  unfold sweep, live. destruct (conns !! key) as [cs|] eqn:E; cbn.
  - destruct (kept cs) eqn:Ek; [by apply map_lookup_filter_Some|].
    apply map_lookup_filter_None. right. intros cs' H. rewrite E in H. injection H as <-. cbn. by rewrite Ek.
  - apply map_lookup_filter_None. by left.
Qed.

Lemma live_twice cs : live (live cs) = live cs.
Proof. unfold live. destruct cs as [cs|]; cbn; [|done]. destruct (kept cs) eqn:E; cbn; by rewrite ?E. Qed.

Lemma peer_run_live cs ds out cs' :
  peer_run (live cs) ds = Ok (out, cs') ->
  exists cs2, peer_run cs ds = Ok (out, cs2) /\ live cs2 = live cs'.
Proof.
  destruct ds as [|[d e] ds]; cbn [Http3Server.peer_run].
  - intros [= <- <-]. exists cs. by rewrite live_twice.
  - unfold serve_peer. fold (live (live cs)). fold (live cs). rewrite live_twice. intros ->. by exists cs'.
Qed.

Lemma sent_packets key pkts from w :
  let w' := foldl (fun w p => send_to p from w) w pkts in
  incoming w' = incoming w /\
  packets_to key (outgoing w') =
    packets_to key (outgoing w) ++ if decide (ep_key from = key) then pkts else [].
Proof.
  revert w. induction pkts as [|p pkts IH]; intros w; cbn [foldl].
  - split; [done|]. case_decide; by rewrite app_nil_r.
  - destruct (IH (send_to p from w)) as [-> ->]. split; [done|]. unfold packets_to. cbn.
    rewrite omap_app. cbn. case_decide; cbn; by rewrite <- app_assoc.
Qed.

Lemma serve_of_peer key turns conns w conns' w' :
  serve_h3 turns conns w = Ok (conns', w') ->
  exists out cs, peer_run (conns !! key) (datagrams_of key (take turns (incoming w))) = Ok (out, cs) /\
    live (conns' !! key) = live cs /\
    packets_to key (outgoing w') = packets_to key (outgoing w) ++ out.
Proof.
  revert conns w. induction turns as [|turns IH]; intros conns w; cbn [Http3Server.serve_h3].
  { intros [= <- <-]. exists [], (conns !! key). cbn. by rewrite app_nil_r. }
  cbn [receive_from mailbox_socket]. destruct (incoming w) as [|m rest] eqn:Ei.
  { intros (out & cs & H1 & H2 & H3)%IH. rewrite Ei, take_nil in H1. by exists out, cs. }
  destruct m as [[d from]|].
  2: { intros (out & cs & H1 & H2 & H3)%IH. by exists out, cs. }
  destruct (serve_packet (takeZ 4096 d) from _) as [[pkts c]| | |] eqn:Es; cbn [mbind outcome_bind]; try done.
  intros (out & cs & H1 & H2 & H3)%IH.
  destruct (sent_packets key pkts from (w <| incoming := rest |>)) as [E1 E2].
  rewrite E1 in H1. rewrite E2 in H3. cbn [incoming outgoing set_field] in *.
  cbn [take]. unfold datagrams_of. cbn [omap list_omap mbind option_bind snd fst].
  destruct (decide (ep_key from = key)) as [<-|Hne].
  - rewrite lookup_insert_eq in H1. rewrite sweep_lookup in Es.
    exists (pkts ++ out), cs. cbn [Http3Server.peer_run]. unfold serve_peer. fold (live (conns !! ep_key from)).
    rewrite Es. cbn [mbind outcome_bind]. fold (datagrams_of (ep_key from) (take turns rest)). rewrite H1. cbn.
    by rewrite app_assoc.
  - rewrite lookup_insert_ne, sweep_lookup in H1 by done. rewrite app_nil_r in H3.
    fold (datagrams_of key (take turns rest)).
    apply peer_run_live in H1 as (cs2 & Hr & Hl). exists out, cs2. by rewrite Hl.
Qed.

Lemma peers_serve turns conns w :
  (forall key, is_ok (peer_run (conns !! key) (datagrams_of key (take turns (incoming w)))) = true) ->
  is_ok (serve_h3 turns conns w) = true.
Proof.
  revert conns w. induction turns as [|turns IH]; intros conns w Hp; cbn [Http3Server.serve_h3]; [done|].
  cbn [receive_from mailbox_socket]. destruct (incoming w) as [|m rest] eqn:Ei.
  { apply IH. intros key. by rewrite Ei, take_nil. }
  destruct m as [[d from]|]; [|by apply IH].
  pose proof (Hp (ep_key from)) as Hf. cbn [take] in Hf. unfold datagrams_of in Hf.
  cbn [omap list_omap mbind option_bind snd fst] in Hf. rewrite decide_True in Hf by done.
  cbn [Http3Server.peer_run] in Hf. unfold serve_peer in Hf. fold (live (conns !! ep_key from)) in Hf.
  rewrite sweep_lookup.
  destruct (serve_packet (takeZ 4096 d) from _) as [[pkts c]| | |]; cbn [mbind outcome_bind] in Hf |- *; try done.
  apply IH. intros key. rewrite (proj1 (sent_packets key pkts from _)).
  destruct (decide (ep_key from = key)) as [<-|Hne]; [rewrite lookup_insert_eq|rewrite lookup_insert_ne, sweep_lookup by done].
  - fold (datagrams_of (ep_key from) (take turns rest)) in Hf. cbn [incoming set_field].
    by destruct (peer_run (Some c) _) as [[out cs]| | |].
  - specialize (Hp key). cbn [take] in Hp. unfold datagrams_of in Hp.
    cbn [omap list_omap mbind option_bind snd fst] in Hp. rewrite decide_False in Hp by done.
    fold (datagrams_of key (take turns rest)) in Hp. cbn [incoming set_field].
    destruct (datagrams_of key (take turns rest)) as [|[x e] ds]; [done|].
    cbn [Http3Server.peer_run] in Hp |- *. unfold serve_peer in Hp |- *.
    fold (live (conns !! key)) in Hp. fold (live (live (conns !! key))). by rewrite live_twice.
Qed.

(** An entry without a session stays as long as its peer is silent: the address of
    a malformed packet is never forgotten. *)
Lemma h3_sessionless_entry_stays key c turns conns w conns' w' :
  conns !! key = Some c -> cs_session c = None -> datagrams_of key (take turns (incoming w)) = [] ->
  serve_h3 turns conns w = Ok (conns', w') -> conns' !! key = Some c.
Proof.
  intros Hc Hn Hd (out & cs & Hr & Hl & _)%(serve_of_peer key). rewrite Hd, Hc in Hr. injection Hr as _ <-.
  assert (live (Some c) = Some c) as Hs by (unfold live, kept; cbn; by rewrite Hn). rewrite Hs in Hl.
  unfold live in Hl. destruct (conns' !! key) as [c'|]; cbn in Hl; [|done]. by destruct (kept c').
Qed.

Lemma to_string_inj v1 v2 : 0 <= v1 < 2 ^ 64 -> 0 <= v2 < 2 ^ 64 -> to_string v1 = to_string v2 -> v1 = v2.
Proof.
  intros H1 H2 E. assert (Some v1 = Some v2) as [= ->]; [|done].
  transitivity (match from_chars 10 0 (2 ^ 64) (to_string v1) with ErrNone v => Some v | _ => None end).
  - by rewrite from_chars_to_string by lia.
  - by rewrite E, from_chars_to_string by lia.
Qed.

(** The key of an endpoint is its own: what comes after the last colon is its port. *)
Definition port_ok (e : endpoint) : Prop := 0 <= ep_port e < 2 ^ 16.

Lemma ep_key_inj e1 e2 : port_ok e1 -> port_ok e2 -> ep_key e1 = ep_key e2 -> e1 = e2.
Proof.
  destruct e1 as [a1 p1], e2 as [a2 p2]. unfold port_ok, ep_key. cbn [address ep_port app]. intros H1 H2 E.
  assert (forall p, 0 <= p -> x3a ∉ to_string p) as Hc by (intros p Hp; apply to_string_not_elem; [lia|by right]).
  pose proof (rfind_char_app x3a a1 (to_string p1) (Hc p1 (proj1 H1))) as R1.
  rewrite E, rfind_char_app in R1 by (apply Hc; lia). injection R1 as R1. unfold len in R1.
  apply app_inj_1 in E as [-> [= Ep]]; [|lia].
  f_equal. by apply to_string_inj; [lia..|].
Qed.

(** By endpoints: what arrives from one, and what is sent to it *)
Definition datagrams_from (e : endpoint) (ms : list (option (bytes * endpoint))) : list (bytes * endpoint) :=
  omap (fun m => m ≫= fun de => if decide (de.2 = e) then Some (takeZ 4096 de.1, de.2) else None) ms.

Definition packets_for (e : endpoint) (out : list (bytes * endpoint)) : list bytes :=
  omap (fun de => if decide (de.2 = e) then Some de.1 else None) out.

(** The endpoints of a socket have ports of 16 bits. *)
Definition arrived_ok (m : option (bytes * endpoint)) : Prop := match m with Some de => port_ok de.2 | None => True end.

Record mailbox_ok w : Prop := {
  in_ok : Forall arrived_ok (incoming w);
  out_ok : Forall (fun de => port_ok de.2) (outgoing w)
}.

Lemma datagrams_of_from e ms : port_ok e -> Forall arrived_ok ms -> datagrams_of (ep_key e) ms = datagrams_from e ms.
Proof.
  intros He. unfold datagrams_of, datagrams_from. induction 1 as [|[[d f]|] ms Hm _ IH]; cbn; [done| |done].
  destruct (decide (ep_key f = ep_key e)) as [E|E], (decide (f = e)) as [E'|E']; cbn; try by rewrite IH.
  - by destruct E'; apply ep_key_inj.
  - by subst.
Qed.

Lemma datagrams_of_known key ms :
  datagrams_of key ms = [] \/ exists de, Some de ∈ ms /\ ep_key de.2 = key.
Proof.
  unfold datagrams_of. induction ms as [|[de|] ms [IH|(de' & Hin & Hk)]]; cbn; [by left| | | |].
  - case_decide; cbn; [|by left]. right. exists de. split; [by left|done].
  - right. exists de'. split; [by right|done].
  - by left.
  - right. exists de'. split; [by right|done].
Qed.

Lemma packets_to_for e out :
  port_ok e -> Forall (fun de => port_ok de.2) out -> packets_to (ep_key e) out = packets_for e out.
Proof.
  intros He. unfold packets_to, packets_for. induction 1 as [|[d f] out Hm _ IH]; cbn; [done|].
  destruct (decide (ep_key f = ep_key e)) as [E|E], (decide (f = e)) as [E'|E']; cbn; try by rewrite IH.
  - by destruct E'; apply ep_key_inj.
  - by subst.
Qed.

Lemma sent_ok pkts from w : port_ok from -> mailbox_ok w -> mailbox_ok (foldl (fun w p => send_to p from w) w pkts).
Proof.
  intros Hf. revert w. induction pkts as [|p pkts IH]; intros w [Hi Ho]; cbn [foldl]; [done|].
  apply IH. split; cbn; [done|]. by apply Forall_app_2; [|constructor].
Qed.

Lemma serve_mailbox_ok turns conns w conns' w' :
  mailbox_ok w -> serve_h3 turns conns w = Ok (conns', w') -> mailbox_ok w'.
Proof.
  revert conns w. induction turns as [|turns IH]; intros conns w Hw; cbn [Http3Server.serve_h3]; [by intros [= <- <-]|].
  cbn [receive_from mailbox_socket]. destruct Hw as [Hi Ho]. destruct (incoming w) as [|m rest] eqn:Ei.
  { apply IH. split; [by rewrite Ei|done]. }
  apply Forall_cons in Hi as [Hm Hi]. destruct m as [[d from]|]; [|by apply IH].
  destruct (serve_packet (takeZ 4096 d) from _) as [[pkts c]| | |]; cbn [mbind outcome_bind]; try done.
  apply IH, sent_ok; [done|by split].
Qed.

(** C13: The peers of the UDP loop do not interfere.  A peer is an address and a
    port: however the datagrams of many are interleaved, the loop returns exactly
    when each peer's own run does, and then the packets sent to a peer and the
    connection it is left with are those of its datagrams served on their own. *)
Theorem h3_peers_do_not_interfere turns w :
  mailbox_ok w ->
  (is_ok (serve_h3 turns ∅ w) = true <->
   forall e, port_ok e -> is_ok (peer_run None (datagrams_from e (take turns (incoming w)))) = true) /\
  forall conns' w', serve_h3 turns ∅ w = Ok (conns', w') -> forall e, port_ok e -> exists out cs,
    peer_run None (datagrams_from e (take turns (incoming w))) = Ok (out, cs) /\
    live (conns' !! ep_key e) = live cs /\
    packets_for e (outgoing w') = packets_for e (outgoing w) ++ out.
Proof.
  intros Hw. assert (forall key : bytes, (∅ : gmap bytes conn_state) !! key = None) as He by (intros; apply lookup_empty).
  assert (Forall arrived_ok (take turns (incoming w))) as Ht by (apply Forall_take, Hw). split; [split|].
  - destruct (serve_h3 turns ∅ w) as [[conns' w']| | |] eqn:E; try done. intros _ e Hp.
    destruct (serve_of_peer (ep_key e) turns ∅ w conns' w' E) as (out & cs & H & _).
    rewrite He, datagrams_of_from in H by done. by rewrite H.
  - intros H. apply peers_serve. intros key. rewrite He.
    destruct (datagrams_of_known key (take turns (incoming w))) as [->|([d e] & Hin & <-)]; [done|].
    assert (port_ok e) as Hp by (rewrite Forall_forall in Ht; exact (Ht _ Hin)).
    rewrite datagrams_of_from by done. by apply H.
  - intros conns' w' H e Hp. destruct (serve_of_peer (ep_key e) turns ∅ w conns' w' H) as (out & cs & H1 & H2 & H3).
    rewrite He, datagrams_of_from in H1 by done.
    rewrite !packets_to_for in H3 by (done || apply Hw || by eapply serve_mailbox_ok). by exists out, cs.
Qed.
End Facts.

(** ** An execution: two peers, and a malformed packet of a third *)

Definition peer (n : Z) : endpoint := {| address := str "10.0.0.1"; ep_port := n |}.

(** A packet is a long header and the data of a new stream. *)
#[export] Instance stream_per_packet : Quic Z := {|
  open_bidi_stream q := (Some (4 * q), q + 1);
  open_uni_stream q := (Some (4 * q + 2), q + 1);
  writev_stream q sid data fin := (Some data, len data, q);
  pending_packets q := ([], true, q);
  read_pkt q data := ([StreamData (4 * q) (dropZ 7 data) true], ReadOk, q + 1);
  retry_packet q version dcid scid := None;
  handle_conn_expiry q := (true, q);
  conn_expiry q := 2 ^ 64 - 1;
  max_cidlen := 20;
  server_new version dcid scid := Some 0
|}.

Definition asking (body : bytes) : bytes :=
  [x80; x00; x00; x00; x01; x00; x00] ++
  message_frames (H3Session.request_headers
    {| rq_method := GET; rq_path := str "/"; rq_query := []; rq_ver := HTTP_11;
       rq_hdrs := [(str "Host", str "example.com")]; rq_bd := [] |}) body.

Definition test_enc : qpack_encoder := {| qe_dynamic_table := qpack_dynamic_table_init; qe_max_table_size := 4096 |}.

Definition echo (r : request) : response := response_ok (rq_bd r).

Definition arrivals : mailbox :=
  {| incoming := [Some (asking (str "one"), peer 1); Some (str "junk", peer 3); Some (asking (str "two"), peer 2);
                  None; Some (asking (str "three"), peer 1)]; outgoing := [] |}.

(** How many packets a peer gets *)
Example echoes_sent :
  match serve_h3 test_enc qpack_decoder_init echo None 5 ∅ arrivals with
  | Ok (conns, w) => (length (packets_to (ep_key (peer 1)) (outgoing w)),
                      length (packets_to (ep_key (peer 2)) (outgoing w)),
                      length (packets_to (ep_key (peer 3)) (outgoing w)), size conns) = (2, 1, 0, 3)%nat
  | _ => False
  end.
Proof. by vm_compute. Qed.

Definition served_arrivals : gmap bytes (conn_state (Q := Z)) * mailbox :=
  match serve_h3 test_enc qpack_decoder_init echo None 5 ∅ arrivals with Ok r => r | _ => (∅, arrivals) end.

Lemma arrivals_ok : mailbox_ok arrivals.
Proof. split; cbn; [|done]. repeat constructor; cbn; lia. Qed.

Lemma h3_peers_do_not_interfere_witness :
  exists out cs,
    peer_run test_enc qpack_decoder_init echo None None
      [(asking (str "one"), peer 1); (asking (str "three"), peer 1)] = Ok (out, cs) /\
    live (served_arrivals.1 !! ep_key (peer 1)) = live cs /\
    packets_for (peer 1) (outgoing served_arrivals.2) = out.
Proof.
  destruct (h3_peers_do_not_interfere test_enc qpack_decoder_init echo None 5 arrivals arrivals_ok) as [_ H].
  assert (serve_h3 test_enc qpack_decoder_init echo None 5 ∅ arrivals = Ok (served_arrivals.1, served_arrivals.2))
    as E.
  { assert (is_ok (serve_h3 test_enc qpack_decoder_init echo None 5 ∅ arrivals) = true) as Hok by by vm_compute.
    unfold served_arrivals. by destruct (serve_h3 _ _ _ _ _ _ _) as [[c w]| | |]. }
  destruct (H _ _ E (peer 1)) as (out & cs & H1 & H2 & H3); [split; cbn; lia|]. exists out, cs. split; [|by split].
  assert (datagrams_from (peer 1) (take 5 (incoming arrivals)) =
    [(asking (str "one"), peer 1); (asking (str "three"), peer 1)]) as Ed by by vm_compute.
  by rewrite Ed in H1.
Defined.
