(* ===== verification/HttpClient.v ===== *)
(** * The HTTP client (src/src/http/client_impl.cpp, src/include/async_net/http/client.hpp)

    The pools of idle connections, and [send] with its paths: a pooled HTTP/2
    session, a pooled connection of HTTP/1.1, a new connection with TLS or
    without, the upgrade to h2c, and [send_h3].  Sockets, TLS and QUIC's
    connections are the classes [Network] and [Udp].  A request runs while
    nothing else uses the client; connections that are dropped are closed by
    their destructors, which is not modelled. *)
From S2P Require Import Prelude Framing HeaderTable Hpack Qpack H3Session H2Frame CppString CppMap HttpTypes Http1Codec Transport H2Session HttpServer.
From stdpp Require Import options.

(** ** The network *)

(** [ASYNC_NET_HAS_SSL] *)
Class ClientBuild := { has_ssl : bool }.

(** [connect_to] gives a connected socket, [None] when [async_connect] fails;
    [handshake] the protocol chosen of h2 and http/1.1, [None] when it fails.
    Reading and writing are told whether they go through TLS. *)
Class Network (C W : Type) := {
  connect_to : bytes -> Z -> W -> option C * W;
  handshake : C -> W -> option bytes * W;
  recv_some : C -> bool -> Z -> W -> option bytes * W;
  send_some : C -> bool -> bytes -> W -> Z * W
}.

(** [udp_resolve] gives a bound socket with the peer's address; [quic_client] is
    [init_client] up to its first packets. *)
Class Udp (U Q W : Type) := {
  udp_resolve : bytes -> Z -> W -> option U * W;
  udp_send : U -> bytes -> W -> Z * W;
  udp_recv : U -> Z -> W -> option bytes * W;
  quic_client : bytes -> Z -> W -> option Q * W
}.

(** A socket, or the TLS stream on it. *)
Definition over `{Network C W} (c : C) (tls : bool) : ByteStream W :=
  {| read_some := recv_some c tls; write_some := send_some c tls |}.

(** ** Reading a response of HTTP/1.1 *)

(** [read_response] and [read_response_ssl], which differ in the stream. *)
Fixpoint read_response `{BS : ByteStream W} (attempts : nat) (buffer : bytes) (w : W)
  : outcome (option response * W) :=
  match attempts with
  | O => Ok (None, w)
  | S attempts =>
      result ← parse_response (S (length buffer)) buffer;
      match result with
      | Some (r, _) => Ok (Some r, w)
      | None =>
          match read_some 8192 w with
          | (None, w) =>
              if bool_decide (buffer = []) then Ok (None, w) else
              last_try ← parse_response (S (length buffer)) buffer;
              Ok (option_map fst last_try, w)
          | (Some d, w) => read_response attempts (buffer ++ d) w
          end
      end
  end.

(** ** A request on an HTTP/2 session *)
Section Http2.
Context `{HC : HeaderCodec E D} `{BS : ByteStream W}.

Definition with_authority (host : bytes) (req : request) : request :=
  if headers_contains (rq_hdrs req) (str ":authority") then req
  else req <| rq_hdrs ::= fun h => headers_set h (str ":authority") host |>.

Definition settled_promise (p : nat) (s : session E D) : option response_promise :=
  pr ← heap_ s !! p; if pr_complete pr then Some pr else None.

(** [while (!promise->complete && session->is_alive())] *)
Fixpoint await_response (reads : nat) (p : nat) (r : frame_reader) (s : session E D) (w : W)
  : outcome (frame_reader * session E D * W) :=
  match reads with
  | O => Timeout
  | S reads =>
      if bool_decide (is_Some (settled_promise p s)) || negb (alive_ s) then Ok (r, s, w) else
      match read_some 16384 w with
      | (None, w) => Ok (r, s, w)
      | (Some d, w) =>
          '(r, s, _) ← feed r s d;
          let '(_, s, w) := flush_session s w in
          await_response reads p r s w
      end
  end.

(** [std::make_shared<response_promise>()] *)
Definition with_promise (s : session E D) : nat * session E D :=
  let p := fresh (dom (heap_ s)) in (p, s <| heap_ ::= insert p new_promise |>).

(** The request, its flush and the loop that waits; the response when the promise
    is complete without an error. *)
Definition h2_request (reads : nat) (host : bytes) (req : request) (r : frame_reader)
    (s : session E D) (w : W) : outcome (option response * frame_reader * session E D * W) :=
  let h2_req := with_authority host (req <| rq_ver := HTTP_2 |>) in
  let '(p, s) := with_promise s in
  '(_, s) ← do_submit_request h2_req (Some p) false s;
  let '(_, s, w) := flush_session s w in
  '(r, s, w) ← await_response reads p r s w;
  let resp := match settled_promise p s with
              | Some pr => if pr_error pr then None else Some ((pr_resp pr) <| rs_ver := HTTP_2 |>)
              | None => None
              end in
  Ok (resp, r, s, w).
End Http2.

(** ** A request on an HTTP/3 session *)
Section Http3.
Context `{QU : Quic Q} {U W : Type} `{UD : !Udp U Q W}.
Notation h3_session := (H3Session.session Q).

Definition h3_settled (p : nat) (s : h3_session) : option H3Session.response_promise :=
  pr ← H3Session.heap_ s !! p; if H3Session.pr_complete pr then Some pr else None.

(** [for (auto& pkt : pkts) if (!pkt.empty()) sock->send_to(...)] *)
Fixpoint send_packets (u : U) (pkts : list bytes) (w : W) : W :=
  match pkts with
  | [] => w
  | pkt :: pkts => send_packets u pkts (if bool_decide (pkt = []) then w else (udp_send u pkt w).2)
  end.

Definition send_pending (u : U) (s : h3_session) (w : W) : h3_session * W :=
  let '(pkts, s) := get_pending_packets s in (s, send_packets u pkts w).

(** The read loop: [max_rounds] datagrams at most, and it ends when the eleventh
    read in a row gives nothing. *)
Fixpoint h3_rounds (max_rounds : nat) (idle_rounds : Z) (p : nat) (u : U) (s : h3_session) (w : W)
  : outcome (h3_session * W) :=
  if bool_decide (is_Some (h3_settled p s)) || negb (H3Session.is_alive s) then Ok (s, w) else
  match max_rounds with
  | O => Ok (s, w)
  | S max_rounds =>
      match udp_recv u 4096 w with
      | (None, w) =>
          let idle_rounds := idle_rounds + 1 in
          if 10 <? idle_rounds then Ok (s, w) else
          let '(s, w) := send_pending u (handle_expiry s) w in
          h3_rounds max_rounds idle_rounds p u s w
      | (Some d, w) =>
          '(_, s) ← feed_packet d s;
          let '(s, w) := send_pending u s w in
          h3_rounds max_rounds 0 p u (handle_expiry s) w
      end
  end.

Definition h3_promise (s : h3_session) : nat * h3_session :=
  let p := fresh (dom (H3Session.heap_ s)) in
  (p, s <| H3Session.heap_ ::= insert p H3Session.new_promise |>).

Definition h3_response (p : nat) (s : h3_session) : option response :=
  match h3_settled p s with
  | Some pr => if H3Session.pr_error pr then None else Some ((H3Session.pr_resp pr) <| rs_ver := HTTP_3 |>)
  | None => None
  end.

(** A session of the constructor [http3_session(mode::client, cfg)]: when
    [init_client] fails there is no connection, and the session is alive. *)
Definition client_session (q : option Q) (e : qpack_encoder) (d : qpack_decoder) : h3_session :=
  let s := H3Session.new_session H3Session.client q e d ∅ in
  match q with Some _ => (write_packets s).2 | None => s end.
End Http3.

(** ** The client *)
Section Client.
Context {C W : Type} `{NW : !Network C W} `{CB : ClientBuild}.
Context `{HC : HeaderCodec E D} {Q U : Type} `{QU : Quic Q} `{UD : !Udp U Q W}.
(** The header coders of a new session *)
Context (new_encoder : E) (new_decoder : D) (new_qpack_encoder : qpack_encoder)
  (new_qpack_decoder : qpack_decoder).

Record h1_conn := { h1_sock : C; h1_ssl_stream : bool; is_tls : bool }.

Record h2_conn := {
  h2_sock : C;
  h2_session : session E D;
  h2_reader : frame_reader             (** the reader of the session *)
}.

Record h3_conn := { h3_sock : U; h3_session : H3Session.session Q }.

Record client := {
  ssl_ctx_ : bool;
  h1_pool_ : list (bytes * list h1_conn);
  h2_pool_ : list (bytes * list h2_conn);
  h3_pool_ : list (bytes * list h3_conn)
}.
#[export] Instance client_settable : Settable client := fun c =>
  Build_client (ssl_ctx_ c) (h1_pool_ c) (h2_pool_ c) (h3_pool_ c).

Definition new_client (ssl : bool) : client :=
  {| ssl_ctx_ := ssl; h1_pool_ := []; h2_pool_ := []; h3_pool_ := [] |}.

Definition pool_key (host : bytes) (port : Z) (tls : bool) : bytes :=
  host ++ [x3a] ++ to_string port ++ [x3a] ++ (if tls then str "1" else str "0").

(** [pool[key].push_back(conn)] *)
Definition push_back {A} (key : bytes) (x : A) (pool : list (bytes * list A)) : list (bytes * list A) :=
  map_set key (default [] (map_find key pool) ++ [x]) pool.

(** [x = pool[key].back(); pop_back()], then the entry is erased if it is empty;
    and whether it was. *)
Definition pop_back {A} (key : bytes) (pool : list (bytes * list A))
  : option (A * bool * list (bytes * list A)) :=
  xs ← map_find key pool;
  x ← last xs;
  let left := removelast xs in
  if bool_decide (left = []) then Some (x, true, map_erase key pool)
  else Some (x, false, map_set key left pool).

Definition return_h1 (key : bytes) (conn : h1_conn) (cl : client) : client :=
  cl <| h1_pool_ ::= push_back key conn |>.

Definition take_h1 (key : bytes) (cl : client) : option h1_conn * client :=
  match pop_back key (h1_pool_ cl) with
  | Some (conn, _, pool) => (Some conn, cl <| h1_pool_ := pool |>)
  | None => (None, cl)
  end.

Definition close_idle_connections (cl : client) : client :=
  cl <| h1_pool_ := [] |> <| h2_pool_ := [] |> <| h3_pool_ := [] |>.

(** The iterator [it] into a pool: it designates the entry of the key, unless
    [find] has given the end; the entry is erased when its last connection is
    taken, and [it] is then not valid. *)
Inductive pool_iterator := AtEnd | AtKey | Erased.

Definition pool_find {A} (key : bytes) (pool : list (bytes * list A)) : pool_iterator :=
  match map_find key pool with Some _ => AtKey | None => AtEnd end.

Definition after_pop (erased : bool) : pool_iterator := if erased then Erased else AtKey.

(** The loop over the pooled HTTP/2 sessions: each turn takes one, so one more
    than there are is enough fuel. *)
Fixpoint reuse_h2 (fuel reads : nat) (key host : bytes) (req : request) (it : pool_iterator)
    (cl : client) (w : W) : outcome (option response * client * W) :=
  match fuel with
  | O => Timeout
  | S fuel =>
      match it with
      | AtEnd => Ok (None, cl, w)
      | Erased => Undefined UseAfterFree
      | AtKey =>
          match pop_back key (h2_pool_ cl) with
          | None => Ok (None, cl, w)
          | Some (h2, erased, pool) =>
              let cl := cl <| h2_pool_ := pool |> in
              let it := after_pop erased in
              if negb (alive_ (h2_session h2)) then reuse_h2 fuel reads key host req it cl w else
              '(resp, r, s, w) ← h2_request (BS := over (h2_sock h2) true) reads host req
                                  (h2_reader h2) (h2_session h2) w;
              match resp with
              | Some resp =>
                  let h2 := {| h2_sock := h2_sock h2; h2_session := s; h2_reader := r |} in
                  Ok (Some resp, if alive_ s then cl <| h2_pool_ ::= push_back key h2 |> else cl, w)
              | None => reuse_h2 fuel reads key host req it cl w
              end
          end
      end
  end.

Definition pooled {A} (key : bytes) (pool : list (bytes * list A)) : nat :=
  length (default [] (map_find key pool)).

(** The pooled connections of HTTP/1.1: one is tried. *)
Definition keeps_reused (resp : response) : bool :=
  bool_decide (headers_get (rs_hdrs resp) (str "Connection") = Some (str "keep-alive")) ||
  bool_decide (rs_ver resp = HTTP_11).

Definition reuse_h1 (tls : bool) (key : bytes) (req : request) (cl : client) (w : W)
  : outcome (option response * client * W) :=
  match take_h1 key cl with
  | (Some h1, cl) =>
      if (if tls then is_tls h1 && h1_ssl_stream h1 else negb (is_tls h1)) then
        let '(write_ok, w) := write_all (BS := over (h1_sock h1) tls) (serialize_request req) w in
        if write_ok : bool then
          '(resp, w) ← read_response (BS := over (h1_sock h1) tls) 1000 [] w;
          match resp with
          | Some resp => Ok (Some resp, if keeps_reused resp then return_h1 key h1 cl else cl, w)
          | None => Ok (None, cl, w)
          end
        else Ok (None, cl, w)
      else Ok (None, cl, w)
  | (None, cl) => Ok (None, cl, w)
  end.

(** Whether a new connection is kept. *)
Definition keeps_new (resp : response) : bool :=
  negb (bool_decide (headers_get (rs_hdrs resp) (str "Connection") = Some (str "close"))).

Definition connection_failed (host : bytes) (port : Z) : response :=
  response_internal_error (str "Connection failed to " ++ host ++ [x3a] ++ to_string port).

(** A new TLS connection on which h2 was chosen *)
Definition new_h2 (reads : nat) (key host : bytes) (req : request) (c : C) (cl : client) (w : W)
  : outcome (response * client * W) :=
  let BS := over c true in
  let s := new_session H2Session.client new_encoder new_decoder ∅ in
  let '(ok, w) := write_all PREFACE w in
  if negb ok then Ok (response_make 500 (str "Failed to send H2 preface"), cl, w) else
  let '(_, s, w) := flush_session s w in
  '(resp, r, s, w) ← h2_request reads host req frame_reader_init s w;
  match resp with
  | Some resp =>
      let h2 := {| h2_sock := c; h2_session := s; h2_reader := r |} in
      Ok (resp, if alive_ s then cl <| h2_pool_ ::= push_back key h2 |> else cl, w)
  | None => Ok (response_make 500 (str "H2 request incomplete"), cl, w)
  end.

(** A new TLS connection of HTTP/1.1 *)
Definition new_h1_tls (key : bytes) (req : request) (c : C) (cl : client) (w : W)
  : outcome (response * client * W) :=
  let BS := over c true in
  let '(ok, w) := write_all (serialize_request req) w in
  if negb ok then Ok (response_internal_error (str "TLS write failed"), cl, w) else
  '(resp, w) ← read_response 1000 [] w;
  match resp with
  | None => Ok (response_internal_error (str "Failed to read response"), cl, w)
  | Some resp =>
      let conn := {| h1_sock := c; h1_ssl_stream := true; is_tls := true |} in
      Ok (resp, if keeps_new resp then return_h1 key conn cl else cl, w)
  end.

Definition new_tls (reads : nat) (key host : bytes) (port : Z) (req : request) (cl : client) (w : W)
  : outcome (response * client * W) :=
  match connect_to host port w with
  | (None, w) => Ok (connection_failed host port, cl, w)
  | (Some c, w) =>
      match handshake c w with
      | (None, w) => Ok (response_internal_error (str "TLS handshake failed"), cl, w)
      | (Some alpn, w) =>
          if bool_decide (alpn = str "h2") then new_h2 reads key host req c cl w
          else new_h1_tls key req c cl w
      end
  end.

(** The headers that offer h2c *)
Definition offer_h2c (req : request) : request :=
  if has_ssl then
    req <| rq_hdrs ::= fun h =>
      let h := headers_set h (str "Upgrade") (str "h2c") in
      let h := headers_set h (str "HTTP2-Settings") (str "AAMAAABkAAQBAAAAAAIAAAAA") in
      headers_set h (str "Connection") (str "Upgrade,HTTP2-Settings") |>
  else req.

Definition without_h2c (req : request) : request :=
  req <| rq_hdrs ::= fun h =>
    headers_remove (headers_remove (headers_remove h (str "Upgrade")) (str "HTTP2-Settings"))
      (str "Connection") |>.

(** After a response 101: the session is not pooled. *)
Definition switch_h2c (reads : nat) (host : bytes) (req : request) (c : C) (cl : client) (w : W)
  : outcome (response * client * W) :=
  let BS := over c false in
  let s := new_session H2Session.client new_encoder new_decoder ∅ in
  let '(_, s, w) := flush_session s w in
  '(resp, _, _, w) ← h2_request reads host (without_h2c req) frame_reader_init s w;
  Ok (default (response_make 500 (str "h2c upgrade request incomplete")) resp, cl, w).

Definition new_plain (reads : nat) (key host : bytes) (port : Z) (req : request) (cl : client) (w : W)
  : outcome (response * client * W) :=
  match connect_to host port w with
  | (None, w) => Ok (connection_failed host port, cl, w)
  | (Some c, w) =>
      let req := offer_h2c req in
      let BS := over c false in
      let '(ok, w) := write_all (serialize_request req) w in
      if negb ok then Ok (response_internal_error (str "Write failed"), cl, w) else
      '(resp, w) ← read_response 1000 [] w;
      match resp with
      | None => Ok (response_internal_error (str "Failed to read response"), cl, w)
      | Some resp =>
          if has_ssl && (rs_status resp =? 101) then switch_h2c reads host req c cl w else
          let conn := {| h1_sock := c; h1_ssl_stream := false; is_tls := false |} in
          Ok (resp, if keeps_new resp then return_h1 key conn cl else cl, w)
      end
  end.

Definition with_host (host : bytes) (req : request) : request :=
  if headers_contains (rq_hdrs req) (str "Host") then req
  else req <| rq_hdrs ::= fun h => headers_set h (str "Host") host |>.

(** [send(host, port, req, use_tls)]; [reads] bounds the loop that waits on an
    HTTP/2 session. *)
Definition send_to (reads : nat) (host : bytes) (port : Z) (req : request) (use_tls : bool)
    (cl : client) (w : W) : outcome (response * client * W) :=
  let key := pool_key host port use_tls in
  let req := with_host host req in
  if has_ssl && use_tls && ssl_ctx_ cl then
    '(resp, cl, w) ← reuse_h2 (S (pooled key (h2_pool_ cl))) reads key host req
                       (pool_find key (h2_pool_ cl)) cl w;
    match resp with
    | Some resp => Ok (resp, cl, w)
    | None =>
        '(resp, cl, w) ← reuse_h1 true key req cl w;
        match resp with
        | Some resp => Ok (resp, cl, w)
        | None => new_tls reads key host port req cl w
        end
    end
  else
    '(resp, cl, w) ← reuse_h1 false key req cl w;
    match resp with
    | Some resp => Ok (resp, cl, w)
    | None => new_plain reads key host port req cl w
    end.

(** [send(req)] *)
Definition send (reads : nat) (req : request) (cl : client) (w : W) : outcome (response * client * W) :=
  match headers_get (rq_hdrs req) (str "Host") with
  | None => Ok (response_bad_request (str "Missing Host header"), cl, w)
  | Some host_hdr =>
      let u := uri_make (str "http://" ++ host_hdr ++ rq_path req) in
      send_to reads (host_ u) (port_ u) req false cl w
  end.

(** ** HTTP/3 *)

Definition h3_exchange (req : request) (u : U) (s : H3Session.session Q) (w : W)
  : outcome (option response * H3Session.session Q * W) :=
  let '(p, s) := h3_promise s in
  let '(_, s) := H3Session.submit_request req (Some p) s in
  '(s, w) ← h3_rounds 200 0 p u s w;
  Ok (h3_response p s, s, w).

(** The same on a pooled session, which is flushed first. *)
Definition h3_exchange_pooled (req : request) (u : U) (s : H3Session.session Q) (w : W)
  : outcome (option response * H3Session.session Q * W) :=
  let '(p, s) := h3_promise s in
  let '(_, s) := H3Session.submit_request req (Some p) s in
  let '(_, w, s) := H3Session.flush (fun w data => udp_send u data w) w s in
  '(s, w) ← h3_rounds 200 0 p u s w;
  Ok (h3_response p s, s, w).

Definition pool_h3 (key : bytes) (u : U) (s : H3Session.session Q) (cl : client) : client :=
  if H3Session.is_alive s
  then cl <| h3_pool_ ::= push_back key {| h3_sock := u; h3_session := s |} |> else cl.

Fixpoint reuse_h3 (fuel : nat) (key : bytes) (req : request) (it : pool_iterator)
    (cl : client) (w : W) : outcome (option response * client * W) :=
  match fuel with
  | O => Timeout
  | S fuel =>
      match it with
      | AtEnd => Ok (None, cl, w)
      | Erased => Undefined UseAfterFree
      | AtKey =>
          match pop_back key (h3_pool_ cl) with
          | None => Ok (None, cl, w)
          | Some (h3, erased, pool) =>
              let cl := cl <| h3_pool_ := pool |> in
              let it := after_pop erased in
              if negb (H3Session.is_alive (h3_session h3)) then reuse_h3 fuel key req it cl w else
              '(resp, s, w) ← h3_exchange_pooled req (h3_sock h3) (h3_session h3) w;
              match resp with
              | Some resp => Ok (Some resp, pool_h3 key (h3_sock h3) s cl, w)
              | None => reuse_h3 fuel key req it cl w
              end
          end
      end
  end.

Definition new_h3 (key host : bytes) (port : Z) (req : request) (cl : client) (w : W)
  : outcome (response * client * W) :=
  match udp_resolve host port w with
  | (None, w) => Ok (response_make 500 (str "DNS resolution failed for " ++ host), cl, w)
  | (Some u, w) =>
      let '(q, w) := quic_client host port w in
      let s := client_session q new_qpack_encoder new_qpack_decoder in
      if negb (H3Session.is_alive s) then Ok (response_make 500 (str "H3 session init failed"), cl, w) else
      let '(s, w) := send_pending u s w in
      '(resp, s, w) ← h3_exchange req u s w;
      match resp with
      | Some resp => Ok (resp, pool_h3 key u s cl, w)
      | None => Ok (response_make 500 (str "H3 request timed out or incomplete"), cl, w)
      end
  end.

Definition send_h3 (host : bytes) (port : Z) (req : request) (cl : client) (w : W)
  : outcome (response * client * W) :=
  let key := pool_key host port true in
  let req := (with_authority host (with_host host req)) <| rq_ver := HTTP_3 |> in
  '(resp, cl, w) ← reuse_h3 (S (pooled key (h3_pool_ cl))) key req (pool_find key (h3_pool_ cl)) cl w;
  match resp with
  | Some resp => Ok (resp, cl, w)
  | None => new_h3 key host port req cl w
  end.

(** ** The convenience methods *)

Section Convenience.
Context `{BO : BuildOptions}.

Definition target (u : uri) : bytes :=
  path_ u ++ (if bool_decide (query_ u = []) then [] else [x3f] ++ query_ u).

Definition agent_headers : headers :=
  [(str "Connection", str "keep-alive"); (str "User-Agent", str "async_net/1.0")].

Definition convenience_request (m : method) (u : uri) (content : option bytes) (bd : bytes) : request :=
  request_build {|
    rq_method := m; rq_path := target u; rq_query := []; rq_ver := HTTP_11;
    rq_hdrs := [(str "Host", host_ u)] ++
      match content with Some ct => [(str "Content-Type", ct)] | None => [] end ++ agent_headers;
    rq_bd := bd
  |}.

(** What the four methods share after the request is built *)
Definition dispatch_url (reads : nat) (u : uri) (req : request) (cl : client) (w : W)
  : outcome (response * client * W) :=
  if has_http3 && bool_decide (scheme_ u = str "h3") then send_h3 (host_ u) (port_ u) req cl w
  else send_to reads (host_ u) (port_ u) req (is_https u) cl w.

Definition get (reads : nat) (url : bytes) (cl : client) (w : W) : outcome (response * client * W) :=
  let u := uri_make url in dispatch_url reads u (convenience_request GET u None []) cl w.

Definition post (reads : nat) (url body_text content_type : bytes) (cl : client) (w : W)
  : outcome (response * client * W) :=
  let u := uri_make url in
  dispatch_url reads u (convenience_request POST u (Some content_type) body_text) cl w.

Definition put (reads : nat) (url body_text content_type : bytes) (cl : client) (w : W)
  : outcome (response * client * W) :=
  let u := uri_make url in
  dispatch_url reads u (convenience_request PUT u (Some content_type) body_text) cl w.

Definition delete_ (reads : nat) (url : bytes) (cl : client) (w : W) : outcome (response * client * W) :=
  let u := uri_make url in dispatch_url reads u (convenience_request DELETE_ u None []) cl w.
End Convenience.

End Client.
Arguments h1_conn C : clear implicits.
Arguments h2_conn C E D : clear implicits.
Arguments h3_conn Q U : clear implicits.
Arguments client C E D Q U : clear implicits.
