(* ===== verification/HttpClientFacts.v ===== *)
(** * The HTTP client: a call to a server, and the pools *)
From S2P Require Import Prelude Framing HeaderTable Hpack Qpack H3Session H2Frame CppString CppMap HttpTypes Http1Codec WebSocket Transport H2Session H2SessionFacts H2Output HttpServer HttpServerFacts HttpClient.
From stdpp Require Import options.

(** ** A network of pipes

    Each connection gets the next pipe of a list, with the answer of its TLS
    handshake. *)
Record net := {
  pipes : gmap nat (pipe * option bytes);
  upcoming : list (pipe * option bytes);
  next : nat
}.
#[export] Instance net_settable : Settable net := fun w =>
  Build_net (pipes w) (upcoming w) (next w).

Definition at_pipe (c : nat) (p : pipe) (w : net) : net :=
  w <| pipes ::= alter (fun pa => (p, pa.2)) c |>.

#[export] Instance net_network : Network nat net := {|
  connect_to _ _ w :=
    match upcoming w with
    | [] => (None, w)
    | pa :: rest =>
        (Some (next w), w <| upcoming := rest |> <| pipes ::= <[next w := pa]> |> <| next ::= S |>)
    end;
  handshake c w := (pa ← pipes w !! c; pa.2, w);
  recv_some c tls k w :=
    match pipes w !! c with
    | Some (p, _) => let '(d, p) := pipe_read k p in (d, at_pipe c p w)
    | None => (None, w)
    end;
  send_some c tls d w :=
    match pipes w !! c with
    | Some (p, _) => let '(n, p) := pipe_write d p in (n, at_pipe c p w)
    | None => (-1, w)
    end
|}.

Section Pipes.
Context (c : nat) (tls : bool).
Implicit Types (p : pipe) (w : net).

Lemma at_pipe_same p a w : pipes w !! c = Some (p, a) -> at_pipe c p w = w.
Proof.
  intros Hc. destruct w as [ps u n]. unfold at_pipe, set_field. cbn in *. f_equal.
  apply map_eq. intros i. destruct (decide (i = c)) as [->|].
  - by rewrite lookup_alter_eq, Hc.
  - by rewrite lookup_alter_ne.
Qed.

Lemma at_pipe_lookup p q a w : pipes w !! c = Some (q, a) -> pipes (at_pipe c p w) !! c = Some (p, a).
Proof. intros Hc. cbn. by rewrite lookup_alter_eq, Hc. Qed.

Lemma at_pipe_twice p q w : at_pipe c p (at_pipe c q w) = at_pipe c p w.
Proof.
  destruct w as [ps u n]. unfold at_pipe, set_field. cbn. f_equal.
  apply map_eq. intros i. destruct (decide (i = c)) as [->|].
  - rewrite !lookup_alter_eq. by destruct (ps !! c).
  - by rewrite !lookup_alter_ne.
Qed.

(** Operations on a connection are those on its pipe. *)
Lemma write_loop_over fuel d w p a :
  pipes w !! c = Some (p, a) ->
  write_loop (BS := over c tls) fuel d w =
  let '(ok, p) := write_loop fuel d p in (ok, at_pipe c p w).
Proof.
  revert d w p. induction fuel as [|fuel IH]; intros d w p Hc; cbn [write_loop].
  - by rewrite (at_pipe_same p a).
  - case_bool_decide; [by rewrite (at_pipe_same p a)|].
    cbn [write_some over send_some net_network pipe_stream]. rewrite Hc.
    destruct (pipe_write d p) as [n q]. destruct (n <=? 0); [done|].
    rewrite (IH _ _ q) by by eapply at_pipe_lookup.
    destruct (write_loop fuel (dropZ n d) q). by rewrite at_pipe_twice.
Qed.

Lemma write_all_over d w p a :
  pipes w !! c = Some (p, a) -> 0 < quantum p ->
  write_all (BS := over c tls) d w = (true, at_pipe c (p <| sent ::= fun s => s ++ d |>) w).
Proof.
  intros Hc Hq. unfold write_all. rewrite (write_loop_over _ _ _ p a) by done.
  pose proof (write_all_pipe d p Hq) as H. unfold write_all in H. by rewrite H.
Qed.

Lemma read_response_over attempts b w p a r q :
  pipes w !! c = Some (p, a) -> read_response attempts b p = Ok (r, q) ->
  read_response (BS := over c tls) attempts b w = Ok (r, at_pipe c q w).
Proof.
  revert b w p. induction attempts as [|attempts IH]; intros b w p Hc; cbn [read_response].
  { intros [= <- <-]. by rewrite (at_pipe_same p a). }
  destruct (parse_response _ b) as [[[r' n]|]| | |]; try done; cbn [mbind outcome_bind].
  { intros [= <- <-]. by rewrite (at_pipe_same p a). }
  cbn [read_some over recv_some net_network pipe_stream]. rewrite Hc.
  destruct (pipe_read 8192 p) as [[d|] p'].
  - intros Hr. erewrite IH; [|by eapply at_pipe_lookup|exact Hr]. by rewrite at_pipe_twice.
  - case_bool_decide; by intros [= <- <-].
Qed.
End Pipes.

(** ** A response of HTTP/1.1 *)

(** A response as the client's parser gives it. *)
Definition heard_response (r : response) : response :=
  {| rs_status := rs_status r; rs_ver := rs_ver r; rs_hdrs := rs_hdrs r; rs_bd := rs_bd r;
     rs_trailers := [] |}.

Definition response_pieces (r : response) (ds : list bytes) : Prop :=
  cut_ok 8192 ds /\ (length ds < 1000)%nat /\ concat ds = serialize_response r.

Lemma read_response_pieces r attempts b ds rest (p : pipe) :
  response_wf r -> cut_ok 8192 ds -> (length ds < attempts)%nat ->
  b ++ concat ds = serialize_response r -> arriving p = ds ++ rest ->
  read_response attempts b p = Ok (Some (heard_response r), p <| arriving := rest |>).
Proof.
  intros Hwf. destruct (response_parses r Hwf) as [Hwhole Hpart].
  revert b ds p. induction attempts as [|attempts IH]; intros b ds p Hcut Hlen Hb Hp; [lia|].
  cbn [read_response]. destruct ds as [|d ds].
  - cbn [concat app] in *. rewrite app_nil_r in Hb. subst b.
    pose proof (Hwhole (S (length (serialize_response r))) []) as H. rewrite app_nil_r in H.
    rewrite H. cbn [mbind outcome_bind]. do 2 f_equal. apply pipe_ext; [by rewrite Hp|done..].
  - inversion Hcut as [|? ? Hd Hds]; subst. cbn [concat] in Hb.
    rewrite (Hpart _ b (d ++ concat ds)).
    + cbn [mbind outcome_bind]. rewrite (pipe_read_piece 8192 d (ds ++ rest)) by (done || lia).
      rewrite (IH _ ds); [done|done|cbn in Hlen; lia|by rewrite <- app_assoc|done].
    + done.
    + intros E%app_nil. destruct E as [-> _]. blia.
Qed.

(** ** A call of HTTP/1.1 *)

(** The server's answer says whether the connection is kept. *)
Lemma answer_connection `{BO : BuildOptions} c k r :
  headers_get (rs_hdrs (finish_response c k r)) (str "Connection") =
  Some (if k then str "keep-alive" else str "close").
Proof.
  unfold finish_response, with_headers. cbn [rs_hdrs].
  set (h := headers_set (rs_hdrs r) _ _).
  assert (headers_get (alt_svc c h) (str "Connection") = headers_get h (str "Connection")) as Ha.
  { unfold alt_svc. destruct (_ && _); [|done]. rewrite headers_get_set. done. }
  assert (headers_get h (str "Connection") = Some (if k then str "keep-alive" else str "close")) as Hh.
  { unfold h. rewrite headers_get_set. done. }
  destruct (headers_contains (alt_svc c h) (str "Content-Length")); [by rewrite Ha|].
  rewrite headers_get_set. by rewrite Ha.
Qed.

Lemma answer_kept `{BO : BuildOptions} c k r : keeps_new (heard_response (finish_response c k r)) = k.
Proof. unfold keeps_new. cbn [rs_hdrs heard_response]. rewrite answer_connection. by destruct k. Qed.

(** A build with TLS offers h2c on every new connection without TLS, with a header
    after which the server closes it: such a connection is never reused. *)
Lemma h2c_offer_not_kept `{CB : ClientBuild} req :
  has_ssl = true -> ~ persistent (offer_h2c req).
Proof.
  intros Hs [_ Hk]. revert Hk. unfold offer_h2c. rewrite Hs. cbn [rq_hdrs set_field].
  unfold is_keep_alive. by rewrite headers_get_set.
Qed.

Section Call.
Context `{CB : ClientBuild} `{BO : BuildOptions} `{HC : HeaderCodec E D} {Q U : Type} `{QU : Quic Q}
  `{UD : !Udp U Q net} (enc : E) (dec : D) (qenc : qpack_encoder) (qdec : qpack_decoder).
Notation client := (client nat E D Q U).
Notation send_to := (send_to enc dec).
Implicit Types (cl : client) (w : net).

Lemma pop_back_none {A} key (pool : list (bytes * list A)) :
  map_find key pool = None -> pop_back key pool = None.
Proof. unfold pop_back. by intros ->. Qed.

Lemma reuse_h1_none tls key req cl w :
  map_find key (h1_pool_ cl) = None -> reuse_h1 tls key req cl w = Ok (None, cl, w).
Proof. intros H. unfold reuse_h1, take_h1. by rewrite pop_back_none. Qed.

(** A new connection without TLS whose peer answers with [resp]. *)
Lemma new_plain_call reads key host port req cl w p a rest resp :
  upcoming w = (p, a) :: rest -> 0 < quantum p -> response_wf resp -> rs_status resp <> 101 ->
  cut_ok 8192 (arriving p) -> (length (arriving p) < 1000)%nat ->
  concat (arriving p) = serialize_response resp ->
  exists w' p', new_plain enc dec reads key host port req cl w =
      Ok (heard_response resp,
          if keeps_new (heard_response resp)
          then return_h1 key {| h1_sock := next w; h1_ssl_stream := false; is_tls := false |} cl else cl,
          w') /\
    pipes w' !! next w = Some (p', a) /\ sent p' = sent p ++ serialize_request (offer_h2c req).
Proof.
  intros Hu Hq Hwf H101 Hcut Hn Hc. unfold new_plain. cbn [connect_to net_network]. rewrite Hu.
  set (w1 := _ <| next ::= S |>). assert (pipes w1 !! next w = Some (p, a)) as H1.
  { unfold w1. cbn. by rewrite lookup_insert_eq. }
  rewrite (write_all_over (next w) false _ w1 p a) by done. cbn [negb].
  set (p1 := p <| sent ::= _ |>). set (w2 := at_pipe (next w) p1 w1).
  assert (pipes w2 !! next w = Some (p1, a)) as H2 by by eapply at_pipe_lookup.
  erewrite (read_response_over (next w) false _ _ w2 p1 a); [|done|].
  2: { apply (read_response_pieces resp 1000 [] (arriving p) []); [done..|lia|done|].
       by rewrite app_nil_r. }
  cbn [mbind outcome_bind]. change (rs_status (heard_response resp)) with (rs_status resp).
  rewrite (proj2 (Z.eqb_neq _ _) H101), andb_false_r.
  eexists _, _. split; [done|]. split; [by eapply at_pipe_lookup|done].
Qed.

Lemma send_plain_new reads host port req cl w :
  map_find (pool_key host port false) (h1_pool_ cl) = None ->
  send_to reads host port req false cl w =
  new_plain enc dec reads (pool_key host port false) host port (with_host host req) cl w.
Proof.
  intros H. unfold HttpClient.send_to. rewrite andb_false_r. cbn [andb].
  rewrite reuse_h1_none by done. done.
Qed.

(** C14: a call of HTTP/1.1 from end to end.  The server runs the handler of the
    route once, on the request that the client wrote on a new connection; the
    client, whatever the reads, returns the handler's response with the headers
    of the server's loop; and it pools the connection exactly when the server
    keeps it.  Request and response come in fewer than 1000 reads each, the bound
    of the two loops, and the handler does not throw. *)
Theorem http_call (c : server_context) (host : bytes) (port : Z) (r : request) (resp : response)
    (cl : client) (w : net) (p q : pipe) (a : option bytes) (rest : list (pipe * option bytes))
    (reads : nat) :
  let key := pool_key host port false in
  let asked := offer_h2c (with_host host r) in
  let kept := bool_decide (persistent asked) in
  let answer := finish_response c kept resp in
  map_find key (h1_pool_ cl) = None -> upcoming w = (p, a) :: rest -> sent p = [] ->
  0 < quantum p -> 0 < quantum q -> sent q = [] ->
  answerable c (asked, resp) -> request_pieces asked (arriving q) ->
  response_wf answer -> rs_status resp <> 101 ->
  exists q', http11_keep_alive_loop 2 c q = Ok ([Served (seen asked) resp], q') /\
    (cut_ok 8192 (arriving p) -> (length (arriving p) < 1000)%nat -> concat (arriving p) = sent q' ->
     exists w' p', send_to reads host port r false cl w =
         Ok (heard_response answer,
             if kept then return_h1 key {| h1_sock := next w; h1_ssl_stream := false; is_tls := false |} cl
             else cl, w') /\
       pipes w' !! next w = Some (p', a) /\ sent p' = concat (arriving q)).
Proof.
  intros key asked kept answer Hkey Hu Hs Hp Hq Hsq Ha Hup Hwf H101.
  destruct (keep_alive_conversation c [(asked, resp)] [arriving q] 2 q) as (q' & Hrun & Hsent);
    [by constructor|by constructor|cbn; lia|cbn; by rewrite app_nil_r|done|].
  exists q'. split.
  { rewrite Hrun. cbn. by destruct (decide (persistent asked)). }
  intros Hcut Hn Hc. rewrite Hsq in Hsent. cbn [app conversation] in Hsent.
  assert (sent q' = serialize_response answer) as Hans.
  { rewrite Hsent. destruct (decide (persistent asked)); cbn; [by rewrite app_nil_r|done]. }
  rewrite send_plain_new by done.
  destruct (new_plain_call reads (pool_key host port false) host port (with_host host r) cl w p a rest answer)
    as (w' & p' & -> & Hp' & Hsp); try done; [congruence|].
  exists w', p'. unfold answer. rewrite answer_kept. split; [done|]. split; [done|].
  rewrite Hsp, Hs. by destruct Hup as (_ & _ & ->).
Qed.

End Call.

(** ** The pools *)

Section Pool.
Context {A : Type}.
Implicit Types (pool : list (bytes * list A)) (key : bytes) (x : A).

(** The connections of a pool *)
Definition conns pool : list A := concat (map snd pool).

Lemma erase_absent key pool : map_find key pool = None -> map_erase key pool = pool.
Proof.
  induction pool as [|[k v] pool IH]; cbn; [done|]. destruct (decide (key = k)); [done|].
  intros H. by rewrite IH.
Qed.

Lemma conns_find key pool :
  conns pool ≡ₚ default [] (map_find key pool) ++ conns (map_erase key pool).
Proof.
  induction pool as [|[k v] pool IH]; cbn; [done|]. destruct (decide (key = k)); cbn; [done|].
  unfold conns in IH. rewrite IH at 1. rewrite !app_assoc. f_equiv. apply Permutation_app_comm.
Qed.

Lemma conns_set key v pool :
  in_order pool -> conns (map_set key v pool) ≡ₚ v ++ conns (map_erase key pool).
Proof.
  induction pool as [|[k u] pool IH]; cbn; [by rewrite app_nil_r|]. intros [Hb Ho].
  destruct (decide (key = k)) as [->|Hne]; [done|]. destruct (bytes_lt key k) eqn:Ek.
  - rewrite erase_absent; [done|]. apply below_find. by eapply below_trans.
  - cbn. unfold conns in IH. rewrite IH by done. rewrite !app_assoc. f_equiv. apply Permutation_app_comm.
Qed.

Lemma push_back_conns key x pool : in_order pool -> conns (push_back key x pool) ≡ₚ x :: conns pool.
Proof.
  intros Ho. unfold push_back. rewrite conns_set by done. rewrite (conns_find key pool).
  rewrite <- app_assoc. cbn. symmetry. apply Permutation_middle.
Qed.

Lemma pop_back_conns key x e pool pool' :
  in_order pool -> pop_back key pool = Some (x, e, pool') -> conns pool ≡ₚ x :: conns pool'.
Proof.
  intros Ho. unfold pop_back. rewrite (conns_find key pool).
  destruct (map_find key pool) as [xs|]; cbn [mbind option_bind from_option id]; [|done].
  destruct xs as [|y ys _] using rev_ind; [done|]. rewrite last_snoc. cbn [mbind option_bind].
  rewrite removelast_last. case_bool_decide as Hys; intros [= <- _ <-].
  - by rewrite Hys.
  - rewrite conns_set by done. rewrite <- app_assoc. cbn. symmetry. apply Permutation_middle.
Qed.

(** What every entry of a pool satisfies, and is not empty. *)
Definition entries_ok (P : bytes -> A -> Prop) pool : Prop :=
  in_order pool /\ Forall (fun e => e.2 <> [] /\ Forall (P e.1) e.2) pool.

Lemma find_ok P key pool xs :
  entries_ok P pool -> map_find key pool = Some xs -> xs <> [] /\ Forall (P key) xs.
Proof. intros [_ Hf] H%find_In. rewrite List.Forall_forall in Hf. by apply Hf in H. Qed.

Lemma push_back_ok P key x pool : P key x -> entries_ok P pool -> entries_ok P (push_back key x pool).
Proof.
  intros Hx Hp. split; [by apply order_set, Hp|]. apply forall_set; [|apply Hp]. cbn.
  split; [by destruct (default [] _)|]. apply Forall_app. split; [|by repeat constructor].
  destruct (map_find key pool) as [xs|] eqn:E; [|done]. by apply (find_ok P key pool).
Qed.

Lemma pop_back_ok P key x e pool pool' :
  entries_ok P pool -> pop_back key pool = Some (x, e, pool') -> P key x /\ entries_ok P pool'.
Proof.
  intros Hp. unfold pop_back. destruct (map_find key pool) as [xs|] eqn:E; cbn; [|done].
  destruct (find_ok P key pool xs Hp E) as [Hne Hxs].
  destruct xs as [|y ys _] using rev_ind; [done|]. rewrite last_snoc. cbn. rewrite removelast_last.
  apply Forall_app in Hxs as [Hys Hy]. apply Forall_cons in Hy as [Hy _].
  case_bool_decide as Hn; intros [= <- _ <-]; (split; [done|]); split.
  - apply order_erase, Hp.
  - apply forall_erase, Hp.
  - apply order_set, Hp.
  - apply forall_set; [by split|apply Hp].
Qed.
End Pool.

(** What the client relies on: a socket is not given out twice. *)
Class NetworkLaws (C W : Type) `{NW : Network C W} := {
  opened : W -> C -> Prop;
  connect_law host port w : let '(c, w') := connect_to host port w in
    (forall d, opened w d -> opened w' d) /\
    match c with Some c => ~ opened w c /\ opened w' c | None => True end;
  handshake_law c w d : opened w d -> opened (handshake c w).2 d;
  recv_law c tls k w d : opened w d -> opened (recv_some c tls k w).2 d;
  send_law c tls b w d : opened w d -> opened (send_some c tls b w).2 d
}.

Section Pools.
Context {C W : Type} `{NW : !Network C W} `{NL : !NetworkLaws C W} `{CB : ClientBuild}.
Context `{HC : HeaderCodec E D} {Q U : Type} `{QU : Quic Q} `{UD : !Udp U Q W}
  (enc : E) (dec : D).
Notation client := (client C E D Q U).
Implicit Types (cl : client) (w : W) (c : C).

(** ** Sockets stay open *)

Definition grows w w' : Prop := forall d, opened w d -> opened w' d.

#[local] Instance grows_preorder : PreOrder grows.
Proof. split; [by intros w d|]. intros w1 w2 w3 H1 H2 d Hd. by apply H2, H1. Qed.

Lemma grows_write c tls data w : grows w (write_all (BS := over c tls) data w).2.
Proof.
  unfold write_all. generalize (length data). intros fuel. revert data w.
  induction fuel as [|fuel IH]; intros data w; cbn [write_loop]; [done|].
  case_bool_decide; [done|]. cbn [write_some over]. pose proof (send_law c tls data w) as H0.
  destruct (send_some c tls data w) as [n w1]. destruct (n <=? 0); [exact H0|].
  etrans; [exact H0|apply IH].
Qed.

Lemma grows_read c tls attempts b w r w' :
  read_response (BS := over c tls) attempts b w = Ok (r, w') -> grows w w'.
Proof.
  revert b w. induction attempts as [|attempts IH]; intros b w; cbn [read_response]; [by intros [= _ <-]|].
  destruct (parse_response _ b) as [[[r' n]|]| | |]; try done; cbn [mbind outcome_bind]; [by intros [= _ <-]|].
  cbn [read_some over]. pose proof (recv_law c tls 8192 w) as H0.
  destruct (recv_some c tls 8192 w) as [[d|] w1].
  - intros Hr. etrans; [exact H0|by eapply IH].
  - case_bool_decide; by intros [= _ <-].
Qed.

Lemma grows_flush c tls (s : session E D) w : grows w (flush_session (BS := over c tls) s w).2.
Proof.
  unfold flush_session. destruct (H2Session.get_pending_output s) as [data s'].
  pose proof (grows_write c tls data w) as H0. by destruct (write_all _ _).
Qed.

Lemma grows_await c tls reads p r (s : session E D) w r' s' w' :
  await_response (BS := over c tls) reads p r s w = Ok (r', s', w') -> grows w w'.
Proof.
  revert r s w. induction reads as [|reads IH]; intros r s w; cbn [await_response]; [done|].
  destruct (_ || _); [by intros [= _ _ <-]|].
  cbn [read_some over]. pose proof (recv_law c tls 16384 w) as H0.
  destruct (recv_some c tls 16384 w) as [[d|] w1]; [|by intros [= _ _ <-]].
  destruct (feed r s d) as [[[r1 s1] n]| | |]; cbn [mbind outcome_bind]; try done.
  pose proof (grows_flush c tls s1 w1) as H1. destruct (flush_session _ _) as [[ok s2] w2].
  intros Ha. etrans; [exact H0|]. etrans; [exact H1|by eapply IH].
Qed.

Lemma grows_request c tls reads host req r (s : session E D) w resp r' s' w' :
  h2_request (BS := over c tls) reads host req r s w = Ok (resp, r', s', w') -> grows w w'.
Proof.
  unfold h2_request. destruct (with_promise s) as [p s1].
  destruct (do_submit_request _ _ _ s1) as [[sid s2]| | |]; cbn [mbind outcome_bind]; try done.
  pose proof (grows_flush c tls s2 w) as H1. destruct (flush_session _ _) as [[ok s3] w1].
  destruct (await_response reads p r s3 w1) as [[[r4 s4] w4]| | |] eqn:Ea; cbn [mbind outcome_bind]; try done.
  intros [= _ _ _ <-]. etrans; [exact H1|by eapply grows_await].
Qed.

(** ** The invariant *)

Definition digit (tls : bool) : byte := if tls then x31 else x30.

Lemma pool_key_last host port tls : last (pool_key host port tls) = Some (digit tls).
Proof.
  unfold pool_key. rewrite !app_assoc.
  by destruct tls; [change (str "1") with [x31]|change (str "0") with [x30]]; rewrite last_snoc.
Qed.

(** Whether the client uses TLS when it is asked to *)
Definition secure cl : bool := has_ssl && ssl_ctx_ cl.

Definition fits_h1 (sec : bool) (key : bytes) (h : h1_conn C) : Prop :=
  exists tls, last key = Some (digit tls) /\ is_tls h = sec && tls /\ h1_ssl_stream h = is_tls h.
Definition fits_h2 (key : bytes) (h : h2_conn C E D) : Prop :=
  last key = Some (digit true) /\ alive_ (h2_session h) = true.

(** The sockets of the pools of TCP connections *)
Definition idle cl : list C :=
  map h1_sock (conns (h1_pool_ cl)) ++ map h2_sock (conns (h2_pool_ cl)).

Record pools_ok cl w : Prop := {
  po_h1 : entries_ok (fits_h1 (secure cl)) (h1_pool_ cl);
  po_h2 : entries_ok fits_h2 (h2_pool_ cl);
  po_once : NoDup (idle cl);
  po_open : Forall (opened w) (idle cl)
}.

(** [c] is in use. *)
Definition lent c cl w : Prop := pools_ok cl w /\ c ∉ idle cl /\ opened w c.

Lemma pools_grow cl w w' : grows w w' -> pools_ok cl w -> pools_ok cl w'.
Proof. intros Hg [P1 P2 P3 P4]. constructor; try done. eapply Forall_impl; [exact P4|]. apply Hg. Qed.

Lemma lent_grow c cl w w' : grows w w' -> lent c cl w -> lent c cl w'.
Proof. intros Hg (? & ? & ?). split; [by eapply pools_grow|]. split; [done|by apply Hg]. Qed.

Lemma used_split (c : C) l l' w :
  l ≡ₚ c :: l' -> NoDup l -> Forall (opened w) l ->
  c ∉ l' /\ opened w c /\ NoDup l' /\ Forall (opened w) l'.
Proof.
  intros Hl Hn Ho. rewrite Hl in Hn, Ho. apply NoDup_cons in Hn as [? ?].
  by apply Forall_cons in Ho as [? ?].
Qed.

Lemma take_h1_lent key h e pool cl w :
  pop_back key (h1_pool_ cl) = Some (h, e, pool) -> pools_ok cl w ->
  fits_h1 (secure cl) key h /\ lent (h1_sock h) (cl <| h1_pool_ := pool |>) w.
Proof.
  intros Hp [P1 P2 P3 P4]. destruct (pop_back_ok _ _ _ _ _ _ P1 Hp) as [Hf Hok].
  assert (idle cl ≡ₚ h1_sock h :: idle (cl <| h1_pool_ := pool |>)) as Hl.
  { unfold idle. cbn. rewrite (pop_back_conns _ _ _ _ _ (proj1 P1) Hp). done. }
  destruct (used_split _ _ _ w Hl) as (? & ? & ? & ?); [done..|]. split; [done|]. split; [|done]. by constructor.
Qed.

Lemma take_h2_lent key h e pool cl w :
  pop_back key (h2_pool_ cl) = Some (h, e, pool) -> pools_ok cl w ->
  fits_h2 key h /\ lent (h2_sock h) (cl <| h2_pool_ := pool |>) w.
Proof.
  intros Hp [P1 P2 P3 P4]. destruct (pop_back_ok _ _ _ _ _ _ P2 Hp) as [Hf Hok].
  assert (idle cl ≡ₚ h2_sock h :: idle (cl <| h2_pool_ := pool |>)) as Hl.
  { unfold idle. cbn. rewrite (pop_back_conns _ _ _ _ _ (proj1 P2) Hp). cbn.
    by rewrite <- Permutation_middle. }
  destruct (used_split _ _ _ w Hl) as (? & ? & ? & ?); [done..|]. split; [done|]. split; [|done]. by constructor.
Qed.

Lemma give_h1_ok key h cl w :
  fits_h1 (secure cl) key h -> lent (h1_sock h) cl w -> pools_ok (return_h1 key h cl) w.
Proof.
  intros Hf ([P1 P2 P3 P4] & Hn & Ho).
  assert (idle (return_h1 key h cl) ≡ₚ h1_sock h :: idle cl) as Hl.
  { unfold idle. cbn. by rewrite (push_back_conns key h _ (proj1 P1)). }
  constructor; [by apply push_back_ok|done| |]; rewrite Hl; by constructor.
Qed.

Lemma give_h2_ok key h cl w :
  fits_h2 key h -> lent (h2_sock h) cl w -> pools_ok (cl <| h2_pool_ ::= push_back key h |>) w.
Proof.
  intros Hf ([P1 P2 P3 P4] & Hn & Ho).
  assert (idle (cl <| h2_pool_ ::= push_back key h |>) ≡ₚ h2_sock h :: idle cl) as Hl.
  { unfold idle. cbn. rewrite (push_back_conns key h _ (proj1 P2)). cbn. symmetry. apply Permutation_middle. }
  constructor; [done|by apply push_back_ok| |]; rewrite Hl; by constructor.
Qed.

Lemma connect_lent host port cl w c w' :
  pools_ok cl w -> connect_to host port w = (Some c, w') -> lent c cl w'.
Proof.
  intros Hp Hc. pose proof (connect_law host port w) as Hl. rewrite Hc in Hl. destruct Hl as [Hg [Hn Ho]].
  split; [by eapply pools_grow|]. split; [|done]. intros Hin. destruct Hp as [_ _ _ P4].
  eapply Forall_forall in P4; [|exact Hin]. done.
Qed.

Lemma connect_failed host port cl w w' :
  pools_ok cl w -> connect_to host port w = (None, w') -> pools_ok cl w'.
Proof.
  intros Hp Hc. pose proof (connect_law host port w) as Hl. rewrite Hc in Hl. destruct Hl as [Hg _].
  by eapply pools_grow.
Qed.

Lemma pool_h2_ok key h r s cl w :
  last key = Some (digit true) -> lent h cl w ->
  pools_ok (if alive_ s then cl <| h2_pool_ ::= push_back key
              {| h2_sock := h; h2_session := s; h2_reader := r |} |> else cl) w.
Proof.
  intros Hk Hl. destruct (alive_ s) eqn:Es; [|apply Hl]. by apply give_h2_ok; [|exact Hl].
Qed.

Lemma reuse_h2_keeps fuel reads key host req it cl w resp cl' w' :
  last key = Some (digit true) -> pools_ok cl w ->
  reuse_h2 fuel reads key host req it cl w = Ok (resp, cl', w') -> pools_ok cl' w'.
Proof.
  intros Hk. revert it cl w. induction fuel as [|fuel IH]; intros it cl w Hp; cbn [reuse_h2]; [done|].
  destruct it; [by intros [= _ <- <-]| |done].
  destruct (pop_back key (h2_pool_ cl)) as [[[h e] pool]|] eqn:Et; [|by intros [= _ <- <-]].
  destruct (take_h2_lent _ _ _ _ _ _ Et Hp) as [_ Hl].
  destruct (alive_ (h2_session h)); cbn [negb]; [|apply IH, Hl].
  destruct (h2_request _ _ _ _ _ w) as [[[[[x|] r] s] w1]| | |] eqn:Er; cbn [mbind outcome_bind]; try done;
    apply grows_request in Er; eapply lent_grow in Hl; try exact Er.
  - intros [= _ <- <-]. by apply pool_h2_ok.
  - apply IH, Hl.
Qed.

(** What is taken for a key is a connection of its kind. *)
Lemma taken_fits use_tls host port h e pool cl w :
  pop_back (pool_key host port use_tls) (h1_pool_ cl) = Some (h, e, pool) -> pools_ok cl w ->
  (if secure cl && use_tls then is_tls h && h1_ssl_stream h else negb (is_tls h)) = true.
Proof.
  intros Ht Hp. destruct (take_h1_lent _ _ _ _ _ _ Ht Hp) as [(tls & Hk & Ht' & Hs) _].
  rewrite pool_key_last in Hk. rewrite Hs, Ht'. by destruct use_tls, tls, (secure cl).
Qed.

Lemma reuse_h1_keeps tls key req cl w resp cl' w' :
  pools_ok cl w -> reuse_h1 tls key req cl w = Ok (resp, cl', w') -> pools_ok cl' w'.
Proof.
  intros Hp. unfold reuse_h1, take_h1.
  destruct (pop_back key (h1_pool_ cl)) as [[[h e] pool]|] eqn:Et; [|by intros [= _ <- <-]].
  destruct (take_h1_lent _ _ _ _ _ _ Et Hp) as [Hf Hl].
  destruct (if tls then _ else _); [|intros [= _ <- <-]; apply Hl].
  pose proof (grows_write (h1_sock h) tls (serialize_request req) w) as Hg.
  destruct (write_all _ w) as [[] w1]; cbn [snd] in Hg; apply (lent_grow _ _ _ _ Hg) in Hl;
    [|intros [= _ <- <-]; apply Hl].
  destruct (read_response 1000 [] w1) as [[[x|] w2]| | |] eqn:Er; cbn [mbind outcome_bind]; try done;
    apply grows_read in Er; apply (lent_grow _ _ _ _ Er) in Hl; intros [= _ <- <-]; [|apply Hl].
  destruct (keeps_reused x); [by apply give_h1_ok|apply Hl].
Qed.

Lemma new_h1_keeps (k : bool) t tls key c cl w :
  last key = Some (digit t) -> tls = secure cl && t -> lent c cl w ->
  pools_ok (if k then return_h1 key {| h1_sock := c; h1_ssl_stream := tls; is_tls := tls |} cl else cl) w.
Proof. intros Hk -> Hl. destruct k; [apply give_h1_ok; [by exists t|done]|apply Hl]. Qed.

Lemma new_h2_keeps reads key host req c cl w resp cl' w' :
  last key = Some (digit true) -> lent c cl w ->
  new_h2 enc dec reads key host req c cl w = Ok (resp, cl', w') -> pools_ok cl' w'.
Proof.
  intros Hk Hl. unfold new_h2. pose proof (grows_write c true PREFACE w) as Hg.
  destruct (write_all PREFACE w) as [[] w1]; cbn [snd] in Hg; apply (lent_grow _ _ _ _ Hg) in Hl; cbn [negb];
    [|intros [= _ <- <-]; apply Hl].
  set (s := new_session _ _ _ _). pose proof (grows_flush c true s w1) as Hf.
  destruct (flush_session s w1) as [[ok s1] w2]. cbn [snd] in Hf. apply (lent_grow _ _ _ _ Hf) in Hl.
  destruct (h2_request _ _ _ _ s1 w2) as [[[[[x|] r] s2] w3]| | |] eqn:Er; cbn [mbind outcome_bind]; try done;
    apply grows_request in Er; apply (lent_grow _ _ _ _ Er) in Hl; intros [= _ <- <-]; [|apply Hl].
  by apply pool_h2_ok.
Qed.

Lemma new_tls_keeps reads key host port req cl w resp cl' w' :
  last key = Some (digit true) -> secure cl = true -> pools_ok cl w ->
  new_tls enc dec reads key host port req cl w = Ok (resp, cl', w') -> pools_ok cl' w'.
Proof.
  intros Hk Hsec Hp. unfold new_tls. destruct (connect_to host port w) as [[c|] w1] eqn:Ec.
  2: { intros [= _ <- <-]. by eapply connect_failed. }
  pose proof (connect_lent _ _ _ _ _ _ Hp Ec) as Hl. pose proof (handshake_law c w1) as Hg.
  destruct (handshake c w1) as [[alpn|] w2]; cbn [snd] in Hg; apply (lent_grow _ _ _ _ Hg) in Hl;
    [|intros [= _ <- <-]; apply Hl].
  case_bool_decide; [by apply new_h2_keeps|]. unfold new_h1_tls.
  pose proof (grows_write c true (serialize_request req) w2) as Hw.
  destruct (write_all _ w2) as [[] w3]; cbn [snd] in Hw; apply (lent_grow _ _ _ _ Hw) in Hl; cbn [negb];
    [|intros [= _ <- <-]; apply Hl].
  destruct (read_response 1000 [] w3) as [[[x|] w4]| | |] eqn:Er; cbn [mbind outcome_bind]; try done;
    apply grows_read in Er; apply (lent_grow _ _ _ _ Er) in Hl; intros [= _ <- <-]; [|apply Hl].
  apply (new_h1_keeps _ true); [done|by rewrite Hsec|done].
Qed.

Lemma switch_keeps reads host req c cl w resp cl' w' :
  lent c cl w -> switch_h2c enc dec reads host req c cl w = Ok (resp, cl', w') -> pools_ok cl' w'.
Proof.
  intros Hl. unfold switch_h2c. set (s := new_session _ _ _ _). pose proof (grows_flush c false s w) as Hf.
  destruct (flush_session s w) as [[ok s1] w2]. cbn [snd] in Hf. apply (lent_grow _ _ _ _ Hf) in Hl.
  destruct (h2_request _ _ _ _ s1 w2) as [[[[x r] s2] w3]| | |] eqn:Er; cbn [mbind outcome_bind]; try done.
  apply grows_request in Er. apply (lent_grow _ _ _ _ Er) in Hl. intros [= _ <- <-]. apply Hl.
Qed.

Lemma new_plain_keeps reads t key host port req cl w resp cl' w' :
  last key = Some (digit t) -> secure cl && t = false -> pools_ok cl w ->
  new_plain enc dec reads key host port req cl w = Ok (resp, cl', w') -> pools_ok cl' w'.
Proof.
  intros Hk Hsec Hp. unfold new_plain. destruct (connect_to host port w) as [[c|] w1] eqn:Ec.
  2: { intros [= _ <- <-]. by eapply connect_failed. }
  pose proof (connect_lent _ _ _ _ _ _ Hp Ec) as Hl.
  pose proof (grows_write c false (serialize_request (offer_h2c req)) w1) as Hw.
  destruct (write_all _ w1) as [[] w3]; cbn [snd] in Hw; apply (lent_grow _ _ _ _ Hw) in Hl; cbn [negb];
    [|intros [= _ <- <-]; apply Hl].
  destruct (read_response 1000 [] w3) as [[[x|] w4]| | |] eqn:Er; cbn [mbind outcome_bind]; try done;
    apply grows_read in Er; apply (lent_grow _ _ _ _ Er) in Hl; [|intros [= _ <- <-]; apply Hl].
  destruct (has_ssl && _); [by apply switch_keeps|]. intros [= _ <- <-]. by apply (new_h1_keeps _ t).
Qed.

Lemma secure_h2 fuel reads key host req it cl w resp cl' w' :
  reuse_h2 fuel reads key host req it cl w = Ok (resp, cl', w') -> secure cl' = secure cl.
Proof.
  revert it cl w. induction fuel as [|fuel IH]; intros it cl w; cbn [reuse_h2]; [done|].
  destruct it; [by intros [= _ <- _]| |done].
  destruct (pop_back key (h2_pool_ cl)) as [[[h e] pool]|]; [|by intros [= _ <- _]].
  destruct (alive_ (h2_session h)); cbn [negb]; [|by intros ->%IH].
  destruct (h2_request _ _ _ _ _ w) as [[[[[x|] r] s] w1]| | |]; cbn [mbind outcome_bind]; try done.
  - intros [= _ <- _]. by destruct (alive_ s).
  - by intros ->%IH.
Qed.

Lemma secure_h1 tls key req cl w resp cl' w' :
  reuse_h1 tls key req cl w = Ok (resp, cl', w') -> secure cl' = secure cl.
Proof.
  unfold reuse_h1, take_h1. destruct (pop_back key (h1_pool_ cl)) as [[[h e] pool]|]; [|by intros [= _ <- _]].
  destruct (if tls then _ else _); [|by intros [= _ <- _]].
  destruct (write_all _ w) as [[] w1]; [|by intros [= _ <- _]].
  destruct (read_response 1000 [] w1) as [[[x|] w2]| | |]; cbn [mbind outcome_bind]; try done;
    intros [= _ <- _]; [|done]. by destruct (keeps_reused x).
Qed.

(** C15: A call that returns leaves the pools well formed, whatever the network
    answered and whether it returns a response of the server or a failure of its
    own: no entry is empty, a connection is filed under the key of its kind (with
    TLS or without, where a client without a TLS context has none with), a pooled
    HTTP/2 session is alive, and no socket is in the pools twice.  It is about
    calls made one after the other; of a call that throws (on a response whose
    Content-Length is no number), that waits without end, or that uses an erased
    iterator (C16) it says nothing. *)
Theorem send_keeps_pools reads host port req use_tls cl w resp cl' w' :
  pools_ok cl w -> send_to enc dec reads host port req use_tls cl w = Ok (resp, cl', w') ->
  pools_ok cl' w'.
Proof.
  intros Hp. unfold send_to. pose proof (pool_key_last host port use_tls) as Hk.
  destruct (has_ssl && use_tls && ssl_ctx_ cl) eqn:Es.
  - assert (use_tls = true /\ secure cl = true) as [-> Hs].
    { unfold secure. by destruct has_ssl, use_tls, (ssl_ctx_ cl). }
    destruct (reuse_h2 _ _ _ _ _ _ cl w) as [[[[x|] cl1] w1]| | |] eqn:E2; cbn [mbind outcome_bind]; try done;
      pose proof (secure_h2 _ _ _ _ _ _ _ _ _ _ _ E2) as Hs1; apply reuse_h2_keeps in E2; try done;
      [by intros [= _ <- <-]|].
    destruct (reuse_h1 _ _ _ cl1 w1) as [[[[x|] cl2] w2]| | |] eqn:E1; cbn [mbind outcome_bind]; try done;
      pose proof (secure_h1 _ _ _ _ _ _ _ _ E1) as Hs2; apply reuse_h1_keeps in E1; try done;
      [by intros [= _ <- <-]|].
    apply new_tls_keeps; [done|congruence|done].
  - assert (secure cl && use_tls = false) as Hs by (unfold secure; by destruct has_ssl, use_tls, (ssl_ctx_ cl)).
    destruct (reuse_h1 _ _ _ cl w) as [[[[x|] cl2] w2]| | |] eqn:E1; cbn [mbind outcome_bind]; try done;
      pose proof (secure_h1 _ _ _ _ _ _ _ _ E1) as Hs2; apply reuse_h1_keeps in E1; try done;
      [by intros [= _ <- <-]|].
    apply (new_plain_keeps _ use_tls); [done|by rewrite Hs2|done].
Qed.
End Pools.

(** ** Stale sessions *)

Section Stale.
Context {C W : Type} `{NW : !Network C W} `{CB : ClientBuild}.
Context `{HC : HeaderCodec E D} {Q U : Type} `{QU : Quic Q} `{UD : !Udp U Q W}
  (enc : E) (dec : D).
Notation client := (client C E D Q U).
Implicit Types (cl : client) (w : W) (c : C).

(** A pooled session that cannot answer: it has ended, or its peer has closed the
    connection. *)
Definition stale (h : h2_conn C E D) : Prop :=
  alive_ (h2_session h) = false \/
  (forall w, (recv_some (h2_sock h) true 16384 w).1 = None) /\
  0 <= next_stream_id_ (h2_session h) < 2 ^ 31 - 2.

Lemma submit_heap r p b (s : session E D) :
  0 <= next_stream_id_ s < 2 ^ 31 - 2 ->
  exists sid s', do_submit_request r p b s = Ok (sid, s') /\ heap_ s' = heap_ s.
Proof.
  intros Hn. unfold do_submit_request, int_add.
  rewrite (proj2 (Z.leb_le _ _)), (proj2 (Z.ltb_lt _ _)) by lia. cbn [andb mbind outcome_bind].
  set (s1 := update_stream _ _ _). assert (heap_ s1 = heap_ s) as H1.
  { unfold s1, touch_stream. cbn. by case_match. }
  unfold build_headers_frame. destruct (hc_encode (encoder_ s1) (request_headers r)) as [block e].
  destruct (len block <=? _); (eexists _, _; split; [reflexivity|]); by destruct (negb _).
Qed.

Lemma silent_request c reads host req r (s : session E D) w :
  (0 < reads)%nat -> (forall w, (recv_some c true 16384 w).1 = None) ->
  0 <= next_stream_id_ s < 2 ^ 31 - 2 ->
  exists r' s' w', h2_request (BS := over c true) reads host req r s w = Ok (None, r', s', w').
Proof.
  intros Hr Hc Hn. unfold h2_request, with_promise. set (p := fresh _).
  set (s1 := s <| heap_ ::= _ |>).
  destruct (submit_heap (with_authority host (req <| rq_ver := HTTP_2 |>)) (Some p) false s1 Hn)
    as (sid & s2 & -> & Hh). cbn [mbind outcome_bind].
  assert (forall s3 : session E D, heap_ s3 = heap_ s2 -> settled_promise p s3 = None) as Hp.
  { intros s3 H3. unfold settled_promise. rewrite H3, Hh. cbn. by rewrite lookup_insert_eq. }
  assert (exists ok w1, flush_session (BS := over c true) s2 w = (ok, drained s2, w1)) as (ok & w1 & ->).
  { unfold flush_session, H2Session.get_pending_output. destruct (write_all _ w) as [ok w1]. by exists ok, w1. }
  destruct reads as [|reads]; [lia|]. cbn [await_response]. rewrite (Hp (drained s2)) by done.
  rewrite bool_decide_eq_false_2 by by intros [? ?]. cbn [orb].
  assert (exists w2, recv_some c true 16384 w1 = (None, w2)) as (w2 & H2).
  { specialize (Hc w1). destruct (recv_some c true 16384 w1) as [d w2]. cbn in Hc. subst. by exists w2. }
  destruct (negb (alive_ (drained s2))); [|cbn [read_some over]; rewrite H2];
    cbn [mbind outcome_bind]; rewrite Hp by done; by eexists _, _, _.
Qed.

Lemma stale_reuse fuel reads key host req cl w xs :
  (0 < reads)%nat -> map_find key (h2_pool_ cl) = Some xs -> xs <> [] -> Forall stale xs ->
  (length xs < fuel)%nat ->
  reuse_h2 fuel reads key host req AtKey cl w = Undefined UseAfterFree.
Proof.
  intros Hr. revert fuel cl w. induction xs as [|h xs IH] using rev_ind; [done|].
  intros fuel cl w Hf _ [Hxs [Hh _]%Forall_cons]%Forall_app Hl.
  rewrite length_app in Hl. destruct fuel as [|fuel]; [lia|]. cbn [reuse_h2].
  unfold pop_back. rewrite Hf. cbn [mbind option_bind]. rewrite last_snoc. cbn [mbind option_bind].
  rewrite removelast_last.
  assert (forall cl' w', (bool_decide (xs = []) = false -> map_find key (h2_pool_ cl') = Some xs) ->
    reuse_h2 fuel reads key host req (after_pop (bool_decide (xs = []))) cl' w' = Undefined UseAfterFree) as Hgo.
  { intros cl' w' Hf'. cbn in Hl. case_bool_decide as Hx; cbn [after_pop].
    - destruct fuel; [lia|done].
    - apply IH; [by apply Hf'|done|done|lia]. }
  set (pop := if bool_decide (xs = []) then _ else _).
  assert (exists pool, pop = Some (h, bool_decide (xs = []), pool) /\
    (bool_decide (xs = []) = false -> map_find key pool = Some xs)) as (pool & -> & Hpool).
  { unfold pop. destruct (bool_decide (xs = [])); eexists; (split; [done|]); [done|].
    intros _. apply find_set_eq. }
  destruct Hh as [->|[Hc Hn]]; cbn [negb]; [by apply Hgo|].
  destruct (negb (alive_ (h2_session h))); [by apply Hgo|].
  destruct (silent_request (h2_sock h) reads host req (h2_reader h) (h2_session h) w Hr Hc Hn)
    as (r' & s' & w' & ->). cbn [mbind outcome_bind]. by apply Hgo.
Qed.

(** C16: When every pooled HTTP/2 session of a host is stale, a call to it does not
    open a new connection: the loop over the pool erases the entry its iterator
    designates and goes on with the iterator. *)
Theorem stale_sessions_undefined reads host port req cl w xs :
  has_ssl = true -> ssl_ctx_ cl = true -> (0 < reads)%nat ->
  map_find (pool_key host port true) (h2_pool_ cl) = Some xs -> xs <> [] -> Forall stale xs ->
  send_to enc dec reads host port req true cl w = Undefined UseAfterFree.
Proof.
  intros Hs Hc Hr Hf Hne Hst. unfold send_to. rewrite Hs, Hc. cbn [andb].
  unfold pool_find, pooled. rewrite Hf. rewrite (stale_reuse _ _ _ _ _ _ _ xs); try done. cbn. lia.
Qed.
End Stale.

(** ** Examples *)

#[export] Instance plain_build : ClientBuild := {| has_ssl := false |}.

#[export] Program Instance net_laws : NetworkLaws nat net := {|
  opened w c := (c < next w)%nat
|}.
Next Obligation. intros host port w. cbn. destruct (upcoming w) as [|pa rest]; cbn; [done|]. split; intros; lia. Qed.
Next Obligation. done. Qed.
Next Obligation. intros c tls k w d Hd. cbn. destruct (pipes w !! c) as [[p a]|]; [|done]. by destruct (pipe_read k p). Qed.
Next Obligation. intros c tls b w d Hd. cbn. destruct (pipes w !! c) as [[p a]|]; [|done]. by destruct (pipe_write b p). Qed.

Abbreviation test_client := (client nat hpack_encoder hpack_decoder unit unit) (only parsing).
Abbreviation test_send := (send_to (new_hpack_encoder 4096) (new_hpack_decoder 4096)) (only parsing).

Definition asked_example : request := offer_h2c (with_host (str "example.com") example_request).

Definition example_answer : response := finish_response example_server true (response_ok (str "hello")).

Definition answering : pipe :=
  {| arriving := tens (serialize_response example_answer); sent := []; quantum := 9 |}.

Definition asking_pipe : pipe :=
  {| arriving := tens (serialize_request asked_example); sent := []; quantum := 1000 |}.

Definition quiet_net : net := {| pipes := ∅; upcoming := [(answering, None)]; next := 0 |}.

Lemma http_call_witness :
  exists q', http11_keep_alive_loop 2 example_server asking_pipe =
      Ok ([Served (seen asked_example) (response_ok (str "hello"))], q') /\
    exists w' p', test_send 0%nat (str "example.com") 80 example_request false (new_client false : test_client) quiet_net =
      Ok (heard_response example_answer,
          return_h1 (str "example.com:80:0") {| h1_sock := 0%nat; h1_ssl_stream := false; is_tls := false |}
            (new_client false), w') /\
    pipes w' !! 0%nat = Some (p', None) /\ sent p' = serialize_request asked_example.
Proof.
  destruct (http_call (new_hpack_encoder 4096) (new_hpack_decoder 4096) example_server (str "example.com") 80
    example_request (response_ok (str "hello")) (new_client false : test_client) quiet_net answering asking_pipe
    None [] 0%nat) as (q' & Hrun & Hcall); try done.
  - repeat constructor; cbn; try (apply (bool_decide_unpack _); vm_compute; exact I);
      intros c [= <-]; reflexivity.
  - repeat constructor; by vm_compute.
  - split_and!; try (apply (bool_decide_unpack _); vm_compute; exact I).
    repeat constructor; cbn; try (apply (bool_decide_unpack _); vm_compute; exact I);
      intros c [= <-]; reflexivity.
  - exists q'. split; [exact Hrun|]. apply Hcall.
    + repeat constructor; by vm_compute.
    + cbn. lia.
    + vm_compute in Hrun. injection Hrun as <-. by vm_compute.
Defined.

(** The client after that call *)
Definition example_call : outcome (response * test_client * net) :=
  test_send 0%nat (str "example.com") 80 example_request false (new_client false) quiet_net.

Lemma send_keeps_pools_witness :
  match example_call with Ok (_, cl, w) => pools_ok cl w | _ => False end.
Proof.
  destruct example_call as [[[r cl] w]|e|f|] eqn:E; [|by vm_compute in E..].
  refine (send_keeps_pools (new_hpack_encoder 4096) (new_hpack_decoder 4096) 0%nat (str "example.com") 80
    example_request false (new_client false) quiet_net r cl w _ E).
  constructor; repeat constructor.
Defined.

(** A network on which nothing arrives *)
Module Silent.
#[export] Instance silent_network : Network unit unit := {|
  connect_to _ _ w := (None, w);
  handshake _ w := (None, w);
  recv_some _ _ _ w := (None, w);
  send_some _ _ d w := (len d, w)
|}.
#[export] Instance tls_build : ClientBuild := {| has_ssl := true |}.

Definition ended : h2_conn unit hpack_encoder hpack_decoder :=
  {| h2_sock := tt; h2_session := (test_session H2Session.client) <| alive_ := false |>;
     h2_reader := frame_reader_init |}.
Definition closed_by_peer : h2_conn unit hpack_encoder hpack_decoder :=
  {| h2_sock := tt; h2_session := test_session H2Session.client; h2_reader := frame_reader_init |}.

Definition stale_client : client unit hpack_encoder hpack_decoder unit unit :=
  (new_client true) <| h2_pool_ := [(str "example.com:443:1", [ended; closed_by_peer])] |>.

Lemma stale_sessions_undefined_witness :
  send_to (new_hpack_encoder 4096) (new_hpack_decoder 4096) 5 (str "example.com") 443
    example_request true stale_client tt = Undefined UseAfterFree.
Proof.
  refine (stale_sessions_undefined (new_hpack_encoder 4096) (new_hpack_decoder 4096) 5 (str "example.com") 443
    example_request stale_client tt [ended; closed_by_peer] _ _ _ _ _ _).
  - reflexivity.
  - reflexivity.
  - lia.
  - reflexivity.
  - discriminate.
  - constructor; [by left|]. constructor; [right; by split|done].
Defined.
End Silent.
