(* ===== verification/GrpcServer.v ===== *)
(** * The gRPC server (src/src/grpc/grpc_server.cpp, src/include/async_net/grpc/server.hpp)

    The method table, the dispatch of unary calls through the interceptors, and
    the two handlers that the server installs on the HTTP/2 session of a
    connection: the request handler, for unary calls, and the request start
    handler, which takes streaming calls over and sets data callbacks.  Accepting
    connections is not modelled; a connection is a function of its stream. *)
From S2P Require Import Prelude Framing HeaderTable H2Frame CppString CppMap HttpTypes Transport H2Session Grpc HttpServer.
From stdpp Require Import options.

(** ** Handlers *)

Record call_context := { initial_metadata : metadata; response_metadata : metadata }.

Definition new_context (md : metadata) : call_context :=
  {| initial_metadata := md; response_metadata := [] |}.

(** What each kind of handler does when it is started, until it ends or
    suspends: its result, what it has done to the writer, and what it leaves in
    the reader or the context. *)
Abbreviation method_handler := (bytes -> task bytes).
Abbreviation method_handler_with_context := (bytes -> call_context -> task bytes * call_context).
Abbreviation server_stream_handler := (bytes -> list writer_op * task unit).
Abbreviation server_stream_handler_with_context :=
  (bytes -> call_context -> list writer_op * task unit * call_context).
Abbreviation client_stream_handler := (reader -> task bytes * reader).
Abbreviation client_stream_handler_with_context :=
  (reader -> call_context -> task bytes * reader * call_context).
Abbreviation bidi_stream_handler := (reader -> list writer_op * task unit * reader).
Abbreviation bidi_stream_handler_with_context :=
  (reader -> call_context -> list writer_op * task unit * reader * call_context).

Inductive handler_type := unary | server_stream | client_stream | bidi_stream.

(** An empty [std::function] is [None]. *)
Record method_entry := {
  type : handler_type;
  has_context : bool;
  unary_fn : option method_handler;
  unary_ctx : option method_handler_with_context;
  srv_stream : option server_stream_handler;
  srv_stream_ctx : option server_stream_handler_with_context;
  cli_stream : option client_stream_handler;
  cli_stream_ctx : option client_stream_handler_with_context;
  bidi : option bidi_stream_handler;
  bidi_ctx : option bidi_stream_handler_with_context
}.

#[export] Instance entry_eta : Settable method_entry := fun e =>
  Build_method_entry (type e) (has_context e) (unary_fn e) (unary_ctx e) (srv_stream e)
    (srv_stream_ctx e) (cli_stream e) (cli_stream_ctx e) (bidi e) (bidi_ctx e).

Definition new_entry (t : handler_type) (ctx : bool) : method_entry :=
  {| type := t; has_context := ctx; unary_fn := None; unary_ctx := None; srv_stream := None;
     srv_stream_ctx := None; cli_stream := None; cli_stream_ctx := None; bidi := None;
     bidi_ctx := None |}.

(** The call of a function object. *)
Definition call_fn {F : Type} (f : option F) : outcome F :=
  match f with Some f => Ok f | None => Throws BadFunctionCall end.

(** ** The server *)

Record grpc_server := {
  methods_ : list (bytes * method_entry);
  interceptors_ : list interceptor_fn;
  running_ : bool
}.

#[export] Instance grpc_server_eta : Settable grpc_server := fun sv =>
  Build_grpc_server (methods_ sv) (interceptors_ sv) (running_ sv).

Definition new_grpc_server : grpc_server :=
  {| methods_ := []; interceptors_ := []; running_ := true |}.

(** What is registered: the overloads of the four functions. *)
Inductive registration :=
| Unary (h : method_handler)
| UnaryCtx (h : method_handler_with_context)
| ServerStream (h : server_stream_handler)
| ServerStreamCtx (h : server_stream_handler_with_context)
| ClientStream (h : client_stream_handler)
| ClientStreamCtx (h : client_stream_handler_with_context)
| BidiStream (h : bidi_stream_handler)
| BidiStreamCtx (h : bidi_stream_handler_with_context).

Definition entry_of (h : registration) : method_entry :=
  match h with
  | Unary h => (new_entry unary false) <| unary_fn := Some h |>
  | UnaryCtx h => (new_entry unary true) <| unary_ctx := Some h |>
  | ServerStream h => (new_entry server_stream false) <| srv_stream := Some h |>
  | ServerStreamCtx h => (new_entry server_stream true) <| srv_stream_ctx := Some h |>
  | ClientStream h => (new_entry client_stream false) <| cli_stream := Some h |>
  | ClientStreamCtx h => (new_entry client_stream true) <| cli_stream_ctx := Some h |>
  | BidiStream h => (new_entry bidi_stream false) <| bidi := Some h |>
  | BidiStreamCtx h => (new_entry bidi_stream true) <| bidi_ctx := Some h |>
  end.

Definition register (service method : bytes) (h : registration) (sv : grpc_server) : grpc_server :=
  sv <| methods_ ::= map_set (make_path service method) (entry_of h) |>.

Definition add_interceptor (i : interceptor_fn) (sv : grpc_server) : grpc_server :=
  sv <| interceptors_ ::= fun l => l ++ [i] |>.

Definition grpc_stop (sv : grpc_server) : grpc_server := sv <| running_ := false |>.

(** ** Unary calls *)

Definition status_of (code : Z) (msg : bytes) : status := {| st_code := code; st_message := msg |}.

(** The handler of a unary call, in the [try] block of [dispatch]. *)
Definition run_unary (e : method_entry) (data : bytes) (ctx : call_context)
  : task bytes * call_context :=
  if has_context e then
    match unary_ctx e with
    | Some h => h data ctx
    | None => (Raises (str "bad_function_call"), ctx)
    end
  else
    match unary_fn e with
    | Some h => (h data, ctx)
    | None => (Raises (str "bad_function_call"), ctx)
    end.

(** The interceptors of a call: the answer when one of them refuses it. *)
Definition intercept (sv : grpc_server) (path data : bytes) (ctx : call_context)
  : outcome (option (status * bytes)) :=
  if bool_decide (length (interceptors_ sv) = 0%nat) then Ok None else
  let '(svc, mtd) := parse_path path in
  let info := {| ci_service := svc; ci_method := mtd; ci_metadata := initial_metadata ctx |} in
  '(proceed, (error_response, error_status)) ←
    chain_run (interceptors_ sv) info data ([], status_of grpc_status.ok []);
  Ok (if proceed : bool then None else Some (error_status, error_response)).

Definition dispatch (sv : grpc_server) (path data : bytes) (ctx : call_context)
  : outcome (status * bytes * call_context) :=
  match map_find path (methods_ sv) with
  | None => Ok (status_of grpc_status.unimplemented (str "Method not found"), [], ctx)
  | Some e =>
      match type e with
      | unary =>
          refused ← intercept sv path data ctx;
          match refused with
          | Some (st, out) => Ok (st, out, ctx)
          | None =>
              let '(t, ctx) := run_unary e data ctx in
              Ok match t with
                 | Returns out => (status_of grpc_status.ok [], out, ctx)
                 | Suspends _ =>
                     (status_of grpc_status.internal (str "Handler did not complete synchronously"), [], ctx)
                 | Raises what => (status_of grpc_status.internal what, [], ctx)
                 end
          end
      | _ => Ok (status_of grpc_status.unimplemented (str "Method is not a unary RPC"), [], ctx)
      end
  end.

(** [!ct || ct->find("application/grpc") != 0] *)
Definition is_grpc (req : request) : bool :=
  match headers_get (rq_hdrs req) (str "content-type") with
  | Some ct => bool_decide (find ct (str "application/grpc") 0 = Some 0)
  | None => false
  end.

Definition plain_error (code : Z) (text : bytes) : response :=
  response_default <| rs_status := code |> <| rs_bd := text |>.

Section Flavour.
Context {FL : Flavour}.

(** The response of a call that has been dispatched. *)
Definition unary_response (st : status) (out : bytes) (md : metadata) : response :=
  let hdrs := headers_set (headers_set [] (str "content-type") content_type)
                (str "grpc-encoding") (str "identity") in
  let trailers := headers_set [] (str "grpc-status") (to_string (st_code st)) in
  let trailers := if bool_decide (st_message st = []) then trailers
                  else headers_set trailers (str "grpc-message") (st_message st) in
  response_default <| rs_status := 200 |> <| rs_hdrs := hdrs |>
    <| rs_bd := if bool_decide (out = []) then [] else encode_grpc_message out |>
    <| rs_trailers := foldl (fun h kv => headers_set h kv.1 kv.2) trailers md |>.

(** The request handler of a connection. *)
Definition unary_handler (sv : grpc_server) (req : request) : outcome response :=
  if negb (is_grpc req) then Ok (plain_error 415 not_rpc_text) else
  if negb (bool_decide (rq_method req = POST)) then Ok (plain_error 405 needs_post_text)
  else
    protobuf_data ← decode_grpc_message (rq_bd req);
    match protobuf_data with
    | None =>
        Ok (response_default <| rs_status := 200 |>
              <| rs_hdrs := headers_set [] (str "content-type") content_type |>
              <| rs_trailers := headers_set (headers_set [] (str "grpc-status") (to_string grpc_status.internal))
                                  (str "grpc-message") invalid_frame_text |>)
    | Some data =>
        let ctx := new_context (extract_from_headers (rq_hdrs req)) in
        '(st, out, ctx) ← dispatch sv (rq_path req) data ctx;
        Ok (unary_response st out (response_metadata ctx))
    end.

(** ** Streaming calls *)

(** The headers that answer a streaming call at once. *)
Definition stream_response : response :=
  response_default <| rs_status := 200 |>
    <| rs_hdrs := headers_set (headers_set [] (str "content-type") content_type)
                    (str "grpc-encoding") (str "identity") |>.

(** [finish_writer(w)] *)
Definition finish_writer (w : writer) : writer * list api_call := writer_finish w grpc_status.ok [].

(** The end of a handler that returns nothing: [done()] is true when it has
    returned and when it has thrown, and what it has thrown is not looked at. *)
Definition end_stream_handler (ops : list writer_op) (t : task unit) (w : writer)
  : writer * list api_call :=
  let '(w, calls) := writer_run w ops in
  match t with
  | Suspends _ => (w, calls)
  | Returns _ | Raises _ =>
      let '(w, fin) := finish_writer w in (w, calls ++ fin)
  end.

(** What the callback of a server-streaming call captures. *)
Record srv_state := { ss_buffer : bytes; ss_wrt : writer; ss_called : bool }.

Definition launch_srv (e : method_entry) (request_data : bytes) (c : srv_state)
  : outcome (srv_state * list api_call) :=
  h ← call_fn (srv_stream e);
  let '(ops, t) := h request_data in
  let '(w, calls) := end_stream_handler ops t (ss_wrt c) in
  Ok ({| ss_buffer := ss_buffer c; ss_wrt := w; ss_called := true |}, calls).

Definition srv_data (e : method_entry) (c : srv_state) (sid : Z) (data : bytes) (es : bool)
  : outcome (srv_state * list api_call) :=
  let c := {| ss_buffer := ss_buffer c ++ data; ss_wrt := ss_wrt c; ss_called := ss_called c |} in
  if es && negb (ss_called c) then
    m ← decode_grpc_message (ss_buffer c); launch_srv e (default [] m) c
  else Ok (c, []).

(** What the callbacks of the two other kinds capture: the buffer of the
    deframer, the reader, the writer. *)
Record cli_state := { cs_buf : bytes; cs_rdr : reader; cs_wrt : writer; cs_launched : bool }.

(** [deframer->feed]: no coroutine waits on the reader before the handler runs. *)
Definition feed_reader (c : cli_state) (data : bytes) : outcome cli_state :=
  '(ms, buf) ← deframer_feed (cs_buf c) data;
  Ok {| cs_buf := buf; cs_rdr := foldl (fun r m => (push_message r m).1) (cs_rdr c) ms;
        cs_wrt := cs_wrt c; cs_launched := cs_launched c |}.

Definition complete_reader (c : cli_state) : cli_state :=
  {| cs_buf := cs_buf c; cs_rdr := (reader_finish (cs_rdr c)).1; cs_wrt := cs_wrt c;
     cs_launched := cs_launched c |}.

Definition launch_cli (e : method_entry) (sid : Z) (c : cli_state)
  : outcome (cli_state * list api_call) :=
  h ← call_fn (cli_stream e);
  let '(t, rdr) := h (cs_rdr c) in
  let c := {| cs_buf := cs_buf c; cs_rdr := rdr; cs_wrt := cs_wrt c; cs_launched := cs_launched c |} in
  match t with
  | Returns result =>
      let '(w, fin) := finish_writer (cs_wrt c) in
      Ok ({| cs_buf := cs_buf c; cs_rdr := cs_rdr c; cs_wrt := w; cs_launched := cs_launched c |},
          SubmitData sid (encode_grpc_message result) false :: fin)
  | Raises what => Throws (RuntimeError what)
  | Suspends _ => Ok (c, [])
  end.

Definition launch_bidi (e : method_entry) (c : cli_state) : outcome (cli_state * list api_call) :=
  h ← call_fn (bidi e);
  let '(ops, t, rdr) := h (cs_rdr c) in
  let '(w, calls) := end_stream_handler ops t (cs_wrt c) in
  Ok ({| cs_buf := cs_buf c; cs_rdr := rdr; cs_wrt := w; cs_launched := cs_launched c |}, calls).

Definition launched (c : cli_state) : cli_state :=
  {| cs_buf := cs_buf c; cs_rdr := cs_rdr c; cs_wrt := cs_wrt c; cs_launched := true |}.

(** The callback of a client-streaming or bidirectional call, with the function
    that starts the handler. *)
Definition cli_data (launch : Z -> cli_state -> outcome (cli_state * list api_call))
    (c : cli_state) (sid : Z) (data : bytes) (es : bool) : outcome (cli_state * list api_call) :=
  c ← feed_reader c data;
  if es then
    let c := complete_reader c in
    if cs_launched c then Ok (c, []) else launch sid (launched c)
  else Ok (c, []).

(** The request start handler of a connection.  What the callback captures is
    shared with the handler when it is started at once; [handler_launched] is
    then left unset. *)
Definition start_handler (sv : grpc_server) (sid : Z) (req : request) (end_stream : bool)
  : outcome (bool * list api_call) :=
  if negb (is_grpc req) then Ok (false, []) else
  match map_find (rq_path req) (methods_ sv) with
  | None => Ok (false, [])
  | Some e =>
      let headers_call := SubmitResponseHeaders sid stream_response in
      let new_state := {| cs_buf := []; cs_rdr := reader_new; cs_wrt := writer_new sid;
                          cs_launched := false |} in
      match type e with
      | unary => Ok (false, [])
      | server_stream =>
          let c := {| ss_buffer := []; ss_wrt := writer_new sid; ss_called := false |} in
          '(c, calls) ← (if end_stream then launch_srv e [] c else Ok (c, []));
          Ok (true, headers_call :: SetDataCallback sid (Closure c (srv_data e)) :: calls)
      | client_stream =>
          '(c, calls) ← (if end_stream then launch_cli e sid (complete_reader new_state)
                         else Ok (new_state, []));
          Ok (true, headers_call :: SetDataCallback sid (Closure c (cli_data (launch_cli e))) :: calls)
      | bidi_stream =>
          '(c, calls) ← (if end_stream then launch_bidi e (complete_reader new_state)
                         else Ok (new_state, []));
          Ok (true, headers_call ::
                    SetDataCallback sid (Closure c (cli_data (fun _ => launch_bidi e))) :: calls)
      end
  end.

(** ** Connections *)

(** The handlers of a new session. *)
Definition grpc_handlers (sv : grpc_server) : handlers :=
  {| request_handler_ := Some (unary_handler sv); streaming_request_handler_ := None;
     request_start_handler_ := Some (start_handler sv); push_provider_ := None;
     push_handler_ := false |}.

Section Connection.
Context `{HC : HeaderCodec E D} `{BS : ByteStream W}.

(** [handle_connection] on a new session; [turns] is how often the read loop
    finds [running_] set. *)
Definition handle_connection (turns : nat) (sv : grpc_server) (s : session E D) (w : W)
  : outcome (option (frame_reader * session E D) * W) :=
  serve_session turns (s <| hooks_ := grpc_handlers sv |>) w.

(** [handle_tls_connection], with the result of the handshake. *)
Definition handle_tls_connection (hs : Z) (turns : nat) (sv : grpc_server) (s : session E D) (w : W)
  : outcome (option (frame_reader * session E D) * W) :=
  if hs <=? 0 then Ok (None, w) else handle_connection turns sv s w.
End Connection.
End Flavour.
