(* ===== verification/GrpcChannel.v ===== *)
(** * The gRPC channel (src/src/grpc/grpc_channel.cpp, src/include/async_net/grpc/channel.hpp)

    The client's side: connecting, the read loop, and the four kinds of calls.  A
    call that waits for a response is split where its coroutine suspends: what it
    does before it waits on its promise, and what it makes of the promise. *)
From S2P Require Import Prelude Framing HeaderTable H2Frame CppString CppMap HttpTypes Transport H2Session Grpc HttpServer GrpcServer.
From stdpp Require Import options.

(** ** Requests and statuses *)

Section Flavour.
Context {FL : Flavour}.

Definition make_grpc_request (host path body_data : bytes) : request :=
  let h := headers_set [] (str "Host") host in
  let h := headers_set h (str "Content-Type") content_type in
  let h := headers_set h (str "TE") (str "trailers") in
  let h := headers_set h (str "grpc-encoding") (str "identity") in
  {| rq_method := POST; rq_path := path; rq_query := []; rq_ver := HTTP_2; rq_hdrs := h;
     rq_bd := body_data |}.

(** [std::from_chars] leaves the code 0 when there is no number. *)
Definition extract_grpc_status (r : response) : status :=
  {| st_code :=
       match headers_get (rs_hdrs r) (str "grpc-status") with
       | Some v => from_chars_value 10 INT_MIN INT_MAX 0 v
       | None => grpc_status.ok
       end;
     st_message := default [] (headers_get (rs_hdrs r) (str "grpc-message")) |}.

(** What a unary call returns when its promise is complete. *)
Definition call_result (pr : response_promise) : outcome (status * bytes) :=
  let r := pr_resp pr in
  if pr_error pr then Ok (status_of grpc_status.internal (str "Request error"), [])
  else if negb (rs_status r =? 200) then
    Ok (status_of grpc_status.internal (str "HTTP error: " ++ to_string (rs_status r)), [])
  else
    let st := extract_grpc_status r in
    if negb (status_ok st) then Ok (st, [])
    else
      m ← decode_grpc_message (rs_bd r);
      Ok match m with
         | Some m => (st, m)
         | None => (status_of grpc_status.internal invalid_response_text, [])
         end.

(** What it stores through [response_metadata]. *)
Definition call_metadata (pr : response_promise) : option metadata :=
  if pr_error pr || negb (rs_status (pr_resp pr) =? 200) then None
  else Some (extract_from_headers (rs_hdrs (pr_resp pr))).

(** What a streaming call returns when its promise is complete. *)
Definition stream_result (pr : response_promise) : status :=
  if pr_error pr then status_of grpc_status.internal (str "Request error")
  else extract_grpc_status (pr_resp pr).

(** ** Callbacks of streaming calls *)

(** The callback of [server_stream_call]: its deframer has no reader.  What it
    captures is the buffer and the messages [on_message] has been called with. *)
Definition on_message_data (on_message : bool) (c : bytes * list bytes) (sid : Z) (data : bytes)
    (fin : bool) : outcome (bytes * list bytes * list api_call) :=
  '(ms, buf) ← deframer_feed c.1 data;
  if on_message || bool_decide (ms = []) then Ok (buf, c.2 ++ ms, [])
  else Undefined NullPointer.

(** The callback of [bidi_stream_call]: the buffer and the reader. *)
Definition reader_data (c : bytes * reader) (sid : Z) (data : bytes) (fin : bool)
  : outcome (bytes * reader * list api_call) :=
  '(ms, buf) ← deframer_feed c.1 data;
  let r := foldl (fun r m => (push_message r m).1) c.2 ms in
  Ok (buf, if fin then (reader_finish r).1 else r, []).

(** ** The channel *)
Section Channel.
Context `{HC : HeaderCodec E D} `{BS : ByteStream W}.

Record channel := { host_ : bytes; connected_ : bool; h2_ : session E D }.

#[export] Instance channel_eta : Settable channel := fun ch =>
  Build_channel (host_ ch) (connected_ ch) (h2_ ch).

Definition new_channel (host : bytes) (s : session E D) : channel :=
  {| host_ := host; connected_ := false; h2_ := s |}.

Definition channel_flush (ch : channel) (w : W) : bool * channel * W :=
  let '(ok, s, w) := flush_session (h2_ ch) w in (ok, ch <| h2_ := s |>, w).

(** [connect]: [err] is the result of [async_connect].  The read loop is started
    when it returns [true]. *)
Definition connect (err : Z) (ch : channel) (w : W) : bool * channel * W :=
  if negb (err =? 0) then (false, ch, w) else
  let ch := ch <| connected_ := true |> in
  let '(ok, w) := write_all PREFACE w in
  if negb ok then (false, ch, w) else
  let '(_, ch, w) := channel_flush ch w in (true, ch, w).

(** One turn of [read_loop], and whether the loop goes on. *)
Definition read_turn (r : frame_reader) (ch : channel) (w : W)
  : outcome (bool * frame_reader * channel * W) :=
  if negb (connected_ ch && alive_ (h2_ ch)) then Ok (false, r, ch, w) else
  let lost ch := ch <| connected_ := false |> in
  match read_some 16384 w with
  | (None, w) => Ok (false, r, lost ch, w)
  | (Some d, w) =>
      '(r, s, consumed) ← feed r (h2_ ch) d;
      let ch := ch <| h2_ := s |> in
      if consumed <? 0 then Ok (false, r, lost ch, w) else
      let '(ok, ch, w) := channel_flush ch w in
      if ok : bool then Ok (true, r, ch, w) else Ok (false, r, lost ch, w)
  end.

(** The loop while nothing else uses the channel. *)
Fixpoint read_loop (turns : nat) (r : frame_reader) (ch : channel) (w : W) : outcome (channel * W) :=
  match turns with
  | O => Ok (ch, w)
  | S turns =>
      '(go, r, ch, w) ← read_turn r ch w;
      if go : bool then read_loop turns r ch w else Ok (ch, w)
  end.

(** [std::make_shared<response_promise>()], and [submit_request] with it. *)
Definition submit (req : request) (no_end_stream : bool) (ch : channel)
  : outcome (Z * nat * channel) :=
  let s := h2_ ch in
  let p := fresh (dom (heap_ s)) in
  let s := s <| heap_ ::= insert p new_promise |> in
  '(sid, s) ← do_submit_request req (Some p) no_end_stream s;
  Ok (sid, p, ch <| h2_ := s |>).

Definition unavailable : status := status_of grpc_status.unavailable (str "Channel not connected").
Definition not_submitted : status := status_of grpc_status.internal (str "Failed to submit request").

(** [unary_call], until it flushes and waits: the answer, or the stream and the
    promise it waits on. *)
Definition unary_call (service method request_data : bytes) (md : metadata) (ch : channel)
  : outcome ((status * bytes + Z * nat) * channel) :=
  if negb (connected_ ch) then Ok (inl (unavailable, []), ch) else
  let req := make_grpc_request (host_ ch) (make_path service method)
               (encode_grpc_message request_data) in
  let req := req <| rq_hdrs ::= fun h => foldl (fun h kv => headers_set h kv.1 kv.2) h md |> in
  '(sid, p, ch) ← submit req false ch;
  if sid <? 0 then Ok (inl (not_submitted, []), ch) else Ok (inr (sid, p), ch).

(** [server_stream_call], until it flushes and waits. *)
Definition server_stream_call (service method request_data : bytes) (on_message : bool)
    (ch : channel) : outcome ((status + Z * nat) * channel) :=
  if negb (connected_ ch) then Ok (inl unavailable, ch) else
  let req := make_grpc_request (host_ ch) (make_path service method)
               (encode_grpc_message request_data) in
  '(sid, p, ch) ← submit req false ch;
  if sid <? 0 then Ok (inl not_submitted, ch) else
  let cb := Closure (([], []) : bytes * list bytes) (on_message_data on_message) in
  Ok (inr (sid, p), ch <| h2_ ::= set_data_callback sid cb |>).

(** [client_stream_call]: the writer and the promise. *)
Definition client_stream_call (service method : bytes) (ch : channel)
  : outcome (option (writer * nat) * channel) :=
  if negb (connected_ ch) then Ok (None, ch) else
  let req := make_grpc_request (host_ ch) (make_path service method) [] in
  '(sid, p, ch) ← submit req true ch;
  if sid <? 0 then Ok (None, ch) else Ok (Some (writer_new sid, p), ch).

(** [bidi_stream_call]: the writer; the reader is what the callback captures. *)
Definition bidi_stream_call (service method : bytes) (ch : channel)
  : outcome (option writer * channel) :=
  if negb (connected_ ch) then Ok (None, ch) else
  let req := make_grpc_request (host_ ch) (make_path service method) [] in
  '(sid, _, ch) ← submit req true ch;
  if sid <? 0 then Ok (None, ch) else
  let cb := Closure (([], reader_new) : bytes * reader) reader_data in
  Ok (Some (writer_new sid), ch <| h2_ ::= set_data_callback sid cb |>).

Definition close (ch : channel) : channel := ch <| connected_ := false |>.
End Channel.
End Flavour.
Arguments channel : clear implicits.
