(* ===== verification/GrpcCalls.v ===== *)
(** * gRPC calls, from a channel to a server

    What a call returns at the client, in terms of what the handler of its method
    has done at the server, over a whole HTTP/2 exchange. *)
From S2P Require Import Prelude Framing HeaderTable Hpack H2Frame CppString CppMap HttpTypes Transport H2Session H2SessionFacts H2Delivery Grpc HttpServer GrpcServer GrpcChannel.
From stdpp Require Import options.

(** ** Headers on the way *)

(** Names that a session drops from a request or writes itself. *)
Definition dropped_name (name : bytes) : bool :=
  bool_decide (to_lower name = str "host") || bool_decide (to_lower name = str "connection").

Lemma get_kept hs name :
  dropped_name name = false -> headers_get (omap kept_in_request hs) name = headers_get hs name.
Proof.
  intros Hn. induction hs as [|[k v] hs IH]; [done|].
  transitivity (headers_get (match kept_in_request (k, v) with
    | Some kv => kv :: omap kept_in_request hs | None => omap kept_in_request hs end) name); [done|].
  unfold kept_in_request at 1. cbn [fst snd headers_get]. destruct (_ || _) eqn:Ed.
  - rewrite IH. unfold same_name. rewrite bool_decide_eq_false_2; [done|]. intros E.
    unfold dropped_name in Hn. by rewrite <- E, Ed in Hn.
  - cbn [headers_get]. rewrite same_name_lower, IH. done.
Qed.

Lemma get_received r name :
  dropped_name name = false -> headers_get (rq_hdrs (received_request r)) name = headers_get (rq_hdrs r) name.
Proof.
  intros Hn. cbn. rewrite get_kept by done. unfold same_name. rewrite bool_decide_eq_false_2; [done|].
  intros E. unfold dropped_name in Hn. by rewrite <- E in Hn.
Qed.

Lemma get_trailers ts name : headers_get (trailer_headers ts) name = headers_get ts name.
Proof.
  induction ts as [|[k v] ts IH]; cbn; [done|]. unfold to_lower_header.
  rewrite same_name_lower. by destruct (same_name k name).
Qed.

(** No entry of [md] has the name of one of [names]. *)
Definition avoids (names : list bytes) (md : metadata) : Prop :=
  Forall (fun name => Forall (fun kv : header => same_name kv.1 name = false) md) names.

Lemma avoids_get names md name :
  avoids names md -> name ∈ names -> Forall (fun kv : header => same_name kv.1 name = false) md.
Proof. intros Ha Hin. unfold avoids in Ha. rewrite Forall_forall in Ha. by apply Ha. Qed.

(** ** Unary calls

    The client and the server speak one of the two protocols each. *)

Section Unary.
Context {FC FS : Flavour}.

(** The request of a unary call, at the client and at the server. *)
Definition unary_request (host service method data : bytes) (md : metadata) : request :=
  (make_grpc_request (FL := FC) host (make_path service method) (encode_grpc_message data))
    <| rq_hdrs ::= fun h => foldl (fun h kv => headers_set h kv.1 kv.2) h md |>.

(** What the call gives back when the server's [dispatch] has given a status and
    a message: an empty message is sent as no message at all. *)
Definition unary_outcome (st : status) (out : bytes) : status * bytes :=
  if status_ok st then
    if bool_decide (out = []) then (status_of grpc_status.internal (invalid_response_text (Flavour := FC)), [])
    else (st, out)
  else (st, []).

Lemma code_sent code :
  0 <= code < 2 ^ 31 -> from_chars_value 10 INT_MIN INT_MAX 0 (to_string code) = code.
Proof.
  intros Hc. unfold from_chars_value. rewrite from_chars_to_string; [done|..];
    unfold INT_MIN, INT_MAX; lia.
Qed.

Lemma encode_nonempty m : encode_grpc_message m <> [].
Proof. done. Qed.

Lemma unary_outcome_received st out md pr :
  avoids [str "grpc-status"; str "grpc-message"] md -> 0 <= st_code st < 2 ^ 31 -> len out <= MESSAGE_MAX ->
  pr_error pr = false -> pr_resp pr = received_response (unary_response (FL := FS) st out md) ->
  call_result (FL := FC) pr = Ok (unary_outcome st out).
Proof.
  intros Hmd Hst Hout He Hr. unfold call_result. rewrite He, Hr.
  change (rs_status (received_response _)) with 200. cbn [Z.eqb Pos.eqb negb].
  set (r := unary_response (FL := FS) st out md).
  assert (Hget : forall name, name ∈ [str "grpc-status"; str "grpc-message"] ->
    headers_get (rs_hdrs (received_response r)) name =
    headers_get (if bool_decide (st_message st = []) then [(str "grpc-status", to_string (st_code st))]
                 else [(str "grpc-status", to_string (st_code st)); (str "grpc-message", st_message st)]) name).
  { intros name Hin. cbn [received_response rs_hdrs]. rewrite headers_get_app, get_trailers.
    assert (headers_get (tail (response_headers r)) name = None) as ->.
    { unfold response_headers, r. cbn [rs_bd unary_response set_field].
      repeat (apply elem_of_cons in Hin as [->|Hin]; [by case_bool_decide as Eo; [|case_bool_decide]; vm_compute|]).
      by apply not_elem_of_nil in Hin. }
    unfold r, unary_response. cbn [rs_trailers set_field].
    rewrite headers_get_sets by by eapply avoids_get. by case_bool_decide. }
  assert (Hext : extract_grpc_status (received_response r) = st).
  { unfold extract_grpc_status. rewrite !Hget by (repeat constructor).
    destruct st as [code msg]. cbn [st_code st_message] in *. case_bool_decide as Em; [subst msg|];
      (transitivity (status_of (from_chars_value 10 INT_MIN INT_MAX 0 (to_string code)) msg);
       [done|by rewrite code_sent]) ||
      (transitivity (status_of (from_chars_value 10 INT_MIN INT_MAX 0 (to_string code)) []);
       [done|by rewrite code_sent]). }
  rewrite Hext. unfold unary_outcome. destruct (status_ok st); cbn [negb]; [|done].
  change (rs_bd (received_response r)) with (if bool_decide (out = []) then [] else encode_grpc_message out).
  clear - Hout. destruct (decide (out = [])) as [->|Ho]; [done|].
  rewrite !bool_decide_eq_false_2 by done. by rewrite grpc_decode_encode.
Qed.

(** The handlers of a method whose calls are not taken over by the start
    handler: unary methods, and paths that are not registered. *)
Definition not_streaming (sv : grpc_server) (path : bytes) : Prop :=
  forall e, map_find path (methods_ sv) = Some e -> type e = unary.

Lemma start_declines sv sid r fin :
  not_streaming sv (rq_path r) -> start_handler (FL := FS) sv sid r fin = Ok (false, []).
Proof.
  intros Hn. unfold start_handler. destruct (is_grpc r); cbn [negb]; [|done].
  destruct (map_find (rq_path r) (methods_ sv)) as [e|] eqn:Ef; [|done]. by rewrite (Hn e Ef).
Qed.

(** The call that the server sees: a gRPC request, its message and its metadata. *)
Lemma unary_handler_received sv host service method data md st out ctx :
  let r := unary_request host service method data md in
  avoids [str "content-type"] md -> len data <= MESSAGE_MAX ->
  dispatch sv (make_path service method) data (new_context (extract_from_headers (rq_hdrs (received_request r)))) =
    Ok (st, out, ctx) ->
  unary_handler (FL := FS) sv (received_request r) =
    Ok (unary_response (FL := FS) st out (response_metadata ctx)).
Proof.
  intros r Hmd Hlen Hd. unfold unary_handler.
  assert (is_grpc (received_request r) = true) as ->.
  { unfold is_grpc. rewrite get_received by done.
    unfold r, unary_request. cbn [rq_hdrs set_field].
    rewrite headers_get_sets by (eapply avoids_get; [done|constructor]).
    change (bool_decide (find (content_type (Flavour := FC)) (str "application/grpc") 0 = Some 0) = true).
    by rewrite (find_starts _ _ content_type_prefix). }
  cbn [negb]. rewrite bool_decide_eq_true_2 by done. cbn [negb].
  change (rq_bd (received_request r)) with (encode_grpc_message data).
  rewrite grpc_decode_encode by done. cbn [mbind outcome_bind].
  change (rq_path (received_request r)) with (make_path service method). by rewrite Hd.
Qed.

Context `{HC : HeaderCodec E D}.

Implicit Types (ch : channel E D) (s : session E D).

(** The promise a channel makes next, and the session that knows it. *)
Definition next_promise ch : nat := fresh (dom (heap_ (h2_ ch))).

Definition with_promise ch : session E D :=
  (h2_ ch) <| heap_ ::= insert (next_promise ch) new_promise |>.

(** A connection of the server [sv], idle, that has not seen the stream [sid]. *)
Record grpc_serving (sv : grpc_server) (sid : Z) s : Prop := {
  gs_serving : serving (unary_handler (FL := FS) sv) sid s;
  gs_hooks : hooks_ s = grpc_handlers (FL := FS) sv;
  gs_output : output_buf_ s = [];
  gs_window : window_ok (conn_recv_window_ s);
  gs_max : peer_max_frame_size_ s < 2 ^ 24
}.

(** What the answer of a unary call needs to reach the client. *)
Record unary_answerable s (st : status) (out : bytes) (md : metadata) : Prop := {
  ua_code : 0 <= st_code st < 2 ^ 31;
  ua_size : len out <= MESSAGE_MAX;
  ua_names : avoids [str "grpc-status"; str "grpc-message"] md;
  ua_sent : transmissible_response (encoder_ s) (unary_response (FL := FS) st out md)
}.

Lemma unary_exchange ch s sv service method data md st out ctx sid up :
  let r := unary_request (host_ ch) service method data md in
  let p := next_promise ch in
  connected_ ch = true -> asking r p sid (with_promise ch) ->
  grpc_serving sv sid s -> not_streaming sv (make_path service method) ->
  avoids [str "content-type"] md ->
  dispatch sv (make_path service method) data
    (new_context (extract_from_headers (rq_hdrs (received_request r)))) = Ok (st, out, ctx) ->
  unary_answerable s st out (response_metadata ctx) ->
  exists ch1, unary_call (FL := FC) service method data md ch = Ok (inr (sid, p), ch1) /\
    (concat up = output_buf_ (h2_ ch1) ->
     exists s1, snd <$> feed_list frame_reader_init s up = Ok s1 /\
       forall down, concat down = output_buf_ s1 ->
       exists c2 pr, snd <$> feed_list frame_reader_init (h2_ ch1) down = Ok c2 /\
         heap_ c2 !! p = Some pr /\ pr_complete pr = true /\
         call_result (FL := FC) pr = Ok (unary_outcome st out)).
Proof.
  intros r p Hconn Hask [Hs Hh Ho Hw Hm] Hns Hmd Hd [Hc Hl Hn Ht].
  assert (Hsize : len data <= MESSAGE_MAX).
  { pose proof (as_body _ _ _ _ Hask) as Hb. change (rq_bd r) with (encode_grpc_message data) in Hb.
    rewrite len_encode in Hb. unfold MAX_WINDOW_SIZE, MESSAGE_MAX in *. lia. }
  destruct (exchange (with_promise ch) s r p sid (unary_handler (FL := FS) sv)
    (unary_response (FL := FS) st out (response_metadata ctx)) up) as (c1 & Hc1 & Hheap & Hx); try done.
  - unfold declines. rewrite Hh. by apply start_declines.
  - by apply (unary_handler_received sv (host_ ch) service method data md st out ctx).
  - exists (ch <| h2_ := c1 |>). split.
    + unfold unary_call. rewrite Hconn. cbn [negb]. unfold submit.
      fold (next_promise ch). fold p (unary_request (host_ ch) service method data md) r.
      change ((h2_ ch) <| heap_ ::= insert p new_promise |>) with (with_promise ch). rewrite Hc1. cbn [mbind outcome_bind]. rewrite (proj2 (Z.ltb_ge sid 0)); [done|].
      pose proof (as_next _ _ _ _ Hask). lia.
    + intros Hup. destruct (Hx Hup) as (s1 & Hf & _ & Hdown). exists s1. split; [done|].
      intros down Hdn. destruct (Hdown down Hdn) as (c2 & Hf2 & Hset).
      destruct (st_promise _ _ _ _ Hset) as (pr0 & pr & H0 & H1 & Hr & Hcomp & He).
      exists c2, pr. split; [done|]. split; [done|]. split; [done|].
      apply (unary_outcome_received st out (response_metadata ctx)); try done.
      rewrite He. rewrite Hheap in H0. cbn in H0. rewrite lookup_insert_eq in H0. by injection H0 as <-.
Qed.
End Unary.

(** ** Streaming handlers that go wrong *)

(** A streaming method registered with a context is called through the other,
    empty function: the exception leaves the session. *)
Lemma stream_with_context_throws (FL : Flavour) service method h sv sid req :
  rq_path req = make_path service method -> is_grpc req = true ->
  start_handler (register service method (ServerStreamCtx h) sv) sid req true = Throws BadFunctionCall.
Proof.
  intros Hp Hg. unfold start_handler. rewrite Hg. cbn [negb]. unfold register. cbn [methods_ set_field].
  by rewrite Hp, find_set_eq.
Qed.

(** A streaming handler that throws ends its call with the status OK. *)
Lemma stream_exception_is_ok ops what sid :
  end_stream_handler ops (Raises what) (writer_new sid) =
  end_stream_handler ops (Returns tt) (writer_new sid).
Proof. done. Qed.

(** ** Properties *)

(** C2: a unary call over a whole exchange, however the transport cuts what the
    two sides write.  The server runs the interceptors and the handler of the
    call's path on the message and the metadata of the client, and the call
    returns the status they have given with the message, or the status alone
    when it is an error; unknown methods, refusals of interceptors and exceptions
    of handlers are such statuses.  The client and the server may be gRPC or
    fRPC, each.  One case goes wrong: an empty message with
    status OK reaches the caller as the error INTERNAL, with the text of the client's
    protocol. *)
Theorem grpc_unary_call (FC FS : Flavour) `{HC : HeaderCodec E D} (ch : channel E D) (s : session E D)
    (sv : grpc_server) (service method data : bytes) (md : metadata) (st : status) (out : bytes)
    (ctx : call_context) (sid : Z) (up : list bytes) :
  let r := unary_request (FC := FC) (host_ ch) service method data md in
  let p := next_promise ch in
  connected_ ch = true -> asking r p sid (with_promise ch) ->
  grpc_serving (FS := FS) sv sid s -> not_streaming sv (make_path service method) ->
  avoids [str "content-type"] md ->
  dispatch sv (make_path service method) data
    (new_context (extract_from_headers (rq_hdrs (received_request r)))) = Ok (st, out, ctx) ->
  unary_answerable (FS := FS) s st out (response_metadata ctx) ->
  exists ch1, unary_call (FL := FC) service method data md ch = Ok (inr (sid, p), ch1) /\
    (concat up = output_buf_ (h2_ ch1) ->
     exists s1, snd <$> feed_list frame_reader_init s up = Ok s1 /\
       forall down, concat down = output_buf_ s1 ->
       exists c2 pr, snd <$> feed_list frame_reader_init (h2_ ch1) down = Ok c2 /\
         heap_ c2 !! p = Some pr /\ pr_complete pr = true /\
         call_result (FL := FC) pr = Ok (unary_outcome (FC := FC) st out)).
Proof. apply unary_exchange. Qed.

(** A method that answers with the tenant of the metadata and the message. *)
Definition tenant_handler (data : bytes) (ctx : call_context) : task bytes * call_context :=
  (Returns (default [] (map_find (str "tenant") (initial_metadata ctx)) ++ str ":" ++ data),
   {| initial_metadata := initial_metadata ctx; response_metadata := [(str "served-by", str "a")] |}).

Definition allow_all : interceptor_fn := fun _ _ out => (Returns true, out).

Definition test_grpc_server : grpc_server :=
  add_interceptor allow_all
    (register (str "Echo") (str "Say") (UnaryCtx tenant_handler) new_grpc_server).

Definition test_channel : channel hpack_encoder hpack_decoder :=
  {| host_ := str "example.com"; connected_ := true; h2_ := quiet_client |}.

Definition test_grpc_session : session hpack_encoder hpack_decoder :=
  prefaced ((get_pending_output (test_session server)).2 <| hooks_ := grpc_handlers (FL := grpc_flavour) test_grpc_server |>).

Definition test_call : outcome ((status * bytes + Z * nat) * channel hpack_encoder hpack_decoder) :=
  unary_call (FL := grpc_flavour) (str "Echo") (str "Say") (str "hi") [(str "tenant", str "t1")] test_channel.

Definition test_call_up : list bytes :=
  match test_call with Ok (_, ch1) => bytewise (h2_ ch1) | _ => [] end.

Lemma grpc_unary_call_witness :
  exists ch1 s1 c2 pr, test_call = Ok (inr (1, 1%nat), ch1) /\
    snd <$> feed_list frame_reader_init test_grpc_session test_call_up = Ok s1 /\
    snd <$> feed_list frame_reader_init (h2_ ch1) (bytewise s1) = Ok c2 /\
    heap_ c2 !! 1%nat = Some pr /\
    call_result (FL := grpc_flavour) pr = Ok (status_of grpc_status.ok [], str "t1:hi").
Proof.
  destruct (grpc_unary_call grpc_flavour grpc_flavour test_channel test_grpc_session test_grpc_server (str "Echo") (str "Say")
    (str "hi") [(str "tenant", str "t1")] (status_of grpc_status.ok []) (str "t1:hi")
    {| initial_metadata := [(str "Host", str "example.com"); (str "tenant", str "t1")];
       response_metadata := [(str "served-by", str "a")] |} 1 test_call_up)
    as (ch1 & Ec & Hx).
  - done.
  - split; [done|done|done|done|by vm_compute|by vm_compute|done|by exists new_promise|
      by vm_compute|by vm_compute|].
    split; [repeat constructor; done| | |by vm_compute|by vm_compute].
    + apply (bool_decide_unpack _). vm_compute. exact I.
    + apply (bool_decide_unpack (Forall Hpack.header_ok _)). vm_compute. exact I.
  - split; [split|exact eq_refl|exact eq_refl|by vm_compute|by vm_compute];
      first [exact eq_refl | by vm_compute].
  - intros e [= <-]. exact eq_refl.
  - repeat constructor; by vm_compute.
  - by vm_compute.
  - split; [by vm_compute|by vm_compute|repeat constructor; by vm_compute|].
    split; [repeat constructor; done|by vm_compute|repeat constructor; done| | |by vm_compute..].
    + apply (bool_decide_unpack (Forall Hpack.header_ok _)). vm_compute. exact I.
    + apply (bool_decide_unpack (Forall Hpack.header_ok _)). vm_compute. exact I.
  - destruct Hx as (s1 & Hs1 & Hdown).
    { unfold test_call_up, test_call. rewrite Ec. apply concat_bytewise. }
    destruct (Hdown (bytewise s1) (concat_bytewise s1)) as (c2 & pr & Hc2 & Hp & _ & Hr).
    exists ch1, s1, c2, pr. exact (conj Ec (conj Hs1 (conj Hc2 (conj Hp Hr)))).
Defined.
