(* ===== verification/Frpc.v ===== *)
(** * fRPC (src/src/frpc/, src/include/async_net/frpc/)

    The server and the channel of fRPC are those of gRPC, statement by statement,
    with another content type and other texts (the class [Flavour] of Grpc.v):
    here are their operations at this flavour, named as in their files, and a
    unary call of theirs. *)
From S2P Require Import Prelude Framing HeaderTable Hpack H2Frame CppString CppMap HttpTypes Transport H2Session H2SessionFacts H2Delivery Grpc HttpServer GrpcServer GrpcChannel GrpcCalls.
From stdpp Require Import options.

Definition frpc_flavour : Flavour := {|
  content_type := str "application/grpc+flatbuffers";
  not_rpc_text := str "Not a gRPC/FRPC request";
  needs_post_text := str "RPC requires POST method";
  invalid_frame_text := str "Invalid RPC frame";
  invalid_response_text := str "Invalid FRPC response frame";
  content_type_prefix := eq_refl
|}.

(** ** frpc_server.cpp *)
Module Server.
#[local] Existing Instance frpc_flavour.

Definition register_method (service method : bytes) (h : method_handler) (sv : grpc_server)
  : grpc_server := register service method (Unary h) sv.
Definition register_method_ctx (service method : bytes) (h : method_handler_with_context)
    (sv : grpc_server) : grpc_server := register service method (UnaryCtx h) sv.
Definition register_server_stream (service method : bytes) (h : server_stream_handler)
    (sv : grpc_server) : grpc_server := register service method (ServerStream h) sv.
Definition register_server_stream_ctx (service method : bytes)
    (h : server_stream_handler_with_context) (sv : grpc_server) : grpc_server :=
  register service method (ServerStreamCtx h) sv.
Definition register_client_stream (service method : bytes) (h : client_stream_handler)
    (sv : grpc_server) : grpc_server := register service method (ClientStream h) sv.
Definition register_client_stream_ctx (service method : bytes)
    (h : client_stream_handler_with_context) (sv : grpc_server) : grpc_server :=
  register service method (ClientStreamCtx h) sv.
Definition register_bidi_stream (service method : bytes) (h : bidi_stream_handler)
    (sv : grpc_server) : grpc_server := register service method (BidiStream h) sv.
Definition register_bidi_stream_ctx (service method : bytes)
    (h : bidi_stream_handler_with_context) (sv : grpc_server) : grpc_server :=
  register service method (BidiStreamCtx h) sv.
Definition add_interceptor : interceptor_fn -> grpc_server -> grpc_server :=
  GrpcServer.add_interceptor.
Definition stop : grpc_server -> grpc_server := grpc_stop.
Definition finish_writer : writer -> writer * list api_call := GrpcServer.finish_writer.

Definition dispatch (sv : grpc_server) (path data : bytes) (ctx : call_context)
  : outcome (status * bytes * call_context) := GrpcServer.dispatch sv path data ctx.

(** The request handler and the request start handler of a connection. *)
Definition request_handler (sv : grpc_server) (req : request) : outcome response :=
  unary_handler sv req.
Definition request_start_handler (sv : grpc_server) (sid : Z) (req : request) (end_stream : bool)
  : outcome (bool * list api_call) := start_handler sv sid req end_stream.

Section Connection.
Context `{HC : HeaderCodec E D} `{BS : ByteStream W}.

Definition handle_connection (turns : nat) (sv : grpc_server) (s : session E D) (w : W)
  : outcome (option (frame_reader * session E D) * W) :=
  GrpcServer.handle_connection turns sv s w.

Definition handle_tls_connection (hs : Z) (turns : nat) (sv : grpc_server) (s : session E D) (w : W)
  : outcome (option (frame_reader * session E D) * W) :=
  GrpcServer.handle_tls_connection hs turns sv s w.
End Connection.
End Server.

(** ** frpc_channel.cpp *)
Module Channel.
#[local] Existing Instance frpc_flavour.

Definition make_frpc_request (host path body_data : bytes) : request :=
  make_grpc_request host path body_data.

Definition extract_frpc_status (r : response) : status := extract_grpc_status r.

Section Channel.
Context `{HC : HeaderCodec E D} `{BS : ByteStream W}.

Definition connect (err : Z) (ch : channel E D) (w : W) : bool * channel E D * W :=
  GrpcChannel.connect err ch w.

Definition read_loop (turns : nat) (r : frame_reader) (ch : channel E D) (w : W)
  : outcome (channel E D * W) := GrpcChannel.read_loop turns r ch w.

Definition unary_call (service method request_data : bytes) (md : metadata) (ch : channel E D)
  : outcome ((status * bytes + Z * nat) * channel E D) :=
  GrpcChannel.unary_call service method request_data md ch.

Definition unary_result (pr : response_promise) : outcome (status * bytes) := call_result pr.

Definition server_stream_call (service method request_data : bytes) (on_message : bool)
    (ch : channel E D) : outcome ((status + Z * nat) * channel E D) :=
  GrpcChannel.server_stream_call service method request_data on_message ch.

Definition client_stream_call (service method : bytes) (ch : channel E D)
  : outcome (option (writer * nat) * channel E D) :=
  GrpcChannel.client_stream_call service method ch.

Definition bidi_stream_call (service method : bytes) (ch : channel E D)
  : outcome (option writer * channel E D) := GrpcChannel.bidi_stream_call service method ch.

Definition close (ch : channel E D) : channel E D := GrpcChannel.close ch.
End Channel.
End Channel.

(** ** Properties *)

(** An fRPC channel and an fRPC server: the call returns what the server's
    [dispatch] has given. *)
Lemma frpc_unary_call `{HC : HeaderCodec E D} (ch : channel E D) (s : session E D)
    (sv : grpc_server) (service method data : bytes) (md : metadata) (st : status) (out : bytes)
    (ctx : call_context) (sid : Z) (up : list bytes) :
  let r := unary_request (FC := frpc_flavour) (host_ ch) service method data md in
  let p := next_promise ch in
  connected_ ch = true -> asking r p sid (with_promise ch) ->
  grpc_serving (FS := frpc_flavour) sv sid s -> not_streaming sv (make_path service method) ->
  avoids [str "content-type"] md ->
  Server.dispatch sv (make_path service method) data
    (new_context (extract_from_headers (rq_hdrs (received_request r)))) = Ok (st, out, ctx) ->
  unary_answerable (FS := frpc_flavour) s st out (response_metadata ctx) ->
  exists ch1, Channel.unary_call service method data md ch = Ok (inr (sid, p), ch1) /\
    (concat up = output_buf_ (h2_ ch1) ->
     exists s1, snd <$> feed_list frame_reader_init s up = Ok s1 /\
       forall down, concat down = output_buf_ s1 ->
       exists c2 pr, snd <$> feed_list frame_reader_init (h2_ ch1) down = Ok c2 /\
         heap_ c2 !! p = Some pr /\ pr_complete pr = true /\
         Channel.unary_result pr = Ok (unary_outcome (FC := frpc_flavour) st out)).
Proof. apply (unary_exchange (FC := frpc_flavour) (FS := frpc_flavour)). Qed.
