(* ===== verification/P2p.v ===== *)
(** * Peer to peer (include/async_net/p2p/peer.hpp, src/src/p2p)

    The message format of peer.hpp, [peer_connection::send] and [receive] over a
    DTLS stream, the tracker's registry with its text protocol
    (tracker_server.cpp) and the client of that protocol (tracker_client.cpp).
    What a DTLS stream or a socket answers to each call is an argument; times are
    integers. *)
From S2P Require Import Prelude CppString CppStream CppMap.
From stdpp Require Import options.

(** ** Messages *)

Module msg_type.
Definition ping : Z := 1.
Definition pong : Z := 2.
Definition handshake : Z := 3.
Definition data : Z := 4.
Definition bye : Z := 5.
End msg_type.

(** [type] holds any byte: the code casts it. *)
Record peer_message := { pm_type : Z; pm_payload : bytes }.

Definition serialize (m : peer_message) : bytes :=
  b8 (pm_type m) :: be32 (u32 (len (pm_payload m))) ++ pm_payload m.

(** [5 + plen] is computed on [uint32_t]. *)
Definition deserialize (data : bytes) : outcome (option peer_message) :=
  if len data <? 5 then Ok None else
  let plen := rd32 data 1 in
  if len data <? u32 (5 + plen) then Ok None else
  payload ← rd_n (dropZ 5 data) plen;
  Ok (Some {| pm_type := u8 (byte_at data 0); pm_payload := payload |}).

Definition make_ping : peer_message := {| pm_type := msg_type.ping; pm_payload := [] |}.
Definition make_pong : peer_message := {| pm_type := msg_type.pong; pm_payload := [] |}.
Definition make_data (text : bytes) : peer_message :=
  {| pm_type := msg_type.data; pm_payload := text |}.
Definition make_bye : peer_message := {| pm_type := msg_type.bye; pm_payload := [] |}.

(** ** [peer_connection] *)

(** What a call of [dtls_->write] does: bytes taken, or it would block and the
    wait for the socket gives [ready], or it fails. *)
Inductive write_event := Wrote (n : Z) | WriteBlocked (ready : bool) | WriteFailed.

(** The loop of [send]: what has been written, and the result; [None] while it
    waits. *)
Fixpoint send_loop (es : list write_event) (wire sent : bytes) : bytes * option bool :=
  if len wire =? 0 then (sent, Some true) else
  match es with
  | [] => (sent, None)
  | Wrote n :: es => send_loop es (dropZ n wire) (sent ++ takeZ n wire)
  | WriteBlocked true :: es => send_loop es wire sent
  | WriteBlocked false :: _ => (sent, Some false)
  | WriteFailed :: _ => (sent, Some false)
  end.

Definition send (connected : bool) (es : list write_event) (data : bytes) : bytes * option bool :=
  if negb connected then ([], Some false)
  else send_loop es (serialize {| pm_type := msg_type.data; pm_payload := data |}) [].

(** A turn of [receive]: the wait times out, or the socket is ready and a
    datagram, nothing, or an error is read. *)
Inductive read_event := WaitTimeout | ReadData (d : bytes) | ReadNothing | ReadError.

(** The message and whether the connection stays; [None] while it waits. *)
Fixpoint receive_loop (es : list read_event) : option (outcome (option peer_message * bool)) :=
  match es with
  | [] => None
  | WaitTimeout :: _ => Some (Ok (None, false))
  | ReadData d :: _ => Some (m ← deserialize (takeZ 65536 d); Ok (m, true))
  | ReadNothing :: es => receive_loop es
  | ReadError :: _ => Some (Ok (None, false))
  end.

Definition receive (connected : bool) (es : list read_event)
  : option (outcome (option peer_message * bool)) :=
  if negb connected then Some (Ok (None, connected)) else receive_loop es.

(** ** Lines *)

(** [if (!line.empty() && line.back() == '\r') line.pop_back();] *)
Definition chomp (line : bytes) : bytes :=
  match rev line with
  | c :: t => if bool_decide (c = CR) then rev t else line
  | [] => line
  end.

(** [read_line] of the server ([limit] = 1024) and of the client (4096) on the
    bytes the socket gives before it closes: the line, and what is left.  A
    closed connection and a line that is too long give the empty line. *)
Fixpoint read_line_loop (limit : Z) (line s : bytes) : bytes * bytes :=
  if limit <=? len line then ([], s) else
  match s with
  | [] => ([], [])
  | c :: s =>
      if bool_decide (c = LF) then (chomp line, s) else read_line_loop limit (line ++ [c]) s
  end.

Definition read_line (limit : Z) (s : bytes) : bytes * bytes := read_line_loop limit [] s.

(** What [write_line] writes. *)
Definition written (line : bytes) : bytes := line ++ [LF].

(** ** The tracker *)

Record peer_info := {
  id : bytes;
  public_address : bytes;
  udp_port : Z;
  tcp_port : Z;
  last_seen : Z
}.

#[export] Instance peer_eta : Settable peer_info := fun p =>
  Build_peer_info (id p) (public_address p) (udp_port p) (tcp_port p) (last_seen p).

Definition peer_default : peer_info :=
  {| id := []; public_address := []; udp_port := 0; tcp_port := 0; last_seen := 0 |}.

Record tracker := {
  running_ : bool;
  peers_ : list (bytes * peer_info);
  connection_peers_ : list (Z * bytes);
  peer_timeout_ : Z
}.

#[export] Instance tracker_eta : Settable tracker := fun t =>
  Build_tracker (running_ t) (peers_ t) (connection_peers_ t) (peer_timeout_ t).

(** The locals of [handle_client]. *)
Record client := { fd : Z; client_ip : bytes; client_port : Z; peer_id : bytes }.

#[export] Instance client_eta : Settable client := fun c =>
  Build_client (fd c) (client_ip c) (client_port c) (peer_id c).

Definition new_tracker : tracker :=
  {| running_ := true; peers_ := []; connection_peers_ := []; peer_timeout_ := 60 |}.

Definition peers (t : tracker) : list peer_info := map snd (peers_ t).
Definition set_timeout (n : Z) (t : tracker) : tracker := t <| peer_timeout_ := n |>.
Definition stop (t : tracker) : tracker := t <| running_ := false |>.

Definition cleanup_stale_peers (now : Z) (t : tracker) : tracker :=
  t <| peers_ ::= map_erase_if (fun _ p => peer_timeout_ t <? now - last_seen p) |>.

Definition touch (now : Z) (p : peer_info) : peer_info := p <| last_seen := now |>.

(** The line of a peer in the answer to LIST. *)
Definition peer_line (p : peer_info) : bytes :=
  id p ++ [x20] ++ public_address p ++ [x20] ++ to_string (udp_port p).

Definition list_response (self : bytes) (ps : list peer_info) : bytes :=
  str "PEERS " ++ to_string (len ps) ++ [LF] ++
  concat (omap (fun p => if bool_decide (id p = self) then None else Some (peer_line p ++ [LF])) ps).

(** One command: the line written in answer, and [None] for QUIT. *)
Definition handle_register (now : Z) (i : istream) (c : client) (t : tracker)
  : tracker * client * bytes :=
  let '(pid, i) := extract_word i [] in
  let '(udp, i) := extract_u16 i 0 in
  let '(tcp, i) := extract_u16 i 0 in
  let tcp := match i with Some _ => tcp | None => 0 end in
  if bool_decide (pid = []) || (udp =? 0) then (t, c, str "ERROR invalid REGISTER format") else
  let info := {| id := pid; public_address := client_ip c; udp_port := udp; tcp_port := tcp;
                 last_seen := now |} in
  (t <| peers_ ::= map_set pid info |> <| connection_peers_ ::= map_set (fd c) pid |>,
   c <| peer_id := pid |>,
   str "OK " ++ client_ip c ++ str ":" ++ to_string (client_port c)).

Definition handle_list (now : Z) (c : client) (t : tracker) : tracker * bytes :=
  let t := t <| peers_ ::= map_update (touch now) |> in (t, list_response (peer_id c) (peers t)).

Definition handle_ping (now : Z) (c : client) (t : tracker) : tracker :=
  if bool_decide (peer_id c = []) then t else
  match map_find (peer_id c) (peers_ t) with
  | Some p => t <| peers_ ::= map_set (peer_id c) (touch now p) |>
  | None => t
  end.

(** The body of the loop of [handle_client] on a line that is not empty: the
    line written in answer, [None] when the loop is left. *)
Definition handle_line (now : Z) (line : bytes) (c : client) (t : tracker)
  : tracker * client * option bytes :=
  let '(cmd, i) := extract_word (istringstream line) [] in
  if bool_decide (cmd = str "REGISTER") then
    let '(t, c, answer) := handle_register now i c t in (t, c, Some answer)
  else if bool_decide (cmd = str "LIST") then
    let '(t, answer) := handle_list now c t in (t, c, Some answer)
  else if bool_decide (cmd = str "PING") then (handle_ping now c t, c, Some (str "PONG"))
  else if bool_decide (cmd = str "QUIT") then (t, c, None)
  else (t, c, Some (str "ERROR unknown command")).

(** After the loop. *)
Definition end_client (c : client) (t : tracker) : tracker :=
  if bool_decide (peer_id c = []) then t
  else t <| peers_ ::= map_erase (peer_id c) |> <| connection_peers_ ::= map_erase (fd c) |>.

(** [handle_client] on what its socket gives before it closes, undisturbed;
    every line takes a byte, so [length s + 1] units of fuel are enough. *)
Fixpoint serve_client (fuel : nat) (now : Z) (s : bytes) (c : client) (t : tracker)
  : tracker * bytes :=
  match fuel with
  | O => (t, [])
  | S fuel =>
      if negb (running_ t) then (end_client c t, []) else
      let '(line, s) := read_line 1024 s in
      if bool_decide (line = []) then (end_client c t, []) else
      match handle_line now line c t with
      | (t, c, None) => (end_client c t, [])
      | (t, c, Some answer) =>
          let '(t, out) := serve_client fuel now s c t in (t, written answer ++ out)
      end
  end.

(** ** The tracker's clients, interleaved *)

Inductive event :=
| Accept (fd : Z) (ip : bytes) (port : Z)
| Line (now fd : Z) (line : bytes)
| Closed (fd : Z)
| Cleanup (now : Z)
| Stop.

(** The tracker and the coroutines of its clients. *)
Definition world : Type := tracker * list (Z * client).

Definition step (e : event) (w : world) : world :=
  let '(t, cs) := w in
  match e with
  | Accept fd ip port =>
      if negb (running_ t) then w else
      match map_find fd cs with
      | Some _ => w
      | None => (t, map_set fd {| fd := fd; client_ip := ip; client_port := port; peer_id := [] |} cs)
      end
  | Line now fd line =>
      match map_find fd cs with
      | None => w
      | Some c =>
          if bool_decide (line = []) then (end_client c t, map_erase fd cs) else
          match handle_line now line c t with
          | (t, c, Some _) =>
              let cs := map_set fd c cs in
              if running_ t then (t, cs) else (end_client c t, map_erase fd cs)
          | (t, c, None) => (end_client c t, map_erase fd cs)
          end
      end
  | Closed fd =>
      match map_find fd cs with
      | None => w
      | Some c => (end_client c t, map_erase fd cs)
      end
  | Cleanup now => (cleanup_stale_peers now t, cs)
  | Stop => (stop t, cs)
  end.

(** ** The client *)

Record tracker_client := { my_id_ : bytes; public_endpoint_ : bytes; connected_ : bool }.

#[export] Instance tclient_eta : Settable tracker_client := fun c =>
  Build_tracker_client (my_id_ c) (public_endpoint_ c) (connected_ c).

Definition new_client : tracker_client :=
  {| my_id_ := []; public_endpoint_ := []; connected_ := false |}.

(** [read_line]: an end of the connection is noted. *)
Fixpoint closed_before_line (limit : Z) (n : Z) (s : bytes) : bool :=
  if limit <=? n then false else
  match s with
  | [] => true
  | c :: s => if bool_decide (c = LF) then false else closed_before_line limit (n + 1) s
  end.

Definition client_read_line (s : bytes) (c : tracker_client) : bytes * bytes * tracker_client :=
  let '(line, rest) := read_line 4096 s in
  (line, rest, if closed_before_line 4096 0 s then c <| connected_ := false |> else c).

(** [connect] once the socket is connected, [s] being what the server sends:
    what is written, the result, and what is left of [s]. *)
Definition connect (pid : bytes) (local_udp_port : Z) (s : bytes) (c : tracker_client)
  : bytes * bool * bytes * tracker_client :=
  let c := c <| my_id_ := pid |> in
  let out := written (str "REGISTER " ++ pid ++ [x20] ++ to_string local_udp_port) in
  let '(response, s, c) := client_read_line s c in
  if bool_decide (response = []) || negb (bool_decide (substr response 0 3 = str "OK ")) then
    (out, false, s, c)
  else (out, true, s, c <| public_endpoint_ := substr_from response 3 |> <| connected_ := true |>).

Definition parse_peer (line : bytes) : peer_info :=
  let '(pid, i) := extract_word (istringstream line) [] in
  let '(addr, i) := extract_word i [] in
  let '(port, _) := extract_u16 i 0 in
  {| id := pid; public_address := addr; udp_port := port; tcp_port := 0; last_seen := 0 |}.

Fixpoint list_loop (count : nat) (s : bytes) (c : tracker_client)
  : list peer_info * bytes * tracker_client :=
  match count with
  | O => ([], s, c)
  | S count =>
      let '(line, s, c) := client_read_line s c in
      if bool_decide (line = []) then ([], s, c) else
      let info := parse_peer line in
      let '(ps, s, c) := list_loop count s c in
      (if bool_decide (id info = []) then ps else info :: ps, s, c)
  end.

Definition list_peers (s : bytes) (c : tracker_client)
  : outcome (list peer_info * bytes * tracker_client) :=
  if negb (connected_ c) then Ok ([], s, c) else
  let '(header, s, c) := client_read_line s c in
  if bool_decide (header = []) || negb (bool_decide (substr header 0 6 = str "PEERS ")) then
    Ok ([], s, c)
  else
    count ← stoi (substr_from header 6);
    Ok (list_loop (Z.to_nat count) s c).

Definition ping (s : bytes) (c : tracker_client) : bool * bytes * tracker_client :=
  if negb (connected_ c) then (false, s, c) else
  let '(response, s, c) := client_read_line s c in
  (bool_decide (response = str "PONG"), s, c).

Definition disconnect (c : tracker_client) : option bytes * tracker_client :=
  if connected_ c then (Some (written (str "QUIT")), c <| connected_ := false |>) else (None, c).

(** ** Lemmas: messages *)

Lemma serialize_len m : len (serialize m) = 5 + len (pm_payload m).
Proof. unfold serialize. autorewrite with len. lia. Qed.

Lemma serialize_rd32 m rest : rd32 (serialize m ++ rest) 1 = u32 (len (pm_payload m)).
Proof.
  unfold serialize. cbn [app]. rewrite <- app_assoc.
  change (b8 (pm_type m) :: be32 (u32 (len (pm_payload m))) ++ pm_payload m ++ rest) with
    ([b8 (pm_type m)] ++ be32 (u32 (len (pm_payload m))) ++ pm_payload m ++ rest).
  rewrite rd32_shift by done. cbn [len length]. change (1 - len [b8 (pm_type m)]) with 0.
  rewrite rd32_be32. unfold u32. lia.
Qed.

Lemma deserialize_wire m rest :
  0 <= pm_type m < 256 -> len (pm_payload m) < 2 ^ 32 - 5 ->
  deserialize (serialize m ++ rest) = Ok (Some m).
Proof.
  intros Ht Hl. unfold deserialize. rewrite serialize_rd32, len_app, serialize_len.
  assert (0 <= len (pm_payload m)) by blia. assert (0 <= len rest) by blia.
  unfold u32. rewrite (Z.mod_small (len _)), Z.mod_small by lia.
  rewrite (proj2 (Z.ltb_ge _ 5)), (proj2 (Z.ltb_ge _ (5 + _))) by lia.
  assert (Hd : dropZ 5 (serialize m ++ rest) = pm_payload m ++ rest).
  { unfold serialize. cbn [app]. rewrite <- app_assoc.
    change (b8 (pm_type m) :: be32 (u32 (len (pm_payload m))) ++ pm_payload m ++ rest) with
      ((b8 (pm_type m) :: be32 (u32 (len (pm_payload m)))) ++ pm_payload m ++ rest).
    apply dropZ_app_len. autorewrite with len. lia. }
  rewrite Hd, rd_n_app. cbn [mbind outcome_bind].
  assert (Hb : u8 (byte_at (serialize m ++ rest) 0) = pm_type m).
  { rewrite byte_at_app_l by (rewrite serialize_len; lia). cbn. by apply u8_b8_small. }
  rewrite Hb. by destruct m.
Qed.

Lemma send_loop_sent es wire sent out :
  send_loop es wire sent = (out, Some true) -> out = sent ++ wire.
Proof.
  revert wire sent. induction es as [|e es IH]; intros wire sent; cbn [send_loop];
    destruct (Z.eqb_spec (len wire) 0) as [E|E].
  - apply len_zero_nil in E as ->. intros [= <-]. by rewrite app_nil_r.
  - done.
  - apply len_zero_nil in E as ->. intros [= <-]. by rewrite app_nil_r.
  - destruct e as [n|[]|]; [|auto|done|done]. intros H%IH. by rewrite H, <- app_assoc, takeZ_dropZ.
Qed.

Lemma receive_waits k es : receive_loop (repeat ReadNothing k ++ es) = receive_loop es.
Proof. by induction k. Qed.

(** ** Lemmas: lines *)

Lemma read_line_loop_app limit line s rest :
  LF ∉ s -> len line + len s < limit ->
  read_line_loop limit line (s ++ LF :: rest) = (chomp (line ++ s), rest).
Proof.
  revert line. induction s as [|c s IH]; intros line Hs Hl; cbn [app read_line_loop].
  - rewrite (proj2 (Z.leb_gt _ _)) by blia. by rewrite app_nil_r.
  - rewrite (proj2 (Z.leb_gt _ _)) by blia.
    rewrite bool_decide_eq_false_2 by (intros ->; apply Hs; by left).
    rewrite IH; [by rewrite <- app_assoc| |blia]. intros Hin. apply Hs. by right.
Qed.

Lemma read_line_app limit s rest :
  LF ∉ s -> len s < limit -> read_line limit (s ++ LF :: rest) = (chomp s, rest).
Proof. intros. by apply read_line_loop_app. Qed.

Lemma chomp_other s c : c <> CR -> chomp (s ++ [c]) = s ++ [c].
Proof. intros Hc. unfold chomp. rewrite rev_unit. by rewrite bool_decide_eq_false_2. Qed.

Lemma closed_app limit n s rest :
  LF ∉ s -> closed_before_line limit n (s ++ LF :: rest) = false.
Proof.
  revert n. induction s as [|c s IH]; intros n Hs; cbn; destruct (_ <=? _); try done.
  rewrite bool_decide_eq_false_2 by (intros ->; apply Hs; by left). apply IH.
  intros Hin. apply Hs. by right.
Qed.

Lemma client_read_line_app s c rest tc :
  LF ∉ s -> c <> LF -> c <> CR -> len s + 1 < 4096 ->
  client_read_line (s ++ [c] ++ LF :: rest) tc = (s ++ [c], rest, tc).
Proof.
  intros Hs Hc Hc' Hl. unfold client_read_line. rewrite app_assoc.
  assert (Hs' : LF ∉ s ++ [c]).
  { intros [?|?%list_elem_of_singleton]%elem_of_app; congruence. }
  rewrite read_line_app, chomp_other by (done || blia). by rewrite closed_app.
Qed.

Lemma client_read_blank rest tc : client_read_line (LF :: rest) tc = ([], rest, tc).
Proof. done. Qed.

(** Words hold no line end. *)
Lemma word_no_lf w : Forall (fun c => is_space c = false) w -> LF ∉ w.
Proof.
  intros Hw Hin. rewrite Forall_forall in Hw. specialize (Hw _ Hin). done.
Qed.

(** A number ends in a digit, which is no line end. *)
Lemma to_string_split v :
  0 <= v < 2 ^ 64 -> exists s c, to_string v = s ++ [c] /\ (LF ∉ s) /\ c <> LF /\ c <> CR.
Proof.
  intros Hv. destruct (to_string_scan v [] Hv) as [_ Hp]; [done|].
  pose proof (fun c => to_string_digits v c (proj1 Hv)) as Hd.
  destruct (exists_last (l := to_string v)) as (s & c & Hs); [intros Hn; by rewrite Hn in Hp|].
  exists s, c. split; [done|]. rewrite Hs in Hd.
  assert (Hne : forall d, d ∈ s ++ [c] -> d <> LF /\ d <> CR).
  { intros d Hin. specialize (Hd d Hin). split; intros ->; vm_compute in Hd; by destruct Hd. }
  split; [|apply Hne, elem_of_app; right; by left].
  intros Hin. by destruct (Hne LF); [apply elem_of_app; by left|].
Qed.

(** ** The registry *)

Definition peer_ok (kv : bytes * peer_info) : Prop :=
  let p := kv.2 in
  id p = kv.1 /\ is_word (id p) /\ len (id p) <= 1024 /\
  is_word (public_address p) /\ len (public_address p) <= 45 /\
  1 <= udp_port p <= 65535 /\ 0 <= tcp_port p <= 65535.

Definition client_ok (kc : Z * client) : Prop :=
  let c := kc.2 in
  fd c = kc.1 /\ is_word (client_ip c) /\ len (client_ip c) <= 45 /\
  (peer_id c = [] \/ is_word (peer_id c)).

(** The connections with a registered peer, as the tracker and as its coroutines
    know them. *)
Definition registered_as (cs : list (Z * client)) (fd : Z) : option bytes :=
  c ← map_find fd cs; if bool_decide (peer_id c = []) then None else Some (peer_id c).

Record well_formed (w : world) : Prop := {
  wf_order : in_order (peers_ w.1);
  wf_peers : Forall peer_ok (peers_ w.1);
  wf_conn_order : in_order (connection_peers_ w.1);
  wf_conn : forall fd, map_find fd (connection_peers_ w.1) = registered_as w.2 fd;
  wf_clients_order : in_order w.2;
  wf_clients : Forall client_ok w.2
}.

Definition event_ok (e : event) : Prop :=
  match e with
  | Accept _ ip _ => is_word ip /\ len ip <= 45
  | Line _ _ line => len line < 1024
  | _ => True
  end.

(** What the words of a line can be. *)
Lemma register_info now i c t t' c' answer :
  (i = None \/ exists s, i = Some s /\ len s <= 1024) ->
  handle_register now i c t = (t', c', answer) ->
  (t' = t /\ c' = c) \/
  exists pid udp tcp, is_word pid /\ len pid <= 1024 /\ 1 <= udp <= 65535 /\ 0 <= tcp <= 65535 /\
    c' = c <| peer_id := pid |> /\
    t' = t <| peers_ ::= map_set pid {| id := pid; public_address := client_ip c; udp_port := udp;
                                        tcp_port := tcp; last_seen := now |} |>
           <| connection_peers_ ::= map_set (fd c) pid |>.
Proof.
  intros Hi. unfold handle_register.
  destruct (extract_word i []) as [pid i1] eqn:E1.
  destruct (extract_u16 i1 0) as [udp i2] eqn:E2. destruct (extract_u16 i2 0) as [tcp i3] eqn:E3.
  apply extract_word_spec in E1. apply extract_unsigned_bounds in E2; [|lia..].
  apply extract_unsigned_bounds in E3; [|lia..].
  case_bool_decide as Ep; cbn [orb]; [intros [= <- <- _]; by left|].
  destruct (Z.eqb_spec udp 0); intros [= <- <- _]; [by left|]. right.
  destruct E1 as [->|(Hw & s' & Hs' & Hl)]; [done|].
  destruct Hi as [->|(s & -> & Hlen)]; [done|]. injection Hs' as <-.
  exists pid, udp, (match i3 with Some _ => tcp | None => 0 end).
  split_and!; try done; try lia; destruct i3; lia.
Qed.

Lemma skip_rest_len line cmd i :
  extract_word (istringstream line) [] = (cmd, i) ->
  i = None \/ exists s, i = Some s /\ len s <= len line.
Proof.
  unfold extract_word, istringstream. pose proof (skip_leading_len is_space line) as Hl.
  destruct (skip_leading is_space line) as [|c t]; [intros [= _ <-]; by left|].
  assert (Htw : forall s, len (take_word s).2 <= len s).
  { induction s as [|d s IH]; cbn [take_word]; [done|]. destruct (is_space d); cbn [snd]; [blia|].
    destruct (take_word s); cbn [snd] in *. blia. }
  specialize (Htw (c :: t)). destruct (take_word (c :: t)) as [w rest]. cbn [snd] in Htw.
  intros [= _ <-]. right. exists rest. split; [done|lia].
Qed.

Lemma registered_set cs k c j :
  registered_as (map_set k c cs) j =
  if decide (j = k) then (if bool_decide (peer_id c = []) then None else Some (peer_id c))
  else registered_as cs j.
Proof.
  unfold registered_as. destruct (decide (j = k)) as [->|Hne]; [by rewrite find_set_eq|].
  by rewrite find_set_ne.
Qed.

Lemma registered_erase cs k j :
  in_order cs -> registered_as (map_erase k cs) j = if decide (j = k) then None else registered_as cs j.
Proof.
  intros Ho. unfold registered_as. destruct (decide (j = k)) as [->|Hne]; [by rewrite find_erase_eq|].
  by rewrite find_erase_ne.
Qed.

Lemma find_client_ok w k c : well_formed w -> map_find k w.2 = Some c -> client_ok (k, c).
Proof.
  intros Hw Hf%find_In. pose proof (wf_clients _ Hw) as Hc. rewrite List.Forall_forall in Hc. by apply Hc.
Qed.

Lemma wf_end t cs k c :
  well_formed (t, cs) -> map_find k cs = Some c -> well_formed (end_client c t, map_erase k cs).
Proof.
  intros Hw Hf. pose proof (find_client_ok _ _ _ Hw Hf) as (Hfd & _). destruct Hw. cbn [fst snd] in *.
  assert (Hreg : registered_as cs k = if bool_decide (peer_id c = []) then None else Some (peer_id c)).
  { unfold registered_as. by rewrite Hf. }
  unfold end_client. case_bool_decide as Ep; split; cbn [fst snd peers_ connection_peers_ set_field];
    try done; try by apply order_erase. all: try by apply forall_erase.
  - intros j. rewrite registered_erase by done. destruct (decide (j = k)) as [->|]; [|auto].
    by rewrite wf_conn0, Hreg.
  - intros j. rewrite registered_erase by done. cbn [fd] in Hfd. rewrite Hfd.
    change (map_find j (map_erase k (connection_peers_ t)) =
      if decide (j = k) then None else registered_as cs j).
    destruct (decide (j = k)) as [->|Hne]; [by apply find_erase_eq|]. by rewrite find_erase_ne.
Qed.

(** Commands that leave the client and the connections alone. *)
Lemma wf_peers_only t cs k c f :
  well_formed (t, cs) -> map_find k cs = Some c ->
  in_order (f (peers_ t)) -> Forall peer_ok (f (peers_ t)) ->
  well_formed (t <| peers_ ::= f |>, map_set k c cs).
Proof.
  intros Hw Hf Ho Hp. pose proof (find_client_ok _ _ _ Hw Hf) as Hc. destruct Hw.
  split; [exact Ho|exact Hp|done| | |].
  - intros j. cbn [fst snd] in *. rewrite registered_set.
    destruct (decide (j = k)) as [->|]; [|apply wf_conn0].
    etransitivity; [exact (wf_conn0 k)|]. unfold registered_as. by rewrite Hf.
  - by apply order_set.
  - by apply forall_set.
Qed.

Lemma peer_ok_touch now k p : peer_ok (k, p) -> peer_ok (k, touch now p).
Proof. done. Qed.

Lemma wf_line t cs k c now line t' c' a :
  well_formed (t, cs) -> map_find k cs = Some c -> len line < 1024 ->
  handle_line now line c t = (t', c', a) ->
  well_formed (t', map_set k c' cs) /\ (a = None -> t' = t /\ c' = c).
Proof.
  intros Hw Hf Hl. pose proof (find_client_ok _ _ _ Hw Hf) as Hc. unfold handle_line.
  assert (Hid : well_formed (t, map_set k c cs)).
  { destruct Hw. assert (Ht : t = t <| peers_ ::= fun m => m |>) by by destruct t.
    rewrite Ht. apply wf_peers_only; [by split|done..]. }
  destruct (extract_word (istringstream line) []) as [cmd i] eqn:E.
  apply skip_rest_len in E. case_bool_decide.
  { destruct (handle_register now i c t) as [[t1 c1] ans] eqn:Er. intros [= <- <- <-]. split; [|done].
    apply register_info in Er as [[-> ->]|(pid & udp & tcp & Hp & Hpl & Hu & Htc & -> & ->)]; [done| |].
    2: { destruct E as [->|(s & -> & Hs)]; [by left|right; exists s; split; [done|lia]]. }
    destruct Hc as (Hfd & Hip & Hipl & _). destruct Hw. cbn [fst snd] in *. split; cbn [fst snd].
    - by apply order_set.
    - apply forall_set; [|done]. split_and!; cbn; done || lia.
    - by apply order_set.
    - intros j. rewrite registered_set. cbn [fd peer_id set_field] in *. rewrite Hfd.
      change (map_find j (map_set k pid (connection_peers_ t)) =
        if decide (j = k) then (if bool_decide (pid = []) then None else Some pid) else registered_as cs j).
      destruct (decide (j = k)) as [->|Hne].
      + rewrite find_set_eq. rewrite bool_decide_eq_false_2; [done|apply Hp].
      + by rewrite find_set_ne.
    - by apply order_set.
    - apply forall_set; [|done]. split_and!; cbn; auto. }
  case_bool_decide.
  { intros [= <- <- <-]. split; [|done]. destruct Hw. apply wf_peers_only; [by split|done|..].
    - by apply order_update.
    - apply forall_update; [|done]. intros. by apply peer_ok_touch. }
  case_bool_decide.
  { intros [= <- <- <-]. split; [|done]. unfold handle_ping. case_bool_decide; [done|].
    destruct (map_find (peer_id c) (peers_ t)) as [p|] eqn:Ep; [|done].
    destruct Hw. apply wf_peers_only; [by split|done|by apply order_set|].
    apply forall_set; [|done]. apply peer_ok_touch.
    apply find_In in Ep. cbn [fst] in *. rewrite List.Forall_forall in wf_peers0. by apply wf_peers0. }
  case_bool_decide; intros [= <- <- <-]; by split.
Qed.

Lemma wf_step e w : event_ok e -> well_formed w -> well_formed (step e w).
Proof.
  intros He Hw. destruct w as [t cs]. destruct e as [k ip port|now k line|k|now|]; cbn [step].
  - destruct (negb _); [done|]. destruct (map_find k cs) eqn:Ek; [done|]. destruct Hw. split; cbn [fst snd] in *; try done.
    + intros j. rewrite registered_set. cbn. destruct (decide (j = k)) as [->|]; [|auto].
      rewrite wf_conn0. unfold registered_as. by rewrite Ek.
    + by apply order_set.
    + destruct He. apply forall_set; [|done]. split_and!; cbn; auto.
  - destruct (map_find k cs) as [c|] eqn:Ek; [|done].
    case_bool_decide; [by apply wf_end|].
    destruct (handle_line now line c t) as [[t' c'] a] eqn:El.
    destruct (wf_line _ _ _ _ _ _ _ _ _ Hw Ek He El) as [Hw' Hq]. destruct a.
    { destruct (running_ t'); [done|]. apply wf_end; [done|apply find_set_eq]. }
    destruct (Hq eq_refl) as [-> ->]. by apply wf_end.
  - destruct (map_find k cs) as [c|] eqn:Ek; [by apply wf_end|done].
  - destruct Hw. split; cbn in *; try done; [by apply order_filter|by apply forall_filter].
  - by destruct Hw.
Qed.

Definition start : world := (new_tracker, []).

Definition run (es : list event) : world := foldl (fun w e => step e w) start es.

Lemma wf_start : well_formed start.
Proof. split; done. Qed.

Lemma wf_run es : Forall event_ok es -> well_formed (run es).
Proof.
  unfold run. generalize wf_start. generalize start. intros w Hw Hes. revert w Hw.
  induction Hes as [|e es He _ IH]; intros w Hw; cbn; [done|]. by apply IH, wf_step.
Qed.

(** ** Where a registration comes from

    What an observer of the tracker's events would note: the address of each
    connection that was accepted, and of each name the address of the connection
    that registered it last, with the ports of its line. *)

Definition register_of (line : bytes) : option (bytes * Z * Z) :=
  let '(cmd, i) := extract_word (istringstream line) [] in
  if negb (bool_decide (cmd = str "REGISTER")) then None else
  let '(pid, i) := extract_word i [] in
  let '(udp, i) := extract_u16 i 0 in
  let '(tcp, i) := extract_u16 i 0 in
  if bool_decide (pid = []) || (udp =? 0) then None
  else Some (pid, udp, match i with Some _ => tcp | None => 0 end).

Record notes := {
  accepted : list (Z * (bytes * Z));
  filed : list (bytes * (bytes * Z * Z))
}.

#[export] Instance notes_eta : Settable notes := fun n => Build_notes (accepted n) (filed n).

Definition note (w : world) (e : event) (n : notes) : notes :=
  match e with
  | Accept fd ip port =>
      if running_ w.1 && bool_decide (map_find fd w.2 = None) then n <| accepted ::= map_set fd (ip, port) |> else n
  | Line _ fd line =>
      match map_find fd w.2, map_find fd (accepted n), register_of line with
      | Some _, Some (ip, _), Some (pid, udp, tcp) => n <| filed ::= map_set pid (ip, udp, tcp) |>
      | _, _, _ => n
      end
  | _ => n
  end.

Definition noted (es : list event) : world * notes :=
  foldl (fun wn e => (step e wn.1, note wn.1 e wn.2)) (start, {| accepted := []; filed := [] |}) es.

(** The connections have the addresses they were accepted with, and the peers
    those of the connections that registered them. *)
Record attributed (w : world) (n : notes) : Prop := {
  at_clients fd c : map_find fd w.2 = Some c -> map_find fd (accepted n) = Some (client_ip c, client_port c);
  at_peers k p : map_find k (peers_ w.1) = Some p ->
    map_find k (filed n) = Some (public_address p, udp_port p, tcp_port p)
}.

(** Every peer of the one is a peer of the other, with its address and ports. *)
Definition no_new_peers (t t' : tracker) : Prop :=
  forall k p', map_find k (peers_ t') = Some p' -> exists p, map_find k (peers_ t) = Some p /\
    public_address p' = public_address p /\ udp_port p' = udp_port p /\ tcp_port p' = tcp_port p.

Lemma no_new_refl t : no_new_peers t t.
Proof. intros k p H. by exists p. Qed.

Lemma end_client_peers c t : in_order (peers_ t) -> no_new_peers t (end_client c t).
Proof.
  intros Ho k p. unfold end_client. case_bool_decide; [by exists p|]. cbn [peers_ set_field].
  change (peers_ (_ <| connection_peers_ ::= _ |>)) with (map_erase (peer_id c) (peers_ t)).
  destruct (decide (k = peer_id c)) as [->|Hk]; [by rewrite find_erase_eq|]. rewrite find_erase_ne by done. by exists p.
Qed.

Lemma cleanup_peers now t : in_order (peers_ t) -> no_new_peers t (cleanup_stale_peers now t).
Proof.
  intros Ho k p. unfold cleanup_stale_peers, map_erase_if. cbn [peers_ set_field]. rewrite find_filter by done.
  destruct (map_find k (peers_ t)) as [q|]; [|done]. cbn. destruct (negb _); [|done]. intros [= <-]. by exists q.
Qed.

Lemma list_peers_kept now c t : no_new_peers t (handle_list now c t).1.
Proof.
  intros k p. unfold handle_list. cbn [fst peers_ set_field]. change (peers_ (t <| peers_ ::= ?f |>)) with (f (peers_ t)).
  rewrite find_update. destruct (map_find k (peers_ t)) as [q|]; [|done]. intros [= <-]. by exists q.
Qed.

Lemma ping_peers now c t : no_new_peers t (handle_ping now c t).
Proof.
  unfold handle_ping. case_bool_decide; [apply no_new_refl|].
  destruct (map_find (peer_id c) (peers_ t)) as [q|] eqn:Eq; [|apply no_new_refl]. intros k p.
  change (peers_ (t <| peers_ ::= ?f |>)) with (f (peers_ t)).
  destruct (decide (k = peer_id c)) as [->|Hk].
  - rewrite find_set_eq. intros [= <-]. by exists q.
  - rewrite find_set_ne by done. by exists p.
Qed.

Lemma line_registers now line c t t' c' a :
  handle_line now line c t = (t', c', a) ->
  client_ip c' = client_ip c /\ client_port c' = client_port c /\
  match register_of line with
  | Some (pid, udp, tcp) => peers_ t' = map_set pid {| id := pid; public_address := client_ip c;
      udp_port := udp; tcp_port := tcp; last_seen := now |} (peers_ t) /\ a <> None /\ running_ t' = running_ t
  | None => no_new_peers t t'
  end.
Proof.
  unfold handle_line, register_of. destruct (extract_word (istringstream line) []) as [cmd i].
  case_bool_decide; cbn [negb].
  { unfold handle_register. destruct (extract_word i []) as [pid i1]. destruct (extract_u16 i1 0) as [udp i2].
    destruct (extract_u16 i2 0) as [tcp i3]. destruct (_ || _); intros [= <- <- <-]; [|done].
    split; [done|]. split; [done|]. apply no_new_refl. }
  case_bool_decide; [pose proof (list_peers_kept now c t); destruct (handle_list now c t); by intros [= <- <- <-]|].
  case_bool_decide; [intros [= <- <- <-]; split; [done|]; split; [done|]; apply ping_peers|].
  case_bool_decide; intros [= <- <- <-]; split; try done; split; try done; apply no_new_refl.
Qed.

Lemma attributed_less w w' n :
  attributed w n -> no_new_peers w.1 w'.1 ->
  (forall fd c, map_find fd w'.2 = Some c -> map_find fd w.2 = Some c) -> attributed w' n.
Proof.
  intros [Hc Hp] Hn Hs. split; [by intros fd c ?%Hs%Hc|].
  intros k p (q & Hq & -> & -> & ->)%Hn. by apply Hp.
Qed.

Lemma erase_clients k (cs : list (Z * client)) fd c :
  in_order cs -> map_find fd (map_erase k cs) = Some c -> map_find fd cs = Some c.
Proof.
  intros Ho. destruct (decide (fd = k)) as [->|Hk]; [by rewrite find_erase_eq|]. by rewrite find_erase_ne.
Qed.

Lemma attributed_end k c t cs n :
  in_order (peers_ t) -> in_order cs -> attributed (t, cs) n -> attributed (end_client c t, map_erase k cs) n.
Proof.
  intros Ho Hc Ha. apply (attributed_less _ _ _ Ha); [by apply end_client_peers|]. intros fd c'. by apply erase_clients.
Qed.

(** A client that stays after its line, and what it has registered *)
Lemma attributed_line now k line c t cs t' c' a n :
  attributed (t, cs) n -> map_find k cs = Some c -> handle_line now line c t = (t', c', a) ->
  attributed (t', map_set k c' cs) (note (t, cs) (Line now k line) n).
Proof.
  intros [Hc Hp] Hk (Hip & Hport & Hr)%line_registers. cbn [note fst snd] in *. rewrite Hk, (Hc _ _ Hk).
  assert (forall fd d, map_find fd (map_set k c' cs) = Some d ->
    map_find fd (accepted n) = Some (client_ip d, client_port d)) as Hcl.
  { intros fd d. destruct (decide (fd = k)) as [->|Hne]; [|rewrite find_set_ne by done; apply Hc].
    rewrite find_set_eq. intros [= <-]. rewrite Hip, Hport. by apply Hc. }
  destruct (register_of line) as [[[pid udp] tcp]|].
  - destruct Hr as [Hr _]. split; [exact Hcl|]. cbn [fst]. rewrite Hr. intros j p.
    change (filed (n <| filed ::= ?f |>)) with (f (filed n)).
    destruct (decide (j = pid)) as [->|Hne]; [rewrite !find_set_eq; by intros [= <-]|].
    rewrite !find_set_ne by done. apply Hp.
  - split; [exact Hcl|]. intros j p (q & Hq & -> & -> & ->)%Hr. by apply Hp.
Qed.

Lemma attributed_step e w n :
  event_ok e -> well_formed w -> attributed w n -> attributed (step e w) (note w e n).
Proof.
  intros He Hw Ha. destruct w as [t cs]. destruct e as [k ip port|now k line|k|now|]; cbn [step].
  - cbn [note fst snd]. destruct (running_ t); cbn [negb andb]; [|done].
    destruct (map_find k cs) eqn:Ek; [by rewrite bool_decide_false|]. rewrite bool_decide_true by done.
    destruct Ha as [Hc Hp]. split; [|exact Hp]. intros fd c. cbn [snd].
    change (accepted (n <| accepted ::= ?f |>)) with (f (accepted n)).
    destruct (decide (fd = k)) as [->|Hne]; [rewrite !find_set_eq; by intros [= <-]|].
    rewrite !find_set_ne by done. apply Hc.
  - destruct (map_find k cs) as [c|] eqn:Ek; [|cbn [note fst snd]; by rewrite Ek].
    case_bool_decide as El.
    { subst line. cbn [note fst snd]. rewrite Ek. change (register_of []) with (@None (bytes * Z * Z)).
      assert (attributed (end_client c t, map_erase k cs) n) by (apply attributed_end; [apply Hw..|done]).
      by destruct (map_find k (accepted n)) as [[? ?]|]. }
    destruct (handle_line now line c t) as [[t' c'] a] eqn:Eh.
    pose proof (attributed_line _ _ _ _ _ _ _ _ _ _ Ha Ek Eh) as Ha'.
    destruct (wf_line _ _ _ _ _ _ _ _ _ Hw Ek He Eh) as [Hw' Hq]. destruct a.
    { destruct (running_ t'); [done|]. apply attributed_end; [apply Hw'..|done]. }
    destruct (Hq eq_refl) as [-> ->].
    apply (attributed_less _ _ _ Ha'); [by apply end_client_peers, Hw|]. intros fd d Hd.
    cbn [snd] in *. destruct (decide (fd = k)) as [->|Hne].
    + by rewrite find_erase_eq in Hd by apply Hw.
    + rewrite find_erase_ne in Hd by done. by rewrite find_set_ne.
  - destruct (map_find k cs) as [c|] eqn:Ek; [|done]. apply attributed_end; [apply Hw..|done].
  - apply (attributed_less _ _ _ Ha); [by apply cleanup_peers, Hw|done].
  - apply (attributed_less _ (stop t, cs) _ Ha); [exact (no_new_refl t)|done].
Qed.

Lemma noted_run es : Forall event_ok es -> (noted es).1 = run es /\ attributed (run es) (noted es).2.
Proof.
  unfold noted, run. assert (attributed start {| accepted := []; filed := [] |}) as Ha by by split.
  revert Ha. generalize wf_start. generalize {| accepted := []; filed := [] |}. generalize start.
  intros w n Hw Ha Hes. revert w n Hw Ha.
  induction Hes as [|e es He _ IH]; intros w n Hw Ha; cbn [foldl fst snd]; [done|].
  apply IH; [by apply wf_step|by apply attributed_step].
Qed.

(** ** The answer to LIST, at the client *)

(** What a client learns of a peer. *)
Definition seen (p : peer_info) : peer_info :=
  {| id := id p; public_address := public_address p; udp_port := udp_port p; tcp_port := 0;
     last_seen := 0 |}.

Definition others (self : bytes) (ps : list peer_info) : list peer_info :=
  List.filter (fun p => negb (bool_decide (id p = self))) ps.

Lemma others_cons self p ps :
  others self (p :: ps) = if bool_decide (id p = self) then others self ps else p :: others self ps.
Proof. unfold others. cbn. by case_bool_decide. Qed.

Definition listable (p : peer_info) : Prop := exists k, peer_ok (k, p).

Lemma others_lines self ps :
  concat (omap (fun p => if bool_decide (id p = self) then None else Some (peer_line p ++ [LF])) ps) =
  concat (map (fun p => peer_line p ++ [LF]) (others self ps)).
Proof.
  induction ps as [|p ps IH]; cbn; [done|]. case_bool_decide; cbn; [done|]. by rewrite IH.
Qed.

Lemma parse_peer_line p : listable p -> parse_peer (peer_line p) = seen p.
Proof.
  intros (k & _ & Hid & _ & Ha & _ & Hu & _). cbn [snd] in *. unfold parse_peer, peer_line, istringstream.
  cbn [app]. rewrite extract_word_app by done. rewrite extract_word_blank, extract_word_app by done.
  unfold extract_u16. rewrite extract_unsigned_blank, extract_unsigned_to_string by lia. done.
Qed.

Lemma peer_line_split p :
  listable p -> exists s c, peer_line p = s ++ [c] /\ (LF ∉ s) /\ c <> LF /\ c <> CR /\ len s + 1 < 4096.
Proof.
  intros (k & _ & Hid & Hidl & Ha & Hal & Hu & _). cbn [snd] in *.
  destruct (to_string_split (udp_port p)) as (s & c & Hs & Hn & Hc & Hc'); [lia|].
  exists (id p ++ [x20] ++ public_address p ++ [x20] ++ s), c. unfold peer_line. rewrite Hs.
  split; [by rewrite <- !app_assoc|]. split.
  - rewrite !not_elem_of_app, !list_elem_of_singleton. split_and!; try done; apply word_no_lf; [apply Hid|apply Ha].
  - split; [done|]. split; [done|].
    assert (Hl : len (to_string (udp_port p)) <= 20).
    { unfold to_string. rewrite (proj2 (Z.ltb_ge _ 0)) by lia.
      unfold len. rewrite length_rev. pose proof (digits_rev_length 20 (udp_port p)). lia. }
    rewrite Hs in Hl. cbn in Hidl, Hal. autorewrite with len in *. cbn. lia.
Qed.

Lemma client_read_peer p rest tc :
  listable p -> client_read_line (peer_line p ++ LF :: rest) tc = (peer_line p, rest, tc).
Proof.
  intros Hp. destruct (peer_line_split p Hp) as (s & c & -> & Hs & Hc & Hc' & Hl).
  rewrite <- app_assoc. by apply client_read_line_app.
Qed.

Lemma peer_line_ne p : peer_line p <> [].
Proof. unfold peer_line. intros H%(f_equal len). autorewrite with len in H. blia. Qed.

Lemma list_loop_peers n ps rest tc :
  Forall listable ps ->
  list_loop (length ps + n) (concat (map (fun p => peer_line p ++ [LF]) ps) ++ rest) tc =
  let '(qs, rest, tc) := list_loop n rest tc in (map seen ps ++ qs, rest, tc).
Proof.
  induction 1 as [|p ps Hp _ IH]; cbn [length Nat.add map concat app list_loop].
  { by destruct (list_loop n rest tc) as [[? ?] ?]. }
  rewrite <- !app_assoc. cbn [app]. rewrite client_read_peer by done.
  rewrite bool_decide_eq_false_2 by apply peer_line_ne. rewrite IH.
  destruct (list_loop n rest tc) as [[qs r] c]. rewrite parse_peer_line by done.
  rewrite bool_decide_eq_false_2; [done|]. destruct Hp as (k & _ & [Hne _] & _). done.
Qed.

Lemma others_absent self (m : list (bytes * peer_info)) :
  Forall peer_ok m -> map_find self m = None -> others self (map snd m) = map snd m.
Proof.
  induction 1 as [|[k p] m [Hk _] _ IH]; [done|]. cbn [map snd map_find]. rewrite others_cons.
  destruct (decide (self = k)) as [|Hne]; [done|]. cbn in Hk.
  rewrite bool_decide_eq_false_2 by congruence. intros Hf. by rewrite IH.
Qed.

Lemma others_present self (m : list (bytes * peer_info)) p :
  in_order m -> Forall peer_ok m -> map_find self m = Some p ->
  S (length (others self (map snd m))) = length m.
Proof.
  intros Ho Hm. revert Ho. induction Hm as [|[k q] m [Hk _] Hm IH]; [done|]. intros [Hb Ho].
  cbn [map snd map_find length]. rewrite others_cons. cbn in Hk. destruct (decide (self = k)) as [Hs|Hne].
  - intros _. rewrite bool_decide_eq_true_2 by congruence. subst self.
    by rewrite others_absent, length_map by (done || by apply below_find).
  - intros Hf. rewrite bool_decide_eq_false_2 by congruence. cbn [length]. f_equal. by apply IH.
Qed.

Lemma others_listable self m : Forall peer_ok m -> Forall listable (others self (map snd m)).
Proof.
  induction 1 as [|[k p] m Hp _ IH]; [constructor|]. cbn [map snd]. rewrite others_cons.
  case_bool_decide; [done|]. constructor; [by exists k|done].
Qed.

Lemma seen_touch now self (m : list (bytes * peer_info)) :
  map seen (others self (map snd (map_update (touch now) m))) = map seen (others self (map snd m)).
Proof.
  induction m as [|[k p] m IH]; [done|]. cbn [map_update map snd fst]. rewrite !others_cons.
  change (id (touch now p)) with (id p). case_bool_decide; [done|]. cbn [map]. f_equal. exact IH.
Qed.

(** Reading the header of a list. *)
Lemma list_peers_header n s tc :
  0 <= n <= INT_MAX -> connected_ tc = true ->
  list_peers (str "PEERS " ++ to_string n ++ LF :: s) tc = Ok (list_loop (Z.to_nat n) s tc).
Proof.
  intros Hn Hc. unfold list_peers. rewrite Hc. cbn [negb]. unfold INT_MAX in Hn.
  destruct (to_string_split n) as (d & c & Hd & Hs & Hlf & Hcr); [lia|].
  assert (Hl : len (to_string n) <= 20).
  { unfold to_string. rewrite (proj2 (Z.ltb_ge _ 0)) by lia.
    unfold len. rewrite length_rev. pose proof (digits_rev_length 20 n). lia. }
  assert (Hr : client_read_line (str "PEERS " ++ to_string n ++ LF :: s) tc =
               (str "PEERS " ++ to_string n, s, tc)).
  { rewrite Hd, <- app_assoc, app_assoc, (app_assoc _ d). apply client_read_line_app; try done.
    - rewrite not_elem_of_app. split; [|done]. by apply (bool_decide_unpack _).
    - rewrite Hd in Hl. autorewrite with len in *. change (len (str "PEERS ")) with 6. blia. }
  rewrite Hr. rewrite bool_decide_eq_false_2 by done. cbn [orb].
  change (substr (str "PEERS " ++ to_string n) 0 6) with (str "PEERS ").
  rewrite bool_decide_eq_true_2 by done. cbn [negb].
  change (substr_from (str "PEERS " ++ to_string n) 6) with (to_string n).
  by rewrite stoi_to_string by (unfold INT_MAX; lia).
Qed.

Lemma list_exchange self now t cs rest tc :
  well_formed (t, cs) -> len (peers_ t) <= INT_MAX -> connected_ tc = true ->
  list_peers (written (list_response self (peers (t <| peers_ ::= map_update (touch now) |>))) ++ rest) tc =
  Ok (map seen (others self (peers t)),
      match map_find self (peers_ t) with Some _ => rest | None => LF :: rest end, tc).
Proof.
  intros [Ho Hp _ _ _ _] Hn Hc. cbn [fst] in *. set (m := map_update (touch now) (peers_ t)).
  change (peers (t <| peers_ ::= map_update (touch now) |>)) with (map snd m). unfold peers.
  rewrite <- (seen_touch now). fold m.
  assert (Hm : Forall peer_ok m) by (apply forall_update; [|done]; intros; by apply peer_ok_touch).
  assert (Hlen : len (map snd m) = len (peers_ t)).
  { unfold len, m, map_update. by rewrite !length_map. }
  unfold written, list_response. rewrite others_lines, <- !app_assoc. cbn [app]. rewrite Hlen.
  rewrite list_peers_header by (done || blia).
  assert (Hf : map_find self m = touch now <$> map_find self (peers_ t)) by apply find_update.
  assert (Hcount : Z.to_nat (len (peers_ t)) = length m).
  { unfold len. rewrite Nat2Z.id. unfold m, map_update. by rewrite length_map. }
  rewrite Hcount. destruct (map_find self (peers_ t)) as [p|]; cbn in Hf.
  - rewrite <- (others_present self m (touch now p)) by (done || by apply order_update).
    rewrite <- Nat.add_1_r, (list_loop_peers 1) by by apply others_listable.
    cbn [list_loop app]. rewrite client_read_blank. cbn. by rewrite app_nil_r.
  - assert (Ha : length m = (length (others self (map snd m)) + 0)%nat).
    { rewrite others_absent by done. rewrite length_map. lia. }
    rewrite Ha, (list_loop_peers 0) by by apply others_listable.
    cbn [list_loop]. by rewrite app_nil_r.
Qed.

(** ** Registration *)

Definition register_line (pid : bytes) (port : Z) : bytes :=
  str "REGISTER " ++ pid ++ [x20] ++ to_string port.

Lemma connect_writes pid port s tc :
  (connect pid port s tc).1.1.1 = written (register_line pid port).
Proof.
  unfold connect. destruct (client_read_line _ _) as [[response rest] c]. by destruct (_ || _).
Qed.

Lemma to_string_length v : 0 <= v -> len (to_string v) <= 20.
Proof.
  intros Hv. unfold to_string. rewrite (proj2 (Z.ltb_ge _ 0)) by lia.
  unfold len. rewrite length_rev. pose proof (digits_rev_length 20 v). lia.
Qed.

Lemma register_read pid port rest :
  is_word pid -> len pid <= 990 -> 1 <= port <= 65535 ->
  read_line 1024 (written (register_line pid port) ++ rest) = (register_line pid port, rest).
Proof.
  intros [_ Hp] Hpl Hport. destruct (to_string_split port) as (d & e & Hd & Hdn & He & He'); [lia|].
  assert (Hs : register_line pid port = (str "REGISTER " ++ pid ++ [x20] ++ d) ++ [e]).
  { unfold register_line. by rewrite Hd, <- !app_assoc. }
  assert (Hn : LF ∉ register_line pid port).
  { rewrite Hs. rewrite !not_elem_of_app, !list_elem_of_singleton.
    split_and!; try done; [by apply (bool_decide_unpack _)|by apply word_no_lf]. }
  assert (Hl : len (register_line pid port) < 1024).
  { unfold register_line. pose proof (to_string_length port ltac:(lia)). autorewrite with len.
    change (len (str "REGISTER ")) with 9. lia. }
  unfold written. rewrite <- app_assoc. cbn [app]. rewrite read_line_app by done.
  by rewrite Hs, chomp_other.
Qed.

Lemma handle_register_line now pid port c t :
  is_word pid -> 1 <= port <= 65535 ->
  handle_line now (register_line pid port) c t =
  (t <| peers_ ::= map_set pid {| id := pid; public_address := client_ip c; udp_port := port;
                                  tcp_port := 0; last_seen := now |} |>
     <| connection_peers_ ::= map_set (fd c) pid |>,
   c <| peer_id := pid |>, Some (str "OK " ++ client_ip c ++ str ":" ++ to_string (client_port c))).
Proof.
  intros Hp Hport. unfold handle_line, istringstream, register_line.
  change (str "REGISTER " ++ pid ++ [x20] ++ to_string port) with
    (str "REGISTER" ++ x20 :: (pid ++ x20 :: to_string port)).
  rewrite extract_word_app by by apply (bool_decide_unpack _).
  rewrite bool_decide_eq_true_2 by done. unfold handle_register.
  rewrite extract_word_blank, extract_word_app by done.
  unfold extract_u16. rewrite extract_unsigned_blank, extract_unsigned_to_string by lia.
  rewrite bool_decide_eq_false_2 by apply Hp. cbn [orb].
  by rewrite (proj2 (Z.eqb_neq port 0)) by lia.
Qed.

Lemma connect_reads pid port ip ip_port rest tc :
  is_word ip -> len ip <= 45 -> 0 <= ip_port < 65536 ->
  connect pid port (written (str "OK " ++ ip ++ str ":" ++ to_string ip_port) ++ rest) tc =
  (written (register_line pid port), true, rest,
   {| my_id_ := pid; public_endpoint_ := ip ++ str ":" ++ to_string ip_port; connected_ := true |}).
Proof.
  intros [_ Hip] Hipl Hport. unfold connect. fold (register_line pid port).
  destruct (to_string_split ip_port) as (d & e & Hd & Hdn & He & He'); [lia|].
  set (answer := str "OK " ++ ip ++ str ":" ++ to_string ip_port).
  assert (Hs : answer = (str "OK " ++ ip ++ str ":" ++ d) ++ [e]).
  { unfold answer. by rewrite Hd, <- !app_assoc. }
  set (tc1 := tc <| my_id_ := pid |>).
  assert (Hr : client_read_line (written answer ++ rest) tc1 = (answer, rest, tc1)).
  { unfold written. rewrite Hs, <- !(app_assoc _ [e]), <- app_assoc. apply client_read_line_app; try done.
    - rewrite !not_elem_of_app. split_and!; try done; [by apply (bool_decide_unpack _)|by apply word_no_lf|
        by apply (bool_decide_unpack _)].
    - pose proof (to_string_length ip_port ltac:(lia)) as Hl. rewrite Hd in Hl. autorewrite with len in *.
      change (len (str "OK ")) with 3. change (len (str ":")) with 1. blia. }
  rewrite Hr. rewrite bool_decide_eq_false_2 by done. cbn [orb].
  change (substr answer 0 3) with (str "OK "). by rewrite bool_decide_eq_true_2.
Qed.

(** ** Properties *)

(** C10: from an empty tracker, whatever its clients send, in whatever order their
    lines, disconnections and the cleanups come, the registry is well formed:
    ordered by the peers' names, which are single words, with ports in range; and
    the map from connections to names is exactly the names the live connections
    have registered last.  Each peer has the address that the connection which
    registered its name last was accepted with, and the ports of that
    connection's line. *)
Theorem tracker_well_formed (es : list event) :
  Forall event_ok es ->
  well_formed (run es) /\
  forall k p, map_find k (peers_ (run es).1) = Some p ->
    map_find k (filed (noted es).2) = Some (public_address p, udp_port p, tcp_port p).
Proof. intros Hes. split; [by apply wf_run|]. apply (noted_run es Hes). Qed.

Definition busy_morning : list event :=
  [Accept 7 (str "10.0.0.7") 4000; Accept 8 (str "10.0.0.8") 4001;
   Line 0 7 (str "REGISTER alice 5000"); Line 1 8 (str "REGISTER bob 70000 6000");
   Line 2 7 (str "REGISTER alicia 5001"); Line 3 7 (str "PING"); Cleanup 61].

Lemma tracker_well_formed_witness :
  well_formed (run busy_morning) /\ map id (peers (run busy_morning).1) = [str "alicia"; str "bob"] /\
  filed (noted busy_morning).2 =
    [(str "alice", (str "10.0.0.7", 5000, 0)); (str "alicia", (str "10.0.0.7", 5001, 0));
     (str "bob", (str "10.0.0.8", 65535, 0))] /\
  forall p, map_find (str "bob") (peers_ (run busy_morning).1) = Some p -> public_address p = str "10.0.0.8".
Proof.
  destruct (tracker_well_formed busy_morning) as [Hw Hf]; [repeat constructor; try (vm_compute; done)|].
  split; [exact Hw|]. split; [reflexivity|]. split; [reflexivity|]. intros p Hp.
  specialize (Hf _ _ Hp).
  change (map_find (str "bob") (filed (noted busy_morning).2)) with (Some (str "10.0.0.8", 65535, 0)) in Hf.
  by injection Hf.
Defined.

(** LIST, from the tracker to the client that asked.  In every reachable world
    the client reads exactly the other peers, in the tracker's order, with their
    names, addresses and UDP ports.  When the client's own name is registered it
    reads the whole answer; when it is not (it has been evicted, or it never
    registered), the last byte of the answer stays unread, and the next answer is
    read as an empty line. *)
Theorem tracker_list_exchange (es : list event) (now : Z) (c : client) (rest : bytes)
    (tc : tracker_client) :
  Forall event_ok es -> len (peers_ (run es).1) <= INT_MAX -> connected_ tc = true ->
  exists t answer,
    handle_line now (str "LIST") c (run es).1 = (t, c, Some answer) /\
    list_peers (written answer ++ rest) tc =
    Ok (map seen (others (peer_id c) (peers (run es).1)),
        match map_find (peer_id c) (peers_ (run es).1) with
        | Some _ => rest
        | None => LF :: rest
        end, tc).
Proof.
  intros Hes Hl Hc. pose proof (wf_run es Hes) as Hw. destruct (run es) as [t cs]. cbn [fst snd] in *.
  eexists _, _. split; [reflexivity|]. by apply (list_exchange (peer_id c) now t cs).
Qed.

Definition connected_client : tracker_client :=
  {| my_id_ := str "alicia"; public_endpoint_ := str "10.0.0.7:4000"; connected_ := true |}.

Lemma tracker_list_exchange_witness :
  match map_find 7 (run busy_morning).2 with
  | Some c =>
      exists t answer,
        handle_line 62 (str "LIST") c (run busy_morning).1 = (t, c, Some answer) /\
        list_peers (written answer ++ str "PONG") connected_client =
        Ok ([{| id := str "bob"; public_address := str "10.0.0.8"; udp_port := 65535; tcp_port := 0;
                last_seen := 0 |}], str "PONG", connected_client)
  | None => False
  end.
Proof.
  destruct (map_find 7 (run busy_morning).2) as [c|] eqn:Ec; [|vm_compute in Ec; discriminate].
  destruct (tracker_list_exchange busy_morning 62 c (str "PONG") connected_client) as (t & a & H1 & H2).
  - repeat constructor; vm_compute; done.
  - vm_compute. discriminate.
  - done.
  - exists t, a. split; [exact H1|]. rewrite H2. vm_compute in Ec. injection Ec as <-.
    vm_compute. reflexivity.
Defined.

(** Registration, from the client to the tracker and back.  The tracker reads
    the line the client writes, files the peer under its name with the address
    of the connection, and the client takes the public endpoint from the
    answer. *)
Theorem tracker_register_exchange (now : Z) (pid : bytes) (port : Z) (c : client) (t : tracker)
    (tc : tracker_client) (rest : bytes) :
  is_word pid -> len pid <= 990 -> 1 <= port <= 65535 ->
  is_word (client_ip c) -> len (client_ip c) <= 45 -> 0 <= client_port c < 65536 ->
  exists line t' answer,
    read_line 1024 ((connect pid port [] tc).1.1.1 ++ rest) = (line, rest) /\
    handle_line now line c t = (t', c <| peer_id := pid |>, Some answer) /\
    map_find pid (peers_ t') =
      Some {| id := pid; public_address := client_ip c; udp_port := port; tcp_port := 0;
              last_seen := now |} /\
    (forall other, other <> pid -> map_find other (peers_ t') = map_find other (peers_ t)) /\
    connect pid port (written answer ++ rest) tc =
      (written line, true, rest,
       {| my_id_ := pid; public_endpoint_ := client_ip c ++ str ":" ++ to_string (client_port c);
          connected_ := true |}).
Proof.
  intros Hp Hpl Hport Hip Hipl Hcp.
  pose proof (register_read pid port rest Hp Hpl Hport) as Hr. set (line := register_line pid port) in *.
  exists line. eexists _, _. rewrite connect_writes.
  split; [exact Hr|]. split; [by apply handle_register_line|]. split; [apply find_set_eq|].
  split; [intros; by apply find_set_ne|]. by apply connect_reads.
Qed.

Lemma tracker_register_exchange_witness :
  exists line t' answer,
    read_line 1024 ((connect (str "bob") 6000 [] new_client).1.1.1 ++ str "LIST") = (line, str "LIST") /\
    handle_line 5 line {| fd := 8; client_ip := str "10.0.0.8"; client_port := 4001; peer_id := [] |}
      (run busy_morning).1 =
      (t', {| fd := 8; client_ip := str "10.0.0.8"; client_port := 4001; peer_id := str "bob" |},
       Some answer) /\
    connect (str "bob") 6000 (written answer ++ str "LIST") new_client =
      (written line, true, str "LIST",
       {| my_id_ := str "bob"; public_endpoint_ := str "10.0.0.8:4001"; connected_ := true |}).
Proof.
  destruct (tracker_register_exchange 5 (str "bob") 6000
    {| fd := 8; client_ip := str "10.0.0.8"; client_port := 4001; peer_id := [] |}
    (run busy_morning).1 new_client (str "LIST")) as (line & t' & answer & H1 & H2 & _ & _ & H3).
  - by apply (bool_decide_unpack _).
  - done.
  - lia.
  - by apply (bool_decide_unpack _).
  - done.
  - cbn. lia.
  - by exists line, t', answer.
Defined.

(** Eviction.  A cleanup removes exactly the peers not seen for longer than the
    timeout and keeps the others as they are; but a LIST, from any client, counts
    as a sign of life of every peer: after it no peer is removed before the
    timeout has passed again, whatever the peers themselves have done. *)
Theorem tracker_eviction (es : list event) (now : Z) (k : bytes) :
  Forall event_ok es ->
  let t := (run es).1 in
  (map_find k (peers_ (cleanup_stale_peers now t)) =
   (p ← map_find k (peers_ t); if peer_timeout_ t <? now - last_seen p then None else Some p)) /\
  (forall c listed, now - listed <= peer_timeout_ t ->
   let t' := (handle_list listed c t).1 in cleanup_stale_peers now t' = t').
Proof.
  intros Hes t. pose proof (wf_order _ (wf_run es Hes)) as Ho. fold t in Ho. split.
  - unfold cleanup_stale_peers, map_erase_if. cbn [peers_ set_field]. rewrite find_filter by done.
    destruct (map_find k (peers_ t)) as [p|]; [|done]. cbn. by destruct (_ <? _).
  - intros c listed Hl t'. unfold cleanup_stale_peers. cbn [peers_ set_field].
    assert (Hm : forall m : list (bytes * peer_info), map_erase_if (fun _ p => peer_timeout_ t <? now - last_seen p)
                  (map_update (touch listed) m) = map_update (touch listed) m).
    { induction m as [|[j p] m IH]; [done|]. unfold map_erase_if in *. cbn.
      rewrite (proj2 (Z.ltb_ge _ _)) by done. cbn. f_equal. exact IH. }
    assert (Ht : forall u : tracker, peers_ u = map_update (touch listed) (peers_ t) ->
                 peer_timeout_ u = peer_timeout_ t ->
                 u <| peers_ ::= map_erase_if (fun _ p => peer_timeout_ u <? now - last_seen p) |> = u).
    { intros [r ps cp n]; cbn. intros -> ->.
      exact (f_equal (fun m => Build_tracker r m cp (peer_timeout_ t)) (Hm (peers_ t))). }
    by apply Ht.
Qed.

Lemma tracker_eviction_witness :
  map_find (str "bob") (peers_ (cleanup_stale_peers 100 (run busy_morning).1)) = None /\
  let t' := (handle_list 62 {| fd := 9; client_ip := []; client_port := 0; peer_id := [] |}
               (run busy_morning).1).1 in
  cleanup_stale_peers 100 t' = t'.
Proof.
  destruct (tracker_eviction busy_morning 100 (str "bob")) as [H1 H2].
  - repeat constructor; vm_compute; done.
  - split; [by rewrite H1|]. apply H2. vm_compute. discriminate.
Defined.

(** A message that [send] reports as sent is received.  Whatever mix of
    partial writes and waits the DTLS stream makes, a successful [send] has
    written the message's bytes; and [receive], given them in one datagram after
    any number of empty reads, returns the message and keeps the connection. *)
Theorem p2p_send_receive (data out : bytes) (ws : list write_event) (idle : nat) (more : list read_event) :
  len data + 5 <= 65536 ->
  send true ws data = (out, Some true) ->
  out = serialize (make_data data) /\
  receive true (repeat ReadNothing idle ++ ReadData out :: more) =
    Some (Ok (Some (make_data data), true)).
Proof.
  intros Hl Hs. unfold send in Hs. cbn [negb] in Hs. apply send_loop_sent in Hs as ->. cbn [app].
  split; [done|]. unfold receive. cbn [negb]. rewrite receive_waits. cbn [receive_loop].
  fold (make_data data). rewrite takeZ_all by (rewrite serialize_len; cbn; lia).
  rewrite <- (app_nil_r (serialize _)), deserialize_wire; [done|by split|cbn; lia].
Qed.

Lemma p2p_send_receive_witness :
  receive true [ReadNothing; ReadData (serialize (make_data (str "hello")))] =
  Some (Ok (Some (make_data (str "hello")), true)).
Proof.
  destruct (p2p_send_receive (str "hello") (serialize (make_data (str "hello")))
    [Wrote 3; WriteBlocked true; Wrote 100] 1 []) as [_ H].
  - vm_compute. discriminate.
  - reflexivity.
  - exact H.
Defined.

(** The bound check of [deserialize] wraps.  On any datagram the function
    reads out of bounds exactly when the header announces a length within 5 of
    2^32; otherwise it returns the message, or nothing when the datagram is
    shorter than announced. *)
Theorem p2p_length_wraps (data : bytes) :
  5 <= len data <= 65536 ->
  deserialize data =
  if 2 ^ 32 - 5 <=? rd32 data 1 then Undefined OutOfBounds
  else if len data <? 5 + rd32 data 1 then Ok None
  else Ok (Some {| pm_type := u8 (byte_at data 0); pm_payload := takeZ (rd32 data 1) (dropZ 5 data) |}).
Proof.
  intros Hl. pose proof (rd32_range data 1) as Hr. unfold deserialize, u32.
  rewrite (proj2 (Z.ltb_ge _ 5)) by lia. unfold rd_n. rewrite len_dropZ.
  destruct (Z.leb_spec (2 ^ 32 - 5) (rd32 data 1)).
  - replace ((5 + rd32 data 1) mod 2 ^ 32) with (5 + rd32 data 1 - 2 ^ 32) by lia.
    rewrite (proj2 (Z.ltb_ge _ _)), (proj2 (Z.leb_gt _ _)) by lia. done.
  - rewrite Z.mod_small by lia. destruct (Z.ltb_spec (len data) (5 + rd32 data 1)); [done|].
    by rewrite (proj2 (Z.leb_le _ _)) by lia.
Qed.

Lemma p2p_length_wraps_witness :
  deserialize [x04; xff; xff; xff; xfb] = Undefined OutOfBounds.
Proof. rewrite p2p_length_wraps; [reflexivity|]. vm_compute. split; discriminate. Defined.
