(* ===== verification/H3Delivery.v ===== *)
(** * Delivery of requests and responses over HTTP/3

    What one session hands to QUIC for a request or a response, the other reads
    back from its stream, however QUIC cuts it into deliveries. *)
From S2P Require Import Prelude Framing HeaderTable Hpack H3Frame Qpack CppString CppStream HttpTypes H3Session.
From stdpp Require Import options.

(** ** What is received *)

(** The host the server sees first: the authority of the request. *)
Definition host_field (r : request) : headers :=
  if bool_decide (authority_of (rq_hdrs r) = []) then []
  else [(str "Host", authority_of (rq_hdrs r))].

(** The request a server sees: names as they were written, and the header the
    authority came from once more; the query is not transmitted. *)
Definition received_request (r : request) : request :=
  {| rq_method := rq_method r;
     rq_path := if bool_decide (rq_path r = []) then str "/" else rq_path r;
     rq_query := []; rq_ver := HTTP_3;
     rq_hdrs := host_field r ++ List.filter not_colon (rq_hdrs r);
     rq_bd := rq_bd r |}.

(** The response a client sees: of several fields with the same name, the last;
    trailers are not transmitted. *)
Definition received_response (r : response) : response :=
  {| rs_status := rs_status r; rs_ver := HTTP_3;
     rs_hdrs := foldl (fun h kv => headers_set h kv.1 kv.2) [] (rs_hdrs r);
     rs_bd := rs_bd r; rs_trailers := [] |}.

Lemma not_colon_plain kv : not_colon kv = true -> byte_at kv.1 0 <> x3a.
Proof. unfold not_colon. case_bool_decide; done. Qed.

Lemma filter_plain hs : Forall (fun kv => byte_at kv.1 0 <> x3a) (List.filter not_colon hs).
Proof.
  induction hs as [|kv hs IH]; cbn; [constructor|].
  destruct (not_colon kv) eqn:E; [|done]. constructor; [by apply not_colon_plain|done].
Qed.

Lemma h3_header_plain r kv : byte_at kv.1 0 <> x3a -> apply_header r kv = put_header r kv.
Proof.
  destruct kv as [name value]. cbn [fst]. intros Hn. unfold apply_header.
  rewrite !(bool_decide_eq_false_2 (name = _)) by by apply not_pseudo.
  by rewrite bool_decide_eq_false_2.
Qed.

Lemma h3_request_fields r :
  http3_request (foldl apply_header request_default (request_headers r)) =
  received_request {| rq_method := rq_method r; rq_path := rq_path r; rq_query := rq_query r;
                      rq_ver := rq_ver r; rq_hdrs := rq_hdrs r; rq_bd := [] |}.
Proof.
  unfold request_headers. rewrite !foldl_app. cbn [foldl].
  assert (Hm : apply_header request_default (str ":method", method_to_string (rq_method r)) =
               {| rq_method := rq_method r; rq_path := str "/"; rq_query := []; rq_ver := HTTP_11;
                  rq_hdrs := []; rq_bd := [] |}).
  { unfold apply_header. rewrite parse_method_to_string. done. }
  rewrite Hm. rewrite (foldl_plain _ put_header) by apply h3_header_plain || apply filter_plain.
  rewrite foldl_put_header. unfold received_request, host_field. cbn [rq_hdrs].
  by destruct (bool_decide (authority_of (rq_hdrs r) = [])).
Qed.

Definition set_one (r : response) (kv : header) : response :=
  {| rs_status := rs_status r; rs_ver := rs_ver r; rs_hdrs := headers_set (rs_hdrs r) kv.1 kv.2;
     rs_bd := rs_bd r; rs_trailers := rs_trailers r |}.

Lemma foldl_set_one r hs :
  foldl set_one r hs =
  {| rs_status := rs_status r; rs_ver := rs_ver r;
     rs_hdrs := foldl (fun h kv => headers_set h kv.1 kv.2) (rs_hdrs r) hs;
     rs_bd := rs_bd r; rs_trailers := rs_trailers r |}.
Proof. revert r. induction hs as [|h hs IH]; intros r; cbn; [by destruct r|by rewrite IH]. Qed.

Lemma set_fields_plain status r hs :
  Forall (fun kv => byte_at kv.1 0 <> x3a) hs ->
  apply_response_fields status headers_set r hs = Ok (foldl set_one r hs).
Proof.
  intros Hh. revert r. induction Hh as [|[k v] hs Hk _ IH]; intros r; cbn [apply_response_fields foldl];
    [done|]. cbn [fst] in Hk. unfold apply_response_field at 1.
  rewrite bool_decide_eq_false_2 by by apply not_pseudo.
  rewrite bool_decide_eq_false_2 by done. cbn [negb mbind outcome_bind]. apply IH.
Qed.

Lemma atoi_to_string v : 0 <= v <= INT_MAX -> atoi (to_string v) = Ok v.
Proof.
  intros Hv. unfold atoi. rewrite find_char_absent; [by rewrite stoi_to_string|].
  intros Hin. pose proof (to_string_digits v x00 (proj1 Hv) Hin) as H. change (u8 x00) with 0 in H. lia.
Qed.

Lemma h3_response_fields r :
  0 < rs_status r <= INT_MAX -> Forall (fun kv => byte_at kv.1 0 <> x3a) (rs_hdrs r) ->
  exists r', apply_response_fields request_stream_status headers_set response_default
               (response_headers r) = Ok r' /\
    http3_response (with_body r' (rs_bd r)) = received_response r.
Proof.
  intros Hs Hh. unfold response_headers. cbn [apply_response_fields].
  unfold apply_response_field at 1. rewrite bool_decide_eq_true_2 by done.
  change (request_stream_status ?v) with (code ← atoi v; Ok (if 0 <? code then code else 500)).
  rewrite atoi_to_string by lia. cbn [mbind outcome_bind].
  rewrite (proj2 (Z.ltb_lt _ _)) by lia. rewrite set_fields_plain, foldl_set_one by done.
  eexists. split; done.
Qed.

(** ** One stream *)

Section Streams.
Context `{QU : Quic Q}.

Implicit Types (s : session Q) (ss : stream_state).

(** The session with the stream replaced. *)
Definition at_stream (sid : Z) (ss : stream_state) (s : session Q) : session Q :=
  s <| streams_ ::= insert sid ss |>.

Lemma at_lookup sid ss s : streams_ (at_stream sid ss s) !! sid = Some ss.
Proof. cbn. by rewrite lookup_insert_eq. Qed.

Lemma at_twice sid ss ss' s : at_stream sid ss (at_stream sid ss' s) = at_stream sid ss s.
Proof.
  transitivity (s <| streams_ := <[sid := ss]> (<[sid := ss']> (streams_ s)) |>); [done|].
  by rewrite insert_insert_eq.
Qed.

Lemma at_same sid ss s : streams_ s !! sid = Some ss -> at_stream sid ss s = s.
Proof.
  intros H. transitivity (s <| streams_ := <[sid := ss]> (streams_ s) |>); [done|].
  rewrite insert_id by done. by destruct s.
Qed.

Lemma update_at sid f ss s :
  streams_ s !! sid = Some ss -> update_stream sid f s = at_stream sid (f ss) s.
Proof.
  intros H. transitivity (s <| streams_ := alter f sid (streams_ s) |>); [done|].
  transitivity (s <| streams_ := <[sid := f ss]> (streams_ s) |>); [|done].
  enough (alter f sid (streams_ s) = <[sid := f ss]> (streams_ s)) as -> by done.
  apply map_eq. intros i. destruct (decide (i = sid)) as [->|Hi].
  - rewrite lookup_alter_eq, lookup_insert_eq, H. done.
  - by rewrite lookup_alter_ne, lookup_insert_ne by done.
Qed.

Lemma touch_at sid ss s : streams_ s !! sid = Some ss -> touch_stream sid s = s.
Proof. intros H. unfold touch_stream. by rewrite H. Qed.

Lemma touch_new sid s : streams_ s !! sid = None -> touch_stream sid s = at_stream sid new_stream s.
Proof. intros H. unfold touch_stream. by rewrite H. Qed.

(** What a frame does to its stream, before the stream ends. *)
Definition stream_frame (m : mode) (d : qpack_decoder) (ss : stream_state) (f : frame)
  : outcome stream_state :=
  if type f =? frame_type.HEADERS then
    hdrs ← qpack_decode d (payload f);
    match m with
    | server =>
        Ok (ss <| headers_complete := true |>
               <| req := http3_request (foldl apply_header (req ss) hdrs) |>)
    | client =>
        r ← apply_response_fields request_stream_status headers_set (resp ss) hdrs;
        Ok (ss <| resp_headers_complete := true |> <| resp := http3_response r |>)
    end
  else if type f =? frame_type.DATA then
    Ok (match m with
        | server => ss <| body ::= fun b => b ++ payload f |>
        | client => ss <| resp_body ::= fun b => b ++ payload f |>
        end)
  else Ok ss.

Fixpoint stream_frames (m : mode) (d : qpack_decoder) (ss : stream_state) (fs : list frame)
  : outcome stream_state :=
  match fs with
  | [] => Ok ss
  | f :: fs => ss ← stream_frame m d ss f; stream_frames m d ss fs
  end.

Lemma stream_frames_app m d ss fs gs :
  stream_frames m d ss (fs ++ gs) = ss ← stream_frames m d ss fs; stream_frames m d ss gs.
Proof.
  revert ss. induction fs as [|f fs IH]; intros ss; cbn [app stream_frames]; [done|].
  destruct (stream_frame m d ss f); cbn; [apply IH|done..].
Qed.

(** The fields of a stream that its frames leave alone. *)
Definition same_stream ss ss' : Prop :=
  stream_id ss' = stream_id ss /\ sstate ss' = sstate ss /\ end_stream ss' = end_stream ss /\
  reader ss' = reader ss /\ send_buf ss' = send_buf ss /\ send_offset ss' = send_offset ss /\
  promise ss' = promise ss.

Lemma stream_frame_same m d ss f ss' : stream_frame m d ss f = Ok ss' -> same_stream ss ss'.
Proof.
  unfold stream_frame. destruct (_ =? _); [|destruct (_ =? _)].
  - destruct (qpack_decode d (payload f)) as [hdrs| | |]; [|done..]. cbn [mbind outcome_bind].
    destruct m; [by intros [= <-]|].
    destruct (apply_response_fields _ _ _ _) as [r| | |]; [|done..]. by intros [= <-].
  - by destruct m; intros [= <-].
  - by intros [= <-].
Qed.

Lemma stream_frames_same m d fs ss ss' : stream_frames m d ss fs = Ok ss' -> same_stream ss ss'.
Proof.
  revert ss. induction fs as [|f fs IH]; cbn [stream_frames].
  - by intros ss [= ->].
  - intros ss. destruct (stream_frame _ _ ss f) as [ss2| | |] eqn:Ef; [|done..].
    cbn [mbind outcome_bind]. intros H%IH. apply stream_frame_same in Ef.
    unfold same_stream in *. intuition congruence.
Qed.

Lemma stream_frame_reader m d ss f r :
  stream_frame m d (ss <| reader := r |>) f =
  ss' ← stream_frame m d ss f; Ok (ss' <| reader := r |>).
Proof.
  unfold stream_frame. destruct (_ =? _); [|destruct (_ =? _); [by destruct m|done]].
  destruct (qpack_decode d (payload f)) as [hdrs| | |]; [|done..]. cbn [mbind outcome_bind].
  destruct m; [done|]. change (resp (ss <| reader := r |>)) with (resp ss).
  by destruct (apply_response_fields _ _ _ _).
Qed.

Lemma stream_frames_reader m d ss fs r :
  stream_frames m d (ss <| reader := r |>) fs =
  ss' ← stream_frames m d ss fs; Ok (ss' <| reader := r |>).
Proof.
  revert ss. induction fs as [|f fs IH]; intros ss; cbn [stream_frames]; [done|].
  rewrite stream_frame_reader. destruct (stream_frame m d ss f); cbn; [apply IH|done..].
Qed.

Lemma request_frame_at sid f s ss :
  streams_ s !! sid = Some ss -> end_stream ss = false ->
  request_frame sid s f =
  ss' ← stream_frame (mode_ s) (qpack_decoder_ s) ss f; Ok (at_stream sid ss' s).
Proof.
  intros Hss He. unfold request_frame, stream_frame. destruct (_ =? _); [|destruct (_ =? _)].
  - unfold handle_request_headers. rewrite Hss. destruct (mode_ s).
    + destruct (qpack_decode _ _) as [hdrs| | |]; [|done..]. cbn [mbind outcome_bind].
      by rewrite He, (update_at _ _ _ _ Hss).
    + unfold handle_response_headers. rewrite Hss.
      destruct (qpack_decode _ _) as [hdrs| | |]; [|done..]. cbn [mbind outcome_bind].
      destruct (apply_response_fields _ _ _ _) as [r| | |]; [|done..]. cbn [mbind outcome_bind].
      by rewrite He, (update_at _ _ _ _ Hss).
  - unfold handle_request_data. rewrite Hss. destruct (mode_ s).
    + by rewrite He, (update_at _ _ _ _ Hss).
    + unfold handle_response_data. by rewrite Hss, He, (update_at _ _ _ _ Hss).
  - cbn. by rewrite at_same.
Qed.

Lemma request_frames_at sid fs s ss :
  streams_ s !! sid = Some ss -> end_stream ss = false ->
  foldl (processing (request_frame sid)) (Ok s) fs =
  ss' ← stream_frames (mode_ s) (qpack_decoder_ s) ss fs; Ok (at_stream sid ss' s).
Proof.
  assert (Herr : forall (o : outcome (session Q)) gs, match o with Ok _ => False | _ => True end ->
    foldl (processing (request_frame sid)) o gs = o).
  { intros o gs Ho. induction gs as [|g gs IH]; [done|]. cbn. by destruct o. }
  revert s ss. induction fs as [|f fs IH]; intros s ss Hss He; cbn [foldl stream_frames].
  - cbn. by rewrite at_same.
  - unfold processing at 2. cbn [mbind outcome_bind].
    rewrite (request_frame_at sid f s ss Hss He).
    destruct (stream_frame _ _ ss f) as [ss1| | |] eqn:E; cbn [mbind outcome_bind].
    2-4: by rewrite Herr.
    apply stream_frame_same in E. destruct E as (_ & _ & E & _).
    rewrite (IH _ ss1) by (rewrite ?at_lookup; congruence).
    change (mode_ (at_stream sid ss1 s)) with (mode_ s).
    change (qpack_decoder_ (at_stream sid ss1 s)) with (qpack_decoder_ s).
    destruct (stream_frames _ _ ss1 fs); cbn; [by rewrite at_twice|done..].
Qed.

(** ** Deliveries of a request stream *)

(** QUIC's deliveries of a stream: the end comes with the last one, if it comes. *)
Fixpoint deliveries (sid : Z) (fin : bool) (chunks : list bytes) : list quic_event :=
  match chunks with
  | [] => []
  | [d] => [StreamData sid d fin]
  | d :: ds => StreamData sid d false :: deliveries sid fin ds
  end.

(** What the peer receives of a write of [data] with the end of the stream of
    which QUIC took [accepted] bytes: those, cut anywhere; the end only if it took
    them all. *)
Definition carried (sid : Z) (data : bytes) (accepted : Z) (events : list quic_event) : Prop :=
  exists chunks, chunks <> [] /\ concat chunks = takeZ accepted data /\
    events = deliveries sid (bool_decide (accepted = len data)) chunks.

Definition bidi (sid : Z) : Prop := Z.land sid 2 = 0.

(** The stream is known to be open under its id. *)
Definition entered (sid : Z) ss : Prop := stream_id ss = sid /\ sstate ss = open.

Lemma recv_bidi_at sid data fin s ss b ss' :
  streams_ s !! sid = Some ss -> entered sid ss -> end_stream ss = false ->
  reader_absorbed (reader ss) b -> has_frame (reader ss) = false ->
  stream_frames (mode_ s) (qpack_decoder_ s) ss (parse_all (b ++ data)).1 = Ok ss' ->
  exists r,
    recv_bidi sid data fin s =
      Ok ((if fin then stream_finished sid else id) (at_stream sid (ss' <| reader := r |>) s)) /\
    reader_absorbed r (parse_all (b ++ data)).2 /\ has_frame r = false.
Proof.
  intros Hss [Hid Hst] He Hr Hf Hfs. unfold recv_bidi. rewrite (touch_at _ _ _ Hss).
  rewrite (update_at _ _ _ _ Hss). assert (opened (ss <| stream_id := sid |>) = ss) as ->.
  { destruct ss; cbn in *. by subst. }
  rewrite (at_same _ _ _ Hss), Hss.
  pose proof (drive_spec (processing (request_frame sid)) _ b (Ok s) data Hr Hf) as Hd.
  destruct (drive _ _ _ _) as [r s1]. destruct Hd as (-> & Ha & Hn).
  rewrite (request_frames_at sid _ s ss), Hfs by done. cbn [mbind outcome_bind].
  rewrite (update_at sid _ ss') by apply at_lookup. rewrite at_twice.
  exists r. split; [by destruct fin|done].
Qed.

(** The frames arrive in order whatever the deliveries; the end comes last. *)
Lemma deliver_at sid fin chunks s ss b ss' :
  bidi sid -> chunks <> [] ->
  streams_ s !! sid = Some ss -> entered sid ss -> end_stream ss = false ->
  reader_absorbed (reader ss) b -> has_frame (reader ss) = false ->
  stream_frames (mode_ s) (qpack_decoder_ s) ss (parse_all (b ++ concat chunks)).1 = Ok ss' ->
  exists r, run_events s (deliveries sid fin chunks) =
    Ok ((if fin then stream_finished sid else id) (at_stream sid (ss' <| reader := r |>) s)).
Proof.
  intros Hb Hne. revert s ss b ss'. induction chunks as [|d ds IH]; [done|]. clear Hne.
  intros s ss b ss' Hss Hent He Hr Hf Hfs. destruct ds as [|d' ds].
  - cbn [concat deliveries run_events run_event] in *. rewrite app_nil_r in Hfs.
    unfold recv_stream_data. rewrite Hb. cbn [Z.eqb negb].
    destruct (recv_bidi_at sid d fin s ss b ss') as (r & -> & _); try done. by exists r.
  - cbn [concat] in Hfs. rewrite app_assoc, parse_all_app in Hfs. cbn [fst] in Hfs.
    rewrite stream_frames_app in Hfs.
    destruct (stream_frames _ _ ss (parse_all (b ++ d)).1) as [ss1| | |] eqn:E1; [|done..].
    cbn [mbind outcome_bind] in Hfs.
    destruct (recv_bidi_at sid d false s ss b ss1) as (r & Hrecv & Ha & Hn); try done.
    change (deliveries sid fin (d :: d' :: ds)) with
      (StreamData sid d false :: deliveries sid fin (d' :: ds)).
    cbn [run_events run_event]. unfold recv_stream_data. rewrite Hb. cbn [Z.eqb negb].
    rewrite Hrecv. cbn [mbind outcome_bind id].
    destruct (stream_frames_same _ _ _ _ _ E1) as (Hs1 & Hs2 & Hs3 & _). destruct Hent.
    destruct (IH ltac:(done) (at_stream sid (ss1 <| reader := r |>) s) (ss1 <| reader := r |>)
                (parse_all (b ++ d)).2 (ss' <| reader := r |>)) as (r' & Hrun); try done.
    + apply at_lookup.
    + split; cbn; congruence.
    + cbn. congruence.
    + change (mode_ (at_stream sid ?x s)) with (mode_ s).
      change (qpack_decoder_ (at_stream sid ?x s)) with (qpack_decoder_ s).
      rewrite stream_frames_reader. cbn [concat] in *. by rewrite Hfs.
    + exists r'. rewrite Hrun. by rewrite at_twice.
Qed.

(** A message cut short runs a part of its frames. *)
Lemma stream_frames_prefix m d ss data n ss' :
  stream_frames m d ss (parse_all data).1 = Ok ss' ->
  exists ss1, stream_frames m d ss (parse_all (takeZ n data)).1 = Ok ss1.
Proof.
  rewrite <- (take_drop (Z.to_nat n) data) at 1. rewrite parse_all_app. cbn [fst].
  rewrite stream_frames_app. fold (takeZ n data).
  destruct (stream_frames m d ss (parse_all (takeZ n data)).1) as [ss1| | |]; [by exists ss1|done..].
Qed.

Lemma deliver_part sid chunks n data s ss ss' :
  bidi sid -> chunks <> [] -> concat chunks = takeZ n data ->
  streams_ s !! sid = Some ss -> entered sid ss -> end_stream ss = false ->
  reader ss = frame_reader_init ->
  stream_frames (mode_ s) (qpack_decoder_ s) ss (parse_all data).1 = Ok ss' ->
  exists ss1, run_events s (deliveries sid false chunks) = Ok (at_stream sid ss1 s).
Proof.
  intros Hb Hne Hc Hss Hent He Hr [ss1 Hf]%(stream_frames_prefix _ _ _ _ n).
  destruct (deliver_at sid false chunks s ss [] ss1) as (r & Hrun); try done.
  - rewrite Hr. apply absorbed_init.
  - by rewrite Hr.
  - cbn [app]. by rewrite Hc.
  - by eexists.
Qed.

(** ** Messages *)

Definition sent_frames (hs : list header) (bd : bytes) : list frame :=
  {| type := frame_type.HEADERS; payload := encode_static hs |} ::
  (if bool_decide (bd = []) then [] else [{| type := frame_type.DATA; payload := bd |}]).

(** The header fields can be encoded, and the body fits in one DATA frame. *)
Definition sendable (hs : list header) (bd : bytes) : Prop :=
  Forall header_ok hs /\ len (encode_static hs) < 2 ^ 31 - 11 /\ len bd < VARINT_MAX.

#[export] Instance sendable_dec hs bd : Decision (sendable hs bd).
Proof. unfold sendable. apply _. Defined.

Lemma message_parsed hs bd :
  sendable hs bd -> parse_all (message_frames hs bd) = (sent_frames hs bd, []).
Proof.
  intros (_ & Hl & Hb). unfold message_frames, sent_frames, build_h3_headers, build_h3_data,
    build_headers_frame, build_data_frame.
  assert (frame_ok {| type := frame_type.HEADERS; payload := encode_static hs |}) as Hh.
  { split; cbn [type payload]; unfold frame_type.HEADERS, VARINT_MAX in *; lia. }
  assert (0 < len (encode_static hs)) as Hpos by (unfold encode_static; blia).
  case_bool_decide as E.
  - pose proof (h3_parse_all_wire [] _ ltac:(constructor) Hh) as H. cbn [app map concat payload] in H.
    unfold frame_wire in H. cbn [type payload] in H. rewrite H.
    by rewrite (proj2 (Z.eqb_neq _ _)) by lia.
  - pose proof (h3_parse_all_wire [_] {| type := frame_type.DATA; payload := bd |}
                  ltac:(repeat constructor; apply Hh)) as H.
    cbn [app map concat payload] in H. unfold frame_wire in H. cbn [type payload] in H.
    rewrite app_nil_r in H. rewrite H.
    + rewrite (proj2 (Z.eqb_neq _ _)); [done|]. intros Hz. apply E. by apply len_zero_nil.
    + split; cbn [type payload]; unfold frame_type.DATA, VARINT_MAX in *; lia.
Qed.

Lemma message_nonempty hs bd : sendable hs bd -> 0 < len (message_frames hs bd).
Proof.
  intros Hs. pose proof (message_parsed hs bd Hs) as H.
  destruct (message_frames hs bd); [|blia].
  rewrite parse_all_none in H by done. unfold sent_frames in H. discriminate H.
Qed.

Lemma server_message hs bd d ss :
  sendable hs bd -> req ss = request_default -> body ss = [] ->
  exists ss', stream_frames server d ss (sent_frames hs bd) = Ok ss' /\
    headers_complete ss' = true /\ body ss' = bd /\
    req ss' = http3_request (foldl apply_header request_default hs).
Proof.
  intros (Hok & Hl & _) Hr Hbd. unfold sent_frames. cbn [stream_frames].
  unfold stream_frame at 1. cbn [type payload]. rewrite Z.eqb_refl.
  rewrite qpack_decode_encode by done. cbn [mbind outcome_bind]. rewrite Hr.
  case_bool_decide as E; cbn [stream_frames mbind outcome_bind].
  - eexists. split; [done|]. cbn. rewrite Hbd. done.
  - eexists. split; [done|]. cbn. rewrite Hbd. done.
Qed.

Lemma client_message hs bd d ss r :
  sendable hs bd -> resp ss = response_default -> resp_body ss = [] ->
  apply_response_fields request_stream_status headers_set response_default hs = Ok r ->
  exists ss', stream_frames client d ss (sent_frames hs bd) = Ok ss' /\
    resp_headers_complete ss' = true /\ resp_body ss' = bd /\ resp ss' = http3_response r.
Proof.
  intros (Hok & Hl & _) Hr Hbd Hf. unfold sent_frames. cbn [stream_frames].
  unfold stream_frame at 1. cbn [type payload]. rewrite Z.eqb_refl.
  rewrite qpack_decode_encode by done. cbn [mbind outcome_bind]. rewrite Hr, Hf.
  cbn [mbind outcome_bind].
  case_bool_decide as E; cbn [stream_frames mbind outcome_bind].
  - eexists. split; [done|]. cbn. rewrite Hbd. done.
  - eexists. split; [done|]. cbn. rewrite Hbd. done.
Qed.

(** ** A request and its answer *)

(** A stream as the first delivery of it leaves it. *)
Definition entered_stream (sid : Z) : stream_state :=
  new_stream <| stream_id := sid |> <| sstate := open |>.

Lemma recv_new sid data fin s :
  streams_ s !! sid = None ->
  recv_bidi sid data fin s = recv_bidi sid data fin (at_stream sid (entered_stream sid) s).
Proof.
  intros Hs. unfold recv_bidi. rewrite (touch_new _ _ Hs).
  rewrite (update_at sid _ new_stream), at_twice by apply at_lookup.
  rewrite (touch_at sid (entered_stream sid)) by apply at_lookup.
  rewrite (update_at sid _ (entered_stream sid)), at_twice by apply at_lookup. done.
Qed.

Lemma deliver_new sid fin chunks s :
  bidi sid -> chunks <> [] -> streams_ s !! sid = None ->
  run_events s (deliveries sid fin chunks) =
  run_events (at_stream sid (entered_stream sid) s) (deliveries sid fin chunks).
Proof.
  intros Hb Hne Hs. destruct chunks as [|d [|d' ds]]; [done|..]; cbn [deliveries run_events run_event];
    unfold recv_stream_data; rewrite Hb; cbn [Z.eqb negb]; by rewrite (recv_new _ _ _ _ Hs).
Qed.

Lemma write_stream_effects sid data fin s :
  conn_ s <> None ->
  exists n, effects_ (write_stream sid data fin s) = effects_ s ++ [Wrote sid data fin n].
Proof.
  unfold write_stream. destruct (conn_ s) as [q|]; [intros _|done].
  destruct (writev_stream q sid data fin) as [[[p|] n] q']; by exists n.
Qed.

Lemma submit_response_effects sid r s ss :
  streams_ s !! sid = Some ss -> send_buf ss = [] -> send_offset ss = 0 -> conn_ s <> None ->
  sendable (response_headers r) (rs_bd r) ->
  exists n, effects_ (submit_response sid r s) =
    effects_ s ++ [Wrote sid (message_frames (response_headers r) (rs_bd r)) true n].
Proof.
  intros Hss Hb Ho Hc Hr. unfold submit_response. rewrite (touch_at _ _ _ Hss).
  rewrite (update_at _ _ _ _ Hss), at_lookup. pose proof (message_nonempty _ _ Hr).
  change (send_offset (ss <| send_buf ::= ?f |>)) with (send_offset ss).
  change (send_buf (ss <| send_buf ::= ?f |>)) with (f (send_buf ss)). cbv beta.
  rewrite Ho, Hb. cbn [app]. rewrite (proj2 (Z.ltb_lt _ _)) by lia.
  rewrite dropZ_0. exact (write_stream_effects sid _ true (at_stream sid _ s) Hc).
Qed.

Lemma submit_response_hooks sid r s : hooks_ (submit_response sid r s) = hooks_ s.
Proof.
  assert (hooks_ (touch_stream sid s) = hooks_ s) as <-
    by (unfold touch_stream; by destruct (streams_ s !! sid)).
  unfold submit_response. set (s1 := update_stream _ _ _).
  change (hooks_ (touch_stream sid s)) with (hooks_ s1).
  destruct (streams_ s1 !! sid) as [ss|]; [|done]. destruct (_ <? _); [|done].
  unfold write_stream. destruct (conn_ s1) as [q|]; [|done].
  by destruct (writev_stream q _ _ _) as [[[?|] ?] ?].
Qed.

(** A server that answers with [h], and the requests of the stream it has not
    seen yet. *)
Record serving (h : request -> response) (sid : Z) (s : session Q) : Prop := {
  sv_mode : mode_ s = server;
  sv_handler : request_handler_ (hooks_ s) = Some h;
  sv_push : push_provider_ (hooks_ s) = None;
  sv_conn : conn_ s <> None;
  sv_new : streams_ s !! sid = None
}.

Lemma h3_serve_request h sid r s chunks :
  bidi sid -> chunks <> [] -> serving h sid s ->
  sendable (request_headers r) (rq_bd r) ->
  sendable (response_headers (h (received_request r))) (rs_bd (h (received_request r))) ->
  concat chunks = message_frames (request_headers r) (rq_bd r) ->
  exists s1 n, run_events s (deliveries sid true chunks) = Ok s1 /\
    effects_ s1 = effects_ s ++
      [Requested (received_request r);
       Wrote sid (message_frames (response_headers (h (received_request r)))
                    (rs_bd (h (received_request r)))) true n].
Proof.
  intros Hb Hne [Hm Hh Hp Hc Hn] Hreq Hresp Hch. rewrite (deliver_new _ _ _ _ Hb Hne Hn).
  destruct (server_message _ _ (qpack_decoder_ s) (entered_stream sid) Hreq eq_refl eq_refl)
    as (ss' & Hf & Hhc & Hbd & Hrq).
  pose proof (stream_frames_same _ _ _ _ _ Hf) as (_ & _ & _ & _ & Hsb & Hso & _).
  destruct (deliver_at sid true chunks (at_stream sid (entered_stream sid) s) (entered_stream sid) [] ss')
    as (rd & Hrun); try done.
  { apply at_lookup. }
  { apply absorbed_init. }
  { cbn [app]. rewrite Hch, message_parsed by done. by change (mode_ (at_stream _ _ s)) with (mode_ s); rewrite Hm. }
  rewrite Hrun, at_twice. unfold stream_finished.
  rewrite (update_at sid _ (ss' <| reader := rd |>)), at_twice by apply at_lookup.
  rewrite at_lookup. change (mode_ (at_stream _ _ s)) with (mode_ s). rewrite Hm.
  change (headers_complete (ss' <| reader := rd |> <| end_stream := true |>)) with (headers_complete ss').
  rewrite Hhc. unfold dispatch_request. rewrite at_lookup.
  change (hooks_ (at_stream _ _ s)) with (hooks_ s). rewrite Hh.
  set (ss1 := ss' <| reader := rd |> <| end_stream := true |>).
  set (rq := with_request_body _ _).
  assert (rq = received_request r) as ->.
  { subst rq ss1. change (req (ss' <| reader := rd |> <| end_stream := true |>)) with (req ss').
    change (body (ss' <| reader := rd |> <| end_stream := true |>)) with (body ss').
    rewrite Hrq, Hbd, h3_request_fields. done. }
  rewrite (update_at sid _ ss1), at_twice by apply at_lookup. rewrite submit_response_hooks.
  change (hooks_ (effect_of _ _)) with (hooks_ s). rewrite Hp.
  destruct (submit_response_effects sid (h (received_request r))
    (effect_of (Requested (received_request r)) (at_stream sid (ss1 <| req := received_request r |>) s))
    (ss1 <| req := received_request r |>)) as (n & En); try done; [apply at_lookup|].
  eexists _, n. split; [done|]. rewrite En. change (effects_ (effect_of ?e ?x)) with (effects_ x ++ [e]).
  by rewrite <- app_assoc.
Qed.

(** Of a request cut short the server hears no more. *)
Lemma h3_serve_part h sid r s chunks n :
  bidi sid -> chunks <> [] -> serving h sid s -> sendable (request_headers r) (rq_bd r) ->
  concat chunks = takeZ n (message_frames (request_headers r) (rq_bd r)) ->
  exists s1, run_events s (deliveries sid false chunks) = Ok s1 /\ effects_ s1 = effects_ s.
Proof.
  intros Hb Hne [Hm _ _ _ Hn] Hreq Hch. rewrite (deliver_new _ _ _ _ Hb Hne Hn).
  destruct (server_message _ _ (qpack_decoder_ s) (entered_stream sid) Hreq eq_refl eq_refl) as (ss' & Hf & _).
  destruct (deliver_part sid chunks n _ (at_stream sid (entered_stream sid) s) (entered_stream sid) ss' Hb Hne Hch)
    as (ss1 & Hrun); try done.
  { apply at_lookup. }
  { rewrite message_parsed by done. by change (mode_ (at_stream _ _ s)) with (mode_ s); rewrite Hm. }
  eexists. by split; [exact Hrun|].
Qed.

(** A client stream that waits for its answer. *)
Record waiting (sid : Z) (p : nat) (pr : response_promise) ss (s : session Q) : Prop := {
  wt_mode : mode_ s = client;
  wt_stream : streams_ s !! sid = Some ss;
  wt_entered : entered sid ss;
  wt_open : end_stream ss = false;
  wt_reader : reader ss = frame_reader_init;
  wt_resp : resp ss = response_default;
  wt_body : resp_body ss = [];
  wt_promise : promise ss = Some p;
  wt_heap : heap_ s !! p = Some pr;
  wt_pending : pr_complete pr = false
}.

(** The promise has got the response, and its waiter runs, if there is one. *)
Definition settled (p : nat) (pr : response_promise) (r : response) s s' : Prop :=
  heap_ s' !! p = Some (pr <| pr_resp := r |> <| pr_complete := true |>) /\
  effects_ s' = effects_ s ++ (if pr_waiter pr then [Resumed p] else []).

Lemma settle_effects p f pr s :
  heap_ s !! p = Some pr -> pr_waiter (f pr) = pr_waiter pr ->
  heap_ (settle p f s) !! p = Some ((f pr) <| pr_complete := true |>) /\
  effects_ (settle p f s) = effects_ s ++ (if pr_waiter pr then [Resumed p] else []).
Proof.
  intros Hp Hf. unfold settle, update_promise.
  assert (heap_ (s <| heap_ ::= alter (fun pr => (f pr) <| pr_complete := true |>) p |>) !! p =
          Some ((f pr) <| pr_complete := true |>)) as E.
  { change (alter (fun pr => (f pr) <| pr_complete := true |>) p (heap_ s) !! p =
            Some ((f pr) <| pr_complete := true |>)). by rewrite lookup_alter_eq, Hp. }
  rewrite E. change (pr_waiter ((f pr) <| pr_complete := true |>)) with (pr_waiter (f pr)).
  rewrite Hf. destruct (pr_waiter pr); (split; [exact E|]); [done|]. symmetry. apply app_nil_r.
Qed.

Lemma receive_response sid p pr ss r s chunks :
  bidi sid -> chunks <> [] -> waiting sid p pr ss s ->
  sendable (response_headers r) (rs_bd r) ->
  0 < rs_status r <= INT_MAX -> Forall (fun kv => byte_at kv.1 0 <> x3a) (rs_hdrs r) ->
  concat chunks = message_frames (response_headers r) (rs_bd r) ->
  exists s1, run_events s (deliveries sid true chunks) = Ok s1 /\ settled p pr (received_response r) s s1.
Proof.
  intros Hb Hne [Hm Hss Hent He Hrd Hrs Hbd Hpr Hheap Hpend] Hsend Hstat Hh Hch.
  destruct (h3_response_fields r Hstat Hh) as (r' & Hf' & Hr').
  destruct (client_message _ _ (qpack_decoder_ s) ss r' Hsend Hrs Hbd Hf')
    as (ss' & Hf & Hhc & Hbd' & Hrs').
  pose proof (stream_frames_same _ _ _ _ _ Hf) as (_ & _ & _ & _ & _ & _ & Hp').
  destruct (deliver_at sid true chunks s ss [] ss') as (rd & Hrun); try done.
  { rewrite Hrd. apply absorbed_init. }
  { by rewrite Hrd. }
  { cbn [app]. by rewrite Hch, message_parsed, Hm. }
  eexists. split; [exact Hrun|]. unfold stream_finished.
  rewrite (update_at sid _ (ss' <| reader := rd |>)), at_twice by apply at_lookup.
  rewrite at_lookup. change (mode_ (at_stream _ _ s)) with (mode_ s). rewrite Hm.
  set (ss1 := ss' <| reader := rd |> <| end_stream := true |>).
  change (resp_headers_complete ss1) with (resp_headers_complete ss'). rewrite Hhc.
  unfold complete_promise. rewrite at_lookup. change (promise ss1) with (promise ss').
  rewrite Hp', Hpr. change (heap_ (at_stream _ _ s)) with (heap_ s). rewrite Hheap, Hpend.
  destruct (settle_effects p
    (fun pr => pr <| pr_resp := http3_response (with_body (resp ss1) (resp_body ss1)) |>) pr
    (update_stream sid (fun ss => ss <| resp := moved_from (resp ss) |>) (at_stream sid ss1 s)))
    as [Hh1 He1]; [exact Hheap|done|].
  split; [|exact He1]. rewrite Hh1. change (resp ss1) with (resp ss').
  change (resp_body ss1) with (resp_body ss'). rewrite Hrs', Hbd', <- Hr'. done.
Qed.

(** Of an answer cut short nothing reaches the promise. *)
Lemma receive_part sid p pr ss r s chunks n :
  bidi sid -> chunks <> [] -> waiting sid p pr ss s ->
  sendable (response_headers r) (rs_bd r) ->
  0 < rs_status r <= INT_MAX -> Forall (fun kv => byte_at kv.1 0 <> x3a) (rs_hdrs r) ->
  concat chunks = takeZ n (message_frames (response_headers r) (rs_bd r)) ->
  exists s1, run_events s (deliveries sid false chunks) = Ok s1 /\
    heap_ s1 = heap_ s /\ effects_ s1 = effects_ s.
Proof.
  intros Hb Hne [Hm Hss Hent He Hrd Hrs Hbd _ _ _] Hsend Hstat Hh Hch.
  destruct (h3_response_fields r Hstat Hh) as (r' & Hf' & _).
  destruct (client_message _ _ (qpack_decoder_ s) ss r' Hsend Hrs Hbd Hf') as (ss' & Hf & _).
  destruct (deliver_part sid chunks n _ s ss ss' Hb Hne Hch) as (ss1 & Hrun); try done.
  { by rewrite message_parsed, Hm. }
  eexists. by split; [exact Hrun|].
Qed.

(** A client that can send: the next stream QUIC opens is [sid], and [pr] is
    where the answer goes. *)
Record asking (sid : Z) (p : nat) (pr : response_promise) (s : session Q) : Prop := {
  as_mode : mode_ s = client;
  as_done : handshake_done_ s = true;
  as_conn : exists q, conn_ s = Some q /\ (open_bidi_stream q).1 = Some sid;
  as_new : streams_ s !! sid = None;
  as_heap : heap_ s !! p = Some pr;
  as_pending : pr_complete pr = false
}.

Definition asked_stream (sid : Z) (p : nat) (frames : bytes) : stream_state :=
  (entered_stream sid) <| send_buf := frames |> <| promise := Some p |>.

(** Two sessions that differ in their connection and in their output. *)
Definition same_but_output s s' : Prop :=
  mode_ s' = mode_ s /\ streams_ s' = streams_ s /\ heap_ s' = heap_ s /\
  qpack_decoder_ s' = qpack_decoder_ s.

Lemma write_stream_same sid data fin s : same_but_output s (write_stream sid data fin s).
Proof.
  unfold write_stream. destruct (conn_ s) as [q|]; [|done].
  by destruct (writev_stream q sid data fin) as [[[?|] ?] ?].
Qed.

Lemma write_packets_same s :
  same_but_output s (write_packets s).2 /\ effects_ (write_packets s).2 = effects_ s.
Proof.
  unfold write_packets. destruct (conn_ s) as [q|]; [|done].
  by destruct (pending_packets q) as [[? ?] ?].
Qed.

Lemma h3_ask sid p pr r s :
  asking sid p pr s ->
  exists s1 n, submit_request r (Some p) s = (i32 sid, s1) /\
    effects_ s1 = effects_ s ++ [Wrote sid (message_frames (request_headers r) (rq_bd r)) true n] /\
    waiting sid p pr
      (asked_stream sid p (message_frames (request_headers r) (rq_bd r))) s1.
Proof.
  intros [Hm Hd (q & Hc & Hq) Hn Hh Hp]. unfold submit_request. rewrite Hc, Hd. cbn [negb].
  unfold send_request, open_bidi. rewrite Hc. destruct (open_bidi_stream q) as [o q']. cbn in Hq. subst o.
  set (s0 := s <| conn_ := Some q' |>).
  rewrite (touch_new sid s0) by exact Hn.
  rewrite (update_at sid _ new_stream), at_twice by apply at_lookup.
  set (fr := message_frames _ _). set (ss := new_stream <| stream_id := sid |> <| sstate := open |>
    <| send_buf := fr |> <| promise := Some p |>).
  set (s1 := write_stream sid fr true (at_stream sid ss s0)).
  destruct (write_stream_same sid fr true (at_stream sid ss s0)) as (H1 & H2 & H3 & _).
  destruct (write_packets_same s1) as [(H5 & H6 & H7 & _) H8]. subst s1.
  destruct (write_stream_effects sid fr true (at_stream sid ss s0)) as (n & En); [done|].
  eexists _, n. split; [done|]. split; [by rewrite H8, En|].
  split; try done.
  - by rewrite H5, H1.
  - rewrite H6, H2. apply at_lookup.
  - by rewrite H7, H3.
Qed.
End Streams.

(** ** Properties *)

(** C8: a whole exchange over HTTP/3.  A client submits a request, and hands its
    frames to QUIC in one write with the end of the stream; QUIC takes [n] bytes of
    them into a packet, and nothing is written again.  The server receives what
    was taken, in deliveries cut at any bytes.  If that is all of them, it calls
    its handler once, with the request received (names and values as they were
    sent), and writes its answer once with the end of the stream; if it is not, no
    handler is ever called.  In the same way the client receives what was taken of
    the answer: all of it settles the promise of the request with the response
    received and resumes its waiter, and less leaves the promise as it was. *)
Theorem h3_exchange `{QU : Quic Q} (c s : session Q) (r : request) (sid : Z) (p : nat)
    (pr : response_promise) (h : request -> response) :
  bidi sid -> asking sid p pr c -> serving h sid s ->
  sendable (request_headers r) (rq_bd r) ->
  let answer := h (received_request r) in
  sendable (response_headers answer) (rs_bd answer) ->
  0 < rs_status answer <= INT_MAX ->
  Forall (fun kv => byte_at kv.1 0 <> x3a) (rs_hdrs answer) ->
  let asked := message_frames (request_headers r) (rq_bd r) in
  let answered := message_frames (response_headers answer) (rs_bd answer) in
  exists c1 n, submit_request r (Some p) c = (i32 sid, c1) /\
    effects_ c1 = effects_ c ++ [Wrote sid asked true n] /\
    forall up, carried sid asked n up -> exists s1, run_events s up = Ok s1 /\
      if decide (n = len asked) then exists m,
        effects_ s1 = effects_ s ++ [Requested (received_request r); Wrote sid answered true m] /\
        forall down, carried sid answered m down -> exists c2, run_events c1 down = Ok c2 /\
          if decide (m = len answered) then settled p pr (received_response answer) c1 c2
          else heap_ c2 = heap_ c1 /\ effects_ c2 = effects_ c1
      else effects_ s1 = effects_ s.
Proof.
  intros Hb Hc Hs Hreq answer Hresp Hstat Hh asked answered.
  destruct (h3_ask sid p pr r c Hc) as (c1 & n & Hsub & Heff & Hwait).
  exists c1, n. split; [done|]. split; [done|]. intros up (uc & Hne & Hup & ->).
  destruct (decide (n = len asked)) as [->|Hn]; [rewrite bool_decide_true by done|rewrite bool_decide_false by done].
  2: by apply (h3_serve_part h sid r s uc n).
  rewrite takeZ_all in Hup by done.
  destruct (h3_serve_request h sid r s uc Hb Hne Hs Hreq Hresp Hup) as (s1 & m & Hrun & He).
  exists s1. split; [done|]. exists m. split; [done|]. intros down (dc & Hdne & Hdown & ->).
  destruct (decide (m = len answered)) as [->|Hm]; [rewrite bool_decide_true by done|rewrite bool_decide_false by done].
  - rewrite takeZ_all in Hdown by done. by apply (receive_response sid p pr _ answer c1 dc Hb Hdne Hwait).
  - by apply (receive_part sid p pr _ answer c1 dc m Hb Hdne Hwait).
Qed.

(** A transport that puts the data of a call in a packet of its own. *)
#[export] Instance plain_quic : Quic Z := {|
  open_bidi_stream q := (Some (4 * q), q + 1);
  open_uni_stream q := (Some (4 * q + 2), q + 1);
  writev_stream q sid data fin := (Some data, len data, q);
  pending_packets q := ([], true, q);
  read_pkt q data := ([StreamData (4 * (q - 1)) data true], ReadOk, q);
  retry_packet q version dcid scid := Some (dcid ++ scid);
  handle_conn_expiry q := (true, q);
  conn_expiry q := 2 ^ 64 - 1;
  max_cidlen := 20;
  server_new version dcid scid := Some 0
|}.

Definition test_post : request :=
  {| rq_method := POST; rq_path := str "/submit"; rq_query := []; rq_ver := HTTP_11;
     rq_hdrs := [(str "Host", str "example.com"); (str "X-Id", str "7")];
     rq_bd := str "ping" |}.

Definition test_handler (r : request) : response :=
  {| rs_status := 200; rs_ver := HTTP_11;
     rs_hdrs := [(str "Set-Cookie", str "a=1"); (str "Set-Cookie", str "b=2")];
     rs_bd := str "pong: " ++ rq_bd r; rs_trailers := [] |}.

Definition test_session (m : mode) : session Z :=
  new_session m (Some 0)
    {| qe_dynamic_table := qpack_dynamic_table_init; qe_max_table_size := 4096 |}
    qpack_decoder_init {[0%nat := new_promise <| pr_waiter := true |>]}.

Definition ready_client : session Z := (test_session client) <| handshake_done_ := true |>.
Definition ready_server : session Z := set_request_handler test_handler (test_session server).

Definition bytewise (b : bytes) : list bytes := map (fun c => [c]) b.

Definition test_sent : bytes := message_frames (request_headers test_post) (rq_bd test_post).

Definition test_reply : bytes :=
  let a := test_handler (received_request test_post) in message_frames (response_headers a) (rs_bd a).

(** A transport whose packets hold 40 bytes of a stream: the request is cut short. *)
Example h3_long_request_stalls :
  let small := {|
    open_bidi_stream := open_bidi_stream (Quic := plain_quic); open_uni_stream := open_uni_stream (Quic := plain_quic);
    writev_stream (q : Z) sid data fin := (Some (takeZ 40 data), 40, q);
    pending_packets := pending_packets (Quic := plain_quic); read_pkt := read_pkt (Quic := plain_quic);
    retry_packet := retry_packet (Quic := plain_quic); handle_conn_expiry := handle_conn_expiry (Quic := plain_quic);
    conn_expiry := conn_expiry (Quic := plain_quic); max_cidlen := 20; server_new := server_new (Quic := plain_quic) |} in
  40 < len test_sent /\
  effects_ (submit_request (QU := small) test_post (Some 0%nat) ready_client).2 = [Wrote 0 test_sent true 40] /\
  output_pkts_ (submit_request (QU := small) test_post (Some 0%nat) ready_client).2 = [takeZ 40 test_sent].
Proof. by vm_compute. Qed.

(** How much QUIC took in the last write *)
Definition last_taken (es : list effect) : Z :=
  match last es with Some (Wrote _ _ _ n) => n | _ => 0 end.

Lemma h3_exchange_witness :
  exists c1 s1 c2,
    submit_request test_post (Some 0%nat) ready_client = (0, c1) /\
    run_events ready_server (deliveries 0 true (bytewise test_sent)) = Ok s1 /\
    effects_ s1 = [Requested (received_request test_post); Wrote 0 test_reply true (len test_reply)] /\
    run_events c1 (deliveries 0 true [[]; test_reply]) = Ok c2 /\
    heap_ c2 !! 0%nat =
      Some (new_promise <| pr_waiter := true |>
             <| pr_resp := received_response (test_handler (received_request test_post)) |>
             <| pr_complete := true |>).
Proof.
  destruct (h3_exchange ready_client ready_server test_post 0 0
              (new_promise <| pr_waiter := true |>) test_handler)
    as (c1 & n & Hsub & Heff & H).
  - done.
  - split; try done. by exists 0.
  - done.
  - apply (bool_decide_unpack _). by vm_compute.
  - apply (bool_decide_unpack _). by vm_compute.
  - done.
  - repeat constructor; done.
  - assert (n = len test_sent) as ->.
    { assert (last_taken (effects_ (submit_request test_post (Some 0%nat) ready_client).2) = len test_sent) as E
        by by vm_compute.
      rewrite Hsub in E. cbn [snd] in E. by rewrite Heff in E. }
    destruct (H (deliveries 0 true (bytewise test_sent))) as (s1 & Hrun & Hs).
    { exists (bytewise test_sent). split; [done|]. split; [by vm_compute|]. rewrite bool_decide_true by done. done. }
    rewrite decide_True in Hs by done. destruct Hs as (m & He & Hdown).
    assert (m = len test_reply) as ->.
    { assert (match run_events ready_server (deliveries 0 true (bytewise test_sent)) with
              | Ok s1 => last_taken (effects_ s1) | _ => 0 end = len test_reply) as E by by vm_compute.
      by rewrite Hrun, He in E. }
    destruct (Hdown (deliveries 0 true [[]; test_reply])) as (c2 & Hc2 & Hset).
    { exists [[]; test_reply]. split; [done|]. split; [by vm_compute|]. rewrite bool_decide_true by done. done. }
    rewrite decide_True in Hset by done. exists c1, s1, c2.
    split; [exact Hsub|]. split; [exact Hrun|]. split; [exact He|]. split; [exact Hc2|].
    apply Hset.
Defined.
