(* ===== verification/H3SessionFacts.v ===== *)
(** * Facts of the HTTP/3 session

    The life of a response promise over any input, what becomes of a pushed
    response, the encoder stream, and the long header of a QUIC packet. *)
From S2P Require Import Prelude Framing HeaderTable Hpack H3Frame Qpack CppString CppStream HttpTypes H3Session H3Delivery.
From stdpp Require Import options.

(** ** The life of a promise *)

Section Promises.
Context `{QU : Quic Q}.

Implicit Types (s : session Q) (ss : stream_state).

Definition resumes (p : nat) (e : effect) : bool :=
  match e with Resumed p' => bool_decide (p' = p) | _ => false end.

(** How often the waiter of [p] is resumed. *)
Definition resumptions (p : nat) (es : list effect) : Z := len (List.filter (resumes p) es).

Lemma resumptions_app p es es' : resumptions p (es ++ es') = resumptions p es + resumptions p es'.
Proof. unfold resumptions. rewrite List.filter_app. apply len_app. Qed.

(** What may happen to a promise: nothing, or, unless it is complete, it is
    completed and its waiter resumed, if there is one. *)
Definition promise_fate (p : nat) (pr pr' : response_promise) (n : Z) : Prop :=
  pr' = pr /\ n = 0 \/
  pr_complete pr = false /\ pr_complete pr' = true /\ pr_waiter pr' = pr_waiter pr /\
  n = (if pr_waiter pr then 1 else 0).

(** [pending_promise_] is left alone, and every other promise meets its fate. *)
Definition lives s s' : Prop :=
  pending_promise_ s' = pending_promise_ s /\
  exists es, effects_ s' = effects_ s ++ es /\
    forall p pr, pending_promise_ s <> Some p -> heap_ s !! p = Some pr ->
    exists pr', heap_ s' !! p = Some pr' /\ promise_fate p pr pr' (resumptions p es).

Lemma lives_refl s : lives s s.
Proof.
  split; [done|]. exists []. rewrite app_nil_r. split; [done|]. intros p pr _ Hp. exists pr. by split; [|left].
Qed.

Lemma lives_trans s1 s2 s3 : lives s1 s2 -> lives s2 s3 -> lives s1 s3.
Proof.
  intros [Hp1 (es1 & He1 & H1)] [Hp2 (es2 & He2 & H2)]. split; [congruence|].
  exists (es1 ++ es2). rewrite He2, He1, app_assoc. split; [done|]. intros p pr Hne Hp.
  destruct (H1 p pr Hne Hp) as (pr1 & Hpr1 & F1).
  destruct (H2 p pr1 ltac:(congruence) Hpr1) as (pr2 & Hpr2 & F2).
  exists pr2. split; [done|]. rewrite resumptions_app.
  destruct F1 as [[-> ->]|(Hc & Hc' & Hw & ->)]; [done|].
  destruct F2 as [[-> ->]|(Hc2 & _)]; [|congruence].
  right. rewrite Z.add_0_r. done.
Qed.

(** Nothing happens to any promise. *)
Definition quiet s s' : Prop :=
  pending_promise_ s' = pending_promise_ s /\ heap_ s' = heap_ s /\
  exists es, effects_ s' = effects_ s ++ es /\ forall p, resumptions p es = 0.

Lemma quiet_lives s s' : quiet s s' -> lives s s'.
Proof.
  intros (Hp & Hh & es & He & Hn). split; [done|]. exists es. split; [done|]. intros p pr _ Hpr.
  exists pr. rewrite Hh, Hn. by split; [|left].
Qed.

Lemma quiet_refl s : quiet s s.
Proof. split; [done|]. split; [done|]. exists []. by rewrite app_nil_r. Qed.

Lemma quiet_trans s1 s2 s3 : quiet s1 s2 -> quiet s2 s3 -> quiet s1 s3.
Proof.
  intros (Hp1 & Hh1 & es1 & He1 & H1) (Hp2 & Hh2 & es2 & He2 & H2).
  split; [congruence|]. split; [congruence|]. exists (es1 ++ es2).
  rewrite He2, He1, app_assoc. split; [done|]. intros p. by rewrite resumptions_app, H1, H2.
Qed.

(** The same promises and effects. *)
Lemma quiet_same s s' :
  pending_promise_ s' = pending_promise_ s -> heap_ s' = heap_ s -> effects_ s' = effects_ s ->
  quiet s s'.
Proof. intros Hp Hh He. split; [done|]. split; [done|]. exists []. by rewrite app_nil_r. Qed.

Lemma quiet_effect e s : (forall p, resumes p e = false) -> quiet s (effect_of e s).
Proof.
  intros He. split; [done|]. split; [done|]. exists [e]. split; [done|].
  intros p. unfold resumptions. cbn [List.filter]. by rewrite He.
Qed.

Lemma quiet_touch sid s : quiet s (touch_stream sid s).
Proof. unfold touch_stream. destruct (streams_ s !! sid); by apply quiet_same. Qed.

Lemma quiet_update sid f s : quiet s (update_stream sid f s).
Proof. by apply quiet_same. Qed.

Lemma quiet_write sid data fin s : quiet s (write_stream sid data fin s).
Proof.
  unfold write_stream. destruct (conn_ s) as [q|]; [|apply quiet_refl].
  destruct (writev_stream q sid data fin) as [[[pkt|] acc] q'].
  - eapply quiet_trans; [apply (quiet_effect (Wrote sid data fin acc)); done|by apply quiet_same].
  - eapply quiet_trans; [apply (quiet_effect (Wrote sid data fin acc)); done|by apply quiet_same].
Qed.

Lemma quiet_packets s : quiet s (write_packets s).2.
Proof.
  unfold write_packets. destruct (conn_ s) as [q|]; [|apply quiet_refl].
  destruct (pending_packets q) as [[ps ok] q']. by apply quiet_same.
Qed.

Lemma quiet_open_uni s : quiet s (open_uni s).2.
Proof.
  unfold open_uni. destruct (conn_ s) as [q|]; [|apply quiet_refl].
  destruct (open_uni_stream q). by apply quiet_same.
Qed.

Lemma quiet_open_bidi s : quiet s (open_bidi s).2.
Proof.
  unfold open_bidi. destruct (conn_ s) as [q|]; [|apply quiet_refl].
  destruct (open_bidi_stream q). by apply quiet_same.
Qed.
End Promises.

(** Peels the outermost operation of a chain of quiet ones. *)
Ltac quiet_step :=
  match goal with
  | |- quiet ?s ?s => apply quiet_refl
  | |- quiet ?s (set_field _ _ ?s') =>
      apply (quiet_trans s s'); [|apply quiet_same; reflexivity]
  | |- quiet ?s (effect_of _ ?s') =>
      apply (quiet_trans s s'); [|apply quiet_effect; reflexivity]
  | |- quiet ?s (update_stream _ _ ?s') =>
      apply (quiet_trans s s'); [|apply quiet_update]
  | |- quiet ?s (touch_stream _ ?s') =>
      apply (quiet_trans s s'); [|apply quiet_touch]
  | |- quiet ?s (write_stream _ _ _ ?s') =>
      apply (quiet_trans s s'); [|apply quiet_write]
  | |- quiet ?s (write_packets ?s').2 =>
      apply (quiet_trans s s'); [|apply quiet_packets]
  end.

Section PromiseFacts.
Context `{QU : Quic Q}.

Implicit Types (s : session Q) (ss : stream_state).

Lemma quiet_response sid r s : quiet s (submit_response sid r s).
Proof.
  unfold submit_response. destruct (_ !! sid) as [ss|]; [destruct (_ <? _)|]; repeat quiet_step.
Qed.

Lemma quiet_push promised r sid s : quiet s (do_submit_push promised r sid s).2.
Proof.
  unfold do_submit_push. destruct (mode_ s), (conn_ s); try apply quiet_refl.
  set (s1 := if _ <=? _ then _ else _). set (s2 := write_stream sid _ _ s1).
  assert (quiet s s2) as H2.
  { subst s2 s1. cbv zeta. quiet_step. destruct (_ <=? _); repeat quiet_step. }
  pose proof (quiet_open_uni s2) as H3. destruct (open_uni s2) as [[psid|] s3]; cbn [snd] in *.
  - repeat quiet_step. by apply (quiet_trans s s2).
  - by apply (quiet_trans s s2).
Qed.

Lemma quiet_pushes sid pushes s : quiet s (submit_pushes sid pushes s).
Proof.
  revert s. induction pushes as [|[promised r] pushes IH]; intros s; cbn [submit_pushes].
  - apply quiet_refl.
  - eapply quiet_trans; [apply quiet_push|apply IH].
Qed.

Lemma quiet_dispatch sid s : quiet s (dispatch_request sid s).
Proof.
  unfold dispatch_request. destruct (request_handler_ (hooks_ s)) as [h|]; [|apply quiet_refl].
  destruct (streams_ s !! sid) as [ss|]; [|apply quiet_refl].
  set (s1 := submit_response sid _ _).
  assert (quiet s s1).
  { subst s1. eapply quiet_trans; [|apply quiet_response]. repeat quiet_step. }
  destruct (push_provider_ (hooks_ s1)); [|done]. by eapply quiet_trans; [|apply quiet_pushes].
Qed.

Lemma quiet_send r p s : quiet s (send_request r p s).2.
Proof.
  unfold send_request. pose proof (quiet_open_bidi s) as H.
  destruct (open_bidi s) as [[sid|] s1]; cbn [snd] in *; [|done]. by repeat quiet_step.
Qed.

Lemma quiet_control s : quiet s (open_control_streams s).
Proof.
  unfold open_control_streams. destruct (_ <=? _); [apply quiet_refl|].
  pose proof (quiet_open_uni s) as H1. destruct (open_uni s) as [[sid|] s1]; cbn [snd] in H1; [|done].
  set (s2 := write_stream sid _ _ _). assert (quiet s s2) as H2 by (subst s2; repeat quiet_step; done).
  pose proof (quiet_open_uni s2) as H3. destruct (open_uni s2) as [o s3]. cbn [snd] in H3.
  set (s4 := match o with Some _ => _ | None => _ end).
  assert (quiet s s4) as H4.
  { apply (quiet_trans s s2); [done|]. subst s4. destruct o; repeat quiet_step; done. }
  pose proof (quiet_open_uni s4) as H5. destruct (open_uni s4) as [o' s5]. cbn [snd] in H5.
  apply (quiet_trans s s4); [done|]. destruct o'; repeat quiet_step; done.
Qed.

(** ** Every event *)

Lemma settle_fields p f s :
  pending_promise_ (settle p f s) = pending_promise_ s /\
  heap_ (settle p f s) = alter (fun pr => (f pr) <| pr_complete := true |>) p (heap_ s).
Proof.
  unfold settle. set (s1 := update_promise _ _ s).
  destruct (heap_ s1 !! p) as [pr'|]; [by destruct (pr_waiter pr')|done].
Qed.

Lemma lives_settle p f s pr :
  heap_ s !! p = Some pr -> pr_complete pr = false -> (forall pr, pr_waiter (f pr) = pr_waiter pr) ->
  lives s (settle p f s).
Proof.
  intros Hp Hc Hw. destruct (settle_effects p f pr s Hp (Hw pr)) as [Hh He].
  destruct (settle_fields p f s) as [Hpend Hheap]. split; [exact Hpend|].
  eexists. split; [exact He|]. intros p' pr' _ Hp'. destruct (decide (p' = p)) as [->|Hne].
  - rewrite Hp in Hp'. injection Hp' as <-. eexists. split; [exact Hh|]. right.
    split; [done|]. split; [done|]. split; [apply Hw|].
    unfold resumptions. destruct (pr_waiter pr); [|done]. cbn [List.filter resumes].
    by rewrite bool_decide_eq_true_2.
  - exists pr'. split.
    + by rewrite Hheap, lookup_alter_ne.
    + left. split; [done|]. unfold resumptions. destruct (pr_waiter pr); [|done].
      cbn [List.filter resumes]. by rewrite bool_decide_eq_false_2 by congruence.
Qed.

Lemma lives_complete sid finish s : lives s (complete_promise sid finish s).
Proof.
  unfold complete_promise. destruct (streams_ s !! sid) as [ss|]; [|apply lives_refl].
  destruct (promise ss) as [p|]; [|apply lives_refl].
  destruct (heap_ s !! p) as [pr|] eqn:Hp; [|apply lives_refl].
  destruct (pr_complete pr) eqn:Hc; [apply lives_refl|].
  eapply lives_trans; [apply quiet_lives, quiet_update|]. by apply (lives_settle _ _ _ pr).
Qed.

Lemma lives_request_frame sid f s s' : request_frame sid s f = Ok s' -> lives s s'.
Proof.
  unfold request_frame. destruct (_ =? _); [|destruct (_ =? _)].
  - unfold handle_request_headers, handle_response_headers.
    destruct (streams_ s !! sid) as [ss|]; [|intros [= <-]; apply lives_refl].
    destruct (mode_ s).
    + destruct (qpack_decode _ _) as [hdrs| | |]; [|done..]. cbn [mbind outcome_bind]. intros [= <-].
      apply quiet_lives. destruct (end_stream ss); [|repeat quiet_step].
      eapply quiet_trans; [|apply quiet_dispatch]. repeat quiet_step.
    + destruct (qpack_decode _ _) as [hdrs| | |]; [|done..]. cbn [mbind outcome_bind].
      destruct (apply_response_fields _ _ _ _) as [r| | |]; [|done..]. cbn [mbind outcome_bind].
      intros [= <-]. destruct (end_stream ss); [|apply quiet_lives; repeat quiet_step].
      eapply lives_trans; [apply quiet_lives, quiet_update|apply lives_complete].
  - intros [= <-]. unfold handle_request_data, handle_response_data.
    destruct (streams_ s !! sid) as [ss|] eqn:Hss; [|apply lives_refl].
    destruct (mode_ s).
    + apply quiet_lives. destruct (end_stream ss); [destruct (headers_complete ss)|]; repeat quiet_step.
      eapply quiet_trans; [|apply quiet_dispatch]. repeat quiet_step.
    + destruct (_ && _); [|apply quiet_lives; repeat quiet_step].
      eapply lives_trans; [apply quiet_lives, quiet_update|apply lives_complete].
  - intros [= <-]. apply lives_refl.
Qed.

Lemma lives_control_frame f s s' : control_frame s f = Ok s' -> lives s s'.
Proof.
  unfold control_frame. destruct (_ =? _); [intros [= <-]; apply lives_refl|].
  destruct (_ =? _); [|intros [= <-]; apply lives_refl]. unfold handle_push_promise.
  destruct (mode_ s); [intros [= <-]; apply lives_refl|].
  destruct (qpack_decode _ _) as [hdrs| | |]; [|done..]. cbn [mbind outcome_bind]. intros [= <-].
  apply quiet_lives. destruct (push_handler_ _); repeat quiet_step.
Qed.

(** The loop over a reader's frames keeps what every frame keeps. *)
Lemma drive_keeps (handle : session Q -> frame -> outcome (session Q)) (R : session Q -> session Q -> Prop)
    s0 s r data r' s' :
  (forall s f s1, R s0 s -> handle s f = Ok s1 -> R s0 s1) -> R s0 s ->
  drive (processing handle) r (Ok s) data = (r', Ok s') -> R s0 s'.
Proof.
  intros Hstep Hs. unfold drive. destruct (feed r data) as [r1 n].
  assert (forall fuel r n (o : outcome (session Q)), (forall s, o = Ok s -> R s0 s) ->
    drive_loop (processing handle) fuel r o data n = (r', Ok s') -> R s0 s') as H.
  { clear -Hstep. induction fuel as [|fuel IH]; intros r n o Ho; cbn [drive_loop].
    - intros [= <- Hd]. by apply Ho.
    - destruct (has_frame r); [|intros [= <- Hd]; by apply Ho].
      destruct (take_frame r) as [f r2], (feed r2 (dropZ n data)) as [r3 m].
      apply IH. intros s1. destruct o as [s| | |]; [|done..]. cbn [processing mbind outcome_bind].
      by apply Hstep, Ho. }
  apply H. by intros ? [= <-].
Qed.

Lemma lives_push sid data fin s s' : handle_push_stream sid data fin s = Ok s' -> lives s s'.
Proof.
  unfold handle_push_stream. destruct (mode_ s); [intros [= <-]; apply lives_refl|].
  destruct (streams_ s !! sid) as [ss|]; [|intros [= <-]; apply lives_refl].
  destruct (feed_push data ss) as [ss1|]; [|intros [= <-]; apply lives_refl].
  destruct (push_frames _ ss1) as [ss2| | |]; [|done..]. cbn [mbind outcome_bind].
  destruct (_ && _); intros [= <-]; [|apply quiet_lives; repeat quiet_step].
  set (s1 := update_stream _ _ _). split; [done|]. exists []. rewrite app_nil_r. split; [done|].
  intros p pr _ Hp. exists pr. split; [|by left].
  change (<[fresh (dom (heap_ s)) := pushed_promise ss2]> (heap_ s) !! p = Some pr).
  rewrite lookup_insert_ne; [done|]. intros <-. apply (is_fresh (dom (heap_ s))).
  apply elem_of_dom. by exists pr.
Qed.

Lemma lives_uni sid data fin s s' : recv_uni sid data fin s = Ok s' -> lives s s'.
Proof.
  unfold recv_uni. set (s1 := update_stream _ _ _). cbv zeta.
  set (buf := default [] _ ++ data). set (s2 := set_field _ _ s1).
  assert (quiet s s2) as H2 by (subst s2 s1; repeat quiet_step).
  destruct (decode_varint buf) as [[n ty]|]; [|intros [= <-]; by apply quiet_lives].
  intros H. apply (lives_trans s s2); [by apply quiet_lives|]. revert H.
  generalize s2. clear. intros s2. unfold uni_payload. destruct (_ =? _).
  { destruct (drive _ _ _ _) as [r o] eqn:E. cbn [snd]. intros ->.
    eapply (drive_keeps control_frame lives); [|apply quiet_lives, quiet_update|exact E].
    intros s3 f s4 H3 Hf. eapply lives_trans; [exact H3|]. by apply (lives_control_frame f). }
  destruct (_ =? _); [apply lives_push|]. destruct (_ =? _).
  { destruct (process_encoder_instructions _ _); [|done..]. cbn [mbind outcome_bind].
    intros [= <-]. apply quiet_lives. repeat quiet_step. }
  destruct (_ =? _); intros [= <-]; apply quiet_lives; repeat quiet_step.
Qed.

Lemma lives_finished sid s : lives s (stream_finished sid s).
Proof.
  unfold stream_finished. set (s1 := update_stream _ _ s).
  apply (lives_trans s s1); [apply quiet_lives, quiet_update|].
  destruct (streams_ s1 !! sid) as [ss|]; [|apply lives_refl]. destruct (mode_ s1).
  - destruct (headers_complete ss); [apply quiet_lives, quiet_dispatch|apply lives_refl].
  - destruct (resp_headers_complete ss); [apply lives_complete|apply lives_refl].
Qed.

Lemma lives_bidi sid data fin s s' : recv_bidi sid data fin s = Ok s' -> lives s s'.
Proof.
  unfold recv_bidi. set (s1 := update_stream _ _ _).
  assert (quiet s s1) as H1 by (subst s1; repeat quiet_step).
  destruct (streams_ s1 !! sid) as [ss|]; [|intros [= <-]; by apply quiet_lives].
  destruct (drive _ _ _ _) as [r o] eqn:E. destruct o as [s2| | |]; [|done..].
  cbn [mbind outcome_bind]. intros [= <-].
  assert (lives s s2) as H2.
  { eapply (drive_keeps (request_frame sid) lives); [|by apply quiet_lives|exact E].
    intros s3 f s4 H3 Hf. eapply lives_trans; [exact H3|]. by apply (lives_request_frame sid f). }
  apply (lives_trans s s2); [done|].
  destruct fin; [|apply quiet_lives, quiet_update].
  eapply lives_trans; [apply quiet_lives, quiet_update|apply lives_finished].
Qed.

Lemma lives_close sid s : lives s (stream_close sid s).
Proof.
  unfold stream_close. destruct (streams_ s !! sid) as [ss|]; [|apply lives_refl].
  eapply lives_trans; [|apply quiet_lives, quiet_update]. unfold abandon_promise.
  destruct (mode_ s); [apply lives_refl|]. destruct (promise ss) as [p|]; [|apply lives_refl].
  destruct (heap_ s !! p) as [pr|] eqn:Hp; [|apply lives_refl].
  destruct (pr_complete pr) eqn:Hc; [apply lives_refl|]. apply (lives_settle _ _ _ pr); [done..|].
  intros pr'. by destruct (resp_headers_complete ss).
Qed.

Lemma lives_queued s : lives s (submit_queued_request s).
Proof.
  unfold submit_queued_request. destruct (negb _); [apply lives_refl|].
  set (s1 := s <| has_pending_request_ := false |>).
  pose proof (quiet_send (pending_request_ s1) (pending_promise_ s1) s1) as H.
  destruct (send_request _ _ s1) as [[sid|] s2]; cbn [snd] in H.
  - apply (lives_trans s s1); [by apply quiet_lives, quiet_same|by apply quiet_lives].
  - assert (lives s s2) as H2.
    { apply (lives_trans s s1); [by apply quiet_lives, quiet_same|by apply quiet_lives]. }
    destruct (pending_promise_ s2) as [p|] eqn:Hp; [|done]. apply (lives_trans s s2); [done|].
    split; [done|]. exists []. rewrite app_nil_r. split; [done|]. intros p' pr Hne Hpr.
    exists pr. split; [|by left]. cbn. rewrite lookup_alter_ne; [done|congruence].
Qed.

Lemma lives_event s e s' : run_event s e = Ok s' -> lives s s'.
Proof.
  destruct e as [|sid|sid data fin|sid]; cbn [run_event].
  - intros [= <-]. unfold handshake_completed. set (s1 := open_control_streams _).
    assert (quiet s s1) as H1.
    { subst s1. eapply quiet_trans; [|apply quiet_control]. repeat quiet_step. }
    apply (lives_trans s s1); [by apply quiet_lives|]. destruct (mode_ s1); [apply lives_refl|].
    destruct (has_pending_request_ s1); [apply lives_queued|apply lives_refl].
  - intros [= <-]. apply quiet_lives. unfold stream_open. repeat quiet_step.
  - unfold recv_stream_data. destruct (negb _); [apply lives_uni|apply lives_bidi].
  - intros [= <-]. apply lives_close.
Qed.

Lemma lives_events s es s' : run_events s es = Ok s' -> lives s s'.
Proof.
  revert s. induction es as [|e es IH]; intros s; cbn [run_events]; [intros [= <-]; apply lives_refl|].
  destruct (run_event s e) as [s1| | |] eqn:E; [|done..]. cbn [mbind outcome_bind]. intros H.
  eapply lives_trans; [by apply (lives_event s e)|by apply IH].
Qed.

Lemma lives_packet data s n s' : feed_packet data s = Ok (n, s') -> lives s s'.
Proof.
  unfold feed_packet. destruct (alive_ s); [|intros [= <- <-]; apply lives_refl].
  destruct (conn_ s) as [q|]; [|intros [= <- <-]; apply lives_refl].
  destruct (read_pkt q data) as [[es rv] q']. set (s1 := s <| conn_ := Some q' |>).
  destruct (run_events s1 es) as [s2| | |] eqn:E; [|done..]. cbn [mbind outcome_bind]. intros H.
  apply (lives_trans s s1); [by apply quiet_lives, quiet_same|].
  apply (lives_trans s1 s2); [by apply (lives_events s1 es)|]. apply quiet_lives. revert H.
  destruct rv; intros [= <- <-]; repeat quiet_step.
  destruct (conn_ s2) as [q2|]; [|apply quiet_refl]. destruct (_ && _); [|apply quiet_refl].
  destruct (retry_packet _ _ _ _); repeat quiet_step.
Qed.

Lemma lives_packets packets s s' : feed_packets s packets = Ok s' -> lives s s'.
Proof.
  revert s. induction packets as [|d packets IH]; intros s; cbn [feed_packets];
    [intros [= <-]; apply lives_refl|].
  destruct (feed_packet d s) as [[n s1]| | |] eqn:E; [|done..]. cbn [mbind outcome_bind snd]. intros H.
  eapply lives_trans; [by apply (lives_packet d s n)|by apply IH].
Qed.
End PromiseFacts.

(** ** Pushed responses *)

(** A pushed response as the client sees it when it comes in one delivery. *)
Definition received_push (r : response) : response :=
  {| rs_status := rs_status r; rs_ver := HTTP_3; rs_hdrs := rs_hdrs r; rs_bd := [];
     rs_trailers := [] |}.

Definition append_one (r : response) (kv : header) : response :=
  {| rs_status := rs_status r; rs_ver := rs_ver r; rs_hdrs := rs_hdrs r ++ [kv];
     rs_bd := rs_bd r; rs_trailers := rs_trailers r |}.

Lemma append_fields_plain status r hs :
  Forall (fun kv => byte_at kv.1 0 <> x3a) hs ->
  apply_response_fields status headers_append r hs =
  Ok {| rs_status := rs_status r; rs_ver := rs_ver r; rs_hdrs := rs_hdrs r ++ hs;
        rs_bd := rs_bd r; rs_trailers := rs_trailers r |}.
Proof.
  intros Hh. revert r. induction Hh as [|[k v] hs Hk _ IH]; intros r; cbn [apply_response_fields].
  - rewrite app_nil_r. by destruct r.
  - cbn [fst] in Hk. unfold apply_response_field at 1.
    rewrite bool_decide_eq_false_2 by by apply not_pseudo.
    rewrite bool_decide_eq_false_2 by done. cbn [negb mbind outcome_bind]. rewrite IH.
    unfold headers_append. cbn. by rewrite <- app_assoc.
Qed.

Lemma push_fields r :
  0 <= rs_status r <= INT_MAX -> Forall (fun kv => byte_at kv.1 0 <> x3a) (rs_hdrs r) ->
  apply_response_fields push_stream_status headers_append response_default (response_headers r) =
  Ok {| rs_status := rs_status r; rs_ver := HTTP_11; rs_hdrs := rs_hdrs r; rs_bd := [];
        rs_trailers := [] |}.
Proof.
  intros Hs Hh. unfold response_headers. cbn [apply_response_fields].
  unfold apply_response_field at 1. rewrite bool_decide_eq_true_2 by done.
  assert (push_stream_status (to_string (rs_status r)) = Ok (rs_status r)) as ->.
  { unfold push_stream_status, from_chars_value.
    by rewrite from_chars_to_string by (unfold INT_MAX, INT_MIN in *; lia). }
  cbn [mbind outcome_bind]. by rewrite append_fields_plain.
Qed.

Section Push.
Context `{QU : Quic Q}.

Implicit Types (s : session Q) (ss : stream_state).

(** A reader fed a HEADERS frame and whatever follows it has that frame. *)
Lemma feed_headers block rest :
  0 < len block < VARINT_MAX ->
  let r := (feed frame_reader_init (build_headers_frame block ++ rest)).1 in
  has_frame r = true /\ (take_frame r).1 = {| type := frame_type.HEADERS; payload := block |}.
Proof.
  intros Hl. set (f := {| type := frame_type.HEADERS; payload := block |}).
  assert (frame_ok f) as Hf.
  { split; cbn [type payload f]; unfold frame_type.HEADERS, VARINT_MAX in *; lia. }
  change (build_headers_frame block) with (frame_wire f).
  pose proof (h3_feed_spec frame_reader_init [] (frame_wire f ++ rest) absorbed_init eq_refl) as H.
  destruct (feed frame_reader_init _) as [r n]. destruct H as [_ H]. cbn [app fst] in *.
  pose proof (h3_parse_frame1_wire f rest Hf) as Hp.
  assert (parse_seen (frame_wire f ++ rest) = Some (f, len (frame_wire f))) as Hs.
  { apply parse_seen_some. split; [done|]. intros _. cbn [payload f]. lia. }
  unfold fed in H. destruct (has_frame r).
  - destruct H as (k & Hk & _). split; [done|]. congruence.
  - destruct H as [_ H]. by rewrite Hs in H.
Qed.

Lemma push_received s sid id r ss :
  mode_ s = client -> streams_ s !! sid = Some ss -> headers_complete ss = false ->
  body ss = [] -> reader ss = frame_reader_init -> resp ss = response_default ->
  resp_body ss = [] -> 0 <= id < VARINT_MAX -> sendable (response_headers r) (rs_bd r) ->
  0 <= rs_status r <= INT_MAX -> Forall (fun kv => byte_at kv.1 0 <> x3a) (rs_hdrs r) ->
  exists s' p pr,
    handle_push_stream sid (append_varint [] id ++ message_frames (response_headers r) (rs_bd r))
      true s = Ok s' /\
    completed_promises_ s' = completed_promises_ s ++ [p] /\ heap_ s' !! p = Some pr /\
    pr_complete pr = true /\ pr_is_push pr = true /\ push_id (pr_push_info pr) = id /\
    pr_resp pr = received_push r.
Proof.
  intros Hm Hss Hhc Hbd Hrd Hrs Hrb Hid Hsend Hstat Hh. unfold handle_push_stream. rewrite Hm, Hss.
  set (msg := message_frames _ _). pose proof (message_nonempty _ _ Hsend) as Hpos. fold msg in Hpos.
  unfold append_varint. cbn [app]. unfold feed_push. rewrite Hhc, bool_decide_eq_true_2 by done.
  cbn [negb andb]. rewrite decode_encode_varint by done.
  rewrite len_app, (proj2 (Z.ltb_lt _ _)) by lia. rewrite dropZ_app_len by done.
  change (reader (ss <| send_offset := id |>)) with (reader ss). rewrite Hrd.
  destruct Hsend as (Hok & Hl & _).
  destruct (feed_headers (encode_static (response_headers r))
    (if bool_decide (rs_bd r = []) then [] else build_h3_data (rs_bd r))) as [Hhas Htake].
  { unfold VARINT_MAX. split; [unfold encode_static; blia|lia]. }
  change (build_headers_frame (encode_static (response_headers r)) ++
    (if bool_decide (rs_bd r = []) then [] else build_h3_data (rs_bd r))) with msg in *.
  set (rd := (feed frame_reader_init msg).1) in *. unfold push_frames.
  change (reader (ss <| send_offset := id |> <| reader := rd |>)) with rd. rewrite Hhas.
  destruct (take_frame rd) as [f rd']. cbn [fst] in Htake. subst f. unfold push_frame.
  cbn [type payload]. rewrite Z.eqb_refl, qpack_decode_encode by done. cbn [mbind outcome_bind].
  change (resp (ss <| send_offset := id |> <| reader := rd |> <| reader := rd' |>)) with (resp ss).
  rewrite Hrs, push_fields by done. cbn [mbind outcome_bind andb headers_complete set_field].
  eexists _, _, _. split; [done|]. split; [done|]. split; [apply lookup_insert_eq|].
  split_and!; try done. cbn. by rewrite Hrb.
Qed.

End Push.

(** ** The long header *)

Section LongHeader.
Context `{QU : Quic Q}.

Lemma dropZ_cons i (p : bytes) : 0 <= i < len p -> dropZ i p = byte_at p i :: dropZ (i + 1) p.
Proof.
  intros Hi. unfold dropZ, byte_at, len in *.
  destruct (lookup_lt_is_Some_2 p (Z.to_nat i)) as [b Hb]; [lia|].
  rewrite Hb. cbn [default]. rewrite (drop_S _ _ _ Hb). do 2 f_equal. lia.
Qed.

Lemma strict_cid_spec (data : bytes) off c n :
  0 <= off ->
  strict_cid data off = Some (c, n) <->
  len c <= max_cidlen /\ len c < 256 /\ n = off + 1 + len c /\
  exists rest, dropZ off data = b8 (len c) :: c ++ rest /\ rest = dropZ n data.
Proof.
  intros Hoff. unfold strict_cid. split.
  - destruct (Z.leb_spec (len data) off) as [Hl|Hl]; [done|].
    pose proof (u8_range (byte_at data off)) as Hb. set (k := u8 (byte_at data off)) in *.
    destruct (Z.ltb_spec (len data) (off + 1 + k)) as [H1|H1]; [done|].
    destruct (Z.ltb_spec max_cidlen k) as [H2|H2]; [done|]. cbn [orb]. intros [= <- <-].
    assert (len (takeZ k (dropZ (off + 1) data)) = k) as Hk by blia.
    rewrite Hk. split_and!; [done|lia|lia|].
    exists (dropZ (off + 1 + k) data). split; [|done].
    rewrite (dropZ_cons off) by lia. unfold k at 1. rewrite b8_u8. f_equal.
    rewrite <- (takeZ_dropZ k (dropZ (off + 1) data)) at 1. f_equal. apply dropZ_dropZ; lia.
  - intros (Hm & H256 & -> & rest & Hd & ->). pose proof (len_nonneg c).
    assert (off < len data) as Hl.
    { destruct (Z.ltb_spec off (len data)); [done|]. by rewrite dropZ_all in Hd by lia. }
    rewrite (proj2 (Z.leb_gt _ _)) by lia.
    rewrite (dropZ_cons off) in Hd by lia. injection Hd as Hb Hd.
    rewrite Hb, u8_b8_small by lia. pose proof (f_equal len Hd) as Hlen.
    rewrite len_app, !len_dropZ in Hlen.
    rewrite (proj2 (Z.ltb_ge _ _)) by lia. rewrite (proj2 (Z.ltb_ge _ _)) by lia.
    cbn [orb]. by rewrite Hd, takeZ_app_len.
Qed.

Lemma strict_cid_at (pre c post : bytes) off :
  len c <= max_cidlen -> len c < 256 -> off = len pre ->
  strict_cid (pre ++ ([b8 (len c)] ++ c) ++ post) off = Some (c, off + 1 + len c).
Proof.
  intros Hm H256 ->. pose proof (len_nonneg pre). apply strict_cid_spec; [done|].
  split_and!; [done..|]. eexists. split; [|done]. rewrite dropZ_app_len by done.
  rewrite app_assoc, (dropZ_app_len (len pre + 1 + len c)) by (autorewrite with len; lia).
  by rewrite <- app_assoc.
Qed.

(** A packet with a long header: the flags, the version, both ids with their
    lengths, and the rest. *)
Definition long_packet (flags : byte) (h : long_header) (rest : bytes) : bytes :=
  [flags] ++ be32 (lh_version h) ++ [b8 (len (lh_dcid h))] ++ lh_dcid h ++
  [b8 (len (lh_scid h))] ++ lh_scid h ++ rest.

Definition long_header_ok (h : long_header) : Prop :=
  0 <= lh_version h < 2 ^ 32 /\
  len (lh_dcid h) <= max_cidlen /\ len (lh_dcid h) < 256 /\
  len (lh_scid h) <= max_cidlen /\ len (lh_scid h) < 256.

Lemma first_five (data : bytes) :
  5 <= len data -> data = [byte_at data 0] ++ be32 (version_of data) ++ dropZ 5 data.
Proof.
  intros Hl. destruct data as [|a [|b [|c [|d [|e data]]]]]; try blia.
  change (version_of (a :: b :: c :: d :: e :: data)) with (rd32 ([b; c; d; e] ++ data) 0).
  by rewrite be32_rd32.
Qed.

Lemma version_range data : 0 <= version_of data < 2 ^ 32.
Proof.
  change (version_of data) with (rd32 data 1). rewrite rd32_val.
  pose proof (u8_range (byte_at data 1)). pose proof (u8_range (byte_at data (1 + 1))).
  pose proof (u8_range (byte_at data (1 + 2))). pose proof (u8_range (byte_at data (1 + 3))). lia.
Qed.

Lemma parse_long_complete flags h rest :
  Z.land (u8 flags) 0x80 <> 0 -> long_header_ok h ->
  parse_long_header (long_packet flags h rest) = Some h.
Proof.
  intros Hfl (Hv & Hd & Hd' & Hs & Hs'). unfold parse_long_header, is_long.
  set (data := long_packet flags h rest).
  assert (5 <= len data) as Hl by (unfold data, long_packet; blia).
  rewrite (proj2 (Z.ltb_ge _ _)) by done.
  change (byte_at data 0) with flags. rewrite (proj2 (Z.eqb_neq _ _)) by done. cbn [negb].
  assert (version_of data = lh_version h) as Hver.
  { change (version_of data) with (rd32 data 1). unfold data, long_packet.
    rewrite rd32_shift by done. rewrite rd32_be32. lia. }
  assert (data = ([flags] ++ be32 (lh_version h)) ++ ([b8 (len (lh_dcid h))] ++ lh_dcid h) ++
                 [b8 (len (lh_scid h))] ++ lh_scid h ++ rest) as E
    by (unfold data, long_packet; by rewrite <- !app_assoc).
  assert (data = ([flags] ++ be32 (lh_version h) ++ [b8 (len (lh_dcid h))] ++ lh_dcid h) ++
                 ([b8 (len (lh_scid h))] ++ lh_scid h) ++ rest) as E'
    by (unfold data, long_packet; by rewrite <- !app_assoc).
  rewrite E at 1. rewrite (strict_cid_at _ _ _ 5) by (done || lia).
  rewrite E' at 1. rewrite strict_cid_at by (autorewrite with len; lia).
  rewrite Hver. by destruct h.
Qed.

Lemma parse_long_sound data h :
  parse_long_header data = Some h ->
  long_header_ok h /\ exists flags rest,
    Z.land (u8 flags) 0x80 <> 0 /\ data = long_packet flags h rest.
Proof.
  unfold parse_long_header. destruct (Z.ltb_spec (len data) 5) as [Hl|Hl]; [done|].
  unfold is_long. rewrite negb_involutive.
  destruct (Z.eqb_spec (Z.land (u8 (byte_at data 0)) 0x80) 0) as [Hf|Hf]; [done|].
  destruct (strict_cid data 5) as [[dcid off]|] eqn:E1; [|done].
  destruct (strict_cid data off) as [[scid off2]|] eqn:E2; [|done]. intros [= <-].
  apply strict_cid_spec in E1; [|lia]. destruct E1 as (H1 & H2 & -> & r1 & Hd1 & Hr1).
  pose proof (len_nonneg dcid). apply strict_cid_spec in E2; [|lia].
  destruct E2 as (H3 & H4 & -> & r2 & Hd2 & Hr2).
  split; [split_and!; cbn; try done; apply version_range|].
  exists (byte_at data 0), r2. split; [done|]. unfold long_packet. cbn [lh_version lh_dcid lh_scid].
  rewrite (first_five data) at 1 by lia. rewrite Hd1, Hr1, Hd2. done.
Qed.
End LongHeader.

(** ** Properties *)

(** C9: a promise is settled at most once.  Whatever packets a session is fed, a
    promise that is complete keeps its response and is not resumed again; one
    that is not stays as it is, or becomes complete and its waiter, if there is
    one, is resumed exactly once.  The exception is the promise of a request
    that was queued until the handshake. *)
Theorem h3_promise_settled_once `{QU : Quic Q} (s s' : session Q) (packets : list bytes)
    (p : nat) (pr : response_promise) :
  feed_packets s packets = Ok s' -> heap_ s !! p = Some pr -> pending_promise_ s <> Some p ->
  exists pr' es, heap_ s' !! p = Some pr' /\ effects_ s' = effects_ s ++ es /\
    promise_fate p pr pr' (resumptions p es).
Proof.
  intros H Hp Hne. destruct (lives_packets packets s s' H) as [_ (es & He & Hf)].
  destruct (Hf p pr Hne Hp) as (pr' & Hp' & Hfate). by exists pr', es.
Qed.

(** What the server of [h3_exchange] answers. *)
Definition test_reply : bytes :=
  let r := test_handler (received_request test_post) in
  message_frames (response_headers r) (rs_bd r).

(** The answer arrives twice: the second packet finds the promise complete. *)
Lemma h3_promise_settled_once_witness :
  let c := (submit_request test_post (Some 0%nat) ready_client).2 in
  let o := feed_packets c [test_reply; test_reply] in
  exists pr' es, (match o with Ok s' => heap_ s' !! 0%nat = Some pr' /\ effects_ s' = effects_ c ++ es
                  | _ => False end) /\
    pr_complete pr' = true /\ resumptions 0 es = 1 /\
    promise_fate 0 (new_promise <| pr_waiter := true |>) pr' (resumptions 0 es).
Proof.
  intros c o. destruct o as [s'| | |] eqn:E; [|by vm_compute in E..].
  destruct (h3_promise_settled_once c s' [test_reply; test_reply] 0
              (new_promise <| pr_waiter := true |>) E) as (pr' & es & Hh & He & Hf).
  - by vm_compute.
  - by vm_compute.
  - exists pr', es. assert (pr_complete pr' = true /\ resumptions 0 es = 1) as [Hc Hn].
    { assert ((match o with Ok s => pr_complete <$> heap_ s !! 0%nat | _ => None end) = Some true) as E'
        by by vm_compute. rewrite E, Hh in E'. injection E' as Hc.
      split; [done|]. destruct Hf as [[-> _]|(_ & _ & _ & ->)]; done. }
    exact (conj (conj Hh He) (conj Hc (conj Hn Hf))).
Defined.

(** A pushed response loses its body.  When a push arrives in one delivery,
    the client's promise is complete, with the push id, the status and the
    headers of the response, but the body is empty whatever was pushed: the loop
    of [handle_push_stream] takes the HEADERS frame and does not feed the reader
    the bytes after it. *)
Theorem h3_push_body_lost `{QU : Quic Q} (s : session Q) (sid id : Z) (r : response) :
  mode_ s = client -> Z.land sid 2 <> 0 -> streams_ s !! sid = None ->
  uni_stream_buf_ s !! sid = None -> 0 <= id < VARINT_MAX ->
  sendable (response_headers r) (rs_bd r) -> 0 <= rs_status r <= INT_MAX ->
  Forall (fun kv => byte_at kv.1 0 <> x3a) (rs_hdrs r) ->
  exists s' p pr, run_event s (StreamData sid (push_data id r) true) = Ok s' /\
    completed_promises_ s' = completed_promises_ s ++ [p] /\ heap_ s' !! p = Some pr /\
    pr_complete pr = true /\ pr_is_push pr = true /\ push_id (pr_push_info pr) = id /\
    pr_resp pr = received_push r.
Proof.
  intros Hm Hsid Hss Hbuf Hid Hsend Hstat Hh. cbn [run_event]. unfold recv_stream_data.
  rewrite (proj2 (Z.eqb_neq _ _) Hsid). cbn [negb]. unfold recv_uni.
  rewrite (touch_new _ _ Hss), (update_at sid _ new_stream), at_twice by apply at_lookup.
  change (uni_stream_buf_ (at_stream _ _ s)) with (uni_stream_buf_ s). rewrite Hbuf. cbn [default app].
  assert (push_data id r = [x01] ++ append_varint [] id ++
            message_frames (response_headers r) (rs_bd r)) as ->.
  { unfold push_data. rewrite app_assoc. done. }
  change (decode_varint ([x01] ++ ?x)) with (Some (1, stream_type.PUSH)). cbv iota beta.
  rewrite dropZ_app_len by done. unfold uni_payload. cbn [Z.eqb].
  set (s1 := set_field _ _ _).
  apply (push_received s1 sid id r (new_stream <| stream_id := sid |>)); try done. apply at_lookup.
Qed.

Lemma h3_push_body_lost_witness :
  exists s' p pr,
    run_event ready_client (StreamData 14 (push_data 5 (test_handler test_post)) true) = Ok s' /\
    heap_ s' !! p = Some pr /\ rs_bd (test_handler test_post) = str "pong: ping" /\
    rs_bd (pr_resp pr) = [] /\ pr_complete pr = true.
Proof.
  destruct (h3_push_body_lost ready_client 14 5 (test_handler test_post))
    as (s' & p & pr & Hrun & _ & Hp & Hc & _ & _ & Hr).
  - done.
  - done.
  - done.
  - done.
  - done.
  - apply (bool_decide_unpack _). by vm_compute.
  - done.
  - repeat constructor; done.
  - exists s', p, pr. rewrite Hr. exact (conj Hrun (conj Hp (conj eq_refl (conj eq_refl Hc)))).
Defined.

(** The bytes of a QPACK encoder stream are processed again with every delivery
    of the stream: an entry inserted by the first is inserted twice after the
    second, even if that is empty. *)
Lemma encoder_stream_replays :
  let first := [x02] ++ example_instructions in
  (match run_events ready_client [StreamData 10 first false] with
   | Ok s => qt_insert_count (qd_dynamic_table (qpack_decoder_ s)) | _ => 0 end,
   match run_events ready_client [StreamData 10 first false; StreamData 10 [] false] with
   | Ok s => qt_insert_count (qd_dynamic_table (qpack_decoder_ s)) | _ => 0 end) = (2, 4).
Proof. by vm_compute. Qed.

(** [init_server_from_packet] reads exactly the long headers: what it
    accepts is a packet with the header form bit, a version, two connection ids
    of at most [NGTCP2_MAX_CIDLEN] bytes and anything after them, and it takes the
    version and the ids from it; a packet cut short of its ids is refused. *)
Theorem h3_long_header_exact `{QU : Quic Q} (data : bytes) (h : long_header) :
  parse_long_header data = Some h <->
  long_header_ok h /\ exists flags rest,
    Z.land (u8 flags) 0x80 <> 0 /\ data = long_packet flags h rest.
Proof.
  split; [apply parse_long_sound|].
  intros (Hh & flags & rest & Hf & ->). by apply parse_long_complete.
Qed.

Lemma h3_long_header_exact_witness :
  let h := {| lh_version := 1; lh_dcid := str "destined"; lh_scid := str "src" |} in
  parse_long_header (long_packet xc3 h (str "payload")) = Some h.
Proof.
  apply h3_long_header_exact. split; [by vm_compute|]. exists xc3, (str "payload"). done.
Defined.
